(* ===== verification/_CoqProject ===== *)
-Q . S2P
Prelude.v
GoStd.v
Bytes.v
FarmHash.v
Thrift.v
ThriftSpec.v
Rpc.v
Typed.v
Retry.v
Service.v
TreeIface.v
RBTree.v
RBRep.v
RBInsert.v
RBPush.v
RBDelete.v
RBMap.v
HashRing.v
HashRingSpec.v
RingProps.v
NodeState.v
Util.v
UtilSpec.v
Memberlist.v
Disseminator.v
Suspicion.v
Rollup.v
RollupLocks.v
Membership.v
MemberIter.v
Frames.v
Advances.v
MembershipSpec.v
UpdateSpec.v
SwimOrder.v
Ping.v
NodeCore.v
GossipLoops.v
Metrics.v
SwimProps.v
DisseminatorSpec.v
IterSpec.v
SyncProps.v
Detection.v
Samples.v
SwimWitness.v
JoinDelayer.v
JoinSender.v
Keeper.v
Authority.v
Soundness.v
Turns.v
JoinProps.v
JoinWitness.v
Cluster.v
ClusterWitness.v
Forwarder.v
ForwarderSpec.v
Ringpop.v
Stats.v
RingpopProps.v
RingpopLife.v
Converge.v
StatsWitness.v
Racing.v
Logging.v
Router.v
Adapter.v
Replicator.v
ReplicatorSpec.v
ReplicaRing.v
