(* ===== verification/Prelude.v ===== *)
(** * ringpop-go: a consistent-hash ring over SWIM membership

    The program keeps, in every process of a cluster, a list of the other
    processes (the members), a hash ring of the ones believed alive, and
    forwards requests to the process that owns a key.  Its parts call each
    other as follows.  A node ([swim/]) pings members in turns, gossips changes
    of membership and applies those it hears of; the facade ([ringpop.go])
    listens to the node and puts the applied changes on the ring
    ([hashring/]); requests look up the owner of their key on the ring and go
    to it through the forwarder ([forward/]), alone, replicated ([replica/]) or
    through cached clients ([router/]).

    ** How the code is modelled

    A Go function that changes state is a computation of the monad [M] below: a
    function from the state to a result and a new state, or to [None] when it
    panics (nil dereference, index out of range, explicit panic).  Theorems
    about calls say that the call returns and what it returns ([wp] is total
    correctness).  Pointers are keys of a store: the nodes of the tree and the
    members of the list are objects that several places refer to.  What a run
    takes from outside (the clock, random numbers, the order in which Go ranges
    over a map, answers of peers, answers of lookups during a retry) are
    streams that the state carries and that the theorems quantify over.
    Events are recorded with the listener they go to; in the facade the
    recorded events of an operation are then handled in their order.  The ring
    takes its hash function as a parameter; the one the program uses is
    modelled bit by bit and put in its place in examples.  Errors are values.
    Integers are unbounded except where the width matters: hash values are 32
    bits wide, [Atoi] and the incarnations in JSON 64, levels 8, the integers of
    the wire format their own widths; what the program logs is not modelled.

    ** Files

    - [Prelude], [GoStd]: the monad, its rules, shared lemmas; slices in range
      order, sorting and formatting as Go has them.  [Bytes]: integers and
      strings as bytes.  [FarmHash]: the 32-bit hash of the vendored go-farm.
    - [Thrift] (SerializeThrift and DeserializeThrift of ringpop.go, the binary
      protocol of the vendored Thrift library, the structs of the example),
      [ThriftSpec]: round trips, skipping of unknown fields, termination.
      [Rpc]: the messages of that protocol and the client and processor of
      plain Thrift (pingpong.go).
    - [Typed] (typed/ and thrift/headers.go of the vendored TChannel): buffers
      and the headers of a call.  [Retry] (retry.go of the vendored TChannel):
      which errors are retried and the loop of attempts.  [Service]: a call from
      the generated client (tchan-pingpong.go) to the handler behind the server,
      over thrift/client.go with its retries and thrift/server.go; the faults of
      the network are a stream.
    - [TreeIface]: the operations the ring asks of its tree, as a class, with
      the laws it relies on.  [RBTree] (hashring/rbtree.go) implements it at
      pointer level; [RBRep] says which store holds which tree; [RBInsert],
      [RBPush], [RBDelete] verify the loops; [RBMap] discharges the laws.
    - [HashRing] (hashring/hashring.go), [HashRingSpec], [RingProps]: the ring
      over any tree with these laws, its abstract server set and the theorems.
    - [NodeState] (the records of swim/), [Memberlist], [Disseminator],
      [Suspicion], [Rollup], [Membership] (memberlist.go's Update and what it
      calls through node.go), [MemberIter], [Ping] (the ping, ping-req and join
      messages), [NodeCore] (gossip.go, node.go, handlers.go, stats.go).
      [GossipLoops]: the goroutines of gossip.go and the calls of Start and Stop,
      move by move; [Metrics]: the
      sample of the vendored go-metrics that the protocol rate is taken from.
    - [Frames], [Advances]: relations that every operation of a node respects,
      and the clock readings an operation takes.
    - [Util] (util/util.go), [UtilSpec].
    - [MembershipSpec], [UpdateSpec], [SwimOrder]: the membership as a map from
      addresses to incarnation and status, and Update as merging into it.
      [SwimProps], [DisseminatorSpec], [IterSpec], [SyncProps], [Detection]: the
      theorems; [Samples], [SwimWitness]: concrete nodes for them.
    - [RollupLocks]: the mutexes of update_rollup.go as interleaved threads.
    - [JoinDelayer], [JoinSender] (join_delayer.go, join_sender.go,
      node_bootstrap.go, Bootstrap of node.go), [JoinProps], [JoinWitness].
    - [Keeper]: the interface of an invariant that the operations of a node keep
      (a class with laws), and for every keeper that each stretch of a node's
      code keeps it.  Its instances are [Authority], who may say which
      incarnation a member has, and [Soundness], what a node needs for its code
      to run.  [Turns]: whole turns of the protocol loop and whole ping requests.
      [Cluster]: any number of nodes that start, act and exchange messages, as a
      step relation whose parameter says how processes may start;
      [ClusterWitness].
    - [Forwarder] (forward/), [ForwarderSpec].
    - [Ringpop] (ringpop.go, options.go, handlers.go, util.go), [RingpopProps],
      [RingpopLife]: the composition of node, ring and forwarder; [Racing]:
      concurrent updates of one instance; [Converge]: instances that hear the
      same gossip.  [Stats] (stats_handler.go,
      ProtocolStats), [StatsWitness].
    - [Logging] (logging/), [Router] (router/), [Adapter] (the generated
      adapter of examples/pingpong, in processes that call each other through
      [Service]), [Replicator],
      [ReplicatorSpec] (replica/) and [ReplicaRing], which states what the
      replicator asks of its sender as a class and that a ring provides it.

    ** What is shown

    The tree: insertion and deletion never panic, keep the red-black
    invariant and refine a finite map; reads read that map; the height is
    logarithmic.  The ring, as long as no two replica points have one hash
    value: every history of operations leaves exactly the replica points of the
    resulting server set, so ownership depends on the set only, and a server
    that joins or leaves moves only its own keys.  The
    membership: Update keeps list, index and checksum consistent; nodes that
    hear the same changes agree in whatever order they hear them; knowledge
    only moves forward; rumours about a node are refuted; members that answer
    nobody are suspected, unless as many helpers failed as are configured;
    suspects have exactly one timer and become faulty
    when it fires; a change is disseminated exactly so many times; a full sync
    brings a node up to date, and two of them, one each way, make nodes agree.
    The cluster, in every state that nodes and messages can reach: if the
    options are not negative no node panics, whatever the clocks; if clocks do
    not step back, also not across restarts, every incarnation that is believed
    or on its way was taken by the member it is about, and a member that refutes
    a rumour is believed by all that hear it.  The gossip loops: one of each kind
    runs while gossip is on, if each Start that finds it stopped comes alone and
    after the loops have ended; they end after a stop, and the rate they follow
    is bounded.  The hash is total and 32 bits wide; keys that differ in their
    first four bytes only are told apart.  Joining ends if the clock moves on and
    succeeds for the reasons it should, a node counted twice apart; delays grow
    in doubling windows.  The composition: alive members are on the ring and
    others are not; instances that hear the same gossip, in batches that mention
    no member twice and no rumour about themselves, look up every key at the same
    owner once nobody is suspected; goroutines that update different members at
    once leave the ring right whatever the schedule, also one that blocks in the
    rollup; a request is handled by the owner of its key or forwarded to it in a
    bounded number of calls; a replicated request is forwarded once for each
    replica and succeeds when a quorum of these was answered, by the replicas
    themselves if retries are not rerouted; racing callers share one client per
    destination; calls through the adapters make at most one hop, to one process,
    although rings disagree.  The wire: Thrift structs survive it, also between
    versions; so do the headers of a call, in whatever order they are written; a
    call through the generated client and server is a call of the handler, as
    often as the client attempts it.
    Some theorems and lemmas show where the code does not do what it means to:
    names of replicas that clash, updates that race, batches whose order
    matters, suspects that divide the rings, timers that outlive their
    suspicion, refutations with a late clock, mutexes taken in two orders,
    schedules that are too short, instances that are revived, gossip that is
    restarted in haste or started twice at once, options that are not checked, a
    quorum that one server fills, a depth limit that maps escape, a count of
    headers that wraps around.

    ** Bounds

    Loops that are not structurally recursive carry fuel, and the fuel given
    by the definitions is proved enough: the loops of the tree get one unit
    more than there are nodes, the iterator two passes over the list, the
    request sender one unit per call with MaxRetries + 1 calls at most, and the
    join loop as many units as readings of the clock that reach the limit.
    Skipping a Thrift value gets the depth limit plus as much for every byte of
    the input, since each map starts its values from the full depth and takes
    bytes; the loops over fields get one turn per byte.

    ** Not modelled

    Goroutines are interleaved where a claim depends on it (gossip loops and the
    calls that start and stop them, rollup, router, racing updates, the actions
    of the nodes of a cluster between their remote calls); elsewhere the operations under a lock are
    atomic, parallel joins, ping requests and replicated requests run one after
    another in an order taken from outside, and blocked goroutines are not
    represented.  Not modelled: timers' real time, the transport of TChannel (a
    call arrives whole or fails with one of its errors), response headers and
    registration of handlers, JSON encodings (the timestamp apart), the meters
    and the floating-point variance of the metrics, log output, test utilities,
    the examples (the generated code of pingpong apart) and the vendored code
    that the theorems do not need. *)

From stdpp Require Export base tactics option list gmap strings fin_maps sorting.
From Stdlib Require Export ZArith Lia.

#[global] Set Default Goal Selector "!".
#[local] Open Scope Z_scope.

(** ** A state monad with panics

    A Go function that mutates shared state is a computation [M S A]: it takes
    the state and either returns a value and the new state, or panics
    ([None]: nil dereference, index out of range, explicit [panic]). *)
Definition M (S A : Type) : Type := S → option (A * S).

#[global] Instance M_ret S : MRet (M S) := λ A a s, Some (a, s).
#[global] Instance M_bind S : MBind (M S) := λ A B f m s,
  match m s with
  | Some (a, s') => f a s'
  | None => None
  end.

Definition panic {S A} : M S A := λ _, None.
Definition get {S} : M S S := λ s, Some (s, s).
Definition gets {S A} (f : S → A) : M S A := λ s, Some (f s, s).
Definition modify {S} (f : S → S) : M S unit := λ s, Some (tt, f s).
Definition when {S} (b : bool) (m : M S unit) : M S unit :=
  if b then m else mret tt.

(** The loop [for _, x := range l { body x }]. *)
Fixpoint for_each {S A} (l : list A) (body : A → M S unit) : M S unit :=
  match l with
  | [] => mret tt
  | x :: l => body x;; for_each l body
  end.

(** Total correctness: [m] does not panic from [s] and [Q] holds of its result. *)
Definition wp {S A} (m : M S A) (Q : A → S → Prop) (s : S) : Prop :=
  match m s with
  | Some (a, s') => Q a s'
  | None => False
  end.

Section wp.
Context {S : Type}.

Lemma wp_ret {A} (a : A) (Q : A → S → Prop) s : Q a s → wp (mret a) Q s.
Proof. done. Qed.

Lemma wp_bind {A B} (m : M S A) (f : A → M S B) Q s :
    wp m (λ a, wp (f a) Q) s → wp (m ≫= f) Q s.
Proof. unfold wp, mbind, M_bind. by destruct (m s) as [[a s']|]. Qed.

(** What ran to its end, ran its parts. *)
Lemma bind_run {A B} (m : M S A) (f : A → M S B) s y s' :
  (m ≫= f) s = Some (y, s') → ∃ x s1, m s = Some (x, s1) ∧ f x s1 = Some (y, s').
Proof. unfold mbind, M_bind. destruct (m s) as [[x s1]|]; [|done]. eauto. Qed.

Lemma wp_gets {A} (f : S → A) (Q : A → S → Prop) s : Q (f s) s → wp (gets f) Q s.
Proof. done. Qed.

Lemma wp_modify (f : S → S) (Q : unit → S → Prop) s : Q tt (f s) → wp (modify f) Q s.
Proof. done. Qed.

Lemma wp_mono {A} (m : M S A) (P Q : A → S → Prop) s :
    wp m P s → (∀ a s', P a s' → Q a s') → wp m Q s.
Proof. unfold wp. destruct (m s) as [[a s']|]; auto. Qed.

Lemma wp_run {A} (m : M S A) (Q : A → S → Prop) s :
    wp m Q s → ∃ a s', m s = Some (a, s') ∧ Q a s'.
Proof. unfold wp. destruct (m s) as [[a s']|]; naive_solver. Qed.

Lemma wp_eq {A} (m : M S A) (Q : A → S → Prop) s a s' :
    m s = Some (a, s') → Q a s' → wp m Q s.
Proof. unfold wp. by intros ->. Qed.

Lemma wp_and {A} (m : M S A) (P Q : A → S → Prop) s :
    wp m P s → wp m Q s → wp m (λ a s', P a s' ∧ Q a s') s.
Proof. unfold wp. destruct (m s) as [[a s']|]; auto. Qed.

  (** The loop rule: [I] holds of the elements done so far. *)
Lemma wp_for_each {A} (body : A → M S unit) (I : list A → S → Prop) :
    (∀ pre x s, I pre s → wp (body x) (λ _, I (pre ++ [x])) s) →
    ∀ l pre s, I pre s → wp (for_each l body) (λ _, I (pre ++ l)) s.
Proof.
    intros Hbody l. induction l as [|x l IH]; intros pre s HI; simpl.
    - by rewrite app_nil_r.
    - apply wp_bind. eapply wp_mono; [by apply Hbody|].
      intros [] s' HI'. rewrite cons_middle, (assoc_L (++)). by apply IH.
Qed.
End wp.

(** ** Lists *)
Lemma filter_none {A} (P : A → Prop) `{∀ x, Decision (P x)} (l : list A) :
  Forall (λ x, ¬ P x) l → filter P l = [].
Proof.
  induction 1 as [|x l Hx _ IH]; [done|]. by rewrite filter_cons, decide_False.
Qed.

Lemma filter_every {A} (P : A → Prop) `{∀ x, Decision (P x)} (l : list A) :
  Forall P l → filter P l = l.
Proof.
  induction 1 as [|x l Hx _ IH]; [done|]. rewrite filter_cons, decide_True by done. by f_equal.
Qed.

(** Elements with equal images under a map without repetitions are equal. *)
Lemma nodup_fmap_inj {A B} (f : A → B) (l : list A) x y :
  NoDup (f <$> l) → x ∈ l → y ∈ l → f x = f y → x = y.
Proof.
  induction l as [|z l IH]; simpl; [intros _ Hx; by apply elem_of_nil in Hx|]. intros [Hz Hnd]%NoDup_cons.
  rewrite !elem_of_cons. intros [->|Hx] [->|Hy] Hf; [done|..|by apply IH]; destruct Hz; [rewrite Hf|rewrite <-Hf];
    by apply list_elem_of_fmap_2.
Qed.

Lemma insert_middle {A} (l1 l2 : list A) x y :
  <[length l1 := y]> (l1 ++ x :: l2) = l1 ++ y :: l2.
Proof. induction l1 as [|z l1 IH]; simpl; [done|]. by rewrite <-IH. Qed.
