(* ===== verification/GoStd.v ===== *)
(** * GoStd: the parts of Go's language and standard library the source uses

    Sorting and joining of strings, the decimal printing of integers, the
    iteration order of [range] over a map, and machine-width arithmetic. *)
From stdpp Require Export pretty.
From S2P Require Import Prelude.
#[local] Open Scope Z_scope.

(** ** Machine integers *)

(** [int] and [int64]: 64-bit two's complement. *)
Definition int64 (z : Z) : Z := (z + 2^63) mod 2^64 - 2^63.
Definition uint32 (z : Z) : Z := z mod 2^32.

(** ** [range] over a map

    Go visits the entries in an unspecified order that may differ from one
    loop to the next.  The order is an argument of the model: [choice] is a
    list of numbers that picks one permutation, and every permutation is
    picked by some list ([arrange_complete]). *)
Definition choice : Type := list nat.

Fixpoint arrange {A} (c : choice) (l : list A) : list A :=
  match l with
  | [] => []
  | x :: l =>
      let r := arrange (tail c) l in
      take (hd 0%nat c) r ++ x :: drop (hd 0%nat c) r
  end.

Lemma arrange_perm {A} c (l : list A) : arrange c l ≡ₚ l.
Proof.
  revert c. induction l as [|x l IH]; intros c; simpl; [done|].
  by rewrite <-Permutation_middle, take_drop, IH.
Qed.

Lemma arrange_one {A} c (x : A) : arrange c [x] = [x].
Proof. by destruct c as [|[]]. Qed.

Lemma arrange_complete {A} (l l' : list A) : l' ≡ₚ l → ∃ c, arrange c l = l'.
Proof.
  revert l'. induction l as [|x l IH]; intros l' Hp.
  - apply Permutation_nil_r in Hp as ->. by exists [].
  - destruct (list_elem_of_split l' x) as (l1 & l2 & ->); [rewrite Hp; set_solver|].
    rewrite <-Permutation_middle in Hp. apply Permutation_cons_inv in Hp.
    destruct (IH _ Hp) as [c Hc]. exists (length l1 :: c). simpl.
    rewrite Hc, take_app_length, drop_app_length. done.
Qed.

(** Ranging over a map and inserting what is found. *)
Lemma foldl_insert_union {V} (l : list (string * V)) (m : gmap string V) :
  NoDup l.*1 → foldl (λ m x, <[x.1 := x.2]> m) m l = list_to_map l ∪ m.
Proof.
  revert m. induction l as [|[k v] l IH]; intros m Hnd; simpl; [by rewrite (left_id_L ∅ (∪))|].
  apply NoDup_cons in Hnd as [Hk Hnd]. rewrite IH by done.
  rewrite <-insert_union_r, insert_union_l; [done|]. by apply not_elem_of_list_to_map_1.
Qed.

Lemma arranged_map {V} c (m : gmap string V) :
  NoDup (arrange c (map_to_list m)).*1 ∧ list_to_map (arrange c (map_to_list m)) = m.
Proof.
  assert (NoDup (arrange c (map_to_list m)).*1) as Hnd.
  { rewrite arrange_perm. apply NoDup_fst_map_to_list. }
  split; [done|]. rewrite <-(list_to_map_to_list m) at 2. apply list_to_map_proper; [done|apply arrange_perm].
Qed.

(** ** Strings *)

(** [sort.Strings] orders by bytes. *)
Definition string_le (a b : string) : Prop := String.leb a b = true.
#[global] Instance string_le_dec a b : Decision (string_le a b) := decide (String.leb a b = true).

#[global] Instance string_le_total : Total string_le.
Proof. intros a b. apply String.leb_total. Qed.
#[global] Instance string_le_antisym : AntiSymm (=) string_le.
Proof. intros a b. apply String.leb_antisym. Qed.

#[global] Instance string_le_trans : Transitive string_le.
Proof.
  unfold string_le, String.leb. intros a. induction a as [|x a IH]; intros [|y b] [|z c]; simpl; try done.
  specialize (IH b c). unfold Ascii.compare.
  destruct (N.compare_spec (Ascii.N_of_ascii x) (Ascii.N_of_ascii y));
    destruct (N.compare_spec (Ascii.N_of_ascii y) (Ascii.N_of_ascii z));
    destruct (N.compare_spec (Ascii.N_of_ascii x) (Ascii.N_of_ascii z)); try done; lia.
Qed.

Definition sortStrings (l : list string) : list string := merge_sort string_le l.

Lemma sortStrings_perm l : sortStrings l ≡ₚ l.
Proof. apply merge_sort_Permutation. Qed.

Lemma sortStrings_sorted l : Sorted string_le (sortStrings l).
Proof. apply Sorted_merge_sort. apply _. Qed.

(** Sorting forgets the order of its input. *)
#[global] Instance sortStrings_proper : Proper ((≡ₚ) ==> (=)) sortStrings.
Proof.
  intros l l' Hp. apply (Sorted_unique string_le); [apply sortStrings_sorted..|].
  by rewrite !sortStrings_perm.
Qed.

Lemma sort_arrange c l : sortStrings (arrange c l) = sortStrings l.
Proof. by rewrite arrange_perm. Qed.

(** [strings.Join]. *)
Definition join (sep : string) (l : list string) : string := String.concat sep l.

(** [fmt.Sprintf("%s%v", s, i)] for an [int]. *)
Definition sprint_sv (s : string) (i : Z) : string := s +:+ pretty i.
