(* ===== verification/Bytes.v ===== *)
(** * Bytes: strings and machine integers as sequences of bytes

    A byte is an integer from 0 to 255.  A Go string is its bytes; a number is
    written most significant byte first, as encoding/binary's BigEndian does. *)
From Stdlib Require Import Ascii.
From S2P Require Import Prelude GoStd.
#[local] Open Scope Z_scope.

(** [[]byte(s)] *)
Definition bytesOf (s : string) : list Z := (λ c, Z.of_N (N_of_ascii c)) <$> String.list_ascii_of_string s.

Definition stringOf (l : list Z) : string := String.string_of_list_ascii ((λ b, ascii_of_N (Z.to_N b)) <$> l).

(** The low [n] bytes of a number, most significant first (binary.BigEndian). *)
Fixpoint putUint (n : nat) (v : Z) : list Z :=
  match n with
  | O => []
  | S n => putUint n (Z.shiftr v 8) ++ [v mod 256]
  end.

Definition getUint (l : list Z) : Z := foldl (λ acc b, acc * 256 + b) 0 l.

(** The conversion to a signed integer of [w] bits. *)
Definition signed (w : Z) (z : Z) : Z := (z + 2 ^ (w - 1)) mod 2 ^ w - 2 ^ (w - 1).

(** ** Round trips *)
Lemma putUint_length n v : length (putUint n v) = n.
Proof. revert v. induction n as [|n IH]; intros v; simpl; [done|]. rewrite length_app, IH. simpl. lia. Qed.

Lemma getUint_snoc l b : getUint (l ++ [b]) = getUint l * 256 + b.
Proof. unfold getUint. by rewrite foldl_app. Qed.

Lemma getUint_putUint n v : getUint (putUint n v) = v mod 2 ^ (8 * Z.of_nat n).
Proof.
  revert v. induction n as [|n IH]; intros v; cbn [putUint]; [symmetry; apply Z.mod_1_r|].
  rewrite getUint_snoc, IH, Z.shiftr_div_pow2 by lia. change (2 ^ 8) with 256.
  replace (8 * Z.of_nat (S n)) with (8 + 8 * Z.of_nat n) by lia. rewrite Z.pow_add_r by lia. change (2 ^ 8) with 256.
  rewrite Z.rem_mul_r by lia. lia.
Qed.

Lemma signed_mod w v : 0 < w → - 2 ^ (w - 1) ≤ v < 2 ^ (w - 1) → signed w (v mod 2 ^ w) = v.
Proof.
  intros Hw Hv. unfold signed. rewrite Z.add_mod_idemp_l by (apply Z.pow_nonzero; lia).
  assert (2 ^ w = 2 * 2 ^ (w - 1)) as Hp by (rewrite <-Z.pow_succ_r by lia; f_equal; lia).
  rewrite Z.mod_small by lia. lia.
Qed.

Lemma signed_byte t : 0 ≤ t < 256 → signed 8 (t mod 256) mod 256 = t.
Proof.
  intros Ht. unfold signed. change (2 ^ 8) with 256. change (2 ^ (8 - 1)) with 128.
  rewrite Zminus_mod_idemp_l. rewrite (Z.mod_small t) by lia. replace (t + 128 - 128) with t by lia. by apply Z.mod_small.
Qed.

Lemma bytesOf_length s : length (bytesOf s) = String.length s.
Proof. unfold bytesOf. rewrite length_fmap. induction s as [|c s IH]; simpl; [done|]. by rewrite IH. Qed.

Lemma stringOf_bytesOf s : stringOf (bytesOf s) = s.
Proof.
  unfold stringOf, bytesOf. rewrite <-list_fmap_compose. rewrite <-(String.string_of_list_ascii_of_string s) at 2. f_equal.
  rewrite <-(list_fmap_id (String.list_ascii_of_string s)) at 2. apply list_fmap_ext. intros i c _. simpl.
  rewrite N2Z.id. apply ascii_N_embedding.
Qed.
