(* ===== verification/FarmHash.v ===== *)
(** * FarmHash: the fingerprint of names and checksums (vendored go-farm)

    The 32-bit part of github.com/dgryski/go-farm: platform.go, basics.go,
    hash32Len0to4 and hash32Len13to24Seed of farmhashcc.go, and farmhashmk.go.
    A uint32 is a [Z] with its wrap-around written out; an index out of range
    panics ([None]).  [Fingerprint32] is the function that the ring and the
    member list are used with. *)
From Stdlib Require Import Ascii.
From S2P Require Import Prelude GoStd Bytes.
#[local] Open Scope Z_scope.

(** ** platform.go *)
Definition rotate32 (val : Z) (shift : Z) : Z :=
  if bool_decide (shift = 0) then val
  else Z.lor (Z.shiftr val shift) (uint32 (Z.shiftl val (32 - shift))).

(** s[i] *)
Definition byteAt (s : list Z) (i : Z) : option Z :=
  if bool_decide (i < 0) then None else s !! Z.to_nat i.

Definition fetch32 (s : list Z) (idx : Z) : option Z :=
  b0 ← byteAt s idx;
  b1 ← byteAt s (idx + 1);
  b2 ← byteAt s (idx + 2);
  b3 ← byteAt s (idx + 3);
  Some (Z.lor (Z.lor (Z.lor b0 (Z.shiftl b1 8)) (Z.shiftl b2 16)) (Z.shiftl b3 24)).

(** ** basics.go *)
Definition c1 : Z := 0xcc9e2d51.
Definition c2 : Z := 0x1b873593.

Definition add32 (a b : Z) : Z := uint32 (a + b).
Definition mul32 (a b : Z) : Z := uint32 (a * b).

Definition fmix (h : Z) : Z :=
  let h := Z.lxor h (Z.shiftr h 16) in
  let h := mul32 h 0x85ebca6b in
  let h := Z.lxor h (Z.shiftr h 13) in
  let h := mul32 h 0xc2b2ae35 in
  Z.lxor h (Z.shiftr h 16).

Definition mur (a h : Z) : Z :=
  let a := mul32 a c1 in
  let a := rotate32 a 17 in
  let a := mul32 a c2 in
  let h := Z.lxor h a in
  let h := rotate32 h 19 in
  add32 (mul32 h 5) 0xe6546b64.

(** ** farmhashcc.go *)
Definition len (s : list Z) : Z := Z.of_nat (length s).

Definition hash32Len13to24Seed (s : list Z) (seed : Z) : option Z :=
  let slen := len s in
  a ← fetch32 s (-4 + Z.shiftr slen 1);
  b ← fetch32 s 4;
  c ← fetch32 s (slen - 8);
  d ← fetch32 s (Z.shiftr slen 1);
  e ← fetch32 s 0;
  f ← fetch32 s (slen - 4);
  let h := add32 (add32 (mul32 d c1) (uint32 slen)) seed in
  let a := add32 (rotate32 a 12) f in
  let h := add32 (mur c h) a in
  let a := add32 (rotate32 a 3) c in
  let h := add32 (mur e h) a in
  let a := add32 (rotate32 (add32 a f) 12) d in
  let h := add32 (mur (Z.lxor b seed) h) a in
  Some (fmix h).

(** [uint32(int8(b))]: the byte is sign-extended. *)
Definition signExtend (b : Z) : Z := uint32 (if bool_decide (128 ≤ b) then b - 256 else b).

Definition hash32Len0to4 (s : list Z) (seed : Z) : Z :=
  let '(b, c) := foldl (λ '(b, c) v,
    let b := add32 (mul32 b c1) (signExtend v) in (b, Z.lxor c b)) (seed, 9) s in
  fmix (mur b (mur (uint32 (len s)) c)).

(** ** farmhashmk.go *)
Definition hash32Len5to12 (s : list Z) (seed : Z) : option Z :=
  let slen := len s in
  let b := uint32 (slen * 5) in
  let d := add32 b seed in
  a0 ← fetch32 s 0;
  let a := add32 (uint32 slen) a0 in
  b0 ← fetch32 s (slen - 4);
  let b := add32 b b0 in
  c0 ← fetch32 s (Z.land (Z.shiftr slen 1) 4);
  let c := add32 9 c0 in
  Some (fmix (Z.lxor seed (mur c (mur b (mur a d))))).

(** [s[n:]] *)
Definition sliceFrom (n : nat) (s : list Z) : option (list Z) :=
  if bool_decide (n ≤ length s)%nat then Some (drop n s) else None.

(** The loop over blocks of twenty bytes, [iters] times. *)
Fixpoint blocks (iters : nat) (s : list Z) (h g f : Z) : option (Z * Z * Z) :=
  match iters with
  | O => Some (h, g, f)
  | S iters =>
      a ← fetch32 s 0;
      b ← fetch32 s 4;
      c ← fetch32 s 8;
      d ← fetch32 s 12;
      e ← fetch32 s 16;
      let h := add32 h a in
      let g := add32 g b in
      let f := add32 f c in
      let h := add32 (mur d h) e in
      let g := add32 (mur c g) a in
      let f := add32 (mur (add32 b (mul32 e c1)) f) d in
      let f := add32 f g in
      let g := add32 g f in
      s ← sliceFrom 20 s;
      blocks iters s h g f
  end.

(** [h = h*5 + 0xe6546b64] after [h = rotate32(h, 19)] *)
Definition stir (h : Z) : Z := add32 (mul32 (rotate32 h 19) 5) 0xe6546b64.

Definition hash32Long (s : list Z) : option Z :=
  let slen := len s in
  let h := uint32 slen in
  let g := mul32 c1 (uint32 slen) in
  let f := g in
  a0 ← (λ w, mul32 (rotate32 (mul32 w c1) 17) c2) <$> fetch32 s (slen - 4);
  a1 ← (λ w, mul32 (rotate32 (mul32 w c1) 17) c2) <$> fetch32 s (slen - 8);
  a2 ← (λ w, mul32 (rotate32 (mul32 w c1) 17) c2) <$> fetch32 s (slen - 16);
  a3 ← (λ w, mul32 (rotate32 (mul32 w c1) 17) c2) <$> fetch32 s (slen - 12);
  a4 ← (λ w, mul32 (rotate32 (mul32 w c1) 17) c2) <$> fetch32 s (slen - 20);
  let h := stir (Z.lxor h a0) in
  let h := stir (Z.lxor h a2) in
  let g := stir (Z.lxor g a1) in
  let g := stir (Z.lxor g a3) in
  let f := add32 (rotate32 (add32 f a4) 19) 113 in
  '(h, g, f) ← blocks (Z.to_nat ((slen - 1) / 20)) s h g f;
  let g := mul32 (rotate32 g 11) c1 in
  let g := mul32 (rotate32 g 17) c1 in
  let f := mul32 (rotate32 f 11) c1 in
  let f := mul32 (rotate32 f 17) c1 in
  let h := stir (add32 h g) in
  let h := mul32 (rotate32 h 17) c1 in
  let h := stir (add32 h f) in
  Some (mul32 (rotate32 h 17) c1).

Definition Hash32 (s : list Z) : option Z :=
  let slen := len s in
  if bool_decide (slen ≤ 24) then
    if bool_decide (slen ≤ 12) then
      if bool_decide (slen ≤ 4) then Some (hash32Len0to4 s 0) else hash32Len5to12 s 0
    else hash32Len13to24Seed s 0
  else hash32Long s.

Definition Fingerprint32 (s : list Z) : option Z := Hash32 s.

(** The fingerprint of a Go string; it never panics (see [Fingerprint32_total]). *)
Definition fingerprint (s : string) : Z := default 0 (Fingerprint32 (bytesOf s)).

(** ** Words *)
Definition word (w : Z) : Prop := 0 ≤ w < 2 ^ 32.
Definition byte_ok (b : Z) : Prop := 0 ≤ b < 256.

Create HintDb words.

Lemma word_uint32 z : word (uint32 z).
Proof. apply Z.mod_pos_bound. lia. Qed.
Lemma uint32_word w : word w → uint32 w = w.
Proof. intros H. by apply Z.mod_small. Qed.
Lemma word_add32 a b : word (add32 a b).
Proof. apply word_uint32. Qed.
Lemma word_mul32 a b : word (mul32 a b).
Proof. apply word_uint32. Qed.

(** A word is a number whose bits above the 32nd are clear. *)
Lemma word_bits w : word w ↔ ∀ k, 0 ≤ k → (32 ≤ k → Z.testbit w k = false) ∧ 0 ≤ w.
Proof.
  split.
  - intros [H0 H1] k Hk. split; [|done]. intros H32. destruct (decide (w = 0)) as [->|]; [apply Z.testbit_0_l|].
    apply Z.bits_above_log2; [done|]. apply Z.log2_lt_pow2; [lia|]. eapply Z.lt_le_trans; [exact H1|].
    apply Z.pow_le_mono_r; lia.
  - intros H. assert (0 ≤ w) as H0 by (by apply (H 0)). split; [done|].
    replace w with (w mod 2 ^ 32); [apply Z.mod_pos_bound; lia|]. apply Z.bits_inj'. intros k Hk.
    destruct (decide (k < 32)); [by rewrite Z.mod_pow2_bits_low|]. rewrite Z.mod_pow2_bits_high by lia.
    symmetry. apply H; lia.
Qed.

Lemma word_lxor a b : word a → word b → word (Z.lxor a b).
Proof.
  rewrite !word_bits. intros Ha Hb k Hk. destruct (Ha k Hk) as [Ha1 Ha0], (Hb k Hk) as [Hb1 Hb0]. split.
  - intros H32. by rewrite Z.lxor_spec, Ha1, Hb1.
  - by apply Z.lxor_nonneg.
Qed.
Lemma word_lor a b : word a → word b → word (Z.lor a b).
Proof.
  rewrite !word_bits. intros Ha Hb k Hk. destruct (Ha k Hk) as [Ha1 Ha0], (Hb k Hk) as [Hb1 Hb0]. split.
  - intros H32. by rewrite Z.lor_spec, Ha1, Hb1.
  - by apply Z.lor_nonneg.
Qed.
Lemma word_shiftr a n : 0 ≤ n → word a → word (Z.shiftr a n).
Proof.
  rewrite !word_bits. intros Hn Ha k Hk. split.
  - intros H32. rewrite Z.shiftr_spec by done. apply Ha; lia.
  - apply Z.shiftr_nonneg. by apply (Ha k).
Qed.
Lemma word_rotate32 w n : 0 ≤ n → word w → word (rotate32 w n).
Proof.
  intros Hn Hw. unfold rotate32. case_bool_decide; [done|]. apply word_lor; [by apply word_shiftr|apply word_uint32].
Qed.
Lemma word_fmix h : word h → word (fmix h).
Proof. intros Hh. apply word_lxor; [apply word_mul32|]. apply word_shiftr; [lia|apply word_mul32]. Qed.
Lemma word_mur a h : word (mur a h).
Proof. apply word_add32. Qed.
Lemma word_stir h : word (stir h).
Proof. apply word_add32. Qed.
#[export] Hint Resolve word_uint32 word_add32 word_mul32 word_lxor word_lor word_fmix word_mur word_stir : words.

Lemma byte_shift b n : byte_ok b → 0 ≤ n ≤ 24 → word (Z.shiftl b n).
Proof.
  intros [? ?] Hn. unfold word. rewrite Z.shiftl_mul_pow2 by lia.
  assert (1 ≤ 2 ^ n ≤ 2 ^ 24) as Hp; [|change (2 ^ 32) with (256 * 2 ^ 24); nia].
  split; [pose proof (Z.pow_pos_nonneg 2 n); lia|apply Z.pow_le_mono_r; lia].
Qed.

(** ** Reading bytes *)
Lemma byteAt_in s i : Forall byte_ok s → 0 ≤ i < len s → ∃ b, byteAt s i = Some b ∧ byte_ok b.
Proof.
  intros Hs Hi. unfold byteAt, len in *. rewrite bool_decide_false by lia.
  destruct (lookup_lt_is_Some_2 s (Z.to_nat i)) as [b Hb]; [lia|]. exists b. split; [done|].
  by eapply Forall_lookup_1.
Qed.

Lemma fetch32_in s i : Forall byte_ok s → 0 ≤ i → i + 4 ≤ len s → ∃ w, fetch32 s i = Some w ∧ word w.
Proof.
  intros Hs H0 H4. unfold fetch32.
  destruct (byteAt_in s i Hs) as (b0 & -> & ?); [lia|]. destruct (byteAt_in s (i + 1) Hs) as (b1 & -> & ?); [lia|].
  destruct (byteAt_in s (i + 2) Hs) as (b2 & -> & ?); [lia|]. destruct (byteAt_in s (i + 3) Hs) as (b3 & -> & ?); [lia|].
  simpl. eexists. split; [done|]. repeat apply word_lor; try (by apply byte_shift).
  unfold word, byte_ok in *. lia.
Qed.

(** Rewrite the next fetch with its word. *)
Ltac fetch := match goal with
  | Hs : Forall byte_ok ?s |- context [fetch32 ?s ?i] =>
      destruct (fetch32_in s i Hs) as (? & -> & ?); [lia|lia|]; simpl
  end.

Lemma blocks_total iters s h g f :
  Forall byte_ok s → (20 * iters ≤ length s)%nat → word h → word g → word f →
  ∃ h' g' f', blocks iters s h g f = Some (h', g', f') ∧ word h' ∧ word g' ∧ word f'.
Proof.
  revert s h g f. induction iters as [|iters IH]; intros s h g f Hs Hlen Hh Hg Hf; simpl; [by exists h, g, f|].
  assert (20 ≤ len s) as H20 by (unfold len; lia). do 5 fetch. unfold sliceFrom. rewrite bool_decide_true by lia.
  simpl. apply IH; [by apply Forall_drop|rewrite length_drop; lia|auto with words..].
Qed.

(** The indices of every branch are in range. *)
Lemma Hash32_total s :
  Forall byte_ok s → ∃ h, Hash32 s = Some h ∧ word h.
Proof.
  intros Hs. unfold Hash32. repeat case_bool_decide.
  - eexists. split; [done|]. unfold hash32Len0to4. destruct (foldl _ _ _). auto with words.
  - unfold hash32Len5to12.
    assert (0 ≤ Z.land (Z.shiftr (len s) 1) 4 ≤ 4 ∧ Z.land (Z.shiftr (len s) 1) 4 + 4 ≤ len s) as Hidx.
    { assert (len s = 5 ∨ len s = 6 ∨ len s = 7 ∨ len s = 8 ∨ len s = 9 ∨ len s = 10 ∨ len s = 11 ∨ len s = 12)
        as Hl by lia. destruct Hl as [-> |[-> |[-> |[-> |[-> |[-> |[-> | ->]]]]]]]; by vm_compute. }
    do 3 fetch. eexists. split; [done|]. apply word_fmix, word_lxor; [done|apply word_mur].
  - unfold hash32Len13to24Seed.
    assert (6 ≤ Z.shiftr (len s) 1 ∧ 2 * Z.shiftr (len s) 1 ≤ len s) as Hhalf.
    { rewrite Z.shiftr_div_pow2 by lia. change (2 ^ 1) with 2. pose proof (Z.div_mod (len s) 2).
      pose proof (Z.mod_pos_bound (len s) 2). lia. }
    do 6 fetch. eexists. split; [done|]. auto with words.
  - unfold hash32Long. do 5 fetch.
    assert (20 * ((len s - 1) / 20) ≤ len s) as Hit by (pose proof (Z.mul_div_le (len s - 1) 20); lia).
    match goal with |- context [blocks ?k s ?h ?g ?f] => destruct (blocks_total k s h g f Hs)
      as (h' & g' & f' & -> & ? & ? & ?); [unfold len in *; lia|auto with words..|] end.
    simpl. eexists. split; [done|]. auto with words.
Qed.

Lemma bytesOf_ok s : Forall byte_ok (bytesOf s).
Proof.
  unfold bytesOf. apply Forall_fmap, Forall_true. intros c. simpl. unfold byte_ok.
  pose proof (N_ascii_bounded c). lia.
Qed.

Lemma fingerprint_word s : word (fingerprint s).
Proof. unfold fingerprint, Fingerprint32. destruct (Hash32_total _ (bytesOf_ok s)) as (h & -> & ?). done. Qed.

(** C37: every byte string has a fingerprint: no slice or index of the 32-bit hash
    is out of range, whatever the length, and the result is a 32-bit word. *)
Theorem Fingerprint32_total s : Forall byte_ok s → ∃ h, Fingerprint32 s = Some h ∧ word h.
Proof. apply Hash32_total. Qed.

(** ** The mixers are bijections *)
Lemma xorshift16 w : word w → Z.lxor (Z.lxor w (Z.shiftr w 16)) (Z.shiftr (Z.lxor w (Z.shiftr w 16)) 16) = w.
Proof.
  intros Hw. rewrite Z.shiftr_lxor, Z.shiftr_shiftr by lia. change (16 + 16) with 32.
  rewrite (Z.shiftr_eq_0 w 32); [|apply Hw|].
  - rewrite Z.lxor_0_r, Z.lxor_assoc, Z.lxor_nilpotent. apply Z.lxor_0_r.
  - destruct (decide (w = 0)) as [->|]; [done|]. apply Z.log2_lt_pow2; unfold word in Hw; lia.
Qed.

Definition unshift13 (h : Z) : Z := Z.lxor (Z.lxor h (Z.shiftr h 13)) (Z.shiftr h 26).

Lemma shiftr_word w n : word w → 32 ≤ n → Z.shiftr w n = 0.
Proof.
  intros Hw Hn. apply Z.shiftr_eq_0; [apply Hw|]. destruct (decide (w = 0)) as [->|]; [simpl; lia|].
  eapply Z.lt_le_trans; [|exact Hn]. apply Z.log2_lt_pow2; unfold word in Hw; lia.
Qed.

Lemma xorshift13 w :
  word w → unshift13 (Z.lxor w (Z.shiftr w 13)) = w ∧ (let u := unshift13 w in Z.lxor u (Z.shiftr u 13) = w).
Proof.
  intros Hw. unfold unshift13. simpl. rewrite !Z.shiftr_lxor, !Z.shiftr_shiftr by lia.
  change (13 + 13) with 26. change (13 + 26) with 39. change (26 + 13) with 39.
  rewrite (shiftr_word w 39) by (done || lia). rewrite !Z.lxor_0_r.
  set (x := Z.shiftr w 13). set (y := Z.shiftr w 26).
  split; apply Z.bits_inj'; intros k Hk; rewrite !Z.lxor_spec; destruct (Z.testbit w k), (Z.testbit x k), (Z.testbit y k); done.
Qed.

Lemma mul32_inv w a b : word w → (a * b) mod 2 ^ 32 = 1 → mul32 (mul32 w a) b = w.
Proof.
  intros Hw Hab. unfold mul32, uint32. rewrite Zmult_mod_idemp_l, <-Z.mul_assoc, Zmult_mod, Hab, Z.mul_1_r.
  rewrite Zmod_mod. by apply Z.mod_small.
Qed.

(** The inverse of the finalizer. *)
Definition unfmix (h : Z) : Z :=
  let h := Z.lxor h (Z.shiftr h 16) in
  let h := mul32 h 0x7ed1b41d in
  let h := unshift13 h in
  let h := mul32 h 0xa5cb9243 in
  Z.lxor h (Z.shiftr h 16).

Lemma word_xorshift w n : 0 ≤ n → word w → word (Z.lxor w (Z.shiftr w n)).
Proof. intros Hn Hw. apply word_lxor; [done|]. by apply word_shiftr. Qed.
Lemma word_unshift13 w : word w → word (unshift13 w).
Proof. intros Hw. apply word_lxor; [apply word_xorshift; [lia|done]|]. by apply word_shiftr. Qed.

Lemma unfmix_fmix h : word h → unfmix (fmix h) = h.
Proof.
  intros Hh. unfold fmix, unfmix. cbv zeta. rewrite xorshift16 by apply word_mul32.
  rewrite (mul32_inv _ 0xc2b2ae35 0x7ed1b41d); [|apply word_xorshift; [lia|auto with words]|done].
  rewrite (proj1 (xorshift13 _ (word_mul32 _ _))).
  rewrite (mul32_inv _ 0x85ebca6b 0xa5cb9243); [by apply xorshift16|apply word_xorshift; [lia|auto with words]|done].
Qed.

(** The finalizer of the hash loses nothing: it is a bijection of the 32-bit
    words, with an explicit inverse on both sides. *)
Theorem fmix_roundtrip h : word h → unfmix (fmix h) = h ∧ fmix (unfmix h) = h.
Proof.
  intros Hh. split; [by apply unfmix_fmix|]. unfold fmix, unfmix. cbv zeta. rewrite xorshift16 by apply word_mul32.
  rewrite (mul32_inv _ 0xa5cb9243 0x85ebca6b); [|apply word_unshift13, word_mul32|done].
  rewrite (proj2 (xorshift13 _ (word_mul32 _ _))).
  rewrite (mul32_inv _ 0x7ed1b41d 0xc2b2ae35); [by apply xorshift16|apply word_xorshift; [lia|auto with words]|done].
Qed.

Lemma testbit_word w k : word w → 32 ≤ k → Z.testbit w k = false.
Proof. intros Hw Hk. rewrite word_bits in Hw. apply Hw; lia. Qed.

Lemma rotate32_bit w n j :
  word w → 0 < n < 32 → 0 ≤ j < 32 →
  Z.testbit (rotate32 w n) j = Z.testbit w (if bool_decide (j + n < 32) then j + n else j + n - 32).
Proof.
  intros Hw Hn Hj. unfold rotate32, uint32. rewrite bool_decide_false by lia.
  rewrite Z.lor_spec, Z.shiftr_spec, Z.mod_pow2_bits_low, Z.shiftl_spec by lia. case_bool_decide.
  - rewrite (Z.testbit_neg_r w (j - (32 - n))) by lia. apply orb_false_r.
  - rewrite (testbit_word w (j + n)) by (done || lia). simpl. f_equal. lia.
Qed.

Lemma rotate32_inj n w w' : 0 < n < 32 → word w → word w' → rotate32 w n = rotate32 w' n → w = w'.
Proof.
  intros Hn Hw Hw' H. apply Z.bits_inj'. intros k Hk.
  destruct (decide (32 ≤ k)); [by rewrite !testbit_word|].
  destruct (decide (n ≤ k)).
  - apply (f_equal (λ x, Z.testbit x (k - n))) in H. rewrite !rotate32_bit in H by (done || lia).
    rewrite !bool_decide_true in H by lia. by replace (k - n + n) with k in H by lia.
  - apply (f_equal (λ x, Z.testbit x (k - n + 32))) in H. rewrite !rotate32_bit in H by (done || lia).
    rewrite !bool_decide_false in H by lia. by replace (k - n + 32 + n - 32) with k in H by lia.
Qed.

Lemma mul32_inj a b w w' : (a * b) mod 2 ^ 32 = 1 → word w → word w' → mul32 w a = mul32 w' a → w = w'.
Proof. intros Hab Hw Hw' H. rewrite <-(mul32_inv w a b), <-(mul32_inv w' a b) by done. by rewrite H. Qed.

Lemma add32_inj c w w' : word w → word w' → add32 w c = add32 w' c → w = w'.
Proof.
  intros Hw Hw' H. rewrite <-(uint32_word w Hw), <-(uint32_word w' Hw').
  replace w with (w + c - c) by lia. replace w' with (w' + c - c) by lia. unfold add32, uint32 in *.
  rewrite (Zminus_mod (w + c)), (Zminus_mod (w' + c)). by rewrite H.
Qed.

Lemma lxor_inj_l a w w' : Z.lxor w a = Z.lxor w' a → w = w'.
Proof.
  intros H. apply (f_equal (λ x, Z.lxor x a)) in H. rewrite !Z.lxor_assoc, !Z.lxor_nilpotent, !Z.lxor_0_r in H. done.
Qed.

Lemma fmix_inj h h' : word h → word h' → fmix h = fmix h' → h = h'.
Proof. intros Hh Hh' H. rewrite <-(unfmix_fmix h), <-(unfmix_fmix h') by done. by rewrite H. Qed.

(** [mur] is injective in each argument. *)
Lemma mur_inj_h a h h' : word a → word h → word h' → mur a h = mur a h' → h = h'.
Proof.
  intros Ha Hh Hh' H. unfold mur in H. cbv zeta in H.
  assert (∀ x, word x → word (Z.lxor x (mul32 (rotate32 (mul32 a c1) 17) c2))) as Hx by auto with words.
  apply add32_inj in H; [|auto with words..]. apply (mul32_inj 5 0xcccccccd) in H; [|done|by apply word_rotate32; auto..].
  apply rotate32_inj in H; [|lia|auto..]. by apply lxor_inj_l in H.
Qed.

Lemma mur_inj_a a a' h : word a → word a' → word h → mur a h = mur a' h → a = a'.
Proof.
  intros Ha Ha' Hh H. unfold mur in H. cbv zeta in H.
  apply add32_inj in H; [|auto with words..].
  apply (mul32_inj 5 0xcccccccd) in H; [|done|apply word_rotate32; [lia|auto with words]..].
  apply rotate32_inj in H; [|lia|auto with words..]. rewrite !(Z.lxor_comm h) in H. apply lxor_inj_l in H.
  apply (mul32_inj c2 0x56ed309b) in H; [|done|apply word_rotate32; [lia|auto with words]..].
  apply rotate32_inj in H; [|lia|auto with words..]. by apply (mul32_inj c1 0xdee13bb1) in H.
Qed.

(** ** Distinct heads have distinct fingerprints *)
Lemma lor_shift a b n : 0 ≤ n → 0 ≤ a < 2 ^ n → Z.lor a (Z.shiftl b n) = a + b * 2 ^ n.
Proof.
  intros Hn Ha. assert (Z.land a (Z.shiftl b n) = 0) as Hl.
  { apply Z.bits_inj'. intros k Hk. rewrite Z.land_spec, Z.bits_0. destruct (decide (k < n)).
    - rewrite Z.shiftl_spec_low by done. apply andb_false_r.
    - replace a with (a mod 2 ^ n) by (by apply Z.mod_small). by rewrite Z.mod_pow2_bits_high by lia. }
  rewrite <-Z.lxor_lor, <-Z.add_nocarry_lxor by done. by rewrite Z.shiftl_mul_pow2.
Qed.

Lemma fetch32_value s i w :
  Forall byte_ok s → fetch32 s i = Some w →
  ∃ b0 b1 b2 b3, byteAt s i = Some b0 ∧ byteAt s (i + 1) = Some b1 ∧ byteAt s (i + 2) = Some b2 ∧
    byteAt s (i + 3) = Some b3 ∧ byte_ok b0 ∧ byte_ok b1 ∧ byte_ok b2 ∧ byte_ok b3 ∧
    w = b0 + b1 * 2 ^ 8 + b2 * 2 ^ 16 + b3 * 2 ^ 24.
Proof.
  intros Hs H. unfold fetch32 in H.
  assert (∀ j b, byteAt s j = Some b → byte_ok b) as Hok.
  { intros j b Hb. unfold byteAt in Hb. case_bool_decide; [done|]. by eapply Forall_lookup_1. }
  destruct (byteAt s i) as [b0|] eqn:E0; [|done]. destruct (byteAt s (i + 1)) as [b1|] eqn:E1; [|done].
  destruct (byteAt s (i + 2)) as [b2|] eqn:E2; [|done]. destruct (byteAt s (i + 3)) as [b3|] eqn:E3; [|done].
  apply Hok in E0 as H0, E1 as H1, E2 as H2, E3 as H3. simpl in H. injection H as <-.
  exists b0, b1, b2, b3. split_and!; try done. unfold byte_ok in *.
  rewrite (lor_shift b0 b1 8), (lor_shift _ b2 16), (lor_shift _ b3 24) by lia. done.
Qed.

Lemma byteAt_tail s s' i : drop 4 s = drop 4 s' → 4 ≤ i → byteAt s i = byteAt s' i.
Proof.
  intros H Hi. unfold byteAt. rewrite bool_decide_false by lia.
  replace (Z.to_nat i) with (4 + (Z.to_nat i - 4))%nat by lia. rewrite <-!lookup_drop. by rewrite H.
Qed.

Lemma fetch32_tail s s' i : drop 4 s = drop 4 s' → 4 ≤ i → fetch32 s i = fetch32 s' i.
Proof. intros H Hi. unfold fetch32. by rewrite !(byteAt_tail s s') by (done || lia). Qed.

Lemma byteAt_four s b0 b1 b2 b3 :
  byteAt s 0 = Some b0 → byteAt s (0 + 1) = Some b1 → byteAt s (0 + 2) = Some b2 → byteAt s (0 + 3) = Some b3 →
  take 4 s = [b0; b1; b2; b3].
Proof. destruct s as [|x0 [|x1 [|x2 [|x3 s]]]]; try done. by intros [= ->] [= ->] [= ->] [= ->]. Qed.

Lemma fetch32_head s s' w :
  Forall byte_ok s → Forall byte_ok s' → fetch32 s 0 = Some w → fetch32 s' 0 = Some w → take 4 s = take 4 s'.
Proof.
  intros Hs Hs' H H'. apply fetch32_value in H as (a0 & a1 & a2 & a3 & A0 & A1 & A2 & A3 & ? & ? & ? & ? & Hw); [|done].
  apply fetch32_value in H' as (b0 & b1 & b2 & b3 & B0 & B1 & B2 & B3 & ? & ? & ? & ? & Hw'); [|done].
  unfold byte_ok in *. assert (a0 = b0 ∧ a1 = b1 ∧ a2 = b2 ∧ a3 = b3) as (-> & -> & -> & ->) by lia.
  by rewrite (byteAt_four s b0 b1 b2 b3), (byteAt_four s' b0 b1 b2 b3).
Qed.

(** Names that differ in their first four bytes only are told apart: two byte
    strings of one length between 8 and 12 that agree from the fifth byte on
    have different fingerprints unless they are equal. *)
Theorem distinct_heads_distinct_fingerprints s s' :
  Forall byte_ok s → Forall byte_ok s' → length s = length s' → (8 ≤ length s ≤ 12)%nat →
  drop 4 s = drop 4 s' → s ≠ s' → Fingerprint32 s ≠ Fingerprint32 s'.
Proof.
  intros Hs Hs' Hlen Hn Hd Hne H. apply Hne. assert (len s' = len s) as Hl by (unfold len; lia).
  assert (8 ≤ len s ≤ 12) as Hr by (unfold len; lia).
  unfold Fingerprint32, Hash32 in H. rewrite Hl, !bool_decide_true, !bool_decide_false in H by lia.
  unfold hash32Len5to12 in H. rewrite Hl in H.
  assert (Z.land (Z.shiftr (len s) 1) 4 = 4) as Hidx.
  { assert (len s = 8 ∨ len s = 9 ∨ len s = 10 ∨ len s = 11 ∨ len s = 12) as Hc by lia.
    destruct Hc as [-> |[-> |[-> |[-> | ->]]]]; done. }
  rewrite Hidx, <-!(fetch32_tail s s') in H by (done || lia). clear Hidx.
  destruct (fetch32_in s 0 Hs) as (a & Ha & Wa); [lia|lia|]. destruct (fetch32_in s' 0 Hs') as (a' & Ha' & Wa'); [lia|lia|].
  destruct (fetch32_in s (len s - 4) Hs) as (b & Hb & Wb); [lia|lia|].
  destruct (fetch32_in s 4 Hs) as (c & Hc & Wc); [lia|lia|].
  rewrite Ha, Ha', Hb, Hc in H. unfold mbind, option_bind in H. apply (inj Some) in H.
  rewrite !Z.lxor_0_l in H.
  apply fmix_inj in H; [|auto with words..]. apply mur_inj_h in H; [|auto with words..].
  apply mur_inj_h in H; [|auto with words..]. apply mur_inj_a in H; [|auto with words..].
  unfold add32 in H. rewrite !(Z.add_comm (uint32 (len s))) in H. apply add32_inj in H; [|done..]. subst a'.
  rewrite <-(take_drop 4 s), <-(take_drop 4 s'), Hd. f_equal. by eapply fetch32_head.
Qed.

(** The two theorems at names of servers. *)
Lemma Fingerprint32_total_witness :
  ∃ h, Fingerprint32 (bytesOf "127.0.0.1:3000127.0.0.1:3001") = Some h ∧ word h.
Proof.
  apply (Fingerprint32_total (bytesOf "127.0.0.1:3000127.0.0.1:3001")).
  repeat (constructor; [vm_compute; split; (discriminate || reflexivity)|]). constructor.
Defined.

Lemma fmix_roundtrip_witness : unfmix (fmix 3696677242) = 3696677242 ∧ fmix (unfmix 3696677242) = 3696677242.
Proof. apply (fmix_roundtrip 3696677242). split; vm_compute; (discriminate || reflexivity). Defined.

Lemma distinct_heads_distinct_fingerprints_witness :
  Fingerprint32 (bytesOf "east-node-1") ≠ Fingerprint32 (bytesOf "west-node-1").
Proof.
  apply (distinct_heads_distinct_fingerprints (bytesOf "east-node-1") (bytesOf "west-node-1")).
  - repeat (constructor; [vm_compute; split; (discriminate || reflexivity)|]). constructor.
  - repeat (constructor; [vm_compute; split; (discriminate || reflexivity)|]). constructor.
  - reflexivity.
  - vm_compute. lia.
  - reflexivity.
  - discriminate.
Defined.
