(* ===== verification/Thrift.v ===== *)
(** * Thrift: what SerializeThrift and DeserializeThrift put on the wire

    ringpop.go turns Thrift structs into bytes with the binary protocol of the
    vendored Thrift library (binary_protocol.go, protocol.go and type.go of
    apache/thrift/lib/go/thrift).  The writing methods append to a buffered
    writer over a bytes.Buffer, which never fails; the reading methods take
    bytes from the front of their input and can fail.  A struct is anything
    with generated Read and Write methods: the interface is the class
    [TStruct], its instances are the structs of examples/pingpong/gen-go. *)
From S2P Require Import Prelude GoStd Bytes.
#[local] Open Scope Z_scope.

(** ** type.go: TType, a byte *)
Definition STOP : Z := 0.
Definition BOOL : Z := 2.
Definition BYTE : Z := 3.
Definition DOUBLE : Z := 4.
Definition I16 : Z := 6.
Definition I32 : Z := 8.
Definition I64 : Z := 10.
Definition STRING : Z := 11.
Definition STRUCT : Z := 12.
Definition MAP : Z := 13.
Definition SET : Z := 14.
Definition LIST : Z := 15.

(** ** Writing

    The bytes in the bufio.Writer and those in the bytes.Buffer below it.  When
    the bufio.Writer passes bytes on by itself is not distinguished: nobody
    looks at the buffer before [Flush]. *)
Record twriter : Type := mkWriter { tw_buffered : list Z; tw_written : list Z }.
Abbreviation TW := (M twriter).

Definition Write (c : list Z) : TW unit := modify (λ w, mkWriter (tw_buffered w ++ c) (tw_written w)).
Definition Flush : TW unit := modify (λ w, mkWriter [] (tw_written w ++ tw_buffered w)).

Definition WriteByte (value : Z) : TW unit := Write [value mod 256].
Definition WriteBool (value : bool) : TW unit := WriteByte (if value then 1 else 0).
Definition WriteI16 (value : Z) : TW unit := Write (putUint 2 value).
Definition WriteI32 (value : Z) : TW unit := Write (putUint 4 value).
Definition WriteI64 (value : Z) : TW unit := Write (putUint 8 value).

(** A float64 is given by its bits. *)
Definition WriteDouble (bits : Z) : TW unit := WriteI64 bits.
Definition WriteString (value : string) : TW unit :=
  WriteI32 (Z.of_nat (String.length value));; Write (bytesOf value).
Definition WriteBinary (value : list Z) : TW unit :=
  WriteI32 (Z.of_nat (length value));; Write value.

Definition WriteFieldBegin (typeId id : Z) : TW unit := WriteByte typeId;; WriteI16 id.
Definition WriteFieldStop : TW unit := WriteByte STOP.
Definition WriteMapBegin (keyType valueType size : Z) : TW unit :=
  WriteByte keyType;; WriteByte valueType;; WriteI32 size.
Definition WriteListBegin (elemType size : Z) : TW unit := WriteByte elemType;; WriteI32 size.
Definition WriteSetBegin (elemType size : Z) : TW unit := WriteByte elemType;; WriteI32 size.

(** ** Reading *)
Inductive terror : Type := EndOfInput | InvalidData | DepthLimit | BadVersion.

#[export] Instance terror_eq : EqDecision terror.
Proof. solve_decision. Defined.

(** A reader takes bytes from its input; [inr] is the returned error. *)
Abbreviation TR A := (M (list Z) (A + terror)).

Definition ok {A} (a : A) : TR A := mret (inl a).
Definition err {A} (e : terror) : TR A := mret (inr e).

(** [if err != nil { return err }] *)
Definition orReturn {A B} (m : TR A) (k : A → TR B) : TR B :=
  r ← m; match r with inl a => k a | inr e => err e end.
Notation "x ⇐ m ; k" := (orReturn m (λ x, k)) (at level 20, m at level 100, k at level 200, right associativity).
Notation "' x ⇐ m ; k" := (orReturn m (λ x, k))
  (at level 20, x pattern, m at level 100, k at level 200, only parsing).

Definition ReadByte : TR Z := λ s,
  match s with
  | [] => Some (inr EndOfInput, [])
  | b :: s => Some (inl (signed 8 b), s)
  end.

(** readAll: io.ReadFull uses up an input that is too short. *)
Definition readAll (n : nat) : TR (list Z) := λ s,
  if bool_decide (length s < n)%nat then Some (inr EndOfInput, [])
  else Some (inl (take n s), drop n s).

Definition ReadBool : TR bool := b ⇐ ReadByte; ok (bool_decide (b = 1)).
Definition ReadI16 : TR Z := buf ⇐ readAll 2; ok (signed 16 (getUint buf)).
Definition ReadI32 : TR Z := buf ⇐ readAll 4; ok (signed 32 (getUint buf)).
Definition ReadI64 : TR Z := buf ⇐ readAll 8; ok (signed 64 (getUint buf)).
Definition ReadDouble : TR Z := buf ⇐ readAll 8; ok (getUint buf).

(** A stream does not know how many bytes remain, so that the length is not
    compared with anything. *)
Definition readStringBody (size : Z) : TR string :=
  if bool_decide (size < 0) then ok EmptyString
  else buf ⇐ readAll (Z.to_nat size); ok (stringOf buf).

Definition ReadString : TR string :=
  size ⇐ ReadI32;
  if bool_decide (size < 0) then err InvalidData else readStringBody size.

Definition ReadBinary : TR (list Z) :=
  size ⇐ ReadI32;
  if bool_decide (size < 0) then err InvalidData else readAll (Z.to_nat size).

(** ReadFieldBegin returns a type also when it fails: STOP at the end of the
    input.  The id that comes with an error is used by nobody. *)
Definition ReadFieldBegin : M (list Z) (Z * Z * option terror) :=
  t ← ReadByte;
  match t with
  | inr e => mret (STOP, 0, Some e)
  | inl t =>
      let typeId := t mod 256 in
      if bool_decide (t = STOP) then mret (typeId, 0, None)
      else
        id ← ReadI16;
        match id with
        | inl id => mret (typeId, id, None)
        | inr e => mret (typeId, 0, Some e)
        end
  end.

Definition ReadMapBegin : TR (Z * Z * Z) :=
  k ⇐ ReadByte;
  v ⇐ ReadByte;
  size32 ⇐ ReadI32;
  if bool_decide (size32 < 0) then err InvalidData else ok (k mod 256, v mod 256, size32).

Definition ReadListBegin : TR (Z * Z) :=
  b ⇐ ReadByte;
  size32 ⇐ ReadI32;
  if bool_decide (size32 < 0) then err InvalidData else ok (b mod 256, size32).

Definition ReadSetBegin : TR (Z * Z) :=
  b ⇐ ReadByte;
  size32 ⇐ ReadI32;
  if bool_decide (size32 < 0) then err InvalidData else ok (b mod 256, size32).

(** ** protocol.go: skipping a value of a known type *)
Definition DEFAULT_RECURSION_DEPTH : nat := 64.

(** [for i := 0; i < size; i++], left at the first error *)
Fixpoint times_ (size : nat) (body : TR unit) : TR unit :=
  match size with
  | O => ok tt
  | S size => _ ⇐ body; times_ size body
  end.

(** The fields of a struct up to STOP; the error of ReadFieldBegin is not
    looked at.  Every turn takes a byte, so the length of the input bounds
    their number. *)
Fixpoint skipFields (turns : nat) (skip : Z → TR unit) : TR unit :=
  match turns with
  | O => panic
  | S turns =>
      '(typeId, _, _) ← ReadFieldBegin;
      if bool_decide (typeId = STOP) then ok tt
      else _ ⇐ skip typeId; skipFields turns skip
  end.

(** [fuel] bounds the depth of the recursion.  The value of a map is skipped
    through the method Skip, which starts from the full depth again, and its
    error is not looked at. *)
Fixpoint Skip (fuel : nat) (fieldType : Z) (maxDepth : nat) : TR unit :=
  match fuel with
  | O => panic
  | S fuel =>
      if bool_decide (maxDepth ≤ 0)%nat then err DepthLimit
      else if bool_decide (fieldType = STOP) then ok tt
      else if bool_decide (fieldType = BOOL) then _ ⇐ ReadBool; ok tt
      else if bool_decide (fieldType = BYTE) then _ ⇐ ReadByte; ok tt
      else if bool_decide (fieldType = I16) then _ ⇐ ReadI16; ok tt
      else if bool_decide (fieldType = I32) then _ ⇐ ReadI32; ok tt
      else if bool_decide (fieldType = I64) then _ ⇐ ReadI64; ok tt
      else if bool_decide (fieldType = DOUBLE) then _ ⇐ ReadDouble; ok tt
      else if bool_decide (fieldType = STRING) then _ ⇐ ReadString; ok tt
      else if bool_decide (fieldType = STRUCT) then
        remaining ← gets length;
        skipFields (S remaining) (λ typeId, Skip fuel typeId (pred maxDepth))
      else if bool_decide (fieldType = MAP) then
        '(keyType, valueType, size) ⇐ ReadMapBegin;
        times_ (Z.to_nat size)
          (_ ⇐ Skip fuel keyType (pred maxDepth);
           Skip fuel valueType DEFAULT_RECURSION_DEPTH;;
           ok tt)
      else if bool_decide (fieldType = SET) then
        '(elemType, size) ⇐ ReadSetBegin;
        times_ (Z.to_nat size) (Skip fuel elemType (pred maxDepth))
      else if bool_decide (fieldType = LIST) then
        '(elemType, size) ⇐ ReadListBegin;
        times_ (Z.to_nat size) (Skip fuel elemType (pred maxDepth))
      else ok tt
  end.

(** Enough for any input: each map resets the depth and takes six bytes. *)
Definition skipFuel (maxDepth : nat) (s : list Z) : nat := S (maxDepth + (DEFAULT_RECURSION_DEPTH + 1) * length s).

Definition SkipDefaultDepth (typeId : Z) : TR unit := λ s,
  Skip (skipFuel DEFAULT_RECURSION_DEPTH s) typeId DEFAULT_RECURSION_DEPTH s.

(** ** serializer.go: what ringpop asks of a struct

    Read fills the struct it is called on, also before it fails. *)
Class TStruct (A : Type) : Type := {
  writeTo : A → TW unit;
  readFrom : A → M (list Z) (A * option terror)
}.

(** ** ringpop.go *)
Definition serialized (write : TW unit) : option (list Z) :=
  '(_, w) ← (write;; Flush) (mkWriter [] []);
  Some (tw_written w).

Definition SerializeThrift {A} `{!TStruct A} (s : A) : option (list Z) := serialized (writeTo s).

Definition DeserializeThrift {A} `{!TStruct A} (b : list Z) (s : A) : option (A * option terror) :=
  fst <$> readFrom s b.

(** ** Generated code

    The structs of the example have one field each that they know.  The loop of
    their Read methods is the same up to the id of the field and the function
    that reads it: the field, whether it was set, and the error. *)
Fixpoint readLoop {A} (id : Z) (readField : A → M (list Z) (A * option terror)) (turns : nat) (field : A) (isset : bool)
    : M (list Z) (A * bool * option terror) :=
  match turns with
  | O => panic
  | S turns =>
      '(fieldTypeId, fieldId, e) ← ReadFieldBegin;
      match e with
      | Some e => mret (field, isset, Some e)
      | None =>
          if bool_decide (fieldTypeId = STOP) then mret (field, isset, None)
          else if bool_decide (fieldId = id) then
            '(field, e) ← readField field;
            match e with
            | Some e => mret (field, isset, Some e)
            | None => readLoop id readField turns field true
            end
          else
            r ← SkipDefaultDepth fieldTypeId;
            match r with
            | inr e => mret (field, isset, Some e)
            | inl _ => readLoop id readField turns field isset
            end
      end
  end.

Definition readStruct {A} (id : Z) (readField : A → M (list Z) (A * option terror)) (required : bool) (field : A)
    : M (list Z) (A * option terror) :=
  remaining ← gets length;
  '(field, isset, e) ← readLoop id readField (S remaining) field false;
  mret (field, match e with
               | Some e => Some e
               | None => if required && negb isset then Some InvalidData else None
               end).

(** *** ttypes.go: Ping and Pong, a required string each, with the id 1 *)
Record Ping : Type := mkPing { Key : string }.
Record Pong : Type := mkPong { Source : string }.

Definition readField1 (field : string) : M (list Z) (string * option terror) :=
  v ← ReadString;
  mret (match v with inl v => (v, None) | inr e => (field, Some e) end).

Definition readRequired : string → M (list Z) (string * option terror) := readStruct 1 readField1 true.

Definition writeRequired (field : string) : TW unit :=
  WriteFieldBegin STRING 1;; WriteString field;; WriteFieldStop.

#[export] Instance Ping_struct : TStruct Ping := {
  writeTo p := writeRequired (Key p);
  readFrom p := '(key, e) ← readRequired (Key p); mret (mkPing key, e)
}.

#[export] Instance Pong_struct : TStruct Pong := {
  writeTo p := writeRequired (Source p);
  readFrom p := '(source, e) ← readRequired (Source p); mret (mkPong source, e)
}.

(** *** pingpong.go: the arguments and the result of a call

    The pointer to a struct may be nil; reading makes a new struct, which is
    kept also when reading it fails.  Writing a nil request panics. *)
Record PingPongPingArgs : Type := mkArgs { Request : option Ping }.
Record PingPongPingResult : Type := mkResult { Success : option Pong }.

Definition readPointer {A} `{!TStruct A} (new : A) (_ : option A) : M (list Z) (option A * option terror) :=
  '(a, e) ← readFrom new; mret (Some a, e).

#[export] Instance Args_struct : TStruct PingPongPingArgs := {
  writeTo p :=
    WriteFieldBegin STRUCT 1;;
    match Request p with Some request => writeTo request | None => panic end;;
    WriteFieldStop;
  readFrom p :=
    '(request, e) ← readStruct 1 (readPointer (mkPing EmptyString)) false (Request p);
    mret (mkArgs request, e)
}.

#[export] Instance Result_struct : TStruct PingPongPingResult := {
  writeTo p :=
    match Success p with
    | Some success => WriteFieldBegin STRUCT 0;; writeTo success
    | None => mret tt
    end;;
    WriteFieldStop;
  readFrom p :=
    '(success, e) ← readStruct 0 (readPointer (mkPong EmptyString)) false (Success p);
    mret (mkResult success, e)
}.

Definition GetSuccess (p : PingPongPingResult) : option Pong := Success p.
