(* ===== verification/ThriftSpec.v ===== *)
(** * ThriftSpec: round trips, skipping and termination of the wire format

    A reader reads [bs] when it returns its value and leaves exactly what
    follows [bs]; a writer emits [bs] when it appends them; a reader takes [n]
    bytes of an input when it returns and, on success, leaves at least that
    much less. *)
From S2P Require Import Prelude GoStd Bytes Thrift.
#[local] Open Scope Z_scope.

Definition reads {A} (m : TR A) (a : A) (bs : list Z) : Prop := ∀ rest, m (bs ++ rest) = Some (inl a, rest).
Definition emits (m : TW unit) (bs : list Z) : Prop :=
  ∀ w, m w = Some (tt, mkWriter (tw_buffered w ++ bs) (tw_written w)).

Create HintDb wire.

(** ** Numbers *)
Lemma signed_stop t : 0 ≤ t < 256 → signed 8 (t mod 256) = STOP ↔ t = STOP.
Proof.
  intros Ht. split; [|by intros ->]. intros Hs. rewrite <-(signed_byte t Ht), Hs. done.
Qed.

(** ** Readers *)
Lemma reads_ok {A} (a : A) : reads (ok a) a [].
Proof. done. Qed.

Lemma reads_bind {A B} (m : TR A) (k : A → TR B) a b bs bs' :
  reads m a bs → reads (k a) b bs' → reads (orReturn m k) b (bs ++ bs').
Proof. intros Hm Hk rest. unfold orReturn, mbind, M_bind. rewrite <-app_assoc, Hm. apply Hk. Qed.

Lemma reads_then {A B} (m : TR A) (k : A → TR B) a b bs : reads m a bs → reads (k a) b [] → reads (orReturn m k) b bs.
Proof. intros Hm Hk. rewrite <-(app_nil_r bs). by eapply reads_bind. Qed.

Lemma reads_readAll bs : reads (readAll (length bs)) bs bs.
Proof.
  intros rest. unfold readAll. rewrite bool_decide_false by (rewrite length_app; lia).
  by rewrite take_app_length, drop_app_length.
Qed.

Lemma reads_ReadByte b : reads ReadByte (signed 8 b) [b].
Proof. done. Qed.

Lemma reads_uint {A} n v (k : list Z → TR A) a : reads (k (putUint n v)) a [] → reads (orReturn (readAll n) k) a (putUint n v).
Proof.
  intros Hk. eapply reads_then; [|exact Hk]. pose proof (reads_readAll (putUint n v)) as H. by rewrite putUint_length in H.
Qed.

Lemma reads_ReadI16 v : - 2 ^ 15 ≤ v < 2 ^ 15 → reads ReadI16 v (putUint 2 v).
Proof. intros Hv. apply reads_uint. rewrite getUint_putUint, signed_mod by done. apply reads_ok. Qed.

Lemma reads_ReadI32 v : - 2 ^ 31 ≤ v < 2 ^ 31 → reads ReadI32 v (putUint 4 v).
Proof. intros Hv. apply reads_uint. rewrite getUint_putUint, signed_mod by done. apply reads_ok. Qed.

Lemma reads_ReadI64 v : - 2 ^ 63 ≤ v < 2 ^ 63 → reads ReadI64 v (putUint 8 v).
Proof. intros Hv. apply reads_uint. rewrite getUint_putUint, signed_mod by done. apply reads_ok. Qed.

(** The bytes of a counted string. *)
Definition counted (l : list Z) : list Z := putUint 4 (Z.of_nat (length l)) ++ l.

Lemma reads_ReadBinary l : Z.of_nat (length l) < 2 ^ 31 → reads ReadBinary l (counted l).
Proof.
  intros Hl. apply (reads_bind _ _ (Z.of_nat (length l))); [apply reads_ReadI32; lia|].
  rewrite bool_decide_false, Nat2Z.id by lia. apply reads_readAll.
Qed.

Lemma reads_ReadString s : Z.of_nat (String.length s) < 2 ^ 31 → reads ReadString s (counted (bytesOf s)).
Proof.
  intros Hl. rewrite <-bytesOf_length in Hl.
  apply (reads_bind _ _ (Z.of_nat (length (bytesOf s)))); [apply reads_ReadI32; lia|].
  unfold readStringBody. rewrite !bool_decide_false, Nat2Z.id by lia.
  eapply reads_then; [apply reads_readAll|]. rewrite stringOf_bytesOf. apply reads_ok.
Qed.

(** ** Writers *)
Lemma emits_Write bs : emits (Write bs) bs.
Proof. by intros w. Qed.

Lemma emits_bind m m' bs bs' : emits m bs → emits m' bs' → emits (m;; m') (bs ++ bs').
Proof. intros Hm Hm' w. unfold mbind, M_bind. rewrite Hm, Hm'. simpl. by rewrite app_assoc. Qed.

Lemma emits_ret : emits (mret tt) [].
Proof. intros [b w]. unfold mret, M_ret. simpl. by rewrite app_nil_r. Qed.

Lemma emits_WriteString s : emits (WriteString s) (counted (bytesOf s)).
Proof. unfold counted. rewrite bytesOf_length. apply emits_bind; apply emits_Write. Qed.

Lemma emits_serialized m bs : emits m bs → serialized m = Some bs.
Proof. intros He. unfold serialized, mbind, M_bind. by rewrite He. Qed.

(** ** Values of any type

    What a struct can hold, with the element types that go on the wire. *)
#[local] Unset Elimination Schemes.
Inductive tval : Type :=
| VBool (b : bool)
| VByte (v : Z)
| VI16 (v : Z)
| VI32 (v : Z)
| VI64 (v : Z)
| VDouble (bits : Z)
| VString (s : string)
| VStruct (fields : list (Z * tval))
| VMap (keyType valueType : Z) (entries : list (tval * tval))
| VSet (elemType : Z) (elems : list tval)
| VList (elemType : Z) (elems : list tval).
#[local] Set Elimination Schemes.

Definition typeOf (v : tval) : Z :=
  match v with
  | VBool _ => BOOL
  | VByte _ => BYTE
  | VI16 _ => I16
  | VI32 _ => I32
  | VI64 _ => I64
  | VDouble _ => DOUBLE
  | VString _ => STRING
  | VStruct _ => STRUCT
  | VMap _ _ _ => MAP
  | VSet _ _ => SET
  | VList _ _ => LIST
  end.

(** The calls with which generated code writes a value. *)
Fixpoint writeVal (v : tval) : TW unit :=
  match v with
  | VBool b => WriteBool b
  | VByte v => WriteByte v
  | VI16 v => WriteI16 v
  | VI32 v => WriteI32 v
  | VI64 v => WriteI64 v
  | VDouble bits => WriteDouble bits
  | VString s => WriteString s
  | VStruct fs => foldr (λ f k, WriteFieldBegin (typeOf f.2) f.1;; writeVal f.2;; k) WriteFieldStop fs
  | VMap kt vt es =>
      WriteMapBegin kt vt (Z.of_nat (length es));;
      foldr (λ e k, writeVal e.1;; writeVal e.2;; k) (mret tt) es
  | VSet et vs => WriteSetBegin et (Z.of_nat (length vs));; foldr (λ v k, writeVal v;; k) (mret tt) vs
  | VList et vs => WriteListBegin et (Z.of_nat (length vs));; foldr (λ v k, writeVal v;; k) (mret tt) vs
  end.

(** The bytes it comes to. *)
Definition fieldHeader (t id : Z) : list Z := [t mod 256] ++ putUint 2 id.

Fixpoint enc (v : tval) : list Z :=
  match v with
  | VBool b => [(if b then 1 else 0) mod 256]
  | VByte v => [v mod 256]
  | VI16 v => putUint 2 v
  | VI32 v => putUint 4 v
  | VI64 v | VDouble v => putUint 8 v
  | VString s => counted (bytesOf s)
  | VStruct fs => foldr (λ f k, fieldHeader (typeOf f.2) f.1 ++ enc f.2 ++ k) [STOP mod 256] fs
  | VMap kt vt es =>
      ([kt mod 256] ++ [vt mod 256] ++ putUint 4 (Z.of_nat (length es))) ++ foldr (λ e k, enc e.1 ++ enc e.2 ++ k) [] es
  | VSet et vs | VList et vs =>
      ([et mod 256] ++ putUint 4 (Z.of_nat (length vs))) ++ foldr (λ v k, enc v ++ k) [] vs
  end.

Section tval_ind.
Context (P : tval → Prop)
  (Hbool : ∀ b, P (VBool b)) (Hbyte : ∀ v, P (VByte v)) (H16 : ∀ v, P (VI16 v)) (H32 : ∀ v, P (VI32 v))
  (H64 : ∀ v, P (VI64 v)) (Hdouble : ∀ v, P (VDouble v)) (Hstring : ∀ s, P (VString s))
  (Hstruct : ∀ fs, Forall (λ f, P f.2) fs → P (VStruct fs))
  (Hmap : ∀ kt vt es, Forall (λ e, P e.1 ∧ P e.2) es → P (VMap kt vt es))
  (Hset : ∀ et vs, Forall P vs → P (VSet et vs)) (Hlist : ∀ et vs, Forall P vs → P (VList et vs)).

Definition tval_nested_ind : ∀ v, P v :=
  fix go (v : tval) : P v :=
    match v with
    | VBool b => Hbool b
    | VByte v => Hbyte v
    | VI16 v => H16 v
    | VI32 v => H32 v
    | VI64 v => H64 v
    | VDouble v => Hdouble v
    | VString s => Hstring s
    | VStruct fs =>
        Hstruct fs ((fix all fs := match fs return Forall (λ f, P f.2) fs with
                                   | [] => Forall_nil_2 _
                                   | f :: fs => Forall_cons_2 _ _ _ (go f.2) (all fs)
                                   end) fs)
    | VMap kt vt es =>
        Hmap kt vt es ((fix all es := match es return Forall (λ e, P e.1 ∧ P e.2) es with
                                      | [] => Forall_nil_2 _
                                      | e :: es => Forall_cons_2 _ _ _ (conj (go e.1) (go e.2)) (all es)
                                      end) es)
    | VSet et vs =>
        Hset et vs ((fix all vs := match vs return Forall P vs with
                                   | [] => Forall_nil_2 _
                                   | v :: vs => Forall_cons_2 _ _ _ (go v) (all vs)
                                   end) vs)
    | VList et vs =>
        Hlist et vs ((fix all vs := match vs return Forall P vs with
                                    | [] => Forall_nil_2 _
                                    | v :: vs => Forall_cons_2 _ _ _ (go v) (all vs)
                                    end) vs)
    end.
End tval_ind.

Lemma emits_writeVal v : emits (writeVal v) (enc v).
Proof.
  induction v as [| | | | | | s|fs IH|kt vt es IH|et vs IH|et vs IH] using tval_nested_ind; cbn [writeVal enc]; try apply emits_Write.
  - apply emits_WriteString.
  - induction IH as [|f fs Hf _ IHfs]; cbn [foldr]; [apply emits_Write|].
    apply emits_bind; [apply emits_bind; apply emits_Write|]. by apply emits_bind.
  - apply emits_bind; [apply emits_bind; [apply emits_Write|apply emits_bind; apply emits_Write]|].
    induction IH as [|e es [He1 He2] _ IHes]; cbn [foldr]; [apply emits_ret|]. apply emits_bind; [done|by apply emits_bind].
  - apply emits_bind; [apply emits_bind; apply emits_Write|].
    induction IH as [|e es He _ IHes]; cbn [foldr]; [apply emits_ret|by apply emits_bind].
  - apply emits_bind; [apply emits_bind; apply emits_Write|].
    induction IH as [|e es He _ IHes]; cbn [foldr]; [apply emits_ret|by apply emits_bind].
Qed.

(** ** Skipping *)

(** A value whose types agree and whose nesting is within the limit, where the
    values of a map start from the full depth. *)
Definition smallType (t : Z) : Prop := 0 ≤ t < 256.
Definition small {A} (l : list A) : Prop := Z.of_nat (length l) < 2 ^ 31.

Fixpoint fits (d : nat) (v : tval) {struct v} : Prop :=
  (0 < d)%nat ∧
  match v with
  | VString s => Z.of_nat (String.length s) < 2 ^ 31
  | VStruct fs => foldr (λ f P, (- 2 ^ 15 ≤ f.1 < 2 ^ 15 ∧ fits (pred d) f.2) ∧ P) True fs
  | VMap kt vt es =>
      smallType kt ∧ smallType vt ∧ small es ∧
      foldr (λ e P, ((typeOf e.1 = kt ∧ fits (pred d) e.1) ∧ (typeOf e.2 = vt ∧ fits DEFAULT_RECURSION_DEPTH e.2)) ∧ P) True es
  | VSet et vs | VList et vs =>
      smallType et ∧ small vs ∧ foldr (λ v P, (typeOf v = et ∧ fits (pred d) v) ∧ P) True vs
  | _ => True
  end.

Lemma typeOf_small v : smallType (typeOf v).
Proof. unfold smallType. by destruct v. Qed.

Lemma typeOf_not_stop v : typeOf v ≠ STOP.
Proof. by destruct v. Qed.

Lemma ReadFieldBegin_header t id rest :
  smallType t → t ≠ STOP → - 2 ^ 15 ≤ id < 2 ^ 15 →
  ReadFieldBegin (fieldHeader t id ++ rest) = Some ((t, id, None), rest).
Proof.
  intros Ht Hs Hid. unfold ReadFieldBegin, fieldHeader, mbind, M_bind. rewrite <-app_assoc, (reads_ReadByte _ _).
  rewrite bool_decide_false by (by rewrite signed_stop). rewrite (reads_ReadI16 id Hid). by rewrite signed_byte.
Qed.

Lemma ReadFieldBegin_stop rest : ReadFieldBegin ([STOP mod 256] ++ rest) = Some ((STOP, 0, None), rest).
Proof. done. Qed.

Lemma reads_ReadMapBegin kt vt n :
  smallType kt → smallType vt → Z.of_nat n < 2 ^ 31 →
  reads ReadMapBegin (kt, vt, Z.of_nat n) ([kt mod 256] ++ [vt mod 256] ++ putUint 4 (Z.of_nat n)).
Proof.
  intros Hk Hv Hn. eapply reads_bind; [apply reads_ReadByte|]. eapply reads_bind; [apply reads_ReadByte|].
  eapply reads_then; [apply reads_ReadI32; lia|]. rewrite bool_decide_false by lia. rewrite !signed_byte by done. apply reads_ok.
Qed.

Lemma reads_ReadListBegin et n :
  smallType et → Z.of_nat n < 2 ^ 31 → reads ReadListBegin (et, Z.of_nat n) ([et mod 256] ++ putUint 4 (Z.of_nat n)).
Proof.
  intros Ht Hn. eapply reads_bind; [apply reads_ReadByte|]. eapply reads_then; [apply reads_ReadI32; lia|].
  rewrite bool_decide_false by lia. rewrite signed_byte by done. apply reads_ok.
Qed.

Lemma reads_times body bss : Forall (reads body tt) bss → reads (times_ (length bss) body) tt (concat bss).
Proof. induction 1 as [|bs bss Hbs _ IH]; simpl; [apply reads_ok|by eapply reads_bind]. Qed.

(** One unfolding of Skip, per type. *)
Section unfold_skip.
Context (fuel d : nat) (Hd : (0 < d)%nat).

Lemma Skip_struct :
  Skip (S fuel) STRUCT d =
    (remaining ← gets length; skipFields (S remaining) (λ typeId, Skip fuel typeId (pred d))).
Proof using Hd. cbn [Skip]. by rewrite bool_decide_false by lia. Qed.

Lemma Skip_map :
  Skip (S fuel) MAP d =
    ('(keyType, valueType, size) ⇐ ReadMapBegin;
     times_ (Z.to_nat size)
       (_ ⇐ Skip fuel keyType (pred d); Skip fuel valueType DEFAULT_RECURSION_DEPTH;; ok tt)).
Proof using Hd. cbn [Skip]. by rewrite bool_decide_false by lia. Qed.

Lemma Skip_seq t :
  t = SET ∨ t = LIST →
  Skip (S fuel) t d = ('(elemType, size) ⇐ ReadListBegin; times_ (Z.to_nat size) (Skip fuel elemType (pred d))).
Proof using Hd. intros [-> | ->]; cbn [Skip]; by rewrite bool_decide_false by lia. Qed.
End unfold_skip.

Lemma foldr_and {A} (P : A → Prop) l : foldr (λ x Q, P x ∧ Q) True l ↔ Forall P l.
Proof. induction l as [|x l IH]; simpl; [by split|]. by rewrite Forall_cons, IH. Qed.

Lemma foldr_enc {A} (f : A → list Z) l : foldr (λ x k, f x ++ k) [] l = concat (f <$> l).
Proof. induction l as [|x l IH]; simpl; [done|]. by rewrite IH. Qed.

Lemma concat_longer {A} (f : A → list Z) l x : x ∈ l → (length (f x) ≤ length (concat (f <$> l)))%nat.
Proof.
  induction l as [|y l IH]; [by intros ?%elem_of_nil|]. rewrite fmap_cons. cbn [concat]. rewrite length_app.
  intros [->|Hx]%elem_of_cons; [lia|]. specialize (IH Hx). lia.
Qed.

Lemma reads_skipFields skip fs turns :
  (length fs < turns)%nat →
  Forall (λ f, - 2 ^ 15 ≤ f.1 < 2 ^ 15 ∧ reads (skip (typeOf f.2)) tt (enc f.2)) fs →
  reads (skipFields turns skip) tt (enc (VStruct fs)).
Proof.
  intros Ht Hfs. revert turns Ht. induction Hfs as [|[id v] fs [Hid Hv] _ IH]; intros turns Ht rest;
    (destruct turns as [|turns]; [simpl in Ht; lia|]); cbn [enc foldr skipFields fst snd] in *.
  - unfold mbind, M_bind. by rewrite ReadFieldBegin_stop.
  - unfold mbind, M_bind. rewrite <-app_assoc, ReadFieldBegin_header by (done || apply typeOf_small || apply typeOf_not_stop).
    rewrite bool_decide_false by apply typeOf_not_stop. unfold orReturn, mbind, M_bind. rewrite <-app_assoc, (Hv _).
    apply IH. simpl in Ht. lia.
Qed.

Lemma fieldHeader_length t id : length (fieldHeader t id) = 3%nat.
Proof. done. Qed.

Lemma struct_longer fs f : f ∈ fs → (3 + length (enc f.2) ≤ length (enc (VStruct fs)))%nat.
Proof.
  induction 1 as [f fs|f g fs _ IH]; cbn [enc foldr] in *; rewrite !length_app, fieldHeader_length; [lia|].
  cbn [enc] in IH. lia.
Qed.

Lemma struct_fields fs : (length fs < length (enc (VStruct fs)))%nat.
Proof.
  induction fs as [|f fs IH]; cbn [enc foldr length] in *; [lia|]. rewrite !length_app, fieldHeader_length.
  cbn [enc] in IH. lia.
Qed.

(** Skip reads exactly one value that fits. *)
Definition enough (fuel d : nat) (v : tval) : Prop := (d + 65 * length (enc v) < fuel)%nat.

Lemma reads_Skip_scalar fuel d v :
  (0 < d)%nat → match v with VStruct _ | VMap _ _ _ | VSet _ _ | VList _ _ => False | _ => True end →
  fits d v → reads (Skip (S fuel) (typeOf v) d) tt (enc v).
Proof.
  intros Hd Hv Hf.
  destruct v as [b|v|v|v|v|v|s| | | |]; [| | | | | | |done..]; cbn [Skip typeOf enc]; rewrite bool_decide_false by lia.
  - eapply reads_then; [|apply reads_ok]. eapply reads_then; [apply reads_ReadByte|apply reads_ok].
  - eapply reads_then; [apply reads_ReadByte|apply reads_ok].
  - eapply reads_then; [|apply reads_ok]. apply reads_uint, reads_ok.
  - eapply reads_then; [|apply reads_ok]. apply reads_uint, reads_ok.
  - eapply reads_then; [|apply reads_ok]. apply reads_uint, reads_ok.
  - eapply reads_then; [|apply reads_ok]. apply reads_uint, reads_ok.
  - eapply reads_then; [|apply reads_ok]. apply reads_ReadString. apply Hf.
Qed.

Lemma reads_Skip_seq fuel d t et vs :
  (0 < d)%nat → t = SET ∨ t = LIST → smallType et → small vs →
  Forall (λ v, reads (Skip fuel et (pred d)) tt (enc v)) vs →
  reads (Skip (S fuel) t d) tt (([et mod 256] ++ putUint 4 (Z.of_nat (length vs))) ++ concat (enc <$> vs)).
Proof.
  intros Hd Ht Het Hn Hvs. rewrite Skip_seq by done.
  eapply reads_bind; [by apply reads_ReadListBegin|]. simpl. rewrite Nat2Z.id.
  rewrite <-(length_fmap enc vs). apply reads_times. by apply Forall_fmap.
Qed.

Lemma reads_Skip_map fuel d kt vt es :
  (0 < d)%nat → smallType kt → smallType vt → small es →
  Forall (λ e, reads (Skip fuel kt (pred d)) tt (enc e.1) ∧ reads (Skip fuel vt DEFAULT_RECURSION_DEPTH) tt (enc e.2)) es →
  reads (Skip (S fuel) MAP d) tt
    (([kt mod 256] ++ [vt mod 256] ++ putUint 4 (Z.of_nat (length es))) ++ concat ((λ e, enc e.1 ++ enc e.2) <$> es)).
Proof.
  intros Hd Hkt Hvt Hn Hes. rewrite Skip_map by done.
  eapply reads_bind; [by apply reads_ReadMapBegin|]. simpl. rewrite Nat2Z.id.
  rewrite <-(length_fmap (λ e, enc e.1 ++ enc e.2) es). apply reads_times, Forall_fmap.
  eapply Forall_impl; [exact Hes|]. intros [k v] [Hk Hv]. simpl in *.
  eapply reads_bind; [exact Hk|]. intros rest. unfold mbind, M_bind. by rewrite (Hv _).
Qed.

Lemma enc_map kt vt es :
  enc (VMap kt vt es) =
    ([kt mod 256] ++ [vt mod 256] ++ putUint 4 (Z.of_nat (length es))) ++ concat ((λ e, enc e.1 ++ enc e.2) <$> es).
Proof. cbn [enc]. rewrite <-foldr_enc. f_equal. induction es as [|e es IH]; [done|]. cbn [foldr]. by rewrite IH, app_assoc. Qed.

Lemma reads_Skip_elems fuel d t et vs :
  (∀ d v, fits d v → enough fuel d v → reads (Skip fuel (typeOf v) d) tt (enc v)) →
  (0 < d)%nat → t = SET ∨ t = LIST →
  smallType et ∧ small vs ∧ foldr (λ v P, (typeOf v = et ∧ fits (pred d) v) ∧ P) True vs →
  enough (S fuel) d (VList et vs) → reads (Skip (S fuel) t d) tt (enc (VList et vs)).
Proof.
  intros IH Hd Ht (Het & Hsm & Hvs) Hn. apply (foldr_and (λ v, typeOf v = et ∧ fits (pred d) v)) in Hvs.
  unfold enough in *. cbn [enc] in Hn |- *. rewrite foldr_enc in Hn |- *. apply reads_Skip_seq; [done..|].
  rewrite Forall_forall in Hvs |- *. intros v Hin. destruct (Hvs v Hin) as [<- Hv]. apply IH; [done|].
  pose proof (concat_longer enc vs v Hin). rewrite !length_app, putUint_length in Hn. simpl in Hn. lia.
Qed.

Lemma reads_Skip fuel d v : fits d v → enough fuel d v → reads (Skip fuel (typeOf v) d) tt (enc v).
Proof.
  revert d v. induction fuel as [|fuel IH]; intros d v Hf Hn; [unfold enough in Hn; lia|]. unfold enough in Hn, IH.
  assert (0 < d)%nat as Hd by (destruct v; apply Hf).
  destruct v as [b|v|v|v|v|v|s|fs|kt vt es|et vs|et vs]; try (by apply reads_Skip_scalar); destruct Hf as [_ Hf].
  { apply (foldr_and (λ f, - 2 ^ 15 ≤ f.1 < 2 ^ 15 ∧ fits (pred d) f.2)) in Hf. intros rest. cbn [typeOf].
    rewrite Skip_struct by done. unfold gets, mbind, M_bind. apply reads_skipFields.
    + rewrite length_app. pose proof (struct_fields fs). lia.
    + rewrite Forall_forall in Hf |- *. intros f Hin. destruct (Hf f Hin). split; [done|]. apply IH; [done|].
      pose proof (struct_longer fs f Hin). lia. }
  { destruct Hf as (Hkt & Hvt & Hsm & Hes). rewrite enc_map in Hn |- *.
    apply (foldr_and (λ e, (typeOf e.1 = kt ∧ fits (pred d) e.1) ∧ (typeOf e.2 = vt ∧ fits DEFAULT_RECURSION_DEPTH e.2))) in Hes.
    apply reads_Skip_map; [done..|]. rewrite Forall_forall in Hes |- *. intros e Hin.
    destruct (Hes e Hin) as [[<- Hk] [<- Hv]]. pose proof (concat_longer (λ e, enc e.1 ++ enc e.2) es e Hin) as Hlen.
    rewrite !length_app, putUint_length in Hn. simpl in Hn, Hlen. rewrite length_app in Hlen.
    split; apply IH; unfold DEFAULT_RECURSION_DEPTH; (done || lia). }
  - apply (reads_Skip_elems fuel d SET et vs); auto.
  - apply (reads_Skip_elems fuel d LIST et vs); auto.
Qed.

Lemma reads_SkipDefaultDepth v : fits DEFAULT_RECURSION_DEPTH v → reads (SkipDefaultDepth (typeOf v)) tt (enc v).
Proof.
  intros Hv rest. unfold SkipDefaultDepth. apply reads_Skip; [done|].
  unfold enough, skipFuel, DEFAULT_RECURSION_DEPTH. rewrite length_app. lia.
Qed.

(** ** Termination on any input

    A reader returns, leaves an end of its input, and has taken at least [n]
    bytes if it succeeded. *)
Definition takes {A} (n : nat) (m : TR A) (s : list Z) : Prop :=
  wp m (λ r s', s' `suffix_of` s ∧ ∀ a, r = inl a → (n + length s' ≤ length s)%nat) s.

Lemma takes_ok {A} (a : A) s : takes 0 (ok a) s.
Proof. apply wp_ret. by split. Qed.

Lemma takes_err {A} n e s : takes n (err e : TR A) s.
Proof. apply wp_ret. by split. Qed.

Lemma takes_weaken {A} n k (m : TR A) s : takes n m s → (k ≤ n)%nat → takes k m s.
Proof. intros Hm Hk. eapply wp_mono; [exact Hm|]. intros r s' [Hs Hn]. split; [done|]. intros a Ha. specialize (Hn a Ha). lia. Qed.

Lemma takes_bind {A B} n k (m : TR A) (f : A → TR B) s :
  takes n m s → (∀ a s', s' `suffix_of` s → (n + length s' ≤ length s)%nat → takes k (f a) s') →
  takes (n + k) (orReturn m f) s.
Proof.
  intros Hm Hf. apply wp_bind. eapply wp_mono; [exact Hm|]. intros [a|e] s' [Hs Hn]; [|by apply wp_ret].
  specialize (Hn a eq_refl). eapply wp_mono; [by apply Hf|]. intros r s'' [Hs' Hk]. split; [by etrans|].
  intros b Hb. specialize (Hk b Hb). lia.
Qed.

Lemma takes_ReadByte s : takes 1 ReadByte s.
Proof. destruct s as [|b s]; (split; [|naive_solver]); [done|by apply suffix_cons_r]. Qed.

Lemma takes_readAll n s : takes n (readAll n) s.
Proof.
  unfold takes, wp, readAll. case_bool_decide; (split; [|intros a Ha]); [apply suffix_nil|done|apply suffix_drop|].
  rewrite length_drop. lia.
Qed.

Lemma takes_guard {A} n (b : bool) (m : TR A) e s : takes n m s → takes n (if b then err e else m) s.
Proof. destruct b; [intros _; apply takes_err|done]. Qed.

#[export] Hint Resolve takes_ok takes_err takes_ReadByte takes_readAll : wire.

Lemma takes_ReadI32 s : takes 4 ReadI32 s.
Proof. apply (takes_bind 4 0); auto with wire. Qed.

Lemma takes_ReadString s : takes 0 ReadString s.
Proof.
  apply (takes_weaken (4 + 0)); [|lia]. apply takes_bind; [apply takes_ReadI32|]. intros a s' _ _. apply takes_guard.
  unfold readStringBody. case_match; [auto with wire|]. apply (takes_weaken (Z.to_nat a + 0)); [|lia].
  apply takes_bind; auto with wire.
Qed.

Lemma takes_ReadMapBegin s : takes 6 ReadMapBegin s.
Proof.
  apply (takes_bind 1 5); [auto with wire|]. intros. apply (takes_bind 1 4); [auto with wire|]. intros.
  apply (takes_bind 4 0); [apply takes_ReadI32|]. intros. apply takes_guard; auto with wire.
Qed.

Lemma takes_ReadListBegin s : takes 5 ReadListBegin s.
Proof.
  apply (takes_bind 1 4); [auto with wire|]. intros.
  apply (takes_bind 4 0); [apply takes_ReadI32|]. intros. apply takes_guard; auto with wire.
Qed.

Lemma takes_skipping {A} n (m : TR A) s : takes n m s → takes 0 (_ ⇐ m; ok tt) s.
Proof. intros Hm. apply (takes_weaken (n + 0)); [|lia]. apply takes_bind; auto with wire. Qed.

Lemma takes_uint {A} n (f : list Z → A) s : takes n (buf ⇐ readAll n; ok (f buf)) s.
Proof. replace n with (n + 0)%nat at 1 by lia. apply takes_bind; auto with wire. Qed.

Lemma takes_ReadBool s : takes 1 ReadBool s.
Proof. apply (takes_bind 1 0); auto with wire. Qed.

#[export] Hint Resolve takes_ReadI32 takes_ReadString takes_ReadBool : wire.

Lemma ReadFieldBegin_takes s :
  wp ReadFieldBegin (λ r s', s' `suffix_of` s ∧ (r.1.1 ≠ STOP → (length s' < length s)%nat)) s.
Proof.
  apply wp_bind. eapply wp_mono; [apply takes_ReadByte|]. intros [t|e] s' [Hs Hn]; [|by apply wp_ret].
  specialize (Hn t eq_refl). case_bool_decide; [apply wp_ret; split; [done|simpl; lia]|].
  apply wp_bind. eapply wp_mono; [apply (takes_bind 2 0 (readAll 2)); auto with wire|].
  intros r s'' [Hs' _]. assert (length s'' ≤ length s')%nat by (by apply suffix_length).
  destruct r; apply wp_ret; (split; [by etrans|simpl; lia]).
Qed.

Lemma takes_times n body s : (∀ s', s' `suffix_of` s → takes 0 body s') → takes 0 (times_ n body) s.
Proof.
  revert s. induction n as [|n IH]; intros s Hb; simpl; [auto with wire|].
  apply (takes_bind 0 0); [by apply Hb|]. intros _ s' Hs _. apply IH. intros s'' Hs'. apply Hb. by etrans.
Qed.

Lemma takes_skipFields turns skip s :
  (length s < turns)%nat → (∀ t s', s' `suffix_of` s → takes 0 (skip t) s') → takes 0 (skipFields turns skip) s.
Proof.
  revert s. induction turns as [|turns IH]; intros s Ht Hb; [lia|]. cbn [skipFields]. apply wp_bind.
  eapply wp_mono; [apply ReadFieldBegin_takes|]. intros [[t id] e] s' [Hs Hn]. simpl in Hn. case_bool_decide as Hstop.
  - apply wp_ret. split; [done|]. intros _ _. by apply suffix_length.
  - specialize (Hn Hstop). eapply wp_mono; [apply (takes_bind 0 0); [by apply Hb|]|].
    + intros _ s'' Hs' Hl. apply IH; [lia|]. intros t' s3 Hs3. apply Hb. by do 2 (etrans; [eassumption|]).
    + intros r s'' [Hs' Hl]. split; [by etrans|]. intros a Ha. specialize (Hl a Ha). simpl in *. lia.
Qed.

Lemma takes_Skip fuel t d s : (d + 65 * length s < fuel)%nat → takes 0 (Skip fuel t d) s.
Proof.
  revert t d s. induction fuel as [|fuel IH]; intros t d s Hf; [lia|]. cbn [Skip].
  assert (∀ s' d', s' `suffix_of` s → (d' < d)%nat → ∀ t, takes 0 (Skip fuel t d') s') as Hdeeper.
  { intros s' d' Hs Hd t'. apply IH. apply suffix_length in Hs. lia. }
  case_bool_decide as Hd; [auto with wire|].
  repeat (case_bool_decide as Ht; clear Ht;
    [first [apply takes_ok|eapply takes_skipping; (apply takes_uint || auto with wire; fail)|idtac]|]); [..|apply takes_ok].
  - apply wp_bind, wp_gets. apply takes_skipFields; [lia|]. intros t' s' Hs. apply Hdeeper; [done|lia].
  - apply (takes_weaken (6 + 0)); [|lia]. apply takes_bind; [apply takes_ReadMapBegin|]. intros [[kt vt] n] s' Hs Hl.
    apply takes_times. intros s1 Hs1. apply (takes_bind 0 0); [apply Hdeeper; [by etrans|lia]|].
    intros _ s2 Hs2 Hl2. apply wp_bind. eapply wp_mono.
    + apply IH. apply suffix_length in Hs1. unfold DEFAULT_RECURSION_DEPTH. lia.
    + intros r s3 [Hs3 _]. apply wp_ret. split; [done|]. intros _ _. by apply suffix_length.
  - apply (takes_weaken (5 + 0)); [|lia]. apply takes_bind; [apply takes_ReadListBegin|]. intros [et n] s' Hs Hl.
    apply takes_times. intros s1 Hs1. apply Hdeeper; [by etrans|lia].
  - apply (takes_weaken (5 + 0)); [|lia]. apply takes_bind; [apply takes_ReadListBegin|]. intros [et n] s' Hs Hl.
    apply takes_times. intros s1 Hs1. apply Hdeeper; [by etrans|lia].
Qed.

(** A struct's reader returns and leaves an end of its input. *)
Definition returns {A} (m : M (list Z) A) (s : list Z) : Prop := wp m (λ _ s', s' `suffix_of` s) s.

Lemma readLoop_returns {A} id (readField : A → M (list Z) (A * option terror)) turns field isset s :
  (length s < turns)%nat → (∀ f s', s' `suffix_of` s → returns (readField f) s') →
  returns (readLoop id readField turns field isset) s.
Proof.
  revert field isset s. induction turns as [|turns IH]; intros field isset s Ht Hf; [lia|]. cbn [readLoop]. apply wp_bind.
  eapply wp_mono; [apply ReadFieldBegin_takes|]. intros [[t i] [e|]] s' [Hs Hn]; simpl in Hn; [by apply wp_ret|].
  case_bool_decide as Hstop; [by apply wp_ret|]. specialize (Hn Hstop).
  assert (∀ f b s2, s2 `suffix_of` s' → wp (readLoop id readField turns f b) (λ _ s3, s3 `suffix_of` s) s2) as Hnext.
  { intros f b s2 Hs2. apply suffix_length in Hs2 as Hl2. eapply wp_mono; [apply IH; [lia|]|].
    - intros f' s3 Hs3. apply Hf. by do 2 (etrans; [eassumption|]).
    - intros r s3 Hs3. simpl in Hs3. by do 2 (etrans; [eassumption|]). }
  case_bool_decide; apply wp_bind.
  - eapply wp_mono; [by apply Hf|]. intros [f' [e|]] s2 Hs2; simpl in Hs2; [apply wp_ret; by etrans|by apply Hnext].
  - eapply wp_mono; [apply takes_Skip; unfold skipFuel, DEFAULT_RECURSION_DEPTH; lia|].
    intros [v|e] s2 [Hs2 Hl]; [by apply Hnext|apply wp_ret; by etrans].
Qed.

Lemma readStruct_returns {A} id (readField : A → M (list Z) (A * option terror)) required field s :
  (∀ f s', s' `suffix_of` s → returns (readField f) s') → returns (readStruct id readField required field) s.
Proof.
  intros Hf. apply wp_bind, wp_gets, wp_bind. eapply wp_mono; [apply readLoop_returns; [lia|done]|].
  intros [[field' isset] e] s' Hs. by apply wp_ret.
Qed.

Lemma readRequired_returns field s : returns (readRequired field) s.
Proof.
  apply readStruct_returns. intros f s' _. apply wp_bind. eapply wp_mono; [apply takes_ReadString|].
  intros r s2 [Hs2 _]. by apply wp_ret.
Qed.

(** ** Structs that a newer writer has extended *)

(** A field the reader, which knows the field [known], does not know. *)
Definition unknown (known : Z) (f : Z * tval) : Prop :=
  - 2 ^ 15 ≤ f.1 < 2 ^ 15 ∧ f.1 ≠ known ∧ fits DEFAULT_RECURSION_DEPTH f.2.

(** [m] reads [a] from [bs] without an error. *)
Definition parses {A} (m : M (list Z) (A * option terror)) (a : A) (bs : list Z) : Prop :=
  ∀ rest, m (bs ++ rest) = Some ((a, None), rest).

Definition fieldsBytes (tail : list Z) (fs : list (Z * tval)) : list Z :=
  foldr (λ f k, fieldHeader (typeOf f.2) f.1 ++ enc f.2 ++ k) tail fs.

Section one_field.
Context {A : Type} (id : Z) (readField : A → M (list Z) (A * option terror)).
Context (Hid : - 2 ^ 15 ≤ id < 2 ^ 15).

Lemma readLoop_unknown turns fs field isset tail :
  Forall (unknown id) fs → (length fs < turns)%nat →
  readLoop id readField turns field isset (fieldsBytes tail fs) =
    readLoop id readField (turns - length fs) field isset tail.
Proof using.
  intros Hfs. revert turns. induction Hfs as [|[i v] fs (Hi & Hne & Hv) _ IH]; intros turns Ht; [f_equal; simpl; lia|].
  destruct turns as [|turns]; [simpl in Ht; lia|]. unfold fieldsBytes in *. cbn [foldr readLoop fst snd length] in *.
  unfold mbind, M_bind. rewrite ReadFieldBegin_header by (done || apply typeOf_small || apply typeOf_not_stop).
  rewrite !bool_decide_false by (done || apply typeOf_not_stop). rewrite (reads_SkipDefaultDepth v Hv _).
  rewrite IH by lia. done.
Qed.

Lemma readLoop_key turns field isset v t bs tail :
  smallType t → t ≠ STOP → parses (readField field) v bs →
  readLoop id readField (S turns) field isset (fieldHeader t id ++ bs ++ tail) = readLoop id readField turns v true tail.
Proof using Hid.
  intros Ht Hs Hp. cbn [readLoop]. unfold mbind, M_bind. rewrite ReadFieldBegin_header by done.
  rewrite bool_decide_false, bool_decide_true by done. by rewrite (Hp _).
Qed.

Lemma readLoop_stop turns field isset rest :
  readLoop id readField (S turns) field isset ([STOP mod 256] ++ rest) = Some ((field, isset, None), rest).
Proof using. cbn [readLoop]. unfold mbind, M_bind. by rewrite ReadFieldBegin_stop. Qed.

Lemma readLoop_end fs turns field isset rest :
  Forall (unknown id) fs → (length fs < turns)%nat →
  readLoop id readField turns field isset (fieldsBytes ([STOP mod 256] ++ rest) fs) = Some ((field, isset, None), rest).
Proof using.
  intros Hfs Ht. rewrite readLoop_unknown by done. assert (∃ j, turns - length fs = S j)%nat as [j ->].
  { exists (pred (turns - length fs)). lia. }
  apply readLoop_stop.
Qed.

Lemma fieldsBytes_fields tail fs : (length fs ≤ length (fieldsBytes tail fs))%nat.
Proof using.
  induction fs as [|f fs IH]; unfold fieldsBytes in *; cbn [foldr length] in *; [lia|].
  rewrite !length_app, fieldHeader_length. lia.
Qed.

(** Unknown fields, the known one, unknown fields. *)
Lemma readStruct_extended before after t v bs field required :
  Forall (unknown id) before → Forall (unknown id) after → smallType t → t ≠ STOP → parses (readField field) v bs →
  ∀ rest, readStruct id readField required field
    (fieldsBytes (fieldHeader t id ++ bs ++ fieldsBytes ([STOP mod 256] ++ rest) after) before) = Some ((v, None), rest).
Proof using Hid.
  intros Hb Ha Ht Hs Hp rest. unfold readStruct, gets, mbind, M_bind. set (tail := fieldHeader t id ++ _).
  assert (length before + length after + 2 ≤ length (fieldsBytes tail before))%nat as Hl.
  { clear Hb. pose proof (fieldsBytes_fields ([STOP mod 256] ++ rest) after).
    assert (length after + 3 ≤ length tail)%nat by (unfold tail; rewrite !length_app, fieldHeader_length; lia).
    induction before as [|f fs IH]; unfold fieldsBytes in *; cbn [foldr length] in *; [lia|].
    rewrite !length_app, fieldHeader_length. lia. }
  rewrite readLoop_unknown by (done || lia). set (turns := (S _ - length before)%nat).
  assert (∃ k, turns = S k ∧ length after < k)%nat as (k & -> & Hk).
  { exists (pred turns). unfold turns. lia. }
  unfold tail. rewrite (readLoop_key k field false v) by done. rewrite readLoop_end by done. by rewrite andb_false_r.
Qed.

(** Nothing but unknown fields. *)
Lemma readStruct_absent fs field :
  Forall (unknown id) fs →
  ∀ rest, readStruct id readField false field (fieldsBytes ([STOP mod 256] ++ rest) fs) = Some ((field, None), rest).
Proof using.
  intros Hfs rest. unfold readStruct, gets, mbind, M_bind. pose proof (fieldsBytes_fields ([STOP mod 256] ++ rest) fs).
  by rewrite readLoop_end by (done || lia).
Qed.
End one_field.

Lemma parses_readField1 field s : Z.of_nat (String.length s) < 2 ^ 31 → parses (readField1 field) s (counted (bytesOf s)).
Proof. intros Hs rest. unfold readField1, mbind, M_bind. by rewrite (reads_ReadString s Hs _). Qed.

Definition extended (before after : list (Z * tval)) (s : string) : tval :=
  VStruct (before ++ (1, VString s) :: after).

Lemma enc_extended before after s rest :
  enc (extended before after s) ++ rest =
    fieldsBytes (fieldHeader STRING 1 ++ counted (bytesOf s) ++ fieldsBytes ([STOP mod 256] ++ rest) after) before.
Proof.
  unfold extended, fieldsBytes. cbn [enc]. rewrite foldr_app. cbn [foldr fst snd typeOf enc].
  assert (∀ t fs, foldr (λ f k, fieldHeader (typeOf f.2) f.1 ++ enc f.2 ++ k) t fs ++ rest =
    foldr (λ f k, fieldHeader (typeOf f.2) f.1 ++ enc f.2 ++ k) (t ++ rest) fs) as Happ.
  { intros t fs. induction fs as [|f fs IH]; [done|]. cbn [foldr]. by rewrite <-!app_assoc, IH. }
  by rewrite Happ, <-!app_assoc, Happ.
Qed.

Lemma readRequired_extended before after s field :
  Forall (unknown 1) before → Forall (unknown 1) after → Z.of_nat (String.length s) < 2 ^ 31 →
  parses (readRequired field) s (enc (extended before after s)).
Proof.
  intros Hb Ha Hs rest. rewrite enc_extended. apply readStruct_extended; [lia|done|done|done|done|by apply parses_readField1].
Qed.

Lemma Ping_extended before after s p :
  Forall (unknown 1) before → Forall (unknown 1) after → Z.of_nat (String.length s) < 2 ^ 31 →
  parses (readFrom p) (mkPing s) (enc (extended before after s)).
Proof. intros Hb Ha Hs rest. unfold readFrom, Ping_struct, mbind, M_bind. by rewrite (readRequired_extended _ _ _ _ Hb Ha Hs _). Qed.

Lemma Pong_extended before after s p :
  Forall (unknown 1) before → Forall (unknown 1) after → Z.of_nat (String.length s) < 2 ^ 31 →
  parses (readFrom p) (mkPong s) (enc (extended before after s)).
Proof. intros Hb Ha Hs rest. unfold readFrom, Pong_struct, mbind, M_bind. by rewrite (readRequired_extended _ _ _ _ Hb Ha Hs _). Qed.

Lemma DeserializeThrift_parses {A} `{!TStruct A} (a a0 : A) bs :
  parses (readFrom a0) a bs → DeserializeThrift bs a0 = Some (a, None).
Proof. intros Hp. unfold DeserializeThrift. specialize (Hp []). rewrite app_nil_r in Hp. by rewrite Hp. Qed.

Lemma writeRequired_emits s : emits (writeRequired s) (enc (extended [] [] s)).
Proof.
  apply emits_bind; [apply emits_bind; apply emits_Write|]. apply emits_bind; [apply emits_WriteString|apply emits_Write].
Qed.

(** *** Arguments and results *)
Lemma parses_readPointer {A} `{!TStruct A} (new a : A) o bs : parses (readFrom new) a bs → parses (readPointer new o) (Some a) bs.
Proof. intros Hp rest. unfold readPointer, mbind, M_bind. by rewrite Hp. Qed.

Definition argsBytes (s : string) : list Z := enc (VStruct [(1, extended [] [] s)]).
Definition resultBytes (o : option string) : list Z :=
  enc (VStruct (match o with Some s => [(0, extended [] [] s)] | None => [] end)).

Lemma one_field_bytes id v rest :
  enc (VStruct [(id, v)]) ++ rest =
    fieldsBytes (fieldHeader (typeOf v) id ++ enc v ++ fieldsBytes ([STOP mod 256] ++ rest) []) [].
Proof. unfold fieldsBytes. cbn [enc foldr fst snd]. by rewrite <-!app_assoc. Qed.

Lemma Args_parses s p :
  Z.of_nat (String.length s) < 2 ^ 31 → parses (readFrom p) (mkArgs (Some (mkPing s))) (argsBytes s).
Proof.
  intros Hs rest. unfold argsBytes, readFrom, Args_struct, mbind, M_bind. rewrite one_field_bytes.
  rewrite (readStruct_extended 1 _ ltac:(lia) [] [] _ (Some (mkPing s)) (enc (extended [] [] s))); [done|done|done|done|done|].
  apply parses_readPointer. by apply Ping_extended.
Qed.

Lemma Result_parses o p :
  match o with Some s => Z.of_nat (String.length s) < 2 ^ 31 | None => Success p = None end →
  parses (readFrom p) (mkResult (mkPong <$> o)) (resultBytes o).
Proof.
  intros Hs rest. unfold resultBytes, readFrom, Result_struct, mbind, M_bind. destruct o as [s|].
  - rewrite one_field_bytes.
    rewrite (readStruct_extended 0 _ ltac:(lia) [] [] _ (Some (mkPong s)) (enc (extended [] [] s))); [done|done|done|done|done|].
    apply parses_readPointer. by apply Pong_extended.
  - rewrite Hs. by rewrite (readStruct_absent 0 (readPointer (mkPong EmptyString)) [] None (Forall_nil_2 _) rest).
Qed.

Lemma Args_emits s : emits (writeTo (mkArgs (Some (mkPing s)))) (argsBytes s).
Proof.
  apply emits_bind; [apply emits_bind; apply emits_Write|]. apply emits_bind; [apply writeRequired_emits|apply emits_Write].
Qed.

Lemma Result_emits o : emits (writeTo (mkResult (mkPong <$> o))) (resultBytes o).
Proof.
  destruct o as [s|]; [|rewrite <-(app_nil_l (resultBytes None)); apply emits_bind; [apply emits_ret|apply emits_Write]].
  unfold resultBytes. cbn [enc foldr fst snd]. rewrite app_assoc.
  apply emits_bind; [|apply emits_Write]. apply emits_bind; [apply emits_bind; apply emits_Write|apply writeRequired_emits].
Qed.

(** Every reader of a struct returns. *)
Lemma struct_returns :
  (∀ (p : Ping) s, returns (readFrom p) s) ∧ (∀ (p : Pong) s, returns (readFrom p) s) ∧
  (∀ (p : PingPongPingArgs) s, returns (readFrom p) s) ∧ (∀ (p : PingPongPingResult) s, returns (readFrom p) s).
Proof.
  assert (∀ (A B : Type) (m : M (list Z) (A * option terror)) (f : A → B) s,
    returns m s → returns ('(a, e) ← m; mret (f a, e)) s) as Hmap.
  { intros A B m f s Hm. apply wp_bind. eapply wp_mono; [exact Hm|]. intros [a e] s' Hs. by apply wp_ret. }
  assert (∀ (p : Ping) s, returns (readFrom p) s) as Hping by (intros; apply Hmap, readRequired_returns).
  assert (∀ (p : Pong) s, returns (readFrom p) s) as Hpong by (intros; apply Hmap, readRequired_returns).
  split_and!; [done|done|..]; intros p s; apply Hmap, readStruct_returns; intros f s' _; apply Hmap; auto.
Qed.

(** ** Truncated input *)

(** On an input that ends too early the reader fails. *)
Definition strict_prefix (b bs : list Z) : Prop := ∃ x k, bs = b ++ x :: k.
Definition refuses {A} (m : TR A) (bs : list Z) : Prop :=
  ∀ b, strict_prefix b bs → ∃ s', m b = Some (inr EndOfInput, s').

Lemma strict_prefix_app b bs bs' :
  strict_prefix b (bs ++ bs') → strict_prefix b bs ∨ ∃ b', b = bs ++ b' ∧ strict_prefix b' bs'.
Proof.
  intros (x & k & Heq). apply app_eq_inv in Heq as [(l & -> & Hk)|(l & -> & ->)].
  - destruct l as [|y l]; [right|left]; simpl in *; [|by exists y, l].
    exists []. rewrite app_nil_r. split; [by rewrite app_nil_r|]. by exists x, k.
  - right. exists l. split; [done|]. by exists x, k.
Qed.

Lemma strict_prefix_length b bs : strict_prefix b bs → (length b < length bs)%nat.
Proof. intros (x & k & ->). rewrite length_app. simpl. lia. Qed.

Lemma refuses_bind {A B} (m : TR A) (k : A → TR B) a bs bs' :
  reads m a bs → refuses m bs → refuses (k a) bs' → refuses (orReturn m k) (bs ++ bs').
Proof.
  intros Hm Hr Hk b [Hb|(b' & -> & Hb)]%strict_prefix_app; unfold orReturn, mbind, M_bind.
  - destruct (Hr b Hb) as [s' ->]. by exists s'.
  - rewrite Hm. by apply Hk.
Qed.

Lemma refuses_then {A B} (m : TR A) (k : A → TR B) bs : refuses m bs → refuses (orReturn m k) bs.
Proof. intros Hr b Hb. unfold orReturn, mbind, M_bind. destruct (Hr b Hb) as [s' ->]. by exists s'. Qed.

Lemma refuses_readAll n bs : length bs = n → refuses (readAll n) bs.
Proof.
  intros <- b Hb%strict_prefix_length. unfold readAll. rewrite bool_decide_true by done. by exists [].
Qed.

Lemma refuses_ReadString s : Z.of_nat (String.length s) < 2 ^ 31 → refuses ReadString (counted (bytesOf s)).
Proof.
  intros Hl. rewrite <-bytesOf_length in Hl.
  apply (refuses_bind _ _ (Z.of_nat (length (bytesOf s)))); [apply reads_ReadI32; lia|by apply refuses_then, refuses_readAll|].
  unfold readStringBody. rewrite !bool_decide_false, Nat2Z.id by lia. by apply refuses_then, refuses_readAll.
Qed.

Lemma ReadFieldBegin_truncated t id b :
  smallType t → t ≠ STOP → strict_prefix b (fieldHeader t id) →
  ∃ t' id' s', ReadFieldBegin b = Some ((t', id', Some EndOfInput), s').
Proof.
  intros Ht Hs [Hb|(b' & -> & Hb)]%strict_prefix_app; unfold ReadFieldBegin, mbind, M_bind.
  - apply strict_prefix_length in Hb. destruct b as [|x b]; [|simpl in Hb; lia]. by eexists _, _, _.
  - rewrite (reads_ReadByte _ _), bool_decide_false by (by rewrite signed_stop).
    unfold ReadI16, orReturn, mbind, M_bind. destruct (refuses_readAll 2 (putUint 2 id) eq_refl b' Hb) as [s' ->].
    by eexists _, _, _.
Qed.

Lemma readRequired_truncated s b field :
  Z.of_nat (String.length s) < 2 ^ 31 → strict_prefix b (enc (extended [] [] s)) →
  ∃ field' s', readRequired field b = Some ((field', Some EndOfInput), s').
Proof.
  intros Hs Hb. unfold readRequired, readStruct, gets, mbind, M_bind. unfold extended in Hb.
  cbn [app enc foldr fst snd typeOf] in Hb.
  apply strict_prefix_app in Hb as [Hb|(b' & -> & [Hb|(b'' & -> & Hb)]%strict_prefix_app)].
  - cbn [readLoop]. unfold mbind, M_bind.
    destruct (ReadFieldBegin_truncated STRING 1 b ltac:(done) ltac:(done) Hb) as (t & id & s' & ->). by exists field, s'.
  - cbn [readLoop]. unfold mbind, M_bind. rewrite ReadFieldBegin_header by done.
    rewrite bool_decide_false, bool_decide_true by done. unfold readField1, mbind, M_bind.
    destruct (refuses_ReadString s Hs b' Hb) as [s' ->]. by exists field, s'.
  - apply strict_prefix_length in Hb. destruct b'' as [|x b'']; [|simpl in Hb; lia].
    rewrite (readLoop_key 1 readField1 ltac:(lia) _ field false s) by (done || by apply parses_readField1).
    rewrite !length_app, fieldHeader_length. simpl. by exists s, [].
Qed.

(** ** Theorems *)

(** C35: structs survive the wire, also when the writer is newer than the reader:
    whatever fields with other ids and whatever types, nested up to the limit,
    are written before and after the one that Ping and Pong know, reading gives
    the written string without an error, whatever struct is read into; and
    SerializeThrift is that writer without further fields. *)
Theorem thrift_roundtrip before after s :
  Forall (unknown 1) before → Forall (unknown 1) after → Z.of_nat (String.length s) < 2 ^ 31 →
  ∃ b, serialized (writeVal (extended before after s)) = Some b ∧
    (∀ p, DeserializeThrift b p = Some (mkPing s, None)) ∧ (∀ p, DeserializeThrift b p = Some (mkPong s, None)) ∧
    (before = [] → after = [] → SerializeThrift (mkPing s) = Some b ∧ SerializeThrift (mkPong s) = Some b).
Proof.
  intros Hb Ha Hs. exists (enc (extended before after s)). split_and!.
  - apply emits_serialized, emits_writeVal.
  - intros p. by apply DeserializeThrift_parses, Ping_extended.
  - intros p. by apply DeserializeThrift_parses, Pong_extended.
  - intros -> ->. split; apply emits_serialized, writeRequired_emits.
Qed.

Definition newerFields : list (Z * tval) :=
  [(2, VMap STRING LIST [(VString "hops", VList I32 [VI32 7; VI32 (-1)])]); (3, VStruct [(1, VBool true); (-4, VDouble 0)])].

Lemma thrift_roundtrip_witness :
  ∃ b, serialized (writeVal (extended newerFields newerFields "key")) = Some b ∧
    (∀ p, DeserializeThrift b p = Some (mkPing "key", None)) ∧ (∀ p, DeserializeThrift b p = Some (mkPong "key", None)) ∧
    (newerFields = [] → newerFields = [] →
     SerializeThrift (mkPing "key") = Some b ∧ SerializeThrift (mkPong "key") = Some b).
Proof.
  assert (Forall (unknown 1) newerFields) as Hf.
  { unfold unknown, newerFields. rewrite !Forall_cons, Forall_nil. unfold smallType, small. simpl. unfold DEFAULT_RECURSION_DEPTH. split_and!; done || lia. }
  apply (thrift_roundtrip newerFields newerFields "key" Hf Hf). vm_compute. reflexivity.
Defined.

Example ping_on_the_wire :
  SerializeThrift (mkPing "ab") = Some [11; 0; 1; 0; 0; 0; 2; 97; 98; 0].
Proof. reflexivity. Qed.

(** C36: reading always ends: on any bytes, for any struct it is called on,
    DeserializeThrift returns a struct, with or without an error; every loop
    takes a byte per turn and the recursion into unknown fields is bounded by
    their length, although the depth limit does not bound it. *)
Theorem DeserializeThrift_returns b :
  (∀ p : Ping, ∃ p' e, DeserializeThrift b p = Some (p', e)) ∧ (∀ p : Pong, ∃ p' e, DeserializeThrift b p = Some (p', e)) ∧
  (∀ p : PingPongPingArgs, ∃ p' e, DeserializeThrift b p = Some (p', e)) ∧
  (∀ p : PingPongPingResult, ∃ p' e, DeserializeThrift b p = Some (p', e)) ∧
  (∀ t, ∃ r b', SkipDefaultDepth t b = Some (r, b') ∧ b' `suffix_of` b).
Proof.
  assert (∀ A (H : TStruct A) (p : A), returns (readFrom p) b → ∃ p' e, DeserializeThrift b p = Some (p', e)) as Hrun.
  { intros A H p Hr. unfold DeserializeThrift. destruct (wp_run _ _ _ Hr) as ([p' e] & s' & -> & _). by exists p', e. }
  destruct struct_returns as (H1 & H2 & H3 & H4). split_and!; [by intros p; apply Hrun..|].
  intros t. destruct (wp_run _ _ _ (takes_Skip (skipFuel DEFAULT_RECURSION_DEPTH b) t DEFAULT_RECURSION_DEPTH b
    ltac:(unfold skipFuel, DEFAULT_RECURSION_DEPTH; lia))) as (r & s' & Hskip & Hs & _). by exists r, s'.
Qed.

(** A message cut short is refused: every strict prefix of a serialized Ping or
    Pong is answered with an error, whatever struct is read into. *)
Theorem truncated_message_refused s b :
  Z.of_nat (String.length s) < 2 ^ 31 →
  (∀ k, SerializeThrift (mkPing s) = Some (b ++ k) → k ≠ [] →
     ∀ p : Ping, ∃ p', DeserializeThrift b p = Some (p', Some EndOfInput)) ∧
  (∀ k, SerializeThrift (mkPong s) = Some (b ++ k) → k ≠ [] →
     ∀ p : Pong, ∃ p', DeserializeThrift b p = Some (p', Some EndOfInput)).
Proof.
  intros Hs. assert (∀ k field, serialized (writeRequired s) = Some (b ++ k) → k ≠ [] →
    ∃ field' s', readRequired field b = Some ((field', Some EndOfInput), s')) as Hr.
  { intros k field Hb Hk. apply (readRequired_truncated s); [done|].
    rewrite (emits_serialized _ _ (writeRequired_emits s)) in Hb. injection Hb as Hb. destruct k as [|x k]; [done|]. by exists x, k. }
  split; intros k Hb Hk [f]; destruct (Hr k f Hb Hk) as (f' & s' & Hrun).
  - exists (mkPing f'). unfold DeserializeThrift, readFrom, Ping_struct, mbind, M_bind. cbn [Key Source]. by rewrite Hrun.
  - exists (mkPong f'). unfold DeserializeThrift, readFrom, Pong_struct, mbind, M_bind. cbn [Key Source]. by rewrite Hrun.
Qed.

Lemma truncated_message_refused_witness :
  (∀ k, SerializeThrift (mkPing "ab") = Some ([11; 0; 1; 0; 0; 0; 2; 97] ++ k) → k ≠ [] →
     ∀ p : Ping, ∃ p', DeserializeThrift [11; 0; 1; 0; 0; 0; 2; 97] p = Some (p', Some EndOfInput)) ∧
  (∀ k, SerializeThrift (mkPong "ab") = Some ([11; 0; 1; 0; 0; 0; 2; 97] ++ k) → k ≠ [] →
     ∀ p : Pong, ∃ p', DeserializeThrift [11; 0; 1; 0; 0; 0; 2; 97] p = Some (p', Some EndOfInput)).
Proof. apply (truncated_message_refused "ab" [11; 0; 1; 0; 0; 0; 2; 97]). vm_compute. reflexivity. Defined.

(** ** The depth limit *)

(** Lists of lists, and maps whose values are maps. *)
Fixpoint deepList (n : nat) : tval :=
  match n with O => VList BOOL [] | S n => VList LIST [deepList n] end.

Fixpoint deepMap (n : nat) : tval :=
  match n with O => VMap BOOL BOOL [] | S n => VMap BOOL MAP [(VBool true, deepMap n)] end.

Lemma deepMap_fits n : fits DEFAULT_RECURSION_DEPTH (deepMap n).
Proof.
  induction n as [|n IH]; unfold DEFAULT_RECURSION_DEPTH in *; cbn [deepMap fits foldr length pred fst snd typeOf].
  - unfold smallType, small. simpl. split_and!; lia || done.
  - unfold smallType, small. split_and!; try (done || lia). by destruct n.
Qed.

Lemma deepList_refused fuel d n rest :
  (d ≤ n)%nat → (d < fuel)%nat → ∃ s', Skip fuel LIST d (enc (deepList n) ++ rest) = Some (inr DepthLimit, s').
Proof.
  revert d n rest. induction fuel as [|fuel IH]; intros d n rest Hd Hf; [lia|].
  destruct d as [|d]; [by eexists|]. destruct n as [|n]; [lia|]. rewrite Skip_seq by (lia || by right).
  cbn [deepList enc foldr length]. rewrite app_nil_r, <-app_assoc. unfold orReturn at 1, mbind, M_bind.
  rewrite (reads_ReadListBegin LIST 1) by (unfold smallType, LIST; lia).
  change (Z.to_nat (Z.of_nat 1)) with 1%nat. cbn [times_ pred]. destruct (IH d n rest) as [s' Hs]; [lia|lia|].
  exists s'. unfold orReturn, mbind, M_bind. by rewrite Hs.
Qed.

(** Skipping does not look at the error of ReadFieldBegin: a struct that is
    missing altogether is skipped with success. *)
Example missing_struct_skipped : SkipDefaultDepth STRUCT [] = Some (inl tt, []).
Proof. reflexivity. Qed.

(** The depth limit binds lists and not maps: lists nested deeper than 64 are
    refused, while maps as the values of maps are skipped however deep they
    are nested, since every map starts its values from the full depth. *)
Theorem depth_limit_misses_map_values n rest :
  (DEFAULT_RECURSION_DEPTH ≤ n)%nat →
  (∃ s', SkipDefaultDepth LIST (enc (deepList n) ++ rest) = Some (inr DepthLimit, s')) ∧
  SkipDefaultDepth MAP (enc (deepMap n) ++ rest) = Some (inl tt, rest).
Proof.
  intros Hn. split.
  - apply deepList_refused; [done|]. unfold skipFuel. lia.
  - pose proof (reads_SkipDefaultDepth (deepMap n) (deepMap_fits n) rest) as Hm. by destruct n.
Qed.
