(* ===== verification/Rpc.v ===== *)
(** * Rpc: the client and the processor of plain Thrift

    Besides the service over TChannel, the generated code of the example has a
    client and a processor that exchange messages of the binary protocol over
    any transport (pingpong.go): a message has a name, a type and a sequence
    number, by which the client knows the reply to its call.  Errors travel as
    exceptions (application_exception.go). *)
From S2P Require Import Prelude GoStd Bytes Thrift ThriftSpec.
#[local] Open Scope Z_scope.

(** ** messagetype.go, binary_protocol.go *)
Definition CALL : Z := 1.
Definition REPLY : Z := 2.
Definition EXCEPTION : Z := 3.

Definition VERSION_MASK : Z := 0xffff0000.
Definition VERSION_1 : Z := 0x80010000.

(** ** application_exception.go *)
Definition UNKNOWN_APPLICATION_EXCEPTION : Z := 0.
Definition UNKNOWN_METHOD : Z := 1.
Definition INVALID_MESSAGE_TYPE_EXCEPTION : Z := 2.
Definition WRONG_METHOD_NAME : Z := 3.
Definition BAD_SEQUENCE_ID : Z := 4.
Definition INTERNAL_ERROR : Z := 6.
Definition PROTOCOL_ERROR : Z := 7.

Record exception : Type := NewTApplicationException { type_ : Z; message : string }.

Definition writeException (x : exception) : TW unit :=
  (if bool_decide (message x = EmptyString) then mret tt else WriteFieldBegin STRING 1;; WriteString (message x));;
  WriteFieldBegin I32 2;; WriteI32 (type_ x);; WriteFieldStop.

(** One field; a field of another id or type is skipped. *)
Definition readExceptionField (ttype id : Z) (x : exception) : TR exception :=
  if bool_decide (id = 1) && bool_decide (ttype = STRING) then
    m ⇐ ReadString; ok (NewTApplicationException (type_ x) m)
  else if bool_decide (id = 2) && bool_decide (ttype = I32) then
    t ⇐ ReadI32; ok (NewTApplicationException t (message x))
  else _ ⇐ SkipDefaultDepth ttype; ok x.

Fixpoint readExceptionLoop (turns : nat) (x : exception) : TR exception :=
  match turns with
  | O => panic
  | S turns =>
      '(ttype, id, e) ← ReadFieldBegin;
      match e with
      | Some e => err e
      | None => if bool_decide (ttype = STOP) then ok x else x ⇐ readExceptionField ttype id x; readExceptionLoop turns x
      end
  end.

Definition readException : TR exception :=
  remaining ← gets length;
  readExceptionLoop (S remaining) (NewTApplicationException UNKNOWN_APPLICATION_EXCEPTION "").

(** An exception survives the wire. *)
Definition exceptionBytes (x : exception) : list Z :=
  (if bool_decide (message x = EmptyString) then [] else fieldHeader STRING 1 ++ counted (bytesOf (message x))) ++
  fieldHeader I32 2 ++ putUint 4 (type_ x) ++ [STOP mod 256].

Lemma emits_exception x : emits (writeException x) (exceptionBytes x).
Proof.
  unfold writeException, exceptionBytes. apply emits_bind.
  - case_bool_decide; [apply emits_ret|]. apply emits_bind; [apply emits_bind; apply emits_Write|apply emits_WriteString].
  - apply emits_bind; [apply emits_bind; apply emits_Write|]. apply emits_bind; apply emits_Write.
Qed.

(** One turn of the loop. *)
Lemma readExceptionLoop_field turns t id x x' y bs rest :
  smallType t → t ≠ STOP → - 2 ^ 15 ≤ id < 2 ^ 15 → reads (readExceptionField t id x) x' bs →
  readExceptionLoop turns x' rest = Some (inl y, []) →
  readExceptionLoop (S turns) x (fieldHeader t id ++ bs ++ rest) = Some (inl y, []).
Proof.
  intros Ht Hs Hid Hr Hrest. cbn [readExceptionLoop]. unfold mbind at 1, M_bind. rewrite ReadFieldBegin_header by done.
  rewrite bool_decide_false by done. unfold orReturn, mbind, M_bind. by rewrite Hr.
Qed.

Lemma reads_exception x :
  - 2 ^ 31 ≤ type_ x < 2 ^ 31 → Z.of_nat (String.length (message x)) < 2 ^ 31 →
  readException (exceptionBytes x) = Some (inl x, []).
Proof.
  intros Ht Hm. unfold readException, gets, mbind, M_bind. set (input := exceptionBytes x).
  assert (2 < length input)%nat as Hlen by (unfold input, exceptionBytes; rewrite !length_app, !fieldHeader_length; lia).
  assert (∀ turns m, (1 < turns)%nat → readExceptionLoop turns (NewTApplicationException 0 m)
    (fieldHeader I32 2 ++ putUint 4 (type_ x) ++ [STOP mod 256]) = Some (inl (NewTApplicationException (type_ x) m), [])) as Hlast.
  { intros [|[|turns]] m Hturns; [lia..|]. apply (readExceptionLoop_field _ _ _ _ (NewTApplicationException (type_ x) m)); try done.
    unfold readExceptionField. simpl. eapply reads_then; [by apply reads_ReadI32|apply reads_ok]. }
  unfold input at 2, exceptionBytes. case_bool_decide as He.
  - rewrite app_nil_l, Hlast by lia. destruct x; simpl in *. by subst.
  - rewrite <-app_assoc. apply (readExceptionLoop_field _ _ _ _ (NewTApplicationException 0 (message x))); try done.
    + unfold readExceptionField. simpl. eapply reads_then; [by apply reads_ReadString|apply reads_ok].
    + rewrite Hlast by lia. by destruct x.
Qed.

Section rpc.
Context {S : Type}.

(** How the two ends are configured, and the text of an error. *)
Variable strictRead strictWrite : bool.
Variable errorText : terror → string.

Definition WriteMessageBegin (name : string) (typeId seqId : Z) : TW unit :=
  if strictWrite then WriteI32 (Z.lor VERSION_1 typeId);; WriteString name;; WriteI32 seqId
  else WriteString name;; WriteByte typeId;; WriteI32 seqId.

Definition ReadMessageBegin : TR (string * Z * Z) :=
  size ⇐ ReadI32;
  if bool_decide (size < 0) then
    let typeId := Z.land size 0xff in
    if bool_decide (Z.land size VERSION_MASK ≠ VERSION_1) then err BadVersion
    else name ⇐ ReadString; seqId ⇐ ReadI32; ok (name, typeId, seqId)
  else if strictRead then err BadVersion
  else name ⇐ readStringBody size; b ⇐ ReadByte; seqId ⇐ ReadI32; ok (name, b, seqId).

(** ** The client

    Its state is SeqId; the errors are those of the protocol and exceptions. *)
Inductive rpcError : Type := Protocol (e : terror) | Application (x : exception).

Definition sendPing (request : option Ping) : M Z (list Z) := λ seqId,
  let seqId := signed 32 (seqId + 1) in
  b ← serialized (WriteMessageBegin "Ping" CALL seqId;; writeTo (mkArgs request));
  Some (b, seqId).

Definition recvPing (SeqId : Z) : M (list Z) (option Pong + rpcError) :=
  m ← ReadMessageBegin;
  match m with
  | inr e => mret (inr (Protocol e))
  | inl (method, mTypeId, seqId) =>
      if bool_decide (method ≠ "Ping") then
        mret (inr (Application (NewTApplicationException WRONG_METHOD_NAME "Ping failed: wrong method name")))
      else if bool_decide (SeqId ≠ seqId) then
        mret (inr (Application (NewTApplicationException BAD_SEQUENCE_ID "Ping failed: out of sequence response")))
      else if bool_decide (mTypeId = EXCEPTION) then
        x ← readException;
        mret (match x with inl x => inr (Application x) | inr e => inr (Protocol e) end)
      else if bool_decide (mTypeId ≠ REPLY) then
        mret (inr (Application (NewTApplicationException INVALID_MESSAGE_TYPE_EXCEPTION "Ping failed: invalid message type")))
      else
        '(result, e) ← readFrom (mkResult None);
        mret (match e with Some e => inr (Protocol e) | None => inl (GetSuccess result) end)
  end.

(** ** The processor

    From the input it takes one message; the input left, the bytes of its
    reply, and what it returns. *)
Record processed : Type := mkProcessed {
  pr_input : list Z;
  pr_output : list Z;
  pr_success : bool;
  pr_err : option (rpcError + string)
}.

Abbreviation pingHandler := (option Ping → M S (option Pong + string)).

Definition raise (name : string) (seqId : Z) (x : exception) : option (list Z) :=
  serialized (WriteMessageBegin name EXCEPTION seqId;; writeException x).

Definition processPing (handler : pingHandler) (seqId : Z) (input : list Z) : M S processed := λ s,
  '((args, e), input) ← readFrom (mkArgs None) input;
  match e with
  | Some e =>
      out ← raise "Ping" seqId (NewTApplicationException PROTOCOL_ERROR (errorText e));
      Some (mkProcessed input out false (Some (inl (Protocol e))), s)
  | None =>
      '(r, s) ← handler (Request args) s;
      match r with
      | inr err2 =>
          out ← raise "Ping" seqId (NewTApplicationException INTERNAL_ERROR ("Internal error processing Ping: " +:+ err2));
          Some (mkProcessed input out true (Some (inr err2)), s)
      | inl retval =>
          out ← serialized (WriteMessageBegin "Ping" REPLY seqId;; writeTo (mkResult retval));
          Some (mkProcessed input out true None, s)
      end
  end.

Definition NewPingPongProcessor (handler : pingHandler) : gmap string (Z → list Z → M S processed) :=
  {["Ping" := processPing handler]}.

(** Process; the error of Skip is not looked at. *)
Definition Process (processorMap : gmap string (Z → list Z → M S processed)) (input : list Z) : M S processed := λ s,
  '(m, input) ← ReadMessageBegin input;
  match m with
  | inr e => Some (mkProcessed input [] false (Some (inl (Protocol e))), s)
  | inl (name, _, seqId) =>
      match processorMap !! name with
      | Some process => process seqId input s
      | None =>
          '(_, input) ← SkipDefaultDepth STRUCT input;
          let x3 := NewTApplicationException UNKNOWN_METHOD ("Unknown function " +:+ name) in
          out ← raise name seqId x3;
          Some (mkProcessed input out false (Some (inl (Application x3))), s)
      end
  end.

(** Ping of the client, with a processor at the other end; SeqId afterwards. *)
Definition plainPing (handler : pingHandler) (request : option Ping) (SeqId : Z) : M S ((option Pong + rpcError) * Z) := λ s,
  '(call, SeqId) ← sendPing request SeqId;
  '(p, s) ← Process (NewPingPongProcessor handler) call s;
  '(r, _) ← recvPing SeqId (pr_output p);
  Some ((r, SeqId), s).

(** ** Messages survive the wire *)
Definition messageBytes (name : string) (typeId seqId : Z) : list Z :=
  if strictWrite then putUint 4 (Z.lor VERSION_1 typeId) ++ counted (bytesOf name) ++ putUint 4 seqId
  else counted (bytesOf name) ++ [typeId mod 256] ++ putUint 4 seqId.

Lemma emits_message name typeId seqId : emits (WriteMessageBegin name typeId seqId) (messageBytes name typeId seqId).
Proof.
  unfold WriteMessageBegin, messageBytes. destruct strictWrite.
  - apply emits_bind; [apply emits_Write|]. apply emits_bind; [apply emits_WriteString|apply emits_Write].
  - apply emits_bind; [apply emits_WriteString|]. apply emits_bind; apply emits_Write.
Qed.

(** The reader takes messages of its writer, unless it insists on versions that
    the writer does not send. *)
Lemma reads_message name typeId seqId :
  (strictRead = true → strictWrite = true) → typeId ∈ [CALL; REPLY; EXCEPTION] →
  Z.of_nat (String.length name) < 2 ^ 31 → - 2 ^ 31 ≤ seqId < 2 ^ 31 →
  reads ReadMessageBegin (name, typeId, seqId) (messageBytes name typeId seqId).
Proof.
  intros Hstrict Ht Hn Hs. unfold ReadMessageBegin, messageBytes. destruct strictWrite.
  - assert (∃ v, signed 32 (Z.lor VERSION_1 typeId) = v ∧ v < 0 ∧ Z.land v 0xff = typeId ∧ Z.land v VERSION_MASK = VERSION_1)
      as (v & Hv & Hneg & Hty & Hver).
    { rewrite !elem_of_cons in Ht. destruct Ht as [->|[->|[->|Ht]]]; [..|by apply elem_of_nil in Ht];
        (eexists; split; [vm_compute; reflexivity|split_and!; done]). }
    assert (reads ReadI32 v (putUint 4 (Z.lor VERSION_1 typeId))) as Hr.
    { apply reads_uint. rewrite getUint_putUint. unfold signed. rewrite Z.add_mod_idemp_l by done.
      unfold signed in Hv. rewrite Hv. apply reads_ok. }
    eapply reads_bind; [exact Hr|]. rewrite bool_decide_true by done. rewrite bool_decide_false by (rewrite Hver; tauto).
    eapply reads_bind; [by apply reads_ReadString|]. eapply reads_then; [by apply reads_ReadI32|]. rewrite Hty. apply reads_ok.
  - unfold counted. rewrite <-app_assoc. rewrite bytesOf_length.
    eapply reads_bind; [apply reads_ReadI32; lia|]. rewrite bool_decide_false by lia.
    assert (strictRead = false) as -> by (destruct strictRead; [by discriminate Hstrict|done]).
    unfold readStringBody. rewrite bool_decide_false, Nat2Z.id by lia. rewrite <-bytesOf_length.
    eapply reads_bind; [eapply reads_then; [apply reads_readAll|apply reads_ok]|]. rewrite stringOf_bytesOf.
    eapply reads_bind; [apply reads_ReadByte|]. eapply reads_then; [by apply reads_ReadI32|].
    assert (signed 8 (typeId mod 256) = typeId) as ->; [|apply reads_ok].
    rewrite !elem_of_cons in Ht. destruct Ht as [->|[->|[->|Ht]]]; [reflexivity..|by apply elem_of_nil in Ht].
Qed.
(** ** A plain call is a call of the handler *)
Section call.
Context (Hstrict : strictRead = true → strictWrite = true).

Lemma signed32_range v : - 2 ^ 31 ≤ signed 32 v < 2 ^ 31.
Proof using. unfold signed. pose proof (Z.mod_pos_bound (v + 2 ^ (32 - 1)) (2 ^ 32)). lia. Qed.

(** What the client makes of a reply that begins as expected. *)
Lemma recvPing_message SeqId typeId bs :
  typeId ∈ [CALL; REPLY; EXCEPTION] → - 2 ^ 31 ≤ SeqId < 2 ^ 31 →
  recvPing SeqId (messageBytes "Ping" typeId SeqId ++ bs) =
    if bool_decide (typeId = EXCEPTION) then
      (x ← readException; mret (match x with inl x => inr (Application x) | inr e => inr (Protocol e) end)) bs
    else if bool_decide (typeId ≠ REPLY) then
      Some (inr (Application (NewTApplicationException INVALID_MESSAGE_TYPE_EXCEPTION "Ping failed: invalid message type")), bs)
    else
      ('(result, e) ← readFrom (mkResult None);
       mret (match e with Some e => inr (Protocol e) | None => inl (GetSuccess result) end)) bs.
Proof using Hstrict.
  intros Ht Hs. unfold recvPing. unfold mbind at 1, M_bind. rewrite (reads_message "Ping" typeId SeqId) by done.
  rewrite !(bool_decide_false (_ ≠ _)) by tauto. by repeat case_bool_decide.
Qed.

(** A reply to another call is not taken for the answer. *)
Lemma stale_reply_refused SeqId seqId typeId bs :
  typeId ∈ [CALL; REPLY; EXCEPTION] → - 2 ^ 31 ≤ seqId < 2 ^ 31 → SeqId ≠ seqId →
  recvPing SeqId (messageBytes "Ping" typeId seqId ++ bs) =
    Some (inr (Application (NewTApplicationException BAD_SEQUENCE_ID "Ping failed: out of sequence response")), bs).
Proof using Hstrict.
  intros Ht Hs Hne. unfold recvPing. unfold mbind at 1, M_bind. rewrite (reads_message "Ping" typeId seqId) by done.
  by rewrite bool_decide_false, bool_decide_true by tauto.
Qed.

(** The answer of the handler as the client sees it. *)
Definition plainAnswer (r : option Pong + string) : option Pong + rpcError :=
  match r with
  | inl o => inl o
  | inr e => inr (Application (NewTApplicationException INTERNAL_ERROR ("Internal error processing Ping: " +:+ e)))
  end.

Definition smallReply (r : option Pong + string) : Prop :=
  match r with
  | inl (Some pong) => Z.of_nat (String.length (Source pong)) < 2 ^ 31
  | inl None => True
  | inr e => Z.of_nat (String.length ("Internal error processing Ping: " +:+ e)) < 2 ^ 31
  end.

Definition replyBytes (SeqId : Z) (r : option Pong + string) : list Z :=
  match r with
  | inl o => messageBytes "Ping" REPLY SeqId ++ resultBytes (Source <$> o)
  | inr e => messageBytes "Ping" EXCEPTION SeqId ++
      exceptionBytes (NewTApplicationException INTERNAL_ERROR ("Internal error processing Ping: " +:+ e))
  end.

Lemma recvPing_reply SeqId r :
  - 2 ^ 31 ≤ SeqId < 2 ^ 31 → smallReply r → recvPing SeqId (replyBytes SeqId r) = Some (plainAnswer r, []).
Proof using Hstrict.
  intros Hs Hr. destruct r as [o|e]; unfold replyBytes; (rewrite recvPing_message; [|set_solver|done]).
  - rewrite !bool_decide_false by (done || tauto). unfold mbind, M_bind.
    rewrite <-(app_nil_r (resultBytes _)), (Result_parses (Source <$> o) _) by (by destruct o as [[]|]).
    by destruct o as [[]|].
  - rewrite bool_decide_true by done. unfold mbind, M_bind. by rewrite reads_exception.
Qed.

(** The processor takes one call from its input and runs the handler once. *)
Lemma Process_call handler request SeqId rest s :
  - 2 ^ 31 ≤ SeqId < 2 ^ 31 → Z.of_nat (String.length (Key request)) < 2 ^ 31 →
  Process (NewPingPongProcessor handler) ((messageBytes "Ping" CALL SeqId ++ argsBytes (Key request)) ++ rest) s =
    '(r, s) ← handler (Some request) s;
    Some (mkProcessed rest (replyBytes SeqId r) true (match r with inl _ => None | inr e => Some (inr e) end), s).
Proof using Hstrict.
  intros Hs Hk. destruct request as [key]. cbn [Key] in *. unfold Process.
  rewrite <-app_assoc, (reads_message "Ping" CALL SeqId) by (done || set_solver). unfold mbind at 1, option_bind.
  unfold NewPingPongProcessor. rewrite lookup_singleton_eq. unfold processPing. rewrite (Args_parses key) by done.
  unfold mbind, option_bind. cbn [Request]. destruct (handler (Some (mkPing key)) s) as [[[o|e] s']|]; [..|done].
  - rewrite (emits_serialized _ (messageBytes "Ping" REPLY SeqId ++ resultBytes (Source <$> o))); [done|].
    apply emits_bind; [apply emits_message|].
    assert (o = mkPong <$> (Source <$> o)) as Ho by (by destruct o as [[]|]). rewrite Ho at 1. apply Result_emits.
  - unfold raise. by rewrite (emits_serialized _ _ (emits_bind _ _ _ _ (emits_message _ _ _) (emits_exception _))).
Qed.

(** A call of the plain client runs the handler once with the request, returns
    its answer or its error as an internal error, and takes the next sequence
    number, which wraps around. *)
Theorem plain_call_is_a_call handler request SeqId s :
  Z.of_nat (String.length (Key request)) < 2 ^ 31 →
  (∀ r s', handler (Some request) s = Some (r, s') → smallReply r) →
  plainPing handler (Some request) SeqId s =
    '(r, s) ← handler (Some request) s; Some ((plainAnswer r, signed 32 (SeqId + 1)), s).
Proof using Hstrict.
  intros Hk Hr. unfold plainPing, sendPing. set (q := signed 32 (SeqId + 1)).
  pose proof (signed32_range (SeqId + 1)) as Hq. fold q in Hq.
  rewrite (emits_serialized _ (messageBytes "Ping" CALL q ++ argsBytes (Key request))).
  2: { apply emits_bind; [apply emits_message|]. destruct request as [key]. apply Args_emits. }
  pose proof (Process_call handler request q [] s Hq Hk) as Hp. rewrite app_nil_r in Hp.
  cbv beta match delta [mbind option_bind] in Hp |- *. rewrite Hp. destruct (handler (Some request) s) as [[r s']|]; [|done]. cbn [pr_output].
  by rewrite recvPing_reply by (done || by apply (Hr r s')).
Qed.
End call.
End rpc.

(** A handler that counts its calls; the sequence number wraps around. *)
Definition onlyKnown (request : option Ping) : M nat (option Pong + string) :=
  modify S;;
  mret (match request with
        | Some p => if bool_decide (Key p = "known") then inl (Some (mkPong "here")) else inr "unknown key"
        | None => inr "no request"
        end).

Example plain_call : plainPing false true (λ _, "") onlyKnown (Some (mkPing "known")) (2 ^ 31 - 1) 4%nat =
  Some ((inl (Some (mkPong "here")), - 2 ^ 31), 5%nat).
Proof. vm_compute. reflexivity. Qed.

Example plain_call_failing : plainPing false false (λ _, "") onlyKnown (Some (mkPing "other")) 0 4%nat =
  Some ((inr (Application (NewTApplicationException INTERNAL_ERROR "Internal error processing Ping: unknown key")), 1), 5%nat).
Proof. vm_compute. reflexivity. Qed.
