(* ===== verification/Typed.v ===== *)
(** * Typed: buffers of TChannel and the headers of a Thrift call

    typed/buffer.go and typed/reader.go of the vendored TChannel: a write
    buffer of fixed size and a reader of a stream, both with an error that
    sticks, and thrift/headers.go, which writes the headers of a call with
    them.  ringpop marks a forwarded call by such a header. *)
From S2P Require Import Prelude GoStd Bytes.
#[local] Open Scope Z_scope.

(** ** buffer.go *)

(** The bytes of the buffer, how many are written, and whether ErrBufferFull
    has occurred. *)
Record WriteBuffer : Type := mkBuffer { wb_buffer : list Z; wb_pos : nat; wb_err : bool }.
Abbreviation WB := (M WriteBuffer).

Definition NewWriteBuffer (buffer : list Z) : WriteBuffer := mkBuffer buffer 0 false.
Definition NewWriteBufferWithSize (size : nat) : WriteBuffer := NewWriteBuffer (replicate size 0).

(** The bytes reserved: their position, or [None] for a nil slice. *)
Definition reserve (n : nat) : WB (option nat) := λ w,
  if wb_err w then Some (None, w)
  else if bool_decide (length (wb_buffer w) - wb_pos w < n)%nat
  then Some (None, mkBuffer (wb_buffer w) (wb_pos w) true)
  else Some (Some (wb_pos w), mkBuffer (wb_buffer w) (wb_pos w + n) false).

(** [copy(b, in)] into the bytes reserved at [at_] *)
Definition copyAt (at_ : nat) (bs : list Z) : WB unit :=
  modify (λ w, mkBuffer (take at_ (wb_buffer w) ++ bs ++ drop (at_ + length bs) (wb_buffer w)) (wb_pos w) (wb_err w)).

Definition WriteBytes (bs : list Z) : WB unit :=
  b ← reserve (length bs);
  match b with Some at_ => copyAt at_ bs | None => mret tt end.

Definition WriteUint16 (n : Z) : WB unit := WriteBytes (putUint 2 n).
Definition WriteString (s : string) : WB unit := WriteBytes (bytesOf s).
Definition WriteLen16String (s : string) : WB unit :=
  WriteUint16 (Z.of_nat (String.length s));; WriteString s.

Definition BytesWritten (w : WriteBuffer) : nat := wb_pos w.
Definition FlushTo (w : WriteBuffer) : list Z := take (wb_pos w) (wb_buffer w).

(** ** reader.go *)

(** What is left of the stream, and whether an error has occurred. *)
Record Reader : Type := mkReader { rd_input : list Z; rd_err : bool }.
Abbreviation RD := (M Reader).

Definition NewReader (input : list Z) : Reader := mkReader input false.

(** io.ReadFull: [None] when there are not enough bytes, which are used up. *)
Definition readFull (n : nat) : RD (option (list Z)) := λ r,
  if bool_decide (length (rd_input r) < n)%nat then Some (None, mkReader [] true)
  else Some (Some (take n (rd_input r)), mkReader (drop n (rd_input r)) false).

Definition ReadUint16 : RD Z :=
  e ← gets rd_err;
  if (e : bool) then mret 0
  else b ← readFull 2; mret (match b with Some b => getUint b | None => 0 end).

Definition ReadString (n : nat) : RD string :=
  e ← gets rd_err;
  if (e : bool) then mret EmptyString
  else b ← readFull n; mret (match b with Some b => stringOf b | None => EmptyString end).

Definition ReadLen16String : RD string := len ← ReadUint16; ReadString (Z.to_nat len).

(** ** headers.go *)
Abbreviation headers := (gmap string string).

Inductive headersError : Type := ErrBufferFull | ErrSize.

(** The size is counted and the pairs are written in two passes over the map,
    each in an order of its own. *)
Definition headerSize (kv : string * string) : nat := 4 + String.length kv.1 + String.length kv.2.

Definition writePair (kv : string * string) : WB unit := WriteLen16String kv.1;; WriteLen16String kv.2.

Definition WriteHeaders (c1 c2 : choice) (hs : headers) : option (list Z + headersError) :=
  let total := foldl (λ size kv, size + headerSize kv)%nat 2%nat (arrange c1 (map_to_list hs)) in
  '(_, w) ← (WriteUint16 (Z.of_nat (size hs));; for_each (arrange c2 (map_to_list hs)) writePair)
    (NewWriteBufferWithSize total);
  Some (if wb_err w then inr ErrBufferFull
        else if bool_decide (BytesWritten w ≠ total) then inr ErrSize
        else inl (FlushTo w)).

Fixpoint readPairs (n : nat) (hs : headers) : RD headers :=
  match n with
  | O => mret hs
  | S n =>
      e ← gets rd_err;
      if (e : bool) then mret hs
      else k ← ReadLen16String; v ← ReadLen16String; readPairs n (<[k := v]> hs)
  end.

(** readHeaders; no headers are a nil map; with the headers, whether there was an error. *)
Definition readHeaders : RD (headers * bool) :=
  numHeaders ← ReadUint16;
  hs ← (if bool_decide (numHeaders = 0) then mret ∅ else readPairs (Z.to_nat numHeaders) ∅);
  e ← gets rd_err;
  mret (hs, e).

Definition ReadHeaders (r : list Z) : option (headers * bool) := fst <$> readHeaders (NewReader r).

(** ** Writing appends, reading takes from the front *)
Record appended (bs : list Z) (w w' : WriteBuffer) : Prop := {
  ap_err : wb_err w' = false;
  ap_pos : wb_pos w' = (wb_pos w + length bs)%nat;
  ap_len : length (wb_buffer w') = length (wb_buffer w);
  ap_bytes : FlushTo w' = FlushTo w ++ bs
}.

Definition appends (m : WB unit) (bs : list Z) : Prop :=
  ∀ w, wb_err w = false → (wb_pos w + length bs ≤ length (wb_buffer w))%nat → wp m (λ _, appended bs w) w.

Lemma appends_WriteBytes bs : appends (WriteBytes bs) bs.
Proof.
  intros w He Hl. unfold WriteBytes. apply wp_bind. unfold reserve, wp. rewrite He, bool_decide_false by lia.
  simpl. split; simpl; [done|done| |].
  - rewrite !length_app, length_take, length_drop. lia.
  - unfold FlushTo. simpl. rewrite app_assoc, take_app_le by (rewrite length_app, length_take; lia).
    by rewrite take_ge by (rewrite length_app, length_take; lia).
Qed.

Lemma appends_bind m m' bs bs' : appends m bs → appends m' bs' → appends (m;; m') (bs ++ bs').
Proof.
  intros Hm Hm' w He Hl. rewrite length_app in Hl. apply wp_bind. eapply wp_mono; [apply Hm; [done|lia]|].
  intros _ w1 [He1 Hp1 Hl1 Hb1]. eapply wp_mono; [apply Hm'; [done|lia]|]. intros _ w2 [He2 Hp2 Hl2 Hb2].
  split; [done| |congruence|by rewrite Hb2, Hb1, app_assoc]. rewrite length_app. lia.
Qed.

Lemma appends_for_each {A} (body : A → WB unit) (f : A → list Z) l :
  (∀ x, appends (body x) (f x)) → appends (for_each l body) (concat (f <$> l)).
Proof.
  intros Hb. induction l as [|x l IH]; simpl; [|by apply appends_bind].
  intros w He _. apply wp_ret. split; simpl; [done|lia|done|by rewrite app_nil_r].
Qed.

Definition len16 (s : string) : list Z := putUint 2 (Z.of_nat (String.length s)) ++ bytesOf s.
Definition pairBytes (kv : string * string) : list Z := len16 kv.1 ++ len16 kv.2.

Lemma appends_writePair kv : appends (writePair kv) (pairBytes kv).
Proof. apply appends_bind; apply appends_bind; apply appends_WriteBytes. Qed.

Lemma pairBytes_length kv : length (pairBytes kv) = headerSize kv.
Proof. unfold pairBytes, len16, headerSize. rewrite !length_app, !putUint_length, !bytesOf_length. lia. Qed.

(** [m] returns [a], takes exactly [bs] and meets no error. *)
Definition yields {A} (m : RD A) (a : A) (bs : list Z) : Prop :=
  ∀ rest, m (mkReader (bs ++ rest) false) = Some (a, mkReader rest false).

Lemma yields_bind {A B} (m : RD A) (k : A → RD B) a b bs bs' :
  yields m a bs → yields (k a) b bs' → yields (m ≫= k) b (bs ++ bs').
Proof. intros Hm Hk rest. unfold mbind, M_bind. rewrite <-app_assoc, Hm. apply Hk. Qed.

Lemma readFull_front bs rest : readFull (length bs) (mkReader (bs ++ rest) false) = Some (Some bs, mkReader rest false).
Proof.
  unfold readFull. simpl. rewrite bool_decide_false by (rewrite length_app; lia). by rewrite take_app_length, drop_app_length.
Qed.

Lemma noError {A} (a : A) (m : RD A) input :
  (e ← gets rd_err; if (e : bool) then mret a else m) (mkReader input false) = m (mkReader input false).
Proof. done. Qed.

Lemma yields_ReadUint16 n : 0 ≤ n < 2 ^ 16 → yields ReadUint16 n (putUint 2 n).
Proof.
  intros Hn rest. unfold ReadUint16. rewrite noError. unfold mbind, M_bind.
  pose proof (readFull_front (putUint 2 n) rest) as Hr. rewrite putUint_length in Hr.
  rewrite Hr, getUint_putUint, Z.mod_small by done. done.
Qed.

Definition short (s : string) : Prop := Z.of_nat (String.length s) < 2 ^ 16.

Lemma yields_ReadLen16String s : short s → yields ReadLen16String s (len16 s).
Proof.
  intros Hs. eapply yields_bind; [apply yields_ReadUint16; unfold short in Hs; lia|]. intros rest.
  unfold ReadString. rewrite noError. unfold mbind, M_bind.
  rewrite Nat2Z.id, <-bytesOf_length, readFull_front, stringOf_bytesOf. done.
Qed.

Lemma yields_readPairs l hs :
  Forall (λ kv, short kv.1 ∧ short kv.2) l →
  yields (readPairs (length l) hs) (foldl (λ m x, <[x.1 := x.2]> m) hs l) (concat (pairBytes <$> l)).
Proof.
  intros Hl. revert hs. induction Hl as [|[k v] l [Hk Hv] _ IH]; intros hs; simpl; [done|].
  assert (yields (k ← ReadLen16String; v ← ReadLen16String; readPairs (length l) (<[k := v]> hs))
    (foldl (λ m x, <[x.1 := x.2]> m) (<[k := v]> hs) l) (pairBytes (k, v) ++ concat (pairBytes <$> l))) as Hy.
  { unfold pairBytes at 1. rewrite <-app_assoc. eapply yields_bind; [by apply yields_ReadLen16String|].
    eapply yields_bind; [by apply yields_ReadLen16String|]. apply IH. }
  intros rest. rewrite noError. apply Hy.
Qed.

(** ** Headers *)
Definition headersFit (hs : headers) : Prop :=
  Z.of_nat (size hs) < 2 ^ 16 ∧ map_Forall (λ k v, short k ∧ short v) hs.

Definition headersBytes (c : choice) (hs : headers) : list Z :=
  putUint 2 (Z.of_nat (size hs)) ++ concat (pairBytes <$> arrange c (map_to_list hs)).

Lemma total_size l n : foldl (λ size kv, size + headerSize kv)%nat n l = (n + sum_list_with headerSize l)%nat.
Proof. revert n. induction l as [|kv l IH]; intros n; cbn [foldl sum_list_with]; [lia|]. rewrite IH. lia. Qed.

Lemma pairs_length l : length (concat (pairBytes <$> l)) = sum_list_with headerSize l.
Proof.
  induction l as [|kv l IH]; [done|]. rewrite fmap_cons. cbn [concat sum_list_with].
  by rewrite length_app, pairBytes_length, IH.
Qed.

Lemma headers_length c1 c2 hs :
  length (headersBytes c2 hs) = foldl (λ size kv, size + headerSize kv)%nat 2%nat (arrange c1 (map_to_list hs)).
Proof.
  unfold headersBytes. rewrite length_app, putUint_length, pairs_length, total_size. f_equal.
  by rewrite !arrange_perm.
Qed.

(** The buffer is always exactly as large as needed. *)
Lemma WriteHeaders_bytes c1 c2 hs : WriteHeaders c1 c2 hs = Some (inl (headersBytes c2 hs)).
Proof.
  unfold WriteHeaders. rewrite <-(headers_length c1 c2 hs). set (len := length (headersBytes c2 hs)).
  assert (appends (WriteUint16 (Z.of_nat (size hs));; for_each (arrange c2 (map_to_list hs)) writePair) (headersBytes c2 hs))
    as Hw by (apply appends_bind; [apply appends_WriteBytes|apply appends_for_each, appends_writePair]).
  specialize (Hw (NewWriteBufferWithSize len) eq_refl).
  destruct (wp_run _ _ _ (Hw ltac:(simpl; rewrite length_replicate; unfold len; lia))) as ([] & w & Hrun & [He Hp _ Hb]).
  rewrite Hrun. simpl. rewrite He, Hb, bool_decide_false; [done|]. intros Hbad. apply Hbad. exact Hp.
Qed.

(** The headers of a call survive the wire: WriteHeaders never fails, in
    whatever orders it ranges over the map, and when there are fewer than 65536
    headers with keys and values below 65536 bytes, ReadHeaders gives back the
    same headers without an error. *)
Lemma headers_roundtrip c1 c2 hs :
  ∃ bs, WriteHeaders c1 c2 hs = Some (inl bs) ∧
    (headersFit hs → ReadHeaders bs = Some (hs, false)).
Proof.
  exists (headersBytes c2 hs). split; [apply WriteHeaders_bytes|]. intros [Hn Hs].
  unfold ReadHeaders, headersBytes. destruct (decide (hs = ∅)) as [->|Hne]; [done|].
  destruct (arranged_map c2 hs) as [Hnd Hm].
  assert (yields (readPairs (size hs) ∅) hs (concat (pairBytes <$> arrange c2 (map_to_list hs)))) as Hy.
  { assert (hs = foldl (λ m x, <[x.1 := x.2]> m) ∅ (arrange c2 (map_to_list hs))) as Heq.
    { by rewrite foldl_insert_union, Hm, (right_id_L ∅ (∪)). }
    rewrite Heq at 2. replace (size hs) with (length (arrange c2 (map_to_list hs))) by (rewrite arrange_perm; apply length_map_to_list).
    apply yields_readPairs. rewrite arrange_perm. apply map_Forall_to_list in Hs. eapply Forall_impl; [exact Hs|]. by intros []. }
  assert (0 ≤ Z.of_nat (size hs) < 2 ^ 16) as Hr by (split; [lia|exact Hn]).
  unfold readHeaders, mbind, M_bind. rewrite <-(app_nil_r (concat _)). unfold NewReader. rewrite (yields_ReadUint16 _ Hr _).
  rewrite bool_decide_false, Nat2Z.id by (rewrite <-map_size_empty_iff in Hne; lia). by rewrite (Hy []).
Qed.

(** Only the low 16 bits of the number of headers are written: of 65536 of
    them, or a multiple of that, the reader finds none and no error. *)
Lemma headers_lost c1 c2 hs bs :
  Z.of_nat (size hs) mod 2 ^ 16 = 0 → WriteHeaders c1 c2 hs = Some (inl bs) → ReadHeaders bs = Some (∅, false).
Proof.
  intros Hn. rewrite WriteHeaders_bytes. intros [= <-]. unfold ReadHeaders, readHeaders, headersBytes, mbind, M_bind, NewReader.
  unfold ReadUint16. rewrite noError. unfold mbind, M_bind.
  pose proof (readFull_front (putUint 2 (Z.of_nat (size hs)))) as Hr. rewrite putUint_length in Hr.
  rewrite Hr, getUint_putUint. change (8 * Z.of_nat 2) with 16. by rewrite Hn.
Qed.
