(* ===== verification/Retry.v ===== *)
(** * Retry: the retry loop of TChannel (vendored retry.go, errors.go)

    A client runs its call until it succeeds, fails with an error that its
    options do not allow to retry, or has used up its attempts.  The options
    come with the context of the call.  The timeout per attempt is part of what
    an attempt does and shows here as the error of an attempt. *)
From S2P Require Import Prelude GoStd.
#[local] Open Scope Z_scope.

(** ** errors.go *)
Definition ErrCodeInvalid : Z := 0.
Definition ErrCodeTimeout : Z := 1.
Definition ErrCodeCancelled : Z := 2.
Definition ErrCodeBusy : Z := 3.
Definition ErrCodeDeclined : Z := 4.
Definition ErrCodeUnexpected : Z := 5.
Definition ErrCodeBadRequest : Z := 6.
Definition ErrCodeNetwork : Z := 7.
Definition ErrCodeProtocol : Z := 255.

(** ** retry.go *)

(** RetryOn is an integer. *)
Definition RetryDefault : Z := 0.
Definition RetryConnectionError : Z := 1.
Definition RetryNever : Z := 2.
Definition RetryNonIdempotent : Z := 3.
Definition RetryUnexpected : Z := 4.
Definition RetryIdempotent : Z := 5.

Record RetryOptions : Type := mkRetryOptions {
  MaxAttempts : Z;
  RetryOn : Z;
  TimeoutPerAttempt : Z
}.

Definition defaultRetryOptions : RetryOptions := mkRetryOptions 5 RetryDefault 0.

Definition getRetryOptions (opts : option RetryOptions) : RetryOptions :=
  match opts with
  | None => defaultRetryOptions
  | Some o =>
      if bool_decide (MaxAttempts o = 0) then mkRetryOptions (MaxAttempts defaultRetryOptions) (RetryOn o) (TimeoutPerAttempt o) else o
  end.

(** CanRetry, on the code that getErrCode finds. *)
Definition CanRetry (r code : Z) : bool :=
  if bool_decide (r = RetryNever) then false
  else
    let r := if bool_decide (r = RetryDefault) then RetryConnectionError else r in
    if bool_decide (code = ErrCodeBusy) || bool_decide (code = ErrCodeDeclined) then true
    else if bool_decide (code = ErrCodeBadRequest) then false
    else if bool_decide (r = RetryConnectionError) then bool_decide (code = ErrCodeNetwork)
    else if bool_decide (r = RetryUnexpected) then bool_decide (code = ErrCodeUnexpected)
    else bool_decide (r = RetryIdempotent).

Section loop.
Context {S R Err : Type} (getErrCode : Err → Z).

(** RunWithRetry: [f] gets the number of the attempt and the response that the
    attempts before it more, which they share. *)
Fixpoint attempts (on : Z) (f : nat → R → M S (R * option Err)) (more i : nat) (resp : R) (err : option Err)
    : M S (R * option Err) :=
  match more with
  | O => mret (resp, err)
  | Datatypes.S more =>
      '(resp, err) ← f i resp;
      match err with
      | None => mret (resp, None)
      | Some e =>
          if negb (CanRetry on (getErrCode e)) then mret (resp, Some e)
          else attempts on f more (Datatypes.S i) resp (Some e)
      end
  end.

Definition attemptsAllowed (opts : option RetryOptions) : nat := Z.to_nat (MaxAttempts (getRetryOptions opts)).

Definition RunWithRetry (opts : option RetryOptions) (f : nat → R → M S (R * option Err)) (resp : R)
    : M S (R * option Err) :=
  attempts (RetryOn (getRetryOptions opts)) f (attemptsAllowed opts) 0 resp None.
End loop.

(** By default busy, declined and broken connections are retried, up to five
    attempts in all. *)
Example default_retries :
  attemptsAllowed None = 5%nat ∧ attemptsAllowed (Some (mkRetryOptions 0 RetryNever 0)) = 5%nat ∧
  filter (λ c, CanRetry RetryDefault c = true) [1; 2; 3; 4; 5; 6; 7; 255] = [3; 4; 7] ∧
  filter (λ c, CanRetry RetryNonIdempotent c = true) [1; 2; 3; 4; 5; 6; 7; 255] = [3; 4] ∧
  filter (λ c, CanRetry RetryIdempotent c = true) [1; 2; 3; 4; 5; 6; 7; 255] = [1; 2; 3; 4; 5; 7; 255] ∧
  filter (λ c, CanRetry RetryNever c = true) [1; 2; 3; 4; 5; 6; 7; 255] = [].
Proof. by vm_compute. Qed.
