(* ===== verification/Service.v ===== *)
(** * Service: a Thrift call from one process to another

    The client and the server that thrift-gen generates for the example
    (tchan-pingpong.go) over the client and the server of the vendored
    TChannel (thrift/client.go, thrift/server.go, thrift/struct.go).  A call
    carries its headers and its arguments as two sequences of bytes; TChannel
    transports them, or fails, and the client retries as the options of the
    call say ([Retry]).  The handler behind the server is an argument, in a
    state of its own; it is taken to set no response headers. *)
From S2P Require Import Prelude GoStd Bytes Thrift ThriftSpec Typed Retry.
#[local] Open Scope Z_scope.

Section service.
Context {S E : Type}.

(** The orders in which WriteHeaders ranges over a map. *)
Variable order : headers → choice * choice.

(** What Go code can ask about an error of the implementation, the key function or
    the ring: the code it carries if it is a SystemError of TChannel. *)
Variable systemCode : E → option Z.

(** What can go wrong in the channel: a net.Error, or a SystemError of TChannel's
    own (a timeout, a closed channel, ...). *)
Inductive channelError : Type := NetError | ChannelError (code : Z).

(** The errors of a call: that of the implementation, the key function or the
    ring; one of the channel; headers or structs that cannot be read; a method
    that is not known; and an error that came back from the peer, with the code
    that it was sent with. *)
Inductive callError : Type :=
| ImplError (e : E)
| KeyError (e : E)
| RingError (e : E)
| TransportError (e : channelError)
| BadHeaders
| BadStruct (e : terror)
| NotFound (method : string)
| SystemError (code : Z) (e : callError).

(** Whether the error of a server is a TProtocolException. *)
Variable isProtocolException : callError → bool.
(** Whether an error of the implementation, the key function or the ring is a
    net.Error. *)
Variable isNetError : E → bool.

Definition GetSystemErrorCode (err : callError) : Z :=
  match err with
  | ImplError e | KeyError e | RingError e => default ErrCodeUnexpected (systemCode e)
  | TransportError (ChannelError code) | SystemError code _ => code
  | TransportError NetError | BadHeaders | BadStruct _ | NotFound _ => ErrCodeUnexpected
  end.

Definition getErrCode (err : callError) : Z :=
  match err with
  | TransportError NetError => ErrCodeNetwork
  | ImplError e | KeyError e | RingError e => if isNetError e then ErrCodeNetwork else GetSystemErrorCode err
  | _ => GetSystemErrorCode err
  end.

Definition lift {A} (o : option A) : M S A := λ s, a ← o; Some (a, s).

(** ** struct.go *)
Definition WriteStruct {A} `{!TStruct A} (s : A) : option (list Z) :=
  '(_, w) ← writeTo s (mkWriter [] []); Some (tw_buffered w).

Definition ReadStruct {A} `{!TStruct A} (b : list Z) (s : A) : option (A * option terror) := fst <$> readFrom s b.

(** ** client.go *)
Record callArgs : Type := mkCallArgs { arg2 : list Z; arg3 : list Z }.

Definition writeArgs {A} `{!TStruct A} (hs : headers) (req : A) : option (callArgs + headersError) :=
  h ← WriteHeaders (order hs).1 (order hs).2 hs;
  match h with
  | inr err => Some (inr err)
  | inl a2 => a3 ← WriteStruct req; Some (inl (mkCallArgs a2 a3))
  end.

(** What comes back: a response, a system error with its code, or an error of the
    channel, such as a timeout when there is no answer. *)
Inductive reply : Type := Response (args : callArgs) | Failed (code : Z) (e : callError) | Broken (e : channelError).

(** The response struct is the caller's, who keeps what was read into it. *)
Definition readResponse {A} `{!TStruct A} (r : reply) (resp : A) : option (A * option callError) :=
  match r with
  | Broken e => Some (resp, Some (TransportError e))
  | Failed code e => Some (resp, Some (SystemError code e))
  | Response args =>
      '(_, bad) ← ReadHeaders (arg2 args);
      if (bad : bool) then Some (resp, Some BadHeaders)
      else
        '(resp, e) ← ReadStruct (arg3 args) resp;
        Some (resp, match e with Some e => Some (BadStruct e) | None => None end)
  end.

(** startCall of the channel: for an attempt at an operation, a call to write the
    arguments to, or an error. *)
Abbreviation startCall := (nat → string → M S ((callArgs → M S reply) + channelError)).

(** The retry options of the caller's context. *)
Variable retry : option RetryOptions.

(** The function that Call runs with retries. *)
Definition callOnce {A B} `{!TStruct A, !TStruct B} (start : startCall) (op : string) (hs : headers) (req : A)
    (i : nat) (resp : B) : M S (B * option callError) :=
  c ← start i op;
  match c with
  | inr e => mret (resp, Some (TransportError e))
  | inl call =>
      args ← lift (writeArgs hs req);
      match args with
      | inr _ => mret (resp, Some BadHeaders)
      | inl args => r ← call args; lift (readResponse r resp)
      end
  end.

Definition Call {A B} `{!TStruct A, !TStruct B} (start : startCall) (thriftService methodName : string)
    (hs : headers) (req : A) (resp : B) : M S (B * option callError) :=
  RunWithRetry getErrCode retry (callOnce start (thriftService +:+ "::" +:+ methodName) hs req) resp.

(** ** tchan-pingpong.go

    The client returns what it read along with an error, which stands for both
    here. *)
Abbreviation endpoint := (headers → option Ping → M S (option Pong + callError)).

Definition clientPing (start : startCall) : endpoint := λ ctx request,
  '(resp, err) ← Call start "PingPong" "Ping" ctx (mkArgs request) (mkResult None);
  mret (match err with None => inl (GetSuccess resp) | Some e => inr e end).

Definition serverPing (handler : endpoint) (ctx : headers) (protocol : list Z) : M S (PingPongPingResult + callError) :=
  '(req, e) ← lift (ReadStruct protocol (mkArgs None));
  match e with
  | Some e => mret (inr (BadStruct e))
  | None =>
      r ← handler ctx (Request req);
      mret (match r with inl r => inl (mkResult r) | inr err => inr err end)
  end.

Definition dispatch (handler : endpoint) (ctx : headers) (methodName : string) (protocol : list Z)
    : M S (PingPongPingResult + callError) :=
  if bool_decide (methodName = "Ping") then serverPing handler ctx protocol else mret (inr (NotFound methodName)).

(** ** server.go

    An error of the handler goes back as a system error with its code; a call
    whose headers cannot be read is not answered, so that the caller times out. *)
Definition handle (handler : endpoint) (method : string) (call : callArgs) : M S reply :=
  '(hs, bad) ← lift (ReadHeaders (arg2 call));
  if (bad : bool) then mret (Broken (ChannelError ErrCodeTimeout))
  else
    r ← dispatch handler hs method (arg3 call);
    match r with
    | inr err => mret (Failed (if isProtocolException err then ErrCodeBadRequest else GetSystemErrorCode err) err)
    | inl resp =>
        args ← lift (writeArgs ∅ resp);
        mret (match args with inl args => Response args | inr _ => Broken (ChannelError ErrCodeTimeout) end)
    end.

Definition getServiceMethod (method : string) : option (string * string) :=
  sep ← String.index 0 "::" method;
  Some (String.substring 0 sep method, String.substring (sep + 2) (String.length method - (sep + 2)) method).

(** Handle; log.Fatalf ends the program when the operation is not understood or
    its service is not registered. *)
Definition Handle (handlers : gmap string endpoint) (op : string) (call : callArgs) : M S reply :=
  match getServiceMethod op with
  | None => panic
  | Some (service, method) =>
      match handlers !! service with None => panic | Some handler => handle handler method call end
  end.

(** A server with the service of the example registered. *)
Definition serving (handler : endpoint) : gmap string endpoint := {["PingPong" := handler]}.

(** ** The network between them

    What goes wrong with an attempt: the call cannot be started, the request is
    lost on the way, or the answer is. *)
Inductive fault : Type := NotStarted (e : channelError) | NotSent (e : channelError) | NotAnswered (e : channelError).

Definition overNetwork (faults : nat → option fault) (server : string → callArgs → M S reply) : startCall := λ i op,
  mret (match faults i with
        | Some (NotStarted e) => inr e
        | Some (NotSent e) => inl (λ _, mret (Broken e))
        | Some (NotAnswered e) => inl (λ args, server op args;; mret (Broken e))
        | None => inl (server op)
        end).

(** ** A call is the handler's, at a distance *)

(** Run the steps whose results are known. *)
Ltac run := cbv beta match delta [lift mbind M_bind option_bind mret M_ret].

Lemma emits_WriteStruct {A} `{!TStruct A} (a : A) bs : emits (writeTo a) bs → WriteStruct a = Some bs.
Proof. intros He. unfold WriteStruct. by rewrite He. Qed.

Lemma parses_ReadStruct {A} `{!TStruct A} (a a0 : A) bs :
  parses (readFrom a0) a bs → ReadStruct bs a0 = Some (a, None).
Proof. apply DeserializeThrift_parses. Qed.

(** What the caller sees of the handler's answer. *)
Definition answerOf (r : option Pong + callError) : option Pong + callError :=
  match r with
  | inl o => inl o
  | inr e => inr (SystemError (if isProtocolException e then ErrCodeBadRequest else GetSystemErrorCode e) e)
  end.

Definition smallAnswer (r : option Pong + callError) : Prop :=
  match r with inl (Some pong) => Z.of_nat (String.length (Source pong)) < 2 ^ 31 | _ => True end.

Lemma headersFit_empty : headersFit ∅.
Proof. split; [done|apply map_Forall_empty]. Qed.

Lemma writeArgs_parts {A} `{!TStruct A} hs (req : A) bs :
  headersFit hs → emits (writeTo req) bs →
  ∃ a2, writeArgs hs req = Some (inl (mkCallArgs a2 bs)) ∧ ReadHeaders a2 = Some (hs, false).
Proof.
  intros Hf He. destruct (headers_roundtrip (order hs).1 (order hs).2 hs) as (a2 & Hw & Hr).
  exists a2. split; [|by apply Hr]. unfold writeArgs. rewrite Hw. simpl. by rewrite (emits_WriteStruct _ _ He).
Qed.

(** An attempt, without the wire. *)
Definition attempted (f : option fault) (handler : endpoint) : endpoint := λ ctx request,
  match f with
  | Some (NotStarted e) | Some (NotSent e) => mret (inr (TransportError e))
  | Some (NotAnswered e) => handler ctx request;; mret (inr (TransportError e))
  | None => r ← handler ctx request; mret (answerOf r)
  end.

(** Whether the caller's options let it try again after this. *)
Definition retriable (r : option Pong + callError) : bool :=
  match r with inl _ => false | inr e => CanRetry (RetryOn (getRetryOptions retry)) (getErrCode e) end.

(** Attempts from the [i]th on, [more] at most; [last] is what came of the last one. *)
Fixpoint retried (faults : nat → option fault) (handler : endpoint) (more i : nat) (last : option Pong + callError) : endpoint :=
  λ ctx request,
  match more with
  | O => mret last
  | Datatypes.S more =>
      r ← attempted (faults i) handler ctx request;
      if retriable r then retried faults handler more (Datatypes.S i) r ctx request else mret r
  end.

Lemma readResponse_result r o hs bs :
  r = mkResult (mkPong <$> o) → match o with Some s => Z.of_nat (String.length s) < 2 ^ 31 | None => True end →
  ReadHeaders bs = Some (hs, false) →
  readResponse (Response (mkCallArgs bs (resultBytes o))) (mkResult None) = Some (r, None).
Proof.
  intros -> Ho Hh. simpl. rewrite Hh. simpl. rewrite (parses_ReadStruct (mkResult (mkPong <$> o))); [done|].
  apply Result_parses. by destruct o.
Qed.

(** What the server makes of a request. *)
Lemma server_steps (handler : endpoint) ctx request a2 bs st :
  ReadHeaders a2 = Some (ctx, false) → parses (readFrom (mkArgs None)) (mkArgs (Some request)) bs →
  Handle (serving handler) ("PingPong" +:+ "::" +:+ "Ping") (mkCallArgs a2 bs) st =
    match handler ctx (Some request) st with
    | None => None
    | Some (inr e, st') => Some (Failed (if isProtocolException e then ErrCodeBadRequest else GetSystemErrorCode e) e, st')
    | Some (inl o, st') => match writeArgs ∅ (mkResult o) with
                           | Some (inl args) => Some (Response args, st')
                           | Some (inr _) => Some (Broken (ChannelError ErrCodeTimeout), st')
                           | None => None
                           end
    end.
Proof.
  intros Hh Hp. unfold Handle. change (getServiceMethod _) with (Some ("PingPong", "Ping")). run. unfold serving.
  rewrite lookup_singleton_eq. unfold handle. run. cbn [arg2 arg3]. rewrite Hh. run. unfold dispatch.
  rewrite bool_decide_true by done. unfold serverPing. run. rewrite (parses_ReadStruct (mkArgs (Some request))) by done.
  run. cbn [Request]. destruct (handler ctx (Some request) st) as [[[o|e] st']|]; run; [|done|done].
  by destruct (writeArgs ∅ (mkResult o)) as [[]|].
Qed.

Section remote.
Context (handler : endpoint) (ctx : headers) (request : Ping) (faults : nat → option fault).
Context (Hfit : headersFit ctx) (Hkey : Z.of_nat (String.length (Key request)) < 2 ^ 31).
Context (Hsmall : ∀ st r st', handler ctx (Some request) st = Some (r, st') → smallAnswer r).

(** An attempt over the wire is one without it. *)
Lemma callOnce_attempted i st :
  callOnce (overNetwork faults (Handle (serving handler))) ("PingPong" +:+ "::" +:+ "Ping") ctx (mkArgs (Some request)) i
      (mkResult None) st =
    match attempted (faults i) handler ctx (Some request) st with
    | None => None
    | Some (inl o, st') => Some ((mkResult o, None), st')
    | Some (inr e, st') => Some ((mkResult None, Some e), st')
    end.
Proof using Hfit Hkey Hsmall.
  destruct request as [key]. simpl in Hkey.
  destruct (writeArgs_parts ctx (mkArgs (Some (mkPing key))) _ Hfit (Args_emits key)) as (a2 & Hw & Hh).
  pose proof (server_steps handler ctx (mkPing key) a2 _ st Hh (Args_parses key (mkArgs None) Hkey)) as Hserver.
  unfold callOnce, overNetwork, attempted. destruct (faults i) as [[e|e|e]|]; run; [done| | |].
  - rewrite Hw. by run.
  - rewrite Hw. run. rewrite Hserver. destruct (handler ctx (Some (mkPing key)) st) as [[[o|e'] st']|]; run; [|done|done].
    destruct (writeArgs_parts ∅ (mkResult o) (resultBytes (Source <$> o)) headersFit_empty) as (a2' & Hw' & _).
    { assert (o = mkPong <$> (Source <$> o)) as Ho by (by destruct o as [[]|]). rewrite Ho at 1. apply Result_emits. }
    by rewrite Hw'.
  - rewrite Hw. run. rewrite Hserver. destruct (handler ctx (Some (mkPing key)) st) as [[[o|e'] st']|] eqn:Hrun; run; [|done|done].
    specialize (Hsmall _ _ _ Hrun). assert (o = mkPong <$> (Source <$> o)) as Ho by (by destruct o as [[]|]).
    destruct (writeArgs_parts ∅ (mkResult o) (resultBytes (Source <$> o)) headersFit_empty) as (a2' & Hw' & Hh').
    { rewrite Ho at 1. apply Result_emits. }
    rewrite Hw'. run. by rewrite (readResponse_result (mkResult o) _ ∅); [|by rewrite <-Ho|by destruct o as [[]|]|].
Qed.

Lemma attempts_retried more i err st :
  match attempts getErrCode (RetryOn (getRetryOptions retry))
      (callOnce (overNetwork faults (Handle (serving handler))) ("PingPong" +:+ "::" +:+ "Ping") ctx (mkArgs (Some request)))
      more i (mkResult None) err st with
  | None => None
  | Some ((resp, err), st') => Some (match err with None => inl (GetSuccess resp) | Some e => inr e end, st')
  end = retried faults handler more i (match err with None => inl None | Some e => inr e end) ctx (Some request) st.
Proof using Hfit Hkey Hsmall.
  revert i err st. induction more as [|more IH]; intros i err st; [by destruct err|]. cbn [attempts retried].
  unfold mbind, M_bind. rewrite callOnce_attempted.
  destruct (attempted (faults i) handler ctx (Some request) st) as [[[o|e] st']|]; [done| |done].
  unfold retriable. destruct (CanRetry _ (getErrCode e)); [|done]. apply (IH _ (Some e)).
Qed.

Lemma remote_call_steps st :
  clientPing (overNetwork faults (Handle (serving handler))) ctx (Some request) st =
    retried faults handler (attemptsAllowed retry) 0 (inl None) ctx (Some request) st.
Proof using Hfit Hkey Hsmall.
  rewrite <-(attempts_retried _ 0 None). unfold clientPing, Call, RunWithRetry, mbind, M_bind.
  destruct (attempts _ _ _ _ _ _ _ st) as [[[resp err] st']|]; done.
Qed.
End remote.

(** A first attempt that ends the call. *)
Lemma retried_once faults handler more last ctx request st r st' :
  (0 < more)%nat → faults 0%nat = None → handler ctx request st = Some (r, st') → retriable (answerOf r) = false →
  retried faults handler more 0 last ctx request st = Some (answerOf r, st').
Proof.
  intros Hl Hf Hr Hn. destruct more as [|more]; [lia|]. cbn [retried]. rewrite Hf. unfold attempted, mbind, M_bind.
  rewrite Hr. run. by rewrite Hn.
Qed.

(** C31: a call over the wire is calls of the handler: whatever the handler, its
    state, the retry options of the caller and the faults of the network, the
    client's Ping through the server does what the attempts do without the wire:
    an attempt whose request arrives runs the handler once, with the headers and
    the request that the caller passed, and yields the handler's answer, or its
    error as a system error, unless the answer is lost; errors that the options
    allow are retried, up to the number of attempts, and the last result is
    returned.  So when attempts are allowed, the first meets no fault and the
    answer is not an error to retry, the handler runs exactly once and the
    caller gets its answer.  The headers have to fit their format and the
    strings to be below 2^31 bytes. *)
Theorem remote_call_retries_handler (handler : endpoint) ctx request faults st :
  headersFit ctx → Z.of_nat (String.length (Key request)) < 2 ^ 31 →
  (∀ st r st', handler ctx (Some request) st = Some (r, st') → smallAnswer r) →
  let call := clientPing (overNetwork faults (Handle (serving handler))) ctx (Some request) st in
  call = retried faults handler (attemptsAllowed retry) 0 (inl None) ctx (Some request) st ∧
  ∀ r st', handler ctx (Some request) st = Some (r, st') →
    (0 < attemptsAllowed retry)%nat → faults 0%nat = None → retriable (answerOf r) = false →
    call = Some (answerOf r, st').
Proof.
  intros Hf Hk Hs call. unfold call. rewrite remote_call_steps by done. split; [done|]. intros r st' Hr Hl H0 Hn.
  by eapply retried_once.
Qed.
End service.

(** A handler that counts its calls and returns the caller's header; it is busy at
    its first call. *)
Definition counting (ctx : headers) (request : option Ping) : M nat (option Pong + callError (E := string)) :=
  k ← get;
  modify S;;
  mret (if bool_decide (k = 0%nat) then inr (ImplError "busy")
        else match ctx !! "user" with Some u => inl (Some (mkPong u)) | None => inr (ImplError "anonymous") end).

Definition insertionOrder (_ : headers) : choice * choice := ([1%nat], [0%nat]).
Definition busyCode (e : string) : option Z := if bool_decide (e = "busy") then Some ErrCodeBusy else None.

(** The caller over a network that behaves as [faults] says. *)
Definition countedCall (faults : nat → option fault) (ctx : headers) : M nat (option Pong + callError (E := string)) :=
  clientPing insertionOrder busyCode (λ _, false) None
    (overNetwork faults (Handle insertionOrder busyCode (λ _, false) (serving counting))) ctx (Some (mkPing "key")).

Lemma remote_call_retries_handler_witness :
  countedCall (λ _, None) {["user" := "me"]} 4%nat =
    retried busyCode (λ _, false) (λ _, false) None (λ _, None) counting 5 0 (inl None) {["user" := "me"]} (Some (mkPing "key")) 4%nat ∧
  ∀ r st', counting {["user" := "me"]} (Some (mkPing "key")) 4%nat = Some (r, st') →
    (0 < 5)%nat → (None : option fault) = None →
    retriable busyCode (λ _, false) None (answerOf busyCode (λ _, false) r) = false →
    countedCall (λ _, None) {["user" := "me"]} 4%nat = Some (answerOf busyCode (λ _, false) r, st').
Proof.
  refine (remote_call_retries_handler insertionOrder busyCode (λ _, false) (λ _, false) None counting
    {["user" := "me"]} (mkPing "key") (λ _, None) 4%nat _ _ _).
  - split; [vm_compute; reflexivity|]. apply map_Forall_singleton. split; vm_compute; reflexivity.
  - vm_compute. reflexivity.
  - intros st r st' Hr. unfold counting, get, modify, mbind, M_bind, mret, M_ret in Hr. injection Hr as <- <-.
    case_bool_decide; vm_compute; reflexivity.
Defined.

(** The answer of a handler that is not busy comes from one call; a busy handler is
    called again, one whose connection breaks up to five times, although it has
    answered each time; its other errors come back at once. *)
Example handler_calls :
  countedCall (λ _, None) {["user" := "me"]} 4%nat = Some (inl (Some (mkPong "me")), 5%nat) ∧
  countedCall (λ _, None) {["user" := "me"]} 0%nat = Some (inl (Some (mkPong "me")), 2%nat) ∧
  countedCall (λ _, Some (NotAnswered NetError)) {["user" := "me"]} 4%nat = Some (inr (TransportError NetError), 9%nat) ∧
  countedCall (λ _, None) ∅ 4%nat = Some (inr (SystemError ErrCodeUnexpected (ImplError "anonymous")), 5%nat).
Proof. by vm_compute. Qed.
