(* ===== verification/TreeIface.v ===== *)
(** * TreeIface: what the hash ring needs from its tree

    [hashring.go] uses the red-black tree through four methods.  The class
    [RingTree] names them, [RingTreeLaws] states what they promise in terms of
    a finite map from hash values to server names; the ring's theorems are
    proved against these laws and [RBMap] discharges them for the red-black
    tree. *)
From S2P Require Import Prelude.
#[local] Open Scope Z_scope.

(** One position on the ring: a hash value and the server that owns it. *)
Abbreviation point := (Z * string)%type.
Definition plt (x y : point) : Prop := x.1 < y.1.
Definition ple (x y : point) : Prop := x.1 ≤ y.1.

(** Hash values are unsigned 32-bit integers. *)
Definition hash32 (v : Z) : Prop := 0 ≤ v < 2^32.

#[global] Instance ple_dec x y : Decision (ple x y) := decide (x.1 ≤ y.1).
#[global] Instance ple_total : Total ple.
Proof. intros x y. unfold ple. lia. Qed.
#[global] Instance ple_trans : Transitive ple.
Proof. intros x y z. unfold ple. lia. Qed.

(** The points of a map in clockwise order. *)
Definition clockwise (m : gmap Z string) : list point := merge_sort ple (map_to_list m).

(** Collect server names in order until the set holds [n] of them. *)
Fixpoint addUnique (n : Z) (l : list string) (result : gset string) : gset string :=
  match l with
  | [] => result
  | s :: l => if bool_decide (n ≤ Z.of_nat (size result)) then result
              else addUnique n l ({[s]} ∪ result)
  end.

(** The servers met from hash value [v] to the end of the ring. *)
Definition from (v : Z) (m : gmap Z string) : list string :=
  (filter (λ x : point, v ≤ x.1) (clockwise m)).*2.

Class RingTree (T : Type) : Type := {
  tree_new : T;
  tree_insert : Z → string → M T bool;
  tree_delete : Z → M T bool;
  tree_lookup : Z → Z → gset string → M T (gset string)
}.

Class RingTreeLaws (T : Type) `{RingTree T} : Type := {
  tree_repr : T → gmap Z string → Prop;
  tree_new_ok : tree_repr tree_new ∅;
  tree_insert_ok : ∀ t m v s, tree_repr t m → hash32 v →
    wp (tree_insert v s)
      (λ r t', r = bool_decide (m !! v = None) ∧
         tree_repr t' (if r then <[v := s]> m else m)) t;
  tree_delete_ok : ∀ t m v, tree_repr t m → hash32 v →
    wp (tree_delete v)
      (λ r t', r = bool_decide (is_Some (m !! v)) ∧ tree_repr t' (delete v m)) t;
  tree_lookup_ok : ∀ t m n v res, tree_repr t m →
    wp (tree_lookup n v res) (λ r t', t' = t ∧ r = addUnique n (from v m) res) t
}.

(** ** The clockwise order is the only sorted listing of a map *)
Lemma plt_nodup l : StronglySorted plt l → NoDup l.*1.
Proof.
  induction 1 as [|x l Hs IH Hx]; simpl; constructor; [|done].
  intros (y & Hy & Hin)%list_elem_of_fmap. rewrite Forall_forall in Hx.
  specialize (Hx y Hin). unfold plt in Hx. lia.
Qed.

Lemma ple_strict l : StronglySorted ple l → NoDup l.*1 → StronglySorted plt l.
Proof.
  induction 1 as [|x l Hs IH Hx]; simpl; intros Hnd; constructor.
  - apply IH. by apply NoDup_cons in Hnd as [_ ?].
  - apply NoDup_cons in Hnd as [Hnot _]. rewrite Forall_forall in *. intros y Hy.
    specialize (Hx y Hy). unfold ple, plt in *.
    destruct (decide (x.1 = y.1)) as [Heq|]; [|lia].
    exfalso. apply Hnot. rewrite Heq. by apply list_elem_of_fmap_2.
Qed.

Lemma clockwise_perm m : clockwise m ≡ₚ map_to_list m.
Proof. apply merge_sort_Permutation. Qed.

Lemma clockwise_sorted m : StronglySorted plt (clockwise m).
Proof.
  apply ple_strict; [apply StronglySorted_merge_sort; apply _|].
  rewrite clockwise_perm. apply NoDup_fst_map_to_list.
Qed.

Lemma elem_of_clockwise m v s : (v, s) ∈ clockwise m ↔ m !! v = Some s.
Proof. rewrite clockwise_perm. apply elem_of_map_to_list. Qed.

#[global] Instance plt_antisym : AntiSymm (=) plt.
Proof. intros x y. unfold plt. lia. Qed.
#[global] Instance plt_trans : Transitive plt.
Proof. intros x y z. unfold plt. lia. Qed.

Lemma clockwise_unique l m :
  StronglySorted plt l → list_to_map l = m → l = clockwise m.
Proof.
  intros Hs <-. apply (StronglySorted_unique plt); [done|apply clockwise_sorted|].
  rewrite clockwise_perm. symmetry. apply map_to_list_to_map. by apply plt_nodup.
Qed.

(** ** [addUnique] *)
Lemma addUnique_full n l res : n ≤ Z.of_nat (size res) → addUnique n l res = res.
Proof. destruct l; simpl; [done|]. intros. by rewrite bool_decide_true. Qed.

Lemma addUnique_app n l1 l2 res :
  addUnique n (l1 ++ l2) res = addUnique n l2 (addUnique n l1 res).
Proof.
  revert res. induction l1 as [|s l1 IH]; intros res; simpl; [done|].
  case_bool_decide; [|apply IH]. by rewrite addUnique_full.
Qed.

Lemma addUnique_sub n l res : addUnique n l res ⊆ res ∪ list_to_set l.
Proof.
  revert res. induction l as [|s l IH]; intros res; simpl; [set_solver|].
  case_bool_decide; [set_solver|]. etrans; [apply IH|]. set_solver.
Qed.

(** It never overshoots, and it takes everything when there is room. *)
Lemma addUnique_size n l res :
  Z.of_nat (size res) ≤ n → Z.of_nat (size (addUnique n l res)) ≤ n.
Proof.
  revert res. induction l as [|s l IH]; intros res Hn; simpl; [done|].
  case_bool_decide; [done|]. apply IH.
  pose proof (size_union_alt {[s]} res) as Hs. rewrite size_singleton in Hs.
  pose proof (subseteq_size (res ∖ {[s]}) res). rewrite Hs. set_solver by lia.
Qed.

Lemma addUnique_all n l res :
  Z.of_nat (size (addUnique n l res)) < n → addUnique n l res = res ∪ list_to_set l.
Proof.
  revert res. induction l as [|s l IH]; intros res; simpl; [set_solver|].
  case_bool_decide; [lia|]. intros Hlt. rewrite IH by done. set_solver.
Qed.
