(* ===== verification/RBTree.v ===== *)
(** * RBTree: the red-black tree of hashring/rbtree.go

    The Go code walks the tree with raw node pointers and rewrites child links
    and colours in place.  The model keeps that shape: nodes live in a store
    indexed by location, a [nil] pointer is [None], following a [nil] pointer
    panics, and every assignment of the source is one store update.  Loops
    carry fuel; [RBInsert] and [RBDelete] prove that the fuel chosen here is
    always enough. *)
From S2P Require Import Prelude GoStd.
#[local] Open Scope Z_scope.

Definition loc : Type := positive.
Definition ptr : Type := option loc.

(** redBlackNode *)
Record redBlackNode : Type := mkNode {
  val : Z;
  str : string;
  left : ptr;
  right : ptr;
  red : bool
}.

(** redBlackTree *)
Record redBlackTree : Type := mkTree {
  root : ptr;
  size : Z
}.

(** The memory the methods of one tree work on. *)
Record rbheap : Type := mkHeap {
  nodes : gmap loc redBlackNode;
  tree : redBlackTree
}.

Abbreviation RB := (M rbheap).

(** ** Memory accesses *)
Definition load (p : ptr) : RB redBlackNode := λ h,
  match p with
  | Some l => match nodes h !! l with Some n => Some (n, h) | None => None end
  | None => None
  end.

Definition update (p : ptr) (f : redBlackNode → redBlackNode) : RB unit := λ h,
  match p with
  | Some l =>
      match nodes h !! l with
      | Some n => Some (tt, mkHeap (<[l := f n]> (nodes h)) (tree h))
      | None => None
      end
  | None => None
  end.

Definition alloc (n : redBlackNode) : RB ptr := λ h,
  let l := fresh (dom (nodes h)) in
  Some (Some l, mkHeap (<[l := n]> (nodes h)) (tree h)).

Definition getRoot : RB ptr := gets (λ h, root (tree h)).
Definition setRoot (p : ptr) : RB unit :=
  modify (λ h, mkHeap (nodes h) (mkTree p (size (tree h)))).
Definition addSize (d : Z) : RB unit :=
  modify (λ h, mkHeap (nodes h) (mkTree (root (tree h)) (int64 (size (tree h) + d)))).

Definition setRed (p : ptr) (c : bool) : RB unit :=
  update p (λ n, mkNode (val n) (str n) (left n) (right n) c).
Definition setItem (p : ptr) (v : Z) (s : string) : RB unit :=
  update p (λ n, mkNode v s (left n) (right n) (red n)).

(** ** The methods of a node *)

(** Size *)
Definition Size : RB Z := gets (λ h, size (tree h)).

(** Child returns the left or right node. *)
Definition child_of (n : redBlackNode) (d : bool) : ptr := if d then right n else left n.
Definition Child (p : ptr) (d : bool) : RB ptr :=
  n ← load p; mret (child_of n d).

Definition setChild (p : ptr) (d : bool) (q : ptr) : RB unit :=
  update p (λ n, if d then mkNode (val n) (str n) (left n) q (red n)
                 else mkNode (val n) (str n) q (right n) (red n)).

(** [node != nil && node.red] *)
Definition isRed (p : ptr) : RB bool :=
  match p with
  | None => mret false
  | Some _ => n ← load p; mret (red n)
  end.

Definition singleRotate (oldroot : ptr) (dir : bool) : RB ptr :=
  newroot ← Child oldroot (negb dir);
  c ← Child newroot dir;
  setChild oldroot (negb dir) c;;
  setChild newroot dir oldroot;;
  setRed oldroot true;;
  setRed newroot false;;
  mret newroot.

Definition doubleRotate (rt : ptr) (dir : bool) : RB ptr :=
  c ← Child rt (negb dir);
  c' ← singleRotate c (negb dir);
  setChild rt (negb dir) c';;
  singleRotate rt dir.

(** [isRed(node.left) && isRed(node.right)], with Go's short circuit. *)
Definition bothRed (p : ptr) : RB bool :=
  n ← load p;
  l ← isRed (left n);
  if (l : bool) then isRed (right n) else mret false.

(** ** Insert *)

(** The first half of the loop body: make the new node, or flip colours.
    Returns the node the iteration continues with and the value of [ret]. *)
Definition insertVisit (v : Z) (s : string) (dir : bool) (parent node : ptr) (ret : bool)
    : RB (ptr * bool) :=
  match node with
  | None =>
      nd ← alloc (mkNode v s None None true);
      setChild parent dir nd;;
      mret (nd, true)
  | Some _ =>
      b ← bothRed node;
      (if (b : bool) then
         setRed node true;;
         n ← load node;
         setRed (left n) false;;
         setRed (right n) false
       else mret tt);;
      mret (node, ret)
  end.

(** The second half: repair a red node under a red parent. *)
Definition insertFix (last : bool) (parent gparent ggparent node : ptr) : RB unit :=
  rn ← isRed node;
  rp ← (if (rn : bool) then isRed parent else mret false);
  if (rp : bool) then
    gg ← load ggparent;
    let dir2 := bool_decide (right gg = gparent) in
    c ← Child parent last;
    t ← (if bool_decide (node = c) then singleRotate gparent (negb last)
         else doubleRotate gparent (negb last));
    setChild ggparent dir2 t
  else mret tt.

(** [if gparent != nil { ggparent = gparent }] *)
Definition keepNonNil (gparent ggparent : ptr) : ptr :=
  match gparent with Some _ => gparent | None => ggparent end.

Fixpoint insertLoop (fuel : nat) (v : Z) (s : string) (dir last : bool)
    (parent gparent ggparent node : ptr) (ret : bool) : RB bool :=
  match fuel with
  | O => panic
  | S fuel =>
      '(nd, ret) ← insertVisit v s dir parent node ret;
      insertFix last parent gparent ggparent nd;;
      n ← load nd;
      let cmp := int64 (val n - v) in
      if bool_decide (cmp = 0) then mret ret
      else
        let last := dir in
        let dir := bool_decide (cmp < 0) in
        let ggparent := keepNonNil gparent ggparent in
        let gparent := parent in
        let parent := nd in
        node ← Child nd dir;
        insertLoop fuel v s dir last parent gparent ggparent node ret
  end.

Definition Insert (v : Z) (s : string) : RB bool :=
  rt ← getRoot;
  ret ←
    match rt with
    | None =>
        nd ← alloc (mkNode v s None None false);
        setRoot nd;;
        mret true
    | Some _ =>
        head ← alloc (mkNode 0 "" None None false);
        setChild head true rt;;
        h ← get;
        let fuel := (2 * base.size (nodes h) + 2)%nat in
        ret ← insertLoop fuel v s true true None None head rt false;
        hd ← load head;
        setRoot (right hd);;
        mret ret
    end;
  rt ← getRoot;
  setRed rt false;;
  (if (ret : bool) then addSize 1 else mret tt);;
  mret ret.

(** ** Delete *)

(** [if sibling != nil { ... }]: borrow a red node from the sibling. *)
Definition pushSibling (last : bool) (gparent parent node sibling : ptr) : RB unit :=
  so ← Child sibling (negb last);
  si ← Child sibling last;
  rso ← isRed so;
  rsi ← isRed si;
  if negb rso && negb rsi then
    setRed parent false;;
    setRed sibling true;;
    setRed node true
  else
    g ← load gparent;
    let dir2 := bool_decide (right g = parent) in
    (if (rsi : bool) then
       t ← doubleRotate parent last;
       setChild gparent dir2 t
     else if (rso : bool) then
       t ← singleRotate parent last;
       setChild gparent dir2 t
     else mret tt);;
    gpc ← Child gparent dir2;
    setRed gpc true;;
    setRed node true;;
    gn ← load gpc;
    setRed (left gn) false;;
    setRed (right gn) false.

(** The loop body's rebalancing: push a red node down towards [node].
    Returns the new value of [parent]. *)
Definition pushRed (dir last : bool) (gparent parent node : ptr) : RB ptr :=
  rn ← isRed node;
  cd ← Child node dir;
  rc ← (if (rn : bool) then mret true else isRed cd);
  if (rc : bool) then mret parent
  else
    co ← Child node (negb dir);
    ro ← isRed co;
    if (ro : bool) then
      sr ← singleRotate node dir;
      setChild parent last sr;;
      mret sr
    else
      sibling ← Child parent (negb last);
      match sibling with
      | None => mret parent
      | Some _ => pushSibling last gparent parent node sibling;; mret parent
      end.

(** Returns the last node visited, its parent and the node found. *)
Fixpoint deleteLoop (fuel : nat) (v : Z) (dir : bool) (gparent parent node found : ptr)
    : RB (ptr * ptr * ptr) :=
  match fuel with
  | O => panic
  | S fuel =>
      nx ← Child node dir;
      match nx with
      | None => mret (parent, node, found)
      | Some _ =>
          let last := dir in
          let gparent := parent in
          let parent := node in
          let node := nx in
          n ← load node;
          let cmp := int64 (val n - v) in
          let dir := bool_decide (cmp < 0) in
          let found := if bool_decide (cmp = 0) then node else found in
          parent ← pushRed dir last gparent parent node;
          deleteLoop fuel v dir gparent parent node found
      end
  end.

Definition Delete (v : Z) : RB bool :=
  rt ← getRoot;
  match rt with
  | None => mret false
  | Some _ =>
      head ← alloc (mkNode 0 "" None None true);
      setChild head true rt;;
      h ← get;
      let fuel := (base.size (nodes h) + 1)%nat in
      '(parent, node, found) ← deleteLoop fuel v true None None head None;
      (match found with
       | Some _ =>
           n ← load node;
           setItem found (val n) (str n);;
           pn ← load parent;
           c ← Child node (bool_decide (left n = None));
           setChild parent (bool_decide (right pn = node)) c;;
           addSize (-1)
       | None => mret tt
       end);;
      hd ← load head;
      setRoot (right hd);;
      rt ← getRoot;
      (match rt with Some _ => setRed rt false | None => mret tt end);;
      mret (bool_decide (is_Some found))
  end.

(** ** Search *)
Fixpoint search (fuel : nat) (p : ptr) (v : Z) : RB (string * bool) :=
  match fuel with
  | O => panic
  | S fuel =>
      n ← load p;
      if bool_decide (val n = v) then mret (str n, true)
      else if bool_decide (v < val n) then
        match left n with Some _ => search fuel (left n) v | None => mret ("", false) end
      else
        match right n with Some _ => search fuel (right n) v | None => mret ("", false) end
  end.

Definition Search (v : Z) : RB (string * bool) :=
  rt ← getRoot;
  match rt with
  | None => mret ("", false)
  | Some _ => h ← get; search (base.size (nodes h)) rt v
  end.

(** ** Ordered traversal

    [result] is Go's [map[string]struct{}]: a set of strings, threaded through
    the recursion. *)
Fixpoint findNUniqueAbove (fuel : nat) (p : ptr) (n v : Z) (result : gset string)
    : RB (gset string) :=
  match fuel with
  | O => panic
  | S fuel =>
      if bool_decide (n ≤ Z.of_nat (base.size result)) then mret result
      else
        match p with
        | None => mret result
        | Some _ =>
            nd ← load p;
            result ← (if bool_decide (v ≤ val nd)
                      then findNUniqueAbove fuel (left nd) n v result
                      else mret result);
            if bool_decide (n ≤ Z.of_nat (base.size result)) then mret result
            else
              let result := if bool_decide (v ≤ val nd)
                            then {[str nd]} ∪ result else result in
              findNUniqueAbove fuel (right nd) n v result
        end
  end.

Definition LookupNUniqueAt (n v : Z) (result : gset string) : RB (gset string) :=
  rt ← getRoot;
  h ← get;
  findNUniqueAbove (base.size (nodes h) + 1) rt n v result.

(** The zero tree, [&redBlackTree{}]. *)
Definition emptyHeap : rbheap := mkHeap ∅ (mkTree None 0).
