(* ===== verification/RBRep.v ===== *)
(** * RBRep: what a store means as a tree

    [rbt] is the tree a store represents, each node carrying its location;
    [rep] says that a store holds it.  A [frame] is one step of the path from
    the root to the position a loop works at, so that a loop state is a pair
    of a context and the subtree below the current pointer.  The file also
    defines the three invariants of the data structure: the search-tree order
    ([ordered]), the red-black balance ([rb]) and the validity of a whole
    heap ([rb_inv]), and proves the specifications of the rotations. *)
From S2P Require Import Prelude GoStd TreeIface RBTree.
#[local] Open Scope Z_scope.

(** ** Trees and contexts *)
Inductive rbt : Type :=
| Leaf
| Node (l : loc) (c : bool) (a : rbt) (v : Z) (s : string) (b : rbt).

Abbreviation item := (Z * string)%type.

Definition rootp (t : rbt) : ptr :=
  match t with Leaf => None | Node l _ _ _ _ _ => Some l end.
Definition isred (t : rbt) : bool :=
  match t with Leaf => false | Node _ c _ _ _ _ => c end.
Definition paint (c : bool) (t : rbt) : rbt :=
  match t with Leaf => Leaf | Node l _ a v s b => Node l c a v s b end.

Fixpoint locs (t : rbt) : list loc :=
  match t with Leaf => [] | Node l _ a _ _ b => l :: locs a ++ locs b end.
Fixpoint items (t : rbt) : list item :=
  match t with Leaf => [] | Node _ _ a v s b => items a ++ (v, s) :: items b end.
Fixpoint sz (t : rbt) : nat :=
  match t with Leaf => 0 | Node _ _ a _ _ b => S (sz a + sz b) end.

(** A node seen from one of its sides: [p] is its child on side [d]. *)
Definition fnode (d c : bool) (v : Z) (s : string) (p q : ptr) : redBlackNode :=
  if d then mkNode v s q p c else mkNode v s p q c.
Definition mk (d : bool) (l : loc) (c : bool) (t : rbt) (v : Z) (s : string) (o : rbt) : rbt :=
  if d then Node l c o v s t else Node l c t v s o.

(** A frame: a node with a hole on side [d] and the subtree [o] on the other. *)
Inductive frame : Type :=
| Fr (d : bool) (l : loc) (c : bool) (v : Z) (s : string) (o : rbt).

Fixpoint plug (k : list frame) (t : rbt) : rbt :=
  match k with
  | [] => t
  | Fr d l c v s o :: k => plug k (mk d l c t v s o)
  end.

Fixpoint clocs (k : list frame) : list loc :=
  match k with
  | [] => []
  | Fr _ l _ _ _ o :: k => l :: locs o ++ clocs k
  end.

(** The items of a context to the left and to the right of its hole. *)
Fixpoint lefts (k : list frame) : list item :=
  match k with
  | [] => []
  | Fr d _ _ v s o :: k => lefts k ++ (if d then items o ++ [(v, s)] else [])
  end.
Fixpoint rights (k : list frame) : list item :=
  match k with
  | [] => []
  | Fr d _ _ v s o :: k => (if d then [] else (v, s) :: items o) ++ rights k
  end.

(** The node that holds the link into the hole ([hd] is the fake root), the
    side of that link, and the colour of the holder. *)
Definition owner (hd : loc) (k : list frame) : loc :=
  match k with [] => hd | Fr _ l _ _ _ _ :: _ => l end.
Definition odir (k : list frame) : bool :=
  match k with [] => true | Fr d _ _ _ _ _ :: _ => d end.
Definition cred (k : list frame) : bool :=
  match k with [] => false | Fr _ _ c _ _ _ :: _ => c end.

(** ** Representation *)
Fixpoint rep (m : gmap loc redBlackNode) (t : rbt) : Prop :=
  match t with
  | Leaf => True
  | Node l c a v s b =>
      m !! l = Some (mkNode v s (rootp a) (rootp b) c) ∧ rep m a ∧ rep m b
  end.

Fixpoint repc (m : gmap loc redBlackNode) (hd : loc) (hc : bool) (k : list frame) (p : ptr)
    : Prop :=
  match k with
  | [] => m !! hd = Some (mkNode 0 "" None p hc)
  | Fr d l c v s o :: k =>
      m !! l = Some (fnode d c v s p (rootp o)) ∧ rep m o ∧ repc m hd hc k (Some l)
  end.

Definition same_off (L : list loc) (m m' : gmap loc redBlackNode) : Prop :=
  ∀ x, x ∉ L → m' !! x = m !! x.

(** ** Order and balance *)
Definition ordered (l : list item) : Prop := StronglySorted plt l.

(** [rb t n]: no red node has a red child, and every path to a leaf has [n]
    black nodes. *)
Fixpoint rb (t : rbt) (n : nat) : Prop :=
  match t with
  | Leaf => n = 0%nat
  | Node _ true a _ _ b => rb a n ∧ rb b n ∧ isred a = false ∧ isred b = false
  | Node _ false a _ _ b => ∃ n', n = S n' ∧ rb a n' ∧ rb b n'
  end.

(** [before v k]: the search for [v] comes through the hole of [k]. *)
Definition before (v : Z) (k : list frame) : Prop :=
  Forall (λ x : item, x.1 < v) (lefts k) ∧ Forall (λ x : item, v < x.1) (rights k).

(** ** Basic facts *)
Lemma mk_negb d l c t v s o : mk (negb d) l c t v s o = mk d l c o v s t.
Proof. by destruct d. Qed.

Lemma mk_case d t :
  t = Leaf ∨ ∃ l c a v s b, t = mk d l c a v s b.
Proof. destruct t as [|l c a v s b]; [by left|right]. destruct d; eauto 10. Qed.

Lemma rootp_mk d l c t v s o : rootp (mk d l c t v s o) = Some l.
Proof. by destruct d. Qed.

Lemma isred_mk d l c t v s o : isred (mk d l c t v s o) = c.
Proof. by destruct d. Qed.

Lemma locs_mk d l c t v s o : locs (mk d l c t v s o) ≡ₚ l :: locs t ++ locs o.
Proof. destruct d; simpl; [|done]. by rewrite (comm (++)). Qed.

Lemma sz_mk d l c t v s o : sz (mk d l c t v s o) = S (sz t + sz o).
Proof. destruct d; simpl; lia. Qed.

Lemma items_mk d l c t v s o :
  items (mk d l c t v s o) =
    (if d then items o ++ [(v, s)] else []) ++ items t ++ (if d then [] else (v, s) :: items o).
Proof. destruct d; simpl; by rewrite ?app_nil_r, <-?(assoc_L (++)). Qed.

Lemma rep_mk m d l c t v s o :
  rep m (mk d l c t v s o) ↔ m !! l = Some (fnode d c v s (rootp t) (rootp o)) ∧ rep m t ∧ rep m o.
Proof. destruct d; simpl; naive_solver. Qed.

Lemma rb_mk_red d l t v s o n :
  rb (mk d l true t v s o) n ↔ rb t n ∧ rb o n ∧ isred t = false ∧ isred o = false.
Proof. destruct d; simpl; naive_solver. Qed.

Lemma rb_mk_black d l t v s o n :
  rb (mk d l false t v s o) n ↔ ∃ n', n = S n' ∧ rb t n' ∧ rb o n'.
Proof. destruct d; simpl; naive_solver. Qed.

Lemma rb_paint_black t n : rb t n → isred t = true → rb (paint false t) (S n).
Proof. destruct t as [|l [] a v s b]; simpl; naive_solver. Qed.

Lemma isred_paint c t : isred (paint c t) = match t with Leaf => false | _ => c end.
Proof. by destruct t. Qed.

Lemma items_plug k t : items (plug k t) = lefts k ++ items t ++ rights k.
Proof.
  revert t. induction k as [|[d l c v s o] k IH]; intros t; simpl.
  - by rewrite app_nil_r.
  - rewrite IH, items_mk. by rewrite <-!(assoc_L (++)).
Qed.

Lemma sz_length t : sz t = length (items t).
Proof. induction t; simpl; [done|]. rewrite length_app. simpl. lia. Qed.

Lemma locs_length t : length (locs t) = sz t.
Proof. induction t; simpl; [done|]. rewrite length_app. lia. Qed.

(** ** The frame rule for [rep] and [repc] *)
Lemma rep_dom m t l : rep m t → l ∈ locs t → l ∈ dom m.
Proof.
  induction t as [|l' c a IHa v s b IHb]; simpl; [set_solver|].
  intros (Hl & Ha & Hb) Hin. rewrite elem_of_cons, elem_of_app in Hin.
  destruct Hin as [->|[?|?]]; auto. by apply elem_of_dom.
Qed.

Lemma rep_same m m' t :
  rep m t → (∀ x, x ∈ locs t → m' !! x = m !! x) → rep m' t.
Proof.
  induction t as [|l' c a IHa v s b IHb]; simpl; [done|].
  intros (Hl & Ha & Hb) Heq. split_and!.
  - rewrite Heq; [done|set_solver].
  - apply IHa; [done|]. intros; apply Heq; set_solver.
  - apply IHb; [done|]. intros; apply Heq; set_solver.
Qed.

Lemma rep_insert_ne m t l n : l ∉ locs t → rep m t → rep (<[l := n]> m) t.
Proof.
  intros Hl Hr. eapply rep_same; [done|]. intros x Hx. rewrite lookup_insert_ne; [done|congruence].
Qed.

Lemma locs_paint c t : locs (paint c t) = locs t.
Proof. by destruct t. Qed.
Lemma rootp_paint c t : rootp (paint c t) = rootp t.
Proof. by destruct t. Qed.
Lemma items_paint c t : items (paint c t) = items t.
Proof. by destruct t. Qed.
Lemma rootp_in t l : rootp t = Some l → l ∈ locs t.
Proof. destruct t; simpl; intros; simplify_eq. set_solver. Qed.

Lemma repc_dom m hd hc k p l : repc m hd hc k p → l ∈ hd :: clocs k → l ∈ dom m.
Proof.
  revert p. induction k as [|[d l' c v s o] k IH]; intros p; simpl.
  - intros ? ->%list_elem_of_singleton. by apply elem_of_dom.
  - intros (Hl & Ho & Hk) Hin. rewrite !elem_of_cons, elem_of_app in Hin.
    destruct Hin as [->|[->|[?|?]]].
    + eapply IH; set_solver.
    + by apply elem_of_dom.
    + by eapply rep_dom.
    + eapply IH; set_solver.
Qed.

Lemma repc_same m m' hd hc k p :
  repc m hd hc k p → (∀ x, x ∈ hd :: clocs k → m' !! x = m !! x) → repc m' hd hc k p.
Proof.
  revert p. induction k as [|[d l' c v s o] k IH]; intros p; simpl.
  - intros Hm Heq. rewrite Heq; [done|set_solver].
  - intros (Hl & Ho & Hk) Heq. split_and!.
    + rewrite Heq; [done|set_solver].
    + eapply rep_same; [done|]. intros; apply Heq; set_solver.
    + apply IH; [done|]. intros; apply Heq; set_solver.
Qed.

(** The node that owns the hole, and rewriting the link it holds. *)
Definition set_link (d : bool) (q : ptr) (n : redBlackNode) : redBlackNode :=
  if d then mkNode (val n) (str n) (left n) q (red n)
  else mkNode (val n) (str n) q (right n) (red n).

Lemma repc_owner m hd hc k p :
  repc m hd hc k p → ∃ n, m !! owner hd k = Some n ∧ child_of n (odir k) = p.
Proof.
  destruct k as [|[d l c v s o] k]; simpl; intros H; [by eexists|].
  destruct H as (Hl & _). eexists. split; [done|]. by destruct d.
Qed.

Lemma repc_relink m m' hd hc k p q n :
  NoDup (hd :: clocs k) →
  repc m hd hc k p → m !! owner hd k = Some n →
  m' !! owner hd k = Some (set_link (odir k) q n) →
  (∀ x, x ∈ hd :: clocs k → x ≠ owner hd k → m' !! x = m !! x) →
  repc m' hd hc k q.
Proof.
  destruct k as [|[d l c v s o] k]; simpl; intros Hnd Hk Hn Hn' Heq.
  - by simplify_eq.
  - destruct Hk as (Hl & Ho & Hk). simplify_eq.
    rewrite !NoDup_cons, elem_of_cons, elem_of_app in Hnd. split_and!.
    + rewrite Hn'. by destruct d.
    + eapply rep_same; [done|]. intros x Hx. apply Heq; set_solver.
    + eapply repc_same; [done|]. intros x Hx. apply Heq; set_solver.
Qed.

Lemma owner_in hd k : owner hd k ∈ hd :: clocs k.
Proof. destruct k as [|[]]; simpl; set_solver. Qed.

(** ** Balance of a tree in context *)
Lemma rb_plug_inv k t N : rb (plug k t) N → ∃ n, rb t n.
Proof.
  revert t. induction k as [|[d l c v s o] k IH]; intros t; simpl; [eauto|].
  intros [n Hn]%IH. destruct c; [apply rb_mk_red in Hn|apply rb_mk_black in Hn]; naive_solver.
Qed.

Lemma rb_fun t n m : rb t n → rb t m → n = m.
Proof.
  revert n m. induction t as [|l [] a IHa v s b IHb]; intros n m; simpl.
  - by intros -> ->.
  - intros (? & _) (? & _). eauto.
  - intros (n' & -> & ? & _) (m' & -> & ? & _). f_equal. eauto.
Qed.

Lemma rb_plug_cred k t N : rb (plug k t) N → cred k = true → isred t = false.
Proof.
  destruct k as [|[d l c v s o] k]; simpl; [done|]. intros [n Hn]%rb_plug_inv ->.
  apply rb_mk_red in Hn. naive_solver.
Qed.

(** A subtree may be replaced by one of the same black height, unless that
    puts a red root under a red parent. *)
Lemma rb_plug_replace k t t' n N :
  rb (plug k t) N → rb t n → rb t' n → (cred k = true → isred t' = false) →
  rb (plug k t') N.
Proof.
  revert t t' n. induction k as [|[d l c v s o] k IH]; intros t t' n; simpl.
  - intros HN Hn ?. by rewrite (rb_fun _ _ _ HN Hn).
  - intros HN Hn Hn' Hred. destruct (rb_plug_inv _ _ _ HN) as [m Hm].
    eapply IH; [exact HN|exact Hm| |by rewrite isred_mk; intros H%(rb_plug_cred _ _ _ HN);
      rewrite isred_mk in H].
    destruct c; [apply rb_mk_red in Hm; apply rb_mk_red|apply rb_mk_black in Hm; apply rb_mk_black].
    + destruct Hm as (Ht & Ho & Hrt & Hro). rewrite (rb_fun _ _ _ Ht Hn) in *. auto.
    + destruct Hm as (m' & -> & Ht & Ho). rewrite (rb_fun _ _ _ Ht Hn) in *. eauto.
Qed.

(** ** Order of a tree in context *)
Lemma ordered_app l1 l2 :
  ordered (l1 ++ l2) ↔ ordered l1 ∧ ordered l2 ∧ ∀ x y, x ∈ l1 → y ∈ l2 → x.1 < y.1.
Proof.
  unfold ordered. induction l1 as [|z l1 IH]; simpl.
  - split; [|naive_solver]. intros; split_and!; [constructor|done|set_solver].
  - split.
    + intros H. inversion H as [|? ? Hs Hall]; subst. apply IH in Hs as (? & ? & Hlt).
      rewrite Forall_app in Hall. destruct Hall as [Hall1 Hall2]. split_and!; [by constructor|done|].
      intros x y [->|?]%elem_of_cons Hy; [|by eauto]. by eapply Forall_forall in Hall2.
    + intros (H1 & H2 & Hlt). inversion H1 as [|? ? Hs Hall]; subst. constructor.
      * apply IH. split_and!; [done..|]. intros; apply Hlt; set_solver.
      * apply Forall_app. split; [done|]. apply Forall_forall. intros y Hy. apply Hlt; set_solver.
Qed.

Lemma before_cons v k (d : bool) l c w s o :
  before v k → ordered (items o) →
  (if d then w < v ∧ Forall (λ x : item, x.1 < w) (items o)
   else v < w ∧ Forall (λ x : item, w < x.1) (items o)) →
  before v (Fr d l c w s o :: k).
Proof.
  intros [Hl Hr] Ho H. split; simpl; destruct d; rewrite ?Forall_app; split; try done;
    destruct H as [? H]; repeat constructor; simpl; try done;
    eapply Forall_impl; try exact H; simpl; lia.
Qed.

Lemma before_head v k (d : bool) l c w s o :
  before v (Fr d l c w s o :: k) → if d then w < v else v < w.
Proof.
  intros [Hl Hr]. rewrite Forall_forall in Hl, Hr.
  destruct d; [apply (Hl (w, s))|apply (Hr (w, s))]; simpl; set_solver.
Qed.

Lemma before_tail v f k : before v (f :: k) → before v k.
Proof.
  destruct f. intros [Hl Hr]. simpl in *. apply Forall_app in Hl as [? _].
  by apply Forall_app in Hr as [_ ?].
Qed.

Lemma ordered_mk (d : bool) l c t v s o :
  ordered (items (mk d l c t v s o)) →
  ordered (items t) ∧ ordered (items o) ∧
  (if d then Forall (λ x : item, x.1 < v) (items o) ∧ Forall (λ x : item, v < x.1) (items t)
   else Forall (λ x : item, x.1 < v) (items t) ∧ Forall (λ x : item, v < x.1) (items o)).
Proof.
  destruct d; simpl; rewrite ordered_app; intros (H1 & H2 & H3);
    inversion H2 as [|? ? H4 H5]; subst; (split_and!; [done..| |done]);
    apply Forall_forall; intros x Hx; apply (H3 x (v, s)); set_solver.
Qed.

(** ** Running the primitive accesses *)
Lemma wp_load h l n Q : nodes h !! l = Some n → Q n h → wp (load (Some l)) Q h.
Proof. intros Hl HQ. unfold wp, load. by rewrite Hl. Qed.

Lemma wp_update h l n f Q :
  nodes h !! l = Some n → Q tt (mkHeap (<[l := f n]> (nodes h)) (tree h)) →
  wp (update (Some l) f) Q h.
Proof. intros Hl HQ. unfold wp, update. by rewrite Hl. Qed.

Lemma wp_Child h l n d Q :
  nodes h !! l = Some n → Q (child_of n d) h → wp (Child (Some l) d) Q h.
Proof. intros Hl HQ. apply wp_bind. by eapply wp_load. Qed.

Lemma wp_setChild h l n d q Q :
  nodes h !! l = Some n →
  Q tt (mkHeap (<[l := set_link d q n]> (nodes h)) (tree h)) →
  wp (setChild (Some l) d q) Q h.
Proof. intros Hl HQ. eapply wp_update; [done|]. by destruct d. Qed.

Lemma wp_setRed h l n c Q :
  nodes h !! l = Some n →
  Q tt (mkHeap (<[l := mkNode (val n) (str n) (left n) (right n) c]> (nodes h)) (tree h)) →
  wp (setRed (Some l) c) Q h.
Proof. intros Hl HQ. by eapply wp_update. Qed.

Lemma wp_alloc h n (Q : ptr → rbheap → Prop) :
  (∀ l, l ∉ dom (nodes h) → Q (Some l) (mkHeap (<[l := n]> (nodes h)) (tree h))) →
  wp (alloc n) Q h.
Proof. intros HQ. apply (HQ (fresh (dom (nodes h)))). apply is_fresh. Qed.

Lemma wp_isRed h t Q : rep (nodes h) t → Q (isred t) h → wp (isRed (rootp t)) Q h.
Proof.
  destruct t as [|l c a v s b]; simpl; intros Hr HQ; [done|].
  apply wp_bind. eapply wp_load; naive_solver.
Qed.

Lemma wp_isRed_at h l n Q : nodes h !! l = Some n → Q (red n) h → wp (isRed (Some l)) Q h.
Proof. intros Hl HQ. apply wp_bind. by eapply wp_load. Qed.

(** Painting the root of a subtree. *)
Lemma rep_paint m t c l n :
  rep m t → rootp t = Some l → m !! l = Some n → NoDup (locs t) →
  rep (<[l := mkNode (val n) (str n) (left n) (right n) c]> m) (paint c t).
Proof.
  destruct t as [|l' c' a v s b]; simpl; [done|]. intros (Hl & Ha & Hb) [= ->] Hn Hnd.
  rewrite NoDup_cons, elem_of_app in Hnd. simplify_map_eq. split_and!; [done|..].
  - eapply rep_same; [exact Ha|]. intros x Hx. rewrite lookup_insert_ne; [done|]. set_solver.
  - eapply rep_same; [exact Hb|]. intros x Hx. rewrite lookup_insert_ne; [done|]. set_solver.
Qed.

Lemma child_of_fnode d c v s p q : child_of (fnode d c v s p q) d = p.
Proof. by destruct d. Qed.
Lemma child_of_fnode_negb d c v s p q : child_of (fnode d c v s p q) (negb d) = q.
Proof. by destruct d. Qed.
Lemma child_of_negb_fnode d c v s p q : child_of (fnode (negb d) c v s p q) d = q.
Proof. by destruct d. Qed.
Lemma set_link_fnode d c v s p p' q : set_link d p' (fnode d c v s p q) = fnode d c v s p' q.
Proof. by destruct d. Qed.
Lemma set_link_fnode_negb d c v s p q q' : set_link (negb d) q' (fnode d c v s p q) = fnode d c v s p q'.
Proof. by destruct d. Qed.
Lemma set_link_negb_fnode d c v s p q q' : set_link d q' (fnode (negb d) c v s p q) = fnode (negb d) c v s p q'.
Proof. by destruct d. Qed.
Lemma red_fnode d c v s p q : red (fnode d c v s p q) = c.
Proof. by destruct d. Qed.
Lemma val_fnode d c v s p q : val (fnode d c v s p q) = v.
Proof. by destruct d. Qed.
Lemma fnode_red d c c' v s p q :
  mkNode (val (fnode d c v s p q)) (str (fnode d c v s p q))
    (left (fnode d c v s p q)) (right (fnode d c v s p q)) c' = fnode d c' v s p q.
Proof. by destruct d. Qed.

Create Rewrite HintDb rbnode.
#[export] Hint Rewrite child_of_fnode child_of_fnode_negb child_of_negb_fnode set_link_fnode
  set_link_fnode_negb set_link_negb_fnode red_fnode val_fnode fnode_red Bool.negb_involutive
  : rbnode.

(** Disjointness: take [NoDup] and non-membership apart, then close [_ ≠ _]
    and [_ ∉ _] goals from the pieces. *)
Ltac split_nodup :=
  repeat match goal with
  | H : NoDup (_ :: _) |- _ => apply NoDup_cons in H as [? ?]
  | H : NoDup (_ ++ _) |- _ => apply NoDup_app in H as (? & ? & ?)
  | H : _ ∉ _ :: _ |- _ => apply not_elem_of_cons in H as [? ?]
  | H : _ ∉ _ ++ _ |- _ => apply not_elem_of_app in H as [? ?]
  end.
Ltac apart :=
  repeat (rewrite not_elem_of_cons || rewrite not_elem_of_app);
  repeat split;
  solve [ done | congruence | intros ?; subst; contradiction | apply not_elem_of_nil
        | intros ?; subst; set_solver ].

(** One primitive access, its lookup solved by the facts at hand. *)
Ltac map_look := first [eassumption | simpl; simplify_map_eq; first [reflexivity | eassumption]].
Ltac rb_step :=
  lazymatch goal with
  | |- wp (_ ≫= _) _ _ => apply wp_bind
  | |- wp (mret _) _ _ => apply wp_ret
  | |- wp (Child _ _) _ _ => eapply wp_Child; [map_look|]
  | |- wp (setChild _ _ _) _ _ => eapply wp_setChild; [map_look|]
  | |- wp (setRed _ _) _ _ => eapply wp_setRed; [map_look|]
  | |- wp (load _) _ _ => eapply wp_load; [map_look|]
  end; autorewrite with rbnode; simpl.

(** ** Rotations

    [singleRotate] at [l] towards side [negb d] lifts the child on side [d]. *)
Lemma singleRotate_spec h d l l' c c' v v' s s' pA pB pY (Q : ptr → rbheap → Prop) :
  l ≠ l' →
  nodes h !! l = Some (fnode d c v s (Some l') pY) →
  nodes h !! l' = Some (fnode (negb d) c' v' s' pB pA) →
  (∀ h', tree h' = tree h → same_off [l; l'] (nodes h) (nodes h') →
     nodes h' !! l = Some (fnode d true v s pB pY) →
     nodes h' !! l' = Some (fnode (negb d) false v' s' (Some l) pA) →
     Q (Some l') h') →
  wp (singleRotate (Some l) (negb d)) Q h.
Proof.
  intros Hne Hl Hl' HQ. unfold singleRotate. rewrite Bool.negb_involutive.
  repeat rb_step. apply HQ; simpl; [done|..].
  - intros x Hx. rewrite !lookup_insert_ne; set_solver.
  - by simplify_map_eq.
  - by simplify_map_eq.
Qed.

(** [doubleRotate] at [l2] towards side [negb d] lifts the grandchild [l]. *)
Lemma doubleRotate_spec h d l2 l1 l c2 c1 c v2 s2 v1 s1 w sw pX pY pO1 pO2
    (Q : ptr → rbheap → Prop) :
  NoDup [l2; l1; l] →
  nodes h !! l2 = Some (fnode d c2 v2 s2 (Some l1) pO2) →
  nodes h !! l1 = Some (fnode (negb d) c1 v1 s1 (Some l) pO1) →
  nodes h !! l = Some (fnode d c w sw pY pX) →
  (∀ h', tree h' = tree h → same_off [l2; l1; l] (nodes h) (nodes h') →
     nodes h' !! l2 = Some (fnode d true v2 s2 pX pO2) →
     nodes h' !! l1 = Some (fnode (negb d) true v1 s1 pY pO1) →
     nodes h' !! l = Some (fnode d false w sw (Some l1) (Some l2)) →
     Q (Some l) h') →
  wp (doubleRotate (Some l2) (negb d)) Q h.
Proof.
  intros Hnd Hl2 Hl1 Hl HQ. rewrite !NoDup_cons in Hnd.
  assert (l2 ≠ l1 ∧ l2 ≠ l ∧ l1 ≠ l) as (? & ? & ?) by set_solver.
  unfold doubleRotate. rewrite Bool.negb_involutive. do 2 rb_step. apply wp_bind.
  rewrite <-(Bool.negb_involutive d) at 1.
  eapply singleRotate_spec; [|exact Hl1|rewrite Bool.negb_involutive; exact Hl|]; [done|].
  rewrite Bool.negb_involutive. intros h1 Ht1 Hoff1 Hl1' Hl'.
  assert (nodes h1 !! l2 = Some (fnode d c2 v2 s2 (Some l1) pO2)) as Hl2'.
  { rewrite Hoff1; [done|set_solver]. }
  do 2 rb_step.
  eapply (singleRotate_spec _ d l2 l); simpl;
    [done|by simplify_map_eq|by simplify_map_eq; destruct d|]; simpl.
  intros h2 Ht2 Hoff2 Hl2'' Hl''. apply HQ; [congruence| |done| |by destruct d].
  - intros x Hx. rewrite Hoff2, lookup_insert_ne, Hoff1; set_solver.
  - by rewrite Hoff2, lookup_insert_ne; [|set_solver..].
Qed.

(** ** Loop states: a context, a subtree, and the store that holds both *)
Definition at_hole (h : rbheap) (hd : loc) (hc : bool) (k : list frame) (t : rbt) : Prop :=
  repc (nodes h) hd hc k (rootp t) ∧ rep (nodes h) t ∧ NoDup (hd :: clocs k ++ locs t).

Lemma at_hole_down h hd hc k d l c t v s o :
  at_hole h hd hc k (mk d l c t v s o) ↔ at_hole h hd hc (Fr d l c v s o :: k) t.
Proof.
  unfold at_hole. simpl. rewrite rep_mk, rootp_mk, locs_mk.
  assert (hd :: clocs k ++ l :: locs t ++ locs o ≡ₚ hd :: l :: (locs o ++ clocs k) ++ locs t) as ->
    by solve_Permutation.
  naive_solver.
Qed.

Lemma at_hole_plug h hd hc k t : at_hole h hd hc k t ↔ at_hole h hd hc [] (plug k t).
Proof.
  revert t. induction k as [|[d l c v s o] k IH]; intros t; simpl; [done|].
  by rewrite <-at_hole_down.
Qed.

(** Replacing the subtree in the hole: the store may only have changed on the
    old subtree and in the link of the owner. *)
Lemma at_hole_replace h h' hd hc k t t' n :
  at_hole h hd hc k t → nodes h !! owner hd k = Some n →
  nodes h' !! owner hd k = Some (set_link (odir k) (rootp t') n) →
  rep (nodes h') t' → locs t' ≡ₚ locs t →
  same_off (owner hd k :: locs t) (nodes h) (nodes h') →
  at_hole h' hd hc k t'.
Proof.
  intros (Hk & Ht & Hnd) Hn Hn' Ht' Hlocs Hoff. split_and!; [|done|by rewrite Hlocs].
  assert (hd :: clocs k ++ locs t = (hd :: clocs k) ++ locs t) as Heq by done.
  rewrite Heq in Hnd. apply NoDup_app in Hnd as (Hnd & Hdisj & _).
  eapply repc_relink; [done|exact Hk|done|done|].
  intros x Hx Hne. apply Hoff. rewrite elem_of_cons. intros [?|?]; [done|]. by eapply Hdisj.
Qed.

(** The test [owner.right == l] finds the side of the link. *)
Lemma owner_side h hd hc k t l n :
  at_hole h hd hc k t → rootp t = Some l → nodes h !! owner hd k = Some n →
  bool_decide (right n = Some l) = odir k.
Proof.
  intros (Hk & Ht & Hnd) Hl Hn. destruct k as [|[d l' c v s o] k]; simpl in *.
  - rewrite Hl in Hk. simplify_eq/=. by rewrite bool_decide_true.
  - destruct Hk as (Hl' & Ho & Hk). simplify_eq. destruct d; simpl.
    + rewrite Hl. by rewrite bool_decide_true.
    + apply bool_decide_eq_false. intros Hr. rewrite !NoDup_cons in Hnd.
      destruct Hnd as (_ & _ & Hnd). rewrite <-(assoc_L (++)) in Hnd.
      apply NoDup_app in Hnd as (_ & Hnd & _). destruct o as [|lo], t as [|lt]; simplify_eq/=.
      apply (Hnd l); set_solver.
Qed.

(** An owner is not a node of the subtree it points to. *)
Lemma owner_notin h hd hc k t : at_hole h hd hc k t → owner hd k ∉ locs t.
Proof.
  intros (_ & _ & Hnd) Hin. rewrite app_comm_cons in Hnd.
  apply NoDup_app in Hnd as (_ & Hd & _). apply (Hd (owner hd k)); [apply owner_in|done].
Qed.

Lemma at_hole_nodup h hd hc k t : at_hole h hd hc k t → NoDup (locs t).
Proof.
  intros (_ & _ & Hnd). rewrite app_comm_cons in Hnd. by apply NoDup_app in Hnd as (_ & _ & ?).
Qed.

(** ** The invariant of a tree between two calls *)
Record rb_inv (h : rbheap) (t : rbt) : Prop := {
  inv_rep : rep (nodes h) t;
  inv_root : root (tree h) = rootp t;
  inv_nodup : NoDup (locs t);
  inv_ord : ordered (items t);
  inv_32 : Forall (λ x : item, hash32 x.1) (items t);
  inv_rb : ∃ n, rb t n;
  inv_black : isred t = false;
  inv_size : size (tree h) = Z.of_nat (sz t)
}.

(** The map from hashes to server names that a tree stands for. *)
Definition tree_map (t : rbt) : gmap Z string := list_to_map (items t).
Definition repr (h : rbheap) (m : gmap Z string) : Prop :=
  ∃ t, rb_inv h t ∧ tree_map t = m.

Lemma ordered_range (l : list item) lo hi :
  lo ≤ hi → ordered l → Forall (λ x : item, lo ≤ x.1 < hi) l → Z.of_nat (length l) ≤ hi - lo.
Proof.
  unfold ordered. revert lo. induction l as [|x l IH]; intros lo Hlo Ho Hall; simpl; [lia|].
  inversion Ho as [|? ? Hs Hx]; subst. inversion Hall as [|? ? Hb Hall']; subst.
  assert (Z.of_nat (length l) ≤ hi - (x.1 + 1)); [|lia].
  apply IH; [lia|done|]. rewrite Forall_forall in *. intros y Hy.
  specialize (Hx y Hy). specialize (Hall' y Hy). unfold plt in Hx. lia.
Qed.

Lemma inv_sz_bound h t : rb_inv h t → Z.of_nat (sz t) ≤ 2^32.
Proof.
  intros []. rewrite sz_length. pose proof (ordered_range (items t) 0 (2^32)) as H.
  rewrite Z.sub_0_r in H. apply H; [lia|done|]. done.
Qed.

Lemma rep_size m t : rep m t → NoDup (locs t) → (sz t ≤ base.size m)%nat.
Proof.
  intros Hr Hnd. rewrite <-locs_length, <-(size_list_to_set (C := gset loc) (locs t)) by done.
  rewrite <-(size_dom m). apply subseteq_size. intros x Hx%elem_of_list_to_set. by eapply rep_dom.
Qed.

Lemma at_hole_nil h hd hc t :
  at_hole h hd hc [] t ↔
  (nodes h !! hd = Some (mkNode 0 "" None (rootp t) hc) ∧ rep (nodes h) t ∧
   (hd ∉ locs t) ∧ NoDup (locs t)).
Proof. unfold at_hole. simpl. rewrite NoDup_cons. naive_solver. Qed.

Lemma list_to_map_middle (l1 l2 : list item) v s :
  ordered (l1 ++ (v, s) :: l2) →
  (list_to_map (l1 ++ (v, s) :: l2) : gmap Z string) = <[v := s]> (list_to_map (l1 ++ l2)).
Proof.
  intros Ho%plt_nodup. rewrite <-list_to_map_cons. apply list_to_map_proper; [done|].
  by rewrite Permutation_middle.
Qed.

Lemma list_to_map_middle_delete (l1 l2 : list item) v s :
  ordered (l1 ++ (v, s) :: l2) →
  (list_to_map (l1 ++ l2) : gmap Z string) = delete v (list_to_map (l1 ++ (v, s) :: l2)).
Proof.
  intros Ho. rewrite list_to_map_middle by done. rewrite delete_insert_id; [done|].
  apply not_elem_of_list_to_map. apply plt_nodup in Ho. rewrite fmap_app in *. simpl in Ho.
  apply NoDup_app in Ho as (_ & H1 & H2). apply NoDup_cons in H2 as [H2 _]. set_solver.
Qed.
