(* ===== verification/RBInsert.v ===== *)
(** * RBInsert: correctness of [Insert]

    [insertLoop] walks down from the fake root with four pointers.  The two
    upper ones go stale for one or two iterations after a rotation; the proof
    follows the loop from one state in which all four are exact to the next
    ([clean]), over one, two or three iterations, and shows that the stale
    ones are not used in between. *)
From S2P Require Import Prelude GoStd TreeIface RBTree RBRep.
#[local] Open Scope Z_scope.

Lemma fnode_negb d c v s p q : fnode (negb d) c v s p q = fnode d c v s q p.
Proof. by destruct d. Qed.

(** ** The repair step *)

Lemma insertFix_calm h last p g gg t (Q : unit → rbheap → Prop) :
  rep (nodes h) t → (isred t = true → wp (isRed p) (λ b h', b = false ∧ h' = h) h) →
  Q tt h → wp (insertFix last p g gg (rootp t)) Q h.
Proof.
  intros Ht Hp HQ. unfold insertFix. apply wp_bind. eapply wp_isRed; [done|].
  apply wp_bind. destruct (isred t) eqn:Hred; [|done].
  eapply wp_mono; [by apply Hp|]. by intros b h' [-> ->].
Qed.

Lemma insertFix_single h hd d l1 v1 s1 o1 l2 c2 v2 s2 o2 k t :
  at_hole h hd false (Fr d l1 true v1 s1 o1 :: Fr d l2 c2 v2 s2 o2 :: k) t → isred t = true →
  wp (insertFix d (Some l1) (Some l2) (Some (owner hd k)) (rootp t))
    (λ _ h', tree h' = tree h ∧
       at_hole h' hd false k (mk d l1 false t v1 s1 (mk d l2 true o1 v2 s2 o2))) h.
Proof.
  intros Hat Hred. pose proof Hat as Hat2.
  rewrite <-!at_hole_down in Hat2.
  pose proof (at_hole_nodup _ _ _ _ _ Hat2) as Hnd. rewrite locs_mk, locs_mk in Hnd.
  pose proof (owner_notin _ _ _ _ _ Hat2) as Hnot. rewrite !locs_mk in Hnot.
  destruct Hat as ((Hl1 & Ho1 & Hl2 & Ho2 & Hk) & Ht & _).
  destruct (repc_owner _ _ _ _ _ Hk) as (n & Hn & Hch).
  pose proof (owner_side _ _ _ _ _ l2 _ Hat2 (rootp_mk _ _ _ _ _ _ _) Hn) as Hside.
  simpl in Hnd. split_nodup.
  unfold insertFix. apply wp_bind. eapply wp_isRed; [done|]. rewrite Hred.
  apply wp_bind. eapply wp_isRed_at; [done|]. autorewrite with rbnode.
  do 4 rb_step. rewrite Hside, bool_decide_true by done.
  apply wp_bind. rewrite <-fnode_negb in Hl1.
  eapply singleRotate_spec; [|exact Hl2|exact Hl1|]; [done|].
  intros h' Htree Hoff Hl2' Hl1'.
  assert (nodes h' !! owner hd k = Some n) as Hn' by (rewrite Hoff; [done|apart]).
  rb_step. split; [done|].
  eapply at_hole_replace; [exact Hat2|exact Hn|..]; simpl.
  - rewrite rootp_mk. by simplify_map_eq.
  - rewrite rep_mk, rep_mk, rootp_mk. rewrite fnode_negb in Hl1'.
    split_and!; [rewrite lookup_insert_ne; [done|apart]|
      |rewrite lookup_insert_ne; [done|apart]|..];
      (eapply rep_same; [eassumption|]; intros x Hx;
       rewrite lookup_insert_ne, Hoff; [done|apart..]).
  - rewrite !locs_mk. simpl. solve_Permutation.
  - intros x Hx. rewrite !locs_mk in Hx. simpl in Hx. split_nodup. rewrite lookup_insert_ne, Hoff; [done|apart..].
Qed.

Lemma insertFix_double h hd d l1 v1 s1 o1 l2 c2 v2 s2 o2 k l w sw X Y :
  at_hole h hd false (Fr (negb d) l1 true v1 s1 o1 :: Fr d l2 c2 v2 s2 o2 :: k)
    (mk d l true Y w sw X) →
  wp (insertFix d (Some l1) (Some l2) (Some (owner hd k)) (Some l))
    (λ _ h', tree h' = tree h ∧
       at_hole h' hd false k
         (mk d l false (mk (negb d) l1 true Y v1 s1 o1) w sw (mk d l2 true X v2 s2 o2))) h.
Proof.
  intros Hat. pose proof Hat as Hat2. rewrite <-!at_hole_down in Hat2.
  pose proof (at_hole_nodup _ _ _ _ _ Hat2) as Hnd. rewrite !locs_mk in Hnd.
  pose proof (owner_notin _ _ _ _ _ Hat2) as Hnot. rewrite !locs_mk in Hnot.
  destruct Hat as ((Hl1 & Ho1 & Hl2 & Ho2 & Hk) & Ht & _). rewrite rootp_mk in Hl1.
  apply rep_mk in Ht as (Hl & HY & HX).
  destruct (repc_owner _ _ _ _ _ Hk) as (n & Hn & Hch).
  pose proof (owner_side _ _ _ _ _ l2 _ Hat2 (rootp_mk _ _ _ _ _ _ _) Hn) as Hside.
  simpl in Hnd. split_nodup.
  unfold insertFix. apply wp_bind. eapply wp_isRed_at; [done|]. autorewrite with rbnode.
  apply wp_bind. eapply wp_isRed_at; [done|]. autorewrite with rbnode.
  do 4 rb_step. rewrite Hside, bool_decide_false.
  2:{ destruct o1; simpl; [done|]. intros [= ->]. set_solver. }
  apply wp_bind.
  eapply doubleRotate_spec; [|exact Hl2|exact Hl1|exact Hl|].
  { rewrite !NoDup_cons. split_and!; [apart..|apply NoDup_nil_2]. }
  intros h' Htree Hoff Hl2' Hl1' Hl'.
  assert (nodes h' !! owner hd k = Some n) as Hn' by (rewrite Hoff; [done|apart]).
  rb_step. split; [done|].
  eapply at_hole_replace; [exact Hat2|exact Hn|..]; simpl.
  - rewrite rootp_mk. by simplify_map_eq.
  - rewrite !rep_mk, !rootp_mk.
    split_and!; try (rewrite lookup_insert_ne; [done|apart]);
      (eapply rep_same; [eassumption|]; intros x Hx;
       rewrite lookup_insert_ne, Hoff; [done|apart..]).
  - rewrite !locs_mk. simpl. solve_Permutation.
  - intros x Hx. rewrite !locs_mk in Hx. simpl in Hx. split_nodup. rewrite lookup_insert_ne, Hoff; [done|apart..].
Qed.

(** ** The visit step *)

Lemma wp_bothRed h l c a w sw b (Q : bool → rbheap → Prop) :
  rep (nodes h) (Node l c a w sw b) → Q (isred a && isred b) h → wp (bothRed (Some l)) Q h.
Proof.
  intros (Hl & Ha & Hb) HQ. apply wp_bind. eapply wp_load; [done|]. simpl. apply wp_bind.
  eapply wp_isRed; [done|]. destruct (isred a); simpl in *; [|done]. by eapply wp_isRed.
Qed.

Lemma insertVisit_calm h v s dir p l c a w sw b ret (Q : ptr * bool → rbheap → Prop) :
  rep (nodes h) (Node l c a w sw b) → isred a && isred b = false → Q (Some l, ret) h →
  wp (insertVisit v s dir p (Some l) ret) Q h.
Proof.
  intros Hr Hred HQ. apply wp_bind. eapply wp_bothRed; [done|]. by rewrite Hred.
Qed.

Lemma isred_root t : isred t = true → ∃ l, rootp t = Some l.
Proof. destruct t; simpl; eauto. done. Qed.

Lemma rep_root m t l : rep m t → rootp t = Some l → ∃ n, m !! l = Some n.
Proof. destruct t; simpl; [done|]. intros (H & _) [= ->]. eauto. Qed.

Lemma insertVisit_flip h hd k v s dir p l c a w sw b ret :
  at_hole h hd false k (Node l c a w sw b) → isred a = true → isred b = true →
  wp (insertVisit v s dir p (Some l) ret)
    (λ r h', r = (Some l, ret) ∧ tree h' = tree h ∧
       at_hole h' hd false k (Node l true (paint false a) w sw (paint false b))) h.
Proof.
  intros Hat Hra Hrb. pose proof (at_hole_nodup _ _ _ _ _ Hat) as Hnd.
  pose proof (owner_notin _ _ _ _ _ Hat) as Hnot.
  pose proof Hat as (Hk & Hr & _). pose proof Hr as (Hl & Ha & Hb).
  destruct (repc_owner _ _ _ _ _ Hk) as (n & Hn & Hch).
  destruct (isred_root a Hra) as [la Hla]. destruct (isred_root b Hrb) as [lb Hlb].
  destruct (rep_root _ _ _ Ha Hla) as [na Hna]. destruct (rep_root _ _ _ Hb Hlb) as [nb Hnb].
  pose proof (rootp_in _ _ Hla) as Hlain. pose proof (rootp_in _ _ Hlb) as Hlbin.
  simpl in *. split_nodup. assert (la ∉ locs b) by auto. assert (lb ∉ locs a) by firstorder.
  assert (la ≠ lb ∧ l ≠ la ∧ l ≠ lb) as (? & ? & ?) by (split_and!; congruence).
  unfold insertVisit. apply wp_bind. eapply wp_bothRed; [exact Hr|]. rewrite Hra, Hrb. simpl.
  do 4 rb_step. rewrite Hla, Hlb. do 4 rb_step. split_and!; [done..|].
  eapply at_hole_replace; [exact Hat|exact Hn|..]; simpl.
  - rewrite !lookup_insert_ne by apart. rewrite Hn. f_equal. destruct n; unfold set_link.
    simpl in *. destruct (odir k); simpl in *; by rewrite <-Hch.
  - rewrite !rootp_paint, Hla, Hlb. split_and!; [by simplify_map_eq|..].
    + apply rep_insert_ne; [by rewrite locs_paint|]. apply rep_paint; [|done|by simplify_map_eq|done].
      by apply rep_insert_ne.
    + apply rep_paint; [|done|by simplify_map_eq|done].
      apply rep_insert_ne; [done|]. by apply rep_insert_ne.
  - by rewrite !locs_paint.
  - intros x Hx. split_nodup. by rewrite !lookup_insert_ne by apart.
Qed.

Lemma insertVisit_new h hd f k v s ret :
  at_hole h hd false (f :: k) Leaf →
  wp (insertVisit v s (odir (f :: k)) (Some (owner hd (f :: k))) None ret)
    (λ r h', ∃ l, r = (Some l, true) ∧ tree h' = tree h ∧
       at_hole h' hd false (f :: k) (Node l true Leaf v s Leaf)) h.
Proof.
  intros Hat. pose proof Hat as (Hk & _ & Hnd). rewrite app_nil_r in Hnd.
  destruct (repc_owner _ _ _ _ _ Hk) as (n & Hn & Hch).
  unfold insertVisit. apply wp_bind, wp_alloc. intros l Hl.
  assert (∀ x, x ∈ hd :: clocs (f :: k) → x ≠ l) as Hfresh.
  { intros x Hx ->. apply Hl. by eapply repc_dom. }
  pose proof (Hfresh _ (owner_in hd (f :: k))) as Hne.
  do 2 rb_step. eexists. split_and!; [done..|]. split_and!.
  - eapply repc_relink; [done|exact Hk|exact Hn|..]; simpl in *; [by simplify_map_eq|].
    intros x Hx Hxo. rewrite !lookup_insert_ne; [done| |done]. intros ->. by eapply Hfresh.
  - simpl. by simplify_map_eq.
  - rewrite app_comm_cons. apply NoDup_app. split_and!; [done| |apply NoDup_singleton].
    intros x Hx ->%list_elem_of_singleton. by eapply Hfresh.
Qed.

(** ** One iteration *)

Lemma diff_small a b : hash32 a → hash32 b → int64 (a - b) = a - b.
Proof. unfold hash32, int64. intros. rewrite Z.mod_small; lia. Qed.

Lemma insert_iter fuel v s dir last p g gg node ret (Q : bool → rbheap → Prop) h :
  hash32 v →
  wp (insertVisit v s dir p node ret)
    (λ r, wp (insertFix last p g gg r.1) (λ _ h', ∃ l n,
       r.1 = Some l ∧ nodes h' !! l = Some n ∧ hash32 (val n) ∧
       (val n = v → Q r.2 h') ∧
       (∀ d : bool, (if d then val n < v else v < val n) →
          wp (insertLoop fuel v s d dir (Some l) p
                (keepNonNil g gg) (child_of n d) r.2) Q h'))) h →
  wp (insertLoop (S fuel) v s dir last p g gg node ret) Q h.
Proof.
  intros Hv H. simpl. apply wp_bind. eapply wp_mono; [exact H|]. clear H.
  intros [nd ret'] h1 H. apply wp_bind. eapply wp_mono; [exact H|]. clear H h1.
  intros _ h' (l & n & Heq & Hn & Hin & Hstop & Hgo). simpl in *. subst nd.
  rb_step. rb_step. rewrite diff_small by done. case_bool_decide; [apply wp_ret, Hstop; lia|].
  do 2 rb_step. apply Hgo. case_bool_decide; lia.
Qed.

(** An iteration that neither recolours nor rotates leaves the store alone. *)
Lemma calm_iter fuel v s dir last p g gg ret l c a w sw b (Q : bool → rbheap → Prop) h :
  rep (nodes h) (Node l c a w sw b) → isred a && isred b = false →
  (c = true → wp (isRed p) (λ b h', b = false ∧ h' = h) h) →
  hash32 w → hash32 v → (w = v → Q ret h) →
  (∀ d : bool, (if d then w < v else v < w) →
     wp (insertLoop fuel v s d dir (Some l) p
           (keepNonNil g gg) (rootp (if d then b else a)) ret) Q h) →
  wp (insertLoop (S fuel) v s dir last p g gg (Some l) ret) Q h.
Proof.
  intros Hr Hkids Hp Hw Hv Hstop Hgo. apply insert_iter; [done|].
  eapply insertVisit_calm; [done..|]. simpl.
  eapply (insertFix_calm _ _ _ _ _ (Node l c a w sw b)); [done|done|]. simpl.
  pose proof Hr as (Hl & _). eexists _, _. split_and!; [done|exact Hl|done|done|].
  intros d Hd. specialize (Hgo d Hd). by destruct d.
Qed.

(** ** Clean states *)
Definition par (k : list frame) : ptr :=
  match k with Fr _ l _ _ _ _ :: _ => Some l | _ => None end.
Definition gpar (k : list frame) : ptr := par (tail k).
Definition ggpar (hd : loc) (k : list frame) : ptr :=
  match k with _ :: _ :: Fr _ l _ _ _ _ :: _ => Some l | _ => Some hd end.

Lemma par_isRed h hd k t :
  at_hole h hd false k t → wp (isRed (par k)) (λ b h', b = cred k ∧ h' = h) h.
Proof.
  intros (Hk & _). destruct k as [|[d l c v s o] k]; [done|]. destruct Hk as (Hl & _).
  eapply wp_isRed_at; [done|]. by autorewrite with rbnode.
Qed.

Lemma ggpar_cons hd f k : keepNonNil (gpar k) (ggpar hd k) = ggpar hd (f :: k).
Proof. destruct k as [|[] [|[] [|[] ?]]]; done. Qed.

(** What the loop leaves for [Insert]: the new tree below the fake root. *)
Definition insPost (hd : loc) (tr : redBlackTree) (I0 : list item) (v : Z) (s : string)
    (r : bool) (h' : rbheap) : Prop :=
  ∃ T, tree h' = tr ∧ at_hole h' hd false [] T ∧ (∃ N, rb T N) ∧
    (if r then ∃ l1 l2, I0 = l1 ++ l2 ∧ items T = l1 ++ (v, s) :: l2 ∧
                Forall (λ x : item, x.1 < v) l1 ∧ Forall (λ x : item, v < x.1) l2
     else items T = I0 ∧ v ∈ I0.*1).

(** The part of a loop state that does not depend on the pointers. *)
Record state_ok (h : rbheap) (hd : loc) (k : list frame) (t : rbt) (v : Z) (I0 : list item) : Prop := {
  so_at : at_hole h hd false k t;
  so_rb : ∃ N, rb (plug k t) N;
  so_items : items (plug k t) = I0;
  so_ord : ordered I0;
  so_in32 : Forall (λ x : item, hash32 x.1) I0;
  so_before : before v k
}.

Record clean (h : rbheap) (hd : loc) (k : list frame) (t : rbt) (v : Z) (I0 : list item) : Prop := {
  cl_ok : state_ok h hd k t v I0;
  cl_deep : cred k = true → (2 ≤ length k)%nat;
  cl_root : k = [] → t ≠ Leaf ∧ isred t = false;
  cl_sib : ∀ d l c w sw o k', k = Fr d l c w sw o :: k' → isred t && isred o = false;
  cl_uncle : ∀ f d l c w sw o k', k = f :: Fr d l c w sw o :: k' → cred k = true → isred o = false
}.

Lemma node_mk (d : bool) l c a v s b :
  Node l c a v s b = mk d l c (if d then b else a) v s (if d then a else b).
Proof. by destruct d. Qed.

Lemma state_in32 h hd k l c a w sw b v I0 :
  state_ok h hd k (Node l c a w sw b) v I0 → hash32 w.
Proof.
  intros [? ? Hit ? H32 ?]. rewrite <-Hit, items_plug in H32.
  rewrite Forall_forall in H32. apply (H32 (w, sw)). simpl. set_solver.
Qed.

Lemma ordered_plug k t : ordered (items (plug k t)) → ordered (items t).
Proof. rewrite items_plug, !ordered_app. naive_solver. Qed.

Lemma state_found h hd k l c a w sw b v I0 :
  state_ok h hd k (Node l c a w sw b) v I0 → w = v → v ∈ I0.*1.
Proof.
  intros [? ? Hit ? H32 ?] ->. rewrite <-Hit, items_plug. simpl.
  rewrite !fmap_app. simpl. set_solver.
Qed.

(** Moving to the child the search goes to. *)
Lemma state_down h hd k l c a w sw b v I0 (d : bool) :
  state_ok h hd k (Node l c a w sw b) v I0 → (if d then w < v else v < w) →
  state_ok h hd (Fr d l c w sw (if d then a else b) :: k) (if d then b else a) v I0.
Proof.
  intros [Hat Hrb Hit Hord H32 Hbef] Hd. rewrite (node_mk d) in Hat, Hrb, Hit.
  apply at_hole_down in Hat. split; try done.
  rewrite <-Hit in Hord. apply ordered_plug, ordered_mk in Hord as (_ & Hord & H).
  apply before_cons; [done..|]. destruct d; naive_solver.
Qed.

Lemma state_post h hd k t v s I0 :
  state_ok h hd k t v I0 → v ∈ I0.*1 → insPost hd (tree h) I0 v s false h.
Proof.
  intros [Hat [N Hrb] Hit Hord H32 Hbef] Hin. exists (plug k t).
  rewrite at_hole_plug in Hat. split_and!; eauto.
Qed.

(** Moving [clean] down one level, when the node has not two red children. *)
Lemma clean_down h hd k l c a w sw b v I0 (d : bool) :
  clean h hd k (Node l c a w sw b) v I0 → isred a && isred b = false →
  (if d then w < v else v < w) →
  clean h hd (Fr d l c w sw (if d then a else b) :: k) (if d then b else a) v I0.
Proof.
  intros [Hok Hdeep Hroot Hsib Huncle] Hkids Hd. split; [by apply state_down| |done|..].
  - simpl. intros ->. destruct k; simpl; [|lia]. by destruct (Hroot eq_refl).
  - intros d' l' c' w' sw' o' k' [= <- <- <- <- <- <- <-]. destruct d; [|done]. by rewrite andb_comm.
  - intros ? ? ? ? ? ? o ? [= <- ->] Hc. simpl in Hc. subst c.
    by apply (Hsib _ _ _ _ _ _ _ eq_refl).
Qed.

(** ** Colour flips and rotations keep the balance *)
Lemma rb_flip l c a w sw b n :
  rb (Node l c a w sw b) n → isred a = true → isred b = true →
  c = false ∧ rb (Node l true (paint false a) w sw (paint false b)) n.
Proof.
  intros Hn Ha Hb. destruct c; simpl in Hn; [naive_solver congruence|].
  destruct Hn as (m & -> & Hra & Hrb). split; [done|]. simpl. rewrite !isred_paint.
  split_and!; [by apply rb_paint_black..| |]; by destruct a, b.
Qed.

Lemma paint_kids a n :
  rb a n → isred a = true →
  ∃ la aa wa sa ab, paint false a = Node la false aa wa sa ab ∧ isred aa = false ∧ isred ab = false.
Proof. destruct a as [|la [] aa wa sa ab]; simpl; naive_solver. Qed.

Lemma sz_paint c t : sz (paint c t) = sz t.
Proof. by destruct t. Qed.

Lemma rb_single k d l1 v1 s1 o1 l2 c2 v2 s2 o2 t0 t n N :
  rb (plug (Fr d l1 true v1 s1 o1 :: Fr d l2 c2 v2 s2 o2 :: k) t0) N → rb t0 n → rb t n →
  isred o2 = false →
  rb (plug k (mk d l1 false t v1 s1 (mk d l2 true o1 v2 s2 o2))) N.
Proof.
  intros HN Ht0 Ht Ho2. simpl in HN. destruct (rb_plug_inv _ _ _ HN) as [m Hm].
  eapply rb_plug_replace; [exact HN|exact Hm| |by rewrite isred_mk].
  destruct c2; [apply rb_mk_red in Hm as (_ & _ & Hm & _); by rewrite isred_mk in Hm|].
  apply rb_mk_black in Hm as (m' & -> & Hm & Hr2). apply rb_mk_red in Hm as (Hr0 & Hr1 & _ & Ho1).
  rewrite (rb_fun _ _ _ Ht0 Hr0) in Ht. apply rb_mk_black. exists m'. split_and!; [done..|].
  by apply rb_mk_red.
Qed.

Lemma rb_double k d l1 v1 s1 o1 l2 c2 v2 s2 o2 t0 l w sw X Y n N :
  rb (plug (Fr (negb d) l1 true v1 s1 o1 :: Fr d l2 c2 v2 s2 o2 :: k) t0) N → rb t0 n →
  rb (mk d l true Y w sw X) n → isred o2 = false →
  rb (plug k (mk d l false (mk (negb d) l1 true Y v1 s1 o1) w sw (mk d l2 true X v2 s2 o2))) N.
Proof.
  intros HN Ht0 Ht Ho2. simpl in HN. destruct (rb_plug_inv _ _ _ HN) as [m Hm].
  eapply rb_plug_replace; [exact HN|exact Hm| |by rewrite isred_mk].
  destruct c2; [apply rb_mk_red in Hm as (_ & _ & Hm & _); by rewrite isred_mk in Hm|].
  apply rb_mk_black in Hm as (m' & -> & Hm & Hr2). apply rb_mk_red in Hm as (Hr0 & Hr1 & _ & Ho1).
  rewrite (rb_fun _ _ _ Ht0 Hr0) in Ht. apply rb_mk_red in Ht as (? & ? & ? & ?).
  apply rb_mk_black. exists m'. split_and!; [done|by apply rb_mk_red..].
Qed.

Lemma items_cong d l c c' t t' v s o :
  items t = items t' → items (mk d l c t v s o) = items (mk d l c' t' v s o).
Proof. intros Heq. by rewrite !items_mk, Heq. Qed.

Lemma items_double d l1 c1 v1 s1 o1 l2 c2 v2 s2 o2 l w sw X Y t0 c3 c4 c5 c6 :
  items (mk d l c6 Y w sw X) = items t0 →
  items (mk d l c3 (mk (negb d) l1 c4 Y v1 s1 o1) w sw (mk d l2 c5 X v2 s2 o2)) =
  items (mk d l2 c2 (mk (negb d) l1 c1 t0 v1 s1 o1) v2 s2 o2).
Proof.
  intros Heq. rewrite (items_cong d l2 c2 c2 _ (mk (negb d) l1 c1 (mk d l c6 Y w sw X) v1 s1 o1)).
  - destruct d; simpl; repeat (rewrite <-(assoc_L (++)); simpl); done.
  - symmetry. by apply items_cong.
Qed.

(** The contexts before and after a rotation list the same items, in order. *)
Definition same_sides (k k' : list frame) : Prop := lefts k' = lefts k ∧ rights k' = rights k.

Lemma same_sides_single d l1 c1 v1 s1 o1 l2 c2 v2 s2 o2 k c c' :
  same_sides (Fr d l1 c1 v1 s1 o1 :: Fr d l2 c2 v2 s2 o2 :: k)
    (Fr d l1 c v1 s1 (mk d l2 c' o1 v2 s2 o2) :: k).
Proof. split; destruct d; simpl; by rewrite ?app_nil_r, <-?(assoc_L (++)). Qed.

(** The two ways down from the top of a double rotation. *)
Lemma same_sides_double_p d l1 c1 v1 s1 o1 l2 c2 v2 s2 o2 k l c w sw X c' c3 :
  same_sides (Fr d l c w sw X :: Fr (negb d) l1 c1 v1 s1 o1 :: Fr d l2 c2 v2 s2 o2 :: k)
    (Fr (negb d) l1 c1 v1 s1 o1 :: Fr d l c' w sw (mk d l2 c3 X v2 s2 o2) :: k).
Proof. split; destruct d; simpl; by rewrite ?app_nil_r, <-?(assoc_L (++)). Qed.

Lemma same_sides_double_g d l1 c1 v1 s1 o1 l2 c2 v2 s2 o2 k l c w sw Y c' c3 c4 :
  same_sides (Fr (negb d) l c w sw Y :: Fr (negb d) l1 c1 v1 s1 o1 :: Fr d l2 c2 v2 s2 o2 :: k)
    (Fr d l2 c4 v2 s2 o2 :: Fr (negb d) l c' w sw (mk (negb d) l1 c3 Y v1 s1 o1) :: k).
Proof. split; destruct d; simpl; by rewrite ?app_nil_r, <-?(assoc_L (++)). Qed.

Lemma same_sides_before v k k' : same_sides k k' → before v k → before v k'.
Proof. unfold before. by intros [-> ->]. Qed.

Lemma same_sides_items k k' t t' :
  same_sides k k' → items t' = items t → items (plug k' t') = items (plug k t).
Proof. intros [Hl Hr] Ht. by rewrite !items_plug, Hl, Hr, Ht. Qed.

(** ** The loop *)
Section loop.
Context (hd : loc) (v : Z) (s : string) (I0 : list item) (tr : redBlackTree).
Context (Hv : hash32 v).

Definition loop_ok (n : nat) : Prop := ∀ k t fuel h,
  (sz t < n)%nat → clean h hd k t v I0 → tree h = tr → (2 * sz t + 1 ≤ fuel)%nat →
  wp (insertLoop fuel v s (odir k) (odir (tail k)) (par k) (gpar k) (ggpar hd k) (rootp t) false)
    (insPost hd tr I0 v s) h.

(** A black node with black children: the pointers are exact after it. *)
Lemma calm_black n k lx xa wx sx xb last g gg fuel h :
  loop_ok n → state_ok h hd k (Node lx false xa wx sx xb) v I0 → tree h = tr →
  isred xa = false → isred xb = false → k ≠ [] →
  (∀ f, keepNonNil g gg = ggpar hd (f :: k)) →
  (sz xa + sz xb < n)%nat → (2 * (sz xa + sz xb) + 1 ≤ fuel)%nat →
  wp (insertLoop (S fuel) v s (odir k) last (par k) g gg (Some lx) false) (insPost hd tr I0 v s) h.
Proof.
  intros IH Hok Htr Hra Hrb Hk Hgg Hn Hfuel. pose proof (so_at _ _ _ _ _ _ Hok) as (_ & Hr & _).
  eapply calm_iter; [exact Hr|by rewrite Hra|done|by eapply state_in32|done|..].
  { intros ->. rewrite <-Htr. eapply state_post; [done|]. by eapply state_found. }
  intros d Hd. set (f := Fr d lx false wx sx (if d then xa else xb)).
  rewrite (Hgg f). apply (IH (f :: k)); [|split|done|]; simpl; try done.
  - destruct d; lia.
  - by apply state_down.
  - intros ? ? ? ? ? ? ? [= <- <- <- <- <- <- <-]. destruct d; [by rewrite Hrb|by rewrite Hra].
  - destruct d; lia.
Qed.

(** Below a node whose colours were just flipped. *)
Lemma flip_down n k l a w sw b ma mb dir G fuel h (d : bool) :
  loop_ok n → rb a ma → rb b mb → isred a = true → isred b = true →
  state_ok h hd k (Node l true (paint false a) w sw (paint false b)) v I0 → tree h = tr →
  (k = [] → G = Some hd) → (if d then w < v else v < w) →
  (sz a + sz b ≤ n)%nat → (2 * (sz a + sz b) ≤ fuel)%nat →
  wp (insertLoop fuel v s d dir (Some l) (par k) G
        (rootp (if d then paint false b else paint false a)) false) (insPost hd tr I0 v s) h.
Proof.
  intros IH Hma Hmb Hra Hrb Hok Htr HG Hd Hn Hfuel.
  apply (state_down _ _ _ _ _ _ _ _ _ _ _ d) in Hok; [|done].
  pose proof (sz_paint false a) as Hsa. pose proof (sz_paint false b) as Hsb.
  destruct (paint_kids a _ Hma Hra) as (la & aa & wa & sa & ab & Ea & Haa & Hab).
  destruct (paint_kids b _ Hmb Hrb) as (lb & ba & wb & sb & bb & Eb & Hba & Hbb).
  rewrite Ea in Hok, Hsa |- *. rewrite Eb in Hok, Hsb |- *. simpl in Hsa, Hsb.
  destruct fuel as [|fuel]; [lia|].
  assert (∀ f f', keepNonNil (par k) G = ggpar hd (f' :: f :: k)) as HG'.
  { intros f f'. destruct k as [|[]]; simpl; auto. }
  destruct d; (apply (calm_black n _ _ _ _ _ _ dir (par k) G fuel h IH Hok);
    [done..|by intros; apply HG'|lia|lia]).
Qed.

(** Below the top [l] of a double rotation: the red node [lp], then the black
    child [x] that the flip left. *)
Lemma double_side n k e l w sw o e' lp lx xa wx sx xb vp sp op dir g gg fuel h :
  loop_ok n →
  state_ok h hd (Fr e l false w sw o :: k) (mk e' lp true (Node lx false xa wx sx xb) vp sp op) v I0 →
  tree h = tr → isred xa = false → isred xb = false →
  (if e' then vp < v else v < vp) →
  (sz xa + sz xb < n)%nat → (2 * (sz xa + sz xb) + 1 ≤ fuel)%nat →
  wp (insertLoop (S (S fuel)) v s e dir (Some l) g gg (Some lp) false) (insPost hd tr I0 v s) h.
Proof.
  intros IH Hok Htr Hxa Hxb He' Hn Hfuel. set (k' := Fr e l false w sw o :: k) in *.
  set (x := Node lx false xa wx sx xb) in *.
  assert (mk e' lp true x vp sp op = Node lp true (if e' then op else x) vp sp (if e' then x else op))
    as Hmk by (by destruct e'). rewrite Hmk in Hok.
  pose proof (so_at _ _ _ _ _ _ Hok) as Hat. destruct (so_rb _ _ _ _ _ _ Hok) as [N HN].
  apply rb_plug_inv in HN as [m Hm]. destruct Hm as (_ & _ & Hr1 & Hr2).
  eapply calm_iter; [apply Hat|by rewrite Hr1| |by eapply state_in32|done|..].
  - intros _. by apply (par_isRed h hd k' _ Hat).
  - destruct e'; lia.
  - intros d Hd. assert (d = e') as -> by (destruct d, e'; lia || done).
    apply state_down with (d := e') in Hok; [|done].
    assert ((if e' then if e' then x else op else if e' then op else x) = x) as Hx by (by destruct e').
    rewrite Hx in Hok |- *.
    by apply (calm_black n _ _ _ _ _ _ e (Some l) (keepNonNil g gg) fuel h IH Hok).
Qed.

(** ** State changes by the repair step *)
Lemma state_single h h' k d l1 v1 s1 o1 l2 c2 v2 s2 o2 t0 t n :
  state_ok h hd (Fr d l1 true v1 s1 o1 :: Fr d l2 c2 v2 s2 o2 :: k) t0 v I0 →
  rb t0 n → rb t n → isred o2 = false →
  at_hole h' hd false k (mk d l1 false t v1 s1 (mk d l2 true o1 v2 s2 o2)) →
  items t = items t0 →
  state_ok h' hd (Fr d l1 false v1 s1 (mk d l2 true o1 v2 s2 o2) :: k) t v I0.
Proof.
  intros [Hat [N HN] Hit Hord H32 Hbef] Ht0 Ht Ho2 Hat' Hitems. split; [by apply at_hole_down|..]; try done.
  - exists N. by eapply rb_single.
  - rewrite <-Hit. apply same_sides_items; [apply same_sides_single|done].
  - eapply same_sides_before, Hbef. apply same_sides_single.
Qed.

Lemma state_double_p h h' k d l1 v1 s1 o1 l2 c2 v2 s2 o2 t0 l w sw X Y n :
  state_ok h hd (Fr (negb d) l1 true v1 s1 o1 :: Fr d l2 c2 v2 s2 o2 :: k) t0 v I0 →
  rb t0 n → rb (mk d l true Y w sw X) n → isred o2 = false →
  items (mk d l true Y w sw X) = items t0 → (if d then w < v else v < w) →
  at_hole h' hd false k (mk d l false (mk (negb d) l1 true Y v1 s1 o1) w sw (mk d l2 true X v2 s2 o2)) →
  state_ok h' hd (Fr d l false w sw (mk d l2 true X v2 s2 o2) :: k) (mk (negb d) l1 true Y v1 s1 o1) v I0 ∧
  (if negb d then v1 < v else v < v1).
Proof.
  intros [Hat [N HN] Hit Hord H32 Hbef] Ht0 Ht Ho2 Hitems Hd Hat'.
  pose proof Hord as Hord'. rewrite <-Hit, items_plug, <-Hitems, <-items_plug in Hord'.
  apply ordered_plug, ordered_mk in Hord' as (HordY & HordX & HXY).
  assert (before v (Fr (negb d) l1 true v1 s1 o1 :: Fr d l false w sw (mk d l2 true X v2 s2 o2) :: k)) as Hb.
  { eapply same_sides_before; [eapply (same_sides_double_p _ _ _ _ _ _ _ _ _ _ _ _ _ true)|]. apply before_cons; [exact Hbef|done|].
    destruct d; naive_solver. }
  split; [split; try done; [by rewrite <-at_hole_down|..]|].
  - exists N. by eapply rb_double.
  - rewrite <-Hit, !items_plug, <-Hitems, !items_mk. simpl. rewrite ?items_mk.
    destruct d; simpl; by rewrite ?app_nil_r, <-?(assoc_L (++)).
  - by eapply before_tail.
  - by apply before_head in Hbef.
Qed.

Lemma state_double_g h h' k d l1 v1 s1 o1 l2 c2 v2 s2 o2 t0 l w sw X Y n :
  state_ok h hd (Fr (negb d) l1 true v1 s1 o1 :: Fr d l2 c2 v2 s2 o2 :: k) t0 v I0 →
  rb t0 n → rb (mk d l true Y w sw X) n → isred o2 = false →
  items (mk d l true Y w sw X) = items t0 → (if negb d then w < v else v < w) →
  at_hole h' hd false k (mk d l false (mk (negb d) l1 true Y v1 s1 o1) w sw (mk d l2 true X v2 s2 o2)) →
  state_ok h' hd (Fr (negb d) l false w sw (mk (negb d) l1 true Y v1 s1 o1) :: k)
    (mk d l2 true X v2 s2 o2) v I0 ∧
  (if d then v2 < v else v < v2).
Proof.
  intros [Hat [N HN] Hit Hord H32 Hbef] Ht0 Ht Ho2 Hitems Hd Hat'.
  pose proof Hord as Hord'. rewrite <-Hit, items_plug, <-Hitems, <-items_plug in Hord'.
  apply ordered_plug, ordered_mk in Hord' as (HordY & HordX & HXY).
  assert (before v (Fr d l2 true v2 s2 o2 ::
    Fr (negb d) l false w sw (mk (negb d) l1 true Y v1 s1 o1) :: k)) as Hb.
  { eapply same_sides_before; [eapply (same_sides_double_g _ _ _ _ _ _ _ _ _ _ _ _ _ true)|].
    apply before_cons; [exact Hbef|done|]. destruct d; naive_solver. }
  split; [split; try done; [by rewrite <-at_hole_down, mk_negb|..]|].
  - exists N. simpl. rewrite mk_negb. by eapply rb_double.
  - rewrite <-Hit, !items_plug, <-Hitems, !items_mk. simpl. rewrite ?items_mk.
    destruct d; simpl; by rewrite ?app_nil_r, <-?(assoc_L (++)).
  - by eapply before_tail.
  - by apply before_tail, before_head in Hbef.
Qed.

(** The search ends at a leaf: the new node is inserted there. *)
Lemma loop_leaf n k fuel h :
  clean h hd k Leaf v I0 → tree h = tr → loop_ok n →
  wp (insertLoop (S fuel) v s (odir k) (odir (tail k)) (par k) (gpar k) (ggpar hd k) None false)
    (insPost hd tr I0 v s) h.
Proof.
  intros [Hok Hdeep Hroot _ Huncle] Htr _. destruct k as [|f1 k]; [by destruct (Hroot eq_refl)|].
  pose proof Hok as [Hat [N HN] Hit Hord H32 Hbef].
  assert (I0 = lefts (f1 :: k) ++ rights (f1 :: k)) as HI0 by (by rewrite <-Hit, items_plug).
  apply insert_iter; [done|]. eapply wp_mono.
  { assert (par (f1 :: k) = Some (owner hd (f1 :: k))) as -> by (by destruct f1).
    by apply insertVisit_new. }
  intros r h1 (l & -> & Htr1 & Hat1). simpl fst; simpl snd.
  assert (rb (Node l true Leaf v s Leaf) 0) as Hnew by done.
  assert (∀ k' t' N' h', at_hole h' hd false k' t' → tree h' = tr → rb (plug k' t') N' →
    items (plug k' t') = items (plug (f1 :: k) (Node l true Leaf v s Leaf)) →
    insPost hd tr I0 v s true h') as Hpost.
  { intros k' t' N' h' Ha Ht Hr Hi. exists (plug k' t'). rewrite at_hole_plug in Ha.
    split_and!; [done..|by eauto|]. exists (lefts (f1 :: k)), (rights (f1 :: k)).
    rewrite Hi, items_plug. split_and!; [done|done|apply Hbef..]. }
  destruct (cred (f1 :: k)) eqn:Hc.
  - destruct f1 as [d1 l1 c1 v1 s1 o1]. simpl in Hc. subst c1.
    destruct k as [|[d2 l2 c2 v2 s2 o2] k]; [by specialize (Hdeep eq_refl); simpl in Hdeep; lia|].
    specialize (Huncle _ _ _ _ _ _ _ _ eq_refl eq_refl).
    assert (ggpar hd (Fr d1 l1 true v1 s1 o1 :: Fr d2 l2 c2 v2 s2 o2 :: k) = Some (owner hd k)) as ->
      by (by destruct k as [|[]]). simpl.
    destruct (decide (d1 = d2)) as [->|Hne].
    + eapply wp_mono; [by eapply (insertFix_single _ _ _ _ _ _ _ _ _ _ _ _ _ (Node l true Leaf v s Leaf))|].
      intros _ h2 [Htr2 Hat2]. pose proof Hat2 as Hat3. apply at_hole_down in Hat3.
      destruct Hat3 as (_ & (Hl & _) & _). eexists l, _. split_and!; [done|exact Hl|done|..]; simpl.
      * intros _. eapply Hpost; [done|congruence|by eapply rb_single|].
        rewrite !items_plug. simpl. rewrite !items_mk. destruct d2; simpl; rewrite ?items_mk; simpl;
          by rewrite ?app_nil_r, <-?(assoc_L (++)).
      * intros []; lia.
    + assert (d1 = negb d2) as -> by (by destruct d1, d2).
      assert (Node l true Leaf v s Leaf = mk d2 l true Leaf v s Leaf) as Hmk by (by destruct d2).
      rewrite Hmk in Hat1. eapply wp_mono; [by eapply insertFix_double|].
      intros _ h2 [Htr2 Hat2]. pose proof Hat2 as (_ & (Hl & _)%rep_mk & _).
      eexists l, _. split_and!; [done|exact Hl|by autorewrite with rbnode|..].
      * intros _. eapply Hpost; [done|congruence|eapply rb_double; [done..| |done]; by destruct d2|].
        rewrite !items_plug. simpl. rewrite !items_mk. destruct d2; simpl; rewrite ?items_mk; simpl;
          by rewrite ?app_nil_r, <-?(assoc_L (++)).
      * autorewrite with rbnode. intros []; lia.
  - eapply (insertFix_calm _ _ _ _ _ (Node l true Leaf v s Leaf)); [by destruct Hat1 as (_ & ? & _)|..].
    + intros _. eapply wp_mono; [by eapply par_isRed|]. by rewrite Hc.
    + pose proof Hat1 as (_ & (Hl & _) & _). eexists l, _. split_and!; [done|exact Hl|done|..]; simpl.
      * intros _. eapply (Hpost (f1 :: k)); [done|congruence| |done].
        eapply rb_plug_replace; [exact HN|done|exact Hnew|congruence].
      * intros []; lia.
Qed.

(** What [insert_iter] asks of the state after the repair step, when the node
    visited is [l]. *)
Definition resumes (fuel : nat) (dir : bool) (p g gg : ptr) (l : loc) (h : rbheap) : Prop :=
  ∃ n, nodes h !! l = Some n ∧ hash32 (val n) ∧ (val n = v → insPost hd tr I0 v s false h) ∧
    (∀ d : bool, (if d then val n < v else v < val n) →
       wp (insertLoop fuel v s d dir (Some l) p (keepNonNil g gg) (child_of n d) false) (insPost hd tr I0 v s) h).

Section flip.
Context (n : nat) (l : loc) (a b : rbt) (w : Z) (sw : string) (m : nat) (fuel : nat).
Context (IH : loop_ok n) (Hma : rb a m) (Hmb : rb b m) (Hra : isred a = true) (Hrb : isred b = true).
Context (Hn : (sz a + sz b ≤ n)%nat) (Hfuel : (2 * (sz a + sz b) + 2 ≤ fuel)%nat).

(** The flipped node stays where it is, or goes up by a single rotation. *)
Lemma flip_resumes k dir g gg h :
  state_ok h hd k (Node l true (paint false a) w sw (paint false b)) v I0 → tree h = tr →
  (k = [] → keepNonNil g gg = Some hd) → resumes fuel dir (par k) g gg l h.
Proof using Hv IH Hma Hmb Hra Hrb Hn Hfuel.
  intros Hok Htr HG. pose proof (so_at _ _ _ _ _ _ Hok) as (_ & (Hl & _) & _).
  eexists. split_and!; [exact Hl|by eapply state_in32|..]; simpl.
  - intros Hwv. rewrite <-Htr. eapply state_post; [done|by eapply state_found].
  - intros d Hd.
    assert (child_of (mkNode w sw (rootp (paint false a)) (rootp (paint false b)) true) d
      = rootp (if d then paint false b else paint false a)) as -> by (by destruct d).
    eapply flip_down; [done|exact Hma|exact Hmb|done|done|exact Hok|done|done|done|lia|lia].
Qed.

(** It goes up by a double rotation, between its former parent [l1] and
    grandparent [l2]. *)
Lemma flip_double_resumes h h' k (d : bool) l1 v1 s1 o1 l2 c2 v2 s2 o2 t0 m0 dir g gg p (X Y : rbt) :
  X = (if d then paint false a else paint false b) → Y = (if d then paint false b else paint false a) →
  state_ok h hd (Fr (negb d) l1 true v1 s1 o1 :: Fr d l2 c2 v2 s2 o2 :: k) t0 v I0 →
  rb t0 m0 → rb (mk d l true Y w sw X) m0 → isred o2 = false → items (mk d l true Y w sw X) = items t0 →
  at_hole h' hd false k (mk d l false (mk (negb d) l1 true Y v1 s1 o1) w sw (mk d l2 true X v2 s2 o2)) →
  tree h' = tr → hash32 w → (w = v → v ∈ I0.*1) → resumes fuel dir p g gg l h'.
Proof using Hv IH Hma Hmb Hra Hrb Hn Hfuel.
  intros EX EY Hok Hm0 Hm1 Huncle Hit1 Hat2 Htr2 Hw32 Hfound. pose proof Hok as [_ [N HN] Hit _ _ _].
  pose proof Hat2 as (_ & (Hl & _)%rep_mk & _). rewrite !rootp_mk in Hl.
  eexists. split_and!; [exact Hl|by autorewrite with rbnode|..]; autorewrite with rbnode.
  - intros Hwv. eexists. rewrite at_hole_plug in Hat2.
    split_and!; [done|exact Hat2|exists N; by eapply rb_double| |by apply Hfound].
    rewrite <-Hit. simpl plug. rewrite !items_plug. do 2 f_equal. by eapply items_double.
  - intros d' Hd. pose proof (sz_paint false a) as Hsa. pose proof (sz_paint false b) as Hsb.
    destruct (paint_kids a _ Hma Hra) as (la & aa & wa & sa & ab & Ea & Haa & Hab).
    destruct (paint_kids b _ Hmb Hrb) as (lb & ba & wb & sb & bb & Eb & Hba & Hbb).
    rewrite Ea, Eb in *. simpl in Hsa, Hsb. destruct fuel as [|[|fuel']]; [lia..|].
    destruct (decide (d' = d)) as [->|Hne].
    + autorewrite with rbnode.
      destruct (state_double_p _ _ _ _ _ _ _ _ _ _ _ _ _ _ _ _ _ _ _ _ Hok Hm0 Hm1 Huncle Hit1 Hd Hat2) as [Hok2 Hdir].
      subst Y. destruct d; (eapply double_side; [exact IH|exact Hok2|done|done|done|exact Hdir|lia|lia]).
    + assert (d' = negb d) as -> by (by destruct d', d). autorewrite with rbnode.
      destruct (state_double_g _ _ _ _ _ _ _ _ _ _ _ _ _ _ _ _ _ _ _ _ Hok Hm0 Hm1 Huncle Hit1 Hd Hat2) as [Hok2 Hdir].
      subst X. destruct d; (eapply double_side; [exact IH|exact Hok2|done|done|done|exact Hdir|lia|lia]).
Qed.
End flip.

Lemma resumes_iter fuel dir p g gg l (h : rbheap) :
  resumes fuel dir p g gg l h →
  ∃ l' n, (Some l, false).1 = Some l' ∧ nodes h !! l' = Some n ∧ hash32 (val n) ∧
    (val n = v → insPost hd tr I0 v s (Some l, false).2 h) ∧
    (∀ d : bool, (if d then val n < v else v < val n) →
       wp (insertLoop fuel v s d dir (Some l') p (keepNonNil g gg) (child_of n d) (Some l, false).2)
         (insPost hd tr I0 v s) h).
Proof. intros (n & Hr). by exists l, n. Qed.

(** A black node with two red children is recoloured; under a red parent the
    tree is then rotated. *)
Lemma loop_flip n k l c a w sw b fuel h :
  loop_ok n → clean h hd k (Node l c a w sw b) v I0 → tree h = tr →
  isred a = true → isred b = true → (sz a + sz b ≤ n)%nat → (2 * (sz a + sz b) + 2 ≤ fuel)%nat →
  wp (insertLoop (S fuel) v s (odir k) (odir (tail k)) (par k) (gpar k) (ggpar hd k) (Some l) false)
    (insPost hd tr I0 v s) h.
Proof.
  intros IH [Hok Hdeep Hroot _ Huncle] Htr Hra Hrb Hn Hfuel.
  pose proof Hok as [Hat [N HN] Hit Hord H32 Hbef].
  destruct (rb_plug_inv _ _ _ HN) as [m Hm].
  destruct (rb_flip _ _ _ _ _ _ _ Hm Hra Hrb) as [-> Hm1].
  destruct Hm as (m' & -> & Hma & Hmb). set (t1 := Node l true (paint false a) w sw (paint false b)) in *.
  assert (rb (Node l false a w sw b) (S m')) as Hm by (simpl; eauto).
  assert (items t1 = items (Node l false a w sw b)) as Hit1 by (simpl; by rewrite !items_paint).
  apply insert_iter; [done|]. eapply wp_mono; [by eapply insertVisit_flip|].
  intros r h1 (-> & Htr1 & Hat1). fold t1 in Hat1. destruct (cred k) eqn:Hc.
  2:{ eapply (insertFix_calm _ _ _ _ _ t1); [by destruct Hat1 as (_ & ? & _)|..].
      { intros _. eapply wp_mono; [by eapply par_isRed|]. by rewrite Hc. }
      apply resumes_iter. eapply (flip_resumes n l a b w sw m' fuel IH Hma Hmb Hra Hrb Hn Hfuel k); [|congruence|by intros ->]. split; try done.
      - exists N. eapply rb_plug_replace; [exact HN|exact Hm|exact Hm1|congruence].
      - rewrite <-Hit, !items_plug. by rewrite <-Hit1. }
  destruct k as [|[d1 l1 c1 v1 s1 o1] k]; [done|]. simpl in Hc. subst c1.
  destruct k as [|[d2 l2 c2 v2 s2 o2] k]; [by specialize (Hdeep eq_refl); simpl in Hdeep; lia|].
  specialize (Huncle _ _ _ _ _ _ _ _ eq_refl eq_refl).
  assert (ggpar hd (Fr d1 l1 true v1 s1 o1 :: Fr d2 l2 c2 v2 s2 o2 :: k) = Some (owner hd k)) as ->
    by (by destruct k as [|[]]). simpl odir; simpl par.
  destruct (decide (d1 = d2)) as [->|Hne].
  - eapply wp_mono; [by eapply (insertFix_single _ _ _ _ _ _ _ _ _ _ _ _ _ t1)|].
    intros _ h2 [Htr2 Hat2]. apply resumes_iter.
    pose proof (state_single _ _ _ _ _ _ _ _ _ _ _ _ _ _ t1 _ Hok Hm Hm1 Huncle Hat2 Hit1) as Hok2.
    eapply (flip_resumes n l a b w sw m' fuel IH Hma Hmb Hra Hrb Hn Hfuel _ _ _ _ _ Hok2); [congruence|done].
  - assert (d1 = negb d2) as -> by (by destruct d1, d2).
    assert (t1 = mk d2 l true (if d2 then paint false b else paint false a) w sw
      (if d2 then paint false a else paint false b)) as Hmk by (by destruct d2).
    rewrite Hmk in Hat1, Hm1, Hit1. eapply wp_mono; [by eapply insertFix_double|].
    intros _ h2 [Htr2 Hat2]. apply resumes_iter.
    eapply (flip_double_resumes n l a b w sw m'); try done; try congruence.
    + by eapply state_in32.
    + by eapply state_found.
Qed.

Lemma loop_all n : loop_ok n.
Proof.
  induction n as [|n IH]; intros k t fuel h Hn Hcl Htr Hfuel; [lia|].
  destruct t as [|l c a w sw b]; destruct fuel as [|fuel]; [lia|by eapply loop_leaf|lia|].
  simpl in Hn, Hfuel. destruct (isred a && isred b) eqn:Hkids.
  { apply andb_true_iff in Hkids as [Hra Hrb]. eapply loop_flip; [exact IH|done..|lia|lia]. }
  pose proof Hcl as [Hok _ _ _ _]. pose proof Hok as [Hat [N HN] _ _ _ _].
  eapply calm_iter; [apply Hat|done| |by eapply state_in32|done|..].
  - intros ->. eapply wp_mono; [by eapply par_isRed|]. intros b' h' [-> ->]. split; [|done].
    destruct (cred k) eqn:Hc; [|done]. by eapply rb_plug_cred in HN.
  - intros ->. rewrite <-Htr. eapply state_post; [done|by eapply state_found].
  - intros d Hd. rewrite (ggpar_cons hd (Fr d l c w sw (if d then a else b)) k).
    apply (IH (Fr d l c w sw (if d then a else b) :: k)); [destruct d; lia| |done|destruct d; lia].
    by apply clean_down.
Qed.
End loop.

(** ** [Insert] *)
Lemma ordered_insert (l1 l2 : list item) v s :
  ordered (l1 ++ l2) → Forall (λ x : item, x.1 < v) l1 → Forall (λ x : item, v < x.1) l2 →
  ordered (l1 ++ (v, s) :: l2).
Proof.
  rewrite !ordered_app, !Forall_forall. intros (H1 & H2 & H3) Hl Hr. split_and!; [done|..].
  - constructor; [done|]. by apply Forall_forall.
  - intros x y Hx [->|Hy]%elem_of_cons; [by apply Hl|by apply H3].
Qed.

Lemma inv_initial_clean h h' hd t l c a w sw b v :
  rb_inv h t → t = Node l c a w sw b → at_hole h' hd false [] t →
  clean h' hd [] t v (items t).
Proof.
  intros [] -> Hat. split; [split|..]; simpl; done.
Qed.

Definition insert_rel (v : Z) (s : string) (I I' : list item) (r : bool) : Prop :=
  if r then ∃ l1 l2, I = l1 ++ l2 ∧ I' = l1 ++ (v, s) :: l2 ∧
         Forall (λ x : item, x.1 < v) l1 ∧ Forall (λ x : item, v < x.1) l2
  else I' = I ∧ v ∈ I.*1.

Lemma insert_finish h h' hd t v s r :
  rb_inv h t → hash32 v → insPost hd (tree h) (items t) v s r h' →
  ∃ l, wp (hd ← load (Some hd); setRoot (right hd);; mret r)
    (λ r' h1, r' = r ∧ root (tree h1) = Some l ∧
       wp (setRed (Some l) false;; (if r then addSize 1 else mret tt);; mret r)
         (λ r' h2, r' = r ∧ ∃ t', rb_inv h2 t' ∧ insert_rel v s (items t) (items t') r) h1) h'.
Proof.
  intros Hinv Hv (T & Htr & (Hhd & Hrep & Hnot & Hnd)%at_hole_nil & [N HN] & Hr).
  assert (ordered (items T) ∧ Forall (λ x : item, hash32 x.1) (items T) ∧
    sz T = (sz t + if r then 1 else 0)%nat) as (HordT & H32T & HszT).
  { destruct Hinv. rewrite !sz_length. destruct r.
    - destruct Hr as (l1 & l2 & HI & -> & H1 & H2). rewrite HI in *. split_and!.
      + by apply ordered_insert.
      + rewrite !Forall_app in *. naive_solver.
      + rewrite !length_app. simpl. lia.
    - destruct Hr as [-> _]. split_and!; [done..|lia]. }
  destruct T as [|l c a w sw b].
  { destruct r; [destruct Hr as (l1 & ? & _ & Heq & _); by destruct l1|].
    destruct Hr as [<- Hin]. by apply elem_of_nil in Hin. }
  exists l. apply wp_bind. eapply wp_load; [exact Hhd|]. apply wp_bind, wp_modify, wp_ret.
  split_and!; [done..|]. apply wp_bind. eapply wp_setRed; [apply Hrep|]. simpl.
  pose proof (inv_sz_bound _ _ Hinv) as Hb.
  assert (∀ tr', root tr' = Some l → size tr' = Z.of_nat (sz t + if r then 1 else 0) →
    rb_inv (mkHeap (<[l := mkNode w sw (rootp a) (rootp b) false]> (nodes h')) tr')
      (paint false (Node l c a w sw b))) as Hfin.
  { intros tr' Hroot Hsize. split; simpl; try done.
    - by apply (rep_paint _ _ false l _ Hrep eq_refl (proj1 Hrep)).
    - destruct c; simpl in HN; [|eauto]. exists (S N), N. naive_solver.
    - simpl in HszT. rewrite Hsize. f_equal. simpl. lia. }
  destruct r; simpl.
  - apply wp_bind, wp_modify, wp_ret. split; [done|].
    eexists. split; [apply Hfin; simpl; [done|]|exact Hr].
    rewrite Htr, (inv_size _ _ Hinv). unfold int64. rewrite Z.mod_small; lia.
  - split; [done|]. eexists. split; [apply Hfin; simpl; [done|]|exact Hr].
    rewrite Htr, (inv_size _ _ Hinv). lia.
Qed.

(** [Insert] on the tree level: it keeps the invariant, adds the item exactly
    when its key is new, and reports which. *)
Lemma Insert_spec h t v s :
  rb_inv h t → hash32 v →
  wp (Insert v s) (λ r h', ∃ t', rb_inv h' t' ∧ insert_rel v s (items t) (items t') r) h.
Proof.
  intros Hinv Hv. unfold Insert. apply wp_bind, wp_gets. pose proof Hinv as [Hrep Hroot Hnd Hord H32 Hrb Hbl Hsz].
  rewrite Hroot. destruct t as [|l c a w sw b]; simpl rootp.
  - apply wp_bind. apply wp_bind, wp_alloc. intros l Hl. apply wp_bind, wp_modify, wp_ret.
    apply wp_bind, wp_gets. simpl. apply wp_bind. eapply wp_setRed; [simpl; by simplify_map_eq|]. simpl.
    apply wp_bind, wp_modify, wp_ret. exists (Node l false Leaf v s Leaf). split; [split; simpl|].
    + by simplify_map_eq.
    + done.
    + apply NoDup_singleton.
    + by repeat constructor.
    + by apply Forall_singleton.
    + by exists 1%nat, 0%nat.
    + done.
    + rewrite Hsz. done.
    + by exists [], [].
  - apply wp_bind. apply wp_bind, wp_alloc. intros hd Hhd.
    apply wp_bind. eapply wp_setChild; [simpl; by simplify_map_eq|]. simpl.
    rewrite insert_insert_eq. apply wp_bind. unfold get at 1. simpl.
    set (h1 := mkHeap _ _). apply wp_bind.
    assert (at_hole h1 hd false [] (Node l c a w sw b)) as Hat.
    { apply at_hole_nil. assert (hd ∉ locs (Node l c a w sw b)) as Hnot.
      { intros Hin. apply Hhd. by eapply rep_dom. }
      split_and!; [simpl; by simplify_map_eq|by apply rep_insert_ne|done|done]. }
    pose proof (loop_all hd v s (items (Node l c a w sw b)) (tree h) Hv
      (S (sz (Node l c a w sw b))) [] (Node l c a w sw b)) as Hloop.
    eapply wp_mono; [apply Hloop; [lia| |done|]|].
    + by eapply inv_initial_clean.
    + apply at_hole_nil in Hat as (_ & Hr1 & _ & Hnd1). pose proof (rep_size _ _ Hr1 Hnd1).
      unfold h1 in *. simpl in *. lia.
    + intros r h2 Hpost. destruct (insert_finish _ _ _ _ _ _ _ Hinv Hv Hpost) as (l' & Hfin).
      eapply wp_mono; [exact Hfin|]. intros r' h3 (-> & Hroot3 & Hwp).
      apply wp_bind, wp_gets. rewrite Hroot3. eapply wp_mono; [exact Hwp|].
      intros r' h4 (-> & t' & ? & ?). eauto.
Qed.
