(* ===== verification/RBPush.v ===== *)
(** * RBPush: pushing a red node down during [Delete]

    [deleteLoop] walks down to the in-order predecessor of the node to delete,
    pushing a red node ahead of itself so that the node unlinked at the end is
    red (or the root).  The invariant is [pushed]: the current node or its
    next child is red, the fake root counting as red.  Items are tracked with
    their locations ([litems]), because the loop remembers the found node by
    its pointer while rotations move it. *)
From S2P Require Import Prelude GoStd TreeIface RBTree RBRep RBInsert.
#[local] Open Scope Z_scope.

(** ** Items with their locations *)
Fixpoint litems (t : rbt) : list (loc * item) :=
  match t with Leaf => [] | Node l _ a v s b => litems a ++ (l, (v, s)) :: litems b end.
Fixpoint llefts (k : list frame) : list (loc * item) :=
  match k with
  | [] => []
  | Fr d l _ v s o :: k => llefts k ++ (if d then litems o ++ [(l, (v, s))] else [])
  end.
Fixpoint lrights (k : list frame) : list (loc * item) :=
  match k with
  | [] => []
  | Fr d l _ v s o :: k => (if d then [] else (l, (v, s)) :: litems o) ++ lrights k
  end.

Lemma litems_items t : (litems t).*2 = items t.
Proof. induction t as [|? ? ? IHa ? ? ? IHb]; simpl; [done|]. by rewrite fmap_app, fmap_cons, IHa, IHb. Qed.
Lemma llefts_lefts k : (llefts k).*2 = lefts k.
Proof.
  induction k as [|[[] ? ? ? ? o] k IH]; simpl; [done|..]; by rewrite ?fmap_app, ?litems_items, IH.
Qed.
Lemma lrights_rights k : (lrights k).*2 = rights k.
Proof.
  induction k as [|[[] ? ? ? ? o] k IH]; simpl; [done|..];
    by rewrite ?fmap_app, ?fmap_cons, ?litems_items, IH.
Qed.
Lemma litems_mk d l c t v s o :
  litems (mk d l c t v s o) =
    (if d then litems o ++ [(l, (v, s))] else []) ++ litems t ++
    (if d then [] else (l, (v, s)) :: litems o).
Proof. destruct d; simpl; by rewrite ?app_nil_r, <-?(assoc_L (++)). Qed.
Lemma litems_plug k t : litems (plug k t) = llefts k ++ litems t ++ lrights k.
Proof.
  revert t. induction k as [|[d l c v s o] k IH]; intros t; simpl.
  - by rewrite app_nil_r.
  - rewrite IH, litems_mk. by rewrite <-!(assoc_L (++)).
Qed.
Lemma litems_paint c t : litems (paint c t) = litems t.
Proof. by destruct t. Qed.

(** Two contexts around the same hole with the same located items. *)
Definition lsame (k k' : list frame) : Prop := llefts k' = llefts k ∧ lrights k' = lrights k.

(** ** The invariant of the walk *)
Definition pushed (k : list frame) (t : rbt) : Prop :=
  k = [] ∨ cred k = true ∨ isred t = true ∨
  (∃ d l v s o, k = [Fr d l false v s o] ∧ isred o = false).

(** What one rebalancing step must achieve, seen from the node [l] just
    visited: its context may have changed, its subtree on side [d] has not. *)
Definition pushPost (h : rbheap) (hd : loc) (k : list frame) (d : bool) (l : loc) (c : bool)
    (w : Z) (sw : string) (X Z' : rbt) (p : ptr) (h' : rbheap) : Prop :=
  ∃ c' o k', tree h' = tree h ∧ at_hole h' hd true (Fr d l c' w sw o :: k') X ∧
    p = Some (owner hd k') ∧ (∃ N, rb (plug (Fr d l c' w sw o :: k') X) N) ∧
    pushed (Fr d l c' w sw o :: k') X ∧
    lsame (Fr d l c w sw Z' :: k) (Fr d l c' w sw o :: k').

Ltac lists := repeat (rewrite <-(assoc_L (++)) || rewrite app_nil_r || simpl); try done.

(** The two colour tests at the head of [pushRed]. *)
Lemma pushRed_calm h d last g p l c X w sw Z' (Q : ptr → rbheap → Prop) :
  rep (nodes h) (mk d l c X w sw Z') → c || isred X = true → Q p h →
  wp (pushRed d last g p (Some l)) Q h.
Proof.
  intros (Hl & HX & HZ)%rep_mk Hcalm HQ. unfold pushRed. apply wp_bind.
  eapply wp_isRed_at; [done|]. autorewrite with rbnode. do 2 rb_step. apply wp_bind.
  destruct c; simpl in *; [done|]. eapply wp_isRed; [done|]. by rewrite Hcalm.
Qed.

Lemma pushRed_tests h d last g p l X w sw Z' (Q : ptr → rbheap → Prop) :
  rep (nodes h) (mk d l false X w sw Z') → isred X = false →
  wp (if isred Z' then sr ← singleRotate (Some l) d; setChild p last sr;; mret sr
      else sibling ← Child p (negb last);
           match sibling with
           | None => mret p
           | Some _ => pushSibling last g p (Some l) sibling;; mret p
           end) Q h →
  wp (pushRed d last g p (Some l)) Q h.
Proof.
  intros (Hl & HX & HZ)%rep_mk Hred HQ. unfold pushRed. apply wp_bind.
  eapply wp_isRed_at; [done|]. autorewrite with rbnode. do 2 rb_step. apply wp_bind.
  eapply wp_isRed; [done|]. rewrite Hred. do 2 rb_step. apply wp_bind.
  by eapply wp_isRed.
Qed.

(** ** The far child is red: rotate it above the node *)
Lemma push_rotate h hd k d l X w sw lo Oi vo so Oo N :
  at_hole h hd true k (mk d l false X w sw (mk d lo true Oi vo so Oo)) →
  rb (plug k (mk d l false X w sw (mk d lo true Oi vo so Oo))) N → isred X = false →
  wp (sr ← singleRotate (Some l) d; setChild (Some (owner hd k)) (odir k) sr;; mret sr)
    (pushPost h hd k d l false w sw X (mk d lo true Oi vo so Oo)) h.
Proof.
  intros Hat HN HX. pose proof (at_hole_nodup _ _ _ _ _ Hat) as Hnd. rewrite !locs_mk in Hnd.
  pose proof (owner_notin _ _ _ _ _ Hat) as Hnot. rewrite !locs_mk in Hnot.
  pose proof Hat as (Hk & Ht & _). rewrite rep_mk, rep_mk, rootp_mk in Ht.
  destruct Ht as (Hl & HrX & Hlo & HrOi & HrOo).
  destruct (repc_owner _ _ _ _ _ Hk) as (n & Hn & Hch). simpl in Hnd. split_nodup.
  apply wp_bind. rewrite <-(Bool.negb_involutive d) at 1. rewrite <-fnode_negb in Hl.
  eapply singleRotate_spec; [|exact Hl|rewrite Bool.negb_involutive; exact Hlo|]; [done|].
  rewrite Bool.negb_involutive. intros h' Htree Hoff Hl' Hlo'.
  assert (nodes h' !! owner hd k = Some n) as Hn' by (rewrite Hoff; [done|apart]).
  do 3 rb_step. rewrite fnode_negb in Hl'.
  exists true, Oi, (Fr d lo false vo so Oo :: k). split_and!; [done| |done|..].
  - rewrite <-!at_hole_down. eapply at_hole_replace; [exact Hat|exact Hn|..]; simpl.
    + rewrite rootp_mk. by simplify_map_eq.
    + rewrite !rep_mk, rootp_mk.
      split_and!; try (rewrite lookup_insert_ne; [done|apart]);
        (eapply rep_same; [eassumption|]; intros x Hx;
         rewrite lookup_insert_ne, Hoff; [done|apart..]).
    + rewrite !locs_mk. simpl. solve_Permutation.
    + intros x Hx. rewrite !locs_mk in Hx. simpl in Hx. split_nodup.
      rewrite lookup_insert_ne, Hoff; [done|apart..].
  - exists N. simpl. destruct (rb_plug_inv _ _ _ HN) as [m Hm].
    eapply rb_plug_replace; [exact HN|exact Hm| |by rewrite isred_mk].
    apply rb_mk_black in Hm as (m' & -> & HmX & (? & ? & ? & ?)%rb_mk_red).
    apply rb_mk_black. exists m'. split_and!; [done| |done]. by apply rb_mk_red.
  - right; left. done.
  - split; destruct d; lists.
Qed.

(** ** The sibling lends a red node *)
Lemma set_link_id d p n : child_of n d = p → set_link d p n = n.
Proof. intros <-. by destruct d, n. Qed.

(** Replacing the subtree at the parent [lp]: its black height may drop by one
    when [lp] is the (black) root. *)
Lemma rb_up k last lp cp t vp sp o T n N :
  rb (plug k (mk last lp cp t vp sp o)) N → cp = true ∨ k = [] → rb t n → rb T n →
  ∃ N', rb (plug k T) N'.
Proof.
  intros HN Hcp Ht HT. destruct (rb_plug_inv _ _ _ HN) as [m Hm].
  destruct cp; [|destruct Hcp as [?| ->]; [done|by exists n]].
  exists N. pose proof Hm as (Hmt & _)%rb_mk_red.
  rewrite (rb_fun _ _ _ Hmt Ht) in *.
  eapply rb_plug_replace; [exact HN|exact Hm|done|].
  intros Hc. pose proof (rb_plug_cred _ _ _ HN Hc) as H. by rewrite isred_mk in H.
Qed.

Lemma push_flip h hd k d l X w sw Z' last lp cp vp sp ls Oi vs ss Oo N :
  at_hole h hd true (Fr last lp cp vp sp (mk last ls false Oi vs ss Oo) :: k) (mk d l false X w sw Z') →
  rb (plug (Fr last lp cp vp sp (mk last ls false Oi vs ss Oo) :: k) (mk d l false X w sw Z')) N →
  cp = true ∨ k = [] →
  isred X = false → isred Z' = false → isred Oi = false → isred Oo = false →
  wp (setRed (Some lp) false;; setRed (Some ls) true;; setRed (Some l) true)
    (λ _, pushPost h hd (Fr last lp cp vp sp (mk last ls false Oi vs ss Oo) :: k) d l false w sw X Z'
            (Some lp)) h.
Proof.
  intros Hat HN Hcp HX HZ HOi HOo. pose proof Hat as Hat2. rewrite <-at_hole_down in Hat2.
  pose proof (at_hole_nodup _ _ _ _ _ Hat2) as Hnd. rewrite !locs_mk in Hnd.
  pose proof (owner_notin _ _ _ _ _ Hat2) as Hnot. rewrite !locs_mk in Hnot.
  pose proof Hat as ((Hlp & Ho & Hk) & Ht & _). rewrite !rootp_mk in Hlp.
  apply rep_mk in Ht as (Hl & HrX & HrZ). apply rep_mk in Ho as (Hls & HrOi & HrOo).
  destruct (repc_owner _ _ _ _ _ Hk) as (n & Hn & Hch).
  assert (l ≠ ls ∧ (ls ∉ locs X ++ locs Z') ∧ (l ∉ locs Oi ++ locs Oo)) as (? & ? & ?).
  { simpl in Hnd. apply NoDup_cons in Hnd as [_ Hnd]. clear -Hnd.
    rewrite app_comm_cons in Hnd. apply NoDup_app in Hnd as (_ & Hnd & _). set_solver. }
  simpl in Hnd. split_nodup. do 5 rb_step.
  exists true, Z', (Fr last lp false vp sp (mk last ls true Oi vs ss Oo) :: k).
  split_and!; [done| |done|..].
  - rewrite <-!at_hole_down. eapply at_hole_replace; [exact Hat2|exact Hn|..]; simpl.
    + rewrite rootp_mk, set_link_id by done. by rewrite !lookup_insert_ne by apart.
    + rewrite !rep_mk, !rootp_mk.
      split_and!; try (by simplify_map_eq);
        (repeat (apply rep_insert_ne; [apart|]); done).
    + by rewrite !locs_mk.
    + intros x Hx. rewrite !locs_mk in Hx. simpl in Hx. split_nodup.
      by rewrite !lookup_insert_ne by apart.
  - simpl in HN |- *. destruct (rb_plug_inv _ _ _ HN) as [m Hm].
    assert (∃ n', rb X n' ∧ rb Z' n' ∧ rb Oi n' ∧ rb Oo n') as (n' & ? & ? & ? & ?).
    { destruct cp; [apply rb_mk_red in Hm as (Ht & Ho & _)|apply rb_mk_black in Hm as (? & -> & Ht & Ho)];
        apply rb_mk_black in Ht as (? & -> & ? & ?); apply rb_mk_black in Ho as (? & [= <-] & ? & ?); eauto. }
    eapply rb_up; [exact HN|done| |]; rewrite rb_mk_black; exists n'; [done|].
    split_and!; [done|by apply rb_mk_red..].
  - right; left. done.
  - split; destruct last, d; lists.
Qed.

(** The nodes that are recoloured are apart from each other and from the rest. *)
Lemma recolor_apart (lt lp l lB : loc) (LX LZ LO LB : list loc) :
  NoDup (lt :: (lp :: (l :: LX ++ LZ) ++ LO) ++ LB) → lB ∈ LB →
  (NoDup LB ∧ (lB ∉ [lt; lp; l]) ∧ (lB ∉ LX ++ LZ ++ LO) ∧ (lt ∉ LB) ∧ (lp ∉ LB) ∧ (l ∉ LB)) ∧
  lt ≠ lp ∧ lt ≠ l ∧ lp ≠ l ∧ (lt ∉ LX ++ LZ ++ LO) ∧ (lp ∉ LX ++ LZ ++ LO) ∧ (l ∉ LX ++ LZ ++ LO).
Proof.
  intros Hnd HlB. split.
  - apply NoDup_cons in Hnd as [Hlt Hnd]. apply NoDup_app in Hnd as (? & Hd & ?). split_and!; [done|set_solver..].
  - simpl in Hnd. rewrite !NoDup_cons in Hnd. rewrite !elem_of_app in *. set_solver.
Qed.

(** A store that differs in the colours of these nodes holds the recoloured tree. *)
Lemma recolored_hole h m' hd k last lt ct lp cp d l c X w sw Z' vp sp Oi vt st B lB nB :
  at_hole h hd true k (mk last lt ct (mk last lp cp (mk d l c X w sw Z') vp sp Oi) vt st B) →
  rootp B = Some lB → nodes h !! lB = Some nB →
  m' !! lt = Some (fnode last true vt st (Some lp) (Some lB)) →
  m' !! lp = Some (fnode last false vp sp (Some l) (rootp Oi)) →
  m' !! l = Some (fnode d true w sw (rootp X) (rootp Z')) →
  m' !! lB = Some (mkNode (val nB) (str nB) (left nB) (right nB) false) →
  (∀ x, x ∉ [lt; lp; l; lB] → m' !! x = nodes h !! x) →
  at_hole (mkHeap m' (tree h)) hd true k
    (mk last lt true (mk last lp false (mk d l true X w sw Z') vp sp Oi) vt st (paint false B)).
Proof.
  intros Hat HB HnB Hlt' Hlp' Hl' HlB' Hoth. pose proof (at_hole_nodup _ _ _ _ _ Hat) as Hnd. rewrite !locs_mk in Hnd.
  pose proof (owner_notin _ _ _ _ _ Hat) as Hnot. rewrite !locs_mk in Hnot. pose proof (rootp_in _ _ HB) as HlBin.
  destruct (recolor_apart _ _ _ _ _ _ _ _ Hnd HlBin) as [(? & ? & ? & ? & ? & ?) (? & ? & ? & ? & ? & ?)].
  pose proof Hat as (Hk & Ht & _). rewrite !rep_mk, !rootp_mk in Ht.
  destruct Ht as (Hlt & (Hlp & (Hl & HrX & HrZ) & HrOi) & HrB). rewrite rootp_mk in Hk.
  destruct (repc_owner _ _ _ _ _ Hk) as (n & Hn & Hch).
  assert (∀ L, L ⊆ locs X ++ locs Z' ++ locs Oi → ∀ x, x ∈ L → m' !! x = nodes h !! x) as Hrest.
  { intros L HL x Hx%HL. apply Hoth. set_solver. }
  eapply at_hole_replace; [exact Hat|exact Hn|..]; simpl.
  - rewrite rootp_mk, set_link_id by done. rewrite Hoth; [done|]. set_solver.
  - rewrite !rep_mk, !rootp_mk, rootp_paint, HB.
    split_and!; [done|done|done|eapply rep_same; [eassumption|]; apply Hrest; set_solver..|].
    eapply rep_same; [by apply (rep_paint _ _ false lB nB HrB)|]. rewrite locs_paint. intros x Hx.
    destruct (decide (x = lB)) as [->|]; [by simplify_map_eq|]. rewrite lookup_insert_ne by done. apply Hoth. set_solver.
  - by rewrite !locs_mk, locs_paint.
  - intros x Hx. rewrite !locs_mk in Hx. apply Hoth. set_solver.
Qed.

(** The recolouring after either rotation: [lt] is the new top, [l] the
    current node, [B] the subtree on the far side. *)
Lemma push_recolor h hd k last lt ct lp cp d l c X w sw Z' vp sp Oi vt st B lB :
  at_hole h hd true k (mk last lt ct (mk last lp cp (mk d l c X w sw Z') vp sp Oi) vt st B) →
  rootp B = Some lB →
  wp (gpc ← Child (Some (owner hd k)) (odir k);
      setRed gpc true;;
      setRed (Some l) true;;
      gn ← load gpc;
      setRed (left gn) false;;
      setRed (right gn) false)
    (λ _ h', tree h' = tree h ∧
       at_hole h' hd true k
         (mk last lt true (mk last lp false (mk d l true X w sw Z') vp sp Oi) vt st (paint false B))) h.
Proof.
  intros Hat HB. pose proof (at_hole_nodup _ _ _ _ _ Hat) as Hnd. rewrite !locs_mk in Hnd.
  pose proof (rootp_in _ _ HB) as HlBin.
  destruct (recolor_apart _ _ _ _ _ _ _ _ Hnd HlBin) as [(? & ? & ? & ? & ? & ?) (? & ? & ? & ? & ? & ?)].
  pose proof Hat as (Hk & Ht & _). rewrite !rep_mk, !rootp_mk in Ht.
  destruct Ht as (Hlt & (Hlp & (Hl & _) & _) & HrB). rewrite rootp_mk in Hk.
  destruct (repc_owner _ _ _ _ _ Hk) as (n & Hn & Hch). destruct (rep_root _ _ _ HrB HB) as [nB HnB].
  assert (lB ≠ lt ∧ lB ≠ lp ∧ lB ≠ l) as (? & ? & ?) by set_solver.
  do 2 rb_step. rewrite Hch. do 6 rb_step. set (m2 := <[l := _]> (<[lt := _]> (nodes h))).
  assert (m2 !! lt = Some (fnode last true vt st (Some lp) (Some lB))) as Hlt2.
  { unfold m2. simplify_map_eq. by rewrite HB. }
  assert (m2 !! lp = Some (fnode last cp vp sp (Some l) (rootp Oi))) as Hlp2 by (unfold m2; by simplify_map_eq).
  assert (m2 !! lB = Some nB) as HlB2 by (unfold m2; by simplify_map_eq).
  assert (m2 !! l = Some (fnode d true w sw (rootp X) (rootp Z'))) as Hl2 by (unfold m2; by simplify_map_eq).
  assert (∀ x, x ∉ [lt; lp; l; lB] → m2 !! x = nodes h !! x) as Hoth.
  { intros x Hx. unfold m2. rewrite !lookup_insert_ne by set_solver. done. }
  clearbody m2. rb_step. rewrite HB.
  destruct last; simpl; do 2 rb_step; (split; [done|]);
    (eapply (recolored_hole h _ hd k _ lt ct lp cp d l c X w sw Z' vp sp Oi vt st B lB nB Hat HB HnB));
    try (by simplify_map_eq); intros x Hx; rewrite !lookup_insert_ne by set_solver; by apply Hoth.
Qed.
(** The two rotations at the parent, seen as tree surgery. *)
Lemma push_lift_single h hd k last lp cp U vp sp ls cs Oi vs ss Oo :
  at_hole h hd true k (mk last lp cp U vp sp (mk last ls cs Oi vs ss Oo)) →
  wp (t ← singleRotate (Some lp) last; setChild (Some (owner hd k)) (odir k) t)
    (λ _ h', tree h' = tree h ∧
       at_hole h' hd true k (mk last ls false (mk last lp true U vp sp Oi) vs ss Oo)) h.
Proof.
  intros Hat. pose proof (at_hole_nodup _ _ _ _ _ Hat) as Hnd. rewrite !locs_mk in Hnd.
  pose proof (owner_notin _ _ _ _ _ Hat) as Hnot. rewrite !locs_mk in Hnot.
  pose proof Hat as (Hk & Ht & _). rewrite !rep_mk, !rootp_mk in Ht.
  destruct Ht as (Hlp & HrU & Hls & HrOi & HrOo).
  destruct (repc_owner _ _ _ _ _ Hk) as (n & Hn & Hch). simpl in Hnd. split_nodup.
  apply wp_bind. rewrite <-(Bool.negb_involutive last) at 1. rewrite <-fnode_negb in Hlp.
  eapply singleRotate_spec; [|exact Hlp|rewrite Bool.negb_involutive; exact Hls|]; [done|].
  rewrite Bool.negb_involutive. intros h' Htree Hoff Hlp' Hls'. rewrite fnode_negb in Hlp'.
  assert (nodes h' !! owner hd k = Some n) as Hn' by (rewrite Hoff; [done|apart]).
  rb_step. split; [done|]. eapply at_hole_replace; [exact Hat|exact Hn|..]; simpl.
  - rewrite rootp_mk. by simplify_map_eq.
  - rewrite !rep_mk, !rootp_mk.
    split_and!; try (rewrite lookup_insert_ne; [done|apart]);
      (eapply rep_same; [eassumption|]; intros x Hx;
       rewrite lookup_insert_ne, Hoff; [done|apart..]).
  - rewrite !locs_mk. simpl. solve_Permutation.
  - intros x Hx. rewrite !locs_mk in Hx. simpl in Hx. split_nodup.
    rewrite lookup_insert_ne, Hoff; [done|apart..].
Qed.

Lemma push_lift_double h hd k last lp cp U vp sp ls cs li ci Xi vi si Yi vs ss Oo :
  at_hole h hd true k (mk last lp cp U vp sp (mk last ls cs (mk last li ci Xi vi si Yi) vs ss Oo)) →
  wp (t ← doubleRotate (Some lp) last; setChild (Some (owner hd k)) (odir k) t)
    (λ _ h', tree h' = tree h ∧
       at_hole h' hd true k
         (mk last li false (mk last lp true U vp sp Xi) vi si (mk last ls true Yi vs ss Oo))) h.
Proof.
  intros Hat. pose proof (at_hole_nodup _ _ _ _ _ Hat) as Hnd. rewrite !locs_mk in Hnd.
  pose proof (owner_notin _ _ _ _ _ Hat) as Hnot. rewrite !locs_mk in Hnot.
  pose proof Hat as (Hk & Ht & _). rewrite !rep_mk, !rootp_mk in Ht.
  destruct Ht as (Hlp & HrU & Hls & (Hli & HrXi & HrYi) & HrOo).
  destruct (repc_owner _ _ _ _ _ Hk) as (n & Hn & Hch). simpl in Hnd. split_nodup.
  apply wp_bind. rewrite <-(Bool.negb_involutive last) at 1.
  rewrite <-fnode_negb in Hlp. rewrite <-fnode_negb in Hli.
  eapply doubleRotate_spec; [|exact Hlp|rewrite Bool.negb_involutive; exact Hls|exact Hli|].
  { rewrite !NoDup_cons. split_and!; try apart. constructor. }
  rewrite Bool.negb_involutive. intros h' Htree Hoff Hlp' Hls' Hli'.
  rewrite fnode_negb in Hlp'. rewrite fnode_negb in Hli'.
  assert (nodes h' !! owner hd k = Some n) as Hn' by (rewrite Hoff; [done|apart]).
  rb_step. split; [done|]. eapply at_hole_replace; [exact Hat|exact Hn|..]; simpl.
  - rewrite rootp_mk. by simplify_map_eq.
  - rewrite !rep_mk, !rootp_mk.
    split_and!; try (rewrite lookup_insert_ne; [done|apart]);
      (eapply rep_same; [eassumption|]; intros x Hx;
       rewrite lookup_insert_ne, Hoff; [done|apart..]).
  - rewrite !locs_mk. simpl. solve_Permutation.
  - intros x Hx. rewrite !locs_mk in Hx. simpl in Hx. split_nodup.
    rewrite lookup_insert_ne, Hoff; [done|apart..].
Qed.

(** After the recolouring the walk may go on below [l]. *)
Lemma push_finish h h' hd k d l X w sw Z' last lp cp vp sp o lt Oi vt st B N n :
  tree h' = tree h →
  at_hole h' hd true k (mk last lt true (mk last lp false (mk d l true X w sw Z') vp sp Oi) vt st B) →
  rb (plug (Fr last lp cp vp sp o :: k) (mk d l false X w sw Z')) N →
  cp = true ∨ k = [] →
  rb X n → rb Z' n → isred X = false → isred Z' = false →
  rb Oi n → rb B (S n) → isred B = false →
  (if last then litems o = litems B ++ (lt, (vt, st)) :: litems Oi
   else litems o = litems Oi ++ (lt, (vt, st)) :: litems B) →
  pushPost h hd (Fr last lp cp vp sp o :: k) d l false w sw X Z' (Some lp) h'.
Proof.
  intros Ht Hat HN Hcp HX HZ HrX HrZ HOi HB HrB Hit.
  exists true, Z', (Fr last lp false vp sp Oi :: Fr last lt true vt st B :: k).
  split_and!; [done|by rewrite <-!at_hole_down|done| |by right; left|].
  - simpl in HN |- *. eapply rb_up; [exact HN|done| |].
    + apply rb_mk_black. by exists n.
    + apply rb_mk_red. rewrite isred_mk. split_and!; [|done..].
      apply rb_mk_black. exists n. split_and!; [done| |done]. by apply rb_mk_red.
  - split; destruct last, d; simpl; rewrite ?Hit; lists.
Qed.

Lemma push_sibling h hd k d l X w sw Z' last lp cp vp sp ls Oi vs ss Oo N :
  at_hole h hd true (Fr last lp cp vp sp (mk last ls false Oi vs ss Oo) :: k) (mk d l false X w sw Z') →
  rb (plug (Fr last lp cp vp sp (mk last ls false Oi vs ss Oo) :: k) (mk d l false X w sw Z')) N →
  cp = true ∨ k = [] →
  isred X = false → isred Z' = false →
  wp (pushSibling last (Some (owner hd k)) (Some lp) (Some l) (Some ls))
    (λ _, pushPost h hd (Fr last lp cp vp sp (mk last ls false Oi vs ss Oo) :: k) d l false w sw X Z'
            (Some lp)) h.
Proof.
  intros Hat HN Hcp HX HZ.
  assert (∃ n', rb X n' ∧ rb Z' n' ∧ rb Oi n' ∧ rb Oo n') as (n' & HbX & HbZ & HbOi & HbOo).
  { simpl in HN. destruct (rb_plug_inv _ _ _ HN) as [m Hm].
    destruct cp; [apply rb_mk_red in Hm as (Ht & Ho & _)|apply rb_mk_black in Hm as (? & -> & Ht & Ho)];
      apply rb_mk_black in Ht as (? & -> & ? & ?); apply rb_mk_black in Ho as (? & [= <-] & ? & ?); eauto. }
  pose proof Hat as Hat2. rewrite <-at_hole_down in Hat2.
  pose proof Hat as ((Hlp & Ho & Hk) & Ht & _). apply rep_mk in Ho as (Hls & HrOi & HrOo).
  destruct (repc_owner _ _ _ _ _ Hk) as (n & Hn & Hch).
  unfold pushSibling. do 4 rb_step. apply wp_bind. eapply wp_isRed; [exact HrOo|].
  apply wp_bind. eapply wp_isRed; [exact HrOi|].
  destruct (isred Oi) eqn:HOi; [|destruct (isred Oo) eqn:HOo]; simpl.
  - rewrite Bool.andb_false_r. do 2 rb_step.
    rewrite (owner_side _ _ _ _ _ _ _ Hat2 (rootp_mk _ _ _ _ _ _ _) Hn).
    destruct (mk_case last Oi) as [->|(li & ci & Xi & vi & si & Yi & ->)]; [done|].
    rewrite isred_mk in HOi; subst ci. apply rb_mk_red in HbOi as (? & ? & ? & ?).
    apply wp_bind. eapply wp_mono; [by eapply push_lift_double|]. intros [] h1 [Ht1 Hat1].
    eapply wp_mono; [eapply push_recolor; [exact Hat1|apply rootp_mk]|]. intros [] h2 [Ht2 Hat2'].
    eapply (push_finish _ _ _ _ _ _ _ _ _ _ _ _ _ _ _ _ li Xi vi si (mk last ls false Yi vs ss Oo));
      try eassumption; [congruence|..].
    + destruct last; exact Hat2'.
    + rewrite rb_mk_black. by exists n'.
    + apply isred_mk.
    + rewrite !litems_mk. destruct last; lists.
  - do 2 rb_step. rewrite (owner_side _ _ _ _ _ _ _ Hat2 (rootp_mk _ _ _ _ _ _ _) Hn).
    apply wp_bind. eapply wp_mono; [by eapply push_lift_single|]. intros [] h1 [Ht1 Hat1].
    destruct (rootp Oo) as [lB|] eqn:HlB; [|by destruct Oo].
    eapply wp_mono; [eapply push_recolor; [exact Hat1|exact HlB]|]. intros [] h2 [Ht2 Hat2'].
    eapply (push_finish _ _ _ _ _ _ _ _ _ _ _ _ _ _ _ _ ls Oi vs ss (paint false Oo));
      try eassumption; [congruence|..].
    + by apply rb_paint_black.
    + by destruct Oo.
    + rewrite litems_paint, litems_mk. destruct last; lists.
  - eapply push_flip; eassumption.
Qed.
(** ** The whole rebalancing step *)
Lemma pushed_parent last lp cp vp sp o k t N :
  pushed (Fr last lp cp vp sp o :: k) t → isred t = false →
  rb (plug (Fr last lp cp vp sp o :: k) t) N →
  (cp = true ∨ k = []) ∧ isred o = false.
Proof.
  intros [?|[Hc|[?|(? & ? & ? & ? & ? & Hk & Ho)]]] Ht HN; [done| |congruence|by simplify_eq; auto].
  simpl in Hc; subst cp. split; [by left|]. simpl in HN.
  destruct (rb_plug_inv _ _ _ HN) as [m Hm]. by apply rb_mk_red in Hm as (_ & _ & _ & ?).
Qed.

Lemma black_sibling last lp cp vp sp o k t N :
  rb (plug (Fr last lp cp vp sp o :: k) t) N → isred t = false → t ≠ Leaf → isred o = false →
  ∃ ls Oi vs ss Oo, o = mk last ls false Oi vs ss Oo.
Proof.
  intros HN Ht Hleaf Ho. destruct (mk_case last o) as [->|(ls & c & Oi & vs & ss & Oo & ->)].
  - exfalso. simpl in HN. destruct (rb_plug_inv _ _ _ HN) as [m Hm].
    destruct t as [|lt [] a v s b]; [done..|].
    destruct cp; [apply rb_mk_red in Hm|apply rb_mk_black in Hm]; simpl in Hm; naive_solver lia.
  - rewrite isred_mk in Ho. subst c. eauto 10.
Qed.

Lemma push_none h hd k d l c w sw X Z' N :
  at_hole h hd true k (mk d l c X w sw Z') → rb (plug k (mk d l c X w sw Z')) N →
  pushed (Fr d l c w sw Z' :: k) X →
  pushPost h hd k d l c w sw X Z' (Some (owner hd k)) h.
Proof. intros Hat HN Hp. exists c, Z', k. split_and!; [done|by rewrite <-at_hole_down|done|by exists N|done|done]. Qed.

Lemma pushRed_spec h hd k d l c w sw X Z' g N :
  at_hole h hd true k (mk d l c X w sw Z') → rb (plug k (mk d l c X w sw Z')) N →
  pushed k (mk d l c X w sw Z') →
  (k ≠ [] → g = Some (owner hd (tail k))) →
  wp (pushRed d (odir k) g (Some (owner hd k)) (Some l)) (pushPost h hd k d l c w sw X Z') h.
Proof.
  intros Hat HN Hp Hg. pose proof Hat as (Hk & Ht & _).
  destruct (c || isred X) eqn:Hcalm.
  { eapply pushRed_calm; [exact Ht|done|]. eapply push_none; [done..|].
    apply Bool.orb_true_iff in Hcalm as [->|?]; [by right; left|by right; right; left]. }
  apply Bool.orb_false_iff in Hcalm as [-> HX]. eapply pushRed_tests; [exact Ht|done|].
  destruct (isred Z') eqn:HZ.
  { destruct (mk_case d Z') as [->|(lo & co & Oi & vo & so & Oo & ->)]; [done|].
    rewrite isred_mk in HZ; subst co. by eapply push_rotate. }
  destruct k as [|[last lp cp vp sp o] k]; simpl in Hk |- *.
  - do 2 rb_step. eapply (push_none _ _ []); [done..|]. right; right; right. eauto 10.
  - destruct (pushed_parent _ _ _ _ _ _ _ _ _ Hp (isred_mk _ _ _ _ _ _ _) HN) as [Hcp Ho].
    destruct (black_sibling _ _ _ _ _ _ _ _ _ HN (isred_mk _ _ _ _ _ _ _)) as (ls & Oi & vs & ss & Oo & ->);
      [by destruct d|done|].
    destruct Hk as (Hlp & _). rewrite Hg by done. simpl. do 2 rb_step. rewrite rootp_mk.
    apply wp_bind. eapply wp_mono; [by eapply push_sibling|]. done.
Qed.
