(* ===== verification/RBDelete.v ===== *)
(** * RBDelete: correctness of [Delete]

    [deleteLoop] walks from the fake root to a leaf, remembering the node that
    holds the key.  The walk keeps the sequence of items: it only rotates and
    recolours ([RBPush]).  At the end the last node visited is a childless
    in-order predecessor (or the found node itself); its item moves into the
    found node and it is unlinked. *)
From S2P Require Import Prelude GoStd TreeIface RBTree RBRep RBInsert RBPush.
#[local] Open Scope Z_scope.

(** ** The walk *)

(** What [found] tells about the path walked so far. *)
Definition fnd (v : Z) (k : list frame) (found : ptr) : Prop :=
  match found with
  | None => before v k
  | Some lf => ∃ sf rest, lrights k = (lf, (v, sf)) :: rest ∧
                 Forall (λ x : item, x.1 < v) (lefts k)
  end.

Record walk (h : rbheap) (hd : loc) (v : Z) (k : list frame) (t : rbt) (found : ptr)
    (L : list (loc * item)) : Prop := {
  walk_at : at_hole h hd true k t;
  walk_rb : ∃ N, rb (plug k t) N;
  walk_pushed : pushed k t;
  walk_items : litems (plug k t) = L;
  walk_fnd : fnd v k found
}.

(** The value of [parent] when the walk stands at the owner of the hole. *)
Definition parent_ok (hd : loc) (k : list frame) (p : ptr) : Prop :=
  k ≠ [] → p = Some (owner hd (tail k)).

Definition walkPost (h : rbheap) (hd : loc) (v : Z) (L : list (loc * item))
    (r : ptr * ptr * ptr) (h' : rbheap) : Prop :=
  ∃ k, tree h' = tree h ∧ r.1.2 = Some (owner hd k) ∧ parent_ok hd k r.1.1 ∧
    walk h' hd v k Leaf r.2 L.

Lemma lsame_sides k k' : lsame k k' → same_sides k k'.
Proof.
  intros [Hl Hr]. split.
  - by rewrite <-!llefts_lefts, Hl.
  - by rewrite <-!lrights_rights, Hr.
Qed.

Lemma fnd_lsame v k k' found : lsame k k' → fnd v k found → fnd v k' found.
Proof.
  intros Hs Hf. pose proof (lsame_sides _ _ Hs) as Hss. destruct found as [lf|]; simpl in *.
  - destruct Hf as (sf & rest & Hr & Hl). exists sf, rest. destruct Hs as [_ ->], Hss as [-> _]. done.
  - by eapply same_sides_before.
Qed.

(** Choosing the direction at a node of key [w] keeps [fnd]. *)
Lemma fnd_down v k found l c w sw t o (d : bool) :
  fnd v k found → ordered (items (plug k (mk d l c t w sw o))) → d = bool_decide (w < v) →
  fnd v (Fr d l c w sw o :: k) (if bool_decide (w = v) then Some l else found).
Proof.
  intros Hf Hord Hd. rewrite items_plug in Hord.
  pose proof Hord as (_ & Hord2 & _)%ordered_app. pose proof Hord2 as (Hordt & _ & Hlt)%ordered_app.
  pose proof (ordered_mk _ _ _ _ _ _ _ Hordt) as (_ & Ho & Hside).
  destruct found as [lf|]; simpl in Hf.
  - destruct Hf as (sf & rest & Hr & Hl).
    assert (∀ x, x ∈ items (mk d l c t w sw o) → x.1 < v) as Hall.
    { intros x Hx. apply (Hlt x (v, sf) Hx). rewrite <-lrights_rights, Hr. simpl. set_solver. }
    assert (w < v) as Hw.
    { apply (Hall (w, sw)). rewrite items_mk. destruct d; set_solver. }
    rewrite (bool_decide_false (w = v)) by lia. rewrite bool_decide_true in Hd by done. subst d.
    exists sf, rest. simpl. split; [done|]. apply Forall_app. split; [done|].
    apply Forall_forall. intros x Hx. apply Hall. rewrite items_mk. set_solver.
  - destruct (decide (w = v)) as [->|Hwv].
    + rewrite (bool_decide_true (v = v)) by done. rewrite bool_decide_false in Hd by lia. subst d. exists sw, (litems o ++ lrights k).
      split; [done|]. simpl. rewrite app_nil_r. apply Hf.
    + rewrite (bool_decide_false (w = v)) by done. apply before_cons; [done..|].
      case_bool_decide; subst d; split; try lia; apply Hside.
Qed.

Lemma deleteLoop_spec hd v L fuel : hash32 v →
  ordered L.*2 → Forall (λ x : item, hash32 x.1) L.*2 →
  ∀ k t found p g h, (sz t < fuel)%nat → walk h hd v k t found L → parent_ok hd k p →
  wp (deleteLoop fuel v (odir k) g p (Some (owner hd k)) found) (walkPost h hd v L) h.
Proof.
  intros Hv Hord H32. induction fuel as [|fuel IH]; intros k t found p g h Hfuel Hw Hp; [lia|].
  pose proof Hw as [Hat [N HN] Hpu HL Hf]. pose proof Hat as (Hk & Ht & _).
  destruct (repc_owner _ _ _ _ _ Hk) as (n & Hn & Hch). simpl. do 2 rb_step. rewrite Hch.
  destruct t as [|l c a w sw b]; simpl rootp.
  { apply wp_ret. by exists k. }
  set (d := bool_decide (w < v)).
  destruct (mk_case d (Node l c a w sw b)) as [?|(l' & c' & X & w' & sw' & Z' & Heq)]; [done|].
  assert (hash32 w) as Hw32.
  { rewrite Forall_forall in H32. apply (H32 (w, sw)).
    rewrite <-HL, litems_items, items_plug. simpl. set_solver. }
  apply wp_bind. eapply wp_load; [apply Ht|]. simpl. rewrite diff_small by done.
  rewrite (bool_decide_ext (w - v < 0) (w < v)) by lia.
  rewrite (bool_decide_ext (w - v = 0) (w = v)) by lia. fold d.
  assert (l' = l ∧ c' = c ∧ w' = w ∧ sw' = sw) as (-> & -> & -> & ->)
    by (destruct d; simpl in Heq; by simplify_eq).
  rewrite Heq in *. apply wp_bind.
  eapply wp_mono; [eapply pushRed_spec; [exact Hat|exact HN|exact Hpu|exact Hp]|].
  intros p' h' (c' & o & k' & Htr & Hat' & -> & HN' & Hpu' & Hls).
  assert (fnd v (Fr d l c w sw Z' :: k) (if bool_decide (w = v) then Some l else found)) as Hf'.
  { eapply fnd_down; [done| |done]. rewrite <-litems_items, HL. done. }
  eapply wp_mono; [eapply (IH (Fr d l c' w sw o :: k') X _ _ p h')|].
  - rewrite sz_mk in Hfuel. lia.
  - split; [done..| |].
    + destruct Hls as [Hl Hr]. rewrite <-HL. change (plug k (mk d l c X w sw Z')) with
        (plug (Fr d l c w sw Z' :: k) X). by rewrite !litems_plug, Hl, Hr.
    + by eapply fnd_lsame.
  - by intros _.
  - intros r h2 (k2 & Htr2 & ?). exists k2. split; [congruence|done].
Qed.

(** ** Moving an item into the found node

    When the walk turned right after the found node, that node is the nearest
    ancestor entered through its left link. *)
Fixpoint kretag (w : Z) (sw : string) (k : list frame) : list frame :=
  match k with
  | [] => []
  | Fr true l c v s o :: k => Fr true l c v s o :: kretag w sw k
  | Fr false l c v s o :: k => Fr false l c w sw o :: k
  end.

Lemma kretag_sides w sw k lf i rest :
  lrights k = (lf, i) :: rest →
  lefts (kretag w sw k) = lefts k ∧ rights (kretag w sw k) = (w, sw) :: rest.*2.
Proof.
  induction k as [|[[] l c v s o] k IH]; simpl; intros Hr; [done|..].
  - destruct (IH Hr) as [-> ->]. done.
  - simplify_eq. by rewrite fmap_app, litems_items, lrights_rights.
Qed.

Lemma kretag_shape w sw k hd :
  clocs (kretag w sw k) = clocs k ∧ owner hd (kretag w sw k) = owner hd k ∧
  odir (kretag w sw k) = odir k.
Proof.
  induction k as [|[[] l c v s o] k (IH & _)]; simpl; [done|..]; split_and!; try done.
  by rewrite IH.
Qed.

Lemma repc_kretag m hd hc k p w sw lf i rest :
  NoDup (hd :: clocs k) → repc m hd hc k p → lrights k = (lf, i) :: rest →
  ∃ n, lf ∈ clocs k ∧ m !! lf = Some n ∧
    repc (<[lf := mkNode w sw (left n) (right n) (red n)]> m) hd hc (kretag w sw k) p.
Proof.
  revert p. induction k as [|[[] l c v s o] k IH]; simpl; intros p Hnd Hk Hr; [done|..];
    destruct Hk as (Hl & Ho & Hk); rewrite !NoDup_cons in Hnd; destruct Hnd as (Hhd & Hl' & Hnd);
    pose proof Hnd as (Hno & Hdis & Hndk)%NoDup_app.
  - destruct (IH (Some l)) as (n & Hin & Hlf & Hrep); [|done..|].
    { constructor; [set_solver|done]. }
    exists n. split_and!; [set_solver|done|..|done].
    + rewrite lookup_insert_ne; [done|]. set_solver.
    + apply rep_insert_ne; [|done]. set_solver.
  - simplify_eq. eexists. split_and!; [set_solver|exact Hl|..]; simpl.
    + by simplify_map_eq.
    + apply rep_insert_ne; [set_solver|done].
    + eapply repc_same; [done|]. intros x Hx. rewrite lookup_insert_ne; [done|set_solver].
Qed.

Lemma rb_kretag w sw k t N : rb (plug k t) N → rb (plug (kretag w sw k) t) N.
Proof.
  revert t. induction k as [|[[] l c v s o] k IH]; simpl; intros t HN; [done|by apply IH|].
  destruct (rb_plug_inv _ _ _ HN) as [m Hm]. eapply rb_plug_replace; [exact HN|exact Hm|done|].
  intros Hc%(rb_plug_cred _ _ _ HN). done.
Qed.

(** ** Unlinking *)
Lemma unlink_leaf h hd hc k l c w sw n tr :
  at_hole h hd hc k (Node l c Leaf w sw Leaf) → nodes h !! owner hd k = Some n →
  at_hole (mkHeap (<[owner hd k := set_link (odir k) None n]> (nodes h)) tr) hd hc k Leaf.
Proof.
  intros (Hk & Ht & Hnd) Hn. simpl in Hnd. rewrite app_comm_cons in Hnd.
  apply NoDup_app in Hnd as (Hnd & _ & _). split_and!; [|done|by rewrite app_nil_r].
  eapply repc_relink; [done|exact Hk|exact Hn|simpl; by simplify_map_eq|].
  intros x _ Hx. simpl. by rewrite lookup_insert_ne.
Qed.

Lemma pushed_childless d l c w sw o k N :
  pushed (Fr d l c w sw o :: k) Leaf → rb (plug (Fr d l c w sw o :: k) Leaf) N →
  o = Leaf ∧ ∃ N', rb (plug k Leaf) N'.
Proof.
  intros Hp HN. destruct (pushed_parent _ _ _ _ _ _ _ _ _ Hp eq_refl HN) as [Hc Ho].
  simpl in HN. destruct (rb_plug_inv _ _ _ HN) as [m Hm].
  assert (o = Leaf) as ->.
  { destruct o as [|lo co ? ? ? ?]; [done|]. simpl in Ho. subst co.
    destruct c; [apply rb_mk_red in Hm|apply rb_mk_black in Hm]; simpl in Hm; naive_solver lia. }
  split; [done|]. by eapply rb_up.
Qed.

Lemma set_item_at h hd k d l c w sw lf v sf rest :
  at_hole h hd true (Fr d l c w sw Leaf :: k) Leaf →
  lrights (Fr d l c w sw Leaf :: k) = (lf, (v, sf)) :: rest →
  wp (setItem (Some lf) w sw)
    (λ _ h', tree h' = tree h ∧
       at_hole h' hd true (if d then kretag w sw k else k) (Node l c Leaf w sw Leaf)) h.
Proof.
  intros Hat Hr. pose proof Hat as Hat2. rewrite <-at_hole_down in Hat2.
  assert (mk d l c Leaf w sw Leaf = Node l c Leaf w sw Leaf) as Heq by by destruct d.
  rewrite Heq in Hat2. destruct Hat2 as (Hk & Ht & Hnd). destruct d; simpl in Hr.
  - assert (NoDup (hd :: clocs k)) as Hndk.
    { rewrite app_comm_cons in Hnd. by apply NoDup_app in Hnd as (? & _). }
    destruct (repc_kretag _ _ _ _ _ w sw _ _ _ Hndk Hk Hr) as (n & Hin & Hn & Hrep).
    eapply wp_update; [exact Hn|]. split; [done|]. split_and!; simpl.
    + done.
    + assert (lf ≠ l).
      { rewrite app_comm_cons in Hnd. apply NoDup_app in Hnd as (_ & Hnd & _). set_solver. }
      rewrite lookup_insert_ne by done. split; [apply Ht|done].
    + rewrite (proj1 (kretag_shape w sw k hd)). done.
  - simplify_eq. pose proof Ht as (Hl & _). eapply wp_update; [exact Hl|]. split; [done|].
    rewrite insert_id by done. by destruct h.
Qed.

Lemma delete_unlink h hd k d l c w sw o lf v sf rest N :
  at_hole h hd true (Fr d l c w sw o :: k) Leaf →
  rb (plug (Fr d l c w sw o :: k) Leaf) N → pushed (Fr d l c w sw o :: k) Leaf →
  lrights (Fr d l c w sw o :: k) = (lf, (v, sf)) :: rest →
  wp (n ← load (Some l);
      setItem (Some lf) (val n) (str n);;
      pn ← load (Some (owner hd k));
      c ← Child (Some l) (bool_decide (left n = None));
      setChild (Some (owner hd k)) (bool_decide (right pn = Some l)) c;;
      addSize (-1))
    (λ _ h', ∃ k', at_hole h' hd true k' Leaf ∧ (∃ N', rb (plug k' Leaf) N') ∧
       items (plug k' Leaf) = lefts (Fr d l c w sw o :: k) ++ rest.*2 ∧
       tree h' = mkTree (root (tree h)) (int64 (size (tree h) - 1))) h.
Proof.
  intros Hat HN Hp Hr. destruct (pushed_childless _ _ _ _ _ _ _ _ Hp HN) as [-> [N' HN']].
  pose proof Hat as ((Hl & _) & _). apply wp_bind. eapply wp_load; [exact Hl|].
  assert (fnode d c w sw (rootp Leaf) (rootp Leaf) = mkNode w sw None None c) as -> by by destruct d.
  simpl. apply wp_bind. eapply wp_mono; [by eapply set_item_at|]. intros [] h1 [Htr Hat1].
  set (k' := if d then kretag w sw k else k) in *.
  assert (owner hd k = owner hd k') as ->.
  { unfold k'. destruct d; [|done]. by destruct (kretag_shape w sw k hd) as (_ & -> & _). }
  pose proof Hat1 as (Hk1 & (Hl1 & _) & _). destruct (repc_owner _ _ _ _ _ Hk1) as (n & Hn & Hch).
  apply wp_bind. eapply wp_load; [exact Hn|].
  rewrite (owner_side _ _ _ _ _ _ _ Hat1 eq_refl Hn). do 4 rb_step.
  apply wp_modify. exists k'. split_and!; simpl.
  - by eapply (unlink_leaf h1).
  - exists N'. unfold k'. destruct d; [by apply rb_kretag|done].
  - rewrite items_plug. unfold k'. destruct d; simpl in Hr |- *.
    + destruct (kretag_sides w sw _ _ _ _ Hr) as [-> ->]. by rewrite <-(assoc_L (++)).
    + simplify_eq. by rewrite app_nil_r, lrights_rights.
  - by rewrite Htr.
Qed.

(** ** [Delete] *)
Definition delete_rel (v : Z) (I I' : list item) (r : bool) : Prop :=
  if r then ∃ s l1 l2, I = l1 ++ (v, s) :: l2 ∧ I' = l1 ++ l2
  else I' = I ∧ v ∉ I.*1.

Lemma ordered_remove (l1 l2 : list item) x : ordered (l1 ++ x :: l2) → ordered (l1 ++ l2).
Proof.
  rewrite !ordered_app. intros (H1 & H2 & H3). inversion H2; subst. split_and!; [done..|].
  intros; apply H3; set_solver.
Qed.

(** Dropping the fake root and painting the real one black. *)
Lemma delete_finish h h' hd t T v r (Q : bool → rbheap → Prop) :
  rb_inv h t → at_hole h' hd true [] T → (∃ N, rb T N) →
  delete_rel v (items t) (items T) r →
  size (tree h') = Z.of_nat (sz T) →
  (∀ h'' t', rb_inv h'' t' → delete_rel v (items t) (items t') r → Q r h'') →
  wp (hd ← load (Some hd);
      setRoot (right hd);;
      rt ← getRoot;
      (match rt with Some _ => setRed rt false | None => mret tt end);;
      mret r) Q h'.
Proof.
  intros Hinv (Hhd & Hrep & Hnot & Hnd)%at_hole_nil [N HN] Hrel Hsz HQ.
  assert (ordered (items T) ∧ Forall (λ x : item, hash32 x.1) (items T)) as [Hord H32].
  { destruct Hinv. destruct r; [|by destruct Hrel as [-> _]].
    destruct Hrel as (s & l1 & l2 & HI & ->). rewrite HI in *. split; [by eapply ordered_remove|].
    rewrite !Forall_app, Forall_cons in *. naive_solver. }
  apply wp_bind. eapply wp_load; [exact Hhd|]. apply wp_bind, wp_modify, wp_bind, wp_gets.
  apply wp_bind. simpl. destruct T as [|l c a w sw b]; simpl rootp.
  - apply wp_ret, wp_ret. apply (HQ _ Leaf); [|done]. split; simpl; try done. by exists 0%nat.
  - eapply wp_setRed; [apply Hrep|]. simpl. apply wp_ret.
    apply (HQ _ (paint false (Node l c a w sw b))); [|done]. split; simpl; try done.
    + by apply (rep_paint _ _ false l _ Hrep eq_refl (proj1 Hrep)).
    + destruct c; simpl in HN; [|eauto]. exists (S N), N. naive_solver.
Qed.

Lemma before_not_in v k : before v k → v ∉ (items (plug k Leaf)).*1.
Proof.
  rewrite items_plug. intros [Hl Hr] (x & -> & Hx)%list_elem_of_fmap. rewrite Forall_forall in Hl, Hr.
  simpl in Hx. apply elem_of_app in Hx as [Hx|Hx]; [specialize (Hl x Hx)|specialize (Hr x Hx)]; simpl in *; lia.
Qed.

(** [Delete] on the tree level: it keeps the invariant, removes the item with
    the key if there is one, and reports whether there was. *)
Lemma Delete_spec h t v :
  rb_inv h t → hash32 v →
  wp (Delete v) (λ r h', ∃ t', rb_inv h' t' ∧ delete_rel v (items t) (items t') r) h.
Proof.
  intros Hinv Hv. pose proof Hinv as [Hrep Hroot Hnd Hord H32 Hrb Hbl Hsz].
  unfold Delete. apply wp_bind, wp_gets. rewrite Hroot.
  destruct (rootp t) as [lr|] eqn:Hlr.
  2:{ apply wp_ret. exists t. split; [done|]. destruct t; [|done]. split; [done|set_solver]. }
  apply wp_bind, wp_alloc. intros hd Hhd.
  apply wp_bind. eapply wp_setChild; [simpl; by simplify_map_eq|]. simpl.
  rewrite insert_insert_eq. apply wp_bind. unfold get at 1. simpl. set (h1 := mkHeap _ _).
  assert (hd ∉ locs t) as Hnot. { intros Hin. apply Hhd. by eapply rep_dom. }
  assert (at_hole h1 hd true [] t) as Hat.
  { apply at_hole_nil. rewrite Hlr. split_and!; [simpl; by simplify_map_eq|by apply rep_insert_ne|done|done]. }
  apply wp_bind. eapply wp_mono.
  { apply (deleteLoop_spec hd v (litems t)) with (k := []) (t := t) (p := None);
      [done|by rewrite litems_items..| | |by intros ?].
    - pose proof Hat as (_ & Hr1 & _). pose proof (rep_size _ _ Hr1 Hnd). unfold h1 in *. simpl in *. lia.
    - split; [done|done|by left|done|by split; constructor]. }
  intros [[p node] found] h2 (k & Htr & Hnode & Hp & [Hat2 [N HN] Hpu HL Hf]). simpl in *. subst node.
  destruct found as [lf|]; simpl in Hf.
  - destruct Hf as (sf & rest & Hr & Hl). destruct k as [|[d l c w sw o] k]; [done|].
    rewrite Hp by done. simpl. apply wp_bind. eapply wp_mono; [by eapply delete_unlink|].
    intros [] h3 (k' & Hat3 & HN3 & Hit & Htr3).
    assert (items t = lefts (Fr d l c w sw o :: k) ++ (v, sf) :: rest.*2) as Hitt.
    { rewrite <-litems_items, <-HL, litems_plug, !fmap_app, Hr, llefts_lefts. done. }
    eapply (delete_finish h _ hd t (plug k' Leaf) v true); [done|by rewrite <-at_hole_plug|done|..].
    + exists sf, (lefts (Fr d l c w sw o :: k)), rest.*2. done.
    + rewrite Htr3, Htr. simpl. pose proof (inv_sz_bound _ _ Hinv). rewrite Hsz in *.
      rewrite !sz_length, Hit, Hitt, !length_app in *. simpl length in *.
      unfold int64. rewrite Z.mod_small; lia.
    + eauto.
  - apply wp_bind, wp_ret.
    assert (items (plug k Leaf) = items t) as Hit by (by rewrite <-!litems_items, HL).
    eapply (delete_finish h _ hd t (plug k Leaf) v false); [done|by rewrite <-at_hole_plug|by exists N|..].
    + split; [done|]. rewrite <-Hit. by apply before_not_in.
    + rewrite Htr. simpl. rewrite Hsz, !sz_length. by rewrite Hit.
    + eauto.
Qed.
