(* ===== verification/RBMap.v ===== *)
(** * RBMap: the red-black tree as a finite map

    Functional correctness of the four public operations against the map
    [tree_map], and the instance that hands the tree to the hash ring. *)
From S2P Require Import Prelude GoStd TreeIface RBTree RBRep RBInsert RBPush RBDelete.
#[local] Open Scope Z_scope.

Lemma emptyHeap_inv : rb_inv emptyHeap Leaf.
Proof. split; simpl; try done; try constructor. by exists 0%nat. Qed.

Lemma ordered_notin (l1 l2 : list item) v s :
  ordered (l1 ++ (v, s) :: l2) → v ∉ (l1 ++ l2).*1.
Proof.
  intros Hnd%plt_nodup. rewrite fmap_app in *. simpl in Hnd.
  apply NoDup_app in Hnd as (_ & H1 & H2). apply NoDup_cons in H2 as [H2 _]. set_solver.
Qed.

Lemma insert_rel_map t t' v s r :
  ordered (items t') → insert_rel v s (items t) (items t') r →
  r = bool_decide (tree_map t !! v = None) ∧
  tree_map t' = if r then <[v := s]> (tree_map t) else tree_map t.
Proof.
  intros Ho Hr. unfold tree_map. destruct r; simpl in Hr.
  - destruct Hr as (l1 & l2 & HI & HI' & _). rewrite HI' in Ho.
    rewrite bool_decide_true; [split; [done|]|].
    + by rewrite HI', list_to_map_middle, HI.
    + apply not_elem_of_list_to_map. rewrite HI. by eapply ordered_notin.
  - destruct Hr as [-> Hin]. split; [|done]. symmetry. apply bool_decide_eq_false.
    intros Hnone. by apply not_elem_of_list_to_map in Hnone.
Qed.

Lemma delete_rel_map t t' v r :
  ordered (items t) → delete_rel v (items t) (items t') r →
  r = bool_decide (is_Some (tree_map t !! v)) ∧ tree_map t' = delete v (tree_map t).
Proof.
  intros Ho Hr. unfold tree_map. destruct r; simpl in Hr.
  - destruct Hr as (s & l1 & l2 & HI & ->). rewrite HI in *.
    split; [|by apply list_to_map_middle_delete].
    symmetry. apply bool_decide_eq_true. rewrite list_to_map_middle by done. by simplify_map_eq.
  - destruct Hr as [-> Hnot]. apply not_elem_of_list_to_map in Hnot. rewrite Hnot. split.
    + symmetry. apply bool_decide_eq_false. by intros [? ?].
    + symmetry. by apply delete_id.
Qed.

(** ** [Search] *)
Lemma tree_map_node l c a w sw b :
  tree_map (Node l c a w sw b) = tree_map a ∪ <[w := sw]> (tree_map b).
Proof. unfold tree_map. cbn [items]. by rewrite list_to_map_app, list_to_map_cons. Qed.

Lemma search_spec h t v fuel :
  rep (nodes h) t → ordered (items t) → t ≠ Leaf → (sz t ≤ fuel)%nat →
  wp (search fuel (rootp t) v)
    (λ r h', h' = h ∧ r = from_option (λ s, (s, true)) ("", false) (tree_map t !! v)) h.
Proof.
  revert t. induction fuel as [|fuel IH]; intros t Hr Ho Hne Hf.
  { destruct t; simpl in Hf; [done|lia]. }
  destruct t as [|l c a w sw b]; [done|]. simpl in Hr, Ho, Hf. destruct Hr as (Hl & Ha & Hb).
  pose proof Ho as (Hoa & (Hob & Hwb)%StronglySorted_inv & Hlt)%ordered_app.
  rewrite Forall_forall in Hwb.
  assert (∀ x, x ∈ items a → x.1 < w) as Hwa by (intros x Hx; apply (Hlt x (w, sw)); set_solver).
  simpl. apply wp_bind. eapply wp_load; [exact Hl|]. simpl.
  rewrite tree_map_node.
  case_bool_decide as Hwv; [|case_bool_decide as Hwv2].
  - subst w. apply wp_ret. split; [done|].
    rewrite lookup_union_r, lookup_insert_eq; [done|]. apply not_elem_of_list_to_map.
    intros (x & Hx & Hin)%list_elem_of_fmap. specialize (Hwa x Hin). lia.
  - rewrite lookup_union_l.
    2:{ rewrite lookup_insert_ne by lia. apply not_elem_of_list_to_map.
        intros (x & Hx & Hin)%list_elem_of_fmap. specialize (Hwb x Hin). unfold plt in *; simpl in *; lia. }
    destruct a as [|la ca ? ? ? ?]; [by apply wp_ret|]. apply (IH (Node la ca _ _ _ _)); [done..|lia].
  - rewrite lookup_union_r.
    2:{ apply not_elem_of_list_to_map.
        intros (x & Hx & Hin)%list_elem_of_fmap. specialize (Hwa x Hin). lia. }
    rewrite lookup_insert_ne by lia.
    destruct b as [|lb cb ? ? ? ?]; [by apply wp_ret|]. apply (IH (Node lb cb _ _ _ _)); [done..|lia].
Qed.

(** ** [LookupNUniqueAt] *)
Definition above (v : Z) (l : list item) : list string := (filter (λ x : item, v ≤ x.1) l).*2.

Lemma above_app v l1 l2 : above v (l1 ++ l2) = above v l1 ++ above v l2.
Proof. unfold above. by rewrite filter_app, fmap_app. Qed.

Lemma above_cons v x l :
  above v (x :: l) = if bool_decide (v ≤ x.1) then x.2 :: above v l else above v l.
Proof. unfold above. rewrite filter_cons. case_bool_decide; [by rewrite decide_True|by rewrite decide_False]. Qed.

Lemma above_none v l : Forall (λ x : item, x.1 < v) l → above v l = [].
Proof.
  intros Hl. unfold above. rewrite filter_none; [done|].
  eapply Forall_impl; [exact Hl|]. simpl. lia.
Qed.

Lemma findNUniqueAbove_spec h t n v fuel res :
  rep (nodes h) t → ordered (items t) → (sz t < fuel)%nat →
  wp (findNUniqueAbove fuel (rootp t) n v res)
    (λ r h', h' = h ∧ r = addUnique n (above v (items t)) res) h.
Proof.
  revert t res. induction fuel as [|fuel IH]; intros t res Hr Ho Hf; [lia|]. simpl.
  case_bool_decide as Hfull; [apply wp_ret; by rewrite addUnique_full|].
  destruct t as [|l c a w sw b]; simpl; [by apply wp_ret|].
  simpl in Hr, Ho, Hf. destruct Hr as (Hl & Ha & Hb).
  pose proof Ho as (Hoa & (Hob & _)%StronglySorted_inv & Hlt)%ordered_app.
  apply wp_bind. eapply wp_load; [exact Hl|]. simpl. apply wp_bind.
  eapply (wp_mono _ (λ r h', h' = h ∧ r = addUnique n (above v (items a)) res)).
  { case_bool_decide as Hv; [apply IH; [done..|lia]|]. apply wp_ret. rewrite above_none; [done|].
    apply Forall_forall. intros x Hx. specialize (Hlt x (w, sw) Hx). simpl in Hlt. set_solver by lia. }
  intros r h' [-> ->]. rewrite above_app, addUnique_app.
  case_bool_decide as Hfull2; [apply wp_ret; by rewrite (addUnique_full n (above v (_ :: _)))|].
  eapply wp_mono; [apply IH; [done..|lia]|]. intros r h' [-> ->]. split; [done|].
  rewrite above_cons. simpl. case_bool_decide as Hv; [|done].
  simpl. by rewrite (bool_decide_false _ Hfull2).
Qed.

(** ** The instance *)
#[export] Instance rbtree_ops : RingTree rbheap := {
  tree_new := emptyHeap;
  tree_insert := Insert;
  tree_delete := Delete;
  tree_lookup := LookupNUniqueAt
}.

Lemma Insert_ok h m v s :
  repr h m → hash32 v →
  wp (Insert v s)
    (λ r h', r = bool_decide (m !! v = None) ∧ repr h' (if r then <[v := s]> m else m)) h.
Proof.
  intros (t & Hinv & <-) Hv. eapply wp_mono; [by apply Insert_spec|].
  intros r h' (t' & Hinv' & Hrel). destruct (insert_rel_map t t' v s r) as [Hr Hm]; [apply Hinv'|done|].
  split; [done|]. exists t'. done.
Qed.

Lemma Delete_ok h m v :
  repr h m → hash32 v →
  wp (Delete v)
    (λ r h', r = bool_decide (is_Some (m !! v)) ∧ repr h' (delete v m)) h.
Proof.
  intros (t & Hinv & <-) Hv. eapply wp_mono; [by apply Delete_spec|].
  intros r h' (t' & Hinv' & Hrel). destruct (delete_rel_map t t' v r) as [Hr Hm]; [apply Hinv|done|].
  split; [done|]. exists t'. done.
Qed.

Lemma LookupNUniqueAt_ok h m n v res :
  repr h m →
  wp (LookupNUniqueAt n v res) (λ r h', h' = h ∧ r = addUnique n (from v m) res) h.
Proof.
  intros (t & Hinv & <-). unfold LookupNUniqueAt. apply wp_bind, wp_gets, wp_bind.
  unfold get at 1, wp at 1. rewrite (inv_root _ _ Hinv).
  eapply wp_mono; [apply findNUniqueAbove_spec; try apply Hinv|].
  - pose proof (rep_size _ _ (inv_rep _ _ Hinv) (inv_nodup _ _ Hinv)). lia.
  - intros r h' [-> ->]. split; [done|]. unfold from, above.
    by rewrite (clockwise_unique (items t) (tree_map t)); [|apply Hinv|].
Qed.

Lemma Search_ok h m v :
  repr h m →
  wp (Search v) (λ r h', h' = h ∧ r = from_option (λ s, (s, true)) ("", false) (m !! v)) h.
Proof.
  intros (t & Hinv & <-). unfold Search. apply wp_bind, wp_gets. rewrite (inv_root _ _ Hinv).
  destruct t as [|l c a w sw b]; [by apply wp_ret|]. simpl rootp. apply wp_bind.
  unfold get at 1, wp at 1. eapply (search_spec h (Node l c a w sw b)); [apply Hinv|apply Hinv|done|].
  apply rep_size; apply Hinv.
Qed.

#[export] Instance rbtree_laws : RingTreeLaws rbheap := {
  tree_repr := repr;
  tree_new_ok := ex_intro _ Leaf (conj emptyHeap_inv eq_refl);
  tree_insert_ok := Insert_ok;
  tree_delete_ok := Delete_ok;
  tree_lookup_ok := LookupNUniqueAt_ok
}.

(** ** Height *)
Fixpoint height (t : rbt) : nat :=
  match t with Leaf => 0 | Node _ _ a _ _ b => S (height a `max` height b) end.

Lemma rb_height t n : rb t n → (height t ≤ 2 * n + if isred t then 1 else 0)%nat.
Proof.
  revert n. induction t as [|l [] a IHa v s b IHb]; intros n; simpl; [lia|..].
  - intros (Ha & Hb & Hra & Hrb). specialize (IHa n Ha). specialize (IHb n Hb).
    rewrite Hra in IHa. rewrite Hrb in IHb. lia.
  - intros (n' & -> & Ha & Hb). specialize (IHa n' Ha). specialize (IHb n' Hb).
    destruct (isred a), (isred b); lia.
Qed.

Lemma rb_sz t n : rb t n → (2 ^ n ≤ sz t + 1)%nat.
Proof.
  revert n. induction t as [|l [] a IHa v s b IHb]; intros n; cbn [rb sz].
  - by intros ->.
  - intros (Ha & Hb & _). specialize (IHa n Ha). lia.
  - intros (n' & -> & Ha & Hb). specialize (IHa n' Ha). specialize (IHb n' Hb).
    rewrite Nat.pow_succ_r'. lia.
Qed.

Lemma tree_map_size h t : rb_inv h t → size (tree h) = Z.of_nat (base.size (tree_map t)).
Proof.
  intros Hinv. rewrite (inv_size _ _ Hinv). f_equal.
  assert (NoDup (items t).*1) as Hnd by (apply plt_nodup, Hinv).
  unfold tree_map. rewrite map_size_list_to_map by done. apply sz_length.
Qed.

(** ** The tree's contract *)

(** C9: [Insert] on a tree that represents the map [m] always terminates
    without a panic, returns whether the hash value was free, leaves a valid
    red-black tree that represents [m] with the new point added when the value
    was free and [m] itself otherwise (a taken value is never overwritten),
    and keeps [Size] equal to the number of points. *)
Theorem rbtree_insert_correct h m v s :
  repr h m → hash32 v →
  ∃ h', Insert v s h = Some (bool_decide (m !! v = None), h') ∧
    repr h' (if bool_decide (m !! v = None) then <[v := s]> m else m) ∧
    Size h' = Some (Z.of_nat (base.size (if bool_decide (m !! v = None) then <[v := s]> m else m)), h').
Proof.
  intros Hm Hv. destruct (wp_run _ _ _ (Insert_ok h m v s Hm Hv)) as (r & h' & Hrun & -> & Hr).
  exists h'. split_and!; [done..|]. destruct Hr as (t & Hinv & Ht). unfold Size, gets.
  by rewrite (tree_map_size _ _ Hinv), Ht.
Qed.

(** C10: [Delete] on a tree that represents the map [m] always terminates
    without a panic, returns whether the hash value was present, and leaves a
    valid red-black tree that represents [m] without that value, with [Size]
    equal to the number of points left. *)
Theorem rbtree_delete_correct h m v :
  repr h m → hash32 v →
  ∃ h', Delete v h = Some (bool_decide (is_Some (m !! v)), h') ∧ repr h' (delete v m) ∧
    Size h' = Some (Z.of_nat (base.size (delete v m)), h').
Proof.
  intros Hm Hv. destruct (wp_run _ _ _ (Delete_ok h m v Hm Hv)) as (r & h' & Hrun & -> & Hr).
  exists h'. split_and!; [done..|]. destruct Hr as (t & Hinv & Ht). unfold Size, gets.
  by rewrite (tree_map_size _ _ Hinv), Ht.
Qed.

(** C38: [Search] and [LookupNUniqueAt] read the map the tree stands for:
    [Search] returns the string at the value or the empty string and false;
    [LookupNUniqueAt] adds, in ascending order from the value on, the strings
    of the points until the result holds [n] different ones.  Neither changes
    the tree. *)
Theorem rbtree_reads_correct h m n v res :
  repr h m →
  Search v h = Some (from_option (λ s, (s, true)) ("", false) (m !! v), h) ∧
  LookupNUniqueAt n v res h = Some (addUnique n (from v m) res, h).
Proof.
  intros Hm. destruct (wp_run _ _ _ (Search_ok h m v Hm)) as (r & h' & Hrun & -> & ->).
  by destruct (wp_run _ _ _ (LookupNUniqueAt_ok h m n v res Hm)) as (r & h' & Hrun' & -> & ->).
Qed.

(** Every tree the operations produce is balanced: its height is at most
    twice the base-two logarithm of one more than its number of nodes, the
    O(log N) bound the package documentation promises. *)
Theorem rbtree_height_bound h t :
  rb_inv h t → (height t ≤ 2 * Nat.log2 (sz t + 1))%nat.
Proof.
  intros Hinv. destruct (inv_rb _ _ Hinv) as [n Hn]. pose proof (rb_height _ _ Hn) as Hh.
  rewrite (inv_black _ _ Hinv) in Hh. pose proof (rb_sz _ _ Hn) as Hs.
  apply Nat.log2_le_mono in Hs. rewrite Nat.log2_pow2 in Hs by lia. lia.
Qed.

(** ** Witnesses: a tree with two points *)
Definition sampleTree : rbheap :=
  match (Insert 5 "a";; Insert 9 "b") emptyHeap with Some (_, h) => h | None => emptyHeap end.

Lemma sampleTree_inv :
  rb_inv sampleTree (Node 1%positive false Leaf 5 "a" (Node 3%positive true Leaf 9 "b" Leaf)).
Proof.
  split.
  - repeat split; by vm_compute.
  - by vm_compute.
  - simpl. repeat constructor; set_solver.
  - simpl. by repeat constructor.
  - simpl. by repeat constructor.
  - exists 1%nat. simpl. eauto 10.
  - done.
  - by vm_compute.
Qed.

Lemma sampleTree_repr : repr sampleTree {[5 := "a"; 9 := "b"]}.
Proof. eexists. split; [apply sampleTree_inv|]. by vm_compute. Qed.

Lemma rbtree_insert_correct_witness :
  ∃ h', Insert 7 "c" sampleTree = Some (true, h') ∧ repr h' {[5 := "a"; 7 := "c"; 9 := "b"]}.
Proof.
  destruct (rbtree_insert_correct sampleTree {[5 := "a"; 9 := "b"]} 7 "c") as (h' & Hrun & Hr & _).
  - apply sampleTree_repr.
  - done.
  - exists h'. split; [exact Hrun|]. replace ({[5 := "a"; 7 := "c"; 9 := "b"]} : gmap Z string) with
      (<[7 := "c"]> ({[5 := "a"; 9 := "b"]} : gmap Z string)) by by vm_compute. exact Hr.
Defined.

Lemma rbtree_delete_correct_witness :
  ∃ h', Delete 5 sampleTree = Some (true, h') ∧ repr h' {[9 := "b"]}.
Proof.
  destruct (rbtree_delete_correct sampleTree {[5 := "a"; 9 := "b"]} 5) as (h' & Hrun & Hr & _).
  - apply sampleTree_repr.
  - done.
  - exists h'. split; [exact Hrun|].
    replace ({[9 := "b"]} : gmap Z string) with
      (delete 5 ({[5 := "a"; 9 := "b"]} : gmap Z string)) by by vm_compute. exact Hr.
Defined.

Lemma rbtree_reads_correct_witness :
  Search 9 sampleTree = Some (("b", true), sampleTree) ∧
  LookupNUniqueAt 1 6 ∅ sampleTree = Some ({["b"]}, sampleTree).
Proof.
  destruct (rbtree_reads_correct sampleTree {[5 := "a"; 9 := "b"]} 1 9 ∅ sampleTree_repr) as [H1 _].
  destruct (rbtree_reads_correct sampleTree {[5 := "a"; 9 := "b"]} 1 6 ∅ sampleTree_repr) as [_ H2].
  split; [exact H1|]. rewrite H2. by vm_compute.
Defined.

Lemma rbtree_height_bound_witness :
  (height (Node 1%positive false Leaf 5 "a" (Node 3%positive true Leaf 9 "b" Leaf)) ≤ 2)%nat.
Proof. apply (rbtree_height_bound sampleTree _ sampleTree_inv). Defined.
