(* ===== verification/HashRing.v ===== *)
(** * HashRing: the consistent hash ring of hashring/hashring.go

    The ring keeps the set of servers, the tree of their replica points, a
    checksum of the set, and the listeners to which it reports changes.  The
    tree is used through [RingTree].  Every public method holds the ring's
    lock for its whole body, so a method is one atomic step. *)
From S2P Require Import Prelude GoStd TreeIface.
#[local] Open Scope Z_scope.

(** events/events.go: the two events a ring emits. *)
Inductive ringEvent : Type :=
| RingChecksumEvent (OldChecksum NewChecksum : Z)
| RingChangedEvent (ServersAdded ServersRemoved : list string).

Section ring.
Context {T : Type} `{RingTree T}.

(** The hash function given to [New] and farm.Fingerprint32. *)
Variable hashfunc : string → Z.
Variable Fingerprint32 : string → Z.

(** Listeners are identified by a number; [emitted] records every call of a
    listener's [HandleEvent]. *)
Record HashRing : Type := mkRing {
  replicaPoints : Z;
  serverSet : gset string;
  tree : T;
  checksum : Z;
  listeners : list nat;
  emitted : list (nat * ringEvent)
}.

Abbreviation Ring := (M HashRing).

Definition set_serverSet (s : gset string) (r : HashRing) : HashRing :=
  mkRing (replicaPoints r) s (tree r) (checksum r) (listeners r) (emitted r).
Definition set_tree (t : T) (r : HashRing) : HashRing :=
  mkRing (replicaPoints r) (serverSet r) t (checksum r) (listeners r) (emitted r).

(** A method call on [r.tree]. *)
Definition onTree {A} (m : M T A) : Ring A := λ r,
  match m (tree r) with
  | Some (a, t) => Some (a, set_tree t r)
  | None => None
  end.

Definition emit (e : ringEvent) : Ring unit :=
  modify (λ r, mkRing (replicaPoints r) (serverSet r) (tree r) (checksum r) (listeners r)
                 (emitted r ++ ((λ l, (l, e)) <$> listeners r))).

Definition RegisterListener (l : nat) : Ring unit :=
  modify (λ r, mkRing (replicaPoints r) (serverSet r) (tree r) (checksum r)
                 (listeners r ++ [l]) (emitted r)).

Definition New (points : Z) : HashRing := mkRing points ∅ tree_new 0 [] [].

Definition Checksum : Ring Z := gets checksum.

(** Ranging over [serverSet]; [c] is the order Go happens to choose. *)
Definition copyServersNoLock (c : choice) : Ring (list string) :=
  gets (λ r, arrange c (elements (serverSet r))).

Definition computeChecksumNoLock (c : choice) : Ring unit :=
  addresses ← copyServersNoLock c;
  let bytes := join ";" (sortStrings addresses) in
  old ← gets checksum;
  modify (λ r, mkRing (replicaPoints r) (serverSet r) (tree r) (Fingerprint32 bytes)
                 (listeners r) (emitted r));;
  new ← gets checksum;
  emit (RingChecksumEvent old new).

Definition addReplicasNoLock (server : string) : Ring unit :=
  modify (λ r, set_serverSet ({[server]} ∪ serverSet r) r);;
  points ← gets replicaPoints;
  for_each (seqZ 0 points) (λ i,
    let address := sprint_sv server i in
    onTree (tree_insert (hashfunc address) server);; mret tt).

Definition addServerNoLock (address : string) : Ring bool :=
  servers ← gets serverSet;
  if bool_decide (address ∈ servers) then mret false
  else addReplicasNoLock address;; mret true.

Definition AddServer (c : choice) (address : string) : Ring bool :=
  ok ← addServerNoLock address;
  when ok (computeChecksumNoLock c;; emit (RingChangedEvent [address] []));;
  mret ok.

Definition removeReplicasNoLock (server : string) : Ring unit :=
  modify (λ r, set_serverSet (serverSet r ∖ {[server]}) r);;
  points ← gets replicaPoints;
  for_each (seqZ 0 points) (λ i,
    let address := sprint_sv server i in
    onTree (tree_delete (hashfunc address));; mret tt).

Definition removeServerNoLock (address : string) : Ring bool :=
  servers ← gets serverSet;
  if bool_decide (address ∈ servers) then removeReplicasNoLock address;; mret true
  else mret false.

Definition RemoveServer (c : choice) (address : string) : Ring bool :=
  ok ← removeServerNoLock address;
  when ok (computeChecksumNoLock c;; emit (RingChangedEvent [] [address]));;
  mret ok.

(** [for _, server := range l { if op(server) { changed = true } }] *)
Fixpoint anyChanged (op : string → Ring bool) (l : list string) (changed : bool) : Ring bool :=
  match l with
  | [] => mret changed
  | server :: l => b ← op server; anyChanged op l (if (b : bool) then true else changed)
  end.

Definition addRemoveServersNoLock (c : choice) (add remove : list string) : Ring bool :=
  changed ← anyChanged addServerNoLock add false;
  changed ← anyChanged removeServerNoLock remove changed;
  when changed (computeChecksumNoLock c;; emit (RingChangedEvent add remove));;
  mret changed.

Definition AddRemoveServers (c : choice) (add remove : list string) : Ring bool :=
  addRemoveServersNoLock c add remove.

Definition HasServer (server : string) : Ring bool :=
  gets (λ r, bool_decide (server ∈ serverSet r)).

Definition Servers (c : choice) : Ring (list string) := copyServersNoLock c.

Definition ServerCount : Ring Z := gets (λ r, Z.of_nat (size (serverSet r))).

(** The last loop ranges over the map [unique], again in the order [c]. *)
Definition lookupNNoLock (c : choice) (key : string) (n : Z) : Ring (list string) :=
  servers ← gets serverSet;
  if bool_decide (Z.of_nat (size servers) ≤ n) then copyServersNoLock c
  else
    let hash := hashfunc key in
    unique ← onTree (tree_lookup n hash ∅);
    unique ← (if bool_decide (Z.of_nat (size unique) < n)
              then onTree (tree_lookup n 0 unique) else mret unique);
    mret (arrange c (elements unique)).

Definition LookupN (c : choice) (key : string) (n : Z) : Ring (list string) :=
  lookupNNoLock c key n.

Definition Lookup (c : choice) (key : string) : Ring (string * bool) :=
  strs ← LookupN c key 1;
  match strs with
  | [] => mret ("", false)
  | s :: _ => mret (s, true)
  end.
End ring.

Arguments HashRing : clear implicits.
Arguments mkRing {T}.
