(* ===== verification/HashRingSpec.v ===== *)
(** * HashRingSpec: the ring implements a set of servers

    The abstract state of a ring is its set of servers.  As long as no two
    servers share a hash value ([no_collision]), the tree holds exactly the
    points of that set ([ring_ok]), whatever the history; the lookups are then
    functions of the set, and the consistent-hashing promise follows. *)
From S2P Require Import Prelude GoStd TreeIface HashRing.
#[local] Open Scope Z_scope.

Section spec.
Context {T : Type} `{RingTreeLaws T}.
Variable hashfunc : string → Z.

(** The hash function returns a [uint32]. *)
Hypothesis hash_range : ∀ s, hash32 (hashfunc s).

(** ** The points of a set of servers *)
Definition server_points (rp : Z) (s : string) : list point :=
  (λ i, (hashfunc (sprint_sv s i), s)) <$> seqZ 0 rp.
Definition ring_points (rp : Z) (S : gset string) : gmap Z string :=
  list_to_map (elements S ≫= server_points rp).

Definition hashes (s : string) (l : list Z) : list Z := (λ i, hashfunc (sprint_sv s i)) <$> l.
Definition owns (rp : Z) (s : string) (v : Z) : Prop := v ∈ hashes s (seqZ 0 rp).

(** Two different servers of the set never share a hash value. *)
Definition no_collision (rp : Z) (S : gset string) : Prop :=
  ∀ s s' v, s ∈ S → s' ∈ S → owns rp s v → owns rp s' v → s = s'.

Definition ring_ok (r : HashRing T) : Prop :=
  tree_repr (tree r) (ring_points (replicaPoints r) (serverSet r)).

Lemma elem_of_server_points rp s v s' :
  (v, s') ∈ server_points rp s ↔ s' = s ∧ owns rp s v.
Proof.
  unfold server_points, owns, hashes. rewrite !list_elem_of_fmap. split.
  - intros (i & [= -> ->] & Hi). eauto.
  - intros (-> & i & -> & Hi). eauto.
Qed.

Lemma elem_of_points rp (S : gset string) v s :
  (v, s) ∈ (elements S ≫= server_points rp) ↔ s ∈ S ∧ owns rp s v.
Proof.
  rewrite list_elem_of_bind. split.
  - intros (s' & [-> ?]%elem_of_server_points & ?%elem_of_elements). done.
  - intros [??]. exists s. by rewrite elem_of_server_points, elem_of_elements.
Qed.

Lemma lookup_ring_points rp S v s :
  no_collision rp S → ring_points rp S !! v = Some s ↔ s ∈ S ∧ owns rp s v.
Proof.
  intros Hnc. unfold ring_points. rewrite <-elem_of_points. split.
  - apply elem_of_list_to_map_2.
  - intros Hin. apply elem_of_list_to_map'; [|done]. intros s' _ Hin'.
    apply elem_of_points in Hin as [??]. apply elem_of_points in Hin' as [??]. by apply (Hnc s s' v).
Qed.

Lemma no_collision_sub rp S S' : S' ⊆ S → no_collision rp S → no_collision rp S'.
Proof. intros Hsub Hnc s s' v ????. by apply (Hnc s s' v); [apply Hsub..| |]. Qed.

(** A map that answers like the points of [S] is the points of [S]. *)
Lemma ring_points_unique rp S m :
  no_collision rp S → (∀ v s, m !! v = Some s ↔ s ∈ S ∧ owns rp s v) → m = ring_points rp S.
Proof.
  intros Hnc Hm. apply map_eq. intros v. apply option_eq. intros s.
  by rewrite Hm, lookup_ring_points.
Qed.

(** ** The replica loops *)
Definition add_point (server : string) (m : gmap Z string) (i : Z) : gmap Z string :=
  let v := hashfunc (sprint_sv server i) in
  if bool_decide (m !! v = None) then <[v := server]> m else m.
Definition del_point (server : string) (m : gmap Z string) (i : Z) : gmap Z string :=
  delete (hashfunc (sprint_sv server i)) m.

Lemma lookup_add_points server l m v :
  foldl (add_point server) m l !! v =
    match m !! v with
    | Some s => Some s
    | None => if bool_decide (v ∈ hashes server l) then Some server else None
    end.
Proof.
  revert m. induction l as [|i l IH]; intros m; simpl; [by destruct (m !! v)|].
  rewrite IH. unfold add_point. set (w := hashfunc (sprint_sv server i)).
  destruct (decide (w = v)) as [->|Hne].
  - rewrite (bool_decide_true (v ∈ _ :: _)) by set_solver.
    destruct (m !! v) as [s|] eqn:Hv; simpl; [by rewrite Hv|by rewrite lookup_insert_eq].
  - assert ((if bool_decide (m !! w = None) then <[w := server]> m else m) !! v = m !! v) as ->.
    { destruct (bool_decide (m !! w = None)); [by rewrite lookup_insert_ne|done]. }
    destruct (m !! v); [done|]. by rewrite (bool_decide_ext (v ∈ _ :: _) (v ∈ hashes server l)) by set_solver.
Qed.

Lemma lookup_del_points server l m v :
  foldl (del_point server) m l !! v = if bool_decide (v ∈ hashes server l) then None else m !! v.
Proof.
  revert m. induction l as [|i l IH]; intros m; simpl; [done|].
  rewrite IH. unfold del_point. set (w := hashfunc (sprint_sv server i)).
  destruct (decide (w = v)) as [->|Hne].
  - rewrite (bool_decide_true (v ∈ _ :: _)) by set_solver.
    rewrite lookup_delete_eq. by destruct (bool_decide (v ∈ _)).
  - rewrite lookup_delete_ne by done.
    by rewrite (bool_decide_ext (v ∈ _ :: _) (v ∈ hashes server l)) by set_solver.
Qed.

Lemma add_points_ok rp S server :
  no_collision rp ({[server]} ∪ S) →
  foldl (add_point server) (ring_points rp S) (seqZ 0 rp) = ring_points rp ({[server]} ∪ S).
Proof.
  intros Hnc. apply ring_points_unique; [done|]. intros v s. rewrite lookup_add_points.
  assert (no_collision rp S) as HncS by (eapply no_collision_sub; [|exact Hnc]; set_solver).
  destruct (ring_points rp S !! v) as [s'|] eqn:Hv.
  - apply lookup_ring_points in Hv as [Hin Hown]; [|done]. split.
    + intros [= ->]. set_solver.
    + intros [Hs Hown']. f_equal. apply (Hnc s' s v); set_solver.
  - assert (∀ s, s ∈ S → ¬ owns rp s v) as Hno.
    { intros s' Hs' Hown. assert (ring_points rp S !! v = Some s') by by apply lookup_ring_points.
      congruence. }
    case_bool_decide as Hown; split; [intros [= ->]; set_solver| |done|].
    + intros [Hs Hs']. set_solver.
    + intros [[->%elem_of_singleton|Hs]%elem_of_union Hs']; [done|]. by destruct (Hno s).
Qed.

Lemma del_points_ok rp S server :
  no_collision rp S → server ∈ S →
  foldl (del_point server) (ring_points rp S) (seqZ 0 rp) = ring_points rp (S ∖ {[server]}).
Proof.
  intros Hnc Hin. assert (no_collision rp (S ∖ {[server]})) as Hnc'.
  { eapply no_collision_sub; [|exact Hnc]. set_solver. }
  apply ring_points_unique; [done|]. intros v s. rewrite lookup_del_points.
  case_bool_decide as Hown.
  - split; [done|]. intros [[Hs Hne]%elem_of_difference Hs'].
    assert (s = server) as -> by by apply (Hnc s server v). set_solver.
  - rewrite lookup_ring_points by done. split; [|set_solver].
    intros [Hs Hs']. split; [|done]. apply elem_of_difference. split; [done|].
    intros ->%elem_of_singleton. done.
Qed.

(** ** Running the ring *)
Lemma wp_onTree {A} (m : M T A) (Q : A → HashRing T → Prop) (r : HashRing T) :
  wp m (λ a t, Q a (set_tree t r)) (tree r) → wp (onTree m) Q r.
Proof. unfold wp, onTree. by destruct (m (tree r)) as [[a t]|]. Qed.

Lemma replica_loop (op : Z → M T bool) (f : gmap Z string → Z → gmap Z string) l r m :
  (∀ t m i, tree_repr t m → wp (op i) (λ _ t', tree_repr t' (f m i)) t) →
  tree_repr (tree r) m →
  wp (for_each l (λ i, onTree (op i);; mret tt))
    (λ _ r', ∃ t', r' = set_tree t' r ∧ tree_repr t' (foldl f m l)) r.
Proof.
  intros Hop. revert r m. induction l as [|i l IH]; intros r m Hm; simpl.
  - apply wp_ret. exists (tree r). by destruct r.
  - apply wp_bind, wp_bind, wp_onTree. eapply wp_mono; [by apply Hop|].
    intros b t' Ht'. apply wp_ret. eapply wp_mono; [apply (IH (set_tree t' r) (f m i) Ht')|].
    intros _ r' (t'' & -> & Ht''). by exists t''.
Qed.

Lemma add_replicas_ok r server :
  ring_ok r → no_collision (replicaPoints r) ({[server]} ∪ serverSet r) →
  wp (addReplicasNoLock hashfunc server)
    (λ _ r', ∃ t', r' = set_tree t' (set_serverSet ({[server]} ∪ serverSet r) r) ∧ ring_ok r') r.
Proof.
  intros Hok Hnc. unfold addReplicasNoLock. apply wp_bind, wp_modify, wp_bind, wp_gets.
  eapply wp_mono; [eapply (replica_loop _ (add_point server)); [|exact Hok]|].
  - intros t m i Ht. eapply wp_mono; [by apply tree_insert_ok|].
    intros b t' [-> Ht']. unfold add_point. by case_bool_decide.
  - intros [] r' (t' & -> & Ht'). exists t'. split; [done|].
    unfold ring_ok. cbn [set_tree set_serverSet replicaPoints serverSet tree] in *.
    by rewrite add_points_ok in Ht'.
Qed.

Lemma remove_replicas_ok r server :
  ring_ok r → no_collision (replicaPoints r) (serverSet r) → server ∈ serverSet r →
  wp (removeReplicasNoLock hashfunc server)
    (λ _ r', ∃ t', r' = set_tree t' (set_serverSet (serverSet r ∖ {[server]}) r) ∧ ring_ok r') r.
Proof.
  intros Hok Hnc Hin. unfold removeReplicasNoLock. apply wp_bind, wp_modify, wp_bind, wp_gets.
  eapply wp_mono; [eapply (replica_loop _ (del_point server)); [|exact Hok]|].
  - intros t m i Ht. eapply wp_mono; [by apply tree_delete_ok|]. intros b t' [_ Ht']. done.
  - intros [] r' (t' & -> & Ht'). exists t'. split; [done|].
    unfold ring_ok. cbn [set_tree set_serverSet replicaPoints serverSet tree] in *.
    by rewrite del_points_ok in Ht'.
Qed.

(** [r'] is [r] with the server set [S], its tree kept in step. *)
Definition moved (r : HashRing T) (S : gset string) (r' : HashRing T) : Prop :=
  ring_ok r' ∧ ∃ t, r' = set_tree t (set_serverSet S r).

Lemma moved_self r : ring_ok r → moved r (serverSet r) r.
Proof. intros Hok. split; [done|]. exists (tree r). by destruct r. Qed.

Lemma moved_trans r S r' S' r'' : moved r S r' → moved r' S' r'' → moved r S' r''.
Proof. intros [_ [t ->]] [Hok [t' ->]]. split; [done|]. by exists t'. Qed.

Lemma moved_set r S r' : moved r S r' → serverSet r' = S ∧ replicaPoints r' = replicaPoints r.
Proof. by intros [_ [t ->]]. Qed.

Lemma add_server_ok r a :
  ring_ok r → no_collision (replicaPoints r) ({[a]} ∪ serverSet r) →
  wp (addServerNoLock hashfunc a)
    (λ b r', b = bool_decide (a ∉ serverSet r) ∧ moved r ({[a]} ∪ serverSet r) r') r.
Proof.
  intros Hok Hnc. unfold addServerNoLock. apply wp_bind, wp_gets.
  destruct (decide (a ∈ serverSet r)) as [Hin|Hin].
  - rewrite bool_decide_true by done. apply wp_ret. rewrite bool_decide_false by tauto.
    assert ({[a]} ∪ serverSet r = serverSet r) as -> by set_solver. split; [done|]. by apply moved_self.
  - rewrite bool_decide_false by done. apply wp_bind. eapply wp_mono; [by apply add_replicas_ok|].
    intros [] r' (t' & Hr' & Hok'). apply wp_ret. rewrite bool_decide_true by done.
    split; [done|]. split; [done|]. by exists t'.
Qed.

Lemma remove_server_ok r a :
  ring_ok r → no_collision (replicaPoints r) (serverSet r) →
  wp (removeServerNoLock hashfunc a)
    (λ b r', b = bool_decide (a ∈ serverSet r) ∧ moved r (serverSet r ∖ {[a]}) r') r.
Proof.
  intros Hok Hnc. unfold removeServerNoLock. apply wp_bind, wp_gets. case_bool_decide as Hin.
  - apply wp_bind. eapply wp_mono; [by apply remove_replicas_ok|].
    intros [] r' (t' & Hr' & Hok'). apply wp_ret. split; [done|]. split; [done|]. by exists t'.
  - apply wp_ret. assert (serverSet r ∖ {[a]} = serverSet r) as -> by set_solver.
    split; [done|]. by apply moved_self.
Qed.

Lemma add_all_ok l r ch :
  ring_ok r → no_collision (replicaPoints r) (serverSet r ∪ list_to_set l) →
  wp (anyChanged (addServerNoLock hashfunc) l ch)
    (λ b r', b = ch || bool_decide (¬ (list_to_set l ⊆@{gset string} serverSet r)) ∧
       moved r (serverSet r ∪ list_to_set l) r') r.
Proof.
  revert r ch. induction l as [|a l IH]; intros r ch Hok Hnc; simpl.
  - apply wp_ret. rewrite bool_decide_false by set_solver. rewrite orb_false_r, union_empty_r_L.
    split; [done|]. by apply moved_self.
  - apply wp_bind. eapply wp_mono; [apply add_server_ok; [done|]|].
    { eapply no_collision_sub; [|exact Hnc]. set_solver. }
    intros b r' [-> Hm]. destruct (moved_set _ _ _ Hm) as [HS Hrp].
    eapply wp_mono; [apply IH; [apply Hm|]|].
    { rewrite HS, Hrp. eapply no_collision_sub; [|exact Hnc]. set_solver. }
    rewrite HS. intros b r'' [-> Hm'].
    assert ({[a]} ∪ serverSet r ∪ list_to_set l = serverSet r ∪ ({[a]} ∪ list_to_set l)) as Heq by set_solver.
    rewrite Heq in Hm'. split; [|by eapply moved_trans].
    destruct ch; [by case_bool_decide|]. simpl.
    destruct (decide (a ∈ serverSet r)) as [Hin|Hin].
    + rewrite (bool_decide_false (a ∉ _)) by tauto. simpl. apply bool_decide_ext. set_solver.
    + rewrite (bool_decide_true (a ∉ _)) by done. simpl. symmetry. apply bool_decide_eq_true. set_solver.
Qed.

Lemma remove_all_ok l r ch :
  ring_ok r → no_collision (replicaPoints r) (serverSet r) →
  wp (anyChanged (removeServerNoLock hashfunc) l ch)
    (λ b r', b = ch || bool_decide (¬ (list_to_set l ##@{gset string} serverSet r)) ∧
       moved r (serverSet r ∖ list_to_set l) r') r.
Proof.
  revert r ch. induction l as [|a l IH]; intros r ch Hok Hnc; simpl.
  - apply wp_ret. rewrite bool_decide_false by set_solver. rewrite orb_false_r, difference_empty_L.
    split; [done|]. by apply moved_self.
  - apply wp_bind. eapply wp_mono; [by apply remove_server_ok|].
    intros b r' [-> Hm]. destruct (moved_set _ _ _ Hm) as [HS Hrp].
    eapply wp_mono; [apply IH; [apply Hm|]|].
    { rewrite HS, Hrp. eapply no_collision_sub; [|exact Hnc]. set_solver. }
    rewrite HS. intros b r'' [-> Hm'].
    assert (serverSet r ∖ {[a]} ∖ list_to_set l = serverSet r ∖ ({[a]} ∪ list_to_set l)) as Heq by set_solver.
    rewrite Heq in Hm'. split; [|by eapply moved_trans].
    destruct ch; [by case_bool_decide|]. simpl.
    destruct (decide (a ∈ serverSet r)) as [Hin|Hin].
    + rewrite (bool_decide_true (a ∈ _)) by done. simpl. symmetry. apply bool_decide_eq_true. set_solver.
    + rewrite (bool_decide_false (a ∈ _)) by done. simpl. apply bool_decide_ext. set_solver.
Qed.

(** ** The public mutators *)
Section mutators.
Variable Fingerprint32 : string → Z.

(** The checksum of a server set. *)
Definition csum (S : gset string) : Z :=
  Fingerprint32 (join ";" (sortStrings (elements S))).

(** What a change reports to the listeners. *)
Definition notify (r : HashRing T) (e : ringEvent) : list (nat * ringEvent) :=
  (λ l, (l, e)) <$> listeners r.
Definition announced (add remove : list string) (r : HashRing T) : HashRing T :=
  let new := csum (serverSet r) in
  mkRing (replicaPoints r) (serverSet r) (tree r) new (listeners r)
    ((emitted r ++ notify r (RingChecksumEvent (checksum r) new))
       ++ notify r (RingChangedEvent add remove)).

Lemma announce_ok c add remove r :
  (computeChecksumNoLock Fingerprint32 c;; emit (RingChangedEvent add remove)) r
  = Some (tt, announced add remove r).
Proof.
  unfold computeChecksumNoLock, announced, csum, emit, mbind, M_bind, copyServersNoLock, gets, modify.
  cbn. by rewrite sort_arrange.
Qed.

(** The shared end of the three mutators. *)
Lemma finish_ok c add remove r r' S b (Q : bool → HashRing T → Prop) :
  moved r S r' →
  Q b (if b then announced add remove r' else r') →
  wp (when b (computeChecksumNoLock Fingerprint32 c;; emit (RingChangedEvent add remove));; mret b) Q r'.
Proof.
  intros Hm HQ. destruct b; simpl.
  - apply wp_bind. eapply wp_eq; [apply announce_ok|]. by apply wp_ret.
  - apply wp_bind, wp_ret, wp_ret. done.
Qed.

(** The outcome of a mutator: [b] tells whether something changed, the server
    set is [S], and a change is announced. *)
Definition outcome (r : HashRing T) (S : gset string) (add remove : list string) (b : bool)
    (r' : HashRing T) : Prop :=
  ring_ok r' ∧ serverSet r' = S ∧ replicaPoints r' = replicaPoints r ∧ listeners r' = listeners r ∧
  (if b then
     checksum r' = csum S ∧
     emitted r' = (emitted r ++ notify r (RingChecksumEvent (checksum r) (csum S)))
                    ++ notify r (RingChangedEvent add remove)
   else checksum r' = checksum r ∧ emitted r' = emitted r).

Lemma outcome_moved r S add remove b r' :
  moved r S r' → outcome r S add remove b (if b then announced add remove r' else r').
Proof. intros [Hok [t ->]]. destruct b; split_and!; done. Qed.

Lemma AddServer_ok c r a :
  ring_ok r → no_collision (replicaPoints r) ({[a]} ∪ serverSet r) →
  wp (AddServer hashfunc Fingerprint32 c a)
    (λ b r', b = bool_decide (a ∉ serverSet r) ∧ outcome r ({[a]} ∪ serverSet r) [a] [] b r') r.
Proof.
  intros Hok Hnc. unfold AddServer. apply wp_bind. eapply wp_mono; [by apply add_server_ok|].
  intros b r' [-> Hm]. eapply finish_ok; [done|]. split; [done|]. by apply outcome_moved.
Qed.

Lemma RemoveServer_ok c r a :
  ring_ok r → no_collision (replicaPoints r) (serverSet r) →
  wp (RemoveServer hashfunc Fingerprint32 c a)
    (λ b r', b = bool_decide (a ∈ serverSet r) ∧ outcome r (serverSet r ∖ {[a]}) [] [a] b r') r.
Proof.
  intros Hok Hnc. unfold RemoveServer. apply wp_bind. eapply wp_mono; [by apply remove_server_ok|].
  intros b r' [-> Hm]. eapply finish_ok; [done|]. split; [done|]. by apply outcome_moved.
Qed.

Lemma AddRemoveServers_ok c r add remove :
  let S1 := serverSet r ∪ list_to_set add in
  ring_ok r → no_collision (replicaPoints r) S1 →
  wp (AddRemoveServers hashfunc Fingerprint32 c add remove)
    (λ b r', b = bool_decide (¬ (list_to_set add ⊆@{gset string} serverSet r)) || bool_decide (¬ (list_to_set remove ## S1)) ∧
       outcome r (S1 ∖ list_to_set remove) add remove b r') r.
Proof.
  intros S1 Hok Hnc. unfold AddRemoveServers, addRemoveServersNoLock. apply wp_bind.
  eapply wp_mono; [by apply add_all_ok|]. intros b1 r1 [-> Hm1]. destruct (moved_set _ _ _ Hm1) as [HS Hrp].
  apply wp_bind. eapply wp_mono; [apply remove_all_ok; [apply Hm1|]|].
  { by rewrite HS, Hrp. }
  rewrite HS. intros b2 r2 [-> Hm2]. pose proof (moved_trans _ _ _ _ _ Hm1 Hm2) as Hm.
  eapply finish_ok; [exact Hm|]. split; [done|]. by apply outcome_moved.
Qed.

End mutators.

(** ** Lookups as functions of the server set *)

(** The servers in the order a lookup for [key] meets them. *)
Definition ring_walk (rp : Z) (S : gset string) (key : string) : list string :=
  from (hashfunc key) (ring_points rp S) ++ from 0 (ring_points rp S).
Definition owners (rp : Z) (S : gset string) (key : string) (n : Z) : gset string :=
  addUnique n (ring_walk rp S key) ∅.

Lemma elem_of_from v m s : s ∈ from v m ↔ ∃ w, v ≤ w ∧ m !! w = Some s.
Proof.
  unfold from. rewrite list_elem_of_fmap. split.
  - intros ([w s'] & -> & [Hv Hin]%list_elem_of_filter). exists w. by rewrite <-elem_of_clockwise.
  - intros (w & Hv & Hw). exists (w, s). split; [done|]. apply list_elem_of_filter.
    by rewrite elem_of_clockwise.
Qed.

Lemma owns_first rp s : 1 ≤ rp → owns rp s (hashfunc (sprint_sv s 0)).
Proof.
  intros Hrp. unfold owns, hashes. apply list_elem_of_fmap. exists 0. split; [done|].
  apply elem_of_seqZ. lia.
Qed.

(** Every server has a point, so a walk meets all of them and no other. *)
Lemma ring_walk_set rp S key :
  1 ≤ rp → no_collision rp S → list_to_set (ring_walk rp S key) = S.
Proof.
  intros Hrp Hnc. unfold ring_walk. apply set_eq. intros s.
  rewrite elem_of_list_to_set, elem_of_app, !elem_of_from. split.
  - intros [(w & _ & Hw)|(w & _ & Hw)]; apply lookup_ring_points in Hw as [? _]; done.
  - intros Hs. right. exists (hashfunc (sprint_sv s 0)). split; [apply hash_range|].
    apply lookup_ring_points; [done|]. split; [done|]. by apply owns_first.
Qed.

Lemma owners_all rp S key n :
  1 ≤ rp → no_collision rp S → Z.of_nat (size S) ≤ n → owners rp S key n = S.
Proof.
  intros Hrp Hnc Hn. unfold owners. pose proof (ring_walk_set rp S key Hrp Hnc) as Hw.
  destruct (decide (Z.of_nat (size (addUnique n (ring_walk rp S key) ∅)) < n)) as [Hlt|Hge].
  - rewrite addUnique_all by done. set_solver.
  - pose proof (addUnique_sub n (ring_walk rp S key) ∅) as Hsub. rewrite Hw in Hsub.
    apply set_subseteq_size_eq; [set_solver|lia].
Qed.

Lemma owners_size rp S key n :
  1 ≤ rp → no_collision rp S → 0 ≤ n →
  Z.of_nat (size (owners rp S key n)) = Z.min n (Z.of_nat (size S)) ∧ owners rp S key n ⊆ S.
Proof.
  intros Hrp Hnc Hn. pose proof (ring_walk_set rp S key Hrp Hnc) as Hw.
  assert (owners rp S key n ⊆ S) as Hsub.
  { unfold owners. etrans; [apply addUnique_sub|]. rewrite Hw. set_solver. }
  split; [|done]. destruct (decide (Z.of_nat (size S) ≤ n)) as [Hle|Hgt].
  { rewrite owners_all by done. lia. }
  assert (Z.of_nat (size (owners rp S key n)) ≤ n) as Hle.
  { apply addUnique_size. rewrite size_empty. lia. }
  destruct (decide (Z.of_nat (size (owners rp S key n)) < n)) as [Hlt|Hge]; [|lia].
  unfold owners in Hlt. rewrite addUnique_all, Hw in Hlt by done.
  rewrite union_empty_l_L in Hlt. lia.
Qed.

Lemma LookupN_ok c r key n :
  1 ≤ replicaPoints r → ring_ok r → no_collision (replicaPoints r) (serverSet r) →
  wp (LookupN hashfunc c key n)
    (λ l r', r' = r ∧ l = arrange c (elements (owners (replicaPoints r) (serverSet r) key n))) r.
Proof.
  intros Hrp Hok Hnc. unfold LookupN, lookupNNoLock. apply wp_bind, wp_gets. case_bool_decide as Hn.
  { apply wp_gets. by rewrite owners_all. }
  apply wp_bind, wp_onTree. eapply wp_mono; [by apply tree_lookup_ok|].
  intros res t [-> ->]. assert (set_tree (tree r) r = r) as -> by by destruct r.
  apply wp_bind. unfold owners, ring_walk. rewrite addUnique_app. case_bool_decide as Hlt.
  - apply wp_onTree. eapply wp_mono; [by apply tree_lookup_ok|]. intros res t [-> ->].
    apply wp_ret. split; [by destruct r|done].
  - apply wp_ret, wp_ret. split; [done|]. by rewrite (addUnique_full _ (from 0 _)) by lia.
Qed.

Lemma addUnique_one s l : addUnique 1 (s :: l) ∅ = {[s]}.
Proof.
  cbn [addUnique]. rewrite size_empty, bool_decide_false by lia.
  rewrite addUnique_full; [by rewrite union_empty_r_L|]. rewrite union_empty_r_L, size_singleton. lia.
Qed.

Lemma owners_one rp S key :
  elements (owners rp S key 1) = match ring_walk rp S key with [] => [] | s :: _ => [s] end.
Proof.
  unfold owners. destruct (ring_walk rp S key) as [|s l]; [done|].
  by rewrite addUnique_one, elements_singleton.
Qed.

Definition owner (rp : Z) (S : gset string) (key : string) : option string :=
  head (ring_walk rp S key).

Lemma Lookup_ok c r key :
  1 ≤ replicaPoints r → ring_ok r → no_collision (replicaPoints r) (serverSet r) →
  wp (Lookup hashfunc c key)
    (λ res r', r' = r ∧
       res = from_option (λ s, (s, true)) ("", false) (owner (replicaPoints r) (serverSet r) key)) r.
Proof.
  intros Hrp Hok Hnc. unfold Lookup, owner. apply wp_bind. eapply wp_mono; [by apply LookupN_ok|].
  intros l r' [-> ->]. rewrite owners_one.
  destruct (ring_walk _ _ _) as [|s w]; [by apply wp_ret|]. by rewrite arrange_one.
Qed.

(** ** Consistent hashing *)
Lemma filter_sorted (P : point → Prop) `{∀ x, Decision (P x)} l :
  StronglySorted plt l → StronglySorted plt (filter P l).
Proof.
  induction 1 as [|x l Hs IH Hx]; simpl; [constructor|]. rewrite filter_cons.
  case_decide; [|done]. constructor; [done|]. rewrite Forall_forall in *. intros y Hy.
  apply Hx. by apply list_elem_of_filter in Hy as [_ ?].
Qed.

(** Dropping servers drops their points and leaves the others in place. *)
Lemma clockwise_sub rp S S' :
  S' ⊆ S → no_collision rp S →
  clockwise (ring_points rp S') = filter (λ x : point, x.2 ∈ S') (clockwise (ring_points rp S)).
Proof.
  intros Hsub Hnc. symmetry. apply clockwise_unique; [apply filter_sorted, clockwise_sorted|].
  pose proof (no_collision_sub _ _ _ Hsub Hnc) as Hnc'.
  apply map_eq. intros v. apply option_eq. intros s. rewrite lookup_ring_points by done.
  rewrite <-elem_of_list_to_map, list_elem_of_filter, elem_of_clockwise, lookup_ring_points; simpl.
  - set_solver.
  - done.
  - apply plt_nodup, filter_sorted, clockwise_sorted.
Qed.

Lemma from_filter v (S' : gset string) (l : list point) :
  (filter (λ x : point, v ≤ x.1) (filter (λ x : point, x.2 ∈ S') l)).*2
  = filter (.∈ S') (filter (λ x : point, v ≤ x.1) l).*2.
Proof.
  induction l as [|[w s] l IH]; [done|].
  destruct (decide (s ∈ S')), (decide (v ≤ w));
    rewrite ?(filter_cons_True (λ x : point, x.2 ∈ S')), ?(filter_cons_False (λ x : point, x.2 ∈ S')),
      ?(filter_cons_True (λ x : point, v ≤ x.1)), ?(filter_cons_False (λ x : point, v ≤ x.1)) by done;
    rewrite ?fmap_cons, ?filter_cons_True, ?filter_cons_False by done; simpl; by rewrite ?IH.
Qed.

Lemma ring_walk_sub rp S S' key :
  S' ⊆ S → no_collision rp S →
  ring_walk rp S' key = filter (.∈ S') (ring_walk rp S key).
Proof.
  intros Hsub Hnc. unfold ring_walk, from. rewrite (clockwise_sub rp S S') by done.
  by rewrite filter_app, !from_filter.
Qed.

Lemma owner_sub rp S S' key s :
  S' ⊆ S → no_collision rp S → owner rp S key = Some s → s ∈ S' → owner rp S' key = Some s.
Proof.
  intros Hsub Hnc Ho Hs. unfold owner in *. rewrite (ring_walk_sub rp S S') by done.
  destruct (ring_walk rp S key) as [|s' w]; simplify_eq/=. rewrite filter_cons, decide_True by done. done.
Qed.
End spec.
