(* ===== verification/RingProps.v ===== *)
(** * RingProps: the hash ring on the red-black tree

    The contract of the ring with its real tree: histories of operations
    refine a set of servers, lookups depend only on that set, and servers
    joining or leaving move only their own keys.  The last section shows what
    happens to the ring when two servers share a replica hash. *)
From S2P Require Import Prelude GoStd FarmHash TreeIface RBTree RBMap HashRing HashRingSpec.
#[local] Open Scope Z_scope.

(** ** Histories *)
Inductive ringOp : Type :=
| OpAdd (c : choice) (address : string)
| OpRemove (c : choice) (address : string)
| OpAddRemove (c : choice) (add remove : list string).

Section history.
Variable hashfunc : string → Z.
Variable Fingerprint32 : string → Z.

Definition runOp (op : ringOp) : M (HashRing rbheap) bool :=
  match op with
  | OpAdd c a => AddServer hashfunc Fingerprint32 c a
  | OpRemove c a => RemoveServer hashfunc Fingerprint32 c a
  | OpAddRemove c add remove => AddRemoveServers hashfunc Fingerprint32 c add remove
  end.
Definition runOps (ops : list ringOp) : M (HashRing rbheap) unit :=
  for_each ops (λ op, runOp op;; mret tt).

(** The abstract machine: the server set alone. *)
Definition absOp (S : gset string) (op : ringOp) : gset string :=
  match op with
  | OpAdd _ a => {[a]} ∪ S
  | OpRemove _ a => S ∖ {[a]}
  | OpAddRemove _ add remove => (S ∪ list_to_set add) ∖ list_to_set remove
  end.

(** The servers an operation may put on the ring. *)
Definition added (op : ringOp) : gset string :=
  match op with
  | OpAdd _ a => {[a]}
  | OpRemove _ _ => ∅
  | OpAddRemove _ add _ => list_to_set add
  end.

Hypothesis hash_range : ∀ s, hash32 (hashfunc s).

(** The checksum is that of the server set, or the initial zero. *)
Definition checksum_ok (r : HashRing rbheap) : Prop :=
  checksum r = csum Fingerprint32 (serverSet r) ∨ (serverSet r = ∅ ∧ checksum r = 0).

Lemma checksum_outcome r S add remove b r' :
  outcome hashfunc Fingerprint32 r S add remove b r' → (b = false → S = serverSet r) →
  checksum_ok r → checksum_ok r'.
Proof.
  intros (_ & HS & _ & _ & Hb) Hsame Hck. destruct b; destruct Hb as [Hck' _].
  - left. by rewrite HS.
  - unfold checksum_ok. rewrite HS, Hck', Hsame by done. done.
Qed.

Lemma runOp_ok U r op :
  checksum_ok r → ring_ok hashfunc r → no_collision hashfunc (replicaPoints r) U → serverSet r ⊆ U → added op ⊆ U →
  wp (runOp op) (λ _ r', ring_ok hashfunc r' ∧ serverSet r' = absOp (serverSet r) op ∧
    replicaPoints r' = replicaPoints r ∧ checksum_ok r') r.
Proof.
  intros Hck Hok Hnc HS Hadd. destruct op as [c a|c a|c add remove]; simpl in *.
  - eapply wp_mono; [apply AddServer_ok; [done|done|]|].
    { eapply no_collision_sub; [|exact Hnc]. set_solver. }
    intros b r' [Hb Hout]. pose proof Hout as (? & ? & ? & _). split_and!; [done..|].
    eapply checksum_outcome; [exact Hout| |done]. intros Hf. rewrite Hf in Hb. symmetry in Hb. apply bool_decide_eq_false in Hb. destruct (decide (a ∈ serverSet r)); set_solver.
  - eapply wp_mono; [apply RemoveServer_ok; [done|done|]|].
    { eapply no_collision_sub; [|exact Hnc]. set_solver. }
    intros b r' [Hb Hout]. pose proof Hout as (? & ? & ? & _). split_and!; [done..|].
    eapply checksum_outcome; [exact Hout| |done]. intros Hf. rewrite Hf in Hb. symmetry in Hb. apply bool_decide_eq_false in Hb. set_solver.
  - eapply wp_mono; [apply AddRemoveServers_ok; [done|done|]|].
    { eapply no_collision_sub; [|exact Hnc]. set_solver. }
    intros b r' [Hb Hout]. pose proof Hout as (? & ? & ? & _). split_and!; [done..|].
    eapply checksum_outcome; [exact Hout| |done]. intros Hf. rewrite Hf in Hb. symmetry in Hb. apply orb_false_iff in Hb as [Hb1%bool_decide_eq_false Hb2%bool_decide_eq_false].
    destruct (decide (list_to_set add ⊆ serverSet r)) as [Hs|]; [|done].
    destruct (decide (list_to_set remove ## serverSet r ∪ list_to_set add)); set_solver.
Qed.

Lemma absOp_sub S op U : S ⊆ U → added op ⊆ U → absOp S op ⊆ U.
Proof. destruct op; simpl; set_solver. Qed.

Lemma runOps_ok U ops r :
  checksum_ok r → ring_ok hashfunc r → no_collision hashfunc (replicaPoints r) U → serverSet r ⊆ U →
  Forall (λ op, added op ⊆ U) ops →
  wp (runOps ops) (λ _ r', ring_ok hashfunc r' ∧ serverSet r' = foldl absOp (serverSet r) ops ∧
    replicaPoints r' = replicaPoints r ∧ serverSet r' ⊆ U ∧ checksum_ok r') r.
Proof.
  intros Hck Hok Hnc HS Hops. revert r Hck Hok Hnc HS.
  induction Hops as [|op ops Hop _ IH]; intros r Hck Hok Hnc HS; simpl; [by apply wp_ret|].
  apply wp_bind, wp_bind. eapply wp_mono; [by apply (runOp_ok U)|].
  intros b r' (Hok' & HS' & Hrp & Hck'). apply wp_ret.
  eapply wp_mono; [apply IH; [done|done|by rewrite Hrp|rewrite HS'; by apply absOp_sub]|].
  intros _ r'' (? & Heq & Hrp' & ? & ?). rewrite HS' in Heq. split_and!; [done|done|congruence|done..].
Qed.

Lemma New_ok rp : ring_ok hashfunc (New (T := rbheap) rp).
Proof. apply tree_new_ok. Qed.

Lemma New_checksum rp : checksum_ok (New rp).
Proof. by right. Qed.

(** C1: refinement of the ring.  Starting from [New], any history of
    [AddServer], [RemoveServer] and [AddRemoveServers] calls runs without a
    panic and ends in a ring whose server set is the one computed by the
    abstract set operations and whose tree holds exactly the replica points of
    that set, provided no two of the servers involved share a hash value. *)
Theorem ring_history_refines rp ops U :
  no_collision hashfunc rp U → Forall (λ op, added op ⊆ U) ops →
  ∃ r, runOps ops (New rp) = Some (tt, r) ∧ ring_ok hashfunc r ∧
    serverSet r = foldl absOp ∅ ops.
Proof.
  intros Hnc Hops. destruct (wp_run _ _ _ (runOps_ok U ops (New rp) (New_checksum rp) (New_ok rp) Hnc (empty_subseteq _) Hops))
    as ([] & r & Hrun & Hok & HS & _). eauto.
Qed.

(** C14: two members that hold the same servers agree on ownership, whatever
    the order in which the servers came and went: after two histories that end
    with the same set, of servers whose replica points all have different hash
    values, on rings with the same number of replica points (at least one),
    [Lookup] returns the same answer for every key, [LookupN] returns the same servers up to order, and unless the rings are
    empty their checksums are equal. *)
Theorem ring_history_independent rp ops1 ops2 U r1 r2 c1 c2 key n :
  1 ≤ rp → no_collision hashfunc rp U →
  Forall (λ op, added op ⊆ U) ops1 → Forall (λ op, added op ⊆ U) ops2 →
  foldl absOp ∅ ops1 = foldl absOp ∅ ops2 →
  runOps ops1 (New rp) = Some (tt, r1) → runOps ops2 (New rp) = Some (tt, r2) →
  (∃ res, Lookup hashfunc c1 key r1 = Some (res, r1) ∧ Lookup hashfunc c2 key r2 = Some (res, r2)) ∧
  (∃ l1 l2, LookupN hashfunc c1 key n r1 = Some (l1, r1) ∧
     LookupN hashfunc c2 key n r2 = Some (l2, r2) ∧ l1 ≡ₚ l2) ∧
  (serverSet r1 = serverSet r2) ∧ (serverSet r1 = ∅ ∨ checksum r1 = checksum r2).
Proof.
  intros Hrp Hnc H1 H2 Heq Hr1 Hr2.
  pose proof (runOps_ok U ops1 (New rp) (New_checksum rp) (New_ok rp) Hnc (empty_subseteq _) H1) as Hw1.
  pose proof (runOps_ok U ops2 (New rp) (New_checksum rp) (New_ok rp) Hnc (empty_subseteq _) H2) as Hw2.
  unfold wp in Hw1, Hw2. rewrite Hr1 in Hw1. rewrite Hr2 in Hw2.
  destruct Hw1 as (Hok1 & HS1 & Hrp1 & HU1 & Hck1), Hw2 as (Hok2 & HS2 & Hrp2 & HU2 & Hck2).
  simpl in HS1, HS2, Hrp1, Hrp2.
  assert (serverSet r1 = serverSet r2) as HS by congruence.
  assert (no_collision hashfunc (replicaPoints r1) (serverSet r1)) as Hnc1.
  { rewrite Hrp1. by eapply no_collision_sub. }
  assert (no_collision hashfunc (replicaPoints r2) (serverSet r2)) as Hnc2.
  { rewrite Hrp2. by eapply no_collision_sub. }
  rewrite <-Hrp1 in Hrp. pose proof Hrp as Hrp'. rewrite Hrp1, <-Hrp2 in Hrp'.
  destruct (wp_run _ _ _ (Lookup_ok _ hash_range c1 r1 key Hrp Hok1 Hnc1)) as (x1 & ? & E1 & -> & ->).
  destruct (wp_run _ _ _ (Lookup_ok _ hash_range c2 r2 key Hrp' Hok2 Hnc2)) as (x2 & ? & E2 & -> & ->).
  destruct (wp_run _ _ _ (LookupN_ok _ hash_range c1 r1 key n Hrp Hok1 Hnc1)) as (y1 & ? & E3 & -> & ->).
  destruct (wp_run _ _ _ (LookupN_ok _ hash_range c2 r2 key n Hrp' Hok2 Hnc2)) as (y2 & ? & E4 & -> & ->).
  split_and!; [| |done|].
  - rewrite E1, E2, Hrp1, Hrp2, HS. eauto.
  - do 2 eexists. split_and!; [done..|]. by rewrite !arrange_perm, Hrp1, Hrp2, HS.
  - destruct Hck1 as [Hc1|[? _]]; [|by left]. destruct Hck2 as [Hc2|[? _]]; [|left; congruence].
    right. by rewrite Hc1, Hc2, HS.
Qed.

(** [AddRemoveServers] first adds, then removes: the new server set is
    (old + add) - remove, the call reports a change exactly when some added
    server was new or some removed server was present, and on a change it
    stores the checksum of the new set and sends every listener one
    [RingChecksumEvent] and then one [RingChangedEvent] with the arguments. *)
Theorem AddRemoveServers_contract c (r : HashRing rbheap) add remove :
  ring_ok hashfunc r →
  no_collision hashfunc (replicaPoints r) (serverSet r ∪ list_to_set add) →
  ∃ b r', AddRemoveServers hashfunc Fingerprint32 c add remove r = Some (b, r') ∧
    (b = true ↔ (∃ s, s ∈ add ∧ s ∉ serverSet r) ∨ (∃ s, s ∈ remove ∧ (s ∈ serverSet r ∨ s ∈ add))) ∧
    outcome hashfunc Fingerprint32 r ((serverSet r ∪ list_to_set add) ∖ list_to_set remove)
      add remove b r'.
Proof.
  intros Hok Hnc.
  destruct (wp_run _ _ _ (AddRemoveServers_ok _ hash_range Fingerprint32 c r add remove Hok Hnc))
    as (b & r' & Hrun & Hb & Hout).
  exists b, r'. split_and!; [done| |done]. rewrite Hb, orb_true_iff, !bool_decide_eq_true. split.
  - intros [Hs|Hs].
    + left. destruct (set_choose_or_empty (list_to_set add ∖ serverSet r)) as [[s ?]|?];
        [exists s; set_solver|].
      destruct Hs. intros x Hx. destruct (decide (x ∈ serverSet r)); set_solver.
    + right. destruct (set_choose_or_empty (list_to_set remove ∩ (serverSet r ∪ list_to_set add)))
        as [[s ?]|?]; [exists s; set_solver|exfalso; set_solver].
  - intros [(s & Hs & Hs')|(s & Hs & Hs')]; [left|right]; set_solver.
Qed.

(** [LookupN] returns distinct servers of the ring, exactly min(n, number
    of servers) of them, and they are the first ones met clockwise from the
    hash of the key; the ring does not change. *)
Theorem LookupN_returns_n_owners c (r : HashRing rbheap) key n :
  1 ≤ replicaPoints r → 0 ≤ n → ring_ok hashfunc r →
  no_collision hashfunc (replicaPoints r) (serverSet r) →
  ∃ l, LookupN hashfunc c key n r = Some (l, r) ∧ NoDup l ∧
    Z.of_nat (length l) = Z.min n (Z.of_nat (base.size (serverSet r))) ∧
    (∀ s, s ∈ l → s ∈ serverSet r) ∧
    list_to_set l = owners hashfunc (replicaPoints r) (serverSet r) key n.
Proof using hash_range.
  clear Fingerprint32. intros Hrp Hn Hok Hnc.
  destruct (wp_run _ _ _ (LookupN_ok _ hash_range c r key n Hrp Hok Hnc)) as (l & ? & Hrun & -> & ->).
  destruct (owners_size _ hash_range _ _ key n Hrp Hnc Hn) as [Hsz Hsub].
  eexists. split; [exact Hrun|]. split_and!.
  - rewrite arrange_perm. apply NoDup_elements.
  - by rewrite arrange_perm, <-Hsz.
  - intros s. rewrite arrange_perm, elem_of_elements. set_solver.
  - apply set_eq. intros s. by rewrite elem_of_list_to_set, arrange_perm, elem_of_elements.
Qed.

(** C12: consistent hashing, on a ring with at least one replica point per server
    and as long as no two replica points of its servers and of the server that
    leaves or joins have the same hash value.  When a server other than the
    owner of a key leaves, the owner stays; when a server joins, the key stays
    with its owner or moves to the new server, never to a third one. *)
Theorem consistent_hashing c1 c2 c3 c4 c5 (r : HashRing rbheap) key x o :
  1 ≤ replicaPoints r → ring_ok hashfunc r →
  no_collision hashfunc (replicaPoints r) ({[x]} ∪ serverSet r) →
  Lookup hashfunc c1 key r = Some ((o, true), r) →
  (x ≠ o → ∃ b r', RemoveServer hashfunc Fingerprint32 c2 x r = Some (b, r') ∧
     Lookup hashfunc c3 key r' = Some ((o, true), r')) ∧
  (∃ b r', AddServer hashfunc Fingerprint32 c4 x r = Some (b, r') ∧
     (Lookup hashfunc c5 key r' = Some ((o, true), r') ∨
      Lookup hashfunc c5 key r' = Some ((x, true), r'))).
Proof.
  intros Hrp Hok Hncx HL.
  assert (no_collision hashfunc (replicaPoints r) (serverSet r)) as Hnc
    by (eapply no_collision_sub; [|exact Hncx]; set_solver).
  assert (owner hashfunc (replicaPoints r) (serverSet r) key = Some o ∧ o ∈ serverSet r) as [Ho Hin].
  { pose proof (Lookup_ok _ hash_range c1 r key Hrp Hok Hnc) as Hw. unfold wp in Hw. rewrite HL in Hw.
    destruct Hw as [_ Hw]. unfold owner in *.
    pose proof (ring_walk_set _ hash_range _ _ key Hrp Hnc) as Hset.
    destruct (ring_walk _ _ _ _) as [|o' w] eqn:Hwalk; simpl in Hw; simplify_eq. set_solver. }
  split.
  - intros Hne.
    destruct (wp_run _ _ _ (RemoveServer_ok _ hash_range Fingerprint32 c2 r x Hok Hnc))
      as (b & r' & Hrun & _ & Hok' & HS' & Hrp' & _).
    exists b, r'. split; [done|].
    assert (no_collision hashfunc (replicaPoints r') (serverSet r')) as Hnc'.
    { rewrite HS', Hrp'. eapply no_collision_sub; [|exact Hnc]. set_solver. }
    rewrite <-Hrp' in Hrp.
    destruct (wp_run _ _ _ (Lookup_ok _ hash_range c3 r' key Hrp Hok' Hnc')) as (res & ? & Hrun' & -> & ->).
    rewrite Hrun', HS', Hrp'. erewrite (owner_sub _ hash_range _ (serverSet r)); [done|set_solver|done|done|set_solver].
  - destruct (wp_run _ _ _ (AddServer_ok _ hash_range Fingerprint32 c4 r x Hok Hncx))
      as (b & r' & Hrun & _ & Hok' & HS' & Hrp' & _).
    exists b, r'. split; [done|].
    assert (no_collision hashfunc (replicaPoints r') (serverSet r')) as Hnc' by (by rewrite HS', Hrp').
    rewrite <-Hrp' in Hrp.
    destruct (wp_run _ _ _ (Lookup_ok _ hash_range c5 r' key Hrp Hok' Hnc')) as (res & ? & Hrun' & -> & ->).
    rewrite Hrun', HS', Hrp'. unfold owner in *.
    pose proof (ring_walk_set _ hash_range _ _ key Hrp Hnc') as Hset. rewrite HS', Hrp' in Hset.
    pose proof (ring_walk_sub _ hash_range (replicaPoints r) ({[x]} ∪ serverSet r) (serverSet r) key) as Hsub.
    rewrite Hsub in Ho by (done || set_solver).
    destruct (ring_walk _ _ ({[x]} ∪ _) _) as [|s w] eqn:Hw; [done|]. simpl.
    rewrite filter_cons in Ho. destruct (decide (s ∈ serverSet r)); simplify_eq/=; [by left|right].
    assert (s ∈ ({[x]} : gset string) ∪ serverSet r) by (rewrite <-Hset; set_solver). set_solver.
Qed.

(** ** Ambiguous replica names

    A replica is named by appending its number to the address with nothing in
    between, so "10.0.0.1:300" and "10.0.0.1:3001" both have a replica called
    "10.0.0.1:30011". *)
Definition portA : string := "10.0.0.1:300".
Definition portB : string := "10.0.0.1:3001".

(** Adding a server keeps taken points and fills the free ones of its own. *)
Lemma add_server_points (r : HashRing rbheap) m a c :
  tree_repr (tree r) m → a ∉ serverSet r →
  wp (AddServer hashfunc Fingerprint32 c a)
    (λ b r', b = true ∧ tree_repr (tree r') (foldl (add_point hashfunc a) m (seqZ 0 (replicaPoints r))) ∧
       serverSet r' = {[a]} ∪ serverSet r ∧ replicaPoints r' = replicaPoints r ∧
       checksum r' = csum Fingerprint32 (serverSet r')) r.
Proof.
  intros Hm Hin. unfold AddServer, addServerNoLock. apply wp_bind, wp_bind, wp_gets.
  rewrite bool_decide_false by done. apply wp_bind. unfold addReplicasNoLock.
  apply wp_bind, wp_modify, wp_bind, wp_gets.
  eapply wp_mono; [eapply (replica_loop _ (add_point hashfunc a)); [|exact Hm]|].
  - intros t m' i Ht. eapply wp_mono; [by apply tree_insert_ok|].
    intros b t' [-> Ht']. unfold add_point. by case_bool_decide.
  - intros [] r' (t' & -> & Ht'). apply wp_ret, wp_bind. eapply wp_eq; [apply announce_ok|].
    by apply wp_ret.
Qed.

Lemma from_head m v s : m !! v = Some s → ∃ l, from v m = s :: l.
Proof.
  intros Hv%elem_of_clockwise. unfold from. pose proof (clockwise_sorted m) as Hs.
  apply list_elem_of_split in Hv as (l1 & l2 & Heq). rewrite Heq in *.
  rewrite filter_app. assert (filter (λ x : point, v ≤ x.1) l1 = []) as ->.
  { apply filter_none, Forall_forall. intros x Hx Hle.
    apply (StronglySorted_app_1_elem_of _ _ _ x (v, s)) in Hs; [|done|set_solver].
    unfold plt in Hs. simpl in Hs. lia. }
  rewrite filter_cons, decide_True by (simpl; lia). simpl. eauto.
Qed.

(** With two servers or more, the owner of a taken point is whoever holds it. *)
Lemma lookup_at_point (r : HashRing rbheap) m c key s :
  tree_repr (tree r) m → (1 < base.size (serverSet r))%nat → m !! hashfunc key = Some s →
  Lookup hashfunc c key r = Some ((s, true), r).
Proof.
  intros Hm Hsz Hv. destruct (from_head _ _ _ Hv) as [l Hl].
  assert (wp (Lookup hashfunc c key) (λ res r', res = (s, true) ∧ r' = r) r) as Hw.
  { unfold Lookup, LookupN, lookupNNoLock. apply wp_bind, wp_bind, wp_gets.
    rewrite bool_decide_false by lia. apply wp_bind, wp_onTree.
    eapply wp_mono; [by apply tree_lookup_ok|]. intros res t [-> ->]. rewrite Hl, addUnique_one.
    rewrite size_singleton, bool_decide_false by lia. apply wp_bind, wp_ret.
    rewrite elements_singleton, arrange_one. apply wp_ret, wp_ret. split; [done|]. by destruct r. }
  by destruct (wp_run _ _ _ Hw) as (? & ? & ? & -> & ->).
Qed.

Lemma ambiguous_order rp a b i j :
  i ∈ seqZ 0 rp → j ∈ seqZ 0 rp → a ≠ b → sprint_sv a i = sprint_sv b j →
  wp (AddServer hashfunc Fingerprint32 [] a;; AddServer hashfunc Fingerprint32 [] b)
    (λ _ r, serverSet r = {[a; b]} ∧ checksum r = csum Fingerprint32 {[a; b]} ∧
       ∀ c, Lookup hashfunc c (sprint_sv a i) r = Some ((a, true), r)) (New rp).
Proof.
  intros Hi Hj Hab Heq. apply wp_bind. eapply wp_mono.
  { apply (add_server_points (New rp) ∅ a); [apply tree_new_ok|set_solver]. }
  intros _ r1 (_ & Ht1 & HS1 & Hrp1 & _). simpl in HS1, Hrp1. rewrite union_empty_r_L in HS1.
  eapply wp_mono; [eapply (add_server_points r1 (foldl (add_point hashfunc a) ∅ (seqZ 0 rp)) b);
    [exact Ht1|set_solver]|].
  intros _ r2 (_ & Ht2 & HS2 & Hrp2 & Hck). rewrite HS1 in HS2.
  assert (serverSet r2 = {[a; b]}) as HS by set_solver. rewrite HS in Hck. split_and!; [done..|].
  intros c. eapply lookup_at_point; [exact Ht2| |].
  - rewrite HS, size_union, !size_singleton by set_solver. lia.
  - rewrite lookup_add_points by done. rewrite lookup_add_points by done.
    rewrite lookup_empty, bool_decide_true; [done|]. unfold hashes. apply list_elem_of_fmap. by exists i.
Qed.

(** Whatever the hash function, with at least twelve replica points the
    order in which these two servers are added decides who owns a key: both
    orders give the same server set and the same checksum, but [Lookup] of the
    shared replica name answers differently.  [Insert] drops the point of the
    server that comes second. *)
Theorem ring_depends_on_insertion_order rp :
  12 ≤ rp →
  ∃ b1 b2 r1 r2,
    (AddServer hashfunc Fingerprint32 [] portA;; AddServer hashfunc Fingerprint32 [] portB) (New rp)
      = Some (b1, r1) ∧
    (AddServer hashfunc Fingerprint32 [] portB;; AddServer hashfunc Fingerprint32 [] portA) (New rp)
      = Some (b2, r2) ∧
    serverSet r1 = serverSet r2 ∧ checksum r1 = checksum r2 ∧
    (∀ c, Lookup hashfunc c "10.0.0.1:30011" r1 = Some ((portA, true), r1)) ∧
    (∀ c, Lookup hashfunc c "10.0.0.1:30011" r2 = Some ((portB, true), r2)).
Proof.
  intros Hrp. assert (∀ i, 0 ≤ i < 12 → i ∈ seqZ 0 rp) as Hi by (intros; apply elem_of_seqZ; lia).
  destruct (wp_run _ _ _ (ambiguous_order rp portA portB 11 1 (Hi 11 ltac:(lia)) (Hi 1 ltac:(lia))
    ltac:(done) eq_refl)) as (b1 & r1 & E1 & S1 & C1 & L1).
  destruct (wp_run _ _ _ (ambiguous_order rp portB portA 1 11 (Hi 1 ltac:(lia)) (Hi 11 ltac:(lia))
    ltac:(done) eq_refl)) as (b2 & r2 & E2 & S2 & C2 & L2).
  assert ({[portA; portB]} = ({[portB; portA]} : gset string)) as HAB by set_solver.
  exists b1, b2, r1, r2. split_and!; [done|done|congruence|congruence|exact L1|exact L2].
Qed.
End history.

(** ** Witnesses: a ring of three servers with two points each *)
Definition sampleHash (s : string) : Z :=
  foldl (λ h c, (31 * h + Z.of_N (Ascii.N_of_ascii c)) mod 2^32) 7 (String.list_ascii_of_string s).

Lemma sampleHash_range s : hash32 (sampleHash s).
Proof.
  unfold sampleHash. generalize (String.list_ascii_of_string s) as l.
  assert (∀ l h, hash32 h →
    hash32 (foldl (λ h c, (31 * h + Z.of_N (Ascii.N_of_ascii c)) mod 2^32) h l)) as Hgen.
  { induction l as [|c l IH]; intros h Hh; simpl; [done|]. apply IH. apply Z.mod_pos_bound. lia. }
  intros l. apply Hgen. unfold hash32. lia.
Qed.

(** A decidable form of [no_collision], which hashes every name once. *)
Definition no_collision_check (hashfunc : string → Z) (rp : Z) (S : gset string) : bool :=
  let table := (λ s, (s, hashes hashfunc s (seqZ 0 rp))) <$> elements S in
  forallb (λ x : string * list Z, forallb (λ y : string * list Z, String.eqb x.1 y.1 ||
    forallb (λ v, negb (existsb (Z.eqb v) y.2)) x.2) table) table.

Lemma no_collision_checked hashfunc rp S :
  no_collision_check hashfunc rp S = true → no_collision hashfunc rp S.
Proof.
  intros Hc s s' v Hs Hs' Hv Hv'. unfold no_collision_check in Hc. rewrite List.forallb_forall in Hc.
  assert (∀ x, x ∈ S → In (x, hashes hashfunc x (seqZ 0 rp)) ((λ s, (s, hashes hashfunc s (seqZ 0 rp))) <$> elements S)) as Hin.
  { intros x Hx. apply list_elem_of_In, list_elem_of_fmap. exists x. split; [done|]. by apply elem_of_elements. }
  specialize (Hc _ (Hin s Hs)). rewrite List.forallb_forall in Hc. specialize (Hc _ (Hin s' Hs')). simpl in Hc.
  apply orb_true_iff in Hc as [Hc|Hc]; [by apply String.eqb_eq in Hc|].
  rewrite List.forallb_forall in Hc. apply list_elem_of_In in Hv, Hv'. specialize (Hc v Hv).
  apply negb_true_iff in Hc. assert (existsb (Z.eqb v) (hashes hashfunc s' (seqZ 0 rp)) = true); [|congruence].
  apply List.existsb_exists. exists v. split; [done|apply Z.eqb_refl].
Qed.

(** The program's own hash function, with the default number of points. *)
Lemma fingerprint_range s : hash32 (fingerprint s).
Proof. apply fingerprint_word. Qed.

Definition clusterU : gset string := {["10.0.0.1:3000"; "10.0.0.2:3000"; "10.0.0.3:3000"]}.
Lemma clusterU_ok : no_collision fingerprint 100 clusterU.
Proof. apply no_collision_checked. vm_compute. reflexivity. Qed.

Definition sampleU : gset string := {["a"; "b"; "c"]}.
Lemma sampleU_ok : no_collision sampleHash 2 sampleU.
Proof. apply no_collision_checked. by vm_compute. Qed.

Definition sampleRing : HashRing rbheap :=
  match runOps sampleHash sampleHash [OpAdd [] "a"; OpAdd [] "b"] (New 2) with
  | Some (_, r) => r
  | None => New 2
  end.

Lemma sampleRing_ok : ring_ok sampleHash sampleRing ∧ serverSet sampleRing = {["a"; "b"]} ∧
  replicaPoints sampleRing = 2.
Proof.
  pose proof (runOps_ok sampleHash sampleHash sampleHash_range sampleU [OpAdd [] "a"; OpAdd [] "b"]
    (New 2) (New_checksum _ 2) (New_ok _ 2) sampleU_ok (empty_subseteq _)) as Hw.
  unfold wp in Hw. unfold sampleRing. destruct (runOps _ _ _ _) as [[[] r]|].
  - destruct Hw as (Hok & HS & Hrp & _); [apply (bool_decide_unpack _); by vm_compute|].
    split_and!; [done| |done]. rewrite HS. by vm_compute.
  - destruct Hw. apply (bool_decide_unpack _); by vm_compute.
Qed.

Lemma sampleRing_nc (S : gset string) : S ⊆ sampleU → no_collision sampleHash (replicaPoints sampleRing) S.
Proof.
  intros HS. destruct sampleRing_ok as (_ & _ & ->).
  eapply no_collision_sub; [exact HS|apply sampleU_ok].
Qed.

Lemma ring_history_refines_witness :
  ∃ r, runOps fingerprint fingerprint
      [OpAdd [] "10.0.0.1:3000"; OpAddRemove [] ["10.0.0.2:3000"; "10.0.0.3:3000"] ["10.0.0.1:3000"]] (New 100)
      = Some (tt, r) ∧
    ring_ok fingerprint r ∧ serverSet r = {["10.0.0.2:3000"; "10.0.0.3:3000"]}.
Proof.
  destruct (ring_history_refines fingerprint fingerprint fingerprint_range 100
    [OpAdd [] "10.0.0.1:3000"; OpAddRemove [] ["10.0.0.2:3000"; "10.0.0.3:3000"] ["10.0.0.1:3000"]] clusterU)
    as (r & Hrun & Hok & HS).
  - exact clusterU_ok.
  - apply (bool_decide_unpack _). vm_compute. reflexivity.
  - exists r. split; [exact Hrun|]. split; [exact Hok|]. rewrite HS. vm_compute. reflexivity.
Defined.

Lemma ring_history_independent_witness :
  ∃ r1 r2, runOps sampleHash sampleHash [OpAdd [] "a"; OpAdd [] "b"] (New 2) = Some (tt, r1) ∧
    runOps sampleHash sampleHash [OpAddRemove [] ["c"; "b"; "a"] ["c"]] (New 2) = Some (tt, r2) ∧
    ∃ res, Lookup sampleHash [] "key" r1 = Some (res, r1) ∧ Lookup sampleHash [] "key" r2 = Some (res, r2).
Proof.
  destruct (runOps sampleHash sampleHash [OpAdd [] "a"; OpAdd [] "b"] (New 2)) as [[[] r1]|] eqn:E1;
    [|by vm_compute in E1].
  destruct (runOps sampleHash sampleHash [OpAddRemove [] ["c"; "b"; "a"] ["c"]] (New 2))
    as [[[] r2]|] eqn:E2; [|by vm_compute in E2].
  exists r1, r2. split; [done|]. split; [done|].
  refine (proj1 (ring_history_independent sampleHash sampleHash sampleHash_range 2 _ _ sampleU r1 r2
    [] [] "key" 1 _ sampleU_ok _ _ _ E1 E2)).
  - lia.
  - apply (bool_decide_unpack _); by vm_compute.
  - apply (bool_decide_unpack _); by vm_compute.
  - by vm_compute.
Defined.

Lemma AddRemoveServers_contract_witness :
  ∃ b r', AddRemoveServers sampleHash sampleHash [] ["c"] ["a"] sampleRing = Some (b, r') ∧ b = true.
Proof.
  destruct (AddRemoveServers_contract sampleHash sampleHash sampleHash_range [] sampleRing ["c"] ["a"])
    as (b & r' & Hrun & Hb & _).
  - apply sampleRing_ok.
  - apply sampleRing_nc. apply (bool_decide_unpack _). by vm_compute.
  - exists b, r'. split; [exact Hrun|]. apply Hb. right. exists "a". apply (bool_decide_unpack _). by vm_compute.
Defined.

Lemma LookupN_returns_n_owners_witness :
  ∃ l, LookupN sampleHash [] "key" 1 sampleRing = Some (l, sampleRing) ∧ length l = 1%nat.
Proof.
  destruct (LookupN_returns_n_owners sampleHash sampleHash_range [] sampleRing "key" 1)
    as (l & Hrun & _ & Hlen & _).
  - destruct sampleRing_ok as (_ & _ & ->). lia.
  - lia.
  - apply sampleRing_ok.
  - apply sampleRing_nc. apply (bool_decide_unpack _). by vm_compute.
  - exists l. split; [exact Hrun|]. destruct sampleRing_ok as (_ & HS & _). rewrite HS in Hlen.
    rewrite size_union, !size_singleton in Hlen by (apply (bool_decide_unpack _); by vm_compute). simpl in Hlen. lia.
Defined.

Lemma consistent_hashing_witness :
  ∃ b r', RemoveServer sampleHash sampleHash [] "c" sampleRing = Some (b, r') ∧
     Lookup sampleHash [] "key" r' = Some (("a", true), r').
Proof.
  refine (proj1 (consistent_hashing sampleHash sampleHash sampleHash_range [] [] [] [] [] sampleRing
    "key" "c" "a" _ _ _ _) _).
  - destruct sampleRing_ok as (_ & _ & ->). lia.
  - apply sampleRing_ok.
  - apply sampleRing_nc. apply (bool_decide_unpack _). by vm_compute.
  - by vm_compute.
  - done.
Defined.

Lemma ring_depends_on_insertion_order_witness :
  ∃ b1 r1, (AddServer sampleHash sampleHash [] portA;; AddServer sampleHash sampleHash [] portB) (New 12)
      = Some (b1, r1) ∧ ∀ c, Lookup sampleHash c "10.0.0.1:30011" r1 = Some ((portA, true), r1).
Proof.
  destruct (ring_depends_on_insertion_order sampleHash sampleHash sampleHash_range 12)
    as (b1 & b2 & r1 & r2 & E1 & _ & _ & _ & L1 & _); [lia|].
  exists b1, r1. split; [exact E1|exact L1].
Defined.
