(* ===== verification/NodeState.v ===== *)
(** * NodeState: the state of a SWIM node

    One record per Go struct of the package swim, gathered in [Node].  What
    the outside world decides (the clock, the random generator, the order of
    map iterations, the replies of peers, the fingerprint function) is in
    [Env]: streams from which each use takes the next element, counted by
    [tick], so that the methods are executable and the theorems hold for every
    behaviour of the world. *)
From S2P Require Import Prelude GoStd.
#[local] Open Scope Z_scope.

(** ** member.go: members and changes *)
Definition Alive : string := "alive".
Definition Suspect : string := "suspect".
Definition Faulty : string := "faulty".
Definition Leave : string := "leave".

Record Member : Type := mkMember {
  m_Address : string;
  m_Status : string;
  m_Incarnation : Z
}.

Record Change : Type := mkChange {
  c_Source : string;
  c_SourceIncarnation : Z;
  c_Address : string;
  c_Incarnation : Z;
  c_Status : string;
  c_Timestamp : Z
}.

#[global] Instance Change_eq_dec : EqDecision Change.
Proof. solve_decision. Defined.
#[global] Instance Member_eq_dec : EqDecision Member.
Proof. solve_decision. Defined.

(** ** Messages *)
Record ping : Type := mkPing {
  pi_Changes : list Change;
  pi_Checksum : Z;
  pi_Source : string;
  pi_SourceIncarnation : Z
}.
Record pingRequest : Type := mkPingRequest {
  pr_Source : string;
  pr_SourceIncarnation : Z;
  pr_Target : string;
  pr_Checksum : Z;
  pr_Changes : list Change
}.
Record pingResponse : Type := mkPingResponse {
  ps_Ok : bool;
  ps_Target : string;
  ps_Changes : list Change
}.
Record joinRequest : Type := mkJoinRequest {
  jq_App : string;
  jq_Source : string;
  jq_Incarnation : Z;
  jq_Timeout : Z
}.
Record joinResponse : Type := mkJoinResponse {
  jr_App : string;
  jr_Coordinator : string;
  jr_Membership : list Change;
  jr_Checksum : Z
}.

(** Errors as values. *)
Inductive swimError : Type :=
| ErrCall
| ErrPingTimeout
| ErrPingRequestTimeout
| ErrNodeNotReady
| ErrJoinSelf
| ErrJoinApp
| ErrNotImplemented
| ErrChannelRequired
| ErrNoDiscoverProvider
| ErrProvider
| ErrNoHosts
| ErrDestroyed
| ErrJoinDuration (duration max : Z).

(** ** events.go *)
Inductive swimEvent : Type :=
| MaxPAdjustedEvent (OldPCount NewPCount : Z)
| MemberlistChangesReceivedEvent (Changes : list Change)
| MemberlistChangesAppliedEvent (Changes : list Change) (OldChecksum NewChecksum NumMembers : Z)
| FullSyncEvent (Remote : string) (RemoteChecksum : Z)
| JoinReceiveEvent (Local Source : string)
| JoinCompleteEvent (Duration NumJoined : Z) (Joined : list string)
| JoinFailedEvent (Reason : string) (Error : option swimError)
| PingSendEvent (Local Remote : string) (Changes : list Change)
| PingSendCompleteEvent (Local Remote : string) (Changes : list Change) (Duration : Z)
| PingReceiveEvent (Local Source : string) (Changes : list Change)
| PingRequestsSendEvent (Local Target : string) (Peers : list string)
| PingRequestSendErrorEvent (Local Target : string) (Peers : list string) (Peer : string)
| PingRequestsSendCompleteEvent (Local Target : string) (Peers : list string) (Peer : string) (Duration : Z)
| PingRequestReceiveEvent (Local Source Target : string) (Changes : list Change)
| PingRequestPingEvent (Local Source Target : string) (Duration : Z)
| ProtocolDelayComputeEvent (Duration : Z)
| ProtocolFrequencyEvent (Duration : Z)
| ChecksumComputeEvent (Duration Checksum : Z)
| ChangesCalculatedEvent (Changes : list Change)
| ChangeFilteredEvent (change : Change)
| JoinTriesUpdateEvent (Retries : Z)
| MakeNodeStatusEvent (Status : string)
| RequestBeforeReadyEvent (Endpoint : string)
| RefuteUpdateEvent.

(** ** The outside world *)

(** How a remote call ends: a reply, an error, or the caller's timeout.  After
    a timeout the calling goroutine lives on and may still see the call
    succeed ([late]). *)
Inductive outcome (R : Type) : Type :=
| Replied (res : R)
| Failed
| TimedOut (late : bool).
Arguments Replied {R} res.
Arguments Failed {R}.
Arguments TimedOut {R} late.

(** [doubledMedian] is twice the 0.5 percentile that the metrics library's
    histogram reports for the samples it was given. *)
Record Env : Type := mkEnv {
  times : nat → Z;
  rands : nat → nat;
  orders : nat → choice;
  pings : nat → outcome ping;
  pingReqs : nat → outcome pingResponse;
  joins : nat → outcome joinResponse;
  fingerprint32 : string → Z;
  doubledMedian : list Z → Z
}.

(** ** The structs *)
Definition loc : Type := positive.

(** memberlist: pointers to members, in a store of their own. *)
Record memberlist : Type := mkMemberlist {
  heap : gmap loc Member;
  local : option loc;
  list_ : list loc;
  byAddress : gmap string loc;
  ml_checksum : Z
}.

(** memberlistIter *)
Record memberlistIter : Type := mkIter {
  currentIndex : Z;
  currentRound : Z
}.

(** disseminator and pChange *)
Record pChange : Type := mkPChange {
  pc_Change : Change;
  pc_p : Z
}.
Record disseminator : Type := mkDisseminator {
  changes : gmap string pChange;
  maxP : Z;
  pFactor : Z
}.

(** suspicion: a timer remembers the suspect it was started for. *)
Record timer : Type := mkTimer {
  t_address : string;
  t_incarnation : Z
}.
Record suspicion : Type := mkSuspicion {
  timeout : Z;
  timers : gmap string timer;
  enabled : bool
}.

(** updateRollup: [None] is Go's zero time, respectively a nil timer. *)
Record updateRollup : Type := mkRollup {
  maxUpdates : Z;
  flushInterval : Z;
  updates : gmap string (list Change);
  flushTimer : option Z;
  firstUpdate : option Z;
  lastFlush : option Z;
  lastUpdate : option Z
}.

(** gossip: [timing] holds the samples given to the histogram. *)
Record gossip : Type := mkGossip {
  g_stopped : bool;
  minProtocolPeriod : Z;
  numPeriods : Z;
  lastPeriod : Z;
  lastRate : Z;
  timing : list Z
}.

(** Node *)
Record nodeFlags : Type := mkFlags {
  stopped : bool;
  destroyed : bool;
  pinging : bool;
  ready : bool
}.
Record nodeConfig : Type := mkConfig {
  n_app : string;
  n_address : string;
  n_channel : bool;
  pingRequestSize : Z;
  pingTimeout : Z;
  pingRequestTimeout : Z
}.

Record Node : Type := mkNode {
  config : nodeConfig;
  state : nodeFlags;
  n_memberlist : memberlist;
  n_memberiter : memberlistIter;
  n_disseminator : disseminator;
  n_suspicion : suspicion;
  n_rollup : updateRollup;
  n_gossip : gossip;
  startTime : Z;
  serverRate : Z;
  totalRate : Z;
  listeners : list nat;
  emitted : list (nat * swimEvent);
  env : Env;
  tick : nat
}.

Abbreviation SW := (M Node).

(** ** Field updates *)
Section setters.
Context (n : Node).
Definition with_state x := mkNode (config n) x (n_memberlist n) (n_memberiter n) (n_disseminator n)
  (n_suspicion n) (n_rollup n) (n_gossip n) (startTime n) (serverRate n) (totalRate n) (listeners n)
  (emitted n) (env n) (tick n).
Definition with_memberlist x := mkNode (config n) (state n) x (n_memberiter n) (n_disseminator n)
  (n_suspicion n) (n_rollup n) (n_gossip n) (startTime n) (serverRate n) (totalRate n) (listeners n)
  (emitted n) (env n) (tick n).
Definition with_memberiter x := mkNode (config n) (state n) (n_memberlist n) x (n_disseminator n)
  (n_suspicion n) (n_rollup n) (n_gossip n) (startTime n) (serverRate n) (totalRate n) (listeners n)
  (emitted n) (env n) (tick n).
Definition with_disseminator x := mkNode (config n) (state n) (n_memberlist n) (n_memberiter n) x
  (n_suspicion n) (n_rollup n) (n_gossip n) (startTime n) (serverRate n) (totalRate n) (listeners n)
  (emitted n) (env n) (tick n).
Definition with_suspicion x := mkNode (config n) (state n) (n_memberlist n) (n_memberiter n)
  (n_disseminator n) x (n_rollup n) (n_gossip n) (startTime n) (serverRate n) (totalRate n) (listeners n)
  (emitted n) (env n) (tick n).
Definition with_rollup x := mkNode (config n) (state n) (n_memberlist n) (n_memberiter n)
  (n_disseminator n) (n_suspicion n) x (n_gossip n) (startTime n) (serverRate n) (totalRate n)
  (listeners n) (emitted n) (env n) (tick n).
Definition with_gossip x := mkNode (config n) (state n) (n_memberlist n) (n_memberiter n)
  (n_disseminator n) (n_suspicion n) (n_rollup n) x (startTime n) (serverRate n) (totalRate n)
  (listeners n) (emitted n) (env n) (tick n).
Definition with_startTime x := mkNode (config n) (state n) (n_memberlist n) (n_memberiter n)
  (n_disseminator n) (n_suspicion n) (n_rollup n) (n_gossip n) x (serverRate n) (totalRate n)
  (listeners n) (emitted n) (env n) (tick n).
Definition with_rates s t := mkNode (config n) (state n) (n_memberlist n) (n_memberiter n)
  (n_disseminator n) (n_suspicion n) (n_rollup n) (n_gossip n) (startTime n) s t
  (listeners n) (emitted n) (env n) (tick n).
Definition with_listeners x := mkNode (config n) (state n) (n_memberlist n) (n_memberiter n)
  (n_disseminator n) (n_suspicion n) (n_rollup n) (n_gossip n) (startTime n) (serverRate n) (totalRate n)
  x (emitted n) (env n) (tick n).
Definition with_emitted x := mkNode (config n) (state n) (n_memberlist n) (n_memberiter n)
  (n_disseminator n) (n_suspicion n) (n_rollup n) (n_gossip n) (startTime n) (serverRate n) (totalRate n)
  (listeners n) x (env n) (tick n).
Definition with_tick x := mkNode (config n) (state n) (n_memberlist n) (n_memberiter n)
  (n_disseminator n) (n_suspicion n) (n_rollup n) (n_gossip n) (startTime n) (serverRate n) (totalRate n)
  (listeners n) (emitted n) (env n) x.
End setters.

(** ** Reading the world *)
Definition sample {A} (stream : Env → nat → A) : SW A := λ n,
  Some (stream (env n) (tick n), with_tick n (S (tick n))).

Lemma wp_sample {A} (stream : Env → nat → A) (Q : A → Node → Prop) n :
  Q (stream (env n) (tick n)) (with_tick n (S (tick n))) → wp (sample stream) Q n.
Proof. done. Qed.

(** time.Now(), in nanoseconds *)
Definition now : SW Z := sample times.
(** rand.Intn(l) for [l > 0] *)
Definition intn (l : nat) : SW nat :=
  r ← sample rands; mret (r `mod` l)%nat.
Definition order : SW choice := sample orders.

(** ** The node's own accessors *)
Definition Address : SW string := gets (λ n, n_address (config n)).

Definition emit (e : swimEvent) : SW unit :=
  modify (λ n, with_emitted n (emitted n ++ ((λ l, (l, e)) <$> listeners n))).

Definition RegisterListener (l : nat) : SW unit :=
  modify (λ n, with_listeners n (listeners n ++ [l])).

Definition Stopped : SW bool := gets (λ n, stopped (state n)).
Definition Destroyed : SW bool := gets (λ n, destroyed (state n)).
Definition Ready : SW bool := gets (λ n, ready (state n)).

(** The member behind a pointer; a nil or dangling pointer panics. *)
Definition deref (p : option loc) : SW Member := λ n,
  match p with
  | Some l => match heap (n_memberlist n) !! l with Some m => Some (m, n) | None => None end
  | None => None
  end.

(** Incarnation returns -1 while there is no local member. *)
Definition Incarnation : SW Z :=
  ml ← gets n_memberlist;
  match local ml with
  | Some _ => m ← deref (local ml); mret (m_Incarnation m)
  | None => mret (-1)
  end.
