(* ===== verification/Util.v ===== *)
(** * Util: the helpers of util/util.go

    Host parsing and grouping, the sanity checks on bootstrap hosts, the small
    selection helpers and the JSON form of timestamps.  [net.SplitHostPort],
    the regular expression and [strconv.Atoi] are written out as far as the
    source uses them, on ASCII strings. *)
From Stdlib Require Import Ascii.
From S2P Require Import Prelude GoStd NodeState.
#[local] Open Scope Z_scope.

(** ** Hosts *)
Definition chars (s : string) : list ascii := String.list_ascii_of_string s.
Definition unchars (l : list ascii) : string := String.string_of_list_ascii l.

Definition colon : ascii := ":"%char.
Definition lbrack : ascii := "["%char.
Definition rbrack : ascii := "]"%char.

(** Index of the first element equal to [c]. *)
Fixpoint indexOf (c : ascii) (l : list ascii) : option nat :=
  match l with
  | [] => None
  | x :: l => if bool_decide (x = c) then Some O else S <$> indexOf c l
  end.
(** Index of the last one. *)
Fixpoint lastIndexOf (c : ascii) (l : list ascii) : option nat :=
  match l with
  | [] => None
  | x :: l =>
      match lastIndexOf c l with
      | Some i => Some (S i)
      | None => if bool_decide (x = c) then Some O else None
      end
  end.

(** net.SplitHostPort, the host only; [None] is an error. *)
Definition splitHost (l : list ascii) : option (list ascii) :=
  i ← lastIndexOf colon l;
  '(host, rest, rest') ←
    (if bool_decide (hd_error l = Some lbrack) then
       e ← indexOf rbrack l;
       if bool_decide (S e = i) then Some (take (e - 1) (drop 1 l), drop 1 l, drop (S e) l) else None
     else
       let host := take i l in
       if bool_decide (is_Some (indexOf colon host)) then None else Some (host, l, l));
  if bool_decide (is_Some (indexOf lbrack rest)) then None
  else if bool_decide (is_Some (indexOf rbrack rest')) then None
  else Some host.

Definition CaptureHost (hostport : string) : string :=
  match splitHost (chars hostport) with
  | None => ""
  | Some host => unchars host
  end.

Definition StringInSlice (slice : list string) (str : string) : bool :=
  existsb (λ b, bool_decide (str = b)) slice.

Definition HostPortsByHost (hostports : list string) : gmap string (list string) :=
  foldl (λ hostMap hostport,
    let host := CaptureHost hostport in
    if bool_decide (host ≠ "") then <[host := default [] (hostMap !! host) ++ [hostport]]> hostMap
    else hostMap) ∅ hostports.

(** SingleNodeCluster: [None] is the index panic on an empty slice. *)
Definition SingleNodeCluster (hostport : string) (hostMap : gmap string (list string)) : option bool :=
  if bool_decide (1 < size hostMap)%nat then Some false
  else
    let host := CaptureHost hostport in
    match hostMap !! host with
    | None => Some false
    | Some hostports =>
        if bool_decide (1 < length hostports)%nat then Some false
        else match hostports with
             | [] => None
             | h :: _ => Some (bool_decide (h = hostport))
             end
    end.

Definition CheckLocalMissing (local : string) (hostports : list string) : bool :=
  negb (StringInSlice hostports local).

(** ** The regular expression [^(\d+.\d+.\d+.\d+):\d+$]

    A matcher maps the rest of the input to the possible rests after it. *)
Definition matcher : Type := list ascii → list (list ascii).

Definition isDigit (c : ascii) : bool :=
  let n := Ascii.nat_of_ascii c in bool_decide (48 ≤ n ≤ 57)%nat.

Definition charClass (p : ascii → bool) : matcher := λ l,
  match l with c :: l => if p c then [l] else [] | [] => [] end.
(** [\d+] *)
Fixpoint digits1 (l : list ascii) : list (list ascii) :=
  match l with
  | c :: l => if isDigit c then l :: digits1 l else []
  | [] => []
  end.
(** [.] matches everything but a newline. *)
Definition anyChar : matcher := charClass (λ c, negb (bool_decide (c = Ascii.ascii_of_nat 10))).
Definition seqM (m1 m2 : matcher) : matcher := λ l, m1 l ≫= m2.

Definition hostportMatcher : matcher :=
  seqM digits1 (seqM anyChar (seqM digits1 (seqM anyChar (seqM digits1 (seqM anyChar
    (seqM digits1 (seqM (charClass (λ c, bool_decide (c = colon))) digits1))))))).

Definition HostportPattern (s : string) : bool :=
  existsb (λ rest, bool_decide (rest = [])) (hostportMatcher (chars s)).

(** CheckHostnameIPMismatch: the mismatched hosts; the error is reported
    exactly when there are some. *)
Definition CheckHostnameIPMismatch (c : choice) (local : string) (hostsMap : gmap string (list string))
    : list string :=
  let all := mjoin (snd <$> arrange c (map_to_list hostsMap)) in
  if HostportPattern local then filter (λ h, HostportPattern h = false) all
  else filter (λ h, HostportPattern h = true) all.

(** ** Slices *)
Definition ShuffleStrings (strings : list string) : SW (list string) :=
  c ← order; mret (arrange c strings).

(** TakeNode returns the element and what is left of the slice. *)
Definition TakeNode (nodes : list string) (index : Z) : SW (string * list string) :=
  match nodes with
  | [] => mret ("", nodes)
  | _ =>
      i ← (if bool_decide (0 ≤ index) then
             mret (if bool_decide (Z.of_nat (length nodes) ≤ index) then None else Some (Z.to_nat index))
           else i ← intn (length nodes); mret (Some i));
      match i with
      | None => mret ("", nodes)
      | Some i =>
          match nodes !! i with
          | None => panic
          | Some node => mret (node, take i nodes ++ drop (S i) nodes)
          end
      end
  end.

(** ** Options *)
Definition SelectInt (opt def : Z) : Z := if bool_decide (opt = 0) then def else opt.
Definition SelectDuration (opt def : Z) : Z := if bool_decide (opt = 0) then def else opt.
Definition Min (a b : Z) : Z := if bool_decide (a < b) then a else b.

(** ** Time *)

(** Durations and times are nanoseconds; Go's integer division truncates. *)
Definition MS (d : Z) : Z := Z.quot d 1000000.
Definition UnixMS (t : Z) : Z := Z.quot t 1000000.
Definition TimeNowMS : SW Z := t ← now; mret (UnixMS t).

(** strconv.Atoi on 64 bits: an optional sign and decimal digits. *)
Definition digitValue (c : ascii) : option Z :=
  if isDigit c then Some (Z.of_nat (Ascii.nat_of_ascii c) - 48) else None.
Fixpoint digitsValue (acc : Z) (l : list ascii) : option Z :=
  match l with
  | [] => Some acc
  | c :: l => d ← digitValue c; digitsValue (acc * 10 + d) l
  end.
Definition inInt64 (z : Z) : bool := bool_decide (- 2^63 ≤ z < 2^63).
Definition Atoi (s : string) : option Z :=
  let parse sign (l : list ascii) :=
    match l with
    | [] => None
    | _ => v ← digitsValue 0 l; if inInt64 (sign * v) then Some (sign * v) else None
    end in
  match chars s with
  | c :: l =>
      if bool_decide (c = "-"%char) then parse (-1) l
      else if bool_decide (c = "+"%char) then parse 1 l
      else parse 1 (c :: l)
  | [] => None
  end.

(** Timestamp: seconds in JSON.  [Time.Unix] rounds down. *)
Definition MarshalJSON (t : Z) : string := pretty (t / 1000000000).
Definition UnmarshalJSON (b : string) : option Z :=
  ts ← Atoi b; Some (ts * 1000000000).
