(* ===== verification/UtilSpec.v ===== *)
(** * UtilSpec: what the helpers of util/util.go compute *)
From Stdlib Require Import Ascii.
From S2P Require Import Prelude GoStd NodeState Util.
#[local] Open Scope Z_scope.

(** ** Hosts *)
Lemma chars_app s t : chars (s +:+ t) = chars s ++ chars t.
Proof. unfold chars. induction s as [|c s IH]; simpl; [done|]. by f_equal. Qed.
Lemma unchars_chars s : unchars (chars s) = s.
Proof. apply String.string_of_list_ascii_of_string. Qed.

Lemma indexOf_None c l : indexOf c l = None ↔ c ∉ l.
Proof.
  induction l as [|x l IH]; simpl; [set_solver|]. case_bool_decide as Hx; [set_solver|].
  rewrite fmap_None, IH. set_solver.
Qed.
Lemma lastIndexOf_None c l : c ∉ l → lastIndexOf c l = None.
Proof.
  induction l as [|x l IH]; simpl; [done|]. intros Hn. rewrite IH by set_solver.
  rewrite bool_decide_false by set_solver. done.
Qed.
Lemma lastIndexOf_app c l l' : c ∉ l' → lastIndexOf c (l ++ c :: l') = Some (length l).
Proof.
  intros Hn. induction l as [|x l IH]; simpl.
  - rewrite lastIndexOf_None by done. by rewrite bool_decide_true.
  - by rewrite IH.
Qed.
Lemma no_index c l : c ∉ l → bool_decide (is_Some (indexOf c l)) = false.
Proof. intros Hn%indexOf_None. rewrite Hn. apply bool_decide_false. by intros [? ?]. Qed.

(** A plain name: no colon and no bracket. *)
Definition plain (s : string) : Prop := (colon ∉ chars s) ∧ (lbrack ∉ chars s) ∧ (rbrack ∉ chars s).

(** ** Grouping by host *)
Definition hostports_of (h : string) (l : list string) : list string :=
  filter (λ hp, CaptureHost hp = h) l.

Lemma HostPortsByHost_snoc l hp :
  HostPortsByHost (l ++ [hp]) =
    if bool_decide (CaptureHost hp ≠ "") then
      <[CaptureHost hp := default [] (HostPortsByHost l !! CaptureHost hp) ++ [hp]]> (HostPortsByHost l)
    else HostPortsByHost l.
Proof. unfold HostPortsByHost. by rewrite foldl_app. Qed.

Lemma HostPortsByHost_lookup l h :
  HostPortsByHost l !! h =
    if bool_decide (h = "" ∨ hostports_of h l = []) then None else Some (hostports_of h l).
Proof.
  unfold hostports_of. induction l as [|hp l IH] using rev_ind.
  { unfold HostPortsByHost. simpl. rewrite bool_decide_true by by right. apply lookup_empty. }
  rewrite HostPortsByHost_snoc, filter_app, filter_cons, filter_nil.
  destruct (decide (CaptureHost hp ≠ "")) as [Hne|Hemp].
  - rewrite bool_decide_true by done. destruct (decide (CaptureHost hp = h)) as [<-|Hh].
    + rewrite lookup_insert_eq, IH. rewrite (bool_decide_false (_ ∨ _ ++ _ = [])).
      2: { intros [?|Hx]; [done|]. by destruct (filter _ l). }
      f_equal. f_equal. case_bool_decide as Hb; simpl; [|done]. by destruct Hb as [? | ->].
    + rewrite lookup_insert_ne by done. by rewrite app_nil_r.
  - apply dec_stable in Hemp. rewrite bool_decide_false by tauto. rewrite IH, Hemp.
    destruct (decide ("" = h)) as [<-|]; [|by rewrite app_nil_r].
    rewrite !(bool_decide_true ("" = "" ∨ _)) by by left. done.
Qed.

(** The well-formed host:ports. *)
Definition wellFormed (l : list string) : list string := filter (λ hp, CaptureHost hp ≠ "") l.

Lemma host_in_dom l hp :
  CaptureHost hp ≠ "" → hp ∈ l → CaptureHost hp ∈ dom (HostPortsByHost l).
Proof.
  intros Hne Hin. apply elem_of_dom. rewrite HostPortsByHost_lookup, bool_decide_false; [eauto|].
  intros [?|He]; [done|]. assert (hp ∈ hostports_of (CaptureHost hp) l) as Hx.
  { unfold hostports_of. by apply list_elem_of_filter. }
  rewrite He in Hx. by apply elem_of_nil in Hx.
Qed.

Lemma hostports_of_wellFormed h l : h ≠ "" → hostports_of h l = hostports_of h (wellFormed l).
Proof.
  intros Hh. unfold hostports_of, wellFormed. induction l as [|x l IH]; [done|].
  rewrite !filter_cons. destruct (decide (CaptureHost x = h)) as [Hx|Hx].
  - rewrite (decide_True _ _ (P := CaptureHost x ≠ "")) by congruence. rewrite filter_cons.
    rewrite decide_True by done. by f_equal.
  - destruct (decide (CaptureHost x ≠ "")); [|done]. rewrite filter_cons. by rewrite decide_False.
Qed.

Lemma two_hosts l h h' :
  h ≠ h' → h ∈ dom (HostPortsByHost l) → h' ∈ dom (HostPortsByHost l) → (1 < size (HostPortsByHost l))%nat.
Proof.
  intros Hne Hh Hh'. rewrite <-size_dom. assert (({[h; h']} : gset string) ⊆ dom (HostPortsByHost l)) as Hs by set_solver.
  apply subseteq_size in Hs. rewrite size_union, !size_singleton in Hs by set_solver. lia.
Qed.

Lemma all_same_host l hp h :
  hp ∈ wellFormed l → (size (HostPortsByHost l) ≤ 1)%nat → h = CaptureHost hp →
  hostports_of h l = wellFormed l.
Proof.
  intros (Hw & Hin)%list_elem_of_filter Hsz ->.
  rewrite hostports_of_wellFormed by done. unfold hostports_of.
  apply filter_every, Forall_forall. intros x Hx.
  apply list_elem_of_filter in Hx as [Hx Hxl].
  destruct (decide (CaptureHost x = CaptureHost hp)); [done|].
  assert (1 < size (HostPortsByHost l))%nat; [|lia].
  apply (two_hosts l (CaptureHost x) (CaptureHost hp)); [done|by apply host_in_dom..].
Qed.

Lemma SingleNodeCluster_spec l hp :
  CaptureHost hp ≠ "" →
  SingleNodeCluster hp (HostPortsByHost l) = Some (bool_decide (wellFormed l = [hp])).
Proof.
  intros Hne. unfold SingleNodeCluster. case_bool_decide as Hsz.
  { f_equal. symmetry. apply bool_decide_false. intros Hw.
    assert (dom (HostPortsByHost l) ⊆ ({[CaptureHost hp]} : gset string)) as Hs%subseteq_size.
    { intros h Hd. apply elem_of_dom in Hd as [ps Hd]. rewrite HostPortsByHost_lookup in Hd.
      case_bool_decide as Hb; [done|]. apply elem_of_singleton.
      assert (h ≠ "") as Hh by tauto. rewrite (hostports_of_wellFormed h) in Hb by done. rewrite Hw in Hb.
      unfold hostports_of in Hb. rewrite filter_cons in Hb. destruct (decide (CaptureHost hp = h)); naive_solver. }
    rewrite size_dom, size_singleton in Hs. lia. }
  rewrite HostPortsByHost_lookup. destruct (decide (hp ∈ l)) as [Hin|Hin].
  - assert (hp ∈ wellFormed l) as Hw by (unfold wellFormed; by apply list_elem_of_filter).
    rewrite (all_same_host l hp) by (done || lia).
    rewrite bool_decide_false. 2: { intros [?|He]; [done|]. rewrite He in Hw. by apply elem_of_nil in Hw. }
    destruct (wellFormed l) as [|x [|y ws]]; [by apply elem_of_nil in Hw| |].
    + simpl. f_equal. apply bool_decide_ext. split; [by intros ->|]. by intros [= ->].
    + rewrite bool_decide_true by (simpl; lia). by rewrite bool_decide_false.
  - rewrite (bool_decide_false (wellFormed l = [hp])).
    2: { intros He. apply Hin. assert (hp ∈ wellFormed l) as H by (rewrite He; set_solver).
         by apply list_elem_of_filter in H as [_ H]. }
    case_bool_decide as Hb; [done|]. assert (hp ∉ hostports_of (CaptureHost hp) l) as Hn.
    { intros H. by apply list_elem_of_filter in H as [_ H]. }
    destruct (hostports_of (CaptureHost hp) l) as [|x [|y ws]]; [naive_solver| |].
    + simpl. rewrite bool_decide_false by set_solver. done.
    + by rewrite bool_decide_true by (simpl; lia).
Qed.

(** Bootstrap hosts are grouped without loss: each host maps to exactly its
    host:ports in their order, malformed entries are dropped, and
    [SingleNodeCluster] on the result never panics and recognises exactly the
    lists whose only well-formed entry is the given address. *)
Theorem hosts_are_grouped l hp h :
  CaptureHost hp ≠ "" →
  HostPortsByHost l !! h =
    (if bool_decide (h = "" ∨ hostports_of h l = []) then None else Some (hostports_of h l)) ∧
  SingleNodeCluster hp (HostPortsByHost l) = Some (bool_decide (wellFormed l = [hp])).
Proof. intros Hne. split; [apply HostPortsByHost_lookup|by apply SingleNodeCluster_spec]. Qed.

Lemma hosts_are_grouped_witness :
  HostPortsByHost ["a:1"; "b"; "c:2"; "a:3"] !! "a" =
    (if bool_decide ("a" = "" ∨ hostports_of "a" ["a:1"; "b"; "c:2"; "a:3"] = []) then None
     else Some (hostports_of "a" ["a:1"; "b"; "c:2"; "a:3"])) ∧
  SingleNodeCluster "a:1" (HostPortsByHost ["a:1"; "b"; "c:2"; "a:3"]) =
    Some (bool_decide (wellFormed ["a:1"; "b"; "c:2"; "a:3"] = ["a:1"])).
Proof. apply hosts_are_grouped. vm_compute. discriminate. Defined.

(** ** Timestamps *)
Lemma digit_char n : (n < 10)%N → digitValue (pretty_N_char n) = Some (Z.of_N n) ∧ pretty_N_char n ≠ "-"%char ∧ pretty_N_char n ≠ "+"%char.
Proof.
  intros Hn. assert (n ∈ [0;1;2;3;4;5;6;7;8;9]%N) as Hin by (rewrite !elem_of_cons; lia).
  rewrite !elem_of_cons in Hin. destruct_or!; subst; try (by vm_compute). by apply elem_of_nil in Hin.
Qed.

Lemma pretty_N_go_value n s : digitsValue 0 (chars (pretty_N_go n s)) = digitsValue (Z.of_N n) (chars s).
Proof.
  revert s. induction (N.lt_wf_0 n) as [n _ IH]; intros s.
  destruct (decide (n = 0)%N) as [->|Hn]; [by rewrite pretty_N_go_0|].
  rewrite pretty_N_go_step by lia. rewrite IH by (apply N.div_lt; lia).
  assert (n `mod` 10 < 10)%N as Hm by (apply N.mod_lt; lia).
  destruct (digit_char _ Hm) as [Hd _]. simpl. rewrite Hd. simpl. f_equal.
  rewrite N2Z.inj_div, N2Z.inj_mod. pose proof (Z.div_mod (Z.of_N n) 10). lia.
Qed.

(** The digits of a number: not empty, no sign in front. *)
Definition unsigned (l : list ascii) : Prop :=
  match l with c :: _ => c ≠ "-"%char ∧ c ≠ "+"%char | [] => False end.

Lemma pretty_N_go_unsigned n s :
  (0 < n)%N ∨ unsigned (chars s) → unsigned (chars (pretty_N_go n s)).
Proof.
  revert s. induction (N.lt_wf_0 n) as [n _ IH]; intros s H.
  destruct (decide (n = 0)%N) as [->|Hn]; [rewrite pretty_N_go_0; destruct H; [lia|done]|].
  rewrite pretty_N_go_step by lia. apply IH; [apply N.div_lt; lia|]. right. simpl.
  apply digit_char. apply N.mod_lt. lia.
Qed.

Lemma pretty_N_digits n : unsigned (chars (pretty n)) ∧ digitsValue 0 (chars (pretty n)) = Some (Z.of_N n).
Proof.
  unfold pretty, pretty_N. case_decide as Hn; [by subst|]. split.
  - apply pretty_N_go_unsigned. lia.
  - by rewrite pretty_N_go_value.
Qed.

Lemma Atoi_pretty z : - 2^63 ≤ z < 2^63 → Atoi (pretty z) = Some z.
Proof.
  intros Hz. assert (inInt64 z = true) as Hin by by apply bool_decide_true. unfold Atoi.
  destruct z as [|p|p]; [done| |].
  - change (pretty (Z.pos p)) with (pretty (N.pos p)). destruct (pretty_N_digits (N.pos p)) as [Hu Hd]. destruct (chars (pretty (N.pos p))) as [|c l]; [done|].
    destruct Hu as [H1 H2]. rewrite !bool_decide_false by done. rewrite Hd.
    change (mbind _ (Some ?x)) with (if inInt64 (1 * x) then Some (1 * x) else None). simpl Z.of_N. by rewrite Z.mul_1_l, Hin.
  - change (pretty (Z.neg p)) with ("-" +:+ pretty (N.pos p)). destruct (pretty_N_digits (N.pos p)) as [Hu Hd].
    rewrite chars_app. simpl.
    destruct (chars (pretty (N.pos p))) as [|c l]; [done|]. rewrite Hd.
    change (mbind _ (Some ?x)) with (if inInt64 (-1 * x) then Some (-1 * x) else None).
    change (-1 * Z.of_N (N.pos p)) with (Z.neg p). by rewrite Hin.
Qed.

(** A timestamp survives the trip through JSON up to its second, before
    and after the epoch: reading back what [MarshalJSON] wrote gives the time
    rounded down to a second, and marshalling that gives the same text. *)
Theorem timestamp_roundtrip t :
  - 2^63 ≤ t / 1000000000 < 2^63 →
  UnmarshalJSON (MarshalJSON t) = Some (t - t mod 1000000000) ∧
  MarshalJSON (t - t mod 1000000000) = MarshalJSON t.
Proof.
  intros Ht. assert (t - t mod 1000000000 = t / 1000000000 * 1000000000) as He
    by (pose proof (Z.div_mod t 1000000000); lia).
  unfold UnmarshalJSON, MarshalJSON. rewrite Atoi_pretty by done. rewrite He, Z.div_mul by done. done.
Qed.

Lemma timestamp_roundtrip_witness :
  UnmarshalJSON (MarshalJSON (-1500000000)) = Some (-1500000000 - (-1500000000) mod 1000000000) ∧
  MarshalJSON (-1500000000 - (-1500000000) mod 1000000000) = MarshalJSON (-1500000000).
Proof. apply timestamp_roundtrip. split; vm_compute; [discriminate|reflexivity]. Defined.
