(* ===== verification/Memberlist.v ===== *)
(** * Memberlist: members and the member list (swim/member.go, memberlist.go)

    Everything of the member list except [Update] and what is built on it
    (see [Membership]).  Members are objects in a store: [list_], [byAddress]
    and [local] hold pointers, so a change of a member is seen through all of
    them. *)
From S2P Require Import Prelude GoStd NodeState.
#[local] Open Scope Z_scope.

(** ** member.go *)

(** statePrecedence panics on an unknown status. *)
Definition statePrecedence (s : string) : option Z :=
  if bool_decide (s = Alive) then Some 0
  else if bool_decide (s = Suspect) then Some 1
  else if bool_decide (s = Faulty) then Some 2
  else if bool_decide (s = Leave) then Some 3
  else None.

Definition nonLocalOverride (m : Member) (change : Change) : option bool :=
  if bool_decide (m_Incarnation m < c_Incarnation change) then Some true
  else if bool_decide (c_Incarnation change < m_Incarnation m) then Some false
  else
    p ← statePrecedence (c_Status change);
    q ← statePrecedence (m_Status m);
    Some (bool_decide (q < p)).

Definition localOverride (m : Member) (local : string) (change : Change) : bool :=
  if bool_decide (m_Address m ≠ local) then false
  else bool_decide (c_Status change = Faulty) || bool_decide (c_Status change = Suspect).

Definition isReachable (m : Member) : bool :=
  bool_decide (m_Status m = Alive) || bool_decide (m_Status m = Suspect).

(** shuffle: a random permutation of the pointers. *)
Definition shuffle (members : list loc) : SW (list loc) :=
  c ← order; mret (arrange c members).

(** ** memberlist.go *)
Definition newMemberlist : memberlist := mkMemberlist ∅ None [] ∅ 0.

Definition Checksum : SW Z := gets (λ n, ml_checksum (n_memberlist n)).

Definition set_heap (h : gmap loc Member) (ml : memberlist) : memberlist :=
  mkMemberlist h (local ml) (list_ ml) (byAddress ml) (ml_checksum ml).
Definition set_list (l : list loc) (ml : memberlist) : memberlist :=
  mkMemberlist (heap ml) (local ml) l (byAddress ml) (ml_checksum ml).
Definition set_local (p : option loc) (ml : memberlist) : memberlist :=
  mkMemberlist (heap ml) p (list_ ml) (byAddress ml) (ml_checksum ml).
Definition set_byAddress (b : gmap string loc) (ml : memberlist) : memberlist :=
  mkMemberlist (heap ml) (local ml) (list_ ml) b (ml_checksum ml).
Definition set_checksum (c : Z) (ml : memberlist) : memberlist :=
  mkMemberlist (heap ml) (local ml) (list_ ml) (byAddress ml) c.

Definition modify_ml (f : memberlist → memberlist) : SW unit :=
  modify (λ n, with_memberlist n (f (n_memberlist n))).

(** Allocate a member object. *)
Definition newMember (m : Member) : SW loc := λ n,
  let l := fresh (dom (heap (n_memberlist n))) in
  Some (l, with_memberlist n (set_heap (<[l := m]> (heap (n_memberlist n))) (n_memberlist n))).

(** [for _, member := range m.members.list], collecting values. *)
Fixpoint deref_all (l : list loc) : SW (list Member) :=
  match l with
  | [] => mret []
  | p :: l => m ← deref (Some p); ms ← deref_all l; mret (m :: ms)
  end.

Definition GetMembers : SW (list Member) :=
  l ← gets (λ n, list_ (n_memberlist n)); deref_all l.

(** One member as it enters the checksum string. *)
Definition member_string (m : Member) : string :=
  sprint_sv (m_Address m +:+ m_Status m) (m_Incarnation m).

Definition checksum_string (strings : list string) : string :=
  foldr (λ s acc, s +:+ ";" +:+ acc) "" (sortStrings strings).

Definition GenChecksumString : SW string :=
  ms ← GetMembers; mret (checksum_string (member_string <$> ms)).

Definition ComputeChecksum : SW unit :=
  startTime ← now;
  s ← GenChecksumString;
  fp ← gets (λ n, fingerprint32 (env n));
  let checksum := fp s in
  modify_ml (set_checksum checksum);;
  endTime ← now;
  emit (ChecksumComputeEvent (endTime - startTime) checksum).

(** Member: the pointer stored for an address. *)
Definition Member_ (address : string) : SW (option loc) :=
  gets (λ n, byAddress (n_memberlist n) !! address).

(** MemberAt: indexing out of range panics. *)
Definition MemberAt (i : Z) : SW loc :=
  l ← gets (λ n, list_ (n_memberlist n));
  if bool_decide (i < 0) then panic
  else match l !! Z.to_nat i with Some p => mret p | None => panic end.

Definition NumMembers : SW Z := gets (λ n, Z.of_nat (length (list_ (n_memberlist n)))).

(** Pingable dereferences [m.local], which panics while it is nil. *)
Definition Pingable (member : Member) : SW bool :=
  loc ← gets (λ n, local (n_memberlist n));
  lm ← deref loc;
  mret (bool_decide (m_Address member ≠ m_Address lm) &&
        (bool_decide (m_Status member = Alive) || bool_decide (m_Status member = Suspect))).

Fixpoint countPingable (l : list loc) (n : Z) : SW Z :=
  match l with
  | [] => mret n
  | p :: l =>
      m ← deref (Some p);
      b ← Pingable m;
      countPingable l (if (b : bool) then n + 1 else n)
  end.

Definition NumPingableMembers : SW Z :=
  l ← gets (λ n, list_ (n_memberlist n)); countPingable l 0.

Fixpoint filterPingable (l : list loc) (excluding : gset string) : SW (list loc) :=
  match l with
  | [] => mret []
  | p :: l =>
      m ← deref (Some p);
      b ← Pingable m;
      rest ← filterPingable l excluding;
      mret (if (b : bool) && bool_decide (m_Address m ∉ excluding) then p :: rest else rest)
  end.

Definition RandomPingableMembers (n : Z) (excluding : gset string) : SW (list loc) :=
  l ← gets (λ n, list_ (n_memberlist n));
  members ← filterPingable l excluding;
  members ← shuffle members;
  if bool_decide (Z.of_nat (length members) < n) then mret members
  else if bool_decide (n < 0) then panic
  else mret (take (Z.to_nat n) members).

Definition GetReachableMembers : SW (list string) :=
  ms ← GetMembers; mret (m_Address <$> filter (λ m, isReachable m = true) ms).

Definition CountReachableMembers : SW Z :=
  ms ← GetMembers; mret (Z.of_nat (length (filter (λ m, isReachable m = true) ms))).

Definition getJoinPosition : SW nat :=
  l ← gets (λ n, length (list_ (n_memberlist n)));
  match l with O => mret O | S _ => intn l end.

(** The object for an address, created and linked on first sight. *)
Definition memberFor (change : Change) : SW loc :=
  found ← Member_ (c_Address change);
  match found with
  | Some p => mret p
  | None =>
      p ← newMember (mkMember (c_Address change) (c_Status change) (c_Incarnation change));
      address ← Address;
      when (bool_decide (c_Address change = address)) (modify_ml (set_local (Some p)));;
      modify_ml (λ ml, set_byAddress (<[c_Address change := p]> (byAddress ml)) ml);;
      i ← getJoinPosition;
      modify_ml (λ ml, set_list (take i (list_ ml) ++ p :: drop i (list_ ml)) ml);;
      mret p
  end.

Definition Apply (change : Change) : SW unit :=
  p ← memberFor change;
  m ← deref (Some p);
  modify_ml (λ ml, set_heap (<[p := mkMember (m_Address m) (c_Status change) (c_Incarnation change)]>
                               (heap ml)) ml).

Definition Shuffle : SW unit :=
  l ← gets (λ n, list_ (n_memberlist n));
  l' ← shuffle l;
  modify_ml (set_list l').

(** nowInMillis *)
Definition nowInMillis : SW Z := t ← now; mret (Z.quot t 1000000).
