(* ===== verification/Disseminator.v ===== *)
(** * Disseminator: piggybacking of changes (swim/disseminator.go) *)
From S2P Require Import Prelude GoStd NodeState Memberlist.
#[local] Open Scope Z_scope.

Definition defaultPFactor : Z := 15.

Definition newDisseminator : disseminator := mkDisseminator ∅ defaultPFactor defaultPFactor.

Definition modify_dis (f : disseminator → disseminator) : SW unit :=
  modify (λ n, with_disseminator n (f (n_disseminator n))).
Definition set_changes (c : gmap string pChange) (d : disseminator) : disseminator :=
  mkDisseminator c (maxP d) (pFactor d).
Definition set_maxP (p : Z) (d : disseminator) : disseminator :=
  mkDisseminator (changes d) p (pFactor d).

(** [int(math.Ceil(math.Log(float64(n)) / math.Log(10)))] for [n >= 1], as the
    exact ceiling of the decimal logarithm: the first power of ten at or above
    [n]. *)
Fixpoint powerAbove (fuel : nat) (k p n : Z) : Z :=
  match fuel with
  | O => k
  | S fuel => if bool_decide (n ≤ p) then k else powerAbove fuel (k + 1) (10 * p) n
  end.
Definition ceilLog10 (n : Z) : Z := powerAbove (Z.to_nat (Z.log2_up n)) 0 1 n.

Definition AdjustMaxPropagations : SW unit :=
  numPingable ← NumPingableMembers;
  d ← gets n_disseminator;
  let prevMaxP := maxP d in
  let newMaxP := pFactor d * ceilLog10 (numPingable + 1) in
  when (bool_decide (newMaxP ≠ prevMaxP))
    (modify_dis (set_maxP newMaxP);; emit (MaxPAdjustedEvent prevMaxP newMaxP)).

Definition HasChanges : SW bool :=
  gets (λ n, bool_decide (0 < Z.of_nat (size (changes (n_disseminator n))))).

Definition FullSync : SW (list Change) :=
  ms ← GetMembers;
  address ← Address;
  incarnation ← Incarnation;
  mret ((λ m, mkChange address incarnation (m_Address m) (m_Incarnation m) (m_Status m) 0) <$> ms).

(** Ranging over the map [d.changes]. *)
Definition issueChanges : SW (list Change) :=
  c ← order;
  d ← gets n_disseminator;
  let result := (λ x : string * pChange, pc_Change x.2) <$> arrange c (map_to_list (changes d)) in
  emit (ChangesCalculatedEvent result);;
  mret result.

(** One iteration of bumpPiggybackCounters: [c.p += 1] goes through the pointer
    stored in the map. *)
Definition bumpOne (d : disseminator) (change : Change) : disseminator :=
  match changes d !! c_Address change with
  | None => d
  | Some c =>
      let c := mkPChange (pc_Change c) (pc_p c + 1) in
      let cs := <[c_Address change := c]> (changes d) in
      if bool_decide (maxP d ≤ pc_p c) then set_changes (delete (c_Address (pc_Change c)) cs) d
      else set_changes cs d
  end.

Definition bumpPiggybackCounters (cs : list Change) : SW unit :=
  modify_dis (λ d, foldl bumpOne d cs).

(** IssueAsSender returns the changes; the callback is
    [bumpPiggybackCounters] of the result. *)
Definition IssueAsSender : SW (list Change) := issueChanges.

(** The loop of filterChangesFromSender: a matching element is swapped with the
    last one and cut off, and the index is looked at again. *)
Definition swapLast (i : nat) (cs : list Change) : list Change :=
  match cs !! i, last cs with
  | Some x, Some y => removelast (<[i := y]> (<[length cs - 1 := x]> cs))%nat
  | _, _ => cs
  end.

Fixpoint filterLoop (fuel : nat) (i : nat) (cs : list Change) (source : string) (incarnation : Z)
    : SW (list Change) :=
  match fuel with
  | O => mret cs
  | S fuel =>
      match cs !! i with
      | None => mret cs
      | Some c =>
          if bool_decide (incarnation = c_SourceIncarnation c) && bool_decide (source = c_Source c) then
            emit (ChangeFilteredEvent c);;
            filterLoop fuel i (swapLast i cs) source incarnation
          else filterLoop fuel (S i) cs source incarnation
      end
  end.

Definition filterChangesFromSender (cs : list Change) (source : string) (incarnation : Z)
    : SW (list Change) :=
  filterLoop (length cs) 0 cs source incarnation.

Definition IssueAsReceiver (senderAddress : string) (senderIncarnation senderChecksum : Z)
    : SW (list Change * bool) :=
  cs ← issueChanges;
  cs ← filterChangesFromSender cs senderAddress senderIncarnation;
  bumpPiggybackCounters cs;;
  checksum ← Checksum;
  if bool_decide (0 < Z.of_nat (length cs)) || bool_decide (checksum = senderChecksum)
  then mret (cs, false)
  else
    emit (FullSyncEvent senderAddress senderChecksum);;
    all ← FullSync;
    mret (all, true).

Definition ClearChanges : SW unit := modify_dis (set_changes ∅).

Definition RecordChange (change : Change) : SW unit :=
  modify_dis (λ d, set_changes (<[c_Address change := mkPChange change 0]> (changes d)) d).

Definition ClearChange (address : string) : SW unit :=
  modify_dis (λ d, set_changes (delete address (changes d)) d).

Definition ChangesByAddress (address : string) : SW (option Change) :=
  gets (λ n, pc_Change <$> changes (n_disseminator n) !! address).

Definition ChangesCount : SW Z := gets (λ n, Z.of_nat (size (changes (n_disseminator n)))).
