(* ===== verification/Suspicion.v ===== *)
(** * Suspicion: the suspicion sub-protocol's timers (swim/suspicion.go)

    A timer is kept in [timers] until it is stopped; [Fire] in [Membership]
    runs the function given to time.AfterFunc. *)
From S2P Require Import Prelude GoStd NodeState.
#[local] Open Scope Z_scope.

Definition newSuspicion (t : Z) : suspicion := mkSuspicion t ∅ true.

Definition modify_sus (f : suspicion → suspicion) : SW unit :=
  modify (λ n, with_suspicion n (f (n_suspicion n))).
Definition set_timers (t : gmap string timer) (s : suspicion) : suspicion :=
  mkSuspicion (timeout s) t (enabled s).
Definition set_enabled (b : bool) (s : suspicion) : suspicion :=
  mkSuspicion (timeout s) (timers s) b.

Definition Start (address : string) (incarnation : Z) : SW unit :=
  s ← gets n_suspicion;
  if negb (enabled s) then mret tt
  else
    self ← Address;
    if bool_decide (self = address) then mret tt
    else match timers s !! address with
         | Some _ => mret tt
         | None => modify_sus (λ s, set_timers (<[address := mkTimer address incarnation]> (timers s)) s)
         end.

Definition Stop (address : string) : SW unit :=
  s ← gets n_suspicion;
  match timers s !! address with
  | Some _ => modify_sus (λ s, set_timers (delete address (timers s)) s)
  | None => mret tt
  end.

Definition Reenable : SW unit :=
  s ← gets n_suspicion;
  if enabled s then mret tt else modify_sus (set_enabled true).

(** Disable stops and removes every timer. *)
Definition Disable : SW unit :=
  s ← gets n_suspicion;
  if negb (enabled s) then mret tt
  else modify_sus (λ s, set_timers ∅ (set_enabled false s)).

Definition Timer (address : string) : SW (option timer) :=
  gets (λ n, timers (n_suspicion n) !! address).
