(* ===== verification/Rollup.v ===== *)
(** * Rollup: buffering of applied changes (swim/update_rollup.go) *)
From S2P Require Import Prelude GoStd NodeState.
#[local] Open Scope Z_scope.

Definition newUpdateRollup (interval max : Z) : updateRollup :=
  mkRollup max interval ∅ None None None None.

Definition modify_rol (f : updateRollup → updateRollup) : SW unit :=
  modify (λ n, with_rollup n (f (n_rollup n))).

(** [now.Sub(t)], saturating at the largest duration when [t] is the zero time. *)
Definition since (t : Z) (last : option Z) : Z :=
  match last with None => 2^63 - 1 | Some u => t - u end.

(** Destroy stops the timer. *)
Definition DestroyRollup : SW unit :=
  modify_rol (λ r, mkRollup (maxUpdates r) (flushInterval r) (updates r) None
                     (firstUpdate r) (lastFlush r) (lastUpdate r)).

Definition addUpdate (timestamp : Z) (us : gmap string (list Change)) (c : Change)
    : gmap string (list Change) :=
  let c := mkChange (c_Source c) (c_SourceIncarnation c) (c_Address c) (c_Incarnation c)
             (c_Status c) timestamp in
  <[c_Address c := default [] (us !! c_Address c) ++ [c]]> us.

Definition AddUpdates (cs : list Change) : SW unit :=
  timestamp ← now;
  modify_rol (λ r, mkRollup (maxUpdates r) (flushInterval r) (foldl (addUpdate timestamp) (updates r) cs)
                     (flushTimer r) (firstUpdate r) (lastFlush r) (lastUpdate r)).

(** The new timer fires at the node's clock plus the interval. *)
Definition RenewFlushTimer : SW unit :=
  t ← now;
  modify_rol (λ r, mkRollup (maxUpdates r) (flushInterval r) (updates r) (Some (t + flushInterval r))
                     (firstUpdate r) (lastFlush r) (lastUpdate r)).

Definition numUpdates (r : updateRollup) : Z :=
  map_fold (λ _ us n, n + Z.of_nat (length us)) 0 (updates r).

Definition FlushBuffer : SW unit :=
  r ← gets n_rollup;
  if bool_decide (size (updates r) = 0%nat) then mret tt
  else
    t ← now;
    modify_rol (λ r, mkRollup (maxUpdates r) (flushInterval r) ∅ (flushTimer r) None (Some t) None).

(** The function given to AfterFunc. *)
Definition flushTick : SW unit := FlushBuffer;; RenewFlushTimer.

Definition TrackUpdates (cs : list Change) : SW bool :=
  if bool_decide (length cs = 0%nat) then mret false
  else
    t ← now;
    r ← gets n_rollup;
    let flushed := bool_decide (flushInterval r ≤ since t (lastUpdate r)) in
    when flushed FlushBuffer;;
    modify_rol (λ r, mkRollup (maxUpdates r) (flushInterval r) (updates r) (flushTimer r)
                       (match firstUpdate r with None => Some t | f => f end) (lastFlush r) (lastUpdate r));;
    RenewFlushTimer;;
    AddUpdates cs;;
    modify_rol (λ r, mkRollup (maxUpdates r) (flushInterval r) (updates r) (flushTimer r)
                       (firstUpdate r) (lastFlush r) (Some t));;
    mret flushed.
