(* ===== verification/RollupLocks.v ===== *)
(** * RollupLocks: the mutexes of the update rollup (swim/update_rollup.go)

    The rollup is used by the goroutines that apply updates and by its own
    timer.  Each operation is the sequence of lock operations its body
    performs; threads interleave them.  Operations that take the mutexes in
    one order cannot deadlock; [TrackUpdates] takes them in the opposite order
    of [FlushBuffer]. *)
From S2P Require Import Prelude.

(** The mutexes of buffer, timings, flushTimer and, for the checksum that
    FlushBuffer logs, the one of the member list. *)
Inductive mutex : Type := Buffer | Timings | FlushTimer | Members.
#[global] Instance mutex_eq_dec : EqDecision mutex.
Proof. solve_decision. Defined.
#[global] Instance mutex_countable : Countable mutex.
Proof.
  refine (inj_countable' (λ l, match l with Buffer => 0 | Timings => 1 | FlushTimer => 2 | Members => 3 end)
    (λ k, match k with 0 => Buffer | 1 => Timings | 2 => FlushTimer | _ => Members end) _).
  by intros [].
Defined.

Inductive act : Type := Acquire (l : mutex) | Release (l : mutex).

(** ** The operations *)
Definition flushBufferLocks (nonEmpty : bool) : list act :=
  Acquire Buffer ::
  (if nonEmpty then [Acquire Timings; Acquire Members; Release Members; Release Buffer; Release Timings]
   else [Release Buffer]).
Definition renewFlushTimerLocks : list act := [Acquire FlushTimer; Release FlushTimer].
Definition addUpdatesLocks : list act := [Acquire Buffer; Release Buffer].
Definition destroyLocks : list act := [Acquire FlushTimer; Release FlushTimer].
Definition flushTickLocks (nonEmpty : bool) : list act := flushBufferLocks nonEmpty ++ renewFlushTimerLocks.
Definition trackUpdatesLocks (late nonEmpty : bool) : list act :=
  [Acquire Timings; Release Timings] ++
  (if late then flushBufferLocks nonEmpty else []) ++
  [Acquire Timings] ++ renewFlushTimerLocks ++ addUpdatesLocks ++ [Release Timings].

(** ** Interleaving *)
Record thread : Type := mkThread {
  held : gset mutex;
  rest : list act
}.

(** A mutex is free when no thread holds it. *)
Definition free (ts : list thread) (l : mutex) : Prop := Forall (λ t, l ∉ held t) ts.

Inductive lock_step : list thread → list thread → Prop :=
| step_acquire ts i h l r :
    ts !! i = Some (mkThread h (Acquire l :: r)) → free ts l →
    lock_step ts (<[i := mkThread ({[l]} ∪ h) r]> ts)
| step_release ts i h l r :
    ts !! i = Some (mkThread h (Release l :: r)) → l ∈ h →
    lock_step ts (<[i := mkThread (h ∖ {[l]}) r]> ts).

Definition start (ps : list (list act)) : list thread := mkThread ∅ <$> ps.
Definition finished (ts : list thread) : Prop := Forall (λ t, rest t = []) ts.
(** Nobody can go on although somebody is not done. *)
Definition deadlocked (ts : list thread) : Prop := ¬ finished ts ∧ ∀ ts', ¬ lock_step ts ts'.

(** ** Locks taken in order *)
Section order.
Context (rank : mutex → nat).

Fixpoint ordered (h : gset mutex) (r : list act) : Prop :=
  match r with
  | [] => h = ∅
  | Acquire l :: r => (∀ l', l' ∈ h → rank l' < rank l) ∧ ordered ({[l]} ∪ h) r
  | Release l :: r => l ∈ h ∧ ordered (h ∖ {[l]}) r
  end.

Definition all_ordered (ts : list thread) : Prop := Forall (λ t, ordered (held t) (rest t)) ts.

Lemma ordered_step ts ts' : lock_step ts ts' → all_ordered ts → all_ordered ts'.
Proof.
  intros Hs Ho. destruct Hs as [ts i h l r Hi _|ts i h l r Hi _];
    (apply Forall_insert; [done|]; pose proof (Forall_lookup_1 _ _ _ _ Ho Hi) as H; apply H).
Qed.

(** The mutex a thread waits for. *)
Definition waits (t : thread) : option mutex :=
  match rest t with Acquire l :: _ => Some l | _ => None end.

Lemma ordered_progress ts : all_ordered ts → ¬ finished ts → ∃ ts', lock_step ts ts'.
Proof.
  intros Ho Hnf. apply not_Forall_Exists in Hnf; [|intros t; destruct (rest t); [by left|by right]].
  apply Exists_exists in Hnf as (t0 & Ht0 & Hr0).
  destruct (decide (Exists (λ t, rest t ≠ [] ∧ waits t = None) ts)) as [Hrel|Hacq].
  { apply Exists_exists in Hrel as ([h r] & Hin & Hr & Hw). apply list_elem_of_lookup in Hin as [i Hi].
    pose proof (Forall_lookup_1 _ _ _ _ Ho Hi) as H. simpl in *.
    destruct r as [|[l|l] r]; [done|done|]. destruct H as [Hl _]. eexists. by eapply step_release. }
  assert (∀ t, t ∈ ts → rest t ≠ [] → is_Some (waits t)) as Hwait.
  { intros t Hin Hr. destruct (waits t) eqn:Hw; [eauto|]. destruct Hacq. apply Exists_exists. eauto. }
  (* a waiting thread whose mutex has the highest rank *)
  assert (∀ k t l, t ∈ ts → waits t = Some l → k = 4 + rank Buffer + rank Timings + rank FlushTimer + rank Members - rank l →
    ∃ ts', lock_step ts ts') as Hmax.
  { induction k as [k IH] using lt_wf_ind. intros t l Hin Hw ->.
    destruct (decide (Exists (λ t', l ∈ held t') ts)) as [Hheld|Hfree].
    - apply Exists_exists in Hheld as (t' & Hin' & Hl').
      pose proof (proj1 (Forall_forall _ _) Ho t' Hin') as Ho'. simpl in Ho'.
      assert (rest t' ≠ []) as Hr'. { intros Hr. rewrite Hr in Ho'. simpl in Ho'. set_solver. }
      destruct (Hwait t' Hin' Hr') as [l' Hw']. unfold waits in Hw'.
      destruct (rest t') as [|[l1|l1] r] eqn:Hr1; simplify_eq. destruct Ho' as [Hlt _]. specialize (Hlt l Hl').
      eapply (IH _ _ t' l'); [done|by unfold waits; rewrite Hr1|done].
      Unshelve. destruct l, l'; lia.
    - apply list_elem_of_lookup in Hin as [i Hi]. destruct t as [h r]. unfold waits in Hw. simpl in Hw.
      destruct r as [|[l1|l1] r]; simplify_eq. eexists. eapply step_acquire; [done|].
      apply Forall_forall. intros t' Ht' Hl. apply Hfree, Exists_exists. eauto. }
  destruct (Hwait t0 Ht0 Hr0) as [l Hl]. by eapply Hmax.
Qed.
End order.

Lemma ordered_no_deadlock rank ps ts :
  Forall (ordered rank ∅) ps → rtc lock_step (start ps) ts → ¬ deadlocked ts.
Proof.
  intros Hps Hrun [Hnf Hstuck]. assert (all_ordered rank ts) as Ho.
  { assert (all_ordered rank (start ps)) as H0 by (unfold all_ordered, start; by rewrite Forall_fmap).
    clear Hnf Hstuck Hps. induction Hrun as [|ts1 ts2 ts3 Hs _ IH]; [done|]. apply IH. by eapply ordered_step. }
  destruct (ordered_progress rank ts Ho Hnf) as [ts' Hs]. by apply (Hstuck ts').
Qed.

(** ** The rollup *)

(** The operations other than TrackUpdates. *)
Inductive rollup_op : list act → Prop :=
| op_flushBuffer b : rollup_op (flushBufferLocks b)
| op_renewFlushTimer : rollup_op renewFlushTimerLocks
| op_addUpdates : rollup_op addUpdatesLocks
| op_destroy : rollup_op destroyLocks
| op_flushTick b : rollup_op (flushTickLocks b).

Definition rollup_rank (l : mutex) : nat :=
  match l with Buffer => 0 | Timings => 1 | FlushTimer => 2 | Members => 3 end.

Lemma rollup_op_ordered p : rollup_op p → ordered rollup_rank ∅ p.
Proof.
  intros []; try destruct b; simpl; set_solver by lia.
Qed.

(** Flushing never deadlocks with the other operations of the rollup: any
    number of threads that flush the buffer, add updates, renew the timer, run
    the timer's function or destroy the rollup can always go on, in every
    interleaving, until all are done. *)
Theorem flushing_never_deadlocks ps ts :
  Forall rollup_op ps → rtc lock_step (start ps) ts → ¬ deadlocked ts.
Proof.
  intros Hps. apply (ordered_no_deadlock rollup_rank). eapply Forall_impl; [exact Hps|]. apply rollup_op_ordered.
Qed.

Lemma flushing_never_deadlocks_witness :
  ¬ deadlocked (start [flushTickLocks true; addUpdatesLocks; flushBufferLocks true]).
Proof.
  apply (flushing_never_deadlocks [flushTickLocks true; addUpdatesLocks; flushBufferLocks true]);
    [repeat constructor|apply rtc_refl].
Defined.

(** Run a thread's next action, if it can run. *)
Definition stepAt (ts : list thread) (i : nat) : option (list thread) :=
  match ts !! i with
  | Some (mkThread h (Acquire l :: r)) =>
      if bool_decide (Forall (λ t, l ∉ held t) ts) then Some (<[i := mkThread ({[l]} ∪ h) r]> ts) else None
  | Some (mkThread h (Release l :: r)) =>
      if bool_decide (l ∈ h) then Some (<[i := mkThread (h ∖ {[l]}) r]> ts) else None
  | _ => None
  end.

Lemma stepAt_spec ts ts' : lock_step ts ts' ↔ ∃ i, stepAt ts i = Some ts'.
Proof.
  split.
  - intros [? i h l r Hi Hf|? i h l r Hi Hl]; exists i; unfold stepAt; rewrite Hi; by rewrite bool_decide_true.
  - intros [i Hs]. unfold stepAt in Hs. destruct (ts !! i) as [[h [|[l|l] r]]|] eqn:Hi; try done;
      case_bool_decide; simplify_eq; by econstructor.
Qed.

Fixpoint schedule (ts : list thread) (js : list nat) : option (list thread) :=
  match js with
  | [] => Some ts
  | i :: js => ts ← stepAt ts i; schedule ts js
  end.

Lemma schedule_run js ts ts' : schedule ts js = Some ts' → rtc lock_step ts ts'.
Proof.
  revert ts. induction js as [|i js IH]; simpl; intros ts H; [simplify_eq; apply rtc_refl|].
  destruct (stepAt ts i) as [ts1|] eqn:Hs; [|done]. eapply rtc_l; [apply stepAt_spec; eauto|auto].
Qed.

(** C39: [TrackUpdates] can deadlock with the rollup's timer: it holds the
    timings while it waits for the buffer, and [FlushBuffer], run by the timer,
    holds the buffer while it waits for the timings.  Neither can go on, and
    both the update path of the node and the flushes hang. *)
Theorem TrackUpdates_can_deadlock :
  ∃ ts, rtc lock_step (start [trackUpdatesLocks false true; flushTickLocks true]) ts ∧ deadlocked ts ∧
    waits <$> ts = [Some Buffer; Some Timings].
Proof.
  destruct (schedule (start [trackUpdatesLocks false true; flushTickLocks true]) [0; 0; 0; 1; 0; 0]) as [ts|] eqn:Hs;
    [|by vm_compute in Hs].
  exists ts. split; [by eapply schedule_run|]. vm_compute in Hs. injection Hs as <-. split; [|done]. split.
  - intros Hf. by inversion Hf.
  - intros ts' [i Hi]%stepAt_spec. destruct i as [|[|i]]; by vm_compute in Hi.
Qed.
