(* ===== verification/Membership.v ===== *)
(** * Membership: applying changes (memberlist.Update and what it drives)

    [Update] is where the components meet: it applies changes to the member
    list, and hands the applied ones to the disseminator, the suspicion
    protocol ([handleChanges]) and the rollup. *)
From S2P Require Import Prelude GoStd NodeState Memberlist Disseminator Suspicion Rollup.
#[local] Open Scope Z_scope.

(** Node.handleChanges, the body of the loop. *)
Definition handleChange (change : Change) : SW unit :=
  RecordChange change;;
  if bool_decide (c_Status change = Alive) then
    Stop (c_Address change);; AdjustMaxPropagations
  else if bool_decide (c_Status change = Faulty) then
    Stop (c_Address change)
  else if bool_decide (c_Status change = Suspect) then
    Start (c_Address change) (c_Incarnation change);; AdjustMaxPropagations
  else if bool_decide (c_Status change = Leave) then
    Stop (c_Address change);; AdjustMaxPropagations
  else mret tt.

Definition handleChanges (cs : list Change) : SW unit := for_each cs handleChange.

(** Lift a panicking pure computation. *)
Definition orPanic {A} (o : option A) : SW A :=
  match o with Some a => mret a | None => panic end.

(** The body of Update's loop: the change applied, if any. *)
Definition updateOne (change : Change) : SW (option Change) :=
  found ← Member_ (c_Address change);
  match found with
  | None => Apply change;; mret (Some change)
  | Some p =>
      member ← deref (Some p);
      self ← Address;
      if localOverride member self change then
        emit RefuteUpdateEvent;;
        incarnation ← nowInMillis;
        timestamp ← now;
        let overrideChange := mkChange (c_Source change) (c_SourceIncarnation change)
                                (c_Address change) incarnation Alive timestamp in
        Apply overrideChange;;
        mret (Some overrideChange)
      else
        o ← orPanic (nonLocalOverride member change);
        if (o : bool) then Apply change;; mret (Some change) else mret None
  end.

Fixpoint updateLoop (cs : list Change) : SW (list Change) :=
  match cs with
  | [] => mret []
  | c :: cs =>
      a ← updateOne c;
      rest ← updateLoop cs;
      mret (match a with Some a => a :: rest | None => rest end)
  end.

Definition Update (cs : list Change) : SW (list Change) :=
  b ← Stopped;
  if b || bool_decide (length cs = 0%nat) then mret []
  else
    emit (MemberlistChangesReceivedEvent cs);;
    applied ← updateLoop cs;
    when (bool_decide (0 < length applied)%nat)
      (oldChecksum ← Checksum;
       ComputeChecksum;;
       newChecksum ← Checksum;
       num ← NumMembers;
       emit (MemberlistChangesAppliedEvent applied oldChecksum newChecksum num);;
       handleChanges applied;;
       TrackUpdates applied;;
       mret tt);;
    mret applied.

(** The two halves of [Update]: what it does under the lock of the member
    list, and what it announces after it has released it. *)
Definition updateLocked (cs : list Change) : SW (list Change) :=
  b ← Stopped;
  if b || bool_decide (length cs = 0%nat) then mret []
  else emit (MemberlistChangesReceivedEvent cs);; updateLoop cs.

Definition updateAnnounce (applied : list Change) : SW unit :=
  when (bool_decide (0 < length applied)%nat)
    (oldChecksum ← Checksum;
     ComputeChecksum;;
     newChecksum ← Checksum;
     num ← NumMembers;
     emit (MemberlistChangesAppliedEvent applied oldChecksum newChecksum num);;
     handleChanges applied;;
     TrackUpdates applied;;
     mret tt).

(** One after the other they are [Update]. *)
Lemma Update_halves cs n : Update cs n = (applied ← updateLocked cs; updateAnnounce applied;; mret applied) n.
Proof.
  unfold Update, updateLocked, mbind, M_bind, Stopped, gets.
  destruct (stopped (state n) || bool_decide (length cs = 0%nat)); [done|].
  unfold emit, modify. by destruct (updateLoop cs _) as [[applied n']|].
Qed.

Definition MakeChange (address : string) (incarnation : Z) (status : string) : SW (list Change) :=
  ml ← gets n_memberlist;
  (match local ml with
   | Some _ => mret tt
   | None =>
       self ← Address;
       t ← now;
       p ← newMember (mkMember self Alive (Z.quot t 1000000));
       modify_ml (set_local (Some p))
   end);;
  loc ← gets (λ n, local (n_memberlist n));
  lm ← deref loc;
  timestamp ← now;
  Update [mkChange (m_Address lm) (m_Incarnation lm) address incarnation status timestamp].

Definition MakeAlive (address : string) (incarnation : Z) : SW (list Change) :=
  emit (MakeNodeStatusEvent Alive);; MakeChange address incarnation Alive.
Definition MakeSuspect (address : string) (incarnation : Z) : SW (list Change) :=
  emit (MakeNodeStatusEvent Suspect);; MakeChange address incarnation Suspect.
Definition MakeFaulty (address : string) (incarnation : Z) : SW (list Change) :=
  emit (MakeNodeStatusEvent Faulty);; MakeChange address incarnation Faulty.
Definition MakeLeave (address : string) (incarnation : Z) : SW (list Change) :=
  emit (MakeNodeStatusEvent Leave);; MakeChange address incarnation Leave.

Definition Reincarnate : SW (list Change) :=
  self ← Address;
  t ← nowInMillis;
  MakeAlive self t.

(** AddJoinList: everything applied except the node's own change leaves the
    disseminator again. *)
Definition AddJoinList (l : list Change) : SW unit :=
  applied ← Update l;
  self ← Address;
  for_each applied (λ c,
    if bool_decide (c_Address c = self) then mret tt else ClearChange (c_Address c)).

(** The function a suspicion timer runs when it fires; the timer stays in the
    map. *)
Definition Fire (address : string) : SW unit :=
  t ← Timer address;
  match t with
  | None => mret tt
  | Some t => MakeFaulty (t_address t) (t_incarnation t);; mret tt
  end.
