(* ===== verification/MemberIter.v ===== *)
(** * MemberIter: round-robin over the member list (swim/memberlist_iter.go) *)
From S2P Require Import Prelude GoStd NodeState Memberlist.
#[local] Open Scope Z_scope.

Definition modify_iter (f : memberlistIter → memberlistIter) : SW unit :=
  modify (λ n, with_memberiter n (f (n_memberiter n))).

(** newMemberlistIter also shuffles the list. *)
Definition newMemberlistIter : SW unit :=
  modify_iter (λ _, mkIter (-1) 0);; Shuffle.

(** One turn of the loop of Next: advance the index, shuffling at the end of a
    round, and look at the member there. *)
Definition advance : SW loc :=
  modify_iter (λ i, mkIter (currentIndex i + 1) (currentRound i));;
  i ← gets n_memberiter;
  num ← NumMembers;
  when (bool_decide (num ≤ currentIndex i))
    (modify_iter (λ i, mkIter 0 (currentRound i + 1));; Shuffle);;
  i ← gets n_memberiter;
  MemberAt (currentIndex i).

Fixpoint nextLoop (fuel : nat) (maxToVisit : Z) (visited : gset string) : SW (option loc) :=
  match fuel with
  | O => panic
  | S fuel =>
      if bool_decide (Z.of_nat (size visited) < maxToVisit) then
        p ← advance;
        member ← deref (Some p);
        let visited := {[m_Address member]} ∪ visited in
        b ← Pingable member;
        if (b : bool) then mret (Some p) else nextLoop fuel maxToVisit visited
      else mret None
  end.

(** Next: at most two passes over the list are needed. *)
Definition Next : SW (option loc) :=
  maxToVisit ← NumMembers;
  nextLoop (2 * Z.to_nat maxToVisit + 1) maxToVisit ∅.
