(* ===== verification/Frames.v ===== *)
(** * Frames: what the operations of a node leave alone

    A relation between states of a node is [Stable] when it is a preorder that
    holds across every write of the sub-protocols: to the member list, the
    disseminator, the timers, the rollup, the trace and so on, but not across a
    change of the configuration, the listeners, the gossip loop or the world.
    [respects R m] says that the operation [m] stays inside [R]; it is proved
    once for each operation and every stable relation. *)
From S2P Require Import Prelude GoStd NodeState Memberlist Disseminator Suspicion Rollup Membership MemberIter.
#[local] Open Scope Z_scope.

Class Stable (R : relation Node) : Prop := {
  stable_refl :: Reflexive R;
  stable_trans :: Transitive R;
  stable_tick n : R n (with_tick n (S (tick n)));
  stable_emitted n l : R n (with_emitted n l);
  stable_memberlist n x : R n (with_memberlist n x);
  stable_memberiter n x : R n (with_memberiter n x);
  stable_disseminator n x : R n (with_disseminator n x);
  stable_suspicion n x : R n (with_suspicion n x);
  stable_rollup n x : R n (with_rollup n x);
  stable_pinging n b : R n (with_state n (mkFlags (stopped (state n)) (destroyed (state n)) b (ready (state n))));
  stable_rates n s t : R n (with_rates n s t)
}.

Definition respects (R : relation Node) {A} (m : SW A) : Prop :=
  ∀ n a n', m n = Some (a, n') → R n n'.

Create HintDb respects.

Section respects.
Context {R : relation Node} `{HR : !Stable R}.

Lemma respects_ret {A} (a : A) : respects R (mret a).
Proof using HR. intros n ? n' [= -> ->]. done. Qed.
Lemma respects_panic {A} : respects R (panic : SW A).
Proof using. by intros n a n' ?. Qed.
Lemma respects_gets {A} (f : Node → A) : respects R (gets f).
Proof using HR. intros n ? n' [= _ ->]. done. Qed.
Lemma respects_modify f : (∀ n, R n (f n)) → respects R (modify f).
Proof using. intros Hf n [] n' [= <-]. apply Hf. Qed.
Lemma respects_sample {A} (stream : Env → nat → A) : respects R (sample stream).
Proof using HR. intros n a n' [= _ <-]. apply stable_tick. Qed.
Lemma respects_bind {A B} (m : SW A) (f : A → SW B) :
  respects R m → (∀ a, respects R (f a)) → respects R (m ≫= f).
Proof using HR.
  intros Hm Hf n b n' H. unfold mbind, M_bind in H. destruct (m n) as [[a n1]|] eqn:Hmn; [|done].
  trans n1; [by eapply Hm|by eapply Hf].
Qed.
Lemma respects_deref p : respects R (deref p).
Proof using HR. intros n m n' H. unfold deref in H. by repeat case_match; simplify_eq. Qed.
Lemma respects_newMember m : respects R (newMember m).
Proof using HR. intros n p n' [= _ <-]. apply stable_memberlist. Qed.
Lemma respects_for_each {A} (l : list A) (body : A → SW unit) :
  (∀ x, respects R (body x)) → respects R (for_each l body).
Proof using HR. intros Hb. induction l; simpl; [apply respects_ret|]. by apply respects_bind. Qed.
Lemma respects_emit e : respects R (emit e).
Proof using HR. apply respects_modify. intros n. apply stable_emitted. Qed.
Lemma respects_modify_ml f : respects R (modify_ml f).
Proof using HR. apply respects_modify. intros n. apply stable_memberlist. Qed.
Lemma respects_modify_dis f : respects R (modify_dis f).
Proof using HR. apply respects_modify. intros n. apply stable_disseminator. Qed.
Lemma respects_modify_sus f : respects R (modify_sus f).
Proof using HR. apply respects_modify. intros n. apply stable_suspicion. Qed.
Lemma respects_modify_rol f : respects R (modify_rol f).
Proof using HR. apply respects_modify. intros n. apply stable_rollup. Qed.
Lemma respects_modify_iter f : respects R (modify_iter f).
Proof using HR. apply respects_modify. intros n. apply stable_memberiter. Qed.

(** A fact about the result and the frame together. *)
Lemma respects_wp {A} (m : SW A) Q n : respects R m → wp m Q n → wp m (λ a n', Q a n' ∧ R n n') n.
Proof using. intros Hm. unfold wp. destruct (m n) as [[a n']|] eqn:H; [|done]. apply Hm in H. done. Qed.
End respects.

#[export] Hint Resolve respects_ret respects_panic respects_gets respects_sample respects_deref respects_newMember
  respects_emit respects_modify_ml respects_modify_dis respects_modify_sus respects_modify_rol
  respects_modify_iter : respects.

Ltac respects_step :=
  lazymatch goal with
  | |- respects _ (mbind _ _) => apply respects_bind; [|intros ?]
  | |- respects _ (for_each _ _) => apply respects_for_each; intros ?
  | |- respects _ (when ?b _) => destruct b; simpl
  | |- respects _ (let _ := _ in _) => cbv zeta
  | |- respects _ (match ?x with _ => _ end) => destruct x
  end.
Ltac solve_respects := repeat (solve [eauto with respects typeclass_instances] || respects_step).

(** ** Every operation respects every stable relation *)
Section operations.
Context {R : relation Node} `{HR : !Stable R}.

Lemma respects_deref_all l : respects R (deref_all l).
Proof using HR. induction l; simpl; solve_respects. Qed.
#[local] Hint Resolve respects_deref_all : respects.
Lemma respects_Pingable m : respects R (Pingable m).
Proof using HR. unfold Pingable. solve_respects. Qed.
#[local] Hint Resolve respects_Pingable : respects.
Lemma respects_countPingable l k : respects R (countPingable l k).
Proof using HR. revert k. induction l; intros k; simpl; solve_respects. Qed.
#[local] Hint Resolve respects_countPingable : respects.
Lemma respects_Apply c : respects R (Apply c).
Proof using HR. unfold Apply, memberFor, getJoinPosition, Member_, Address, intn. solve_respects. Qed.
#[local] Hint Resolve respects_Apply : respects.
Lemma respects_updateOne c : respects R (updateOne c).
Proof using HR. unfold updateOne, Member_, Address, nowInMillis, now, orPanic. solve_respects. Qed.
#[local] Hint Resolve respects_updateOne : respects.
Lemma respects_updateLoop cs : respects R (updateLoop cs).
Proof using HR. induction cs; simpl; solve_respects. Qed.
#[local] Hint Resolve respects_updateLoop : respects.
Lemma respects_AdjustMaxPropagations : respects R AdjustMaxPropagations.
Proof using HR. unfold AdjustMaxPropagations, NumPingableMembers. solve_respects. Qed.
#[local] Hint Resolve respects_AdjustMaxPropagations : respects.
Lemma respects_handleChanges cs : respects R (handleChanges cs).
Proof using HR. unfold handleChanges, handleChange, RecordChange, Stop, Start, Address. solve_respects. Qed.
#[local] Hint Resolve respects_handleChanges : respects.
Lemma respects_TrackUpdates cs : respects R (TrackUpdates cs).
Proof using HR. unfold TrackUpdates, FlushBuffer, RenewFlushTimer, AddUpdates, now. solve_respects. Qed.
#[local] Hint Resolve respects_TrackUpdates : respects.
Lemma respects_ComputeChecksum : respects R ComputeChecksum.
Proof using HR. unfold ComputeChecksum, GenChecksumString, GetMembers, now. solve_respects. Qed.
#[local] Hint Resolve respects_ComputeChecksum : respects.
Lemma respects_Update cs : respects R (Update cs).
Proof using HR. unfold Update, Stopped, Checksum, NumMembers. solve_respects. Qed.
#[local] Hint Resolve respects_Update : respects.
Lemma respects_MakeChange a i s : respects R (MakeChange a i s).
Proof using HR. unfold MakeChange, Address, now. solve_respects. Qed.
#[local] Hint Resolve respects_MakeChange : respects.
Lemma respects_AddJoinList l : respects R (AddJoinList l).
Proof using HR. unfold AddJoinList, Address, ClearChange. solve_respects. Qed.
Lemma respects_Incarnation : respects R Incarnation.
Proof using HR. unfold Incarnation. solve_respects. Qed.
#[local] Hint Resolve respects_Incarnation : respects.
Lemma respects_issueChanges : respects R issueChanges.
Proof using HR. unfold issueChanges, order. solve_respects. Qed.
#[local] Hint Resolve respects_issueChanges : respects.
Lemma respects_filterLoop fuel i cs source inc : respects R (filterLoop fuel i cs source inc).
Proof using HR. revert i cs. induction fuel; intros i cs; simpl; solve_respects. Qed.
#[local] Hint Resolve respects_filterLoop : respects.
Lemma respects_IssueAsReceiver a i k : respects R (IssueAsReceiver a i k).
Proof using HR.
  unfold IssueAsReceiver, filterChangesFromSender, bumpPiggybackCounters, Checksum, FullSync, GetMembers, Address.
  solve_respects.
Qed.
Lemma respects_nextLoop fuel m v : respects R (nextLoop fuel m v).
Proof using HR.
  revert v. induction fuel; intros v; simpl; [solve_respects|].
  unfold advance, NumMembers, Shuffle, shuffle, order, MemberAt. solve_respects.
Qed.
#[local] Hint Resolve respects_nextLoop : respects.
Lemma respects_Next : respects R Next.
Proof using HR. unfold Next, NumMembers. solve_respects. Qed.
End operations.

#[export] Hint Resolve respects_deref_all respects_Pingable respects_Apply respects_updateOne respects_updateLoop
  respects_handleChanges respects_TrackUpdates respects_ComputeChecksum respects_Update respects_MakeChange
  respects_AddJoinList respects_Incarnation respects_issueChanges respects_IssueAsReceiver respects_Next : respects.
