(* ===== verification/Advances.v ===== *)
(** * Advances: the world's cursor only moves forward

    [advances m] says that the operation [m] reads the clock, the generator
    and the other streams of the world at positions that were not read before.
    [readings n n'] are the clock readings made between the states [n] and
    [n'] of a node. *)
From S2P Require Import Prelude GoStd NodeState Memberlist Disseminator Suspicion Rollup Membership MemberIter Frames.
#[local] Open Scope Z_scope.

(** The cursor is not behind where it was. *)
Definition later (n n' : Node) : Prop := (tick n ≤ tick n')%nat.
#[global] Instance later_stable : Stable later.
Proof. split; unfold later; try done; repeat intro; simpl in *; lia. Qed.

Abbreviation advances := (respects later).

Lemma advances_wp {A} (m : SW A) Q n :
  advances m → wp m Q n → wp m (λ a n', Q a n' ∧ (tick n ≤ tick n')%nat) n.
Proof. exact (respects_wp (R := later) m Q n). Qed.

(** ** Clock readings *)
Definition readings (n n' : Node) : list Z := times (env n) <$> seq (tick n) (tick n' - tick n).

Lemma elem_of_readings n n' t :
  t ∈ readings n n' ↔ ∃ k, (tick n ≤ k < tick n')%nat ∧ t = times (env n) k.
Proof.
  unfold readings. rewrite list_elem_of_fmap. setoid_rewrite elem_of_seq. split.
  - intros (k & -> & ?). exists k. split; [lia|done].
  - intros (k & ? & ->). exists k. split; [done|lia].
Qed.

Lemma readings_app n n1 n2 :
  (tick n ≤ tick n1)%nat → (tick n1 ≤ tick n2)%nat → env n1 = env n →
  readings n n2 = readings n n1 ++ readings n1 n2.
Proof.
  intros H1 H2 He. unfold readings. rewrite He, <-fmap_app. f_equal.
  replace (tick n2 - tick n)%nat with ((tick n1 - tick n) + (tick n2 - tick n1))%nat by lia.
  rewrite seq_app. do 2 f_equal. lia.
Qed.

(** Readings made during a part of an operation are readings of the whole. *)
Lemma readings_part n n1 n2 n' :
  (tick n ≤ tick n1)%nat → (tick n1 ≤ tick n2)%nat → (tick n2 ≤ tick n')%nat → env n1 = env n → env n2 = env n →
  readings n1 n2 `sublist_of` readings n n'.
Proof.
  intros H1 H2 H3 He1 He2. rewrite (readings_app n n1 n'), (readings_app n1 n2 n') by (done || lia || congruence).
  by apply sublist_inserts_l, sublist_inserts_r.
Qed.

(** ** Monotone clocks *)
Definition monotone_clock (e : Env) : Prop := ∀ i j, (i ≤ j)%nat → times e i ≤ times e j.

Lemma StronglySorted_sublist {A} (R : relation A) l l' :
  l `sublist_of` l' → StronglySorted R l' → StronglySorted R l.
Proof.
  induction 1 as [|x l l' Hs IH|x l l' Hs IH]; [done|..]; rewrite ?StronglySorted_cons; intros [Hx Hl'].
  - split; [|by apply IH]. rewrite Forall_forall in *. intros y Hy. by eapply Hx, elem_of_sublist.
  - by apply IH.
Qed.

Lemma readings_sorted n n' : monotone_clock (env n) → StronglySorted Z.le (readings n n').
Proof.
  intros Hc. unfold readings. apply (StronglySorted_fmap _ le); [intros; by apply Hc|].
  generalize (tick n' - tick n)%nat. intros k. generalize (tick n).
  induction k as [|k IH]; intros i; simpl; [constructor|].
  constructor; [apply IH|]. rewrite Forall_forall. intros j [? ?]%elem_of_seq. lia.
Qed.
