(* ===== verification/MembershipSpec.v ===== *)
(** * MembershipSpec: the member list as a map of member states

    [view] is what the rest of the program can observe of a member list: the
    incarnation and status of each known address.  [ml_wf] is the invariant
    that ties the pointers together.  The file proves that the pointer-level
    operations keep the invariant and act on the view as intended. *)
From S2P Require Import Prelude GoStd NodeState Memberlist Disseminator Suspicion Rollup Membership Frames Advances.
#[local] Open Scope Z_scope.

Definition mstate : Type := Z * string.

Definition mem_state (m : Member) : mstate := (m_Incarnation m, m_Status m).
Definition view_ml (ml : memberlist) : gmap string mstate :=
  omap (λ p, mem_state <$> heap ml !! p) (byAddress ml).
Definition view (n : Node) : gmap string mstate := view_ml (n_memberlist n).
Definition self (n : Node) : string := n_address (config n).

(** ** The invariant *)
Record wf (addr : string) (ml : memberlist) : Prop := {
  wf_nodup : NoDup (list_ ml);
  wf_list : ∀ p, p ∈ list_ ml ↔ ∃ a, byAddress ml !! a = Some p;
  wf_heap : ∀ a p, byAddress ml !! a = Some p → ∃ m, heap ml !! p = Some m ∧ m_Address m = a;
  wf_local : ∃ p m, local ml = Some p ∧ heap ml !! p = Some m ∧ m_Address m = addr;
  wf_self : ∀ p, byAddress ml !! addr = Some p → local ml = Some p
}.
Definition ml_wf (n : Node) : Prop := wf (self n) (n_memberlist n).

(** Everything but the members, the trace and the world's cursor. *)
Record ml_only (n n' : Node) : Prop := {
  mo_config : config n' = config n;
  mo_state : state n' = state n;
  mo_iter : n_memberiter n' = n_memberiter n;
  mo_dis : n_disseminator n' = n_disseminator n;
  mo_sus : n_suspicion n' = n_suspicion n;
  mo_rol : n_rollup n' = n_rollup n;
  mo_gos : n_gossip n' = n_gossip n;
  mo_lst : listeners n' = listeners n;
  mo_env : env n' = env n;
  mo_checksum : ml_checksum (n_memberlist n') = ml_checksum (n_memberlist n)
}.

#[global] Instance ml_only_refl : Reflexive ml_only.
Proof. by split. Qed.
#[global] Instance ml_only_trans : Transitive ml_only.
Proof. intros x y z [] []. split; congruence. Qed.

Lemma ml_only_self n n' : ml_only n n' → self n' = self n.
Proof. intros []. unfold self. congruence. Qed.

(** ** Running the world's primitives *)
Lemma wp_now Q n : Q (times (env n) (tick n)) (with_tick n (S (tick n))) → wp now Q n.
Proof. done. Qed.
Lemma wp_order Q n : Q (orders (env n) (tick n)) (with_tick n (S (tick n))) → wp order Q n.
Proof. done. Qed.
Lemma wp_emit e (Q : unit → Node → Prop) n :
  Q tt (with_emitted n (emitted n ++ ((λ l, (l, e)) <$> listeners n))) → wp (emit e) Q n.
Proof. done. Qed.
Lemma wp_deref p m (Q : Member → Node → Prop) n :
  heap (n_memberlist n) !! p = Some m → Q m n → wp (deref (Some p)) Q n.
Proof. intros Hp HQ. unfold wp, deref. by rewrite Hp. Qed.

(** ** Views *)
Lemma lookup_view ml a :
  view_ml ml !! a = (byAddress ml !! a ≫= λ p, mem_state <$> heap ml !! p).
Proof. unfold view_ml. by rewrite lookup_omap. Qed.

Lemma view_None addr ml a : wf addr ml → view_ml ml !! a = None ↔ byAddress ml !! a = None.
Proof.
  intros Hwf. rewrite lookup_view. destruct (byAddress ml !! a) as [p|] eqn:Hp; simpl; [|done].
  destruct (wf_heap _ _ Hwf _ _ Hp) as (m & -> & _). done.
Qed.

Lemma wf_inj addr ml a a' p :
  wf addr ml → byAddress ml !! a = Some p → byAddress ml !! a' = Some p → a = a'.
Proof.
  intros Hwf H1 H2. destruct (wf_heap _ _ Hwf _ _ H1) as (m & Hm & <-).
  destruct (wf_heap _ _ Hwf _ _ H2) as (m' & Hm' & <-). congruence.
Qed.

(** Writing status and incarnation through a pointer of the list. *)
Lemma wf_write addr ml a p m st inc :
  wf addr ml → byAddress ml !! a = Some p → heap ml !! p = Some m →
  wf addr (set_heap (<[p := mkMember (m_Address m) st inc]> (heap ml)) ml) ∧
  view_ml (set_heap (<[p := mkMember (m_Address m) st inc]> (heap ml)) ml) = <[a := (inc, st)]> (view_ml ml).
Proof.
  intros Hwf Ha Hm. split.
  - destruct Hwf as [Hnd Hl Hh (pl & m0 & Hloc & Hm0 & Ha0) Hs]. split; simpl; [done|done|..|done].
    + intros a' p' Ha'. destruct (Hh a' p' Ha') as (m' & Hm' & Hadr).
      destruct (decide (p' = p)) as [->|]; [|rewrite lookup_insert_ne by done; eauto].
      simplify_map_eq. eauto.
    + exists pl. destruct (decide (pl = p)) as [->|]; [|rewrite lookup_insert_ne by done; eauto].
      simplify_map_eq. eauto.
  - apply map_eq. intros a'. rewrite lookup_view. simpl. destruct (decide (a' = a)) as [->|Hne].
    + rewrite Ha, lookup_insert_eq. simpl. by rewrite lookup_insert_eq.
    + rewrite lookup_insert_ne, lookup_view by done.
      destruct (byAddress ml !! a') as [p'|] eqn:Ha'; simpl; [|done].
      rewrite lookup_insert_ne; [done|]. intros ->. apply Hne. by eapply wf_inj.
Qed.

(** Linking a fresh object for a new address. *)
Lemma wf_link addr ml a p m i lo :
  wf addr ml → byAddress ml !! a = None → heap ml !! p = None → m_Address m = a →
  lo = (if bool_decide (a = addr) then Some p else local ml) →
  wf addr (mkMemberlist (<[p := m]> (heap ml)) lo (take i (list_ ml) ++ p :: drop i (list_ ml))
             (<[a := p]> (byAddress ml)) (ml_checksum ml)).
Proof.
  intros [Hnd Hl Hh (pl & m0 & Hloc & Hm0 & Ha0) Hs] Ha Hp Hadr ->.
  assert (∀ a' p', byAddress ml !! a' = Some p' → p' ≠ p) as Hfresh.
  { intros a' p' Ha' ->. destruct (Hh _ _ Ha') as (? & ? & _). congruence. }
  assert (p ∉ list_ ml) as Hnot by (intros (a' & Ha')%Hl; by eapply Hfresh).
  split; simpl.
  - rewrite <-Permutation_middle, take_drop. by constructor.
  - intros p'. rewrite <-Permutation_middle, take_drop, elem_of_cons, Hl. split.
    + intros [->|[a' Ha']]; [by exists a; simplify_map_eq|]. exists a'. rewrite lookup_insert_ne; congruence.
    + intros [a' Ha']. destruct (decide (a' = a)) as [->|]; simplify_map_eq; eauto.
  - intros a' p' Ha'. destruct (decide (a' = a)) as [->|]; simplify_map_eq; [eauto|].
    rewrite lookup_insert_ne; eauto. intros ->. by eapply Hfresh.
  - case_bool_decide as Heq.
    + exists p, m. simplify_map_eq. done.
    + exists pl, m0. split_and!; [done| |done]. rewrite lookup_insert_ne; [done|]. congruence.
  - intros p' Hp'. case_bool_decide as Heq; [rewrite <-Heq, lookup_insert_eq in Hp'; congruence|].
    rewrite lookup_insert_ne in Hp' by done. auto.
Qed.

(** ** [Apply] *)
Lemma memberFor_new c n :
  ml_wf n → byAddress (n_memberlist n) !! c_Address c = None →
  wp (memberFor c) (λ p n', ml_wf n' ∧ ml_only n n' ∧
    byAddress (n_memberlist n') !! c_Address c = Some p ∧
    heap (n_memberlist n') !! p = Some (mkMember (c_Address c) (c_Status c) (c_Incarnation c)) ∧
    (∀ a, a ≠ c_Address c → view n' !! a = view n !! a)) n.
Proof.
  intros Hwf Hnone. unfold memberFor. apply wp_bind, wp_gets. rewrite Hnone. apply wp_bind.
  set (p := fresh (dom (heap (n_memberlist n)))).
  assert (heap (n_memberlist n) !! p = None) as Hp by apply not_elem_of_dom, is_fresh.
  set (m := mkMember _ _ _). set (lo := if bool_decide (c_Address c = self n) then Some p
    else local (n_memberlist n)).
  assert (∀ i t, wp (modify_ml (λ ml, set_list (take i (list_ ml) ++ p :: drop i (list_ ml)) ml);; mret p)
    (λ p n', ml_wf n' ∧ ml_only n n' ∧ byAddress (n_memberlist n') !! c_Address c = Some p ∧
      heap (n_memberlist n') !! p = Some m ∧ (∀ a, a ≠ c_Address c → view n' !! a = view n !! a))
    (with_tick (with_memberlist n (mkMemberlist (<[p := m]> (heap (n_memberlist n))) lo
       (list_ (n_memberlist n)) (<[c_Address c := p]> (byAddress (n_memberlist n)))
       (ml_checksum (n_memberlist n)))) t)) as Hend.
  { intros i t. apply wp_bind, wp_modify, wp_ret. split_and!; simpl.
    - by apply (wf_link (self n) (n_memberlist n) (c_Address c) p m i lo).
    - done.
    - by simplify_map_eq.
    - by simplify_map_eq.
    - intros a Ha. unfold view. rewrite !lookup_view. simpl. rewrite lookup_insert_ne by done.
      destruct (byAddress (n_memberlist n) !! a) as [p'|] eqn:Hp'; simpl; [|done].
      rewrite lookup_insert_ne; [done|]. intros ->.
      destruct (wf_heap _ _ Hwf _ _ Hp') as (? & ? & _). congruence. }
  unfold newMember, wp at 1. fold p. apply wp_bind, wp_gets. simpl. apply wp_bind.
  assert (∀ n1, n_memberlist n1 = set_local lo (set_heap (<[p := m]> (heap (n_memberlist n))) (n_memberlist n)) →
    n1 = with_memberlist n (n_memberlist n1) →
    wp (modify_ml (λ ml, set_byAddress (<[c_Address c := p]> (byAddress ml)) ml);;
        i ← getJoinPosition;
        modify_ml (λ ml, set_list (take i (list_ ml) ++ p :: drop i (list_ ml)) ml);; mret p)
    (λ p n', ml_wf n' ∧ ml_only n n' ∧ byAddress (n_memberlist n') !! c_Address c = Some p ∧
      heap (n_memberlist n') !! p = Some m ∧ (∀ a, a ≠ c_Address c → view n' !! a = view n !! a)) n1) as Hmid.
  { intros n1 Hml ->. rewrite Hml. apply wp_bind, wp_modify, wp_bind, wp_bind, wp_gets. simpl.
    destruct (length (list_ (n_memberlist n))) as [|k].
    - apply wp_ret. apply (Hend 0%nat (tick n)).
    - unfold intn. apply wp_bind. unfold sample, wp at 1. apply wp_ret. apply Hend. }
  unfold lo in Hmid. clear Hend lo. change (n_address (config n)) with (self n).
  destruct (bool_decide (c_Address c = self n)); simpl.
  - apply wp_modify. by apply Hmid.
  - apply wp_ret. by apply Hmid.
Qed.

Lemma Apply_spec c n :
  ml_wf n →
  wp (Apply c) (λ _ n', ml_wf n' ∧ ml_only n n' ∧
    view n' = <[c_Address c := (c_Incarnation c, c_Status c)]> (view n)) n.
Proof.
  intros Hwf. unfold Apply. apply wp_bind.
  destruct (byAddress (n_memberlist n) !! c_Address c) as [p|] eqn:Ha.
  - unfold memberFor. apply wp_bind, wp_gets. rewrite Ha. apply wp_ret, wp_bind.
    destruct (wf_heap _ _ Hwf _ _ Ha) as (m & Hm & _). eapply wp_deref; [exact Hm|].
    apply wp_modify. destruct (wf_write _ _ _ _ m (c_Status c) (c_Incarnation c) Hwf Ha Hm). done.
  - eapply wp_mono; [by apply memberFor_new|]. intros p n' (Hwf' & Hmo & Ha' & Hm & Hview).
    apply wp_bind. eapply wp_deref; [exact Hm|]. apply wp_modify.
    destruct (wf_write _ _ _ _ _ (c_Status c) (c_Incarnation c) Hwf' Ha' Hm) as [Hw Hv].
    split_and!; [done|by split; apply Hmo|]. unfold view at 1. simpl. simpl in Hv. rewrite Hv.
    apply map_eq. intros a. destruct (decide (a = c_Address c)) as [->|]; [by simplify_map_eq|].
    rewrite !lookup_insert_ne by done. by apply Hview.
Qed.

(** ** The decision on one change *)
Definition valid_status (s : string) : Prop := is_Some (statePrecedence s).
Definition valid_change (c : Change) : Prop := valid_status (c_Status c).
Definition valid_view (v : gmap string mstate) : Prop := map_Forall (λ _ ms, valid_status ms.2) v.

Definition precedence (s : string) : Z := default 0 (statePrecedence s).

(** A change overrides a state: newer incarnation, or the same one with a
    status of higher precedence. *)
Definition beats (c : Change) (ms : mstate) : bool :=
  bool_decide (ms.1 < c_Incarnation c) ||
  (bool_decide (ms.1 = c_Incarnation c) && bool_decide (precedence ms.2 < precedence (c_Status c))).

Definition is_rumour (c : Change) : bool :=
  bool_decide (c_Status c = Faulty) || bool_decide (c_Status c = Suspect).

(** [a] is what [Update] applies for [c] at the node [addr] with the view [v];
    a refutation carries one of the clock readings [r]. *)
Definition decision (r : list Z) (addr : string) (v : gmap string mstate) (c : Change) (a : option Change) : Prop :=
  match v !! c_Address c with
  | None => a = Some c
  | Some ms =>
      if bool_decide (c_Address c = addr) && is_rumour c then
        ∃ u t, u ∈ r ∧ a = Some (mkChange (c_Source c) (c_SourceIncarnation c) (c_Address c)
                                   (Z.quot u 1000000) Alive t)
      else a = if beats c ms then Some c else None
  end.

Definition put (v : gmap string mstate) (c : Change) : gmap string mstate :=
  <[c_Address c := (c_Incarnation c, c_Status c)]> v.
Definition put_opt (v : gmap string mstate) (a : option Change) : gmap string mstate :=
  match a with Some c => put v c | None => v end.

(** A batch of changes takes the view [v] to [v'], applying [as_]; the clock
    readings of the refutations come in the order of [r]. *)
Inductive absorbs (addr : string) :
  list Z → gmap string mstate → list Change → list Change → gmap string mstate → Prop :=
| absorbs_nil r v : absorbs addr r v [] [] v
| absorbs_cons r1 r2 r v c a cs as_ v' :
    decision r1 addr v c a → absorbs addr r2 (put_opt v a) cs as_ v' → r1 ++ r2 `sublist_of` r →
    absorbs addr r v (c :: cs) (match a with Some a => a :: as_ | None => as_ end) v'.

Lemma nonLocalOverride_beats m c :
  valid_status (m_Status m) → valid_change c → nonLocalOverride m c = Some (beats c (mem_state m)).
Proof.
  intros [q Hq] [p Hp]. unfold nonLocalOverride, beats, precedence. simpl. rewrite Hp, Hq. simpl.
  repeat case_bool_decide; simpl; (done || lia).
Qed.

Lemma valid_Alive : valid_status Alive.
Proof. by exists 0. Qed.

Lemma localOverride_spec m addr c :
  localOverride m addr c = bool_decide (m_Address m = addr) && is_rumour c.
Proof.
  unfold localOverride, is_rumour. destruct (decide (m_Address m = addr)).
  - rewrite bool_decide_false by tauto. by rewrite (bool_decide_true (m_Address m = addr)).
  - rewrite bool_decide_true by done. by rewrite (bool_decide_false (m_Address m = addr)).
Qed.

Lemma updateOne_spec c n :
  ml_wf n → valid_view (view n) → valid_change c →
  wp (updateOne c) (λ a n', ml_wf n' ∧ ml_only n n' ∧ decision (readings n n') (self n) (view n) c a ∧
    view n' = put_opt (view n) a) n.
Proof.
  intros Hwf Hvv Hvc. unfold updateOne. apply wp_bind, wp_gets.
  destruct (byAddress (n_memberlist n) !! c_Address c) as [p|] eqn:Ha.
  - destruct (wf_heap _ _ Hwf _ _ Ha) as (m & Hm & Hadr).
    assert (view n !! c_Address c = Some (mem_state m)) as Hv.
    { unfold view. by rewrite lookup_view, Ha; simpl; rewrite Hm. }
    apply wp_bind. eapply wp_deref; [exact Hm|]. apply wp_bind, wp_gets. fold (self n).
    rewrite localOverride_spec, Hadr. unfold decision. rewrite Hv.
    destruct (bool_decide (c_Address c = self n) && is_rumour c) eqn:Hloc.
    + apply wp_bind, wp_emit, wp_bind, wp_bind, wp_now, wp_ret, wp_bind, wp_now, wp_bind.
      set (c' := mkChange _ _ _ _ _ _). set (n1 := with_tick _ _).
      eapply wp_mono; [apply advances_wp; [eauto with respects typeclass_instances|apply (Apply_spec c' n1 Hwf)]|].
      intros [] n' ((Hwf' & Hmo & Hview) & Htick). apply wp_ret.
      split_and!; [done|by split; apply Hmo| |done]. do 2 eexists. split; [|done].
      apply elem_of_readings. exists (tick n). split; [simpl in Htick; lia|done].
    + apply wp_bind. rewrite nonLocalOverride_beats; [|by apply (Hvv (c_Address c) (mem_state m))|done].
      apply wp_ret. destruct (beats c (mem_state m)); [|by apply wp_ret].
      apply wp_bind. eapply wp_mono; [by apply Apply_spec|]. intros [] n' (Hwf' & Hmo & Hview).
      by apply wp_ret.
  - apply wp_bind. eapply wp_mono; [by apply Apply_spec|]. intros [] n' (Hwf' & Hmo & Hview).
    apply wp_ret. split_and!; [done|done| |done]. unfold decision.
    assert (view n !! c_Address c = None) as -> by by eapply view_None. done.
Qed.

Lemma decision_valid r addr v c a :
  decision r addr v c a → valid_view v → valid_change c → valid_view (put_opt v a).
Proof.
  intros Hd Hv Hc. assert (∀ a', a = Some a' → valid_change a') as Ha.
  { unfold decision in Hd. destruct (v !! c_Address c) as [ms|]; [|by intros; simplify_eq].
    destruct (_ && _); [|destruct (beats c ms); by intros; simplify_eq].
    destruct Hd as (i & t & _ & ->). intros a' [= <-]. apply valid_Alive. }
  destruct a as [a|]; [|done]. apply map_Forall_insert_2; [by apply (Ha a)|done].
Qed.

(** More readings allow more. *)
Lemma decision_mono r r' addr v c a : r ⊆ r' → decision r addr v c a → decision r' addr v c a.
Proof.
  intros Hr. unfold decision. destruct (v !! c_Address c) as [ms|]; [|done]. destruct (_ && _); [|done].
  intros (u & t & Hu & ->). exists u, t. split; [by apply Hr|done].
Qed.

Lemma absorbs_mono r r' addr v cs as_ v' :
  r `sublist_of` r' → absorbs addr r v cs as_ v' → absorbs addr r' v cs as_ v'.
Proof. intros Hr. destruct 1; [constructor|]. econstructor; [done|done|]. by etrans. Qed.

Lemma updateLoop_spec cs n :
  ml_wf n → valid_view (view n) → Forall valid_change cs →
  wp (updateLoop cs) (λ as_ n', ml_wf n' ∧ ml_only n n' ∧ valid_view (view n') ∧
    absorbs (self n) (readings n n') (view n) cs as_ (view n')) n.
Proof.
  intros Hwf Hvv Hcs. revert n Hwf Hvv.
  induction Hcs as [|c cs Hc _ IH]; intros n Hwf Hvv; simpl.
  { apply wp_ret. split_and!; try done. constructor. }
  apply wp_bind. eapply wp_mono; [apply advances_wp; [eauto with respects typeclass_instances|by apply updateOne_spec]|].
  intros a n1 ((Hwf1 & Hmo & Hd & Hv) & Ht1).
  apply wp_bind. eapply wp_mono; [apply advances_wp; [eauto with respects typeclass_instances|apply IH; [done|]]|].
  { rewrite Hv. by eapply decision_valid. }
  intros as_ n2 ((Hwf2 & Hmo2 & Hvv2 & Habs) & Ht2). apply wp_ret. split_and!; [done|by etrans|done|].
  rewrite (ml_only_self _ _ Hmo), Hv in Habs. econstructor; [exact Hd|exact Habs|].
  by rewrite <-(readings_app n n1 n2); [|done..|apply Hmo].
Qed.

(** ** Members and views *)
Definition entry (m : Member) : string * mstate := (m_Address m, mem_state m).

Lemma deref_all_spec l n (Q : list Member → Node → Prop) :
  (∀ p, p ∈ l → is_Some (heap (n_memberlist n) !! p)) →
  (∀ ms, Forall2 (λ p m, heap (n_memberlist n) !! p = Some m) l ms → Q ms n) →
  wp (deref_all l) Q n.
Proof.
  revert Q. induction l as [|p l IH]; intros Q Hl HQ; simpl.
  { apply wp_ret, HQ. constructor. }
  destruct (Hl p) as [m Hm]; [set_solver|]. apply wp_bind. eapply wp_deref; [exact Hm|].
  apply wp_bind, IH; [set_solver|]. intros ms Hms. apply wp_ret, HQ. by constructor.
Qed.

Lemma entries_view addr ml ms :
  wf addr ml → Forall2 (λ p m, heap ml !! p = Some m) (list_ ml) ms →
  entry <$> ms ≡ₚ map_to_list (view_ml ml).
Proof.
  intros Hwf Hms.
  assert (∀ m, m ∈ ms → ∃ p, p ∈ list_ ml ∧ heap ml !! p = Some m) as Hin.
  { intros m (i & Hi)%list_elem_of_lookup. destruct (Forall2_lookup_r _ _ _ _ _ Hms Hi) as (p & Hp & Hm).
    exists p. split; [|done]. by apply list_elem_of_lookup_2 in Hp. }
  apply NoDup_Permutation.
  - apply (NoDup_fmap_1 fst). rewrite <-list_fmap_compose.
    assert (NoDup (m_Address <$> ms)); [|done].
    pose proof (wf_nodup _ _ Hwf) as Hnd. pose proof (wf_list _ _ Hwf) as Hl. pose proof (wf_heap _ _ Hwf) as Hh.
    assert (∀ p, p ∈ list_ ml → ∃ m, heap ml !! p = Some m ∧ byAddress ml !! m_Address m = Some p) as Hback.
    { intros p [a Ha]%Hl. destruct (Hh _ _ Ha) as (m & Hm & <-). eauto. }
    clear Hl Hh Hin. revert Hnd Hback. induction Hms as [|p m l ms' Hm Hms' IH]; intros Hnd Hback; simpl; [constructor|].
    apply NoDup_cons in Hnd as [Hnot Hnd]. constructor; [|apply IH; [done|]; intros; apply Hback; set_solver].
    intros (m' & Hadr & Hm'%list_elem_of_lookup)%list_elem_of_fmap. destruct Hm' as [i Hi].
    destruct (Forall2_lookup_r _ _ _ _ _ Hms' Hi) as (p' & Hp' & Hmp').
    apply list_elem_of_lookup_2 in Hp'. destruct (Hback p) as (m1 & ? & Hb1); [set_solver|].
    destruct (Hback p') as (m2 & ? & Hb2); [set_solver|]. simplify_eq. rewrite Hadr in Hb1. congruence.
  - apply NoDup_map_to_list.
  - intros [a ms0]. rewrite elem_of_map_to_list, lookup_view, list_elem_of_fmap. split.
    + intros (m & [= -> ->] & Hm). destruct (Hin _ Hm) as (p & Hp & Hpm).
      apply (wf_list _ _ Hwf) in Hp as [a Ha]. destruct (wf_heap _ _ Hwf _ _ Ha) as (m' & Hm' & <-).
      simplify_eq. rewrite Ha. simpl. by rewrite Hpm.
    + destruct (byAddress ml !! a) as [p|] eqn:Ha; simpl; [|done].
      destruct (wf_heap _ _ Hwf _ _ Ha) as (m & Hm & <-). rewrite Hm. simpl. intros [= <-].
      exists m. split; [done|]. assert (p ∈ list_ ml) as (i & Hi)%list_elem_of_lookup.
      { apply (wf_list _ _ Hwf). eauto. }
      destruct (Forall2_lookup_l _ _ _ _ _ Hms Hi) as (m' & Hi' & ?). simplify_eq.
      by apply list_elem_of_lookup_2 in Hi'.
Qed.

Lemma wf_deref n p : ml_wf n → p ∈ list_ (n_memberlist n) → is_Some (heap (n_memberlist n) !! p).
Proof. intros Hwf [a Ha]%(wf_list _ _ Hwf). destruct (wf_heap _ _ Hwf _ _ Ha) as (m & -> & _). eauto. Qed.

Lemma GetMembers_spec n (Q : list Member → Node → Prop) :
  ml_wf n → (∀ ms, entry <$> ms ≡ₚ map_to_list (view n) → Q ms n) → wp GetMembers Q n.
Proof.
  intros Hwf HQ. unfold GetMembers. apply wp_bind, wp_gets, deref_all_spec; [by intros; apply wf_deref|].
  intros ms Hms. apply HQ. by eapply entries_view.
Qed.

(** ** The checksum *)
Definition entry_string (x : string * mstate) : string := sprint_sv (x.1 +:+ x.2.2) x.2.1.
Definition view_string (v : gmap string mstate) : string :=
  checksum_string (entry_string <$> map_to_list v).
Definition view_checksum (n : Node) : Z := fingerprint32 (env n) (view_string (view n)).

Lemma checksum_string_perm l l' : l ≡ₚ l' → checksum_string l = checksum_string l'.
Proof. intros H. unfold checksum_string. by rewrite H. Qed.

Lemma GenChecksumString_spec n :
  ml_wf n → wp GenChecksumString (λ s n', n' = n ∧ s = view_string (view n)) n.
Proof.
  intros Hwf. unfold GenChecksumString. apply wp_bind, GetMembers_spec; [done|]. intros ms Hms.
  apply wp_ret. split; [done|]. unfold view_string. apply checksum_string_perm. rewrite <-Hms.
  rewrite <-list_fmap_compose. done.
Qed.

Lemma ComputeChecksum_spec n :
  ml_wf n →
  wp ComputeChecksum (λ _ n',
    ml_only (with_memberlist n (set_checksum (view_checksum n) (n_memberlist n))) n' ∧
    n_memberlist n' = set_checksum (view_checksum n) (n_memberlist n)) n.
Proof.
  intros Hwf. unfold ComputeChecksum. apply wp_bind, wp_now, wp_bind.
  eapply wp_mono; [apply GenChecksumString_spec; exact Hwf|]. intros s n' [-> ->].
  apply wp_bind, wp_gets, wp_bind, wp_modify, wp_bind, wp_now, wp_emit. done.
Qed.
