(* ===== verification/UpdateSpec.v ===== *)
(** * UpdateSpec: what [Update] does to all components

    [Update_spec] gathers the effects of [Update] on the member list, the
    disseminator, the suspicion timers and the checksum. *)
From S2P Require Import Prelude GoStd NodeState Memberlist Disseminator Suspicion Rollup Membership.
From S2P Require Import Frames Advances MembershipSpec.
#[local] Open Scope Z_scope.

(** ** Pingable members *)
Definition pingable (addr : string) (x : string * mstate) : Prop :=
  x.1 ≠ addr ∧ (x.2.2 = Alive ∨ x.2.2 = Suspect).
#[global] Instance pingable_dec addr x : Decision (pingable addr x).
Proof. unfold pingable. apply _. Defined.
Definition pingable_count (addr : string) (v : gmap string mstate) : Z :=
  Z.of_nat (length (filter (pingable addr) (map_to_list v))).

Lemma Pingable_spec n m (Q : bool → Node → Prop) :
  ml_wf n → Q (bool_decide (pingable (self n) (entry m))) n → wp (Pingable m) Q n.
Proof.
  intros Hwf HQ. destruct (wf_local _ _ Hwf) as (p & lm & Hp & Hm & Hadr).
  unfold Pingable. apply wp_bind, wp_gets, wp_bind. rewrite Hp. eapply wp_deref; [exact Hm|].
  apply wp_ret. rewrite Hadr. replace (_ && _) with (bool_decide (pingable (self n) (entry m))); [done|].
  unfold pingable, entry, mem_state. simpl.
  repeat case_bool_decide; simpl; tauto.
Qed.

Lemma countPingable_spec l k n (Q : Z → Node → Prop) :
  ml_wf n → (∀ p, p ∈ l → is_Some (heap (n_memberlist n) !! p)) →
  (∀ ms, Forall2 (λ p m, heap (n_memberlist n) !! p = Some m) l ms →
     Q (k + Z.of_nat (length (filter (λ m, pingable (self n) (entry m)) ms))) n) →
  wp (countPingable l k) Q n.
Proof.
  intros Hwf. revert k Q. induction l as [|p l IH]; intros k Q Hl HQ; simpl.
  { apply wp_ret. specialize (HQ [] ltac:(constructor)). by rewrite Z.add_0_r in HQ. }
  destruct (Hl p) as [m Hm]; [set_solver|]. apply wp_bind. eapply wp_deref; [exact Hm|].
  apply wp_bind, Pingable_spec; [done|]. apply IH; [set_solver|]. intros ms Hms.
  specialize (HQ (m :: ms) ltac:(by constructor)). rewrite filter_cons in HQ.
  case_bool_decide as Hb; [rewrite decide_True in HQ by done|rewrite decide_False in HQ by done];
    simpl in HQ; [|done].
  by replace (k + 1 + _) with (k + Z.of_nat (S (length (filter (λ m, pingable (self n) (entry m)) ms)))) by lia.
Qed.

Lemma filter_entry addr (ms : list Member) :
  length (filter (λ m, pingable addr (entry m)) ms) = length (filter (pingable addr) (entry <$> ms)).
Proof.
  induction ms as [|m ms IH]; simpl; [done|]. rewrite !filter_cons.
  destruct (decide (pingable addr (entry m))); simpl; by rewrite IH.
Qed.

Lemma NumPingableMembers_spec n :
  ml_wf n → wp NumPingableMembers (λ k n', n' = n ∧ k = pingable_count (self n) (view n)) n.
Proof.
  intros Hwf. unfold NumPingableMembers. apply wp_bind, wp_gets, countPingable_spec;
    [done|by intros; apply wf_deref|].
  intros ms Hms. split; [done|]. rewrite filter_entry. unfold pingable_count, view.
  by rewrite <-(entries_view _ _ _ Hwf Hms).
Qed.

(** ** The disseminator and the timers under [handleChanges] *)
Definition record (cs : gmap string pChange) (c : Change) : gmap string pChange :=
  <[c_Address c := mkPChange c 0]> cs.

Definition suspects (addr : string) (on : bool) (ts : gmap string timer) (c : Change) : gmap string timer :=
  if bool_decide (c_Status c = Suspect) then
    if on && bool_decide (addr ≠ c_Address c) && bool_decide (ts !! c_Address c = None)
    then <[c_Address c := mkTimer (c_Address c) (c_Incarnation c)]> ts else ts
  else if bool_decide (c_Status c = Alive ∨ c_Status c = Faulty ∨ c_Status c = Leave)
  then delete (c_Address c) ts else ts.

(** The effects of [handleChanges]: all but the disseminator, the timers and
    the trace is kept. *)
Record handled (cs : list Change) (n n' : Node) : Prop := {
  hd_config : config n' = config n;
  hd_state : state n' = state n;
  hd_ml : n_memberlist n' = n_memberlist n;
  hd_changes : changes (n_disseminator n') = foldl record (changes (n_disseminator n)) cs;
  hd_pFactor : pFactor (n_disseminator n') = pFactor (n_disseminator n);
  hd_timers : timers (n_suspicion n') =
    foldl (suspects (self n) (enabled (n_suspicion n))) (timers (n_suspicion n)) cs;
  hd_enabled : enabled (n_suspicion n') = enabled (n_suspicion n);
  hd_rollup : n_rollup n' = n_rollup n;
  hd_lst : listeners n' = listeners n;
  hd_env : env n' = env n;
  hd_iter : n_memberiter n' = n_memberiter n;
  hd_gos : n_gossip n' = n_gossip n
}.

Lemma handled_trans cs1 cs2 n n1 n2 :
  handled cs1 n n1 → handled cs2 n1 n2 → handled (cs1 ++ cs2) n n2.
Proof.
  intros [] []. assert (self n1 = self n) as Hself by (unfold self; congruence).
  split; try congruence; rewrite foldl_app; congruence.
Qed.

(** The disseminator's counter limit after an adjustment. *)
Definition maxP_for (n : Node) : Z :=
  pFactor (n_disseminator n) * ceilLog10 (pingable_count (self n) (view n) + 1).

Lemma AdjustMaxPropagations_spec n :
  ml_wf n →
  wp AdjustMaxPropagations (λ _ n', handled [] n n' ∧ maxP (n_disseminator n') = maxP_for n) n.
Proof.
  intros Hwf. unfold AdjustMaxPropagations. apply wp_bind.
  eapply wp_mono; [by apply NumPingableMembers_spec|]. intros k n' [-> ->].
  apply wp_bind, wp_gets. fold (maxP_for n). case_bool_decide as Heq; simpl.
  - apply wp_bind, wp_modify, wp_emit. done.
  - apply wp_ret. split; [done|]. destruct (decide (maxP (n_disseminator n) = maxP_for n)); [done|].
    unfold maxP_for in *. congruence.
Qed.

Lemma Stop_spec a n :
  wp (Stop a) (λ _ n', n' = with_suspicion n (set_timers (delete a (timers (n_suspicion n))) (n_suspicion n))) n.
Proof.
  unfold Stop. apply wp_bind, wp_gets. destruct (timers (n_suspicion n) !! a) eqn:Ht.
  - by apply wp_modify.
  - apply wp_ret. rewrite delete_id by done. by destruct n as [? ? ? ? ? [] ? ? ? ? ? ? ? ? ?].
Qed.

Lemma Start_spec a i n :
  wp (Start a i) (λ _ n', n' = with_suspicion n
    (set_timers (if enabled (n_suspicion n) && bool_decide (self n ≠ a)
                    && bool_decide (timers (n_suspicion n) !! a = None)
                 then <[a := mkTimer a i]> (timers (n_suspicion n)) else timers (n_suspicion n))
       (n_suspicion n))) n.
Proof.
  assert (with_suspicion n (set_timers (timers (n_suspicion n)) (n_suspicion n)) = n) as Hid
    by by destruct n as [? ? ? ? ? [] ? ? ? ? ? ? ? ? ?].
  unfold Start. apply wp_bind, wp_gets. destruct (enabled (n_suspicion n)); simpl; [|by apply wp_ret].
  apply wp_bind, wp_gets. fold (self n). destruct (decide (self n = a)) as [He|He].
  - rewrite bool_decide_true by done. rewrite bool_decide_false by tauto. by apply wp_ret.
  - rewrite bool_decide_false by done. rewrite (bool_decide_true (self n ≠ a)) by done. simpl.
    destruct (timers (n_suspicion n) !! a) eqn:Ht; [by apply wp_ret|]. by apply wp_modify.
Qed.

Lemma handleChange_spec c n : ml_wf n → wp (handleChange c) (λ _ n', handled [c] n n') n.
Proof.
  intros Hwf. unfold handleChange. apply wp_bind, wp_modify. set (n1 := with_disseminator _ _).
  assert (∀ n2, n2 = with_suspicion n1
      (set_timers (suspects (self n) (enabled (n_suspicion n)) (timers (n_suspicion n)) c) (n_suspicion n1)) →
    handled [c] n n2 ∧ ml_wf n2) as Hn2.
  { intros n2 ->. split; [|done]. by split. }
  assert (∀ n2, handled [c] n n2 ∧ ml_wf n2 → wp AdjustMaxPropagations (λ _, handled [c] n) n2) as Hadj.
  { intros n2 [Hh Hw]. eapply wp_mono; [by apply AdjustMaxPropagations_spec|].
    intros [] n3 [Hh3 _]. by apply (handled_trans [c] [] n n2 n3). }
  unfold suspects in Hn2.
  destruct (decide (c_Status c = Alive)) as [Ha|Ha]; [|destruct (decide (c_Status c = Faulty)) as [Hf|Hf];
    [|destruct (decide (c_Status c = Suspect)) as [Hs|Hs]; [|destruct (decide (c_Status c = Leave)) as [Hl|Hl]]]].
  - rewrite bool_decide_true by done. rewrite Ha in Hn2. apply wp_bind.
    eapply wp_mono; [apply Stop_spec|]. intros [] n2 Heq. apply Hadj, Hn2. exact Heq.
  - rewrite bool_decide_false, bool_decide_true by done. rewrite Hf in Hn2.
    eapply wp_mono; [apply Stop_spec|]. intros [] n2 Heq. apply Hn2. exact Heq.
  - do 2 rewrite bool_decide_false by done. rewrite bool_decide_true by done. rewrite Hs in Hn2. apply wp_bind.
    eapply wp_mono; [apply Start_spec|]. intros [] n2 Heq. apply Hadj, Hn2. exact Heq.
  - do 3 rewrite bool_decide_false by done. rewrite bool_decide_true by done. rewrite Hl in Hn2. apply wp_bind.
    eapply wp_mono; [apply Stop_spec|]. intros [] n2 Heq. apply Hadj, Hn2. exact Heq.
  - do 4 rewrite bool_decide_false by done. apply wp_ret, Hn2.
    rewrite bool_decide_false by done. rewrite bool_decide_false by tauto.
    by destruct n as [? ? ? ? ? [] ? ? ? ? ? ? ? ? ?].
Qed.

Lemma handleChanges_spec cs n : ml_wf n → wp (handleChanges cs) (λ _ n', handled cs n n') n.
Proof.
  unfold handleChanges. revert n. induction cs as [|c cs IH]; intros n Hwf; simpl.
  { by apply wp_ret. }
  apply wp_bind. eapply wp_mono; [by apply handleChange_spec|]. intros [] n1 Hh.
  eapply wp_mono; [apply IH|].
  - unfold ml_wf, self in *. by rewrite (hd_ml _ _ _ Hh), (hd_config _ _ _ Hh).
  - intros [] n2 Hh2. by apply (handled_trans [c] cs n n1 n2).
Qed.

(** ** The rollup *)
Record rollup_only (n n' : Node) : Prop := {
  ro_config : config n' = config n;
  ro_state : state n' = state n;
  ro_ml : n_memberlist n' = n_memberlist n;
  ro_dis : n_disseminator n' = n_disseminator n;
  ro_sus : n_suspicion n' = n_suspicion n;
  ro_lst : listeners n' = listeners n;
  ro_env : env n' = env n;
  ro_iter : n_memberiter n' = n_memberiter n;
  ro_gos : n_gossip n' = n_gossip n;
  ro_emitted : emitted n' = emitted n
}.

Lemma TrackUpdates_spec cs n : wp (TrackUpdates cs) (λ _ n', rollup_only n n') n.
Proof.
  unfold TrackUpdates. case_bool_decide; [by apply wp_ret|].
  apply wp_bind, wp_now, wp_bind, wp_gets, wp_bind. set (n1 := with_tick _ _).
  assert (rollup_only n n1) as H1 by done.
  eapply (wp_mono _ (λ _ n2, rollup_only n n2)).
  { destruct (bool_decide _); simpl; [|by apply wp_ret]. unfold FlushBuffer. apply wp_bind, wp_gets.
    case_bool_decide; [by apply wp_ret|]. apply wp_bind, wp_now, wp_modify. done. }
  intros [] n2 []. apply wp_bind, wp_modify, wp_bind. unfold RenewFlushTimer.
  apply wp_bind, wp_now, wp_modify, wp_bind. unfold AddUpdates.
  apply wp_bind, wp_now, wp_modify, wp_bind, wp_modify, wp_ret. by split.
Qed.

(** ** [Update] *)
Record updated (cs applied : list Change) (n n' : Node) : Prop := {
  up_wf : ml_wf n';
  up_valid : valid_view (view n');
  up_abs : absorbs (self n) (readings n n') (view n) cs applied (view n');
  up_config : config n' = config n;
  up_state : state n' = state n;
  up_env : env n' = env n;
  up_lst : listeners n' = listeners n;
  up_iter : n_memberiter n' = n_memberiter n;
  up_gos : n_gossip n' = n_gossip n;
  up_changes : changes (n_disseminator n') = foldl record (changes (n_disseminator n)) applied;
  up_pFactor : pFactor (n_disseminator n') = pFactor (n_disseminator n);
  up_timers : timers (n_suspicion n') =
    foldl (suspects (self n) (enabled (n_suspicion n))) (timers (n_suspicion n)) applied;
  up_enabled : enabled (n_suspicion n') = enabled (n_suspicion n);
  up_checksum : ml_checksum (n_memberlist n') =
    if bool_decide (applied = []) then ml_checksum (n_memberlist n) else view_checksum n'
}.

(** A batch that applies nothing changes nothing. *)
Lemma absorbs_none r addr v cs v' : absorbs addr r v cs [] v' → v' = v.
Proof.
  intros H. remember [] as l eqn:Hl. induction H as [|r1 r2 r v c a cs as_ v' Hd _ IH Hr]; [done|].
  destruct a; [done|]. by apply IH.
Qed.

Lemma Update_spec cs n :
  ml_wf n → valid_view (view n) → Forall valid_change cs →
  wp (Update cs) (λ applied n',
    if stopped (state n) || bool_decide (cs = []) then applied = [] ∧ n' = n
    else updated cs applied n n') n.
Proof.
  intros Hwf Hvv Hcs. unfold Update. apply wp_bind, wp_gets.
  replace (bool_decide (length cs = 0%nat)) with (bool_decide (cs = [])) by (by destruct cs).
  destruct (stopped (state n) || bool_decide (cs = [])); [by apply wp_ret|].
  apply wp_bind, wp_emit, wp_bind. set (n0 := with_emitted _ _).
  eapply wp_mono; [apply advances_wp; [eauto with respects typeclass_instances|by apply updateLoop_spec]|].
  intros applied n1 ((Hwf1 & Hmo & Hvv1 & Habs) & Ht1).
  apply wp_bind. destruct (decide (applied = [])) as [->|Hne].
  - apply wp_ret, wp_ret. destruct Hmo. split; try done; simpl in *; try congruence.
  - replace (bool_decide (0 < length applied)%nat) with true by (destruct applied; [done|by rewrite bool_decide_true by (simpl; lia)]).
    simpl. apply wp_bind, wp_gets, wp_bind.
    eapply wp_mono; [apply advances_wp; [eauto with respects typeclass_instances|by apply ComputeChecksum_spec]|].
    intros [] n2 [[Hmo2 Hml2] Ht2]. apply wp_bind, wp_gets, wp_bind, wp_gets, wp_bind, wp_emit, wp_bind.
    set (n3 := with_emitted _ _).
    assert (ml_wf n3) as Hwf3.
    { pose proof (mo_config _ _ Hmo2) as Hcfg. simpl in Hcfg. unfold ml_wf, self in *. simpl.
      rewrite Hml2, Hcfg. destruct Hwf1. by split. }
    eapply wp_mono; [apply advances_wp; [eauto with respects typeclass_instances|by apply handleChanges_spec]|].
    intros [] n4 [Hh Ht4]. apply wp_bind.
    eapply wp_mono; [apply advances_wp; [eauto with respects typeclass_instances|apply TrackUpdates_spec]|].
    intros b n5 [Hro Ht5]. apply wp_ret, wp_ret.
    assert (self n3 = self n) as Hself3.
    { pose proof (mo_config _ _ Hmo2) as Hc2. pose proof (mo_config _ _ Hmo) as Hc. simpl in *.
      unfold self. simpl. congruence. }
    assert (n_memberlist n5 = set_checksum (view_checksum n1) (n_memberlist n1)) as Hml5.
    { rewrite (ro_ml _ _ Hro), (hd_ml _ _ _ Hh). exact Hml2. }
    assert (view n5 = view n1) as Hv5 by (unfold view; by rewrite Hml5).
    destruct Hro, Hh, Hmo2, Hmo. simpl in *.
    split; simpl; try congruence.
    + unfold ml_wf, self in *. rewrite ro_ml0, hd_ml0, ro_config0, hd_config0. exact Hwf3.
    + by rewrite Hv5.
    + rewrite Hv5. eapply absorbs_mono; [|exact Habs]. apply readings_part; simpl in *; (done || lia || congruence).
    + rewrite bool_decide_false by done. rewrite Hml5. simpl. unfold view_checksum. rewrite Hv5. congruence.
Qed.
