(* ===== verification/SwimOrder.v ===== *)
(** * SwimOrder: the order on member states and convergence of views

    Member states are ordered by incarnation first and by the precedence of
    the status second; applying gossip takes the maximum.  Merging therefore
    does not depend on the order or the multiplicity of the changes. *)
From S2P Require Import Prelude GoStd NodeState Memberlist Membership MembershipSpec.
#[local] Open Scope Z_scope.

Definition cstate (c : Change) : mstate := (c_Incarnation c, c_Status c).

(** [x] is not overridden by [y]. *)
Definition mle (x y : mstate) : Prop :=
  x.1 < y.1 ∨ (x.1 = y.1 ∧ precedence x.2 ≤ precedence y.2).

#[global] Instance mle_refl : Reflexive mle.
Proof. intros x. right. lia. Qed.
#[global] Instance mle_trans : Transitive mle.
Proof. intros x y z. unfold mle. lia. Qed.

Lemma mle_total x y : mle x y ∨ mle y x.
Proof. unfold mle. lia. Qed.

Lemma statePrecedence_inj s s' p : statePrecedence s = Some p → statePrecedence s' = Some p → s = s'.
Proof. unfold statePrecedence. repeat case_bool_decide; intros; simplify_eq; congruence. Qed.

(** On valid statuses the order is antisymmetric: [mle] is a total order. *)
Lemma mle_antisym x y : valid_status x.2 → valid_status y.2 → mle x y → mle y x → x = y.
Proof.
  destruct x as [i s], y as [j t]. intros [p Hp] [q Hq]. unfold mle, precedence. simpl in *.
  rewrite Hp, Hq. simpl. intros H1 H2. assert (p = q) by lia. subst q.
  assert (s = t) by by eapply statePrecedence_inj. f_equal; [lia|done].
Qed.

Lemma beats_spec c ms : beats c ms = true ↔ ¬ mle (cstate c) ms.
Proof.
  unfold beats, mle, cstate. simpl. rewrite orb_true_iff, andb_true_iff, !bool_decide_eq_true. lia.
Qed.

Lemma beats_false c ms : beats c ms = false ↔ mle (cstate c) ms.
Proof.
  unfold beats, mle, cstate. simpl. rewrite orb_false_iff, andb_false_iff, !bool_decide_eq_false. lia.
Qed.

(** Applying a change about another member. *)
Definition merge (v : gmap string mstate) (c : Change) : gmap string mstate :=
  match v !! c_Address c with
  | None => put v c
  | Some ms => if beats c ms then put v c else v
  end.

(** A change that the node [addr] does not have to refute. *)
Definition harmless (addr : string) (c : Change) : Prop := c_Address c = addr → is_rumour c = false.

Lemma absorbs_merge addr e v cs as_ v' :
  absorbs addr e v cs as_ v' → Forall (harmless addr) cs → v' = foldl merge v cs.
Proof.
  induction 1 as [|r1 r2 r v c a cs as_ v' Hd _ IH Hr]; intros Hcs; [done|].
  apply Forall_cons in Hcs as [Hc Hcs]. simpl. rewrite IH by done. f_equal.
  unfold decision in Hd. unfold merge. destruct (v !! c_Address c) as [ms|]; [|by rewrite Hd].
  assert (bool_decide (c_Address c = addr) && is_rumour c = false) as Hno.
  { case_bool_decide as Ha; [|done]. by apply Hc. }
  rewrite Hno in Hd. rewrite Hd. by destruct (beats c ms).
Qed.

(** What is known about [a] after merging: a state that was known or received,
    and one that nothing known or received overrides. *)
Definition candidate (v : gmap string mstate) (cs : list Change) (a : string) (ms : mstate) : Prop :=
  v !! a = Some ms ∨ ∃ c, c ∈ cs ∧ c_Address c = a ∧ ms = cstate c.

Lemma merge_lookup v c a :
  merge v c !! a =
    if bool_decide (c_Address c = a) then
      Some (match v !! a with
            | Some ms => if beats c ms then cstate c else ms
            | None => cstate c end)
    else v !! a.
Proof.
  unfold merge, put. case_bool_decide as Ha.
  - subst a. destruct (v !! c_Address c) as [ms|] eqn:Hv; [|by simplify_map_eq].
    destruct (beats c ms); by simplify_map_eq.
  - destruct (v !! c_Address c) as [ms|]; [destruct (beats c ms)|]; by simplify_map_eq.
Qed.

Lemma merges_candidate v cs a ms :
  foldl merge v cs !! a = Some ms → candidate v cs a ms ∧ ∀ x, candidate v cs a x → mle x ms.
Proof.
  revert v. induction cs as [|c cs IH]; intros v; simpl.
  - intros Hv. split; [by left|]. intros x [Hx|(? & Hin & _)]; [by simplify_eq|]. set_solver.
  - intros H%IH. destruct H as [Hcand Hmax].
    assert (∀ x, candidate v (c :: cs) a x → candidate (merge v c) cs a x ∨
      ∃ y, candidate (merge v c) cs a y ∧ mle x y) as Hup.
    { intros x [Hx|(c' & Hin & Ha & ->)].
      - destruct (decide (c_Address c = a)) as [Hca|Hca].
        + right. eexists. split; [left; rewrite merge_lookup, bool_decide_true by done; done|].
          rewrite Hx. destruct (beats c x) eqn:Hb; [|done]. apply beats_spec in Hb.
          by destruct (mle_total (cstate c) x).
        + left. left. by rewrite merge_lookup, bool_decide_false.
      - apply elem_of_cons in Hin as [->|Hin].
        + right. eexists. split; [left; rewrite merge_lookup, bool_decide_true by done; done|].
          destruct (v !! a) as [x|]; [|done]. destruct (beats c x) eqn:Hb; [done|]. by apply beats_false.
        + left. right. by exists c'. }
    split.
    + destruct Hcand as [Hv|(c' & Hin & Ha & ->)].
      * rewrite merge_lookup in Hv. case_bool_decide as Ha; [|by left]. apply (inj Some) in Hv. subst ms.
        destruct (v !! a) as [x|] eqn:Hv; [destruct (beats c x)|]; [|by left|]; right;
          exists c; (split_and!; [set_solver|done|done]).
      * right. exists c'. split_and!; [set_solver|done|done].
    + intros x Hx. destruct (Hup x Hx) as [Hc|(y & Hy & Hle)]; [by apply Hmax|].
      etrans; [exact Hle|]. by apply Hmax.
Qed.

Lemma merges_known v cs a : (∃ x, candidate v cs a x) ↔ is_Some (foldl merge v cs !! a).
Proof.
  revert v. induction cs as [|c cs IH]; intros v; simpl.
  - split; [intros (x & [Hx|(? & Hin & _)]); [eauto|set_solver]|]. intros [x Hx]. exists x. by left.
  - rewrite <-IH. split.
    + intros (x & [Hx|(c' & Hin & Ha & ->)]).
      * destruct (decide (c_Address c = a)) as [Hca|Hca].
        -- eexists. left. by rewrite merge_lookup, bool_decide_true.
        -- exists x. left. by rewrite merge_lookup, bool_decide_false.
      * apply elem_of_cons in Hin as [->|Hin].
        -- eexists. left. by rewrite merge_lookup, bool_decide_true.
        -- exists (cstate c'). right. by exists c'.
    + intros (x & [Hx|(c' & Hin & Ha & ->)]).
      * rewrite merge_lookup in Hx. case_bool_decide as Hca; [|exists x; by left].
        exists (cstate c). right. exists c. set_solver.
      * exists (cstate c'). right. exists c'. set_solver.
Qed.

Lemma candidate_valid v cs a x :
  valid_view v → Forall valid_change cs → candidate v cs a x → valid_status x.2.
Proof.
  intros Hv Hcs [Hx|(c & Hin & _ & ->)]; [by apply (Hv a x)|]. rewrite Forall_forall in Hcs. by apply Hcs.
Qed.

(** Merging depends on the set of changes only. *)
Lemma merges_set v cs1 cs2 :
  valid_view v → Forall valid_change cs1 → (∀ c, c ∈ cs1 ↔ c ∈ cs2) →
  foldl merge v cs1 = foldl merge v cs2.
Proof.
  intros Hv H1 Heq.
  assert (Forall valid_change cs2) as H2 by (rewrite Forall_forall in *; intros c Hc%Heq; auto).
  assert (∀ a x, candidate v cs1 a x ↔ candidate v cs2 a x) as Hc.
  { intros a x. unfold candidate. split; (intros [?|(c & Hin & ?)]; [by left|right; exists c]);
      (split; [by apply Heq|done]). }
  apply map_eq. intros a.
  destruct (foldl merge v cs1 !! a) as [x|] eqn:E1, (foldl merge v cs2 !! a) as [y|] eqn:E2; [|exfalso..|done].
  - apply merges_candidate in E1 as [C1 M1], E2 as [C2 M2]. f_equal. apply mle_antisym.
    + by eapply (candidate_valid v cs1).
    + by eapply (candidate_valid v cs2).
    + apply M2, Hc, C1.
    + apply M1, Hc, C2.
  - assert (is_Some (foldl merge v cs2 !! a)) as [? ?]; [|congruence].
    apply merges_known. destruct (proj2 (merges_known v cs1 a)) as [z Hz]; [eauto|].
    exists z. by apply Hc.
  - assert (is_Some (foldl merge v cs1 !! a)) as [? ?]; [|congruence].
    apply merges_known. destruct (proj2 (merges_known v cs2 a)) as [z Hz]; [eauto|].
    exists z. by apply Hc.
Qed.

(** Applied changes, one after the other, give the new view. *)
Lemma absorbs_puts addr e v cs as_ v' : absorbs addr e v cs as_ v' → v' = foldl put v as_.
Proof.
  induction 1 as [|r1 r2 r v c a cs as_ v' Hd _ IH Hr]; [done|]. rewrite IH. by destruct a.
Qed.

(** What a batch does to the members it mentions, and to the others. *)
Lemma absorbs_addresses addr e v cs as_ v' :
  absorbs addr e v cs as_ v' → c_Address <$> as_ `sublist_of` c_Address <$> cs.
Proof.
  induction 1 as [|r1 r2 r v c a cs as_ v' Hd _ IH Hr]; simpl; [done|].
  destruct a as [a|]; simpl; [|by apply sublist_cons]. assert (c_Address a = c_Address c) as ->; [|by apply sublist_skip].
  unfold decision in Hd. destruct (v !! c_Address c) as [ms|]; [|by simplify_eq].
  destruct (_ && _); [by destruct Hd as (? & ? & _ & [= ->])|]. by destruct (beats c ms); simplify_eq.
Qed.

Lemma lookup_puts_out v cs a : a ∉ c_Address <$> cs → foldl put v cs !! a = v !! a.
Proof.
  revert v. induction cs as [|c cs IH]; intros v Ha; simpl; [done|]. rewrite IH by set_solver.
  unfold put. rewrite lookup_insert_ne; [done|]. set_solver.
Qed.
Lemma lookup_puts_in v cs c :
  NoDup (c_Address <$> cs) → c ∈ cs → foldl put v cs !! c_Address c = Some (cstate c).
Proof.
  revert v. induction cs as [|x cs IH]; intros v Hnd Hc; [by apply elem_of_nil in Hc|]. simpl in *.
  apply NoDup_cons in Hnd as [Hx Hnd]. apply elem_of_cons in Hc as [<-|Hc]; [|by apply IH].
  rewrite lookup_puts_out by done. unfold put. by rewrite lookup_insert_eq.
Qed.

Lemma absorbs_outside addr e v cs as_ v' a : absorbs addr e v cs as_ v' → a ∉ c_Address <$> cs → v' !! a = v !! a.
Proof.
  intros Habs Ha. rewrite (absorbs_puts _ _ _ _ _ _ Habs). apply lookup_puts_out. intros Hin. apply Ha.
  by eapply elem_of_sublist, absorbs_addresses.
Qed.

Lemma absorbs_valid addr e v cs as_ v' :
  absorbs addr e v cs as_ v' → Forall valid_change cs → Forall valid_change as_.
Proof.
  induction 1 as [|r1 r2 r v c a cs as_ v' Hd _ IH Hr]; intros Hcs; [done|].
  apply Forall_cons in Hcs as [Hc Hcs]. destruct a as [a|]; [|by apply IH].
  constructor; [|by apply IH]. unfold decision in Hd. destruct (v !! c_Address c) as [ms|].
  - destruct (_ && _); [destruct Hd as (i & t & _ & [= ->]); apply valid_Alive|].
    destruct (beats c ms); by simplify_eq.
  - by simplify_eq.
Qed.

(** A view never moves a member other than the node itself backwards. *)
Lemma absorbs_monotone addr e v cs as_ v' a ms :
  absorbs addr e v cs as_ v' → a ≠ addr → v !! a = Some ms → ∃ ms', v' !! a = Some ms' ∧ mle ms ms'.
Proof.
  intros H Ha. revert ms. induction H as [|r1 r2 r v c o cs as_ v' Hd _ IH Hr]; intros ms Hv; [by exists ms|].
  assert (∃ ms1, put_opt v o !! a = Some ms1 ∧ mle ms ms1) as (ms1 & H1 & Hle).
  { unfold decision in Hd. destruct (decide (c_Address c = a)) as [Hca|Hca].
    - rewrite Hca, Hv, bool_decide_false in Hd by done. simpl in Hd. subst o.
      destruct (beats c ms) eqn:Hb; simpl; [|by exists ms]. exists (cstate c). unfold put.
      rewrite Hca, lookup_insert_eq. split; [done|]. apply beats_spec in Hb. by destruct (mle_total (cstate c) ms).
    - exists ms. split; [|done]. destruct o as [c'|]; simpl; [|done]. unfold put.
      rewrite lookup_insert_ne; [done|]. destruct (v !! c_Address c) as [ms'|]; [|by simplify_eq].
      destruct (_ && _); [by destruct Hd as (? & ? & _ & [= ->])|]. by destruct (beats c ms'); simplify_eq. }
  destruct (IH ms1 H1) as (ms' & ? & ?). exists ms'. split; [done|]. by etrans.
Qed.
