(* ===== verification/Ping.v ===== *)
(** * Ping: pings, ping requests and their handlers

    swim/ping_sender.go, ping_request_sender.go, ping_handler.go,
    ping_request_handler.go, join_handler.go.  A remote call ends with the
    outcome the world provides.  The goroutines of a ping request round run
    one after the other, in any order. *)
From S2P Require Import Prelude GoStd NodeState Memberlist Disseminator Suspicion Rollup Membership.
#[local] Open Scope Z_scope.

Abbreviation result A := (A + swimError)%type.

(** ** ping_sender.go *)

(** The end of MakeCall's goroutine after a successful call. *)
Definition pingSucceeded (target : string) (cs : list Change) (startTime : Z) : SW unit :=
  bumpPiggybackCounters cs;;
  endTime ← now;
  address ← Address;
  emit (PingSendCompleteEvent address target cs (endTime - startTime)).

(** The request that MakeCall builds before it calls the peer. *)
Definition preparePing (target : string) : SW ping :=
  cs ← IssueAsSender;
  checksum ← Checksum;
  address ← Address;
  incarnation ← Incarnation;
  let req := mkPing cs checksum address incarnation in
  emit (PingSendEvent address target (pi_Changes req));;
  mret req.

(** newPingSender, SendPing and MakeCall *)
Definition sendPing (target : string) : SW (result ping) :=
  req ← preparePing target;
  startTime ← now;
  o ← sample pings;
  match o with
  | Replied res => pingSucceeded target (pi_Changes req) startTime;; mret (inl res)
  | Failed => mret (inr ErrCall)
  | TimedOut late =>
      when late (pingSucceeded target (pi_Changes req) startTime);; mret (inr ErrPingTimeout)
  end.

(** ** ping_request_sender.go *)

(** The request that MakeCall builds before it calls the helper. *)
Definition preparePingRequest (target : string) : SW pingRequest :=
  cs ← IssueAsSender;
  address ← Address;
  incarnation ← Incarnation;
  checksum ← Checksum;
  mret (mkPingRequest address incarnation target checksum cs).

(** SendPingRequest and MakeCall; the counters are bumped when the call fails. *)
Definition SendPingRequest (peer target : string) : SW (result pingResponse) :=
  req ← preparePingRequest target;
  o ← sample pingReqs;
  match o with
  | Replied res => Update (ps_Changes res);; mret (inl res)
  | Failed => bumpPiggybackCounters (pr_Changes req);; mret (inr ErrCall)
  | TimedOut late =>
      when (negb late) (bumpPiggybackCounters (pr_Changes req));; mret (inr ErrPingRequestTimeout)
  end.

(** What the goroutine for one helper reports when the helper has answered or not. *)
Definition reportHelper (target : string) (peerAddresses : list string) (peer : string) (startTime : Z) (answered : bool)
    : SW unit :=
  address ← Address;
  if answered then
    endTime ← now;
    emit (PingRequestsSendCompleteEvent address target peerAddresses peer (endTime - startTime))
  else emit (PingRequestSendErrorEvent address target peerAddresses peer).

(** The goroutine for one helper. *)
Definition pingVia (target : string) (peerAddresses : list string) (peer : string)
    : SW (result pingResponse) :=
  startTime ← now;
  r ← SendPingRequest peer target;
  reportHelper target peerAddresses peer startTime (match r with inl _ => true | inr _ => false end);;
  mret r.

Fixpoint mapM_ {A B} (f : A → SW B) (l : list A) : SW (list B) :=
  match l with
  | [] => mret []
  | x :: l => y ← f x; ys ← mapM_ f l; mret (y :: ys)
  end.

(** The helpers, and the order in which their answers will arrive. *)
Definition chooseHelpers (target : string) (size : Z) : SW (list string * list string) :=
  peers ← RandomPingableMembers size {[target]};
  ms ← deref_all peers;
  let peerAddresses := m_Address <$> ms in
  address ← Address;
  emit (PingRequestsSendEvent address target peerAddresses);;
  c ← order;
  mret (peerAddresses, arrange c peerAddresses).

(** sendPingRequests: the results in the order in which they arrive. *)
Definition sendPingRequests (target : string) (size : Z) : SW (list (result pingResponse)) :=
  '(peerAddresses, arrivals) ← chooseHelpers target size;
  mapM_ (pingVia target peerAddresses) arrivals.

(** The loop of indirectPing over the channel. *)
Fixpoint awaitResults (results : list (result pingResponse)) (errs : list swimError)
    : bool * list swimError :=
  match results with
  | [] => (false, errs)
  | inl res :: results => if ps_Ok res then (true, errs) else awaitResults results errs
  | inr e :: results => awaitResults results (errs ++ [e])
  end.

Definition indirectPing (target : string) (amount : Z) : SW (bool * list swimError) :=
  results ← sendPingRequests target amount;
  mret (awaitResults results []).

(** ** Handlers *)
Definition markServer : SW unit := modify (λ n, with_rates n (serverRate n + 1) (totalRate n + 1)).

Definition handlePing (req : ping) : SW (result ping) :=
  rdy ← Ready;
  if negb rdy then
    emit (RequestBeforeReadyEvent "ping");; mret (inr ErrNodeNotReady)
  else
    address ← Address;
    emit (PingReceiveEvent address (pi_Source req) (pi_Changes req));;
    markServer;;
    Update (pi_Changes req);;
    '(cs, _) ← IssueAsReceiver (pi_Source req) (pi_SourceIncarnation req) (pi_Checksum req);
    checksum ← Checksum;
    incarnation ← Incarnation;
    mret (inl (mkPing cs checksum address incarnation)).

(** The three parts of handlePingRequest: before the helper pings the target,
    after the target answered, and the response. *)
Definition acceptPingRequest (req : pingRequest) : SW unit :=
  address ← Address;
  emit (PingRequestReceiveEvent address (pr_Source req) (pr_Target req) (pr_Changes req));;
  markServer;;
  Update (pr_Changes req);;
  mret tt.

Definition targetAnswered (req : pingRequest) (pingStartTime : Z) (res : ping) : SW unit :=
  address ← Address;
  endTime ← now;
  emit (PingRequestPingEvent address (pr_Source req) (pr_Target req) (endTime - pingStartTime));;
  Update (pi_Changes res);;
  mret tt.

Definition answerPingRequest (req : pingRequest) (pingOk : bool) : SW pingResponse :=
  '(cs, _) ← IssueAsReceiver (pr_Source req) (pr_SourceIncarnation req) (pr_Checksum req);
  mret (mkPingResponse pingOk (pr_Target req) cs).

Definition handlePingRequest (req : pingRequest) : SW (result pingResponse) :=
  rdy ← Ready;
  if negb rdy then
    emit (RequestBeforeReadyEvent "ping-req");; mret (inr ErrNodeNotReady)
  else
    acceptPingRequest req;;
    pingStartTime ← now;
    r ← sendPing (pr_Target req);
    pingOk ←
      match r with
      | inl res => targetAnswered req pingStartTime res;; mret true
      | inr _ => mret false
      end;
    res ← answerPingRequest req pingOk;
    mret (inl res).

(** validateSourceAddress, validateSourceApp, handleJoin *)
Definition validateSourceAddress (sourceAddress : string) : SW (option swimError) :=
  address ← Address;
  mret (if bool_decide (address = sourceAddress) then Some ErrJoinSelf else None).

Definition validateSourceApp (sourceApp : string) : SW (option swimError) :=
  app ← gets (λ n, n_app (config n));
  mret (if bool_decide (app ≠ sourceApp) then Some ErrJoinApp else None).

Definition handleJoin (req : joinRequest) : SW (result joinResponse) :=
  address ← Address;
  emit (JoinReceiveEvent address (jq_Source req));;
  markServer;;
  e ← validateSourceAddress (jq_Source req);
  match e with
  | Some e => mret (inr e)
  | None =>
      e ← validateSourceApp (jq_App req);
      match e with
      | Some e => mret (inr e)
      | None =>
          app ← gets (λ n, n_app (config n));
          membership ← FullSync;
          checksum ← Checksum;
          mret (inl (mkJoinResponse app address membership checksum))
      end
  end.
