(* ===== verification/NodeCore.v ===== *)
(** * NodeCore: the node, its gossip loop and its admin handlers

    swim/node.go, gossip.go, handlers.go and the sorting part of stats.go. *)
From S2P Require Import Prelude GoStd NodeState Memberlist Disseminator Suspicion Rollup Membership MemberIter.
From S2P Require Import Ping Util.
#[local] Open Scope Z_scope.

(** ** gossip.go *)
Definition modify_gos (f : gossip → gossip) : SW unit :=
  modify (λ n, with_gossip n (f (n_gossip n))).

(** newGossip: stopped, with the minimum period as the first sample. *)
Definition newGossip (period : Z) : gossip := mkGossip true period 0 0 0 [period].

Definition GossipStopped : SW bool := gets (λ n, g_stopped (n_gossip n)).
Definition SetStopped (b : bool) : SW unit :=
  modify_gos (λ g, mkGossip b (minProtocolPeriod g) (numPeriods g) (lastPeriod g) (lastRate g) (timing g)).

(** Before the first period the delay is random in [0, minProtocolPeriod]. *)
Definition ComputeProtocolDelay : SW Z :=
  g ← gets n_gossip;
  if bool_decide (numPeriods g ≠ 0) then
    let target := lastPeriod g + lastRate g in
    t ← now;
    mret (Z.max (target - t) (minProtocolPeriod g))
  else
    if bool_decide (minProtocolPeriod g + 1 ≤ 0) then panic
    else r ← sample rands; mret (Z.of_nat r mod (minProtocolPeriod g + 1)).

Definition ProtocolRate : SW Z := gets (λ n, lastRate (n_gossip n)).

Definition AdjustProtocolRate : SW unit :=
  dm ← gets (λ n, doubledMedian (env n));
  modify_gos (λ g, mkGossip (g_stopped g) (minProtocolPeriod g) (numPeriods g) (lastPeriod g)
                     (Z.max (dm (timing g)) (minProtocolPeriod g)) (timing g)).

(** Start and Stop; the loops are goroutines whose turns are
    [protocolTurn] and [rateTurn]. *)
Definition GossipStart : SW unit :=
  b ← GossipStopped;
  if negb b then mret tt else SetStopped false.
Definition GossipStop : SW unit :=
  b ← GossipStopped;
  if (b : bool) then mret tt else SetStopped true.

(** ** node.go: pinging *)
Definition set_pinging (b : bool) (f : nodeFlags) : nodeFlags :=
  mkFlags (stopped f) (destroyed f) b (ready f).
Definition setPinging (b : bool) : SW unit :=
  modify (λ n, with_state n (set_pinging b (state n))).
Definition isPinging : SW bool := gets (λ n, pinging (state n)).

(** Every path to the member failed: it becomes suspect with the incarnation
    the node knows. *)
Definition suspectMember (p : loc) : SW unit :=
  m ← deref (Some p);
  MakeSuspect (m_Address m) (m_Incarnation m);; mret tt.

(** The part of pingNextMember between setPinging and its deferred reset. *)
Definition pingMember (p : loc) : SW unit :=
  member ← deref (Some p);
  r ← sendPing (m_Address member);
  match r with
  | inl res => Update (pi_Changes res);; mret tt
  | inr _ =>
      let target := m_Address member in
      size ← gets (λ n, pingRequestSize (config n));
      '(targetReached, errs) ← indirectPing target size;
      if bool_decide (Z.of_nat (length errs) = size) then mret tt
      else if negb targetReached then suspectMember p
      else mret tt
  end.

Definition pingNextMember : SW unit :=
  next ← Next;
  match next with
  | None => mret tt
  | Some p =>
      b ← isPinging;
      if (b : bool) then mret tt
      else setPinging true;; pingMember p;; setPinging false
  end.

(** ** gossip.go: the loops *)

(** The end of ProtocolPeriod, under the lock of the protocol. *)
Definition recordPeriod (startTime : Z) : SW unit :=
  t ← now;
  u ← now;
  modify_gos (λ g, mkGossip (g_stopped g) (minProtocolPeriod g) (numPeriods g + 1) t (lastRate g)
                     (timing g ++ [u - startTime])).

Definition ProtocolPeriod : SW unit :=
  startTime ← now;
  pingNextMember;;
  recordPeriod startTime.

(** One turn of RunProtocolPeriodLoop; false when the loop ends. *)
Definition protocolTurn : SW bool :=
  b ← GossipStopped;
  if (b : bool) then mret false
  else
    delay ← ComputeProtocolDelay;
    emit (ProtocolDelayComputeEvent delay);;
    startTimeFreq ← now;
    ProtocolPeriod;;
    t ← now;
    emit (ProtocolFrequencyEvent (t - startTimeFreq));;
    mret true.

(** One turn of RunProtocolRateLoop. *)
Definition rateTurn : SW bool :=
  b ← GossipStopped;
  if (b : bool) then mret false else AdjustProtocolRate;; mret true.

(** ** node.go: life cycle *)
Record Options : Type := mkOptions {
  o_SuspicionTimeout : Z;
  o_MinProtocolPeriod : Z;
  o_JoinTimeout : Z;
  o_PingTimeout : Z;
  o_PingRequestTimeout : Z;
  o_PingRequestSize : Z;
  o_RollupFlushInterval : Z;
  o_RollupMaxUpdates : Z
}.

Definition ms : Z := 1000000.

Definition defaultOptions : Options :=
  mkOptions (5000 * ms) (200 * ms) (1000 * ms) (1500 * ms) (5000 * ms) 3 (5000 * ms) 250.

Definition mergeDefaultOptions (opts : option Options) : Options :=
  let def := defaultOptions in
  match opts with
  | None => def
  | Some o =>
      mkOptions (SelectDuration (o_SuspicionTimeout o) (o_SuspicionTimeout def))
        (SelectDuration (o_MinProtocolPeriod o) (o_MinProtocolPeriod def))
        (SelectDuration (o_JoinTimeout o) (o_JoinTimeout def))
        (SelectDuration (o_PingTimeout o) (o_PingTimeout def))
        (SelectDuration (o_PingRequestTimeout o) (o_PingRequestTimeout def))
        (SelectInt (o_PingRequestSize o) (o_PingRequestSize def))
        (SelectDuration (o_RollupFlushInterval o) (o_RollupFlushInterval def))
        (SelectInt (o_RollupMaxUpdates o) (o_RollupMaxUpdates def))
  end.

(** NewNode: the iterator's constructor shuffles the (empty) list, which asks
    the generator for a permutation of nothing. *)
Definition NewNode (app address : string) (channel : bool) (opts : option Options) (e : Env) : Node :=
  let o := mergeDefaultOptions opts in
  mkNode (mkConfig app address channel (o_PingRequestSize o) (o_PingTimeout o) (o_PingRequestTimeout o))
    (mkFlags false false false false)
    newMemberlist (mkIter (-1) 0) newDisseminator (newSuspicion (o_SuspicionTimeout o))
    (newUpdateRollup (o_RollupFlushInterval o) (o_RollupMaxUpdates o))
    (newGossip (o_MinProtocolPeriod o)) 0 0 0 [] [] e 1.

Definition set_stopped (b : bool) (f : nodeFlags) : nodeFlags :=
  mkFlags b (destroyed f) (pinging f) (ready f).

(** Node.Start, Node.Stop, Node.Destroy *)
Definition NodeStart : SW unit :=
  GossipStart;; Reenable;; modify (λ n, with_state n (set_stopped false (state n))).
Definition NodeStop : SW unit :=
  GossipStop;; Disable;; modify (λ n, with_state n (set_stopped true (state n))).
Definition Destroy : SW unit :=
  NodeStop;;
  DestroyRollup;;
  modify (λ n, with_state n (mkFlags (stopped (state n)) true (pinging (state n)) (ready (state n)))).

(** ** handlers.go *)
Definition notImplementedHandler : SW (result unit) := mret (inr ErrNotImplemented).

Definition joinHandler (req : joinRequest) : SW (result joinResponse) := handleJoin req.
Definition pingHandler (req : ping) : SW (result ping) := handlePing req.
Definition pingRequestHandler (req : pingRequest) : SW (result pingResponse) := handlePingRequest req.

Definition gossipHandler : SW unit :=
  b ← GossipStopped;
  if (b : bool) then GossipStart else GossipStop.
Definition gossipHandlerStart : SW unit := GossipStart.
Definition gossipHandlerStop : SW unit := GossipStop.

Definition tickHandler : SW ping :=
  ProtocolPeriod;;
  checksum ← Checksum;
  mret (mkPing [] checksum "" 0).

Definition adminJoinHandler : SW string := Reincarnate;; mret "rejoined".

(** The receiver of [incarnation] is copied, so a nil [local] panics. *)
Definition adminLeaveHandler : SW string :=
  address ← Address;
  loc ← gets (λ n, local (n_memberlist n));
  lm ← deref loc;
  MakeLeave address (m_Incarnation lm);;
  mret "ok".

(** ** stats.go *)
Definition member_le (x y : Member) : Prop := string_le (m_Address x) (m_Address y).
#[global] Instance member_le_dec x y : Decision (member_le x y).
Proof. unfold member_le. apply _. Defined.

Definition MemberStats : SW (Z * list Member) :=
  members ← GetMembers;
  checksum ← Checksum;
  mret (checksum, merge_sort member_le members).
