(* ===== verification/GossipLoops.v ===== *)
(** * GossipLoops: the goroutines of the gossip protocol (swim/gossip.go)

    Start spawns two goroutines that run until they see the flag [stopped]:
    RunProtocolPeriodLoop and RunProtocolRateLoop.  A goroutine is its program
    counter; any of them, Start, Stop and the other operations of the node run
    in any order.  A loop looks at the flag only once per turn, so it does not
    notice a Stop that is followed by a Start while it pings or sleeps. *)
From S2P Require Import Prelude GoStd NodeState Memberlist Disseminator Suspicion Rollup Membership MemberIter Frames.
From S2P Require Import Ping Util NodeCore.
#[local] Open Scope Z_scope.

(** ** Program counters *)

(** RunProtocolPeriodLoop: before the test of the loop, before ProtocolPeriod,
    and asleep for the delay; [start] is startTimeFreq. *)
Inductive periodPc : Type :=
| PCheck
| PPeriod (delay start : Z)
| PAsleep (start : Z).

(** RunProtocolRateLoop: before the test, and asleep for a second. *)
Inductive ratePc : Type := RCheck | RAsleep.

(** One move of a goroutine; [None] when the loop ends. *)
Definition periodMove (pc : periodPc) : SW (option periodPc) :=
  match pc with
  | PCheck =>
      b ← GossipStopped;
      if (b : bool) then mret None
      else
        delay ← ComputeProtocolDelay;
        emit (ProtocolDelayComputeEvent delay);;
        startTimeFreq ← now;
        mret (Some (PPeriod delay startTimeFreq))
  | PPeriod delay start => ProtocolPeriod;; mret (Some (PAsleep start))
  | PAsleep start =>
      t ← now;
      emit (ProtocolFrequencyEvent (t - start));;
      mret (Some PCheck)
  end.

Definition rateMove (pc : ratePc) : SW (option ratePc) :=
  match pc with
  | RCheck => b ← GossipStopped; mret (if (b : bool) then None else Some RAsleep)
  | RAsleep => AdjustProtocolRate;; mret (Some RCheck)
  end.

(** ** The node and its goroutines *)
Record loops : Type := mkLoops {
  lo_node : Node;
  lo_periods : list periodPc;
  lo_rates : list ratePc
}.

Definition stoppedNow (s : loops) : bool := g_stopped (n_gossip (lo_node s)).

(** A move of one goroutine. *)
Inductive turn (s : loops) : loops → Prop :=
| turn_period l1 pc l2 r n :
    lo_periods s = l1 ++ pc :: l2 → periodMove pc (lo_node s) = Some (r, n) →
    turn s (mkLoops n (l1 ++ option_list r ++ l2) (lo_rates s))
| turn_rate l1 pc l2 r n :
    lo_rates s = l1 ++ pc :: l2 → rateMove pc (lo_node s) = Some (r, n) →
    turn s (mkLoops n (lo_periods s) (l1 ++ option_list r ++ l2)).

(** ** Calls of Start and Stop

    Start and Stop look at the flag and set it in two separate locked sections,
    and Start then spawns the loops one after the other, so calls from
    different goroutines interleave with each other and with the loops.  A call
    that has not yet looked at the flag has done nothing. *)

(** Start, once it found gossip stopped: before SetStopped(false), before
    RunProtocolRateLoop and before RunProtocolPeriodLoop. *)
Inductive startPc : Type := SFlag | SRate | SPeriod.

(** The calls that are past their look at the flag: [gg_starts] of Start and
    [gg_stops], so many of Stop. *)
Record gossiping : Type := mkGossiping {
  gg_loops : loops;
  gg_starts : list startPc;
  gg_stops : nat
}.

(** Start looks at the flag: a warning and nothing else when gossip is running. *)
Definition testStart (s : gossiping) : gossiping :=
  if negb (stoppedNow (gg_loops s)) then s
  else mkGossiping (gg_loops s) (gg_starts s ++ [SFlag]) (gg_stops s).

(** What is left of Start, move by move; [None] when the call returns. *)
Definition startMove (pc : startPc) (s : loops) : option (option startPc * loops) :=
  match pc with
  | SFlag =>
      match SetStopped false (lo_node s) with
      | None => None
      | Some (_, n) => Some (Some SRate, mkLoops n (lo_periods s) (lo_rates s))
      end
  | SRate => Some (Some SPeriod, mkLoops (lo_node s) (lo_periods s) (lo_rates s ++ [RCheck]))
  | SPeriod => Some (None, mkLoops (lo_node s) (lo_periods s ++ [PCheck]) (lo_rates s))
  end.

(** Stop looks at the flag: a warning and nothing else when gossip is stopped. *)
Definition testStop (s : gossiping) : gossiping :=
  if stoppedNow (gg_loops s) then s
  else mkGossiping (gg_loops s) (gg_starts s) (S (gg_stops s)).

(** A call of Stop that found gossip running sets the flag. *)
Definition stopMove (s : gossiping) : option gossiping :=
  match gg_stops s, SetStopped true (lo_node (gg_loops s)) with
  | S k, Some (_, n) =>
      Some (mkGossiping (mkLoops n (lo_periods (gg_loops s)) (lo_rates (gg_loops s))) (gg_starts s) k)
  | _, _ => None
  end.

(** A move of one of the calls: [CStart i] is a move of the [i]th call of Start
    that is under way. *)
Inductive callMove : Type := CTestStart | CStart (i : nat) | CTestStop | CStop.

Definition call (m : callMove) (s : gossiping) : option gossiping :=
  match m with
  | CTestStart => Some (testStart s)
  | CTestStop => Some (testStop s)
  | CStop => stopMove s
  | CStart i =>
      match gg_starts s !! i with
      | None => None
      | Some pc =>
          match startMove pc (gg_loops s) with
          | None => None
          | Some (r, lo) =>
              Some (mkGossiping lo (take i (gg_starts s) ++ option_list r ++ drop (S i) (gg_starts s)) (gg_stops s))
          end
      end
  end.

Fixpoint callMoves (ms : list callMove) (s : gossiping) : option gossiping :=
  match ms with
  | [] => Some s
  | m :: ms => match call m s with None => None | Some s => callMoves ms s end
  end.

(** One call of Start that nothing interrupts. *)
Definition wholeStart : list callMove := [CTestStart; CStart 0; CStart 0; CStart 0].

(** The states reached with [k] starts that found gossip stopped, each of them in
    a state that [ok] allows; other operations of the node, which leave gossip
    alone, come in between. *)
Inductive reached (ok : gossiping → Prop) : nat → gossiping → Prop :=
| reached_new n : g_stopped (n_gossip n) = true → reached ok 0 (mkGossiping (mkLoops n [] []) [] 0)
| reached_start k s :
    reached ok k s → (stoppedNow (gg_loops s) = true → ok s) →
    reached ok (if stoppedNow (gg_loops s) then S k else k) (testStart s)
| reached_call k m s s' : reached ok k s → m ≠ CTestStart → call m s = Some s' → reached ok k s'
| reached_turn k s lo :
    reached ok k s → turn (gg_loops s) lo → reached ok k (mkGossiping lo (gg_starts s) (gg_stops s))
| reached_other k s n :
    reached ok k s → n_gossip n = n_gossip (lo_node (gg_loops s)) →
    reached ok k (mkGossiping (mkLoops n (lo_periods (gg_loops s)) (lo_rates (gg_loops s))) (gg_starts s) (gg_stops s)).

(** ** Pinging does not touch the flag *)
Definition same_flag (n n' : Node) : Prop := g_stopped (n_gossip n') = g_stopped (n_gossip n).
#[global] Instance same_flag_stable : Stable same_flag.
Proof. split; unfold same_flag; try done. repeat intro. congruence. Qed.

Section ping.
Context {R : relation Node} `{HR : !Stable R}.

Lemma respects_sendPing t : respects R (sendPing t).
Proof using HR.
  unfold sendPing, preparePing, pingSucceeded, IssueAsSender, bumpPiggybackCounters, Checksum, Address, now.
  solve_respects.
Qed.
#[local] Hint Resolve respects_sendPing : respects.
Lemma respects_SendPingRequest p t : respects R (SendPingRequest p t).
Proof using HR.
  unfold SendPingRequest, preparePingRequest, IssueAsSender, bumpPiggybackCounters, Checksum, Address. solve_respects.
Qed.
#[local] Hint Resolve respects_SendPingRequest : respects.
Lemma respects_pingsVia t l ps : respects R (mapM_ (pingVia t l) ps).
Proof using HR. induction ps; simpl; [solve_respects|]. unfold pingVia, reportHelper, now, Address. solve_respects. Qed.
#[local] Hint Resolve respects_pingsVia : respects.
Lemma respects_filterPingable l e : respects R (filterPingable l e).
Proof using HR. induction l; simpl; solve_respects. Qed.
#[local] Hint Resolve respects_filterPingable : respects.
Lemma respects_indirectPing t a : respects R (indirectPing t a).
Proof using HR.
  unfold indirectPing, sendPingRequests, chooseHelpers, RandomPingableMembers, shuffle, order, Address. solve_respects.
Qed.
#[local] Hint Resolve respects_indirectPing : respects.
Lemma respects_setPinging b : respects R (setPinging b).
Proof using HR. apply respects_modify. intros n. apply stable_pinging. Qed.
#[local] Hint Resolve respects_setPinging : respects.
Lemma respects_pingNextMember : respects R pingNextMember.
Proof using HR. unfold pingNextMember, pingMember, isPinging, suspectMember, MakeSuspect. solve_respects. Qed.
End ping.

Lemma ProtocolPeriod_flag : respects same_flag ProtocolPeriod.
Proof.
  unfold ProtocolPeriod, recordPeriod, now. apply respects_bind; [solve_respects|intros t].
  apply respects_bind; [apply respects_pingNextMember|intros []]. do 2 (apply respects_bind; [solve_respects|intros ?]).
  by apply respects_modify.
Qed.

Lemma periodMove_flag pc : respects same_flag (periodMove pc).
Proof.
  destruct pc; simpl.
  - unfold GossipStopped, ComputeProtocolDelay, now. solve_respects.
  - apply respects_bind; [apply ProtocolPeriod_flag|]. solve_respects.
  - unfold now. solve_respects.
Qed.

Lemma rateMove_flag pc : respects same_flag (rateMove pc).
Proof.
  destruct pc; simpl; [unfold GossipStopped; solve_respects|].
  apply respects_bind; [|solve_respects]. unfold AdjustProtocolRate. apply respects_bind; [solve_respects|].
  intros dm. by apply respects_modify.
Qed.

(** ** Loops end only when gossip is stopped *)
Lemma periodMove_ends pc n n' : periodMove pc n = Some (None, n') → pc = PCheck ∧ g_stopped (n_gossip n) = true.
Proof.
  destruct pc; simpl.
  - unfold GossipStopped, gets, mbind, M_bind. destruct (g_stopped (n_gossip n)); [done|].
    destruct (ComputeProtocolDelay n) as [[d n1]|]; [|done]. done.
  - unfold mbind, M_bind. by destruct (ProtocolPeriod n) as [[[] n1]|].
  - done.
Qed.

Lemma rateMove_ends pc n n' : rateMove pc n = Some (None, n') → pc = RCheck ∧ g_stopped (n_gossip n) = true.
Proof.
  destruct pc; simpl; [|done]. unfold GossipStopped, gets, mbind, M_bind.
  by destruct (g_stopped (n_gossip n)).
Qed.

(** What a turn does to the flag and to the numbers of loops. *)
Lemma turn_loops s s' :
  turn s s' → stoppedNow s' = stoppedNow s ∧
    (length (lo_periods s') ≤ length (lo_periods s))%nat ∧ (length (lo_rates s') ≤ length (lo_rates s))%nat ∧
    (stoppedNow s = false → length (lo_periods s') = length (lo_periods s) ∧ length (lo_rates s') = length (lo_rates s)).
Proof.
  intros [l1 pc l2 r n Hl Hm|l1 pc l2 r n Hl Hm]; unfold stoppedNow; simpl.
  - rewrite Hl, !length_app. simpl. split; [by apply periodMove_flag in Hm|].
    destruct r as [pc'|]; simpl; [split_and!; lia|]. apply periodMove_ends in Hm as [_ ->]. split_and!; (lia || done).
  - rewrite Hl, !length_app. simpl. split; [by apply rateMove_flag in Hm|].
    destruct r as [pc'|]; simpl; [split_and!; lia|]. apply rateMove_ends in Hm as [_ ->]. split_and!; (lia || done).
Qed.

(** What the moves of Start and Stop do. *)
Lemma call_start i s s' :
  call (CStart i) s = Some s' →
  ∃ l1 pc l2 r lo, gg_starts s = l1 ++ pc :: l2 ∧ startMove pc (gg_loops s) = Some (r, lo) ∧
    s' = mkGossiping lo (l1 ++ option_list r ++ l2) (gg_stops s).
Proof.
  simpl. destruct (gg_starts s !! i) as [pc|] eqn:Hi; [|done].
  destruct (startMove pc (gg_loops s)) as [[r lo]|] eqn:Hm; [|done]. intros [= <-].
  exists (take i (gg_starts s)), pc, (drop (S i) (gg_starts s)), r, lo. by rewrite (take_drop_middle _ _ _ Hi).
Qed.

Lemma stopMove_spec s s' :
  stopMove s = Some s' → stoppedNow (gg_loops s') = true ∧ gg_starts s' = gg_starts s ∧
    lo_periods (gg_loops s') = lo_periods (gg_loops s) ∧ lo_rates (gg_loops s') = lo_rates (gg_loops s).
Proof. unfold stopMove. destruct (gg_stops s) as [|k]; [done|]. simpl. by intros [= <-]. Qed.

(** An uninterrupted Start is [GossipStart] followed by the two loops. *)
Lemma wholeStart_spec s :
  stoppedNow (gg_loops s) = true → gg_starts s = [] →
  ∃ n, GossipStart (lo_node (gg_loops s)) = Some (tt, n) ∧ g_stopped (n_gossip n) = false ∧
    callMoves wholeStart s =
      Some (mkGossiping (mkLoops n (lo_periods (gg_loops s) ++ [PCheck]) (lo_rates (gg_loops s) ++ [RCheck])) [] (gg_stops s)).
Proof.
  destruct s as [[n ps rs] starts k]; simpl; intros Hs ->. unfold stoppedNow in Hs. simpl in Hs.
  exists (default n (snd <$> SetStopped false n)). split_and!; [|done|].
  - unfold GossipStart, GossipStopped, gets, mbind, M_bind. by rewrite Hs.
  - unfold testStart, stoppedNow. simpl. by rewrite Hs.
Qed.

Lemma reached_calls ok k ms s s' :
  reached ok k s → Forall (.≠ CTestStart) ms → callMoves ms s = Some s' → reached ok k s'.
Proof.
  intros Hr Hms. revert s Hr. induction Hms as [|m ms Hm _ IH]; simpl; intros s Hr; [by intros [= <-]|].
  destruct (call m s) as [s1|] eqn:Hc; [|done]. apply IH. by eapply reached_call.
Qed.

(** ** Theorems *)

(** What a call of Start still does: [sets] when the flag is still to be set, then
    the loops it has yet to spawn. *)
Definition sets (pc : startPc) : nat := match pc with SFlag => 1 | _ => 0 end.
Definition spawnsRate (pc : startPc) : nat := match pc with SPeriod => 0 | _ => 1 end.
Definition unset (l : list startPc) : nat := sum_list_with sets l.
Definition owedRates (l : list startPc) : nat := sum_list_with spawnsRate l.

(** While gossip is not stopped, a loop of each kind is running or about to be
    spawned by a call that has set the flag, and there are no more loops than
    starts. *)
Definition loops_counted (k : nat) (s : gossiping) : Prop :=
  (stoppedNow (gg_loops s) = false →
     (1 + unset (gg_starts s) ≤ length (lo_periods (gg_loops s)) + length (gg_starts s))%nat ∧
     (1 + unset (gg_starts s) ≤ length (lo_rates (gg_loops s)) + owedRates (gg_starts s))%nat) ∧
  (length (lo_periods (gg_loops s)) + length (gg_starts s) ≤ k)%nat ∧
  (length (lo_rates (gg_loops s)) + owedRates (gg_starts s) ≤ k)%nat.

Lemma start_counts l1 pc l2 r :
  (unset (l1 ++ option_list r ++ l2) + sets pc = unset (l1 ++ pc :: l2) + sum_list_with sets (option_list r) ∧
   owedRates (l1 ++ option_list r ++ l2) + spawnsRate pc = owedRates (l1 ++ pc :: l2) + sum_list_with spawnsRate (option_list r) ∧
   length (l1 ++ option_list r ++ l2) + 1 = length (l1 ++ pc :: l2) + length (option_list r))%nat.
Proof. unfold unset, owedRates. rewrite !sum_list_with_app, !length_app. simpl. lia. Qed.

Lemma unset_owed l : (unset l ≤ length l ∧ unset l ≤ owedRates l)%nat.
Proof. induction l as [|[] l IH]; unfold unset, owedRates in *; simpl; lia. Qed.

Lemma reached_counted ok k s : reached ok k s → loops_counted k s.
Proof.
  induction 1 as [n Hn|k s _ IH _|k m s s' _ IH Hm Hc|k s lo _ IH Ht|k s n _ IH Hg]; unfold loops_counted in *.
  - unfold stoppedNow. simpl. rewrite Hn. split_and!; (done || lia).
  - unfold testStart. destruct (stoppedNow (gg_loops s)) eqn:Hs; simpl; [|rewrite Hs; naive_solver].
    rewrite Hs. unfold owedRates. rewrite sum_list_with_app, length_app. unfold owedRates in IH. simpl.
    split_and!; (done || lia).
  - destruct m as [|i| |]; [done|..].
    + apply call_start in Hc as (l1 & pc & l2 & r & lo & Hl & Hmv & ->). simpl. rewrite Hl in IH.
      pose proof (start_counts l1 pc l2 r) as (H1 & H2 & H3). pose proof (unset_owed (l1 ++ option_list r ++ l2)) as [H4 H5].
      destruct pc; simpl in Hmv; injection Hmv as <- <-; simpl in *; rewrite ?length_app in *; simpl in *.
      * split_and!; [|lia|lia]. intros _.
        unfold unset, owedRates in *. rewrite !sum_list_with_app in *. simpl in *.
        pose proof (unset_owed l1). pose proof (unset_owed l2). unfold unset, owedRates in *. lia.
      * destruct IH as (IH & ? & ?). split_and!; [|lia|lia]. intros Hs. destruct (IH Hs). lia.
      * destruct IH as (IH & ? & ?). split_and!; [|lia|lia]. intros Hs. destruct (IH Hs). lia.
    + simpl in Hc. injection Hc as <-. unfold testStop. destruct (stoppedNow (gg_loops s)) eqn:E; simpl; by rewrite ?E.
    + apply stopMove_spec in Hc as (-> & -> & -> & ->). naive_solver.
  - simpl. apply turn_loops in Ht as (-> & ? & ? & Hrun). destruct IH as (Hone & ? & ?). split_and!; [|lia|lia].
    intros Hs. destruct (Hrun Hs). destruct (Hone Hs). lia.
  - unfold stoppedNow in *. simpl in *. by rewrite Hg.
Qed.

(** Gossip keeps running: however calls of Start and Stop, the goroutines and the
    other operations interleave, while gossip is not stopped and no call of Start
    is under way a period loop and a rate loop are alive, and there are never
    more loops of a kind than there were starts that found gossip stopped. *)
Theorem gossip_keeps_running ok k s :
  reached ok k s →
  (stoppedNow (gg_loops s) = false → gg_starts s = [] →
     (1 ≤ length (lo_periods (gg_loops s)))%nat ∧ (1 ≤ length (lo_rates (gg_loops s)))%nat) ∧
  (length (lo_periods (gg_loops s)) ≤ k)%nat ∧ (length (lo_rates (gg_loops s)) ≤ k)%nat.
Proof.
  intros Hr. apply reached_counted in Hr as (Hone & ? & ?). split_and!; [|lia|lia].
  intros Hs Hst. rewrite Hst in Hone. destruct (Hone Hs). simpl in *. lia.
Qed.

Definition wound_down (s : loops) : Prop := lo_periods s = [] ∧ lo_rates s = [].

(** When gossip is started again in an orderly way: the loops of the last run have
    ended and no other call of Start is under way. *)
Definition orderly (s : gossiping) : Prop := wound_down (gg_loops s) ∧ gg_starts s = [].

(** What orderly starts keep, by how far the one call of Start has come. *)
Definition one_loop (s : gossiping) : Prop :=
  match gg_starts s with
  | [] => (length (lo_periods (gg_loops s)) ≤ 1)%nat ∧ (length (lo_rates (gg_loops s)) ≤ 1)%nat
  | [SPeriod] => lo_periods (gg_loops s) = [] ∧ (length (lo_rates (gg_loops s)) ≤ 1)%nat
  | [_] => wound_down (gg_loops s)
  | _ => False
  end.

Lemma one_loop_fewer s lo :
  one_loop s → (length (lo_periods lo) ≤ length (lo_periods (gg_loops s)))%nat →
  (length (lo_rates lo) ≤ length (lo_rates (gg_loops s)))%nat → one_loop (mkGossiping lo (gg_starts s) (gg_stops s)).
Proof.
  assert (∀ A (l l' : list A), l = [] → length l' ≤ length l → l' = [])%nat as Hnil.
  { intros A l [|]; [done|]. intros ->. simpl. lia. }
  unfold one_loop, wound_down. simpl. destruct (gg_starts s) as [|[] [|]]; intros H ? ?; try done.
  - lia.
  - destruct H. split; by eapply Hnil.
  - destruct H. split; by eapply Hnil.
  - destruct H. split; [by eapply Hnil|lia].
Qed.

Lemma reached_one_loop k s : reached orderly k s → one_loop s.
Proof.
  induction 1 as [n Hn|k s _ IH Hok|k m s s' _ IH Hm Hc|k s lo _ IH Ht|k s n _ IH Hg].
  - unfold one_loop. simpl. lia.
  - unfold testStart. destruct (stoppedNow (gg_loops s)) eqn:Hs; simpl; [|done].
    destruct (Hok eq_refl) as [? Hst]. unfold one_loop. by rewrite Hst.
  - destruct m as [|i| |]; [done|..].
    + apply call_start in Hc as (l1 & pc & l2 & r & lo & Hl & Hmv & ->). unfold one_loop in IH. rewrite Hl in IH.
      destruct l1 as [|q [|]], l2; simpl in IH; [|try by destruct pc|try by destruct q|try by destruct q..].
      destruct pc; simpl in Hmv; injection Hmv as <- <-; unfold one_loop, wound_down in *; simpl; destruct IH as [Hp Hr].
      * by split.
      * by rewrite Hp, Hr.
      * rewrite Hp. simpl. lia.
    + simpl in Hc. injection Hc as <-. unfold testStop. destruct (stoppedNow (gg_loops s)) eqn:E; simpl; by rewrite ?E.
    + apply stopMove_spec in Hc as (_ & Hst & Hp & Hr). unfold one_loop, wound_down in *. by rewrite Hst, Hp, Hr.
  - apply turn_loops in Ht as (_ & ? & ? & _). by apply one_loop_fewer.
  - by apply one_loop_fewer.
Qed.

(** C33: orderly restarts keep one loop of each kind: when calls of Start find
    gossip stopped only after the loops of the last run have ended and while no
    other call of Start is under way, there is never more than one period loop
    and one rate loop, and exactly one of each while gossip is running and no
    call of Start is under way.  Stops, starts that find gossip running, the
    loops and the rest of the node run at any moment in between. *)
Theorem orderly_restart_one_loop k s :
  reached orderly k s →
  (length (lo_periods (gg_loops s)) ≤ 1)%nat ∧ (length (lo_rates (gg_loops s)) ≤ 1)%nat ∧
  (stoppedNow (gg_loops s) = false → gg_starts s = [] →
     length (lo_periods (gg_loops s)) = 1%nat ∧ length (lo_rates (gg_loops s)) = 1%nat).
Proof.
  intros Hr. pose proof (reached_one_loop _ _ Hr) as Hone. apply reached_counted in Hr as (Hrun & _ & _).
  assert (length (lo_periods (gg_loops s)) ≤ 1 ∧ length (lo_rates (gg_loops s)) ≤ 1)%nat as [? ?].
  { unfold one_loop, wound_down in Hone. destruct (gg_starts s) as [|[] [|]]; try done.
    - destruct Hone as [-> ->]. simpl. lia.
    - destruct Hone as [-> ->]. simpl. lia.
    - destruct Hone as [-> ?]. simpl. lia. }
  split_and!; [done..|]. intros Hs Hst. rewrite Hst in Hrun. destruct (Hrun Hs). simpl in *. lia.
Qed.

(** Two loops of a kind stay two as long as gossip is not stopped. *)
Lemma loops_stay p r s s' :
  stoppedNow s = false → length (lo_periods s) = p → length (lo_rates s) = r →
  rtc turn s s' → length (lo_periods s') = p ∧ length (lo_rates s') = r.
Proof.
  intros Hs Hp Hr Hsteps. cut (stoppedNow s' = false ∧ length (lo_periods s') = p ∧ length (lo_rates s') = r); [naive_solver|].
  revert s' Hsteps. apply (rtc_ind_r (λ s', stoppedNow s' = false ∧ length (lo_periods s') = p ∧ length (lo_rates s') = r)); [done|].
  intros y z _ Ht (Hy & ? & ?). apply turn_loops in Ht as (-> & _ & _ & Hrun). destruct (Hrun Hy). split_and!; (done || lia).
Qed.

(** A hasty restart doubles the loops: when gossip is running with one loop of
    each kind and is stopped and started again before the loops have looked at
    the flag, two loops of each kind run from then on, as long as gossip is not
    stopped. *)
Theorem hasty_restart_doubles_loops s :
  stoppedNow (gg_loops s) = false → gg_starts s = [] →
  length (lo_periods (gg_loops s)) = 1%nat → length (lo_rates (gg_loops s)) = 1%nat →
  ∃ s', callMoves ([CTestStop; CStop] ++ wholeStart) s = Some s' ∧
    ∀ lo, rtc turn (gg_loops s') lo → length (lo_periods lo) = 2%nat ∧ length (lo_rates lo) = 2%nat.
Proof.
  destruct s as [[n ps rs] starts k]. unfold stoppedNow. simpl. intros Hs -> Hp Hr.
  unfold testStop, stoppedNow. simpl. rewrite Hs. simpl. eexists. split; [reflexivity|].
  intros lo. apply loops_stay; simpl; [done|rewrite length_app, ?Hp, ?Hr; done..].
Qed.

(** Starts that race double the loops: Start looks at the flag and sets it in two
    locked sections, so when two goroutines call it on a gossip that is stopped
    and has no loops, both may find it stopped; two loops of each kind run from
    then on, as long as gossip is not stopped. *)
Theorem concurrent_starts_double_loops s :
  stoppedNow (gg_loops s) = true → orderly s →
  ∃ s', callMoves [CTestStart; CTestStart; CStart 0; CStart 0; CStart 0; CStart 0; CStart 0; CStart 0] s = Some s' ∧
    ∀ lo, rtc turn (gg_loops s') lo → length (lo_periods lo) = 2%nat ∧ length (lo_rates lo) = 2%nat.
Proof.
  destruct s as [[n ps rs] starts k]. unfold stoppedNow, orderly, wound_down. simpl. intros Hs ((-> & ->) & ->).
  unfold testStart, stoppedNow. simpl. rewrite Hs. simpl. rewrite Hs. simpl. eexists. split; [reflexivity|].
  intros lo. by apply loops_stay.
Qed.

(** The moves a goroutine has left once gossip is stopped. *)
Definition periodLeft (pc : periodPc) : nat := match pc with PCheck => 1 | PAsleep _ => 2 | PPeriod _ _ => 3 end.
Definition rateLeft (pc : ratePc) : nat := match pc with RCheck => 1 | RAsleep => 2 end.
Definition turnsLeft (s : loops) : nat :=
  sum_list_with periodLeft (lo_periods s) + sum_list_with rateLeft (lo_rates s).

Lemma periodMove_left pc r n n' :
  g_stopped (n_gossip n) = true → periodMove pc n = Some (r, n') →
  S (sum_list_with periodLeft (option_list r)) = periodLeft pc.
Proof.
  intros Hs. destruct pc; simpl.
  - unfold GossipStopped, gets, mbind, M_bind. rewrite Hs. by intros [= <- _].
  - unfold mbind, M_bind. destruct (ProtocolPeriod n) as [[[] n1]|]; [|done]. by intros [= <- _].
  - by intros [= <- _].
Qed.

Lemma rateMove_left pc r n n' :
  g_stopped (n_gossip n) = true → rateMove pc n = Some (r, n') →
  S (sum_list_with rateLeft (option_list r)) = rateLeft pc.
Proof.
  intros Hs. destruct pc; simpl.
  - unfold GossipStopped, gets, mbind, M_bind. rewrite Hs. by intros [= <- _].
  - by intros [= <- _].
Qed.

Lemma turn_left s s' : stoppedNow s = true → turn s s' → turnsLeft s = S (turnsLeft s').
Proof.
  intros Hs [l1 pc l2 r n Hl Hm|l1 pc l2 r n Hl Hm]; unfold turnsLeft; simpl; rewrite Hl, !sum_list_with_app; simpl.
  - apply periodMove_left in Hm; [|done]. lia.
  - apply rateMove_left in Hm; [|done]. lia.
Qed.

(** A goroutine that is left can move, unless the process has panicked. *)
Lemma turn_possible s :
  stoppedNow s = true → ProtocolPeriod (lo_node s) ≠ None → wound_down s ∨ ∃ s', turn s s'.
Proof.
  intros Hs Hpp. destruct s as [n [|pc l] [|rc l']]; unfold stoppedNow in Hs; simpl in *; [by left|right..].
  1: assert (∃ r n', rateMove rc n = Some (r, n')) as (r & n' & Hm) by (destruct rc; eauto).
  1: by exists (mkLoops n' [] (option_list r ++ l')); apply (turn_rate (mkLoops n [] (rc :: l')) [] rc l' r n').
  all: assert (∃ r n', periodMove pc n = Some (r, n')) as (r & n' & Hm).
  2,4: eexists; by eapply (turn_period _ [] pc l r n').
  all: destruct pc; simpl; [|unfold mbind, M_bind; destruct (ProtocolPeriod n) as [[[] n']|]; [by eauto|done]|by eauto].
  all: unfold GossipStopped, gets, mbind, M_bind; rewrite Hs; eauto.
Qed.

(** C34: once stopped, gossip winds down: every move of a goroutine uses up one of
    the moves it has left, at most three for a period loop (so that it pings at
    most once more) and two for a rate loop, some goroutine can move as long as
    one is left and pinging does not panic, and when no move is left every
    goroutine has ended. *)
Theorem stopped_gossip_winds_down s k s' :
  stoppedNow s = true → nsteps turn k s s' →
  (k + turnsLeft s' = turnsLeft s)%nat ∧
  (turnsLeft s ≤ 3 * length (lo_periods s) + 2 * length (lo_rates s))%nat ∧
  (turnsLeft s' = 0%nat → wound_down s') ∧
  (ProtocolPeriod (lo_node s') ≠ None → wound_down s' ∨ ∃ s'', turn s' s'').
Proof.
  intros Hs Hsteps. split_and!.
  - induction Hsteps as [s|k s s1 s' Ht _ IH]; [done|]. rewrite (turn_left _ _ Hs Ht).
    pose proof (turn_loops _ _ Ht) as [Hs1 _]. rewrite Hs in Hs1. specialize (IH Hs1). lia.
  - unfold turnsLeft. assert (∀ l, sum_list_with periodLeft l ≤ 3 * length l)%nat as Hp.
    { induction l as [|[] l IH]; simpl; lia. }
    assert (∀ l, sum_list_with rateLeft l ≤ 2 * length l)%nat as Hr by (induction l as [|[] l IH]; simpl; lia).
    specialize (Hp (lo_periods s)). specialize (Hr (lo_rates s)). lia.
  - unfold turnsLeft, wound_down. destruct (lo_periods s') as [|[] l], (lo_rates s') as [|[] l']; simpl; (done || lia).
  - apply turn_possible. induction Hsteps as [s|k s s1 s' Ht _ IH]; [done|]. apply IH.
    pose proof (turn_loops _ _ Ht) as [Hs1 _]. by rewrite Hs in Hs1.
Qed.

(** [protocolTurn] and [rateTurn] are the moves of one turn in a row. *)
Lemma protocolTurn_moves n :
  protocolTurn n =
    (pc ← periodMove PCheck;
     match pc with
     | None => mret false
     | Some pc =>
         pc ← periodMove pc;
         match pc with None => mret true | Some pc => periodMove pc;; mret true end
     end) n.
Proof.
  unfold protocolTurn, periodMove, mbind, M_bind. destruct (GossipStopped n) as [[[] n1]|]; [done| |done].
  destruct (ComputeProtocolDelay n1) as [[d n2]|]; [|done].
  destruct (emit (ProtocolDelayComputeEvent d) n2) as [[[] n3]|]; [|done].
  destruct (now n3) as [[t n4]|]; [|done]. simpl. unfold mbind, M_bind.
  by destruct (ProtocolPeriod n4) as [[[] n5]|].
Qed.
