(* ===== verification/Metrics.v ===== *)
(** * Metrics: the sample behind the gossip timing (vendored go-metrics)

    github.com/rcrowley/go-metrics: the uniform sample and the statistics of
    sample.go that gossip and the stats handler read through a histogram.
    Floating-point percentiles are exact here, in thousandths: [SamplePercentile
    values p] is a thousand times the [p]/1000 percentile. *)
From S2P Require Import Prelude GoStd NodeState Memberlist Disseminator Suspicion Rollup Membership MemberIter.
From S2P Require Import Ping Util NodeCore.
#[local] Open Scope Z_scope.

(** ** sample.go: the reservoir *)
Record UniformSample : Type := mkSample {
  us_count : Z;
  us_reservoirSize : nat;
  us_values : list Z
}.

Definition NewUniformSample (reservoirSize : nat) : UniformSample := mkSample 0 reservoirSize [].
Definition SampleClear (s : UniformSample) : UniformSample := mkSample 0 (us_reservoirSize s) [].

(** Update; [r] is what the generator gives and rand.Intn(0) panics. *)
Definition SampleUpdate (r : nat) (v : Z) (s : UniformSample) : option UniformSample :=
  if bool_decide (length (us_values s) < us_reservoirSize s)%nat then
    Some (mkSample (us_count s + 1) (us_reservoirSize s) (us_values s ++ [v]))
  else if bool_decide (us_reservoirSize s = 0%nat) then None
  else Some (mkSample (us_count s + 1) (us_reservoirSize s) (<[r `mod` us_reservoirSize s := v]> (us_values s)))%nat.

(** ** sample.go: statistics *)
Definition MaxInt64 : Z := 2 ^ 63 - 1.
Definition MinInt64 : Z := - 2 ^ 63.

Definition SampleMax (values : list Z) : Z :=
  if bool_decide (length values = 0%nat) then 0
  else foldl (λ max v, if bool_decide (max < v) then v else max) MinInt64 values.
Definition SampleMin (values : list Z) : Z :=
  if bool_decide (length values = 0%nat) then 0
  else foldl (λ min v, if bool_decide (v < min) then v else min) MaxInt64 values.
Definition SampleSum (values : list Z) : Z := foldl (λ sum v, int64 (sum + v)) 0 values.

(** SamplePercentile sorts the slice it is given, which is the reservoir. *)
Definition SamplePercentile (values : list Z) (p : Z) : option (Z * list Z) :=
  let size := Z.of_nat (length values) in
  if bool_decide (0 < size) then
    let values := merge_sort Z.le values in
    let pos := p * (size + 1) in
    score ←
      if bool_decide (pos < 1000) then (λ v, 1000 * v) <$> values !! 0%nat
      else if bool_decide (1000 * size ≤ pos) then (λ v, 1000 * v) <$> values !! (length values - 1)%nat
      else
        lower ← values !! Z.to_nat (pos / 1000 - 1);
        upper ← values !! Z.to_nat (pos / 1000);
        Some (1000 * lower + (pos mod 1000) * (upper - lower));
    Some (score, values)
  else Some (0, values).

Definition Percentile (p : Z) (s : UniformSample) : option (Z * UniformSample) :=
  '(score, values) ← SamplePercentile (us_values s) p;
  Some (score, mkSample (us_count s) (us_reservoirSize s) values).

(** A sample after a history of values. *)
Fixpoint feed (rs : nat → nat) (k : nat) (vs : list Z) (s : UniformSample) : option UniformSample :=
  match vs with
  | [] => Some s
  | v :: vs => s ← SampleUpdate (rs k) v s; feed rs (S k) vs s
  end.

(** ** gossip.go: [2.0 * timing.Percentile(0.5)] of a sample of ten *)
Definition timingMedian (rs : nat → nat) (samples : list Z) : Z :=
  default 0 (s ← feed rs 0 samples (NewUniformSample 10); '(score, _) ← Percentile 500 s; Some (score / 500)).

(** ** The reservoir holds values it was given *)
Lemma SampleUpdate_spec r v s :
  (0 < us_reservoirSize s)%nat → (length (us_values s) ≤ us_reservoirSize s)%nat →
  ∃ s', SampleUpdate r v s = Some s' ∧ us_count s' = us_count s + 1 ∧ us_reservoirSize s' = us_reservoirSize s ∧
    (length (us_values s') = Nat.min (S (length (us_values s))) (us_reservoirSize s)) ∧ v ∈ us_values s' ∧
    (∀ x, x ∈ us_values s' → x = v ∨ x ∈ us_values s).
Proof.
  intros H0 Hle. unfold SampleUpdate. case_bool_decide as Hlt.
  - eexists. split; [done|]. cbn [us_count us_reservoirSize us_values]. split_and!; [done|done|rewrite length_app; cbn [length]; lia|set_solver|set_solver].
  - rewrite bool_decide_false by lia. eexists. split; [done|]. cbn [us_count us_reservoirSize us_values].
    assert (r `mod` us_reservoirSize s < us_reservoirSize s)%nat as Hr by (apply Nat.mod_upper_bound; lia).
    split_and!; [done|done|rewrite length_insert; lia| |].
    + apply list_elem_of_lookup. exists (r `mod` us_reservoirSize s)%nat. apply list_lookup_insert_eq. lia.
    + intros x (i & Hi)%list_elem_of_lookup. apply list_lookup_insert_Some in Hi as [(_ & -> & _)|[_ Hi]]; [by left|].
      right. by eapply list_elem_of_lookup_2.
Qed.

Lemma feed_spec rs k vs s :
  (0 < us_reservoirSize s)%nat → (length (us_values s) ≤ us_reservoirSize s)%nat →
  ∃ s', feed rs k vs s = Some s' ∧ us_count s' = us_count s + Z.of_nat (length vs) ∧
    length (us_values s') = Nat.min (length (us_values s) + length vs) (us_reservoirSize s) ∧
    (∀ x, x ∈ us_values s' → x ∈ us_values s ∨ x ∈ vs).
Proof.
  revert k s. induction vs as [|v vs IH]; intros k s H0 Hle; simpl.
  { exists s. split_and!; [done|lia|lia|by left]. }
  destruct (SampleUpdate_spec (rs k) v s H0 Hle) as (s1 & -> & Hc & Hs & Hl & Hv & Hin). simpl.
  destruct (IH (S k) s1) as (s' & -> & Hc' & Hl' & Hin'); [lia|lia|].
  exists s'. split_and!; [done|lia|lia|]. intros x [Hx|Hx]%Hin'; [|set_solver].
  apply Hin in Hx as [->|Hx]; set_solver.
Qed.

(** ** Percentiles lie between the values *)
Lemma SamplePercentile_spec values p lo hi :
  0 ≤ p ≤ 1000 → values ≠ [] → (∀ x, x ∈ values → lo ≤ x ≤ hi) →
  ∃ score values', SamplePercentile values p = Some (score, values') ∧ values' ≡ₚ values ∧ Sorted Z.le values' ∧
    1000 * lo ≤ score ≤ 1000 * hi.
Proof.
  intros Hp Hne Hb. unfold SamplePercentile. set (l := merge_sort Z.le values).
  assert (l ≡ₚ values) as Hperm by apply merge_sort_Permutation.
  assert (Sorted Z.le l) as Hsort by (apply Sorted_merge_sort; apply _).
  assert (length l = length values) as Hlen by (by rewrite Hperm).
  assert (0 < length values)%nat as Hpos by (destruct values; [done|simpl; lia]).
  assert (∀ i, (i < length values)%nat → ∃ v, l !! i = Some v ∧ lo ≤ v ≤ hi) as Hat.
  { intros i Hi. destruct (lookup_lt_is_Some_2 l i) as [v Hv]; [lia|]. exists v. split; [done|]. apply Hb.
    rewrite <-Hperm. by eapply list_elem_of_lookup_2. }
  rewrite bool_decide_true by lia. cbv zeta.
  assert (∃ score, (if bool_decide (p * (Z.of_nat (length values) + 1) < 1000) then (λ v, 1000 * v) <$> l !! 0%nat
      else if bool_decide (1000 * Z.of_nat (length values) ≤ p * (Z.of_nat (length values) + 1))
      then (λ v, 1000 * v) <$> l !! (length l - 1)%nat
      else lower ← l !! Z.to_nat (p * (Z.of_nat (length values) + 1) / 1000 - 1);
           upper ← l !! Z.to_nat (p * (Z.of_nat (length values) + 1) / 1000);
           Some (1000 * lower + ((p * (Z.of_nat (length values) + 1)) mod 1000) * (upper - lower))) = Some score ∧
      1000 * lo ≤ score ≤ 1000 * hi) as (score & -> & Hs).
  { case_bool_decide as H1; [destruct (Hat 0%nat) as (v & -> & ?); [lia|]; eexists; split; [done|lia]|].
    case_bool_decide as H2; [destruct (Hat (length l - 1)%nat) as (v & -> & ?); [lia|]; eexists; split; [done|lia]|].
    set (pos := p * (Z.of_nat (length values) + 1)) in *.
    assert (1 ≤ pos / 1000 < Z.of_nat (length values)) as Hq.
    { split; [apply Z.div_le_lower_bound; lia|apply Z.div_lt_upper_bound; lia]. }
    destruct (Hat (Z.to_nat (pos / 1000 - 1))) as (v & -> & ?); [lia|].
    destruct (Hat (Z.to_nat (pos / 1000))) as (w & -> & ?); [lia|]. eexists. split; [done|].
    pose proof (Z.mod_pos_bound pos 1000). nia. }
  simpl. eexists _, _. split; [done|]. done.
Qed.

(** ** The protocol rate *)
Lemma timingMedian_bounds rs samples lo hi :
  samples ≠ [] → (∀ x, x ∈ samples → lo ≤ x ≤ hi) → 2 * lo ≤ timingMedian rs samples ≤ 2 * hi.
Proof.
  intros Hne Hb. unfold timingMedian.
  destruct (feed_spec rs 0 samples (NewUniformSample 10)) as (s & -> & _ & Hlen & Hin); [simpl; lia|simpl; lia|].
  simpl in *. assert (us_values s ≠ []) as Hs.
  { destruct samples; [done|]. intros Hnil. rewrite Hnil in Hlen. simpl in Hlen. lia. }
  destruct (SamplePercentile_spec (us_values s) 500 lo hi) as (score & values' & Hp & _ & _ & Hsc); [lia|done| |].
  { intros x [Hx|Hx]%Hin; [set_solver|by apply Hb]. }
  unfold Percentile. rewrite Hp. simpl. split; [apply Z.div_le_lower_bound; lia|apply Z.div_le_upper_bound; lia].
Qed.

(** The protocol rate is bounded: with the sample of ten that gossip keeps, an
    adjustment never panics, never sets the rate below the minimum period, and
    never above it unless some period took that long: the rate is at most twice
    the longest period that was measured.  Nothing but the rate changes. *)
Theorem protocol_rate_bounded rs n longest :
  doubledMedian (env n) = timingMedian rs → timing (n_gossip n) ≠ [] →
  (∀ x, x ∈ timing (n_gossip n) → 0 ≤ x ≤ longest) →
  ∃ n', AdjustProtocolRate n = Some (tt, n') ∧ n' = with_gossip n (n_gossip n') ∧
    timing (n_gossip n') = timing (n_gossip n) ∧
    minProtocolPeriod (n_gossip n) ≤ lastRate (n_gossip n') ≤ Z.max (minProtocolPeriod (n_gossip n)) (2 * longest).
Proof.
  intros Hdm Hne Hb. unfold AdjustProtocolRate, gets, modify_gos, modify, mbind, M_bind. rewrite Hdm.
  eexists. split; [done|]. simpl. split_and!; [done|done|lia|].
  pose proof (timingMedian_bounds rs (timing (n_gossip n)) 0 longest Hne Hb). lia.
Qed.
