(* ===== verification/SwimProps.v ===== *)
(** * SwimProps: correctness of membership

    The claims about [Update] and the operations built on it: it never
    panics on well-formed gossip and keeps the pointer structure consistent,
    views converge whatever the order of gossip, members only move forward,
    rumours about the node itself are refuted, and the suspicion timers follow
    the suspect members.  Two traces show where the timers fail. *)
From S2P Require Import Prelude GoStd NodeState Memberlist Disseminator Suspicion Rollup Membership.
From S2P Require Import Advances MembershipSpec UpdateSpec SwimOrder MemberIter Ping NodeCore.
#[local] Open Scope Z_scope.

(** ** The invariant of a running node *)
Definition node_inv (n : Node) : Prop := ml_wf n ∧ valid_view (view n).

(** The checksum in store belongs to the current view. *)
Definition checksum_fresh (n : Node) : Prop := ml_checksum (n_memberlist n) = view_checksum n.

Lemma updated_fresh cs applied n n' :
  updated cs applied n n' → checksum_fresh n → checksum_fresh n'.
Proof.
  intros Hu Hf. unfold checksum_fresh in *. rewrite (up_checksum _ _ _ _ Hu). case_bool_decide as Ha; [|done].
  rewrite Hf. unfold view_checksum. pose proof (up_abs _ _ _ _ Hu) as Habs. rewrite Ha in Habs.
  apply absorbs_none in Habs. by rewrite Habs, (up_env _ _ _ _ Hu).
Qed.

(** C11: [Update] never panics on changes with known statuses, and keeps the
    member list consistent: the list, the address index and the local pointer
    agree on one object per address, statuses stay known, the view of the
    members is the old one with the applied changes put in, and whenever
    something was applied the stored checksum is the fingerprint of the new
    view. *)
Theorem Update_keeps_invariant cs n :
  node_inv n → Forall valid_change cs →
  ∃ applied n', Update cs n = Some (applied, n') ∧ node_inv n' ∧
    view n' = foldl put (view n) applied ∧
    (applied ≠ [] → checksum_fresh n').
Proof.
  intros [Hwf Hvv] Hcs. destruct (wp_run _ _ _ (Update_spec cs n Hwf Hvv Hcs)) as (applied & n' & Hrun & Hpost).
  exists applied, n'. split; [done|]. destruct (stopped (state n) || bool_decide (cs = [])).
  - by destruct Hpost as [-> ->].
  - split_and!.
    + split; apply Hpost.
    + by eapply absorbs_puts, up_abs.
    + intros Hne. unfold checksum_fresh. rewrite (up_checksum _ _ _ _ Hpost). by rewrite bool_decide_false.
Qed.

(** A batch without a rumour about the node is merged into its view. *)
Lemma Update_merges cs n :
  node_inv n → stopped (state n) = false → checksum_fresh n → Forall valid_change cs → Forall (harmless (self n)) cs →
  ∃ a n', Update cs n = Some (a, n') ∧ node_inv n' ∧ view n' = foldl merge (view n) cs ∧ checksum_fresh n' ∧ env n' = env n.
Proof.
  intros [Hw Hv] Hs Hf Hc Ha. destruct (wp_run _ _ _ (Update_spec cs n Hw Hv Hc)) as (a & n' & Hrun & Hpost).
  exists a, n'. split; [done|]. rewrite Hs in Hpost. simpl in Hpost. case_bool_decide as Hnil.
  - destruct Hpost as [-> ->]. by rewrite Hnil.
  - split_and!; [split; apply Hpost|by eapply absorbs_merge, Ha; apply Hpost|by eapply updated_fresh|apply Hpost].
Qed.

(** C2: gossip converges.  Two running nodes that hold the same view and
    receive the same set of changes, in any order and any number of times each,
    with no rumour that one of them is suspect or faulty, end with the same
    view of the membership; if their checksums were up to date before, they end
    with the same checksum. *)
Theorem gossip_converges cs1 cs2 n1 n2 :
  node_inv n1 → node_inv n2 → stopped (state n1) = false → stopped (state n2) = false →
  view n1 = view n2 → fingerprint32 (env n1) = fingerprint32 (env n2) →
  checksum_fresh n1 → checksum_fresh n2 →
  Forall valid_change cs1 → (∀ c, c ∈ cs1 ↔ c ∈ cs2) →
  Forall (λ c, harmless (self n1) c ∧ harmless (self n2) c) cs1 →
  ∃ a1 n1' a2 n2', Update cs1 n1 = Some (a1, n1') ∧ Update cs2 n2 = Some (a2, n2') ∧
    view n1' = view n2' ∧ ml_checksum (n_memberlist n1') = ml_checksum (n_memberlist n2').
Proof.
  intros H1 H2 Hs1 Hs2 Hview Hfp Hf1 Hf2 Hc1 Heq Hadr.
  assert (Forall valid_change cs2) as Hc2 by (rewrite Forall_forall in *; intros c Hc%Heq; auto).
  assert (Forall (harmless (self n1)) cs1 ∧ Forall (harmless (self n2)) cs2) as [Ha1 Ha2].
  { rewrite !Forall_forall in *. split; intros c Hc; apply Hadr; [done|by apply Heq]. }
  destruct (Update_merges cs1 n1) as (a1 & n1' & R1 & _ & V1 & F1 & E1); [done..|].
  destruct (Update_merges cs2 n2) as (a2 & n2' & R2 & _ & V2 & F2 & E2); [done..|].
  exists a1, n1', a2, n2'. assert (view n1' = view n2') as Hv'.
  { rewrite V1, V2, <-Hview. apply merges_set; [apply H1|done|done]. }
  split_and!; [done..|]. rewrite F1, F2. unfold view_checksum. by rewrite Hv', E1, E2, Hfp.
Qed.

(** C15: what a node believes about another member only moves forward: after
    any [Update], the incarnation of every known member is at least what it
    was, and with an equal incarnation the precedence of the status is. *)
Theorem members_move_forward cs n a inc st :
  node_inv n → Forall valid_change cs → a ≠ self n → view n !! a = Some (inc, st) →
  ∃ applied n' inc' st', Update cs n = Some (applied, n') ∧ view n' !! a = Some (inc', st') ∧
    (inc < inc' ∨ (inc = inc' ∧ precedence st ≤ precedence st')).
Proof.
  intros [Hwf Hvv] Hcs Ha Hv.
  destruct (wp_run _ _ _ (Update_spec cs n Hwf Hvv Hcs)) as (applied & n' & Hrun & Hpost).
  exists applied, n'. destruct (stopped (state n) || bool_decide (cs = [])).
  - destruct Hpost as [-> ->]. exists inc, st. split_and!; [done..|]. right. lia.
  - destruct (absorbs_monotone _ _ _ _ _ _ a (inc, st) (up_abs _ _ _ _ Hpost) Ha Hv) as ([i s] & Hv' & Hle).
    exists i, s. done.
Qed.

Lemma Update_single c n :
  node_inv n → valid_change c → stopped (state n) = false →
  wp (Update [c]) (λ applied n', updated [c] applied n n') n.
Proof.
  intros [Hwf Hvv] Hc Hs. eapply wp_mono; [apply Update_spec; [done|done|by constructor]|].
  rewrite Hs. simpl. done.
Qed.

(** Which change a batch of one applies. *)
Lemma absorbs_one addr e v c as_ v' :
  absorbs addr e v [c] as_ v' → ∃ a, decision e addr v c a ∧ as_ = option_list a ∧ v' = put_opt v a.
Proof.
  intros H. inversion H as [|r1 r2 ? ? ? a ? as0 ? Hd Hrest Hr]; subst. inversion Hrest; subst.
  exists a. split_and!; [|by destruct a|done]. eapply decision_mono; [|exact Hd].
  intros u Hu. eapply elem_of_sublist; [|exact Hr]. set_solver.
Qed.

(** Hearing a rumour about oneself. *)
Lemma refuted c n ms :
  node_inv n → stopped (state n) = false →
  c_Address c = self n → c_Status c = Suspect ∨ c_Status c = Faulty →
  view n !! self n = Some ms →
  ∃ r n', Update [c] n = Some ([r], n') ∧ c_Address r = self n ∧ c_Status r = Alive ∧
    (∃ u, u ∈ readings n n' ∧ c_Incarnation r = Z.quot u 1000000) ∧
    view n' !! self n = Some (c_Incarnation r, Alive) ∧
    timers (n_suspicion n') !! self n = None ∧
    changes (n_disseminator n') !! self n = Some (mkPChange r 0).
Proof.
  intros Hinv Hs Hadr Hst Hms.
  assert (valid_change c) as Hc by (unfold valid_change; destruct Hst as [-> | ->]; eexists; done).
  destruct (wp_run _ _ _ (Update_single c n Hinv Hc Hs)) as (applied & n' & Hrun & Hu).
  destruct (absorbs_one _ _ _ _ _ _ (up_abs _ _ _ _ Hu)) as (a & Hd & -> & Hv').
  unfold decision in Hd. rewrite Hadr, Hms, bool_decide_true in Hd by done.
  assert (is_rumour c = true) as Hr.
  { unfold is_rumour. destruct Hst as [-> | ->]; done. }
  rewrite Hr in Hd. simpl in Hd. destruct Hd as (u & t & Hu' & ->).
  eexists _, n'. split; [exact Hrun|]. simpl in *. split_and!; [done|done|by exists u|..].
  - rewrite Hv'. unfold put. simpl. by rewrite lookup_insert_eq.
  - rewrite (up_timers _ _ _ _ Hu). simpl. unfold suspects. simpl. by rewrite lookup_delete_eq.
  - rewrite (up_changes _ _ _ _ Hu). simpl. unfold record. simpl. by rewrite lookup_insert_eq.
Qed.

(** C16: a node that hears it is suspected or faulty answers by declaring
    itself alive: the only change applied is an alive change for its own
    address, its own entry becomes alive with an incarnation read from the
    clock during the update, no suspicion timer is started for it, and the alive change is put into the
    disseminator with a zero counter. *)
Theorem rumour_is_refuted c n ms :
  node_inv n → stopped (state n) = false →
  c_Address c = self n → c_Status c = Suspect ∨ c_Status c = Faulty →
  view n !! self n = Some ms →
  ∃ r n', Update [c] n = Some ([r], n') ∧ c_Address r = self n ∧ c_Status r = Alive ∧
    (∃ u, u ∈ readings n n' ∧ c_Incarnation r = Z.quot u 1000000) ∧
    view n' !! self n = Some (c_Incarnation r, Alive) ∧
    timers (n_suspicion n') !! self n = None ∧
    changes (n_disseminator n') !! self n = Some (mkPChange r 0).
Proof. apply refuted. Qed.

(** ** Suspicion timers *)

(** Timers exist exactly for the other members that are suspect. *)
Definition timers_ok (addr : string) (v : gmap string mstate) (ts : gmap string timer) : Prop :=
  ∀ a, is_Some (ts !! a) ↔ a ≠ addr ∧ ∃ i, v !! a = Some (i, Suspect).

Lemma valid_cases s : valid_status s → s = Alive ∨ s = Suspect ∨ s = Faulty ∨ s = Leave.
Proof. intros [p Hp]. unfold statePrecedence in Hp. repeat case_bool_decide; naive_solver. Qed.

Lemma timers_step addr v ts c :
  valid_change c → timers_ok addr v ts → timers_ok addr (put v c) (suspects addr true ts c).
Proof.
  intros Hc Hok a. specialize (Hok a). unfold put, suspects.
  destruct (decide (c_Address c = a)) as [Ha|Ha].
  - rewrite Ha, lookup_insert_eq. destruct (decide (c_Status c = Suspect)) as [Hs|Hs].
    + rewrite bool_decide_true by done. rewrite Hs. simpl. destruct (decide (addr = a)) as [Haa|Haa].
      * rewrite bool_decide_false by tauto. simpl. rewrite Hok. naive_solver.
      * rewrite (bool_decide_true (addr ≠ a)) by done. simpl. destruct (ts !! a) as [t|] eqn:Ht; simpl.
        -- rewrite Ht. split; [|eauto]. intros _. split; [done|]. eauto.
        -- rewrite lookup_insert_eq. split; [|eauto]. intros _. split; [done|]. eauto.
    + rewrite bool_decide_false by done.
      assert (c_Status c = Alive ∨ c_Status c = Faulty ∨ c_Status c = Leave) as Hcase.
      { destruct (valid_cases _ Hc) as [?|[?|[?|?]]]; tauto. }
      rewrite bool_decide_true by done. rewrite lookup_delete_eq. split; [by intros [? ?]|].
      intros (_ & i & [= _ ?]). congruence.
  - rewrite lookup_insert_ne by done. rewrite <-Hok.
    case_bool_decide; [destruct (_ && _)|case_bool_decide]; rewrite ?lookup_insert_ne, ?lookup_delete_ne by done; done.
Qed.

Lemma timers_fold addr v ts cs :
  Forall valid_change cs → timers_ok addr v ts →
  timers_ok addr (foldl put v cs) (foldl (suspects addr true) ts cs).
Proof.
  intros Hcs. revert v ts. induction Hcs as [|c cs Hc _ IH]; intros v ts Hok; simpl; [done|].
  apply IH. by apply timers_step.
Qed.

Definition suspicion_ok (n : Node) : Prop :=
  enabled (n_suspicion n) = true ∧ timers_ok (self n) (view n) (timers (n_suspicion n)).

Lemma updated_suspicion_ok cs applied n n' :
  suspicion_ok n → Forall valid_change cs → updated cs applied n n' → suspicion_ok n'.
Proof.
  intros [Hen Hok] Hcs Hu. pose proof (up_abs _ _ _ _ Hu) as Habs. unfold suspicion_ok, self in *.
  rewrite (up_enabled _ _ _ _ Hu), (up_timers _ _ _ _ Hu), (up_config _ _ _ _ Hu), Hen.
  split; [done|]. rewrite (absorbs_puts _ _ _ _ _ _ Habs). apply timers_fold; [|done].
  by eapply absorbs_valid.
Qed.

(** C17: while the suspicion protocol is enabled, [Update] keeps one timer for
    each other member that is suspect and none for anyone else: becoming
    suspect starts a timer, and becoming alive, faulty or leaving stops it. *)
Theorem timers_follow_suspects cs n :
  node_inv n → suspicion_ok n → Forall valid_change cs →
  ∃ applied n', Update cs n = Some (applied, n') ∧ suspicion_ok n'.
Proof.
  intros [Hwf Hvv] Hok Hcs.
  destruct (wp_run _ _ _ (Update_spec cs n Hwf Hvv Hcs)) as (applied & n' & Hrun & Hpost).
  exists applied, n'. split; [done|]. destruct (stopped (state n) || bool_decide (cs = [])).
  - by destruct Hpost as [_ ->].
  - by eapply updated_suspicion_ok.
Qed.

(** ** Local changes *)

(** Two nodes that differ only in their trace and the world's cursor. *)
Record same_core (n n1 : Node) : Prop := {
  sc_config : config n1 = config n;
  sc_state : state n1 = state n;
  sc_ml : n_memberlist n1 = n_memberlist n;
  sc_dis : n_disseminator n1 = n_disseminator n;
  sc_sus : n_suspicion n1 = n_suspicion n;
  sc_env : env n1 = env n
}.

Lemma same_core_view n n1 : same_core n n1 → view n1 = view n.
Proof. intros []. unfold view. by rewrite sc_ml0. Qed.
Lemma same_core_self n n1 : same_core n n1 → self n1 = self n.
Proof. intros []. unfold self. by rewrite sc_config0. Qed.

Definition made (a : string) (i : Z) (st : string) (n : Node) (applied : list Change) (n' : Node) : Prop :=
  ∃ c n1, same_core n n1 ∧ c_Address c = a ∧ c_Incarnation c = i ∧ c_Status c = st ∧
    updated [c] applied n1 n'.

Lemma MakeChange_spec a i st n :
  node_inv n → valid_status st → stopped (state n) = false →
  wp (MakeChange a i st) (made a i st n) n.
Proof.
  intros Hinv Hst Hs. pose proof Hinv as [Hwf _]. destruct (wf_local _ _ Hwf) as (p & lm & Hp & Hm & _).
  unfold MakeChange. apply wp_bind, wp_gets. rewrite Hp. apply wp_bind, wp_ret, wp_bind, wp_gets, wp_bind.
  rewrite Hp. eapply wp_deref; [exact Hm|]. apply wp_bind, wp_now. set (c := mkChange _ _ _ _ _ _).
  eapply wp_mono; [by apply (Update_single c (with_tick n (S (tick n))))|].
  intros applied n' Hu. by exists c, (with_tick n (S (tick n))).
Qed.

Lemma MakeFaulty_spec a i n :
  node_inv n → stopped (state n) = false → wp (MakeFaulty a i) (made a i Faulty n) n.
Proof.
  intros Hinv Hs. unfold MakeFaulty. apply wp_bind, wp_emit. set (n0 := with_emitted _ _).
  assert (same_core n n0) as Hsc by done.
  eapply wp_mono; [apply MakeChange_spec; [done|by eexists|done]|].
  intros applied n' (c & n1 & Hsc1 & H). exists c, n1. split; [|done]. destruct Hsc, Hsc1. split; congruence.
Qed.

(** What a change about another member does to its entry and its timer. *)
Lemma made_other a i st n applied n' ms :
  made a i st n applied n' → a ≠ self n → view n !! a = Some ms →
  view n' !! a = Some (if beats (mkChange "" 0 a i st 0) ms then (i, st) else ms) ∧
  timers (n_suspicion n') =
    if beats (mkChange "" 0 a i st 0) ms
    then suspects (self n) (enabled (n_suspicion n)) (timers (n_suspicion n)) (mkChange "" 0 a i st 0)
    else timers (n_suspicion n).
Proof.
  intros (c & n1 & Hsc & Hca & Hci & Hcs & Hu) Ha Hv.
  destruct (absorbs_one _ _ _ _ _ _ (up_abs _ _ _ _ Hu)) as (o & Hd & -> & Hv').
  rewrite (up_timers _ _ _ _ Hu). rewrite Hv'.
  rewrite (same_core_view _ _ Hsc), (same_core_self _ _ Hsc), (sc_sus _ _ Hsc) in *.
  unfold decision in Hd. rewrite Hca, Hv, bool_decide_false in Hd by done. simpl in Hd.
  assert (beats c ms = beats (mkChange "" 0 a i st 0) ms) as Hb.
  { unfold beats. simpl. by rewrite Hci, Hcs. }
  rewrite <-Hb. destruct (beats c ms); rewrite Hd; simpl; [|done]. unfold put, suspects. simpl.
  by rewrite Hca, Hci, Hcs, lookup_insert_eq.
Qed.

(** C19: when the timer of a suspect member fires and the member has not been
    reincarnated since, the member becomes faulty and its timer is gone. *)
Theorem suspect_becomes_faulty a t i n :
  node_inv n → stopped (state n) = false → a ≠ self n →
  view n !! a = Some (i, Suspect) → timers (n_suspicion n) !! a = Some t →
  t_address t = a → t_incarnation t = i →
  ∃ n', Fire a n = Some (tt, n') ∧ view n' !! a = Some (i, Faulty) ∧ timers (n_suspicion n') !! a = None.
Proof.
  intros Hinv Hs Ha Hv Ht Hta Hti.
  assert (wp (Fire a) (λ _ n', view n' !! a = Some (i, Faulty) ∧ timers (n_suspicion n') !! a = None) n) as Hw.
  { unfold Fire. apply wp_bind, wp_gets. rewrite Ht, Hta, Hti. apply wp_bind.
    eapply wp_mono; [by apply MakeFaulty_spec|]. intros applied n' Hm. apply wp_ret.
    destruct (made_other _ _ _ _ _ _ _ Hm Ha Hv) as [Hv' Ht'].
    assert (beats (mkChange "" 0 a i Faulty 0) (i, Suspect) = true) as Hb.
    { unfold beats. simpl. rewrite (bool_decide_true (i = i)) by done. by rewrite orb_true_r. }
    rewrite Hb in Hv', Ht'. rewrite Hv', Ht'. split; [done|]. unfold suspects. simpl. by rewrite lookup_delete_eq. }
  destruct (wp_run _ _ _ Hw) as ([] & n' & Hrun & ? & ?). eauto.
Qed.

(** A suspect member that is suspected again with a newer incarnation
    stays suspect for ever: [Start] ignores the new suspicion because a timer
    exists, and when that timer fires it declares the old incarnation faulty,
    which no longer overrides.  The timer is still there afterwards, so later
    suspicions are ignored as well. *)
Theorem stale_timer_keeps_suspect c t i n :
  node_inv n → stopped (state n) = false → c_Address c ≠ self n →
  view n !! c_Address c = Some (i, Suspect) → timers (n_suspicion n) !! c_Address c = Some t →
  t_address t = c_Address c → t_incarnation t = i →
  c_Status c = Suspect → i < c_Incarnation c →
  ∃ applied n1 n2, Update [c] n = Some (applied, n1) ∧ Fire (c_Address c) n1 = Some (tt, n2) ∧
    view n2 !! c_Address c = Some (c_Incarnation c, Suspect) ∧
    timers (n_suspicion n2) !! c_Address c = Some t.
Proof.
  intros Hinv Hs Ha Hv Ht Hta Hti Hcs Hlt.
  assert (valid_change c) as Hc by (unfold valid_change; rewrite Hcs; by eexists).
  destruct (wp_run _ _ _ (Update_single c n Hinv Hc Hs)) as (applied & n1 & Hrun & Hu).
  exists applied, n1. assert (made (c_Address c) (c_Incarnation c) Suspect n applied n1) as Hm.
  { exists c, n. done. }
  destruct (made_other _ _ _ _ _ _ _ Hm Ha Hv) as [Hv1 Ht1].
  assert (beats (mkChange "" 0 (c_Address c) (c_Incarnation c) Suspect 0) (i, Suspect) = true) as Hb.
  { unfold beats. simpl. by rewrite bool_decide_true. }
  rewrite Hb in Hv1, Ht1. unfold suspects in Ht1. simpl in Ht1. rewrite Ht in Ht1.
  rewrite (bool_decide_false (Some t = None)), andb_false_r in Ht1 by done.
  assert (self n1 = self n) as Hself by (unfold self; by rewrite (up_config _ _ _ _ Hu)).
  assert (wp (Fire (c_Address c)) (λ _ n2, view n2 !! c_Address c = Some (c_Incarnation c, Suspect) ∧
    timers (n_suspicion n2) !! c_Address c = Some t) n1) as Hw.
  { unfold Fire. apply wp_bind, wp_gets. rewrite Ht1, Ht, Hta, Hti. apply wp_bind.
    eapply wp_mono; [apply MakeFaulty_spec; [split; apply Hu|by rewrite (up_state _ _ _ _ Hu)]|].
    intros app2 n2 Hm2. apply wp_ret. rewrite <-Hself in Ha.
    destruct (made_other _ _ _ _ _ _ _ Hm2 Ha Hv1) as [Hv2 Ht2].
    assert (beats (mkChange "" 0 (c_Address c) i Faulty 0) (c_Incarnation c, Suspect) = false) as Hb2.
    { unfold beats. simpl. rewrite bool_decide_false by lia. rewrite bool_decide_false by lia. done. }
    rewrite Hb2 in Hv2, Ht2. rewrite Hv2, Ht2, Ht1. done. }
  destruct (wp_run _ _ _ Hw) as ([] & n2 & Hrun2 & ? & ?). by exists n2.
Qed.

(** A refutation works only if the node's clock is ahead.  If the rumour
    carries an incarnation that the node's clock, in milliseconds, has not
    passed, the refuting change it applies and disseminates does not override
    the rumour at a peer that has accepted it. *)
Theorem refutation_needs_clock_ahead c n ms :
  node_inv n → stopped (state n) = false →
  c_Address c = self n → c_Status c = Suspect ∨ c_Status c = Faulty →
  view n !! self n = Some ms → (∀ k, Z.quot (times (env n) k) 1000000 ≤ c_Incarnation c) →
  ∃ r n', Update [c] n = Some ([r], n') ∧ c_Status r = Alive ∧
    beats r (c_Incarnation c, c_Status c) = false.
Proof.
  intros Hinv Hs Hadr Hst Hms Hclock.
  assert (valid_change c) as Hc by (unfold valid_change; destruct Hst as [-> | ->]; eexists; done).
  destruct (wp_run _ _ _ (Update_single c n Hinv Hc Hs)) as (applied & n' & Hrun & Hu).
  destruct (absorbs_one _ _ _ _ _ _ (up_abs _ _ _ _ Hu)) as (a & Hd & -> & Hv').
  unfold decision in Hd. rewrite Hadr, Hms, bool_decide_true in Hd by done.
  assert (is_rumour c = true) as Hr.
  { unfold is_rumour. destruct Hst as [-> | ->]; done. }
  rewrite Hr in Hd. simpl in Hd. destruct Hd as (u & t & (k & _ & ->)%elem_of_readings & ->).
  eexists _, n'. split; [exact Hrun|]. split; [done|]. specialize (Hclock k).
  unfold beats. simpl. rewrite bool_decide_false by lia. simpl.
  destruct Hst as [-> | ->]; by rewrite andb_false_r.
Qed.

(** ** Stopping and starting *)
Lemma restart_spec n :
  enabled (n_suspicion n) = true →
  wp (NodeStop;; NodeStart) (λ _ n', n_memberlist n' = n_memberlist n ∧ config n' = config n ∧
    stopped (state n') = false ∧ timers (n_suspicion n') = ∅ ∧ enabled (n_suspicion n') = true) n.
Proof.
  intros Hen. unfold NodeStop, NodeStart, GossipStop, GossipStart, GossipStopped, SetStopped, Disable, Reenable,
    modify_gos, modify_sus, gets, modify, wp, mbind, M_bind. simpl.
  destruct (g_stopped (n_gossip n)) eqn:Hg; simpl; rewrite Hen; simpl; rewrite ?Hg; done.
Qed.

(** Stopping and starting a node loses the suspicion timers for good:
    the members that were suspect stay suspect without a timer, and failing to
    ping them again does not start one, because suspecting a member that is
    already suspect with the same incarnation changes nothing. *)
Theorem restart_forgets_suspects a i n :
  node_inv n → enabled (n_suspicion n) = true → a ≠ self n → view n !! a = Some (i, Suspect) →
  ∃ n1 applied n2, (NodeStop;; NodeStart) n = Some (tt, n1) ∧ MakeSuspect a i n1 = Some (applied, n2) ∧
    view n2 !! a = Some (i, Suspect) ∧ timers (n_suspicion n2) !! a = None.
Proof.
  intros [Hwf Hvv] Hen Ha Hv.
  destruct (wp_run _ _ _ (restart_spec n Hen)) as ([] & n1 & Hrun & Hml & Hcfg & Hst & Hts & _).
  exists n1. assert (node_inv n1) as Hinv1.
  { unfold node_inv, ml_wf, view, self in *. by rewrite Hml, Hcfg. }
  assert (view n1 !! a = Some (i, Suspect)) as Hv1 by (unfold view in *; by rewrite Hml).
  assert (a ≠ self n1) as Ha1 by (unfold self in *; by rewrite Hcfg).
  assert (wp (MakeSuspect a i) (made a i Suspect n1) n1) as Hw.
  { unfold MakeSuspect. apply wp_bind, wp_emit. set (n0 := with_emitted _ _).
    eapply wp_mono; [apply (MakeChange_spec a i Suspect n0); [done|by eexists|done]|].
    intros applied n' (c & n3 & Hsc & H). exists c, n3. split; [|done]. by destruct Hsc. }
  destruct (wp_run _ _ _ Hw) as (applied & n2 & Hrun2 & Hm). exists applied, n2.
  destruct (made_other _ _ _ _ _ _ _ Hm Ha1 Hv1) as [Hv2 Ht2].
  assert (beats (mkChange "" 0 a i Suspect 0) (i, Suspect) = false) as Hb.
  { apply beats_false. unfold cstate. simpl. done. }
  rewrite Hb in Hv2, Ht2. split_and!; [done..|]. by rewrite Ht2, Hts.
Qed.

(** ** Joining *)
Lemma clear_all addr l n (Q : unit → Node → Prop) :
  self n = addr →
  (∀ n', n_memberlist n' = n_memberlist n → config n' = config n →
     (∀ a, changes (n_disseminator n') !! a =
        if bool_decide (a ≠ addr ∧ a ∈ c_Address <$> l) then None else changes (n_disseminator n) !! a) →
     Q tt n') →
  wp (for_each l (λ c, if bool_decide (c_Address c = addr) then mret tt else ClearChange (c_Address c))) Q n.
Proof.
  intros Haddr. revert n Q Haddr. induction l as [|c l IH]; intros n Q Haddr HQ; simpl.
  { apply wp_ret, HQ; [done..|]. intros a. rewrite bool_decide_false by set_solver. done. }
  apply wp_bind. case_bool_decide as Hc.
  - apply wp_ret, IH; [done|]. intros n' Hml Hcfg Hch. apply HQ; [done..|]. intros a. rewrite Hch.
    rewrite (bool_decide_ext (a ≠ addr ∧ a ∈ c_Address <$> l) (a ≠ addr ∧ a ∈ c_Address c :: (c_Address <$> l)))
      by set_solver. done.
  - apply wp_modify, IH; [done|]. intros n' Hml Hcfg Hch. apply HQ; [done..|]. intros a. rewrite Hch. simpl.
    clear Hch HQ IH. destruct (decide (a = c_Address c)) as [->|Hne].
    + rewrite lookup_delete_eq, (bool_decide_true (_ ∧ _ ∈ _ :: _)) by set_solver.
      by destruct (bool_decide _).
    + rewrite lookup_delete_ne by done. erewrite bool_decide_ext; [done|]. set_solver.
Qed.

(** A join list is applied but not passed on: [AddJoinList] merges the
    list into the members exactly as [Update] does, and afterwards the
    disseminator holds none of the applied changes except the one about the
    node itself; changes it held about other addresses are kept. *)
Theorem AddJoinList_not_disseminated l n :
  node_inv n → stopped (state n) = false → l ≠ [] → Forall valid_change l →
  ∃ applied n' n'', Update l n = Some (applied, n') ∧ AddJoinList l n = Some (tt, n'') ∧
    view n'' = view n' ∧
    (∀ a, a ≠ self n → a ∈ c_Address <$> applied → changes (n_disseminator n'') !! a = None) ∧
    (∀ a, a ∉ c_Address <$> applied →
       changes (n_disseminator n'') !! a = changes (n_disseminator n) !! a) ∧
    (changes (n_disseminator n'') !! self n = changes (n_disseminator n') !! self n).
Proof.
  intros [Hwf Hvv] Hs Hne Hl.
  destruct (wp_run _ _ _ (Update_spec l n Hwf Hvv Hl)) as (applied & n' & Hrun & Hu).
  rewrite Hs, bool_decide_false in Hu by done. simpl in Hu.
  assert (self n' = self n) as Hself by (unfold self; by rewrite (up_config _ _ _ _ Hu)).
  assert (wp (AddJoinList l) (λ _ n'', n_memberlist n'' = n_memberlist n' ∧
    ∀ a, changes (n_disseminator n'') !! a =
        if bool_decide (a ≠ self n ∧ a ∈ c_Address <$> applied) then None
        else changes (n_disseminator n') !! a) n) as Hw.
  { unfold AddJoinList. apply wp_bind. eapply wp_eq; [exact Hrun|]. apply wp_bind, wp_gets.
    apply (clear_all (self n')); [done|]. intros n2 Hml _ Hch. rewrite Hself in Hch. done. }
  destruct (wp_run _ _ _ Hw) as ([] & n'' & Hrun' & Hml & Hch).
  exists applied, n', n''. split_and!; [done|done|by unfold view; rewrite Hml|..].
  - intros a Ha Hin. by rewrite Hch, bool_decide_true.
  - intros a Hin. rewrite Hch, bool_decide_false by tauto. rewrite (up_changes _ _ _ _ Hu).
    clear -Hin. generalize (changes (n_disseminator n)). induction applied as [|c cs IH]; intros m; simpl; [done|].
    rewrite IH by set_solver. unfold record. rewrite lookup_insert_ne; [done|]. set_solver.
  - rewrite Hch, bool_decide_false by tauto. done.
Qed.

(** A peer can crash a node: a change for a known member with the known
    incarnation and an unknown status makes [Update] panic. *)
Theorem unknown_status_panics c n m :
  ml_wf n → stopped (state n) = false →
  c_Address c ≠ self n → view n !! c_Address c = Some m →
  c_Incarnation c = m.1 → statePrecedence (c_Status c) = None →
  Update [c] n = None.
Proof.
  intros Hwf Hs Ha Hv Hi Hp. unfold Update, Stopped, gets, mbind, M_bind. rewrite Hs. simpl.
  unfold updateOne, Member_, gets, mbind, M_bind. simpl. unfold view in Hv. rewrite lookup_view in Hv.
  destruct (byAddress (n_memberlist n) !! c_Address c) as [p|] eqn:Hb; [|done]. simpl in Hv.
  destruct (heap (n_memberlist n) !! p) as [mm|] eqn:Hm; [|done]. simplify_eq/=. rewrite Hm.
  destruct (wf_heap _ _ Hwf _ _ Hb) as (m' & Hm' & Hadr). simplify_eq.
  rewrite localOverride_spec. rewrite bool_decide_false by (unfold self in Ha; simpl; congruence). simpl.
  unfold nonLocalOverride. rewrite Hi. rewrite bool_decide_false by lia. by rewrite Hp.
Qed.

(** An admin "leave" request that arrives before the node has bootstrapped
    dereferences the nil local member and panics. *)
Theorem leave_before_bootstrap_panics app address channel opts e :
  adminLeaveHandler (NewNode app address channel opts e) = None.
Proof. done. Qed.
