(* ===== verification/DisseminatorSpec.v ===== *)
(** * DisseminatorSpec: how long and to whom changes are piggybacked *)
From S2P Require Import Prelude GoStd NodeState Memberlist Disseminator Suspicion Rollup Membership.
From S2P Require Import MembershipSpec UpdateSpec SwimOrder.
#[local] Open Scope Z_scope.

(** ** The ceiling of the decimal logarithm *)
Lemma powerAbove_spec fuel k p n :
  0 ≤ k → p = 10 ^ k → (k = 0 ∨ 10 ^ (k - 1) < n) → n ≤ p * 2 ^ Z.of_nat fuel →
  let r := powerAbove fuel k p n in 0 ≤ r ∧ n ≤ 10 ^ r ∧ (r = 0 ∨ 10 ^ (r - 1) < n).
Proof.
  revert k p. induction fuel as [|fuel IH]; intros k p Hk Hp Hlow Hn; cbn [powerAbove].
  - subst p. split_and!; [done|lia|done].
  - case_bool_decide as Hle; [subst p; done|].
    apply IH.
    + lia.
    + rewrite Z.pow_add_r, Hp by lia. lia.
    + right. replace (k + 1 - 1) with k by lia. lia.
    + rewrite Nat2Z.inj_succ, Z.pow_succ_r in Hn by lia. nia.
Qed.

Lemma ceilLog10_spec n : 1 ≤ n →
  0 ≤ ceilLog10 n ∧ n ≤ 10 ^ ceilLog10 n ∧ (ceilLog10 n = 0 ∨ 10 ^ (ceilLog10 n - 1) < n).
Proof.
  intros Hn. unfold ceilLog10. apply powerAbove_spec; [done|done|by left|].
  rewrite Z2Nat.id by apply Z.log2_up_nonneg. rewrite Z.mul_1_l.
  destruct (decide (n = 1)) as [->|]; [done|]. apply Z.log2_up_spec. lia.
Qed.

(** ** Filtering *)
Definition from_sender (source : string) (incarnation : Z) (c : Change) : Prop :=
  incarnation = c_SourceIncarnation c ∧ source = c_Source c.
#[global] Instance from_sender_dec s i c : Decision (from_sender s i c).
Proof. unfold from_sender. apply _. Defined.

Lemma swapLast_spec l1 c l2 :
  swapLast (length l1) (l1 ++ c :: l2) =
    match last l2 with None => l1 | Some y => l1 ++ y :: removelast l2 end.
Proof.
  unfold swapLast. rewrite list_lookup_middle by done.
  destruct l2 as [|z l2 _] using rev_ind.
  - rewrite last_app. simpl. rewrite length_app. simpl.
    replace (length l1 + 1 - 1)%nat with (length l1) by lia.
    rewrite list_insert_insert_eq, insert_middle. by rewrite removelast_app, app_nil_r.
  - rewrite last_app, last_cons, last_snoc. simpl.
    assert (∀ y, removelast (<[length l1 := y]> (<[length (l1 ++ c :: l2 ++ [z]) - 1 := c]> (l1 ++ c :: l2 ++ [z])))%nat
      = l1 ++ y :: l2) as Hrm.
    { intros y.
      assert (<[length (l1 ++ c :: l2 ++ [z]) - 1 := c]> (l1 ++ c :: l2 ++ [z]) = l1 ++ c :: l2 ++ [c])%nat as ->.
      { rewrite (app_comm_cons l2), (assoc_L (++)).
        replace (length ((l1 ++ c :: l2) ++ [z]) - 1)%nat with (length (l1 ++ c :: l2)).
        2:{ rewrite (length_app (l1 ++ c :: l2)). simpl. lia. }
        rewrite insert_middle. by rewrite <-(assoc_L (++)). }
      rewrite insert_middle.
      rewrite (app_comm_cons l2), (assoc_L (++)). apply removelast_last. }
    rewrite Hrm, removelast_last. done.
Qed.

Lemma swapLast_perm l1 c l2 : ∃ r, swapLast (length l1) (l1 ++ c :: l2) = l1 ++ r ∧ r ≡ₚ l2.
Proof.
  rewrite swapLast_spec. destruct l2 as [|z l2 _] using rev_ind.
  - exists []. by rewrite app_nil_r.
  - rewrite last_snoc, removelast_last. exists (z :: l2). split; [done|].
    by rewrite Permutation_cons_append.
Qed.

(** The rest of a node after only events were emitted. *)
Definition only_events (n n' : Node) : Prop := n' = with_emitted n (emitted n').

Lemma filterLoop_spec fuel l1 l2 source incarnation n :
  (length l2 ≤ fuel)%nat → Forall (λ c, ¬ from_sender source incarnation c) l1 →
  wp (filterLoop fuel (length l1) (l1 ++ l2) source incarnation)
    (λ r n', only_events n n' ∧
       r ≡ₚ l1 ++ filter (λ c, ¬ from_sender source incarnation c) l2) n.
Proof.
  revert l1 l2 n. induction fuel as [|fuel IH]; intros l1 l2 n Hf Hl1; simpl.
  { destruct l2; [|simpl in Hf; lia]. apply wp_ret. split; [by destruct n|done]. }
  destruct l2 as [|c l2].
  { rewrite app_nil_r, lookup_ge_None_2 by done. apply wp_ret. split; [by destruct n|]. by rewrite app_nil_r. }
  rewrite list_lookup_middle by done. simpl in Hf.
  destruct (bool_decide (incarnation = c_SourceIncarnation c) && bool_decide (source = c_Source c)) eqn:Hb.
  - apply andb_true_iff in Hb as [H1%bool_decide_eq_true H2%bool_decide_eq_true].
    apply wp_bind, wp_emit. destruct (swapLast_perm l1 c l2) as (r & -> & Hr).
    eapply wp_mono; [apply IH; [rewrite Hr; lia|done]|]. intros r' n' [Ho Hp]. split.
    + unfold only_events in *. simpl in *. rewrite Ho at 1. done.
    + rewrite Hp, Hr. rewrite (filter_cons_False _ c); [done|]. intros Hn. by apply Hn.
  - assert (¬ from_sender source incarnation c) as Hc.
    { intros [-> ->]. rewrite !bool_decide_true in Hb by done. done. }
    replace (S (length l1)) with (length (l1 ++ [c])) by (rewrite length_app; simpl; lia).
    rewrite (cons_middle c l1 l2). rewrite (assoc_L (++)).
    eapply wp_mono; [apply IH; [lia|by apply Forall_app; auto]|]. intros r' n' [Ho Hp]. split; [done|].
    rewrite Hp, filter_cons_True by done. by rewrite <-(assoc_L (++)).
Qed.

Lemma filterChangesFromSender_spec cs source incarnation n :
  wp (filterChangesFromSender cs source incarnation)
    (λ r n', only_events n n' ∧ r ≡ₚ filter (λ c, ¬ from_sender source incarnation c) cs) n.
Proof. by apply (filterLoop_spec (length cs) [] cs). Qed.

(** ** Counters *)
Definition dis_wf (d : disseminator) : Prop :=
  ∀ a pc, changes d !! a = Some pc → c_Address (pc_Change pc) = a.

(** One round of sending: a change gains one, and leaves at the limit. *)
Definition bumped (mp : Z) (pc : pChange) : option pChange :=
  if bool_decide (mp ≤ pc_p pc + 1) then None else Some (mkPChange (pc_Change pc) (pc_p pc + 1)).

Lemma bumpOne_lookup d c a :
  dis_wf d →
  changes (bumpOne d c) !! a =
    (if bool_decide (c_Address c = a) then changes d !! a ≫= bumped (maxP d) else changes d !! a).
Proof.
  intros Hwf. unfold bumpOne. destruct (decide (c_Address c = a)) as [Ha|Ha].
  - rewrite (bool_decide_true (c_Address c = a)), Ha by done.
    destruct (changes d !! a) as [pc|] eqn:Hc; simpl; [|done]. unfold bumped.
    rewrite (Hwf _ _ Hc). case_bool_decide; simpl; by simplify_map_eq.
  - rewrite (bool_decide_false (c_Address c = a)) by done.
    destruct (changes d !! c_Address c) as [pc|] eqn:Hc; simpl; [|done].
    rewrite (Hwf _ _ Hc). case_bool_decide; simpl; by simplify_map_eq.
Qed.

Lemma bumpOne_wf d c : dis_wf d → dis_wf (bumpOne d c) ∧ maxP (bumpOne d c) = maxP d.
Proof.
  intros Hwf. split.
  - intros a pc. rewrite bumpOne_lookup by done. case_bool_decide as Ha; [|apply Hwf].
    destruct (changes d !! a) as [pc'|] eqn:Hc; [|done]. simpl. unfold bumped.
    case_bool_decide; [done|]. intros [= <-]. simpl. by apply Hwf.
  - unfold bumpOne. destruct (changes d !! c_Address c); [|done]. by case_bool_decide.
Qed.

Lemma bumps_lookup cs d a :
  dis_wf d → NoDup (c_Address <$> cs) →
  changes (foldl bumpOne d cs) !! a =
    (if bool_decide (a ∈ c_Address <$> cs) then changes d !! a ≫= bumped (maxP d) else changes d !! a).
Proof.
  revert d. induction cs as [|c cs IH]; intros d Hwf Hnd; cbn [foldl]; [done|].
  rewrite fmap_cons in *. apply NoDup_cons in Hnd as [Hnot Hnd].
  destruct (bumpOne_wf d c Hwf) as [Hwf' Hmp]. rewrite IH by done. rewrite Hmp, bumpOne_lookup by done.
  destruct (decide (c_Address c = a)) as [<-|Hne].
  - rewrite (bool_decide_false (_ ∈ _ <$> _)) by done.
    rewrite !bool_decide_true by set_solver. done.
  - rewrite (bool_decide_false (c_Address c = a)) by done.
    erewrite bool_decide_ext; [done|]. set_solver.
Qed.

Lemma bumps_wf cs d : dis_wf d → dis_wf (foldl bumpOne d cs) ∧ maxP (foldl bumpOne d cs) = maxP d.
Proof.
  revert d. induction cs as [|c cs IH]; intros d Hwf; simpl; [done|].
  destruct (bumpOne_wf d c Hwf) as [Hwf' Hmp]. destruct (IH _ Hwf') as [? ->]. done.
Qed.

(** Bumping counters neither adds nor alters a change. *)
Definition thinned (d d' : disseminator) : Prop :=
  ∀ a pc', changes d' !! a = Some pc' → ∃ pc, changes d !! a = Some pc ∧ pc_Change pc = pc_Change pc'.
#[global] Instance thinned_refl : Reflexive thinned.
Proof. intros d a pc H. eauto. Qed.
#[global] Instance thinned_trans : Transitive thinned.
Proof. intros d1 d2 d3 H12 H23 a pc (pc2 & H2 & <-)%H23. by apply H12. Qed.

Lemma bumps_thinned cs d : dis_wf d → thinned d (foldl bumpOne d cs).
Proof.
  revert d. induction cs as [|c cs IH]; intros d Hd; simpl; [done|].
  trans (bumpOne d c); [|by apply IH, bumpOne_wf]. intros a pc'. rewrite bumpOne_lookup by done.
  case_bool_decide; [|eauto]. destruct (changes d !! a) as [pc|]; simpl; [|done].
  unfold bumped. case_bool_decide; [done|]. intros [= <-]. eauto.
Qed.

(** The changes a node issues: exactly those in the map, one per address. *)
Lemma issueChanges_spec n (Q : list Change → Node → Prop) :
  dis_wf (n_disseminator n) →
  (∀ cs n', cs ≡ₚ (λ x : string * pChange, pc_Change x.2) <$> map_to_list (changes (n_disseminator n)) →
     NoDup (c_Address <$> cs) →
     (∀ a, a ∈ c_Address <$> cs ↔ is_Some (changes (n_disseminator n) !! a)) →
     n' = with_emitted (with_tick n (S (tick n))) (emitted n') → Q cs n') →
  wp issueChanges Q n.
Proof.
  intros Hwf HQ. unfold issueChanges. apply wp_bind, wp_order, wp_bind, wp_gets, wp_bind, wp_emit, wp_ret.
  set (cs := _ <$> _).
  assert (cs ≡ₚ (λ x : string * pChange, pc_Change x.2) <$> map_to_list (changes (n_disseminator n))) as Hperm.
  { unfold cs. by rewrite arrange_perm. }
  assert (c_Address <$> cs ≡ₚ (map_to_list (changes (n_disseminator n))).*1) as Hadr.
  { rewrite Hperm, <-list_fmap_compose. apply Permutation_refl'. apply list_fmap_ext.
    intros i [a pc] Hi. simpl. apply Hwf. apply elem_of_map_to_list. by apply list_elem_of_lookup_2 in Hi. }
  apply HQ; [done| | |done].
  - rewrite Hadr. apply NoDup_fst_map_to_list.
  - intros a. rewrite Hadr, list_elem_of_fmap. split.
    + intros ([? pc] & -> & Hin%elem_of_map_to_list). by exists pc.
    + intros [pc Hpc]. exists (a, pc). by rewrite elem_of_map_to_list.
Qed.

(** A successful ping: issue the changes and bump their counters. *)
Definition sendRound : SW unit := cs ← IssueAsSender; bumpPiggybackCounters cs.

Fixpoint sendRounds (k : nat) : SW unit :=
  match k with O => mret tt | S k => sendRound;; sendRounds k end.

Lemma sendRound_spec n :
  dis_wf (n_disseminator n) →
  wp sendRound (λ _ n', dis_wf (n_disseminator n') ∧ maxP (n_disseminator n') = maxP (n_disseminator n) ∧
    ∀ a, changes (n_disseminator n') !! a = changes (n_disseminator n) !! a ≫= bumped (maxP (n_disseminator n))) n.
Proof.
  intros Hwf. unfold sendRound. apply wp_bind. apply issueChanges_spec; [done|].
  intros cs n' _ Hnd Hdom Hn'. apply wp_modify.
  assert (n_disseminator n' = n_disseminator n) as Hd by (rewrite Hn'; done). simpl. rewrite Hd.
  destruct (bumps_wf cs _ Hwf) as [Hw Hm]. split_and!; [done..|]. intros a. rewrite bumps_lookup by done.
  case_bool_decide as Ha; [done|]. rewrite Hdom in Ha.
  destruct (changes (n_disseminator n) !! a) eqn:Hc; [|done]. exfalso. apply Ha. eauto.
Qed.

(** C20: dissemination is bounded: a change recorded with a zero counter is
    issued in the next [maxP] successful pings and then dropped.  After [k]
    rounds its counter is [k] while [k < maxP], and from [k = maxP] on it is
    gone. *)
Theorem change_disseminated_maxP_times n a c k :
  dis_wf (n_disseminator n) → 1 ≤ maxP (n_disseminator n) →
  changes (n_disseminator n) !! a = Some (mkPChange c 0) →
  ∃ n', sendRounds k n = Some (tt, n') ∧
    changes (n_disseminator n') !! a =
      if bool_decide (Z.of_nat k < maxP (n_disseminator n)) then Some (mkPChange c (Z.of_nat k)) else None.
Proof.
  intros Hwf Hmp Ha.
  assert (∀ k n, dis_wf (n_disseminator n) →
    wp (sendRounds k) (λ _ n', ∀ p, 0 ≤ p → changes (n_disseminator n) !! a = Some (mkPChange c p) →
      p < maxP (n_disseminator n) →
      changes (n_disseminator n') !! a =
        if bool_decide (p + Z.of_nat k < maxP (n_disseminator n)) then Some (mkPChange c (p + Z.of_nat k)) else None) n
    ∧ wp (sendRounds k) (λ _ n', changes (n_disseminator n) !! a = None → changes (n_disseminator n') !! a = None) n)
    as Hk.
  { clear. induction k as [|k IH]; intros n Hwf; simpl.
    - split; apply wp_ret; [|done]. intros p Hp Ha Hlt. rewrite Z.add_0_r. by rewrite bool_decide_true.
    - split; apply wp_bind; (eapply wp_mono; [by apply sendRound_spec|]); intros [] n1 (Hwf1 & Hmp1 & Hch1);
        destruct (IH n1 Hwf1) as [IH1 IH2].
      + eapply wp_mono; [apply (wp_and _ _ _ _ IH1 IH2)|]. intros [] n2 [H1 H2] p Hp Ha Hlt.
        rewrite Hch1, Hmp1, Ha in *. simpl in *. unfold bumped in *. simpl in *.
        case_bool_decide as Hge.
        * rewrite H2 by done. by rewrite bool_decide_false by lia.
        * rewrite (H1 (p + 1)) by (done || lia). replace (p + 1 + Z.of_nat k) with (p + Z.of_nat (S k)) by lia. done.
      + eapply wp_mono; [exact IH2|]. intros [] n2 H2 Ha. apply H2. by rewrite Hch1, Ha. }
  destruct (wp_run _ _ _ (proj1 (Hk k n Hwf))) as ([] & n' & Hrun & H).
  exists n'. split; [done|]. specialize (H 0 ltac:(lia) Ha ltac:(lia)). by rewrite Z.add_0_l in H.
Qed.

(** ** Answering a ping *)
Definition centry (c : Change) : string * mstate := (c_Address c, cstate c).

Lemma Incarnation_spec n (Q : Z → Node → Prop) :
  ml_wf n → (∀ i, Q i n) → wp Incarnation Q n.
Proof.
  intros Hwf HQ. destruct (wf_local _ _ Hwf) as (p & m & Hp & Hm & _). unfold Incarnation.
  apply wp_bind, wp_gets. rewrite Hp. apply wp_bind. eapply wp_deref; [exact Hm|]. apply wp_ret, HQ.
Qed.

(** A full sync lists every member with its state. *)
Lemma FullSync_spec n (Q : list Change → Node → Prop) :
  ml_wf n → (∀ cs, centry <$> cs ≡ₚ map_to_list (view n) → Q cs n) → wp FullSync Q n.
Proof.
  intros Hwf HQ. unfold FullSync. apply wp_bind, GetMembers_spec; [done|]. intros ms Hms.
  apply wp_bind, wp_gets, wp_bind, Incarnation_spec; [done|]. intros i. apply wp_ret, HQ.
  rewrite <-Hms, <-list_fmap_compose. done.
Qed.

(** The changes a node has to tell a given sender. *)
Definition to_tell (n : Node) (source : string) (incarnation : Z) : list Change :=
  filter (λ c, ¬ from_sender source incarnation c)
    ((λ x : string * pChange, pc_Change x.2) <$> map_to_list (changes (n_disseminator n))).

Definition answer (n : Node) (source : string) (incarnation ck : Z) (cs : list Change) (full : bool) : Prop :=
  if full then to_tell n source incarnation = [] ∧ ml_checksum (n_memberlist n) ≠ ck ∧
               centry <$> cs ≡ₚ map_to_list (view n)
  else cs ≡ₚ to_tell n source incarnation ∧
       (to_tell n source incarnation ≠ [] ∨ ml_checksum (n_memberlist n) = ck).

(** What answering leaves alone. *)
Record answered (n n' : Node) : Prop := {
  an_config : config n' = config n;
  an_state : state n' = state n;
  an_ml : n_memberlist n' = n_memberlist n;
  an_sus : n_suspicion n' = n_suspicion n;
  an_env : env n' = env n;
  an_iter : n_memberiter n' = n_memberiter n;
  an_dis : dis_wf (n_disseminator n');
  an_thin : thinned (n_disseminator n) (n_disseminator n')
}.

Lemma IssueAsReceiver_spec source incarnation ck n :
  ml_wf n → dis_wf (n_disseminator n) →
  wp (IssueAsReceiver source incarnation ck)
    (λ r n', answered n n' ∧ answer n source incarnation ck r.1 r.2) n.
Proof.
  intros Hwf Hdw. unfold IssueAsReceiver. apply wp_bind. apply issueChanges_spec; [done|].
  intros cs n1 Hcs _ _ Hn1. apply wp_bind. eapply wp_mono; [apply filterChangesFromSender_spec|].
  intros r n2 [Ho Hr]. apply wp_bind, wp_modify, wp_bind, wp_gets.
  assert (r ≡ₚ to_tell n source incarnation) as Htell by (unfold to_tell; by rewrite Hr, Hcs).
  set (n3 := with_disseminator _ _).
  assert (answered n n3 ∧ n_memberlist n3 = n_memberlist n) as [Han Hml].
  { unfold only_events in Ho. rewrite Hn1 in Ho. unfold n3. split; [|simpl; by rewrite Ho].
    split; simpl; try (by rewrite Ho); [apply bumps_wf|]; rewrite Ho; [done|]. by apply bumps_thinned. }
  clearbody n3. rewrite Hml.
  destruct (decide (r = [])) as [->|Hne].
  - apply Permutation_nil_l in Htell. simpl. case_bool_decide as Hck.
    + apply wp_ret. split; [done|]. split; [by rewrite Htell|by right].
    + apply wp_bind, wp_emit, wp_bind, FullSync_spec.
      { unfold ml_wf, self. simpl. rewrite Hml, (an_config _ _ Han). exact Hwf. }
      intros all Hall. apply wp_ret. split; [by destruct Han|]. split_and!; [done|done|].
      unfold view in *. simpl in Hall. rewrite Hml in Hall. exact Hall.
  - rewrite bool_decide_true by (destruct r; [done|simpl; lia]). apply wp_ret. split; [done|].
    split; [done|]. left. intros Hnil. rewrite Hnil in Htell. by apply Permutation_nil_r in Htell.
Qed.

(** C21: [IssueAsReceiver] answers with exactly the changes in the disseminator
    that the sender did not itself originate; only when there are none and the
    checksums differ does it answer with a full sync, which lists every member
    with its status and incarnation.  The filter's swapping loop loses and
    duplicates nothing. *)
Theorem IssueAsReceiver_answers source incarnation ck n :
  ml_wf n → dis_wf (n_disseminator n) →
  ∃ cs full n', IssueAsReceiver source incarnation ck n = Some ((cs, full), n') ∧
    n_memberlist n' = n_memberlist n ∧
    (full = false → cs ≡ₚ to_tell n source incarnation) ∧
    (full = true ↔ to_tell n source incarnation = [] ∧ ml_checksum (n_memberlist n) ≠ ck) ∧
    (full = true → centry <$> cs ≡ₚ map_to_list (view n)).
Proof.
  intros Hwf Hdw.
  destruct (wp_run _ _ _ (IssueAsReceiver_spec source incarnation ck n Hwf Hdw)) as ([cs full] & n' & Hrun & Han & Ha).
  exists cs, full, n'. split; [done|]. split; [apply Han|]. simpl in Ha. destruct full; simpl in Ha.
  - destruct Ha as (? & ? & ?). done.
  - destruct Ha as (? & Hor). split_and!; [done|split; [done|]|done]. intros [? ?]. by destruct Hor.
Qed.

(** The piggyback limit follows the cluster size: after
    [AdjustMaxPropagations] the limit is the factor times the number of decimal
    digits needed for the pingable members, that is k with
    10^(k-1) < pingable + 1 <= 10^k; it is zero when nobody is pingable. *)
Theorem maxP_follows_cluster_size n :
  ml_wf n →
  ∃ n' k, AdjustMaxPropagations n = Some (tt, n') ∧
    maxP (n_disseminator n') = pFactor (n_disseminator n) * k ∧
    changes (n_disseminator n') = changes (n_disseminator n) ∧
    pingable_count (self n) (view n) + 1 ≤ 10 ^ k ∧
    (k = 0 ∧ pingable_count (self n) (view n) = 0 ∨
     1 ≤ k ∧ 10 ^ (k - 1) < pingable_count (self n) (view n) + 1).
Proof.
  intros Hwf. destruct (wp_run _ _ _ (AdjustMaxPropagations_spec n Hwf)) as ([] & n' & Hrun & Hh & Hmp).
  exists n', (ceilLog10 (pingable_count (self n) (view n) + 1)).
  assert (0 ≤ pingable_count (self n) (view n)) as Hpos by (unfold pingable_count; lia).
  destruct (ceilLog10_spec (pingable_count (self n) (view n) + 1)) as (H0 & H1 & H2); [lia|].
  split_and!; [done|done|apply Hh|done|]. destruct H2 as [H2|H2].
  - left. split; [done|]. rewrite H2 in H1. change (10 ^ 0) with 1 in H1. lia.
  - destruct (decide (ceilLog10 (pingable_count (self n) (view n) + 1) = 0)) as [He|He].
    + left. split; [done|]. rewrite He in H1. change (10 ^ 0) with 1 in H1. lia.
    + right. split; [lia|done].
Qed.
