(* ===== verification/IterSpec.v ===== *)
(** * IterSpec: the member iterator terminates and skips nobody *)
From S2P Require Import Prelude GoStd NodeState Memberlist Disseminator Suspicion Rollup Membership.
From S2P Require Import MembershipSpec UpdateSpec MemberIter.
#[local] Open Scope Z_scope.

(** The address behind a pointer of the list. *)
Definition addr_of (n : Node) (p : loc) : string :=
  default "" (m_Address <$> heap (n_memberlist n) !! p).

(** A list permuted by shuffles over unchanged members. *)
Record shuffled (n n' : Node) : Prop := {
  sh_config : config n' = config n;
  sh_state : state n' = state n;
  sh_heap : heap (n_memberlist n') = heap (n_memberlist n);
  sh_local : local (n_memberlist n') = local (n_memberlist n);
  sh_by : byAddress (n_memberlist n') = byAddress (n_memberlist n);
  sh_list : list_ (n_memberlist n') ≡ₚ list_ (n_memberlist n);
  sh_env : env n' = env n;
  sh_dis : n_disseminator n' = n_disseminator n;
  sh_sus : n_suspicion n' = n_suspicion n
}.

#[global] Instance shuffled_refl : Reflexive shuffled.
Proof. by split. Qed.
#[global] Instance shuffled_trans : Transitive shuffled.
Proof. intros x y z [] []. split; try congruence. by etrans. Qed.

Lemma shuffled_wf n n' : shuffled n n' → ml_wf n → ml_wf n' ∧ view n' = view n ∧ self n' = self n.
Proof.
  intros [] [Hnd Hl Hh Hlo Hs]. unfold ml_wf, view, view_ml, self. rewrite sh_heap0, sh_by0, sh_config0.
  split_and!; [|done|done]. split; rewrite ?sh_heap0, ?sh_by0, ?sh_local0, ?sh_config0; try done.
  - by rewrite sh_list0.
  - intros p. by rewrite sh_list0.
Qed.

(** The index of the iterator stays inside the list. *)
Definition iter_ok (n : Node) : Prop :=
  -1 ≤ currentIndex (n_memberiter n) < Z.max 1 (Z.of_nat (length (list_ (n_memberlist n)))).

Lemma Shuffle_spec n (Q : unit → Node → Prop) :
  (∀ n', shuffled n n' → n_memberiter n' = n_memberiter n → Q tt n') → wp Shuffle Q n.
Proof.
  intros HQ. unfold Shuffle, shuffle. apply wp_bind, wp_gets, wp_bind, wp_bind, wp_order, wp_ret, wp_modify.
  apply HQ; [|done]. split; simpl; try done. apply arrange_perm.
Qed.

Lemma MemberAt_spec n i p (Q : loc → Node → Prop) :
  0 ≤ i → list_ (n_memberlist n) !! Z.to_nat i = Some p → Q p n → wp (MemberAt i) Q n.
Proof.
  intros Hi Hp HQ. unfold MemberAt. apply wp_bind, wp_gets. rewrite bool_decide_false by lia.
  by rewrite Hp.
Qed.

(** Advancing inside a round, and at its end. *)
Lemma advance_in n p (Q : loc → Node → Prop) :
  list_ (n_memberlist n) !! Z.to_nat (currentIndex (n_memberiter n) + 1) = Some p →
  0 ≤ currentIndex (n_memberiter n) + 1 →
  (∀ n', shuffled n n' → list_ (n_memberlist n') = list_ (n_memberlist n) →
     currentIndex (n_memberiter n') = currentIndex (n_memberiter n) + 1 → Q p n') →
  wp advance Q n.
Proof.
  intros Hp Hi HQ. unfold advance. apply wp_bind, wp_modify, wp_bind, wp_gets, wp_bind, wp_gets, wp_bind. simpl.
  apply lookup_lt_Some in Hp as Hlt. rewrite bool_decide_false by lia. simpl.
  apply wp_ret, wp_bind, wp_gets. eapply MemberAt_spec; [|exact Hp|]; [done|]. by apply HQ.
Qed.

Lemma advance_wrap n (Q : loc → Node → Prop) :
  Z.of_nat (length (list_ (n_memberlist n))) ≤ currentIndex (n_memberiter n) + 1 →
  (0 < length (list_ (n_memberlist n)))%nat →
  (∀ n' p, shuffled n n' → list_ (n_memberlist n') !! 0%nat = Some p →
     currentIndex (n_memberiter n') = 0 → Q p n') →
  wp advance Q n.
Proof.
  intros Hend Hpos HQ. unfold advance. apply wp_bind, wp_modify, wp_bind, wp_gets, wp_bind, wp_gets, wp_bind. simpl.
  rewrite bool_decide_true by done. simpl. apply wp_bind, wp_modify, Shuffle_spec.
  intros n' Hsh Hit. apply wp_bind, wp_gets. rewrite Hit. simpl.
  assert (shuffled n n') as Hsh' by (etrans; [|exact Hsh]; done).
  pose proof (sh_list _ _ Hsh') as Hperm. destruct (list_ (n_memberlist n')) as [|p l] eqn:Hl.
  { apply Permutation_length in Hperm. simpl in Hperm. lia. }
  eapply MemberAt_spec; [done|by rewrite Hl|]. apply HQ; [done|by rewrite Hl|by rewrite Hit].
Qed.

Section next.
Variable n0 : Node.
Hypothesis Hwf0 : ml_wf n0.
Let N : nat := length (list_ (n_memberlist n0)).
Let addrs : gset string := list_to_set (addr_of n0 <$> list_ (n_memberlist n0)).

(** The loop has looked at [V] and found nobody to ping. *)
Definition seen (V : gset string) : Prop :=
  V ⊆ addrs ∧ ∀ a st, a ∈ V → view n0 !! a = Some st → ¬ pingable (self n0) (a, st).

Lemma addrs_size : size addrs = N.
Proof.
  unfold addrs, N. rewrite size_list_to_set; [by rewrite length_fmap|].
  pose proof (wf_nodup _ _ Hwf0) as Hnd. pose proof (wf_list _ _ Hwf0) as Hl.
  assert (∀ p, p ∈ list_ (n_memberlist n0) → byAddress (n_memberlist n0) !! addr_of n0 p = Some p) as Hback.
  { intros p [a Ha]%Hl. destruct (wf_heap _ _ Hwf0 _ _ Ha) as (m & Hm & <-). unfold addr_of. by rewrite Hm. }
  clear Hl. induction Hnd as [|p l Hnot Hnd IH]; simpl; [constructor|]. constructor; [|apply IH; set_solver].
  intros (p' & Heq & Hin)%list_elem_of_fmap. assert (p = p'); [|by subst].
  assert (Some p = Some p'); [|congruence]. rewrite <-(Hback p), <-(Hback p') by set_solver. by rewrite Heq.
Qed.

(** The member at a pointer of the list. *)
Lemma member_at n p :
  shuffled n0 n → p ∈ list_ (n_memberlist n) →
  ∃ m, heap (n_memberlist n) !! p = Some m ∧ addr_of n0 p = m_Address m ∧ m_Address m ∈ addrs ∧
    view n0 !! m_Address m = Some (mem_state m).
Proof.
  intros Hsh Hp. rewrite (sh_list _ _ Hsh) in Hp. pose proof Hp as [a Ha]%(wf_list _ _ Hwf0).
  destruct (wf_heap _ _ Hwf0 _ _ Ha) as (m & Hm & Hadr). exists m. rewrite (sh_heap _ _ Hsh).
  assert (addr_of n0 p = m_Address m) as Hao by (unfold addr_of; by rewrite Hm).
  split_and!; [done|done| |].
  - unfold addrs. apply elem_of_list_to_set. rewrite <-Hao. by apply list_elem_of_fmap_2.
  - unfold view. rewrite lookup_view, Hadr, Ha. simpl. by rewrite Hm.
Qed.

Definition nextPost (r : option loc) (n' : Node) : Prop :=
  shuffled n0 n' ∧ iter_ok n' ∧
  match r with
  | Some p => ∃ m, heap (n_memberlist n') !! p = Some m ∧ pingable (self n0) (entry m) ∧
                   view n0 !! m_Address m = Some (mem_state m)
  | None => ∀ a st, view n0 !! a = Some st → ¬ pingable (self n0) (a, st)
  end.

(** After [advance] has chosen [p]: ping it or go on. *)
Lemma next_visit fuel n p V :
  shuffled n0 n → iter_ok n → p ∈ list_ (n_memberlist n) → seen V →
  (∀ m, heap (n_memberlist n) !! p = Some m → seen ({[m_Address m]} ∪ V) → addr_of n0 p = m_Address m →
     wp (nextLoop fuel (Z.of_nat N) ({[m_Address m]} ∪ V)) nextPost n) →
  wp (member ← deref (Some p);
      b ← Pingable member;
      if (b : bool) then mret (Some p) else nextLoop fuel (Z.of_nat N) ({[m_Address member]} ∪ V))
    nextPost n.
Proof.
  intros Hsh Hit Hp [HV Hno] Hrest. destruct (member_at n p Hsh Hp) as (m & Hm & Hao & Hin & Hv).
  destruct (shuffled_wf _ _ Hsh Hwf0) as (Hwf & _ & Hself).
  apply wp_bind. eapply wp_deref; [exact Hm|]. apply wp_bind, Pingable_spec; [done|]. rewrite Hself.
  case_bool_decide as Hping.
  - apply wp_ret. split_and!; [done|done|]. by exists m.
  - apply Hrest; [done| |done]. split; [set_solver|].
    intros a st [->%elem_of_singleton|Ha]%elem_of_union Hst; [|by apply Hno]. simplify_eq. done.
Qed.

Lemma next_done n V : shuffled n0 n → iter_ok n → seen V → (N ≤ size V)%nat → nextPost None n.
Proof.
  intros Hsh Hit [HV Hno] Hsz. split_and!; [done|done|]. intros a st Hst. apply Hno; [|done].
  assert (V = addrs) as ->.
  { apply set_eq. intros x. split; [apply HV|]. intros Hx.
    assert (V ≡ addrs) as HE; [|by apply HE]. apply set_subseteq_size_equiv; [done|]. rewrite addrs_size. lia. }
  unfold addrs. apply elem_of_list_to_set. unfold view in Hst. rewrite lookup_view in Hst.
  destruct (byAddress (n_memberlist n0) !! a) as [p|] eqn:Ha; [|done].
  destruct (wf_heap _ _ Hwf0 _ _ Ha) as (m & Hm & Hadr). apply list_elem_of_fmap. exists p. split.
  - unfold addr_of. by rewrite Hm.
  - apply (wf_list _ _ Hwf0). eauto.
Qed.

(** The second pass: everybody up to the index has been seen. *)
Lemma next_second fuel n V :
  shuffled n0 n → iter_ok n → seen V → 0 ≤ currentIndex (n_memberiter n) →
  list_to_set (addr_of n0 <$> take (S (Z.to_nat (currentIndex (n_memberiter n)))) (list_ (n_memberlist n))) ⊆ V →
  Z.of_nat N - currentIndex (n_memberiter n) ≤ Z.of_nat fuel →
  (0 < fuel)%nat →
  wp (nextLoop fuel (Z.of_nat N) V) nextPost n.
Proof.
  revert n V. induction fuel as [|fuel IH]; intros n V Hsh Hit HV Hidx Hcov Hfuel Hpos; [lia|]. cbn [nextLoop].
  assert (length (list_ (n_memberlist n)) = N) as HlenN.
  { unfold N. apply Permutation_length, (sh_list _ _ Hsh). }
  case_bool_decide as Hsz; [|apply wp_ret; eapply next_done; [done|done|done|lia]].
  set (i := currentIndex (n_memberiter n)) in *.
  assert (i + 1 < Z.of_nat N) as Hlt.
  { destruct (decide (i + 1 < Z.of_nat N)); [done|]. exfalso.
    rewrite take_ge in Hcov by lia.
    assert (addrs ⊆ V) as Hsub.
    { etrans; [|exact Hcov]. unfold addrs. intros a. rewrite !elem_of_list_to_set.
      by rewrite (sh_list _ _ Hsh). }
    apply subseteq_size in Hsub. rewrite addrs_size in Hsub. lia. }
  destruct (list_ (n_memberlist n) !! Z.to_nat (i + 1)) as [p|] eqn:Hp.
  2:{ apply lookup_ge_None in Hp. lia. }
  apply wp_bind. eapply advance_in; [exact Hp|fold i; lia|]. intros n' Hsh' Hl Hi'.
  assert (shuffled n0 n') as Hsh2 by (etrans; [exact Hsh|done]).
  assert (iter_ok n') as Hit' by (unfold iter_ok; rewrite Hl, Hi', HlenN; fold i; lia).
  apply next_visit; [done|done|rewrite Hl; by eapply list_elem_of_lookup_2|done|].
  intros m Hm HV' Hao. apply IH; [done|done|done|rewrite Hi'; fold i; lia| |rewrite Hi'; fold i; lia|lia].
  rewrite Hi', Hl. fold i.
  replace (S (Z.to_nat (i + 1))) with (S (S (Z.to_nat i))) by lia.
  rewrite (take_S_r _ (S (Z.to_nat i)) p); [|by replace (S (Z.to_nat i)) with (Z.to_nat (i + 1)) by lia].
  rewrite fmap_app, list_to_set_app_L. simpl. rewrite Hao. set_solver.
Qed.

(** The first pass: up to the end of the current round. *)
Lemma next_first fuel n V :
  shuffled n0 n → iter_ok n → seen V →
  Z.of_nat N - currentIndex (n_memberiter n) + Z.of_nat N ≤ Z.of_nat fuel →
  (0 < fuel)%nat →
  wp (nextLoop fuel (Z.of_nat N) V) nextPost n.
Proof.
  revert n V. induction fuel as [|fuel IH]; intros n V Hsh Hit HV Hfuel Hpos; [lia|]. cbn [nextLoop].
  assert (length (list_ (n_memberlist n)) = N) as HlenN.
  { unfold N. apply Permutation_length, (sh_list _ _ Hsh). }
  case_bool_decide as Hsz; [|apply wp_ret; eapply next_done; [done|done|done|lia]].
  set (i := currentIndex (n_memberiter n)) in *.
  assert (-1 ≤ i < Z.of_nat N) as Hi by (unfold iter_ok in Hit; rewrite HlenN in Hit; fold i in Hit; lia).
  destruct (decide (i + 1 < Z.of_nat N)) as [Hlt|Hge].
  - destruct (list_ (n_memberlist n) !! Z.to_nat (i + 1)) as [p|] eqn:Hp.
    2:{ apply lookup_ge_None in Hp. lia. }
    apply wp_bind. eapply advance_in; [exact Hp|fold i; lia|]. intros n' Hsh' Hl Hi'.
    assert (shuffled n0 n') as Hsh2 by (etrans; [exact Hsh|done]).
    assert (iter_ok n') as Hit' by (unfold iter_ok; rewrite Hl, Hi', HlenN; fold i; lia).
    apply next_visit; [done|done|rewrite Hl; by eapply list_elem_of_lookup_2|done|].
    intros m Hm HV' Hao. apply IH; [done|done|done|rewrite Hi'; fold i; lia|lia].
  - apply wp_bind. apply advance_wrap; [rewrite HlenN; fold i; lia|rewrite HlenN; lia|].
    intros n' p Hsh' Hp Hi'. assert (shuffled n0 n') as Hsh2 by (etrans; [exact Hsh|done]).
    assert (length (list_ (n_memberlist n')) = N) as HlenN'.
    { unfold N. apply Permutation_length, (sh_list _ _ Hsh2). }
    assert (iter_ok n') as Hit' by (unfold iter_ok; rewrite Hi', HlenN'; lia).
    apply next_visit; [done|done|by eapply list_elem_of_lookup_2|done|].
    intros m Hm HV' Hao. apply next_second; [done|done|done|lia| |lia|lia].
    rewrite Hi'. simpl. destruct (list_ (n_memberlist n')) as [|p' l]; [done|]. simplify_eq/=.
    rewrite Hao. set_solver.
Qed.

Lemma Next_spec : iter_ok n0 → wp Next nextPost n0.
Proof.
  intros Hit. unfold Next. apply wp_bind, wp_gets. fold N. apply next_first; [done|done| | |lia].
  - split; [set_solver|]. set_solver.
  - unfold iter_ok in Hit. lia.
Qed.
End next.

(** C25: the iterator is sound, complete and terminates: within two passes over
    the list [Next] returns a member that is pingable, or, only when no member
    of the list is pingable, none.  It shuffles the list but changes no
    member, and leaves its index inside the list for the next call. *)
Theorem Next_finds_pingable n :
  ml_wf n → iter_ok n →
  ∃ r n', Next n = Some (r, n') ∧ shuffled n n' ∧ iter_ok n' ∧
    match r with
    | Some p => ∃ m, heap (n_memberlist n') !! p = Some m ∧ pingable (self n) (entry m) ∧
                     view n !! m_Address m = Some (mem_state m)
    | None => ∀ a st, view n !! a = Some st → ¬ pingable (self n) (a, st)
    end.
Proof.
  intros Hwf Hit. destruct (wp_run _ _ _ (Next_spec n Hwf Hit)) as (r & n' & Hrun & Hpost). by exists r, n'.
Qed.
