(* ===== verification/SyncProps.v ===== *)
(** * SyncProps: pings, full syncs and failure detection between nodes *)
From S2P Require Import Prelude GoStd NodeState Memberlist Disseminator Suspicion Rollup Membership.
From S2P Require Import MembershipSpec UpdateSpec SwimOrder DisseminatorSpec MemberIter Ping NodeCore.
From S2P Require Import SwimProps.
#[local] Open Scope Z_scope.

(** ** Full syncs *)
Lemma decision_upper e addr v c o :
  decision e addr v c o → c_Address c ≠ addr →
  ∃ st, put_opt v o !! c_Address c = Some st ∧ mle (cstate c) st.
Proof.
  intros Hd Ha. unfold decision in Hd. destruct (v !! c_Address c) as [ms|] eqn:Hv.
  - rewrite bool_decide_false in Hd by done. simpl in Hd. subst o. destruct (beats c ms) eqn:Hb; simpl.
    + exists (cstate c). split; [|done]. unfold put. by rewrite lookup_insert_eq.
    + exists ms. split; [done|]. by apply beats_false.
  - subst o. simpl. exists (cstate c). split; [|done]. unfold put. by rewrite lookup_insert_eq.
Qed.

Lemma absorbs_upper addr e v cs as_ v' c :
  absorbs addr e v cs as_ v' → c ∈ cs → c_Address c ≠ addr →
  ∃ st, v' !! c_Address c = Some st ∧ mle (cstate c) st.
Proof.
  intros H Hin Ha. induction H as [|r1 r2 r v c' o cs as_ v' Hd Hrest IH Hr]; [set_solver|].
  apply elem_of_cons in Hin as [<-|Hin]; [|by apply IH].
  destruct (decision_upper _ _ _ _ _ Hd Ha) as (st & Hst & Hle).
  destruct (absorbs_monotone _ _ _ _ _ _ _ _ Hrest Ha Hst) as (st' & ? & ?). exists st'. split; [done|]. by etrans.
Qed.

Lemma FullSync_run n :
  ml_wf n → ∃ cs, FullSync n = Some (cs, n) ∧ centry <$> cs ≡ₚ map_to_list (view n).
Proof.
  intros Hwf. assert (wp FullSync (λ cs n', n' = n ∧ centry <$> cs ≡ₚ map_to_list (view n)) n) as Hw
    by (apply FullSync_spec; done).
  destruct (wp_run _ _ _ Hw) as (cs & ? & ? & -> & ?). eauto.
Qed.

(** A full sync brings the receiver up to date: after a node has applied
    another node's full sync it knows every member the other knew, and about
    each of them, itself excepted, it holds a state at least as recent. *)
Theorem full_sync_catches_up na nb :
  node_inv na → node_inv nb → stopped (state nb) = false →
  ∃ cs applied nb', FullSync na = Some (cs, na) ∧ Update cs nb = Some (applied, nb') ∧
    ∀ a st, a ≠ self nb → view na !! a = Some st →
      ∃ st', view nb' !! a = Some st' ∧ mle st st'.
Proof.
  intros [Hwa Hva] [Hwb Hvb] Hs. destruct (FullSync_run na Hwa) as (cs & Hrun & Hcs).
  assert (∀ c, c ∈ cs → view na !! c_Address c = Some (cstate c)) as Hin.
  { intros c Hc. apply elem_of_map_to_list. rewrite <-Hcs. by apply (list_elem_of_fmap_2 centry). }
  assert (Forall valid_change cs) as Hvalid.
  { apply Forall_forall. intros c Hc. apply (Hva _ _ (Hin c Hc)). }
  destruct (wp_run _ _ _ (Update_spec cs nb Hwb Hvb Hvalid)) as (applied & nb' & Hrun' & Hpost).
  exists cs, applied, nb'. split_and!; [done|done|]. intros a st Ha Hst.
  assert ((a, st) ∈ centry <$> cs) as (c & [= -> ->] & Hc)%list_elem_of_fmap.
  { rewrite Hcs. by apply elem_of_map_to_list. }
  rewrite Hs in Hpost. simpl in Hpost. destruct (bool_decide (cs = [])) eqn:Hnil.
  - apply bool_decide_eq_true in Hnil. subst cs. by apply elem_of_nil in Hc.
  - eapply absorbs_upper; [apply Hpost|done|done].
Qed.

(** The changes of a full sync are what the sender believes. *)
Lemma FullSync_changes n :
  node_inv n → ∃ cs, FullSync n = Some (cs, n) ∧ Forall valid_change cs ∧
    ∀ a ms, view n !! a = Some ms ↔ ∃ c, c ∈ cs ∧ c_Address c = a ∧ ms = cstate c.
Proof.
  intros [Hwf Hv]. destruct (FullSync_run n Hwf) as (cs & Hrun & Hcs). exists cs. split; [done|].
  assert (∀ a ms, view n !! a = Some ms ↔ ∃ c, c ∈ cs ∧ c_Address c = a ∧ ms = cstate c) as Hin.
  { intros a ms. rewrite <-elem_of_map_to_list, <-Hcs, list_elem_of_fmap. unfold centry. naive_solver. }
  split; [|done]. apply Forall_forall. intros c Hc. apply (Hv (c_Address c) (cstate c)), Hin. eauto.
Qed.

(** Merging views that are at least as recent everywhere gives them. *)
Lemma merge_newer v v' cs :
  valid_view v → valid_view v' → (∀ a ms, v' !! a = Some ms ↔ ∃ c, c ∈ cs ∧ c_Address c = a ∧ ms = cstate c) →
  (∀ a ms, v !! a = Some ms → ∃ ms', v' !! a = Some ms' ∧ mle ms ms') → foldl merge v cs = v'.
Proof.
  intros Hv Hv' Hcs Hle. apply map_eq. intros a. destruct (v' !! a) as [x|] eqn:Hx.
  - assert (candidate v cs a x) as Hcand by (right; apply Hcs in Hx as (c & ? & ? & ?); eauto).
    destruct (proj1 (merges_known v cs a)) as [y Hy]; [eauto|]. rewrite Hy. f_equal.
    apply merges_candidate in Hy as [Hc Hmax]. assert (mle y x ∧ valid_status y.2) as [Hyx Hvy].
    { destruct Hc as [Hva|Hc%Hcs].
      - split; [|exact (Hv a y Hva)]. destruct (Hle a y Hva) as (z & Hz & Hyz). by assert (z = x) as -> by congruence.
      - assert (y = x) as -> by congruence. split; [done|exact (Hv' a x Hx)]. }
    apply mle_antisym; [done|exact (Hv' a x Hx)|done|by apply Hmax].
  - destruct (foldl merge v cs !! a) as [y|] eqn:Hy; [|done].
    apply merges_candidate in Hy as [[Hva|Hc%Hcs] _]; [|congruence]. destruct (Hle a y Hva) as (z & Hz & _). congruence.
Qed.

(** [v] does not hold [a] for suspect or faulty. *)
Definition trusted (v : gmap string mstate) (a : string) : Prop :=
  ∀ ms, v !! a = Some ms → ms.2 ≠ Suspect ∧ ms.2 ≠ Faulty.

Lemma trusted_harmless v cs a :
  (∀ a ms, v !! a = Some ms ↔ ∃ c, c ∈ cs ∧ c_Address c = a ∧ ms = cstate c) → trusted v a → Forall (harmless a) cs.
Proof.
  intros Hcs Ht. apply Forall_forall. intros c Hc Ha. destruct (Ht (cstate c)) as [H1 H2]; [apply Hcs; eauto|].
  unfold is_rumour. simpl in *. by rewrite !bool_decide_false.
Qed.

(** C22: full syncs in both directions make two nodes agree: when a node applies the
    full sync of another and answers with its own, both hold the same
    membership, at least as recent as either before, and the same checksum,
    provided neither believed one of the two suspect or faulty. *)
Theorem full_syncs_agree na nb :
  node_inv na → node_inv nb → stopped (state na) = false → stopped (state nb) = false →
  checksum_fresh na → checksum_fresh nb → fingerprint32 (env na) = fingerprint32 (env nb) →
  trusted (view na) (self na) → trusted (view na) (self nb) → trusted (view nb) (self na) →
  ∃ cs applied nb' cs' applied' na',
    FullSync na = Some (cs, na) ∧ Update cs nb = Some (applied, nb') ∧
    FullSync nb' = Some (cs', nb') ∧ Update cs' na = Some (applied', na') ∧
    view na' = view nb' ∧ ml_checksum (n_memberlist na') = ml_checksum (n_memberlist nb') ∧
    ∀ a ms, view na !! a = Some ms ∨ view nb !! a = Some ms → ∃ ms', view nb' !! a = Some ms' ∧ mle ms ms'.
Proof.
  intros Ha Hb Hsa Hsb Hfa Hfb Hfp Taa Tab Tba.
  destruct (FullSync_changes na Ha) as (cs & Hrun & Hval & Hcs).
  destruct (Update_merges cs nb Hb Hsb Hfb Hval) as (applied & nb' & Hup & Hb' & Hvb & Hfb' & Heb).
  { by apply (trusted_harmless (view na)). }
  assert (∀ a ms, candidate (view nb) cs a ms ↔ view na !! a = Some ms ∨ view nb !! a = Some ms) as Hcand.
  { intros a ms. unfold candidate. rewrite (Hcs a ms). tauto. }
  assert (∀ a ms, view na !! a = Some ms ∨ view nb !! a = Some ms → ∃ ms', view nb' !! a = Some ms' ∧ mle ms ms') as Hup'.
  { intros a ms Hms%Hcand. rewrite Hvb. destruct (proj1 (merges_known (view nb) cs a)) as [y Hy]; [eauto|].
    exists y. split; [done|]. by apply (merges_candidate _ _ _ _ Hy). }
  destruct (FullSync_changes nb' Hb') as (cs' & Hrun' & Hval' & Hcs').
  destruct (Update_merges cs' na Ha Hsa Hfa Hval') as (applied' & na' & Hup2 & _ & Hva & Hfa' & Hea).
  { apply (trusted_harmless (view nb')); [done|]. intros ms. rewrite Hvb. intros [Hc _]%merges_candidate.
    apply Hcand in Hc as [?|?]; [by apply Taa|by apply Tba]. }
  assert (view na' = view nb') as Heq.
  { rewrite Hva. apply merge_newer; [apply Ha|apply Hb'|done|]. intros a ms Hms. by apply Hup'; left. }
  exists cs, applied, nb', cs', applied', na'. split_and!; try done.
  rewrite Hfa', Hfb'. unfold view_checksum. by rewrite Heq, Hea, Heb, Hfp.
Qed.

(** ** Answering pings *)
Lemma record_wf cs d0 :
  (∀ a pc, d0 !! a = Some pc → c_Address (pc_Change pc) = a) →
  ∀ a pc, foldl record d0 cs !! a = Some pc → c_Address (pc_Change pc) = a.
Proof.
  revert d0. induction cs as [|c cs IH]; intros d0 Hd; simpl; [done|]. apply IH.
  intros a pc. unfold record. destruct (decide (c_Address c = a)) as [<-|].
  - rewrite lookup_insert_eq. by intros [= <-].
  - rewrite lookup_insert_ne by done. apply Hd.
Qed.

Lemma Update_dis_wf cs n :
  node_inv n → Forall valid_change cs → dis_wf (n_disseminator n) →
  wp (Update cs) (λ applied n', node_inv n' ∧ dis_wf (n_disseminator n') ∧ self n' = self n ∧
    state n' = state n) n.
Proof.
  intros [Hwf Hvv] Hcs Hd. eapply wp_mono; [by apply Update_spec|]. intros applied n' Hpost.
  destruct (stopped (state n)) eqn:Hs; simpl in Hpost.
  { destruct Hpost as [_ ->]. done. }
  case_bool_decide as Hnil.
  { destruct Hpost as [_ ->]. subst cs. done. }
  split_and!.
  - split; apply Hpost.
  - unfold dis_wf. rewrite (up_changes _ _ _ _ Hpost). by apply record_wf.
  - unfold self. by rewrite (up_config _ _ _ _ Hpost).
  - apply Hpost.
Qed.

(** The node when [handlePing] has reported and counted the request. *)
Definition pinged (req : ping) (n : Node) : Node :=
  let n := with_emitted n (emitted n ++
    ((λ l, (l, PingReceiveEvent (self n) (pi_Source req) (pi_Changes req))) <$> listeners n)) in
  with_rates n (serverRate n + 1) (totalRate n + 1).

(** [handlePing] on a node that is not ready only reports the request and
    fails; on a ready node it always answers: it applies the sender's changes
    as [Update] does, and replies with its own address, its checksum after that
    and the changes it then holds that the sender has not originated, or all members when it has none to tell and the
    sender's checksum differs. *)
Theorem handlePing_answers req n :
  node_inv n → dis_wf (n_disseminator n) → stopped (state n) = false →
  Forall valid_change (pi_Changes req) →
  (ready (state n) = false →
     ∃ n', handlePing req n = Some (inr ErrNodeNotReady, n') ∧ n' = with_emitted n (emitted n')) ∧
  (ready (state n) = true →
     ∃ res n' applied n1 full, handlePing req n = Some (inl res, n') ∧ node_inv n' ∧
       Update (pi_Changes req) (pinged req n) = Some (applied, n1) ∧ n_memberlist n' = n_memberlist n1 ∧
       pi_Source res = self n ∧ pi_Checksum res = ml_checksum (n_memberlist n') ∧
       answer n1 (pi_Source req) (pi_SourceIncarnation req) (pi_Checksum req) (pi_Changes res) full).
Proof.
  intros Hinv Hd Hs Hv. split; intros Hr.
  - assert (wp (handlePing req) (λ r n', r = inr ErrNodeNotReady ∧ n' = with_emitted n (emitted n')) n) as Hw.
    { unfold handlePing. apply wp_bind, wp_gets. rewrite Hr. simpl. apply wp_bind, wp_emit, wp_ret. done. }
    destruct (wp_run _ _ _ Hw) as (? & n' & ? & -> & ?). eauto.
  - assert (wp (handlePing req) (λ r n', ∃ res applied n1 full, r = inl res ∧ node_inv n' ∧
       Update (pi_Changes req) (pinged req n) = Some (applied, n1) ∧ n_memberlist n' = n_memberlist n1 ∧
       pi_Source res = self n ∧ pi_Checksum res = ml_checksum (n_memberlist n') ∧
       answer n1 (pi_Source req) (pi_SourceIncarnation req) (pi_Checksum req) (pi_Changes res) full) n) as Hw.
    { unfold handlePing. apply wp_bind, wp_gets. rewrite Hr. simpl. apply wp_bind, wp_gets, wp_bind, wp_emit.
      apply wp_bind, wp_modify, wp_bind. change (with_rates _ _ _) with (pinged req n).
      assert (node_inv (pinged req n) ∧ dis_wf (n_disseminator (pinged req n))) as [Hinv0 Hd0] by done.
      destruct (wp_run _ _ _ (Update_dis_wf (pi_Changes req) (pinged req n) Hinv0 Hv Hd0))
        as (applied & n1 & Hrun & Hinv1 & Hd1 & Hself1 & _). eapply wp_eq; [exact Hrun|].
      pose proof Hinv1 as [Hwf1 Hvv1].
      apply wp_bind. eapply wp_mono; [by apply IssueAsReceiver_spec|].
      intros [cs full] n2 [Han Hans]. simpl in Hans. apply wp_bind, wp_gets, wp_bind.
      assert (node_inv n2) as Hinv2.
      { unfold node_inv, ml_wf, view, self in *. rewrite (an_ml _ _ Han), (an_config _ _ Han). done. }
      apply Incarnation_spec; [apply Hinv2|]. intros i. apply wp_ret.
      eexists _, applied, n1, full. split_and!; [done|done|done|apply Han|done|done|done]. }
    destruct (wp_run _ _ _ Hw) as (? & n' & Hrun & res & applied & n1 & full & -> & H).
    by exists res, n', applied, n1, full.
Qed.
