(* ===== verification/Detection.v ===== *)
(** * Detection: a member that answers nobody is suspected

    While a node waits for its helpers it applies the changes that come with
    their answers, so what it believes when the last one has answered may be
    newer than what it believed when it began. *)
From S2P Require Import Prelude GoStd NodeState Memberlist Disseminator Suspicion Rollup Membership.
From S2P Require Import MembershipSpec UpdateSpec SwimOrder MemberIter Ping NodeCore SwimProps.
#[local] Open Scope Z_scope.

(** ** Operations that leave the membership alone *)
Record calm (n n' : Node) : Prop := {
  ca_config : config n' = config n;
  ca_state : state n' = state n;
  ca_ml : n_memberlist n' = n_memberlist n;
  ca_sus : n_suspicion n' = n_suspicion n;
  ca_env : env n' = env n
}.

#[global] Instance calm_refl : Reflexive calm.
Proof. by split. Qed.
#[global] Instance calm_trans : Transitive calm.
Proof. intros x y z [] []. split; congruence. Qed.

Lemma calm_wf n n' : calm n n' → ml_wf n → ml_wf n'.
Proof. intros []. unfold ml_wf, self. by rewrite ca_config0, ca_ml0. Qed.
Lemma calm_view n n' : calm n n' → view n' = view n.
Proof. intros []. unfold view. by rewrite ca_ml0. Qed.
Lemma calm_self n n' : calm n n' → self n' = self n.
Proof. intros []. unfold self. by rewrite ca_config0. Qed.

Create HintDb calm.

(** [m] leaves a consistent membership alone, in a world with [E]. *)
Definition calmly (E : Env → Prop) {A} (m : SW A) : Prop :=
  ∀ n, ml_wf n → E (env n) → wp m (λ _, calm n) n.

Section calmly.
Context (E : Env → Prop).

Lemma calmly_ret {A} (a : A) : calmly E (mret a).
Proof. intros n _ _. by apply wp_ret. Qed.
Lemma calmly_gets {A} (f : Node → A) : calmly E (gets f).
Proof. intros n _ _. by apply wp_gets. Qed.
Lemma calmly_sample {A} (s : Env → nat → A) : calmly E (sample s).
Proof. intros n _ _. by apply wp_sample. Qed.
Lemma calmly_emit e : calmly E (emit e).
Proof. intros n _ _. by apply wp_emit. Qed.
Lemma calmly_bind {A B} (m : SW A) (f : A → SW B) : calmly E m → (∀ a, calmly E (f a)) → calmly E (m ≫= f).
Proof.
  intros Hm Hf n Hwf He. apply wp_bind. eapply wp_mono; [exact (Hm n Hwf He)|]. intros a n1 H1.
  eapply wp_mono; [apply Hf; [exact (calm_wf _ _ H1 Hwf)|by rewrite (ca_env _ _ H1)]|]. intros b n2 H2. by trans n1.
Qed.
Lemma calmly_bump cs : calmly E (bumpPiggybackCounters cs).
Proof. intros n _ _. by apply wp_modify. Qed.
Lemma calmly_Incarnation : calmly E Incarnation.
Proof.
  intros n Hwf _. destruct (wf_local _ _ Hwf) as (p & m & Hp & Hm & _). unfold Incarnation.
  apply wp_bind, wp_gets. rewrite Hp. apply wp_bind. eapply wp_deref; [exact Hm|]. by apply wp_ret.
Qed.
Lemma calmly_when b (m : SW unit) : calmly E m → calmly E (when b m).
Proof. intros Hm. destruct b; [done|apply calmly_ret]. Qed.
End calmly.

#[export] Hint Resolve calmly_ret calmly_gets calmly_sample calmly_emit calmly_bind calmly_bump calmly_Incarnation
  calmly_when : calm.
Ltac calm := unfold preparePing, preparePingRequest, pingSucceeded, IssueAsSender, issueChanges, Checksum, Address, now, order;
  repeat first [simple apply calmly_bind; [solve [auto with calm]|intros ?] | simple apply calmly_when | solve [auto with calm]].

(** ** The world: nobody reaches the target *)
Definition no_reply (e : Env) : Prop := ∀ k r, pings e k ≠ Replied r.
(** No helper reaches the target; the changes that come with the answers have known
    statuses. *)
Definition no_help (e : Env) : Prop :=
  ∀ k r, pingReqs e k = Replied r → ps_Ok r = false ∧ Forall valid_change (ps_Changes r).
(** None of them is about [a]. *)
Definition no_news (a : string) (e : Env) : Prop :=
  ∀ k r, pingReqs e k = Replied r → Forall (λ c, c_Address c ≠ a) (ps_Changes r).

(** ** Members stay where they are

    Update never takes a member out of the list or moves it to another object. *)
Definition linked (n n' : Node) : Prop := byAddress (n_memberlist n) ⊆ byAddress (n_memberlist n').
Definition links {A} (m : SW A) : Prop := ∀ n a n', m n = Some (a, n') → linked n n'.

#[global] Instance linked_refl : Reflexive linked.
Proof. intros n. unfold linked. reflexivity. Qed.
#[global] Instance linked_trans : Transitive linked.
Proof. intros x y z Hxy Hyz. unfold linked in *. by etrans. Qed.

Lemma links_ret {A} (a : A) : links (mret a).
Proof. intros n ? n' [= _ ->]. done. Qed.
Lemma links_panic {A} : links (panic : SW A).
Proof. by intros n a n' ?. Qed.
Lemma links_gets {A} (f : Node → A) : links (gets f).
Proof. intros n ? n' [= _ ->]. done. Qed.
Lemma links_sample {A} (f : Env → nat → A) : links (sample f).
Proof. intros n ? n' [= _ <-]. exact (linked_refl n). Qed.
Lemma links_deref p : links (deref p).
Proof. intros n m n' H. unfold deref in H. by repeat case_match; simplify_eq. Qed.
Lemma links_newMember m : links (newMember m).
Proof. intros n ? n' [= _ <-]. exact (linked_refl n). Qed.
Lemma links_modify f : (∀ n, byAddress (n_memberlist (f n)) = byAddress (n_memberlist n)) → links (modify f).
Proof. intros Hf n [] n' [= <-]. unfold linked. rewrite Hf. reflexivity. Qed.
Lemma links_bind {A B} (m : SW A) (f : A → SW B) : links m → (∀ a, links (f a)) → links (m ≫= f).
Proof.
  intros Hm Hf n b n' H. unfold mbind, M_bind in H. destruct (m n) as [[a n1]|] eqn:Hmn; [|done].
  trans n1; [by eapply Hm|by eapply Hf].
Qed.
Lemma links_for_each {A} (l : list A) (body : A → SW unit) : (∀ x, links (body x)) → links (for_each l body).
Proof. intros Hb. induction l; simpl; [apply links_ret|]. by apply links_bind. Qed.

Create HintDb links.
#[export] Hint Resolve links_ret links_panic links_gets links_sample links_deref links_newMember : links.
Ltac links_step :=
  lazymatch goal with
  | |- links (mbind _ _) => apply links_bind; [|intros ?]
  | |- links (modify _) => apply links_modify; intros ?; reflexivity
  | |- links (for_each _ _) => apply links_for_each; intros ?
  | |- links (when ?b _) => destruct b; simpl
  | |- links (let _ := _ in _) => cbv zeta
  | |- links (match ?x with _ => _ end) => destruct x
  end.
Ltac solve_links := unfold emit, now, intn, modify_ml, modify_dis, modify_sus, modify_rol; repeat (solve [auto with links] || links_step).

Lemma links_memberFor c : links (memberFor c).
Proof.
  intros n p n' H. unfold memberFor, Member_ in H. unfold mbind at 1, M_bind in H. simpl in H.
  destruct (byAddress (n_memberlist n) !! c_Address c) as [q|] eqn:Hn; [by injection H as _ <-|].
  unfold mbind at 1, M_bind in H. unfold mbind at 1, M_bind in H. simpl in H.
  set (n1 := with_memberlist n _) in H. set (q := fresh _) in H. unfold mbind at 1, M_bind in H.
  assert (∃ n2, when (bool_decide (c_Address c = n_address (config n))) (modify_ml (set_local (Some q))) n1 = Some (tt, n2) ∧
    byAddress (n_memberlist n2) = byAddress (n_memberlist n)) as (n2 & Hn2 & Hb2).
  { destruct (bool_decide _); simpl; by eexists. }
  rewrite Hn2 in H. unfold mbind at 1, M_bind in H. simpl in H. set (n3 := with_memberlist n2 _) in H.
  assert (linked n n3) as H3.
  { unfold linked, n3. simpl. rewrite Hb2. by apply insert_subseteq. }
  trans n3; [done|]. revert H. apply links_bind; [unfold getJoinPosition; solve_links|intros i]. solve_links.
Qed.
#[export] Hint Resolve links_memberFor : links.
Lemma links_updateLoop cs : links (updateLoop cs).
Proof. induction cs; simpl; [solve_links|]. unfold updateOne, Apply, Member_, Address, nowInMillis, orPanic. solve_links. Qed.
#[export] Hint Resolve links_updateLoop : links.
Lemma links_deref_all l : links (deref_all l).
Proof. induction l; simpl; solve_links. Qed.
#[export] Hint Resolve links_deref_all : links.
Lemma links_countPingable l k : links (countPingable l k).
Proof. revert k. induction l; intros k; simpl; unfold Pingable; solve_links. Qed.
#[export] Hint Resolve links_countPingable : links.

Lemma links_Update cs : links (Update cs).
Proof.
  unfold Update, NodeState.Stopped, Checksum, ComputeChecksum, GenChecksumString, GetMembers, NumMembers, handleChanges,
    handleChange, RecordChange, Stop, Start, AdjustMaxPropagations, NumPingableMembers, Address, TrackUpdates, FlushBuffer,
    RenewFlushTimer, AddUpdates. solve_links.
Qed.

(** ** What hearing from helpers does *)
Record heard (a : string) (n n' : Node) : Prop := {
  he_config : config n' = config n;
  he_state : state n' = state n;
  he_env : env n' = env n;
  he_inv : node_inv n';
  he_sus : suspicion_ok n';
  he_linked : linked n n';
  he_forward : a ≠ self n → ∀ ms, view n !! a = Some ms → ∃ ms', view n' !! a = Some ms' ∧ mle ms ms';
  he_same : no_news a (env n) → view n' !! a = view n !! a
}.

Lemma heard_self a n n' : heard a n n' → self n' = self n.
Proof. intros Hh. unfold self. by rewrite (he_config _ _ _ Hh). Qed.

Lemma calm_heard a n n' : node_inv n → suspicion_ok n → calm n n' → heard a n n'.
Proof.
  intros [Hwf Hv] Hs Hc. pose proof (calm_view _ _ Hc) as Hview. split; try apply Hc.
  - split; [exact (calm_wf _ _ Hc Hwf)|by rewrite Hview].
  - unfold suspicion_ok. by rewrite (ca_sus _ _ Hc), (calm_self _ _ Hc), Hview.
  - unfold linked. by rewrite (ca_ml _ _ Hc).
  - intros _ ms Hms. exists ms. by rewrite Hview.
  - by rewrite Hview.
Qed.

Lemma heard_trans a x y z : heard a x y → heard a y z → heard a x z.
Proof.
  intros Hxy Hyz. pose proof (heard_self _ _ _ Hxy) as Hself. pose proof (he_env _ _ _ Hxy) as He.
  destruct Hxy as [? ? ? _ _ Hl1 Hf1 Hs1], Hyz as [? ? ? Hi2 Hsu2 Hl2 Hf2 Hs2]. split; try congruence; try done.
  - by trans y.
  - intros Ha ms Hms. destruct (Hf1 Ha ms Hms) as (ms1 & H1 & ?). destruct (Hf2 ltac:(congruence) ms1 H1) as (ms2 & ? & ?).
    exists ms2. split; [done|]. by trans ms1.
  - intros Hn. rewrite Hs2 by (by rewrite He). by apply Hs1.
Qed.

Lemma Update_heard a cs n :
  node_inv n → suspicion_ok n → Forall valid_change cs → (no_news a (env n) → Forall (λ c, c_Address c ≠ a) cs) →
  wp (Update cs) (λ _, heard a n) n.
Proof.
  intros Hi Hs Hcs Hnews. pose proof Hi as [Hwf Hv].
  destruct (wp_run _ _ _ (Update_spec cs n Hwf Hv Hcs)) as (applied & n' & Hrun & Hpost).
  pose proof (links_Update _ _ _ _ Hrun) as Hlink. unfold wp. rewrite Hrun.
  destruct (stopped (state n) || bool_decide (cs = [])).
  { destruct Hpost as [_ ->]. by apply calm_heard. }
  pose proof (up_abs _ _ _ _ Hpost) as Habs. split; try apply Hpost; [split; apply Hpost|by eapply updated_suspicion_ok|done| |].
  - intros Ha ms Hms. by eapply absorbs_monotone.
  - intros Hn. eapply absorbs_outside; [exact Habs|]. intros (c & -> & Hc)%list_elem_of_fmap. specialize (Hnews Hn). rewrite Forall_forall in Hnews. by apply (Hnews c).
Qed.

(** Running a calm operation first. *)
Lemma calm_step {A B} (m : SW A) (f : A → SW B) Q n k :
  calmly (λ _, True) m → ml_wf n → calm n k → (∀ a k', calm n k' → wp (f a) Q k') → wp (m ≫= f) Q k.
Proof.
  intros Hm Hwf Hk Hf. apply wp_bind. eapply wp_mono; [apply Hm; [exact (calm_wf _ _ Hk Hwf)|done]|].
  intros a k' Hk'. apply Hf. by trans k.
Qed.

Lemma calm_tick n k t : calm n k → calm n (with_tick k t).
Proof. by intros []. Qed.

(** Take one calm step, whatever it returns. *)
Ltac calm_step := eapply calm_step; [solve [calm]|eassumption|eassumption|]; intros ? ? ?.

Lemma sendPing_fails t n :
  ml_wf n → no_reply (env n) → wp (sendPing t) (λ r n', calm n n' ∧ ∃ e, r = inr e) n.
Proof.
  intros Hwf He. pose proof (calm_refl n) as H0. unfold sendPing. do 2 calm_step.
  apply wp_bind, wp_sample. rewrite (ca_env n) by done. match goal with H : calm n ?k |- wp _ _ (with_tick ?k ?t) => 
    pose proof (calm_tick _ _ t H) as Hk end.
  destruct (pings _ _) as [r| |late] eqn:Hp; [by apply He in Hp|apply wp_ret; eauto|].
  calm_step. apply wp_ret. eauto.
Qed.

(** ** One helper *)

(** Helpers that can be reached, and say that the target cannot. *)
Definition all_reply (e : Env) : Prop := ∀ k, ∃ r, pingReqs e k = Replied r.

Definition refused (e : Env) (r : result pingResponse) : Prop :=
  (∀ x, r = inl x → ps_Ok x = false) ∧ (all_reply e → ∃ x, r = inl x).

Lemma SendPingRequest_fails a peer t n :
  node_inv n → suspicion_ok n → no_help (env n) →
  wp (SendPingRequest peer t) (λ r n', heard a n n' ∧ refused (env n) r) n.
Proof.
  intros Hi Hs He. pose proof Hi as [Hwf _]. pose proof (calm_refl n) as H0. unfold SendPingRequest. calm_step.
  apply wp_bind, wp_sample. rewrite (ca_env n) by done. match goal with H : calm n ?k |- wp _ _ (with_tick ?k ?t) =>
    pose proof (calm_tick _ _ t H) as Hk; destruct (pingReqs (env n) (tick k)) as [r| |late] eqn:Hp end.
  - pose proof (He _ _ Hp) as [Hok Hval]. pose proof (calm_heard a _ _ Hi Hs Hk) as Hh. apply wp_bind.
    eapply wp_mono; [apply (Update_heard a); [apply Hh|apply Hh|done|]|].
    { intros Hn. eapply Hn. rewrite (ca_env _ _ Hk). exact Hp. }
    intros ? n2 H2. apply wp_ret. split; [exact (heard_trans _ _ _ _ Hh H2)|]. split; [by intros x [= <-]|by eexists].
  - calm_step. apply wp_ret. split; [by apply calm_heard|]. split; [done|]. intros Hall. edestruct Hall as [r Hr]. by rewrite Hp in Hr.
  - calm_step. apply wp_ret. split; [by apply calm_heard|]. split; [done|]. intros Hall. edestruct Hall as [r Hr]. by rewrite Hp in Hr.
Qed.

(** What is calm does not matter. *)
Lemma heard_calmly {A} a (m : SW A) n (Q : A → Node → Prop) :
  calmly (λ _, True) m → node_inv n → suspicion_ok n → (∀ x n', heard a n n' → Q x n') → wp m Q n.
Proof.
  intros Hm Hi Hs HQ. eapply wp_mono; [apply Hm; [apply Hi|done]|]. intros x n' Hc. by apply HQ, calm_heard.
Qed.

Lemma calmly_reportHelper t peers peer st b : calmly (λ _, True) (reportHelper t peers peer st b).
Proof. unfold reportHelper. destruct b; calm. Qed.

Lemma pingVia_fails a t peers peer n :
  node_inv n → suspicion_ok n → no_help (env n) →
  wp (pingVia t peers peer) (λ r n', heard a n n' ∧ refused (env n) r) n.
Proof.
  intros Hi Hs He. unfold pingVia. apply wp_bind, (heard_calmly a); [calm|done|done|]. intros st n1 H1.
  apply wp_bind. eapply wp_mono; [apply (SendPingRequest_fails a); [apply H1|apply H1|by rewrite (he_env _ _ _ H1)]|].
  rewrite (he_env _ _ _ H1). intros r n2 [H2 Hr]. pose proof (heard_trans _ _ _ _ H1 H2) as H12.
  apply wp_bind, (heard_calmly a); [apply calmly_reportHelper|apply H2|apply H2|]. intros [] n3 H3. apply wp_ret.
  split; [exact (heard_trans _ _ _ _ H12 H3)|done].
Qed.

Lemma helpers_fail a t peers l n :
  node_inv n → suspicion_ok n → no_help (env n) →
  wp (mapM_ (pingVia t peers) l) (λ rs n', heard a n n' ∧ length rs = length l ∧ Forall (refused (env n)) rs) n.
Proof.
  revert n. induction l as [|p l IH]; intros n Hi Hs He; simpl; [apply wp_ret; split; [by apply calm_heard|by repeat constructor]|].
  apply wp_bind. eapply wp_mono; [by apply (pingVia_fails a)|]. intros r n1 [H1 Hr].
  apply wp_bind. eapply wp_mono; [apply IH; [apply H1|apply H1|by rewrite (he_env _ _ _ H1)]|].
  rewrite (he_env _ _ _ H1). intros rs n2 (H2 & Hl & Hrs).
  apply wp_ret. split_and!; [exact (heard_trans _ _ _ _ H1 H2)|simpl; by f_equal|by constructor].
Qed.

(** ** The helpers *)

(** The members that can be asked about [a]. *)
Definition helper (addr a : string) (x : string * mstate) : Prop := pingable addr x ∧ x.1 ≠ a.
#[global] Instance helper_dec addr a x : Decision (helper addr a x).
Proof. unfold helper. apply _. Defined.
Definition helpers (addr a : string) (v : gmap string mstate) : Z :=
  Z.of_nat (length (filter (helper addr a) (map_to_list v))).

Lemma filterPingable_spec l a n (Q : list loc → Node → Prop) :
  ml_wf n → (∀ p, p ∈ l → is_Some (heap (n_memberlist n) !! p)) →
  (∀ ms l', Forall2 (λ p m, heap (n_memberlist n) !! p = Some m) l ms → l' ⊆ l →
     length l' = length (filter (helper (self n) a) (entry <$> ms)) → Q l' n) →
  wp (filterPingable l {[a]}) Q n.
Proof.
  intros Hwf. revert Q. induction l as [|p l IH]; intros Q Hl HQ; simpl.
  { apply wp_ret. by apply (HQ [] []). }
  destruct (Hl p) as [m Hm]; [set_solver|]. apply wp_bind. eapply wp_deref; [exact Hm|].
  apply wp_bind, Pingable_spec; [done|]. apply wp_bind, IH; [set_solver|]. intros ms l' Hms Hsub Hlen. apply wp_ret.
  assert (bool_decide (pingable (self n) (entry m)) && bool_decide (m_Address m ∉ ({[a]} : gset string)) =
    bool_decide (helper (self n) a (entry m))) as ->.
  { rewrite <-bool_decide_and. apply bool_decide_ext. unfold helper. simpl. set_solver. }
  apply (HQ (m :: ms)); [by constructor|case_bool_decide; set_solver|]. simpl. rewrite filter_cons.
  case_bool_decide as Hb; [rewrite decide_True by done|rewrite decide_False by done]; simpl; [by rewrite Hlen|done].
Qed.

Lemma RandomPingableMembers_spec size a n :
  ml_wf n → 0 ≤ size →
  wp (RandomPingableMembers size {[a]}) (λ l n', n' = with_tick n (S (tick n)) ∧ (∀ p, p ∈ l → is_Some (heap (n_memberlist n) !! p)) ∧
    Z.of_nat (length l) = Z.min size (helpers (self n) a (view n))) n.
Proof.
  intros Hwf Hs. unfold RandomPingableMembers.
  apply wp_bind, wp_gets, wp_bind, filterPingable_spec; [done|by intros; apply wf_deref|].
  intros ms l Hms Hsub Hlen. apply wp_bind. unfold shuffle. apply wp_bind, wp_order, wp_ret.
  set (l' := arrange _ l). assert (l' ≡ₚ l) as Hp by apply arrange_perm.
  assert (Z.of_nat (length l') = helpers (self n) a (view n)) as Hl'.
  { rewrite Hp, Hlen. unfold helpers, view. by rewrite (entries_view _ _ _ Hwf Hms). }
  assert (∀ p, p ∈ l' → is_Some (heap (n_memberlist n) !! p)) as Hin.
  { intros p Hpin. apply wf_deref; [done|]. apply Hsub. by rewrite <-Hp. }
  case_bool_decide; [apply wp_ret; split_and!; [done|done|lia]|]. rewrite bool_decide_false by lia.
  apply wp_ret. split_and!; [done| |rewrite length_take; lia].
  intros p Hpin. apply Hin. eapply elem_of_take in Hpin as (i & Hi & _). by apply list_elem_of_lookup_2 in Hi.
Qed.

Lemma awaitResults_refused e rs errs :
  Forall (refused e) rs →
  (awaitResults rs errs).1 = false ∧ (length (awaitResults rs errs).2 ≤ length errs + length rs)%nat ∧
  (all_reply e → (awaitResults rs errs).2 = errs).
Proof.
  intros Hrs. revert errs. induction Hrs as [|r rs [Hno Hall] _ IH]; intros errs; simpl; [split_and!; [done|lia|done]|].
  destruct r as [x|err].
  - rewrite (Hno x) by done. destruct (IH errs) as (? & ? & ?). split_and!; [done|lia|done].
  - destruct (IH (errs ++ [err])) as (? & Hl & _). rewrite length_app in Hl. simpl in Hl.
    split_and!; [done|lia|]. intros Hr. by destruct (Hall Hr).
Qed.

Lemma chooseHelpers_spec a size n :
  ml_wf n → 0 ≤ size →
  wp (chooseHelpers a size) (λ r n', calm n n' ∧
    Z.of_nat (length r.2) = Z.min size (helpers (self n) a (view n))) n.
Proof.
  intros Hwf Hs. unfold chooseHelpers.
  apply wp_bind. eapply wp_mono; [by apply RandomPingableMembers_spec|]. intros ps n1 (-> & Hps & Hlen).
  pose proof (calm_tick n n (S (tick n)) (calm_refl n)) as H1. apply wp_bind, deref_all_spec; [done|]. intros ms Hms. calm_step. calm_step. calm_step.
  apply wp_ret. split; [done|]. simpl. rewrite arrange_perm, length_fmap, <-Hlen. f_equal. symmetry.
  by apply Forall2_length in Hms.
Qed.

Lemma indirectPing_fails a size n :
  node_inv n → suspicion_ok n → no_help (env n) → 0 ≤ size →
  wp (indirectPing a size) (λ r n', heard a n n' ∧ r.1 = false ∧
    Z.of_nat (length r.2) ≤ Z.min size (helpers (self n) a (view n)) ∧ (all_reply (env n) → r.2 = [])) n.
Proof.
  intros Hi Hsu He Hs. unfold indirectPing, sendPingRequests. apply wp_bind, wp_bind.
  eapply wp_mono; [apply chooseHelpers_spec; [apply Hi|done]|]. intros [ps l] n1 [Hc Hlen]. simpl in Hlen.
  pose proof (calm_heard a _ _ Hi Hsu Hc) as H1.
  eapply wp_mono; [apply (helpers_fail a); [apply H1|apply H1|by rewrite (he_env _ _ _ H1)]|]. rewrite (he_env _ _ _ H1).
  intros rs n2 (H2 & Hl & Hrs). apply wp_ret. destruct (awaitResults_refused _ _ [] Hrs) as (? & Hle & ?). simpl in Hle.
  split_and!; [exact (heard_trans _ _ _ _ H1 H2)|done|lia|done].
Qed.

(** ** The ping *)
Lemma MakeSuspect_spec a i n :
  node_inv n → stopped (state n) = false → wp (MakeSuspect a i) (made a i Suspect n) n.
Proof.
  intros Hinv Hs. unfold MakeSuspect. apply wp_bind, wp_emit. set (n0 := with_emitted _ _).
  assert (same_core n n0) as Hsc by done.
  eapply wp_mono; [apply MakeChange_spec; [done|by eexists|done]|].
  intros applied n' (c & n1 & Hsc1 & H). exists c, n1. split; [|done]. destruct Hsc, Hsc1. split; congruence.
Qed.

(** The member [a] has become suspect, with a timer for its incarnation. *)
Definition suspected (a : string) (i : Z) (n' : Node) : Prop :=
  view n' !! a = Some (i, Suspect) ∧ timers (n_suspicion n') !! a = Some (mkTimer a i).

(** A member that is believed in [ms], when it is suspected with the incarnation
    that it is believed in. *)
Lemma suspectMember_spec p a ms n :
  node_inv n → suspicion_ok n → stopped (state n) = false → a ≠ self n →
  byAddress (n_memberlist n) !! a = Some p → view n !! a = Some ms →
  wp (suspectMember p) (λ _ n', suspicion_ok n' ∧
    view n' !! a = Some (if bool_decide (ms.2 = Alive) then (ms.1, Suspect) else ms) ∧
    (ms.2 = Alive → timers (n_suspicion n') !! a = Some (mkTimer a ms.1))) n.
Proof.
  intros Hi Hsus Hst Ha Hp Hv. pose proof Hi as [Hwf Hvv]. destruct (wf_heap _ _ Hwf _ _ Hp) as (m & Hm & Hma).
  assert (m_Incarnation m = ms.1) as Hmi.
  { unfold view in Hv. rewrite lookup_view, Hp in Hv. simpl in Hv. rewrite Hm in Hv. by simplify_eq/=. }
  unfold suspectMember. apply wp_bind. eapply wp_deref; [exact Hm|]. rewrite Hma, Hmi. apply wp_bind.
  eapply wp_mono; [by apply MakeSuspect_spec|]. intros applied n' Hmade. apply wp_ret.
  destruct (made_other _ _ _ _ _ _ ms Hmade Ha Hv) as [Hv' Ht'].
  assert (beats (mkChange "" 0 a ms.1 Suspect 0) ms = bool_decide (ms.2 = Alive)) as Hb.
  { destruct (Hvv a ms Hv) as [q Hq]. unfold beats, precedence. simpl. rewrite Hq.
    rewrite (bool_decide_false (ms.1 < ms.1)), (bool_decide_true (ms.1 = ms.1)) by lia. simpl.
    revert Hq. unfold statePrecedence. repeat case_bool_decide; intros [= <-]; simpl; try done; congruence. }
  rewrite Hb in Hv', Ht'. split_and!; [|by case_bool_decide|].
  - destruct Hmade as (c & n1 & Hsc & _ & _ & Hcs & Hu). eapply updated_suspicion_ok; [| |exact Hu].
    + unfold suspicion_ok. by rewrite (sc_sus _ _ Hsc), (same_core_self _ _ Hsc), (same_core_view _ _ Hsc).
    + constructor; [|done]. unfold valid_change. rewrite Hcs. by eexists.
  - intros Hal. rewrite Ht', bool_decide_true by done. destruct Hsus as [Hen Hok].
    unfold suspects. simpl. rewrite Hen, (bool_decide_true (self n ≠ a)) by done. simpl.
    assert (timers (n_suspicion n) !! a = None) as Hnone.
    { apply eq_None_not_Some. rewrite (Hok a), Hv. intros (_ & i' & [= ->]). done. }
    rewrite bool_decide_true by done. by rewrite lookup_insert_eq.
Qed.

(** C18: failures are detected: a running node, with suspicion enabled and at least
    one helper configured, pings a member that it believes alive with
    incarnation [i]; neither the ping nor the ping requests of the
    helpers get through to the member, while the helpers that answer may tell
    any news of known statuses, which the node applies.  Then pinging does not
    panic; it asks so many helpers as are configured, or as there are.  If the
    number of helpers that failed is the configured number, that is all;
    otherwise the member ends up suspect with a timer for [i] if the helpers
    brought no news about it, and in any case not alive but at least as far as
    suspect with incarnation [i].  So the member is suspected whenever the
    helpers can be reached, and also, although nobody could be asked, when
    there are fewer helpers than the configured number. *)
Theorem unreachable_is_suspected p a i n :
  let size := pingRequestSize (config n) in
  node_inv n → suspicion_ok n → stopped (state n) = false → 0 < size →
  byAddress (n_memberlist n) !! a = Some p → a ≠ self n → view n !! a = Some (i, Alive) →
  no_reply (env n) → no_help (env n) →
  ∃ e errs n1 n2 n', sendPing a n = Some (inr e, n1) ∧ indirectPing a size n1 = Some ((false, errs), n2) ∧
    Z.of_nat (length errs) ≤ Z.min size (helpers (self n) a (view n)) ∧ (all_reply (env n) → errs = []) ∧
    pingMember p n = Some (tt, n') ∧
    if bool_decide (Z.of_nat (length errs) = size) then n' = n2
    else (no_news a (env n) → suspected a i n') ∧ suspicion_ok n' ∧
      ∃ ms, view n' !! a = Some ms ∧ ms.2 ≠ Alive ∧ mle (i, Suspect) ms.
Proof.
  intros size Hinv Hsus Hst Hsz Hp Ha Hv Hping Hreq. pose proof Hinv as [Hwf _].
  destruct (wf_heap _ _ Hwf _ _ Hp) as (m & Hm & Hma).
  destruct (wp_run _ _ _ (sendPing_fails a n Hwf Hping)) as (r & n1 & Hrun1 & Hc1 & e & ->).
  pose proof (calm_heard a _ _ Hinv Hsus Hc1) as H1.
  destruct (wp_run _ _ _ (indirectPing_fails a size n1 (he_inv _ _ _ H1) (he_sus _ _ _ H1)
    ltac:(by rewrite (he_env _ _ _ H1)) ltac:(lia))) as ([reached errs] & n2 & Hrun2 & H12 & Hno & Hle & Hall).
  simpl in Hno, Hle, Hall. subst reached. pose proof (heard_trans _ _ _ _ H1 H12) as H2.
  rewrite (calm_self _ _ Hc1), (calm_view _ _ Hc1) in Hle. rewrite (he_env _ _ _ H1) in Hall.
  exists e, errs, n1, n2.
  assert (pingMember p n = (if bool_decide (Z.of_nat (length errs) = size) then mret tt else suspectMember p) n2) as Hpm.
  { unfold pingMember, deref, mbind, M_bind. rewrite Hm, Hma, Hrun1. unfold gets. rewrite (he_config _ _ _ H1).
    fold size. rewrite Hrun2. by destruct (bool_decide _). }
  rewrite Hpm. case_bool_decide as Herr; [exists n2; by split_and!|].
  destruct (he_forward _ _ _ H2 Ha _ Hv) as (ms & Hms & Hle').
  assert (byAddress (n_memberlist n2) !! a = Some p) as Hp2 by (by eapply lookup_weaken, (he_linked _ _ _ H2)).
  destruct (wp_run _ _ _ (suspectMember_spec p a ms n2 (he_inv _ _ _ H2) (he_sus _ _ _ H2)
    ltac:(by rewrite (he_state _ _ _ H2)) ltac:(by rewrite (heard_self _ _ _ H2)) Hp2 Hms)) as ([] & n' & Hrun3 & Hs3 & Hv3 & Ht3).
  exists n'. split_and!; [done|done|done|done|done| |done|].
  - intros Hn. pose proof (eq_trans (eq_sym Hms) (eq_trans (he_same _ _ _ H2 Hn) Hv)) as [= ->]. by split; [|apply Ht3].
  - exists (if bool_decide (ms.2 = Alive) then (ms.1, Suspect) else ms). split; [done|].
    pose proof (proj2 (he_inv _ _ _ H2) a ms Hms) as [q Hq].
    revert Hle'. unfold mle, precedence. simpl. case_bool_decide as Hal; simpl; [split; [done|]; lia|].
    split; [done|]. rewrite Hq in *. revert Hq. unfold statePrecedence.
    rewrite (bool_decide_false (ms.2 = Alive)) by done. repeat case_bool_decide; intros [= <-]; simpl in *; lia.
Qed.
