(* ===== verification/Samples.v ===== *)
(** * Samples: a new node, and concrete nodes to evaluate the theorems on

    A node that has just been created has no local member; its first
    reincarnation creates one, after which the invariant of a running node
    holds.  The sample nodes are built by running the operations of the model
    from there. *)
From S2P Require Import Prelude GoStd NodeState Memberlist Disseminator Suspicion Rollup Membership.
From S2P Require Import Frames Advances MembershipSpec UpdateSpec SwimOrder MemberIter Ping NodeCore SwimProps.
From S2P Require Import DisseminatorSpec SyncProps.
#[local] Open Scope Z_scope.

(** What a node that has not been stopped satisfies after joining itself. *)
Definition running (n : Node) : Prop :=
  node_inv n ∧ stopped (state n) = false ∧ suspicion_ok n ∧ checksum_fresh n ∧ dis_wf (n_disseminator n).

Lemma updated_running cs applied n n' :
  Forall valid_change cs → updated cs applied n n' → stopped (state n) = false → suspicion_ok n →
  dis_wf (n_disseminator n) → applied ≠ [] ∨ checksum_fresh n → running n'.
Proof.
  intros Hcs Hu Hs [Hen Hok] Hd Hf. pose proof (up_abs _ _ _ _ Hu) as Habs. split_and!.
  - split; apply Hu.
  - by rewrite (up_state _ _ _ _ Hu).
  - unfold suspicion_ok, self in *.
    rewrite (up_enabled _ _ _ _ Hu), (up_timers _ _ _ _ Hu), (up_config _ _ _ _ Hu), Hen. split; [done|].
    rewrite (absorbs_puts _ _ _ _ _ _ Habs). apply timers_fold; [|done]. by eapply absorbs_valid.
  - destruct Hf as [Hne|Hf]; [|by eapply updated_fresh]. unfold checksum_fresh.
    rewrite (up_checksum _ _ _ _ Hu). by rewrite bool_decide_false.
  - unfold dis_wf. rewrite (up_changes _ _ _ _ Hu). by apply record_wf.
Qed.

(** The member list of a node that only has its local member. *)
Lemma alone_wf addr p st inc ck :
  wf addr (mkMemberlist {[p := mkMember addr st inc]} (Some p) [] ∅ ck).
Proof.
  split; simpl; [constructor| |done| |done].
  - intros q. split; [by intros ?%elem_of_nil|]. intros [a Ha]. done.
  - exists p, (mkMember addr st inc). by rewrite lookup_singleton_eq.
Qed.

(** The parts of a node that a reincarnation leaves as they are. *)
Definition same_rest (n n' : Node) : Prop :=
  config n' = config n ∧ state n' = state n ∧ env n' = env n ∧ n_gossip n' = n_gossip n.

(** The first reincarnation creates the local member and applies one change,
    with an incarnation read from the clock. *)
Lemma Reincarnate_first app address channel opts e :
  let new := NewNode app address channel opts e in
  wp Reincarnate (λ _ n, ∃ ml t c,
    let n0 := with_tick (with_memberlist new ml) t in
    ml_wf n0 ∧ view n0 = ∅ ∧ (1 ≤ t)%nat ∧ c_Address c = address ∧ c_Status c = Alive ∧
    c_Incarnation c = Z.quot (times e 1) 1000000 ∧ updated [c] [c] n0 n ∧ (t ≤ tick n)%nat) new.
Proof.
  intros new. unfold Reincarnate, MakeAlive, MakeChange, nowInMillis.
  apply wp_bind, wp_gets, wp_bind, wp_bind, wp_now, wp_ret, wp_bind, wp_emit.
  apply wp_bind, wp_gets, wp_bind. simpl. apply wp_bind, wp_gets, wp_bind, wp_now.
  unfold wp, newMember, modify_ml, mbind, M_bind, gets, modify, deref, now, sample, mret, M_ret. simpl.
  rewrite lookup_insert_eq.
  match goal with |- context [Update [?c0] ?m] => set (n0 := m); set (c := c0) end.
  assert (ml_wf n0 ∧ view n0 = ∅) as [Hwf Hv].
  { split; [apply alone_wf|]. apply map_eq. intros a. unfold view. by rewrite lookup_view. }
  assert (valid_change c) as Hc by (by eexists).
  pose proof (Update_single c n0) as Hw. unfold node_inv in Hw. rewrite Hv in Hw.
  refine (wp_mono _ _ _ _ (advances_wp _ _ _ (respects_Update [c]) (Hw _ Hc eq_refl)) _); [done|].
  intros applied n' [Hu Ht]. pose proof (up_abs _ _ _ _ Hu) as Habs.
  destruct (absorbs_one _ _ _ _ _ _ Habs) as (a & Hd & -> & Hv'). unfold decision in Hd.
  rewrite Hv, lookup_empty in Hd. subst a. exists (n_memberlist n0), (tick n0), c. by split_and!; try done; simpl; lia.
Qed.

Lemma Reincarnate_new app address channel opts e :
  wp Reincarnate (λ _ n, running n ∧ self n = address ∧ dom (view n) = {[address]} ∧
    same_rest (NewNode app address channel opts e) n) (NewNode app address channel opts e).
Proof.
  eapply wp_mono; [apply Reincarnate_first|].
  intros _ n (ml & t & c & Hwf & Hv & _ & Hadr & Hst & _ & Hu & _).
  assert (valid_change c) as Hc by (unfold valid_change; rewrite Hst; apply valid_Alive). split_and!.
  - eapply (updated_running [c] [c]); [by constructor|done|done| |done|by left].
    split; [done|]. rewrite Hv. intros a. simpl. split; [by intros [? ?]|]. by intros (_ & ? & ?).
  - unfold self. by rewrite (up_config _ _ _ _ Hu).
  - rewrite (absorbs_puts _ _ _ _ _ _ (up_abs _ _ _ _ Hu)), Hv. simpl. unfold put.
    rewrite insert_empty, Hadr. apply dom_singleton_L.
  - split_and!; [apply (up_config _ _ _ _ Hu)|apply (up_state _ _ _ _ Hu)|apply (up_env _ _ _ _ Hu)|
      apply (up_gos _ _ _ _ Hu)].
Qed.

(** A new node becomes a consistent member of its own cluster: the first
    [Reincarnate] never panics, creates the local member and leaves a node
    whose invariant, suspicion timers, checksum and disseminator are in order
    and that knows exactly itself. *)
Theorem first_Reincarnate_establishes_invariant app address channel opts e :
  ∃ applied n, Reincarnate (NewNode app address channel opts e) = Some (applied, n) ∧
    running n ∧ self n = address ∧ dom (view n) = {[address]}.
Proof.
  destruct (wp_run _ _ _ (Reincarnate_new app address channel opts e)) as (applied & n & ? & ? & ? & ? & ?). eauto 10.
Qed.

(** ** Sample nodes *)

(** A world whose clock advances a millisecond per reading, in which every
    remote call fails, and whose fingerprint is the length of its input. *)
Definition sampleEnv : Env :=
  mkEnv (λ k, Z.of_nat k * 1000000) (λ k, k) (λ _, []) (λ _, Failed) (λ _, Failed) (λ _, Failed)
    (λ s, Z.of_nat (String.length s)) (λ l, Z.of_nat (length l)).

Definition sampleChange (a : string) (i : Z) (st : string) : Change := mkChange "" 0 a i st 0.

(** A node that has joined itself and then heard of [cs]. *)
Definition nodeIn (e : Env) (address : string) (cs : list Change) : Node :=
  let new := NewNode "app" address true None e in
  default new (snd <$> (Reincarnate;; Update cs) new).

Lemma nodeIn_run e address cs :
  Forall valid_change cs →
  running (nodeIn e address cs) ∧ self (nodeIn e address cs) = address ∧ env (nodeIn e address cs) = e.
Proof.
  intros Hcs. set (new := NewNode "app" address true None e).
  assert (wp (Reincarnate;; Update cs) (λ _ n, running n ∧ self n = address ∧ env n = e) new) as Hw.
  { apply wp_bind. eapply wp_mono; [apply Reincarnate_new|]. intros _ n (Hr & Hself & _ & _ & _ & He & _).
    destruct Hr as (Hi & Hs & Hok & Hf & Hd). eapply wp_mono; [by apply Update_spec; [apply Hi|apply Hi|]|].
    rewrite Hs. simpl. intros applied n' Hp. case_bool_decide; [by destruct Hp as [_ ->]|].
    split_and!; [by eapply updated_running; eauto|unfold self; by rewrite (up_config _ _ _ _ Hp)|].
    by rewrite (up_env _ _ _ _ Hp). }
  destruct (wp_run _ _ _ Hw) as (applied & n & Hrun & H). unfold nodeIn. fold new. by rewrite Hrun.
Qed.

Definition sampleNode : string → list Change → Node := nodeIn sampleEnv.

Lemma sampleNode_run address cs :
  Forall valid_change cs → running (sampleNode address cs) ∧ self (sampleNode address cs) = address.
Proof. intros Hcs. by destruct (nodeIn_run sampleEnv address cs Hcs) as (? & ? & _). Qed.

Definition aChanges : list Change :=
  [sampleChange "b" 5 Alive; sampleChange "c" 6 Suspect; sampleChange "d" 7 Faulty].
(** The node "a", which knows "b", suspects "c" and believes "d" faulty. *)
Definition aNode : Node := sampleNode "a" aChanges.

Ltac known := by repeat constructor; eexists; vm_compute.

Lemma aNode_running : running aNode.
Proof. apply sampleNode_run. known. Qed.
