(* ===== verification/SwimWitness.v ===== *)
(** * SwimWitness: the theorems about a node at concrete nodes *)
From S2P Require Import Prelude GoStd NodeState Memberlist Disseminator Suspicion Rollup Membership.
From S2P Require Import Advances MembershipSpec UpdateSpec SwimOrder MemberIter Ping NodeCore SwimProps.
From S2P Require Import DisseminatorSpec IterSpec SyncProps Detection Samples Frames GossipLoops.
#[local] Open Scope Z_scope.

Ltac run := vm_compute; first [reflexivity | discriminate | lia].

Definition news : list Change := [sampleChange "b" 5 Suspect; sampleChange "e" 1 Alive].

Lemma Update_keeps_invariant_witness :
  ∃ applied n', Update news aNode = Some (applied, n') ∧ node_inv n' ∧
    view n' = foldl put (view aNode) applied ∧ (applied ≠ [] → checksum_fresh n').
Proof. apply Update_keeps_invariant; [apply aNode_running|known]. Defined.

Lemma gossip_converges_witness :
  ∃ a1 n1' a2 n2', Update news aNode = Some (a1, n1') ∧ Update (reverse (news ++ news)) aNode = Some (a2, n2') ∧
    view n1' = view n2' ∧ ml_checksum (n_memberlist n1') = ml_checksum (n_memberlist n2').
Proof.
  apply (gossip_converges news (reverse (news ++ news)) aNode aNode);
    [apply aNode_running|apply aNode_running|run|run|done|done|apply aNode_running|apply aNode_running|known| |].
  - intros c. rewrite elem_of_reverse, elem_of_app. tauto.
  - repeat constructor; intros Hself; by vm_compute in Hself.
Defined.

Lemma members_move_forward_witness :
  ∃ applied n' inc' st', Update news aNode = Some (applied, n') ∧ view n' !! "b" = Some (inc', st') ∧
    (5 < inc' ∨ (5 = inc' ∧ precedence Alive ≤ precedence st')).
Proof. apply (members_move_forward news aNode "b" 5 Alive); [apply aNode_running|known|run|run]. Defined.

Lemma rumour_is_refuted_witness :
  ∃ r n', Update [sampleChange "a" 3 Suspect] aNode = Some ([r], n') ∧ c_Address r = "a" ∧ c_Status r = Alive ∧
    (∃ u, u ∈ readings aNode n' ∧ c_Incarnation r = Z.quot u 1000000) ∧
    view n' !! "a" = Some (c_Incarnation r, Alive) ∧ timers (n_suspicion n') !! "a" = None ∧
    changes (n_disseminator n') !! "a" = Some (mkPChange r 0).
Proof.
  apply (rumour_is_refuted (sampleChange "a" 3 Suspect) aNode (1, Alive));
    [apply aNode_running|run|run|by left|run].
Defined.

Lemma timers_follow_suspects_witness :
  ∃ applied n', Update news aNode = Some (applied, n') ∧ suspicion_ok n'.
Proof. apply timers_follow_suspects; [apply aNode_running|apply aNode_running|known]. Defined.

Lemma suspect_becomes_faulty_witness :
  ∃ n', Fire "c" aNode = Some (tt, n') ∧ view n' !! "c" = Some (6, Faulty) ∧ timers (n_suspicion n') !! "c" = None.
Proof. apply (suspect_becomes_faulty "c" (mkTimer "c" 6)); [apply aNode_running|run..]. Defined.

Lemma stale_timer_keeps_suspect_witness :
  ∃ applied n1 n2, Update [sampleChange "c" 8 Suspect] aNode = Some (applied, n1) ∧ Fire "c" n1 = Some (tt, n2) ∧
    view n2 !! "c" = Some (8, Suspect) ∧ timers (n_suspicion n2) !! "c" = Some (mkTimer "c" 6).
Proof.
  apply (stale_timer_keeps_suspect (sampleChange "c" 8 Suspect) (mkTimer "c" 6) 6);
    [apply aNode_running|run..].
Defined.

Lemma restart_forgets_suspects_witness :
  ∃ n1 applied n2, (NodeStop;; NodeStart) aNode = Some (tt, n1) ∧ MakeSuspect "c" 6 n1 = Some (applied, n2) ∧
    view n2 !! "c" = Some (6, Suspect) ∧ timers (n_suspicion n2) !! "c" = None.
Proof. apply (restart_forgets_suspects "c" 6 aNode); [apply aNode_running|run..]. Defined.

Lemma AddJoinList_not_disseminated_witness :
  ∃ applied n' n'', Update news aNode = Some (applied, n') ∧ AddJoinList news aNode = Some (tt, n'') ∧
    view n'' = view n' ∧
    (∀ a, a ≠ "a" → a ∈ c_Address <$> applied → changes (n_disseminator n'') !! a = None) ∧
    (∀ a, a ∉ c_Address <$> applied →
       changes (n_disseminator n'') !! a = changes (n_disseminator aNode) !! a) ∧
    (changes (n_disseminator n'') !! "a" = changes (n_disseminator n') !! "a").
Proof. apply (AddJoinList_not_disseminated news aNode); [apply aNode_running|run|run|known]. Defined.

Lemma unknown_status_panics_witness : Update [sampleChange "b" 5 "bogus"] aNode = None.
Proof.
  apply (unknown_status_panics (sampleChange "b" 5 "bogus") aNode (5, Alive)); [apply aNode_running|run..].
Defined.

(** A node whose clock stands still. *)
Definition frozenEnv : Env :=
  mkEnv (λ _, 0) (rands sampleEnv) (orders sampleEnv) (pings sampleEnv) (pingReqs sampleEnv) (joins sampleEnv)
    (fingerprint32 sampleEnv) (doubledMedian sampleEnv).
Definition frozenNode : Node :=
  default aNode (snd <$> Reincarnate (NewNode "app" "a" true None frozenEnv)).

Lemma frozenNode_inv : node_inv frozenNode.
Proof.
  unfold frozenNode. destruct (wp_run _ _ _ (Reincarnate_new "app" "a" true None frozenEnv)) as (ap & n & Hr & Hi & _).
  rewrite Hr. apply Hi.
Qed.

Lemma refutation_needs_clock_ahead_witness :
  ∃ r n', Update [sampleChange "a" 3 Faulty] frozenNode = Some ([r], n') ∧ c_Status r = Alive ∧
    beats r (3, Faulty) = false.
Proof.
  apply (refutation_needs_clock_ahead (sampleChange "a" 3 Faulty) frozenNode (0, Alive));
    [apply frozenNode_inv|run|run|by right|run|]. intros k. assert (env frozenNode = frozenEnv) as -> by run. run.
Defined.

Lemma change_disseminated_maxP_times_witness :
  ∃ n', sendRounds 2 aNode = Some (tt, n') ∧
    changes (n_disseminator n') !! "b" =
      if bool_decide (Z.of_nat 2 < maxP (n_disseminator aNode)) then Some (mkPChange (sampleChange "b" 5 Alive) 2) else None.
Proof. apply change_disseminated_maxP_times; [apply aNode_running|run|run]. Defined.

Lemma IssueAsReceiver_answers_witness :
  ∃ cs full n', IssueAsReceiver "b" 5 0 aNode = Some ((cs, full), n') ∧
    n_memberlist n' = n_memberlist aNode ∧
    (full = false → cs ≡ₚ to_tell aNode "b" 5) ∧
    (full = true ↔ to_tell aNode "b" 5 = [] ∧ ml_checksum (n_memberlist aNode) ≠ 0) ∧
    (full = true → centry <$> cs ≡ₚ map_to_list (view aNode)).
Proof. apply IssueAsReceiver_answers; apply aNode_running. Defined.

Lemma maxP_follows_cluster_size_witness :
  ∃ n' k, AdjustMaxPropagations aNode = Some (tt, n') ∧
    maxP (n_disseminator n') = pFactor (n_disseminator aNode) * k ∧
    changes (n_disseminator n') = changes (n_disseminator aNode) ∧
    pingable_count "a" (view aNode) + 1 ≤ 10 ^ k ∧
    (k = 0 ∧ pingable_count "a" (view aNode) = 0 ∨
     1 ≤ k ∧ 10 ^ (k - 1) < pingable_count "a" (view aNode) + 1).
Proof. apply (maxP_follows_cluster_size aNode). apply aNode_running. Defined.

Lemma Next_finds_pingable_witness :
  ∃ r n', Next aNode = Some (r, n') ∧ shuffled aNode n' ∧ iter_ok n' ∧
    match r with
    | Some p => ∃ m, heap (n_memberlist n') !! p = Some m ∧ pingable "a" (entry m) ∧
                     view aNode !! m_Address m = Some (mem_state m)
    | None => ∀ a st, view aNode !! a = Some st → ¬ pingable "a" (a, st)
    end.
Proof. apply (Next_finds_pingable aNode); [apply aNode_running|]. split; run. Defined.

Lemma full_sync_catches_up_witness :
  ∃ cs applied nb', FullSync aNode = Some (cs, aNode) ∧ Update cs (sampleNode "b" []) = Some (applied, nb') ∧
    ∀ a st, a ≠ "b" → view aNode !! a = Some st → ∃ st', view nb' !! a = Some st' ∧ mle st st'.
Proof.
  apply (full_sync_catches_up aNode (sampleNode "b" [])); [apply aNode_running|apply sampleNode_run; constructor|run].
Defined.

Definition eNode : Node := sampleNode "b" [sampleChange "e" 1 Suspect; sampleChange "a" 0 Alive].

Lemma full_syncs_agree_witness :
  ∃ cs applied nb' cs' applied' na',
    FullSync aNode = Some (cs, aNode) ∧ Update cs eNode = Some (applied, nb') ∧
    FullSync nb' = Some (cs', nb') ∧ Update cs' aNode = Some (applied', na') ∧
    view na' = view nb' ∧ ml_checksum (n_memberlist na') = ml_checksum (n_memberlist nb') ∧
    ∀ a ms, view aNode !! a = Some ms ∨ view eNode !! a = Some ms → ∃ ms', view nb' !! a = Some ms' ∧ mle ms ms'.
Proof.
  apply (full_syncs_agree aNode eNode);
    [apply aNode_running|apply sampleNode_run; known|run|run|apply aNode_running|apply sampleNode_run; known|run|..].
  all: intros ms Hms; vm_compute in Hms; (discriminate || (injection Hms as <-; split; discriminate)).
Defined.

Definition aReady : Node := with_state aNode (mkFlags false false false true).

Lemma aReady_running : running aReady.
Proof.
  assert (∀ n f, running n → stopped f = false → running (with_state n f)) as H.
  { intros n f (? & ? & ? & ? & ?) ?. split_and!; done. }
  apply H; [apply aNode_running|done].
Qed.

Definition bPing : ping := mkPing news 0 "b" 5.

Lemma handlePing_answers_witness :
  (ready (state aReady) = false →
     ∃ n', handlePing bPing aReady = Some (inr ErrNodeNotReady, n') ∧ n' = with_emitted aReady (emitted n')) ∧
  (ready (state aReady) = true →
     ∃ res n' applied n1 full, handlePing bPing aReady = Some (inl res, n') ∧ node_inv n' ∧
       Update (pi_Changes bPing) (pinged bPing aReady) = Some (applied, n1) ∧ n_memberlist n' = n_memberlist n1 ∧
       pi_Source res = self aReady ∧ pi_Checksum res = ml_checksum (n_memberlist n') ∧
       answer n1 (pi_Source bPing) (pi_SourceIncarnation bPing) (pi_Checksum bPing) (pi_Changes res) full).
Proof. apply (handlePing_answers bPing aReady); [apply aReady_running|apply aReady_running|run|known]. Defined.

(** "b" does not answer "a", which then asks "c"; "c" does not reach "b" either and
    tells of "d". *)
Definition newsEnv : Env :=
  mkEnv (times sampleEnv) (rands sampleEnv) (orders sampleEnv) (pings sampleEnv)
    (λ _, Replied (mkPingResponse false "b" [sampleChange "d" 2 Alive])) (joins sampleEnv) (fingerprint32 sampleEnv)
    (doubledMedian sampleEnv).
Definition newsNode : Node := nodeIn newsEnv "a" aChanges.

Lemma newsNode_run : running newsNode ∧ self newsNode = "a" ∧ env newsNode = newsEnv.
Proof. apply (nodeIn_run newsEnv "a" aChanges). known. Qed.

Lemma unreachable_is_suspected_witness :
  let p := default 1%positive (byAddress (n_memberlist newsNode) !! "b") in
  let size := pingRequestSize (config newsNode) in
  ∃ e errs n1 n2 n', sendPing "b" newsNode = Some (inr e, n1) ∧ indirectPing "b" size n1 = Some ((false, errs), n2) ∧
    Z.of_nat (length errs) ≤ Z.min size (helpers (self newsNode) "b" (view newsNode)) ∧
    (all_reply (env newsNode) → errs = []) ∧
    pingMember p newsNode = Some (tt, n') ∧
    if bool_decide (Z.of_nat (length errs) = size) then n' = n2
    else (no_news "b" (env newsNode) → suspected "b" 5 n') ∧ suspicion_ok n' ∧
      ∃ ms, view n' !! "b" = Some ms ∧ ms.2 ≠ Alive ∧ mle (5, Suspect) ms.
Proof.
  destruct newsNode_run as ((Hi & _ & Hs & _) & _ & He).
  apply (unreachable_is_suspected (default 1%positive (byAddress (n_memberlist newsNode) !! "b")) "b" 5 newsNode);
    [exact Hi|exact Hs|run|run|run|run|run|by rewrite He|].
  rewrite He. intros k r [= <-]. split; [done|]. by repeat constructor; eexists.
Defined.

(** ** The gossip goroutines of a new node *)
Definition newNodeA : Node := NewNode "app" "a" true None sampleEnv.
Definition idleLoops : loops := mkLoops newNodeA [] [].
Definition idleGossip : gossiping := mkGossiping idleLoops [] 0.
Definition runningGossip : gossiping := default idleGossip (callMoves wholeStart idleGossip).

Lemma runningGossip_reached : reached orderly 1 runningGossip.
Proof.
  apply (reached_calls orderly 1 [CStart 0; CStart 0; CStart 0] (testStart idleGossip)); [|by repeat constructor|reflexivity].
  exact (reached_start orderly 0 idleGossip (reached_new orderly newNodeA eq_refl) (λ _, conj (conj eq_refl eq_refl) eq_refl)).
Qed.

Lemma gossip_keeps_running_witness :
  (stoppedNow (gg_loops runningGossip) = false → gg_starts runningGossip = [] →
     (1 ≤ length (lo_periods (gg_loops runningGossip)))%nat ∧ (1 ≤ length (lo_rates (gg_loops runningGossip)))%nat) ∧
  (length (lo_periods (gg_loops runningGossip)) ≤ 1)%nat ∧ (length (lo_rates (gg_loops runningGossip)) ≤ 1)%nat.
Proof. exact (gossip_keeps_running orderly 1 runningGossip runningGossip_reached). Defined.

Lemma orderly_restart_one_loop_witness :
  (length (lo_periods (gg_loops runningGossip)) ≤ 1)%nat ∧ (length (lo_rates (gg_loops runningGossip)) ≤ 1)%nat ∧
  (stoppedNow (gg_loops runningGossip) = false → gg_starts runningGossip = [] →
     length (lo_periods (gg_loops runningGossip)) = 1%nat ∧ length (lo_rates (gg_loops runningGossip)) = 1%nat).
Proof. exact (orderly_restart_one_loop 1 runningGossip runningGossip_reached). Defined.

Lemma hasty_restart_doubles_loops_witness :
  ∃ s', callMoves ([CTestStop; CStop] ++ wholeStart) runningGossip = Some s' ∧
    ∀ lo, rtc turn (gg_loops s') lo → length (lo_periods lo) = 2%nat ∧ length (lo_rates lo) = 2%nat.
Proof. apply (hasty_restart_doubles_loops runningGossip); reflexivity. Defined.

Lemma concurrent_starts_double_loops_witness :
  ∃ s', callMoves [CTestStart; CTestStart; CStart 0; CStart 0; CStart 0; CStart 0; CStart 0; CStart 0] idleGossip = Some s' ∧
    ∀ lo, rtc turn (gg_loops s') lo → length (lo_periods lo) = 2%nat ∧ length (lo_rates lo) = 2%nat.
Proof. apply (concurrent_starts_double_loops idleGossip); [reflexivity|by split]. Defined.

(** A stopped rate loop that looks at the flag. *)
Definition stoppedLoops : loops := mkLoops newNodeA [] [RCheck].

Lemma stopped_gossip_winds_down_witness :
  (1 + turnsLeft idleLoops = turnsLeft stoppedLoops)%nat ∧
  (turnsLeft stoppedLoops ≤ 3 * length (lo_periods stoppedLoops) + 2 * length (lo_rates stoppedLoops))%nat ∧
  (turnsLeft idleLoops = 0%nat → wound_down idleLoops) ∧
  (ProtocolPeriod (lo_node idleLoops) ≠ None → wound_down idleLoops ∨ ∃ s, turn idleLoops s).
Proof.
  apply (stopped_gossip_winds_down stoppedLoops 1 idleLoops); [reflexivity|].
  apply nsteps_once. exact (turn_rate stoppedLoops [] RCheck [] None newNodeA eq_refl eq_refl).
Defined.
