(* ===== verification/JoinDelayer.v ===== *)
(** * JoinDelayer: exponential backoff between join attempts (swim/join_delayer.go)

    Delays are computed in milliseconds.  The float64 values of the source are
    whole numbers below 2^53 here (an integer times a power of two, capped at
    an integer), so integers represent them exactly. *)
From S2P Require Import Prelude GoStd NodeState Util.
#[local] Open Scope Z_scope.

Record delayOpts : Type := mkDelayOpts {
  do_initial : Z;
  do_max : Z
}.

Definition defaultInitial : Z := 100 * 1000000.
Definition defaultMax : Z := 60 * 1000000000.
Definition newDelayOpts : delayOpts := mkDelayOpts defaultInitial defaultMax.

Record exponentialDelayer : Type := mkDelayer {
  initialDelay : Z;
  maxDelay : Z;
  maxDelayReached : bool;
  nextDelayMin : Z;
  numDelays : Z
}.

Definition newExponentialDelayer (opts : option delayOpts) : exponentialDelayer :=
  let opts := default newDelayOpts opts in
  mkDelayer (do_initial opts) (do_max opts) false 0 0.

(** The randomizer is rand.Intn, which panics unless its bound is positive. *)
Definition randomizer (bound : Z) : SW Z :=
  if bool_decide (bound ≤ 0) then panic
  else r ← intn (Z.to_nat bound); mret (Z.of_nat r).

Definition uncappedDelay (d : exponentialDelayer) : Z := MS (initialDelay d) * 2 ^ numDelays d.
Definition cappedDelay (d : exponentialDelayer) : Z := Z.min (MS (maxDelay d)) (uncappedDelay d).

(** The delayer after a delay. *)
Definition afterDelay (d : exponentialDelayer) : exponentialDelayer :=
  mkDelayer (initialDelay d) (maxDelay d)
    (bool_decide (MS (maxDelay d) ≤ uncappedDelay d) || maxDelayReached d) (cappedDelay d) (numDelays d + 1).

(** delay: the duration slept, in nanoseconds, and the delayer after it. *)
Definition delay (d : exponentialDelayer) : SW (Z * exponentialDelayer) :=
  jitteredDelay ←
    (if bool_decide (cappedDelay d = nextDelayMin d) then mret (cappedDelay d)
     else r ← randomizer (cappedDelay d - nextDelayMin d); mret (r + nextDelayMin d));
  mret (jitteredDelay * 1000000, afterDelay d).

(** nullDelayer and the interface joinDelayer. *)
Inductive joinDelayer : Type :=
| Exponential (d : exponentialDelayer)
| Null.

Definition delayBy (d : joinDelayer) : SW (Z * joinDelayer) :=
  match d with
  | Exponential d => '(t, d) ← delay d; mret (t, Exponential d)
  | Null => mret (0, Null)
  end.

(** ** Correctness *)
Section delayer.
Context (opts : delayOpts) (Hinit : 0 ≤ MS (do_initial opts)) (Hmax : 0 ≤ MS (do_max opts)).

(** The upper end of the window of the [k]-th delay, in milliseconds. *)
Definition bound (k : Z) : Z := Z.min (MS (do_max opts)) (MS (do_initial opts) * 2 ^ k).

(** After [k] delays. *)
Definition delayed (k : Z) (d : exponentialDelayer) : Prop :=
  0 ≤ k ∧ initialDelay d = do_initial opts ∧ maxDelay d = do_max opts ∧ numDelays d = k ∧
  nextDelayMin d = (if bool_decide (k = 0) then 0 else bound (k - 1)) ∧
  maxDelayReached d = bool_decide (0 < k ∧ MS (do_max opts) ≤ MS (do_initial opts) * 2 ^ (k - 1)).

Lemma delayed_new : delayed 0 (newExponentialDelayer (Some opts)).
Proof using. clear. split_and!; done. Qed.

Lemma bound_mono k : 0 ≤ k → bound k ≤ bound (k + 1).
Proof using Hinit.
  intros Hk. unfold bound. assert (MS (do_initial opts) * 2 ^ k ≤ MS (do_initial opts) * 2 ^ (k + 1)); [|lia].
  rewrite Z.pow_add_r by lia. nia.
Qed.

Lemma window_le k d : delayed k d → 0 ≤ nextDelayMin d ≤ bound k.
Proof using Hinit Hmax.
  intros (Hk & _ & _ & _ & -> & _). assert (∀ j, 0 ≤ bound j) as Hpos by (intros; unfold bound; lia).
  case_bool_decide; [auto with lia|]. split; [done|].
  replace k with (k - 1 + 1) at 2 by lia. apply bound_mono. lia.
Qed.

Lemma delay_spec k d n :
  delayed k d →
  wp (delay d) (λ r n', delayed (k + 1) r.2 ∧ nextDelayMin d * 1000000 ≤ r.1 ≤ bound k * 1000000 ∧
    (n' = n ∨ n' = with_tick n (S (tick n)))) n.
Proof using Hinit Hmax.
  intros Hd. pose proof (window_le k d Hd) as Hw. destruct Hd as (Hk & Hi & Hm & Hn & Hnext & Hr).
  assert (cappedDelay d = bound k) as Hcap.
  { unfold cappedDelay, uncappedDelay, bound. by rewrite Hi, Hm, Hn. }
  assert (delayed (k + 1) (afterDelay d)) as Hafter.
  { split_and!; simpl; try done; try lia.
    - rewrite bool_decide_false by lia. by rewrite Z.add_simpl_r.
    - unfold uncappedDelay. rewrite Hi, Hm, Hn, Hr, Z.add_simpl_r. destruct (decide (0 < k)) as [Hpos|].
      + assert (MS (do_initial opts) * 2 ^ (k - 1) ≤ MS (do_initial opts) * 2 ^ k).
        { replace k with (k - 1 + 1) at 2 by lia. rewrite (Z.pow_add_r 2 (k - 1)) by lia. nia. }
        repeat case_bool_decide; simpl; try done; lia.
      + repeat case_bool_decide; simpl; try done; lia. }
  unfold delay. apply wp_bind. rewrite Hcap in *. clear Hnext Hr.
  case_bool_decide as He.
  - apply wp_ret, wp_ret. simpl. split_and!; [done|lia|lia|by left].
  - apply wp_bind. unfold randomizer. rewrite bool_decide_false by lia. apply wp_bind.
    unfold intn. apply wp_bind, wp_sample, wp_ret, wp_ret, wp_ret, wp_ret. simpl.
    pose proof (Nat.mod_upper_bound (rands (env n) (tick n)) (Z.to_nat (bound k - nextDelayMin d))).
    split_and!; [done|lia|lia|by right].
Qed.
End delayer.

(** [k] delays in a row, with the durations slept. *)
Fixpoint delays (k : nat) (d : exponentialDelayer) : SW (list Z * exponentialDelayer) :=
  match k with
  | O => mret ([], d)
  | S k => '(t, d) ← delay d; '(ts, d) ← delays k d; mret (t :: ts, d)
  end.

(** Join attempts back off exponentially: the delayer never panics, the
    i-th delay lies between the upper ends of the windows i-1 and i, where the
    end of window i is the initial delay times 2^i capped at the maximum, so
    the delays never decrease, never exceed the maximum, and the flag for
    having reached the maximum is set exactly when it was. *)
Theorem backoff_is_exponential opts k n :
  0 ≤ MS (do_initial opts) → 0 ≤ MS (do_max opts) →
  ∃ ts d n', delays k (newExponentialDelayer (Some opts)) n = Some ((ts, d), n') ∧ length ts = k ∧
    (∀ i t, ts !! i = Some t →
       (if bool_decide (i = 0%nat) then 0 else bound opts (Z.of_nat i - 1)) * 1000000 ≤ t
         ≤ bound opts (Z.of_nat i) * 1000000 ∧ t ≤ MS (do_max opts) * 1000000) ∧
    maxDelayReached d =
      bool_decide (0 < Z.of_nat k ∧ MS (do_max opts) ≤ MS (do_initial opts) * 2 ^ (Z.of_nat k - 1)).
Proof.
  intros Hi Hm. assert (∀ k j d n, delayed opts (Z.of_nat j) d →
    wp (delays k d) (λ r _, delayed opts (Z.of_nat (j + k)) r.2 ∧ length r.1 = k ∧
      ∀ i t, r.1 !! i = Some t →
       (if bool_decide (j + i = 0)%nat then 0 else bound opts (Z.of_nat (j + i) - 1)) * 1000000 ≤ t
         ≤ bound opts (Z.of_nat (j + i)) * 1000000) n) as Hrun.
  { clear k n. induction k as [|k IH]; intros j d n Hd; simpl.
    { apply wp_ret. rewrite Nat.add_0_r. done. }
    apply wp_bind. eapply wp_mono; [by eapply delay_spec|]. intros [t d1] n1 (Hd1 & Ht & _).
    apply wp_bind. replace (Z.of_nat j + 1) with (Z.of_nat (S j)) in Hd1 by lia.
    eapply wp_mono; [by apply (IH (S j))|]. intros [ts d2] n2 (Hd2 & Hl & Hts). apply wp_ret.
    split_and!; [by replace (j + S k)%nat with (S j + k)%nat by lia|by simpl; f_equal|].
    intros [|i] t' Ht'; simpl in Ht'.
    - simplify_eq. rewrite Nat.add_0_r. destruct Hd as (_ & _ & _ & _ & Hnx & _). rewrite Hnx in Ht.
      erewrite (bool_decide_ext (j = 0%nat)); [exact Ht|]. lia.
    - replace (j + S i)%nat with (S j + i)%nat by lia. by apply Hts. }
  destruct (wp_run _ _ _ (Hrun k 0%nat _ n (delayed_new opts))) as ([ts d] & n' & Hr & Hd & Hl & Hts).
  exists ts, d, n'. split_and!; [done|done| |].
  - intros i t Ht. specialize (Hts i t Ht). split; [done|]. unfold bound at 2 in Hts.
    simpl in Hts. lia.
  - apply Hd.
Qed.
