(* ===== verification/JoinSender.v ===== *)
(** * JoinSender: joining a cluster (swim/join_sender.go, node_bootstrap.go and
    Node.Bootstrap)

    A join runs on the node and a [joinSender].  The goroutines of a join group
    run one after the other, in any order; the loop of [JoinCluster] carries
    fuel. *)
From S2P Require Import Prelude GoStd NodeState Util Memberlist Disseminator Suspicion Rollup Membership.
From S2P Require Import MemberIter Ping NodeCore JoinDelayer.
#[local] Open Scope Z_scope.

(** ** node_bootstrap.go *)

(** The interface DiscoverProvider; a provider of the application gives its
    hosts or an error. *)
Inductive DiscoverProvider : Type :=
| CustomProvider (hosts : result (list string))
| StaticHostList (hosts : list string)
| JSONFileHostList (filePath : string).

(** Hosts: [file] is what reading and decoding a JSON file gives. *)
Definition Hosts (file : string → result (list string)) (p : DiscoverProvider) : result (list string) :=
  match p with
  | CustomProvider hosts => hosts
  | StaticHostList hosts => inl hosts
  | JSONFileHostList path => file path
  end.

Record BootstrapOptions : Type := mkBootstrapOptions {
  bo_DiscoverProvider : option DiscoverProvider;
  bo_Hosts : list string;
  bo_File : string;
  bo_Stopped : bool;
  bo_JoinTimeout : Z;
  bo_JoinSize : Z;
  bo_MaxJoinDuration : Z;
  bo_ParallelismFactor : Z
}.

Definition resolveDiscoverProvider (opts : BootstrapOptions) : result DiscoverProvider :=
  match bo_DiscoverProvider opts with
  | Some p => inl p
  | None =>
      if bool_decide (length (bo_Hosts opts) ≠ 0%nat) then inl (StaticHostList (bo_Hosts opts))
      else if bool_decide (String.length (bo_File opts) ≠ 0%nat) then inl (JSONFileHostList (bo_File opts))
      else inr ErrNoDiscoverProvider
  end.

(** ** The sender *)
Record joinOpts : Type := mkJoinOpts {
  jo_timeout : Z;
  jo_size : Z;
  jo_maxJoinDuration : Z;
  jo_parallelismFactor : Z;
  jo_discoverProvider : option DiscoverProvider;
  jo_delayer : option joinDelayer
}.

Record joinSender : Type := mkJoinSender {
  js_timeout : Z;
  bootstrapHostsMap : gmap string (list string);
  parallelismFactor : Z;
  maxJoinDuration : Z;
  potentialNodes : list string;
  preferredNodes : list string;
  nonPreferredNodes : list string;
  js_size : Z;
  roundPotentialNodes : list string;
  roundPreferredNodes : list string;
  roundNonPreferredNodes : list string;
  numTries : Z;
  delayer : joinDelayer
}.

Definition defaultMaxJoinDuration : Z := 120 * 1000000000.
Definition defaultJoinTimeout : Z := 1000000000.
Definition defaultJoinSize : Z := 3.
Definition defaultParallelismFactor : Z := 2.

Abbreviation JS := (M (Node * joinSender)).

(** Run an operation of the node. *)
Definition onNode {A} (m : SW A) : JS A := λ s,
  match m s.1 with Some (a, n) => Some (a, (n, s.2)) | None => None end.
Definition getsJ {A} (f : joinSender → A) : JS A := gets (λ s, f s.2).
Definition modifyJ (f : joinSender → joinSender) : JS unit := modify (λ s, (s.1, f s.2)).

(** parseHosts: the map, and what the two sanity checks found, which is logged. *)
Definition parseHosts (hostports : list string)
    : SW (gmap string (list string) * bool * list string) :=
  address ← Address;
  let hostsMap := HostPortsByHost hostports in
  let missing := CheckLocalMissing address (default [] (hostsMap !! CaptureHost address)) in
  c ← order;
  mret (hostsMap, missing, CheckHostnameIPMismatch c address hostsMap).

(** The host:ports of the map in the order of a [range] over it. *)
Definition rangeHosts (hostsMap : gmap string (list string)) : SW (list (string * list string)) :=
  c ← order; mret (arrange c (map_to_list hostsMap)).

Definition collectPotential (address : string) (nodesJoined : list string)
    (hosts : list (string * list string)) : list string :=
  filter (λ hp, address ≠ hp ∧ StringInSlice nodesJoined hp = false) (mjoin (snd <$> hosts)).

Definition CollectPotentialNodes (nodesJoined : list string) : JS (list string) :=
  address ← onNode Address;
  hostsMap ← getsJ bootstrapHostsMap;
  hosts ← onNode (rangeHosts hostsMap);
  mret (collectPotential address nodesJoined hosts).

Definition CollectPreferredNodes : JS (list string) :=
  address ← onNode Address;
  hostsMap ← getsJ bootstrapHostsMap;
  hosts ← onNode (rangeHosts hostsMap);
  mret (mjoin (snd <$> filter (λ x : string * list string, x.1 ≠ CaptureHost address) hosts)).

Definition CollectNonPreferredNodes : JS (list string) :=
  j ← getsJ id;
  address ← onNode Address;
  if bool_decide (length (preferredNodes j) = 0%nat) then mret (potentialNodes j)
  else mret (filter (λ host, host ≠ address)
               (default [] (bootstrapHostsMap j !! CaptureHost address))).

Definition with_nodes (p q r : list string) (j : joinSender) : joinSender :=
  mkJoinSender (js_timeout j) (bootstrapHostsMap j) (parallelismFactor j) (maxJoinDuration j) p q r
    (js_size j) (roundPotentialNodes j) (roundPreferredNodes j) (roundNonPreferredNodes j) (numTries j)
    (delayer j).
Definition with_rounds (p q r : list string) (j : joinSender) : joinSender :=
  mkJoinSender (js_timeout j) (bootstrapHostsMap j) (parallelismFactor j) (maxJoinDuration j)
    (potentialNodes j) (preferredNodes j) (nonPreferredNodes j) (js_size j) p q r (numTries j) (delayer j).
Definition with_tries (t : Z) (j : joinSender) : joinSender :=
  mkJoinSender (js_timeout j) (bootstrapHostsMap j) (parallelismFactor j) (maxJoinDuration j)
    (potentialNodes j) (preferredNodes j) (nonPreferredNodes j) (js_size j) (roundPotentialNodes j)
    (roundPreferredNodes j) (roundNonPreferredNodes j) t (delayer j).
Definition with_delayer (d : joinDelayer) (j : joinSender) : joinSender :=
  mkJoinSender (js_timeout j) (bootstrapHostsMap j) (parallelismFactor j) (maxJoinDuration j)
    (potentialNodes j) (preferredNodes j) (nonPreferredNodes j) (js_size j) (roundPotentialNodes j)
    (roundPreferredNodes j) (roundNonPreferredNodes j) (numTries j) d.

(** newJoinSender.  The local map and the nodes are built before the limits. *)
Definition newJoinSender (file : string → result (list string)) (opts : joinOpts)
    : SW (result joinSender) :=
  match jo_discoverProvider opts with
  | None => mret (inr ErrNoDiscoverProvider)
  | Some provider =>
      match Hosts file provider with
      | inr err => mret (inr err)
      | inl bootstrapHosts =>
          if bool_decide (length bootstrapHosts = 0%nat) then mret (inr ErrNoHosts)
          else
            '(hostsMap, _, _) ← parseHosts bootstrapHosts;
            address ← Address;
            hosts ← rangeHosts hostsMap;
            let potential := collectPotential address [] hosts in
            let size := Min (SelectInt (jo_size opts) defaultJoinSize) (Z.of_nat (length potential)) in
            mret (inl (mkJoinSender
              (SelectDuration (jo_timeout opts) defaultJoinTimeout) hostsMap
              (SelectInt (jo_parallelismFactor opts) defaultParallelismFactor)
              (SelectDuration (jo_maxJoinDuration opts) defaultMaxJoinDuration)
              potential [] [] size [] [] [] 0
              (default (Exponential (newExponentialDelayer None)) (jo_delayer opts))))
      end
  end.

(** Init starts a new round. *)
Definition Init (nodesJoined : list string) : JS unit :=
  potential ← CollectPotentialNodes nodesJoined;
  modifyJ (λ j, with_nodes potential (preferredNodes j) (nonPreferredNodes j) j);;
  preferred ← CollectPreferredNodes;
  modifyJ (λ j, with_nodes (potentialNodes j) preferred (nonPreferredNodes j) j);;
  nonPreferred ← CollectNonPreferredNodes;
  modifyJ (λ j, with_nodes (potentialNodes j) (preferredNodes j) nonPreferred j);;
  modifyJ (λ j, with_rounds (roundPotentialNodes j ++ potentialNodes j)
                  (roundPreferredNodes j ++ preferredNodes j)
                  (roundNonPreferredNodes j ++ nonPreferredNodes j) j).

(** The loop of SelectGroup; each turn takes a node out of a round list. *)
Fixpoint selectLoop (fuel : nat) (target : Z) (group : list string) : JS (list string) :=
  j ← getsJ id;
  let nodesAvailable := (length (roundPreferredNodes j) + length (roundNonPreferredNodes j))%nat in
  if bool_decide (Z.of_nat (length group) = target) || bool_decide (nodesAvailable = 0%nat)
  then mret group
  else
    match fuel with
    | O => panic
    | S fuel =>
        if bool_decide (0 < length (roundPreferredNodes j))%nat then
          '(node, rest) ← onNode (TakeNode (roundPreferredNodes j) (-1));
          modifyJ (λ j, with_rounds (roundPotentialNodes j) rest (roundNonPreferredNodes j) j);;
          selectLoop fuel target (group ++ [node])
        else
          '(node, rest) ← onNode (TakeNode (roundNonPreferredNodes j) (-1));
          modifyJ (λ j, with_rounds (roundPotentialNodes j) (roundPreferredNodes j) rest j);;
          selectLoop fuel target (group ++ [node])
    end.

Definition SelectGroup (nodesJoined : list string) : JS (list string) :=
  j ← getsJ id;
  when (bool_decide (length (roundPreferredNodes j) = 0%nat) &&
        bool_decide (length (roundNonPreferredNodes j) = 0%nat)) (Init nodesJoined);;
  j ← getsJ id;
  let numNodesLeft := js_size j - Z.of_nat (length nodesJoined) in
  selectLoop (length (roundPreferredNodes j) + length (roundNonPreferredNodes j))
    (numNodesLeft * parallelismFactor j) [].

(** The request and the outcome of one call (MakeCall and the goroutine of
    JoinGroup): true when the node was joined. *)
Definition makeJoinRequest (timeout : Z) : SW joinRequest :=
  app ← gets (λ n, n_app (config n));
  address ← Address;
  incarnation ← Incarnation;
  mret (mkJoinRequest app address incarnation timeout).

Definition joinNode (timeout : Z) (node : string) : SW bool :=
  req ← makeJoinRequest timeout;
  o ← sample joins;
  match o with
  | Replied res => AddJoinList (jr_Membership res);; mret true
  | Failed => mret false
  | TimedOut _ => mret false
  end.

(** Successes and failures in the order in which the calls end. *)
Fixpoint joinNodes (timeout : Z) (group : list string) : SW (list string * list string) :=
  match group with
  | [] => mret ([], [])
  | node :: group =>
      ok ← joinNode timeout node;
      '(successes, failures) ← joinNodes timeout group;
      mret (if (ok : bool) then (node :: successes, failures) else (successes, node :: failures))
  end.

Definition JoinGroup (nodesJoined : list string) : JS (list string * list string) :=
  group ← SelectGroup nodesJoined;
  _ ← onNode now;
  modifyJ (λ j, with_tries (numTries j + 1) j);;
  j ← getsJ id;
  onNode (emit (JoinTriesUpdateEvent (numTries j)));;
  c ← onNode order;
  onNode (joinNodes (js_timeout j) (arrange c group)).

Definition delayJoin : JS unit :=
  d ← getsJ delayer;
  '(_, d) ← onNode (delayBy d);
  modifyJ (with_delayer d).

(** JoinFailedReason *)
Definition Error_ : string := "err".
Definition Destroyed_ : string := "destroyed".

(** The loop of JoinCluster: the nodes joined, and the error if there is one. *)
Fixpoint joinLoop (fuel : nat) (startTime : Z) (nodesJoined : list string)
    : JS (list string * option swimError) :=
  match fuel with
  | O => panic
  | S fuel =>
      destroyed ← onNode Destroyed;
      if (destroyed : bool) then
        onNode (emit (JoinFailedEvent Destroyed_ None));; mret ([], Some ErrDestroyed)
      else
        '(successes, _) ← JoinGroup nodesJoined;
        let nodesJoined := nodesJoined ++ successes in
        let numJoined := Z.of_nat (length nodesJoined) in
        j ← getsJ id;
        if bool_decide (js_size j ≤ numJoined) then
          t ← onNode now;
          onNode (emit (JoinCompleteEvent (t - startTime) numJoined nodesJoined));;
          mret (nodesJoined, None)
        else
          t ← onNode now;
          let joinDuration := t - startTime in
          if bool_decide (maxJoinDuration j < joinDuration) then
            let err := ErrJoinDuration joinDuration (maxJoinDuration j) in
            onNode (emit (JoinFailedEvent Error_ (Some err)));;
            mret (nodesJoined, Some err)
          else delayJoin;; joinLoop fuel startTime nodesJoined
  end.

Definition JoinCluster (fuel : nat) : JS (list string * option swimError) :=
  startTime ← onNode now;
  address ← onNode Address;
  hostsMap ← getsJ bootstrapHostsMap;
  match SingleNodeCluster address hostsMap with
  | None => panic
  | Some true => mret ([], None)
  | Some false => joinLoop fuel startTime []
  end.

(** Run an operation of a sender on its node. *)
Definition runJoin {A} (j : joinSender) (m : JS A) : SW A := λ n,
  match m (n, j) with Some (a, s) => Some (a, s.1) | None => None end.

Definition sendJoin (file : string → result (list string)) (fuel : nat) (opts : joinOpts)
    : SW (list string * option swimError) :=
  r ← newJoinSender file opts;
  match r with
  | inr err => mret ([], Some err)
  | inl j => runJoin j (JoinCluster fuel)
  end.

(** ** Node.Bootstrap *)
Definition emptyBootstrapOptions : BootstrapOptions := mkBootstrapOptions None [] "" false 0 0 0 0.

Definition setReady : SW unit :=
  modify (λ n, with_state n (mkFlags (stopped (state n)) (destroyed (state n)) (pinging (state n)) true)).

Definition Bootstrap (file : string → result (list string)) (fuel : nat) (opts : option BootstrapOptions)
    : SW (list string * option swimError) :=
  ch ← gets (λ n, n_channel (config n));
  if negb ch then mret ([], Some ErrChannelRequired)
  else
    let opts := default emptyBootstrapOptions opts in
    match resolveDiscoverProvider opts with
    | inr err => mret ([], Some err)
    | inl provider =>
        Reincarnate;;
        '(joined, err) ← sendJoin file fuel
          (mkJoinOpts (bo_JoinTimeout opts) (bo_JoinSize opts) (bo_MaxJoinDuration opts)
             (bo_ParallelismFactor opts) (Some provider) None);
        match err with
        | Some e => mret ([], Some e)
        | None =>
            when (negb (bo_Stopped opts)) GossipStart;;
            setReady;;
            t ← now;
            modify (λ n, with_startTime n t);;
            mret (joined, None)
        end
    end.
