(* ===== verification/Keeper.v ===== *)
(** * Keeper: what the operations of a node keep, whatever that is

    An invariant of the nodes of a cluster comes with a bound on what may be
    said on the network: which incarnations of which members.  A [Keeper] is
    such an invariant; its laws say that it implies a consistent member list,
    that it does not mind reading and counting, and that [Update] and
    [Reincarnate] keep it, the bound rising for the node itself only.  The file
    proves for every keeper that it is kept by each stretch of a node's code
    between two remote calls.  The keepers are the authority of members over
    their incarnations ([Authority]) and the soundness of a node ([Soundness]). *)
From S2P Require Import Prelude GoStd NodeState Memberlist Disseminator Suspicion Rollup Membership.
From S2P Require Import Frames Advances MembershipSpec UpdateSpec SwimOrder MemberIter Ping NodeCore GossipLoops SwimProps.
From S2P Require Import DisseminatorSpec IterSpec SyncProps Detection Samples JoinDelayer JoinSender.
#[local] Open Scope Z_scope.

(** Operations that take no incarnation and record no change. *)
Record idle (n n' : Node) : Prop := {
  id_config : config n' = config n;
  id_ml : n_memberlist n' = n_memberlist n;
  id_iter : n_memberiter n' = n_memberiter n;
  id_dis : thinned (n_disseminator n) (n_disseminator n');
  id_timers : timers (n_suspicion n') ⊆ timers (n_suspicion n);
  id_period : minProtocolPeriod (n_gossip n') = minProtocolPeriod (n_gossip n);
  id_env : env n' = env n;
  id_tick : (tick n ≤ tick n')%nat
}.
#[global] Instance idle_refl : Reflexive idle.
Proof. by split. Qed.
#[global] Instance idle_trans : Transitive idle.
Proof. intros x y z [] []. split; try congruence; [by etrans|by etrans|lia]. Qed.

Lemma idle_tick n k : (tick n ≤ k)%nat → idle n (with_tick n k).
Proof. by split. Qed.
Lemma idle_emitted n l : idle n (with_emitted n l).
Proof. by split. Qed.

Lemma idle_self n n' : idle n n' → self n' = self n.
Proof. intros Hid. unfold self. by rewrite (id_config _ _ Hid). Qed.

(** Time passes and the gossip part is left alone. *)
Definition aside (n n' : Node) : Prop := (tick n ≤ tick n')%nat ∧ n_gossip n' = n_gossip n.
#[global] Instance aside_stable : Stable aside.
Proof. split; try (by split; simpl; [lia|]). intros x y z [? ?] [? ?]. split; [lia|congruence]. Qed.

(** ** What [Update] does to the iterator, the disseminator and the timers *)
Lemma list_size n : ml_wf n → length (list_ (n_memberlist n)) = size (view n).
Proof.
  intros Hwf. assert (wp (deref_all (list_ (n_memberlist n)))
    (λ ms _, Forall2 (λ p m, heap (n_memberlist n) !! p = Some m) (list_ (n_memberlist n)) ms) n) as Hw.
  { apply deref_all_spec; [by intros; apply wf_deref|done]. }
  destruct (wp_run _ _ _ Hw) as (ms & _ & _ & Hms). rewrite (Forall2_length _ _ _ Hms).
  rewrite <-(length_fmap entry), (entries_view _ _ _ Hwf Hms). apply length_map_to_list.
Qed.

Lemma puts_dom v cs : dom v ⊆ dom (foldl put v cs).
Proof.
  revert v. induction cs as [|c cs IH]; intros v; simpl; [done|].
  etrans; [|apply IH]. unfold put. rewrite dom_insert. set_solver.
Qed.

Lemma updated_iter cs applied n n' : updated cs applied n n' → ml_wf n → iter_ok n → iter_ok n'.
Proof.
  intros Hu Hwf. unfold iter_ok. rewrite (up_iter _ _ _ _ Hu), !list_size by (done || apply Hu).
  assert (size (view n) ≤ size (view n'))%nat; [|lia]. rewrite <-!size_dom. apply subseteq_size.
  rewrite (absorbs_puts _ _ _ _ _ _ (up_abs _ _ _ _ Hu)). apply puts_dom.
Qed.

Lemma records_from cs d a pc :
  foldl record d cs !! a = Some pc → d !! a = Some pc ∨ c_Address (pc_Change pc) = a ∧ pc_Change pc ∈ cs.
Proof.
  revert d. induction cs as [|c cs IH]; intros d; simpl; [by left|]. intros [H|[? ?]]%IH; [|set_solver].
  unfold record in H. destruct (decide (c_Address c = a)) as [Ha|Ha]; simplify_map_eq; [|by left].
  right. set_solver.
Qed.

Lemma suspects_from addr on cs ts a t :
  foldl (suspects addr on) ts cs !! a = Some t →
  ts !! a = Some t ∨ ∃ c, c ∈ cs ∧ t = mkTimer (c_Address c) (c_Incarnation c).
Proof.
  revert ts. induction cs as [|c cs IH]; intros ts; simpl; [by left|]. intros [H|(c' & ? & ?)]%IH; [|set_solver].
  unfold suspects in H. destruct (bool_decide (c_Status c = Suspect)).
  - destruct (_ && _); [|by left]. destruct (decide (c_Address c = a)) as [Ha|Ha]; simplify_map_eq; [|by left].
    right. exists c. set_solver.
  - destruct (bool_decide _); [|by left]. apply lookup_delete_Some in H as [_ H]. by left.
Qed.

(** [Reincarnate] of a node that has its local member. *)
Lemma Reincarnate_updates n Q :
  ml_wf n →
  (∀ c n1, idle n n1 → (tick n < tick n1)%nat → c_Address c = self n → c_Status c = Alive →
     c_Incarnation c = Z.quot (times (env n) (tick n)) 1000000 → wp (Update [c]) Q n1) →
  wp Reincarnate Q n.
Proof.
  intros Hwf HQ. destruct (wf_local _ _ Hwf) as (p & lm & Hp & Hm & _).
  unfold Reincarnate, MakeAlive, MakeChange, nowInMillis. apply wp_bind, wp_gets. fold (self n).
  apply wp_bind, wp_bind, wp_now, wp_ret, wp_bind, wp_emit, wp_bind, wp_gets. simpl. rewrite Hp.
  apply wp_bind, wp_ret, wp_bind, wp_gets, wp_bind. simpl. rewrite Hp. eapply wp_deref; [exact Hm|].
  apply wp_bind, wp_now, HQ; try done; [split; simpl; (done || lia)|simpl; lia].
Qed.

(** ** Keepers *)

(** [may b a i]: under the bound [b], the member [a] may be said to have the
    incarnation [i]; [held b n]: the node [n] keeps to the bound; [raised s b b']:
    the bound has risen from [b] to [b'], for the member [s] only. *)
Class Keeper (B : Type) : Type := {
  may : B → string → Z → Prop;
  held : B → Node → Prop;
  raised : string → B → B → Prop
}.

Definition fair {B} `{Keeper B} (b : B) (c : Change) : Prop :=
  valid_change c ∧ may b (c_Address c) (c_Incarnation c).

(** What an operation leaves: the node keeps to a bound that has risen for itself
    only, and so do the changes [out] it gives away. *)
Definition kept {B} `{Keeper B} (b : B) (n : Node) (out : list Change) (n' : Node) : Prop :=
  ∃ b', raised (self n) b b' ∧ held b' n' ∧ self n' = self n ∧ Forall (fair b') out.

Class KeeperLaws (B : Type) `{Keeper B} : Prop := {
  raised_refl s (b : B) : raised s b b;
  raised_trans s (b1 b2 b3 : B) : raised s b1 b2 → raised s b2 b3 → raised s b1 b3;
  raised_may s (b b' : B) a i : raised s b b' → may b a i → may b' a i;
  held_inv (b : B) n : held b n → node_inv n;
  held_iter (b : B) n : held b n → iter_ok n;
  held_view (b : B) n a ms : held b n → view n !! a = Some ms → may b a ms.1;
  held_local (b : B) n p m :
    held b n → local (n_memberlist n) = Some p → heap (n_memberlist n) !! p = Some m → may b (self n) (m_Incarnation m);
  held_dis (b : B) n a pc :
    held b n → changes (n_disseminator n) !! a = Some pc → c_Address (pc_Change pc) = a ∧ fair b (pc_Change pc);
  held_timers (b : B) n a t : held b n → timers (n_suspicion n) !! a = Some t → may b (t_address t) (t_incarnation t);
  held_idle (b : B) n n' : idle n n' → held b n → held b n';
  held_shuffled (b : B) n n' :
    shuffled n n' → iter_ok n' → n_gossip n' = n_gossip n → (tick n ≤ tick n')%nat → held b n → held b n';
  held_Update (b : B) n cs : held b n → Forall (fair b) cs → wp (Update cs) (λ applied, kept b n applied) n;
  held_Reincarnate (b : B) n : held b n → wp Reincarnate (λ applied, kept b n applied) n
}.

Section keeper.
Context {B : Type} `{KeeperLaws B}.
Implicit Types (b : B).

Lemma held_wf b n : held b n → ml_wf n.
Proof using H0. intros Hb. apply (held_inv b n Hb). Qed.
Lemma held_dis_wf b n : held b n → dis_wf (n_disseminator n).
Proof using H0. intros Hb a pc Hpc. by apply (held_dis b n a pc Hb). Qed.

Lemma fairs_valid b cs : Forall (fair b) cs → Forall valid_change cs.
Proof using. intros Hcs. eapply Forall_impl; [exact Hcs|]. by intros c [? ?]. Qed.
Lemma fairs_raised s b b' cs : raised s b b' → Forall (fair b) cs → Forall (fair b') cs.
Proof using H0.
  intros Hr Hcs. eapply Forall_impl; [exact Hcs|]. intros c [? ?]. split; [done|]. by eapply raised_may.
Qed.

(** ** Running one operation after another *)
Lemma kept_idle b n n' out : idle n n' → held b n → Forall (fair b) out → kept b n out n'.
Proof using H0.
  intros Hid Hb Hout. exists b. split_and!; [apply raised_refl|by eapply held_idle|by apply idle_self|done].
Qed.

Lemma kept_drop b n out n' : kept b n out n' → kept b n [] n'.
Proof using. intros (b' & ? & ? & ? & _). by exists b'. Qed.

Lemma kept_bind {X Y} (m : SW X) (f : X → SW Y) (o1 : X → list Change) (o2 : Y → list Change) b n :
  wp m (λ x, kept b n (o1 x)) n →
  (∀ x n1 b1, held b1 n1 → raised (self n) b b1 → self n1 = self n → Forall (fair b1) (o1 x) →
     wp (f x) (λ y, kept b1 n1 (o2 y)) n1) →
  wp (m ≫= f) (λ y, kept b n (o2 y)) n.
Proof using H0.
  intros Hm Hf. apply wp_bind. eapply wp_mono; [exact Hm|]. intros x n1 (b1 & Hr1 & Hb1 & Hs1 & Ho1).
  eapply wp_mono; [by apply Hf|]. intros y n2 (b2 & Hr2 & Hb2 & Hs2 & Ho2).
  exists b2. split_and!; [|done|congruence|done]. rewrite Hs1 in Hr2. by eapply raised_trans.
Qed.

(** An idle operation first, which may give changes away. *)
Lemma idle_out {X Y} (m : SW X) (f : X → SW Y) (o1 : X → list Change) (o2 : Y → list Change) b n :
  held b n → wp m (λ x n1, idle n n1 ∧ Forall (fair b) (o1 x)) n →
  (∀ x n1, held b n1 → self n1 = self n → Forall (fair b) (o1 x) → wp (f x) (λ y, kept b n1 (o2 y)) n1) →
  wp (m ≫= f) (λ y, kept b n (o2 y)) n.
Proof using H0.
  intros Hb Hm Hf. apply wp_bind. eapply wp_mono; [exact Hm|]. intros x n1 [Hid Ho].
  pose proof (idle_self _ _ Hid) as Hs.
  eapply wp_mono; [apply Hf; [exact (held_idle _ _ _ Hid Hb)|done|done]|].
  intros y n2 (b2 & Hr & Hb2 & Hs2 & Ho2). rewrite Hs in Hr. exists b2. split_and!; [done|done|congruence|done].
Qed.

Lemma idle_bind {X Y} (m : SW X) (f : X → SW Y) (o2 : Y → list Change) b n :
  held b n → wp m (λ _, idle n) n →
  (∀ x n1, held b n1 → self n1 = self n → wp (f x) (λ y, kept b n1 (o2 y)) n1) →
  wp (m ≫= f) (λ y, kept b n (o2 y)) n.
Proof using H0.
  intros Hb Hm Hf. apply (idle_out m f (λ _, [])); [done| |by intros; apply Hf].
  eapply wp_mono; [exact Hm|]. done.
Qed.

Lemma then_ret {X} (m : SW X) b n (out : X → list Change) :
  wp m (λ x, kept b n (out x)) n → wp (m;; mret tt) (λ _, kept b n []) n.
Proof using. intros Hm. apply wp_bind. eapply wp_mono; [exact Hm|]. intros x n' Hk. apply wp_ret. exact (kept_drop _ _ _ _ Hk). Qed.

(** ** Operations built on [Update] *)

(** A node that is not the first of its life has its local member. *)
Lemma MakeChange_kept a i st n b :
  held b n → valid_status st → may b a i → wp (MakeChange a i st) (λ applied, kept b n applied) n.
Proof using H0.
  intros Hb Hst Hi. destruct (wf_local _ _ (held_wf _ _ Hb)) as (p & lm & Hp & Hm & _).
  unfold MakeChange. apply wp_bind, wp_gets. rewrite Hp. apply wp_bind, wp_ret, wp_bind, wp_gets, wp_bind.
  rewrite Hp. eapply wp_deref; [exact Hm|]. apply idle_bind; [done|apply idle_tick; lia|].
  intros t n1 Hb1 Hs1. apply held_Update; [done|]. by constructor.
Qed.

Lemma MakeStatus_kept (st : string) a i n b :
  held b n → valid_status st → may b a i →
  wp (emit (MakeNodeStatusEvent st);; MakeChange a i st) (λ applied, kept b n applied) n.
Proof using H0.
  intros Hb Hst Hi. apply idle_bind; [done|apply idle_emitted|]. intros [] n1 Hb1 _. by apply MakeChange_kept.
Qed.

Lemma known_may b n p m :
  held b n → p ∈ list_ (n_memberlist n) → heap (n_memberlist n) !! p = Some m → may b (m_Address m) (m_Incarnation m).
Proof using H0.
  intros Hb Hp Hm. pose proof (held_wf _ _ Hb) as Hwf. apply (wf_list _ _ Hwf) in Hp as [a Hpa].
  destruct (wf_heap _ _ Hwf _ _ Hpa) as (m' & Hm' & Hadr). simplify_eq.
  apply (held_view b n (m_Address m) (mem_state m) Hb). unfold view. by rewrite lookup_view, Hpa; simpl; rewrite Hm.
Qed.

Lemma suspectMember_kept p n b :
  held b n → p ∈ list_ (n_memberlist n) → wp (suspectMember p) (λ _, kept b n []) n.
Proof using H0.
  intros Hb Hp. destruct (wf_deref n p (held_wf _ _ Hb) Hp) as [m Hm]. unfold suspectMember.
  apply wp_bind. eapply wp_deref; [exact Hm|]. eapply then_ret, MakeStatus_kept; [done|by eexists|].
  by eapply known_may.
Qed.

Lemma Fire_kept a n b : held b n → wp (Fire a) (λ _, kept b n []) n.
Proof using H0.
  intros Hb. unfold Fire. apply wp_bind, wp_gets. destruct (timers (n_suspicion n) !! a) as [t|] eqn:Ht.
  - eapply then_ret, MakeStatus_kept; [done|by eexists|]. by apply (held_timers b n a).
  - apply wp_ret. by apply kept_idle.
Qed.

Lemma adminLeaveHandler_kept n b : held b n → wp adminLeaveHandler (λ _, kept b n []) n.
Proof using H0.
  intros Hb. destruct (wf_local _ _ (held_wf _ _ Hb)) as (p & lm & Hp & Hm & _). unfold adminLeaveHandler.
  apply wp_bind, wp_gets, wp_bind, wp_gets, wp_bind. rewrite Hp. eapply wp_deref; [exact Hm|].
  apply wp_bind. eapply wp_mono; [apply MakeStatus_kept; [done|by eexists|by eapply held_local]|].
  intros applied n' Hk. apply wp_ret. exact (kept_drop _ _ _ _ Hk).
Qed.

Lemma adminJoinHandler_kept n b : held b n → wp adminJoinHandler (λ _, kept b n []) n.
Proof using H0.
  intros Hb. unfold adminJoinHandler. apply wp_bind. eapply wp_mono; [by apply held_Reincarnate|].
  intros a n' Hk. apply wp_ret. exact (kept_drop _ _ _ _ Hk).
Qed.

(** ** What a node tells others *)
Lemma sync_fair b n cs : held b n → centry <$> cs ≡ₚ map_to_list (view n) → Forall (fair b) cs.
Proof using H0.
  intros Ha Hcs. apply Forall_forall. intros c Hc.
  assert (view n !! c_Address c = Some (cstate c)) as Hv.
  { apply elem_of_map_to_list. rewrite <-Hcs. apply list_elem_of_fmap. by exists c. }
  split; [apply (held_inv _ _ Ha) in Hv; exact Hv|]. by apply (held_view _ _ _ _ Ha) in Hv.
Qed.

Lemma issued_fair b n cs :
  held b n → cs ⊆ (λ x : string * pChange, pc_Change x.2) <$> map_to_list (changes (n_disseminator n)) →
  Forall (fair b) cs.
Proof using H0.
  intros Ha Hcs. apply Forall_forall. intros c ([a pc] & -> & Hin)%Hcs%list_elem_of_fmap.
  apply elem_of_map_to_list in Hin. by apply (held_dis b n a pc Ha).
Qed.

Lemma issueChanges_kept n b : held b n → wp issueChanges (λ cs n', idle n n' ∧ Forall (fair b) cs) n.
Proof using H0.
  intros Ha. apply issueChanges_spec; [by eapply held_dis_wf|]. intros cs n' Hcs _ _ ->. split.
  - split; simpl; (done || lia).
  - eapply issued_fair; [done|]. by rewrite Hcs.
Qed.

Lemma Incarnation_idle b n : held b n → wp Incarnation (λ _, idle n) n.
Proof using H0. intros Ha. apply Incarnation_spec; [by eapply held_wf|done]. Qed.

Lemma IssueAsReceiver_kept a i k n b :
  held b n → wp (IssueAsReceiver a i k) (λ r n', idle n n' ∧ Forall (fair b) r.1) n.
Proof using H0.
  intros Ha.
  eapply wp_mono; [apply (respects_wp (R := aside)); [eauto with respects typeclass_instances|];
    apply IssueAsReceiver_spec; eauto using held_wf, held_dis_wf|].
  intros [cs full] n' [[[Hc Hst Hml Hsus He Hit Hdw Hthin] Hans] [Ht Hg]]. simpl in *. split.
  - split; rewrite ?Hsus, ?Hg; done.
  - destruct full; [destruct Hans as (_ & _ & Hcs); by eapply sync_fair|].
    destruct Hans as [Hcs _]. eapply issued_fair; [done|]. intros c Hin. rewrite Hcs in Hin. unfold to_tell in Hin.
    by apply list_elem_of_filter in Hin as [_ Hin].
Qed.

(** Steps that only read or count. *)
Ltac idle_step := apply idle_bind; [eassumption|solve
  [ apply idle_refl | apply idle_emitted | apply idle_tick; lia | by eapply Incarnation_idle
  | split; simpl; (done || lia) ]|];
  let k := fresh "k" in let H := fresh "Hk" in intros ? k H ?.

Lemma preparePing_kept target n b : held b n → wp (preparePing target) (λ req, kept b n (pi_Changes req)) n.
Proof using H0.
  intros Ha. unfold preparePing. eapply idle_out; [done|by apply issueChanges_kept|]. intros cs n1 Ha1 _ Hcs. simpl.
  do 4 idle_step. apply wp_ret. by apply kept_idle.
Qed.

Lemma preparePingRequest_kept target n b :
  held b n → wp (preparePingRequest target) (λ req, kept b n (pr_Changes req)) n.
Proof using H0.
  intros Ha. unfold preparePingRequest. eapply idle_out; [done|by apply issueChanges_kept|]. intros cs n1 Ha1 _ Hcs. simpl.
  do 3 idle_step. apply wp_ret. by apply kept_idle.
Qed.

Lemma bump_idle cs n b : held b n → wp (bumpPiggybackCounters cs) (λ _, idle n) n.
Proof using H0. intros Ha. apply wp_modify. split; simpl; try done. apply bumps_thinned. by eapply held_dis_wf. Qed.

Definition reply_changes (r : result ping) : list Change :=
  match r with inl res => pi_Changes res | inr _ => [] end.
Definition join_changes (r : result joinResponse) : list Change :=
  match r with inl res => jr_Membership res | inr _ => [] end.

Lemma handlePing_kept req n b :
  held b n → Forall (fair b) (pi_Changes req) → wp (handlePing req) (λ r, kept b n (reply_changes r)) n.
Proof using H0.
  intros Ha Hreq. unfold handlePing. apply wp_bind, wp_gets. destruct (ready (state n)); simpl.
  - do 3 idle_step. eapply (kept_bind (Update _) _ id); [by apply held_Update|]. intros applied n1 b1 Ha1 Hl1 _ _.
    eapply (idle_out (IssueAsReceiver _ _ _)); [done|by apply IssueAsReceiver_kept|].
    intros [cs full] n2 Ha2 _ Hcs. simpl. do 2 idle_step. apply wp_ret. by apply kept_idle.
  - idle_step. apply wp_ret. by apply kept_idle.
Qed.

Lemma acceptPingRequest_kept req n b :
  held b n → Forall (fair b) (pr_Changes req) → wp (acceptPingRequest req) (λ _, kept b n []) n.
Proof using H0. intros Ha Hreq. unfold acceptPingRequest. do 3 idle_step. eapply then_ret. by apply held_Update. Qed.

Lemma targetAnswered_kept req t res n b :
  held b n → Forall (fair b) (pi_Changes res) → wp (targetAnswered req t res) (λ _, kept b n []) n.
Proof using H0. intros Ha Hres. unfold targetAnswered. do 3 idle_step. eapply then_ret. by apply held_Update. Qed.

Lemma answerPingRequest_kept req ok n b :
  held b n → wp (answerPingRequest req ok) (λ res, kept b n (ps_Changes res)) n.
Proof using H0.
  intros Ha. unfold answerPingRequest. eapply (idle_out (IssueAsReceiver _ _ _)); [done|by apply IssueAsReceiver_kept|].
  intros [cs full] n1 Ha1 _ Hcs. apply wp_ret. by apply kept_idle.
Qed.

Lemma handleJoin_kept req n b : held b n → wp (handleJoin req) (λ r, kept b n (join_changes r)) n.
Proof using H0.
  intros Ha. unfold handleJoin, validateSourceAddress, validateSourceApp. do 3 idle_step.
  apply wp_bind, wp_bind, wp_gets, wp_ret. case_bool_decide; [apply wp_ret; by apply kept_idle|].
  apply wp_bind, wp_bind, wp_gets, wp_ret. case_bool_decide; [apply wp_ret; by apply kept_idle|]. idle_step.
  eapply (idle_out FullSync); [done| |].
  { apply FullSync_spec; [eapply held_wf; eassumption|]. intros cs Hcs. split; [done|]. eapply sync_fair; [|exact Hcs]; done. }
  intros cs n1 Ha1 _ Hcs. idle_step. apply wp_ret. by apply kept_idle.
Qed.

Lemma pingSucceeded_idle target cs t n b : held b n → wp (pingSucceeded target cs t) (λ _, kept b n []) n.
Proof using H0.
  intros Ha. unfold pingSucceeded. apply idle_bind; [done|by eapply bump_idle|]. intros [] n1 Ha1 _. do 2 idle_step.
  apply wp_emit, kept_idle; [done|done|constructor].
Qed.

Lemma clears_idle addr l n :
  wp (for_each l (λ c, if bool_decide (c_Address c = addr) then mret tt else ClearChange (c_Address c)))
    (λ _, idle n) n.
Proof using H0.
  apply (wp_for_each _ (λ _, idle n)) with (pre := []); [|done]. intros pre c k Hk.
  case_bool_decide; [by apply wp_ret|]. apply wp_modify. trans k; [done|]. split; simpl; try done.
  intros a pc' Hp. simpl in Hp. apply lookup_delete_Some in Hp as [_ Hp]. eauto.
Qed.

Lemma AddJoinList_kept l n b : held b n → Forall (fair b) l → wp (AddJoinList l) (λ _, kept b n []) n.
Proof using H0.
  intros Ha Hl. unfold AddJoinList. eapply (kept_bind (Update l)); [by apply held_Update|].
  intros applied n1 b1 Ha1 _ _ _. idle_step. eapply wp_mono; [apply clears_idle|]. intros [] n2 Hid. by apply kept_idle.
Qed.

Lemma Next_kept n b : held b n → wp Next (λ _, kept b n []) n.
Proof using H0.
  intros Hb. pose proof (held_wf _ _ Hb) as Hwf.
  eapply wp_mono; [apply (respects_wp (R := aside)); [eauto with respects typeclass_instances|];
    apply Next_spec; [done|by eapply held_iter]|].
  intros r n' [(Hsh & Hit & _) [Ht Hg]]. destruct (shuffled_wf _ _ Hsh Hwf) as (_ & _ & Hs).
  exists b. split_and!; [apply raised_refl|by eapply held_shuffled|done|done].
Qed.

(** ** Helpers, periods and figures *)

(** What can be said of the configuration of a node: the options are not negative,
    where the code hands them to a slice or to the generator. *)
Definition sane (n : Node) : Prop := 0 ≤ pingRequestSize (config n) ∧ 0 ≤ minProtocolPeriod (n_gossip n).

Lemma chooseHelpers_idle target size n : ml_wf n → 0 ≤ size → wp (chooseHelpers target size) (λ _, idle n) n.
Proof using.
  intros Hwf Hs. unfold chooseHelpers. apply wp_bind.
  eapply wp_mono; [by apply RandomPingableMembers_spec|]. intros ps n1 (-> & Hps & _). apply wp_bind, deref_all_spec; [done|].
  intros ms _. apply wp_bind, wp_gets, wp_bind, wp_emit, wp_bind, wp_order, wp_ret. split; simpl; (done || lia).
Qed.

Lemma reportHelper_idle target peers peer start answered n : wp (reportHelper target peers peer start answered) (λ _, idle n) n.
Proof using.
  unfold reportHelper. apply wp_bind, wp_gets. destruct answered; [apply wp_bind, wp_now|]; apply wp_emit; split; simpl; (done || lia).
Qed.

Lemma recordPeriod_idle start n : wp (recordPeriod start) (λ _, idle n) n.
Proof using. unfold recordPeriod. apply wp_bind, wp_now, wp_bind, wp_now, wp_modify. split; simpl; (done || lia). Qed.

Lemma AdjustProtocolRate_idle n : wp AdjustProtocolRate (λ _, idle n) n.
Proof using. unfold AdjustProtocolRate. apply wp_bind, wp_gets, wp_modify. by split. Qed.

Lemma ComputeProtocolDelay_idle n :
  numPeriods (n_gossip n) ≠ 0 ∨ 0 ≤ minProtocolPeriod (n_gossip n) → wp ComputeProtocolDelay (λ _, idle n) n.
Proof using.
  intros Hn. unfold ComputeProtocolDelay. apply wp_bind, wp_gets. case_bool_decide; [apply wp_bind, wp_now, wp_ret; split; simpl; (done || lia)|].
  rewrite bool_decide_false by lia. apply wp_bind, wp_sample, wp_ret. split; simpl; (done || lia).
Qed.

(** The test of a protocol loop and the delay. *)
Lemma beginTurn_idle n :
  g_stopped (n_gossip n) = true ∨ numPeriods (n_gossip n) ≠ 0 ∨ 0 ≤ minProtocolPeriod (n_gossip n) →
  wp (periodMove PCheck) (λ _, idle n) n.
Proof using.
  intros Hn. simpl. apply wp_bind, wp_gets. destruct (g_stopped (n_gossip n)); [by apply wp_ret|].
  apply wp_bind. eapply wp_mono; [apply ComputeProtocolDelay_idle; naive_solver|]. intros d n1 H1.
  apply wp_bind, wp_emit, wp_bind, wp_now, wp_ret. trans n1; [done|]. split; simpl; (done || lia).
Qed.

Lemma readMembers_idle n : ml_wf n → wp (MemberStats;; GetReachableMembers;; CountReachableMembers) (λ _, idle n) n.
Proof using.
  assert (∀ (Q : list Member → Node → Prop), ml_wf n → (∀ ms, Q ms n) → wp GetMembers Q n) as HG.
  { intros Q Hwf HQ. unfold GetMembers. apply wp_bind, wp_gets, deref_all_spec; [by intros; apply wf_deref|auto]. }
  intros Hwf. unfold MemberStats, GetReachableMembers, CountReachableMembers.
  apply wp_bind, wp_bind, HG; [done|]. intros ms. apply wp_bind, wp_gets, wp_ret.
  apply wp_bind, wp_bind, HG; [done|]. intros ms'. apply wp_ret, wp_bind, HG; [done|]. intros ms''. by apply wp_ret.
Qed.

(** ** Life cycle *)
Lemma NodeStart_idle n : wp NodeStart (λ _, idle n) n.
Proof using.
  unfold NodeStart, GossipStart, GossipStopped, SetStopped, Reenable, modify_gos, modify_sus, gets, modify, wp, mbind,
    M_bind. simpl. destruct (g_stopped (n_gossip n)), (enabled (n_suspicion n)) eqn:He; simpl; rewrite He; by split.
Qed.

Lemma NodeStop_idle n : wp NodeStop (λ _, idle n) n.
Proof using.
  unfold NodeStop, GossipStop, GossipStopped, SetStopped, Disable, modify_gos, modify_sus, gets, modify, wp, mbind,
    M_bind. simpl. destruct (g_stopped (n_gossip n)), (enabled (n_suspicion n)) eqn:He; simpl; rewrite He;
    split; simpl; try done; apply map_empty_subseteq.
Qed.

Lemma gossipHandler_idle n : wp gossipHandler (λ _, idle n) n.
Proof using.
  unfold gossipHandler, GossipStart, GossipStop, GossipStopped, SetStopped, modify_gos, gets, modify, wp, mbind, M_bind.
  simpl. destruct (g_stopped (n_gossip n)) eqn:Hg; simpl; rewrite Hg; by split.
Qed.

Lemma Destroy_idle n : wp Destroy (λ _, idle n) n.
Proof using.
  unfold Destroy. apply wp_bind. eapply wp_mono; [apply NodeStop_idle|]. intros [] n1 H1.
  apply wp_bind, wp_modify, wp_modify. trans n1; [done|]. by split.
Qed.

Lemma flushTick_idle n : wp flushTick (λ _, idle n) n.
Proof using.
  unfold flushTick, FlushBuffer, RenewFlushTimer. apply wp_bind, wp_bind, wp_gets.
  case_bool_decide; [apply wp_ret|apply wp_bind, wp_now, wp_modify]; apply wp_bind, wp_now, wp_modify;
    split; simpl; (done || lia).
Qed.

End keeper.
