(* ===== verification/Authority.v ===== *)
(** * Authority: who may say which incarnation a member has

    Only a member itself takes a new incarnation; the others repeat what they
    heard.  A [ceiling] gives the incarnation each member has taken so far.
    [auth L n] says that the node [n] believes, disseminates and times no
    incarnation above the ceiling [L], and that it speaks for itself: its own
    entry is alive or leaving, with the incarnation the ceiling gives it, which
    is not ahead of its clock, which does not step back.  The file proves that
    ceilings make a [Keeper]: [Update] keeps a node under its ceiling when it is
    fed with changes under it, the node's own ceiling rising when it takes a new
    incarnation, and so do, by the lemmas of [Keeper], all its operations. *)
From S2P Require Import Prelude GoStd NodeState Memberlist Disseminator Suspicion Rollup Membership.
From S2P Require Import Frames Advances MembershipSpec UpdateSpec SwimOrder MemberIter Ping NodeCore SwimProps.
From S2P Require Import DisseminatorSpec IterSpec SyncProps Samples Keeper.
#[local] Open Scope Z_scope.

(** ** Ceilings *)
Abbreviation ceiling := (gmap string Z).

Definition within (L : ceiling) (a : string) (i : Z) : Prop := ∃ o, L !! a = Some o ∧ i ≤ o.
Definition believes (L : ceiling) (v : gmap string mstate) : Prop := map_Forall (λ a ms, within L a ms.1) v.

Definition millis (u : Z) : Z := Z.quot u 1000000.
Lemma millis_mono u u' : u ≤ u' → millis u ≤ millis u'.
Proof. intros H. unfold millis. by apply Z.quot_le_mono. Qed.

(** The node [addr] speaks for itself. *)
Definition speaks (addr : string) (o : Z) (v : gmap string mstate) : Prop :=
  ∃ st, v !! addr = Some ((o, st) : mstate) ∧ (st = Alive ∨ st = Leave).

(** A ceiling below another one. *)
Definition lower (L L' : ceiling) : Prop := ∀ a o, L !! a = Some o → within L' a o.
#[global] Instance lower_refl : Reflexive lower.
Proof. intros L a o H. exists o. split; [done|lia]. Qed.
#[global] Instance lower_trans : Transitive lower.
Proof.
  intros L1 L2 L3 H12 H23 a o H. destruct (H12 _ _ H) as (o2 & H2 & ?). destruct (H23 _ _ H2) as (o3 & H3 & ?).
  exists o3. split; [done|lia].
Qed.

Lemma within_lower L L' a i : lower L L' → within L a i → within L' a i.
Proof. intros H (o & Ho & ?). destruct (H _ _ Ho) as (o' & ? & ?). exists o'. split; [done|lia]. Qed.
Lemma believes_lower L L' v : lower L L' → believes L v → believes L' v.
Proof. intros H Hb a ms Hms. eapply within_lower; [done|]. by apply (Hb a ms). Qed.
Lemma lower_raise L a o o' : L !! a = Some o → o ≤ o' → lower L (<[a := o']> L).
Proof.
  intros Ho Hle b i Hb. destruct (decide (a = b)) as [->|Hne].
  - exists o'. rewrite lookup_insert_eq. simplify_eq. done.
  - exists i. rewrite lookup_insert_ne by done. split; [done|lia].
Qed.
(** A change under the ceiling; it is what [fair] says of the keeper below. *)
Definition under (L : ceiling) (c : Change) : Prop :=
  valid_change c ∧ within L (c_Address c) (c_Incarnation c).
Lemma under_lower L L' c : lower L L' → under L c → under L' c.
Proof. intros H [? ?]. split; [done|]. by eapply within_lower. Qed.
Lemma unders_lower L L' cs : lower L L' → Forall (under L) cs → Forall (under L') cs.
Proof. intros H Hcs. eapply Forall_impl; [exact Hcs|]. intros c. by apply under_lower. Qed.
Lemma unders_valid L cs : Forall (under L) cs → Forall valid_change cs.
Proof. intros Hcs. eapply Forall_impl; [exact Hcs|]. by intros c [? ?]. Qed.

Lemma believes_put L v c : under L c → believes L v → believes L (put v c).
Proof. intros [_ Hc] Hv. by apply map_Forall_insert_2. Qed.

(** ** What a node applies is under the ceiling *)

(** [o'] is [o] or a new incarnation read from the clock. *)
Definition taken (r : list Z) (o o' : Z) : Prop := o ≤ o' ∧ (o' = o ∨ ∃ u, u ∈ r ∧ o' = millis u).

Lemma decision_auth r addr v c a L o :
  decision r addr v c a → under L c → believes L v → L !! addr = Some o → speaks addr o v →
  (∀ u, u ∈ r → o ≤ millis u) →
  ∃ o', taken r o o' ∧ believes (<[addr := o']> L) (put_opt v a) ∧ speaks addr o' (put_opt v a) ∧
    ∀ c', a = Some c' → under (<[addr := o']> L) c'.
Proof.
  intros Hd Hc Hv HL (st & Hst & Hown) Hr.
  assert (taken r o o) as Hid by (split; [lia|by left]).
  assert (∀ c', under L c' → c_Address c' ≠ addr ∨ cstate c' = (o, c_Status c') ∧
      (c_Status c' = Alive ∨ c_Status c' = Leave) → a = Some c' →
    ∃ o', taken r o o' ∧ believes (<[addr := o']> L) (put_opt v a) ∧ speaks addr o' (put_opt v a) ∧
      ∀ c', a = Some c' → under (<[addr := o']> L) c') as Happ.
  { intros c' Hc' Hcase ->. exists o. rewrite insert_id by done. simpl.
    split_and!; [done|by apply believes_put| |by intros ? [= <-]]. unfold put.
    destruct (decide (c_Address c' = addr)) as [Ha|Ha].
    - destruct Hcase as [?|[[= Hi] Hs]]; [done|]. exists (c_Status c'). by rewrite Ha, Hi, lookup_insert_eq.
    - exists st. by rewrite lookup_insert_ne. }
  unfold decision in Hd. destruct (v !! c_Address c) as [ms|] eqn:Hms.
  - destruct (bool_decide (c_Address c = addr) && is_rumour c) eqn:Hloc.
    + apply andb_true_iff in Hloc as [Ha _]. apply bool_decide_eq_true in Ha. destruct Hd as (u & t & Hu & ->).
      exists (millis u). assert (under (<[addr := millis u]> L) (mkChange (c_Source c) (c_SourceIncarnation c)
        (c_Address c) (Z.quot u 1000000) Alive t)) as Hf.
      { split; [apply valid_Alive|]. exists (millis u). simpl. rewrite Ha, lookup_insert_eq. done. }
      split_and!; [by split; [apply Hr|right; exists u]| |exists Alive|by intros ? [= <-]].
      * apply believes_put; [done|]. eapply believes_lower; [|done]. eapply lower_raise; [done|]. by apply Hr.
      * simpl. unfold put. simpl. rewrite Ha, lookup_insert_eq. auto.
    + destruct (beats c ms) eqn:Hb; [|exists o; subst a; rewrite insert_id by done; split_and!;
        [done|done|by exists st|done]].
      apply (Happ c); [done| |done]. destruct (decide (c_Address c = addr)) as [Ha|Ha]; [|by left]. right.
      rewrite Ha, bool_decide_true in Hloc by done. simpl in Hloc. unfold is_rumour in Hloc.
      apply orb_false_iff in Hloc as [Hf Hs]. apply bool_decide_eq_false in Hf, Hs.
      destruct Hc as [Hval (o1 & Ho1 & Hle)]. rewrite Ha in Ho1, Hms. 
      pose proof (eq_trans (eq_sym Hms) Hst) as [= ->]. simplify_eq.
      unfold beats in Hb. simpl in Hb. unfold cstate.
      apply orb_true_iff in Hb as [Hb|[Hb _]%andb_true_iff]; apply bool_decide_eq_true in Hb; [lia|].
      split; [by rewrite Hb|]. destruct (valid_cases _ Hval) as [?|[?|[?|?]]]; tauto.
  - apply (Happ c); [done| |done]. left. intros Ha. congruence.
Qed.

Lemma taken_app r1 r2 o o1 o2 : taken r1 o o1 → taken r2 o1 o2 → taken (r1 ++ r2) o o2.
Proof.
  intros [H1 C1] [H2 C2]. split; [lia|]. destruct C2 as [->|(u & Hu & ->)].
  - destruct C1 as [->|(u & Hu & ->)]; [by left|]. right. exists u. set_solver.
  - right. exists u. set_solver.
Qed.

Lemma absorbs_auth addr r v cs as_ v' L o :
  absorbs addr r v cs as_ v' → Forall (under L) cs → believes L v → L !! addr = Some o → speaks addr o v →
  StronglySorted Z.le r → (∀ u, u ∈ r → o ≤ millis u) →
  ∃ o', taken r o o' ∧ believes (<[addr := o']> L) v' ∧ speaks addr o' v' ∧ Forall (under (<[addr := o']> L)) as_.
Proof.
  intros H. revert L o. induction H as [r v|r1 r2 r v c a cs as_ v' Hd _ IH Hsub];
    intros L o Hcs Hv HL Hsp Hsort Hr.
  { exists o. rewrite insert_id by done. split_and!; [by split; [lia|left]|done..]. }
  apply Forall_cons in Hcs as [Hc Hcs]. pose proof (StronglySorted_sublist _ _ _ Hsub Hsort) as Hs12.
  assert (∀ u, u ∈ r1 ++ r2 → u ∈ r) as Hin by (intros u Hu; by eapply elem_of_sublist).
  destruct (decision_auth _ _ _ _ _ L o Hd Hc Hv HL Hsp) as (o1 & Ht1 & Hv1 & Hsp1 & Ha).
  { intros u Hu. apply Hr, Hin. set_solver. }
  assert (lower L (<[addr := o1]> L)) as Hlow by (eapply lower_raise; [done|apply Ht1]).
  destruct (IH (<[addr := o1]> L) o1) as (o2 & Ht2 & Hv2 & Hsp2 & Has).
  - by eapply unders_lower.
  - done.
  - apply lookup_insert_eq.
  - done.
  - by eapply StronglySorted_app_1_r.
  - intros u Hu. destruct Ht1 as [_ [->|(u1 & Hu1 & ->)]]; [apply Hr, Hin; set_solver|].
    apply millis_mono. by eapply StronglySorted_app_1_elem_of.
  - rewrite insert_insert_eq in *. exists o2. split_and!; [|done|done|].
    + destruct (taken_app _ _ _ _ _ Ht1 Ht2) as [Hle Hc2]. split; [done|].
      destruct Hc2 as [?|(u & Hu & ?)]; [by left|right]. exists u. split; [by apply Hin|done].
    + destruct a as [a|]; [|done]. constructor; [|done]. eapply under_lower, (Ha a); [|done].
      pose proof (lower_raise (<[addr := o1]> L) addr o1 o2) as Hl. rewrite insert_insert_eq in Hl.
      apply Hl; [apply lookup_insert_eq|apply Ht2].
Qed.

(** ** The node under its ceiling *)
Record auth (L : ceiling) (n : Node) : Prop := {
  au_inv : node_inv n;
  au_iter : iter_ok n;
  au_view : believes L (view n);
  au_own : ∃ o, L !! self n = Some o ∧ speaks (self n) o (view n) ∧ o ≤ millis (times (env n) (tick n));
  au_dis : ∀ a pc, changes (n_disseminator n) !! a = Some pc →
    c_Address (pc_Change pc) = a ∧ under L (pc_Change pc);
  au_timers : ∀ a t, timers (n_suspicion n) !! a = Some t → within L (t_address t) (t_incarnation t);
  au_clock : monotone_clock (env n)
}.

Lemma au_wf L n : auth L n → ml_wf n.
Proof. intros Ha. apply (au_inv _ _ Ha). Qed.
(** Only the ceiling of [addr] has risen. *)
Definition raises (addr : string) (L L' : ceiling) : Prop := lower L L' ∧ ∀ b, b ≠ addr → L' !! b = L !! b.

Lemma own_later n k o :
  monotone_clock (env n) → o ≤ millis (times (env n) (tick n)) → (tick n ≤ k)%nat → o ≤ millis (times (env n) k).
Proof. intros Hc Ho Hk. etrans; [exact Ho|]. apply millis_mono. by apply Hc. Qed.

Lemma idle_auth L n n' : idle n n' → auth L n → auth L n'.
Proof.
  intros [Hc Hm Hi Hd Ht _ He Hk] [Hinv Hit Hv (o & HL & Hsp & Ho) Hdis Htim Hclk].
  split; unfold node_inv, ml_wf, iter_ok, view, self in *; rewrite ?Hc, ?Hm, ?Hi, ?He; try done.
  - exists o. split_and!; [done|done|]. by eapply own_later.
  - intros a pc' (pc & Hpc & <-)%Hd. by apply Hdis.
  - intros a t Ha. apply (Htim a). by eapply lookup_weaken.
Qed.

(** ** Ceilings make a keeper *)
#[global] Instance ceiling_keeper : Keeper ceiling := { may := within; held := auth; raised := raises }.

Lemma kept_same (L : ceiling) n n' : idle n n' → auth L n → kept L n [] n'.
Proof.
  intros Hid Ha. exists L. split_and!; [by split|by eapply idle_auth|by apply idle_self|done].
Qed.

(** The node took the incarnation [o'] while it applied a batch. *)
Lemma updated_kept cs applied n n' L o o' :
  updated cs applied n n' → (tick n ≤ tick n')%nat → auth L n → L !! self n = Some o → o ≤ o' →
  o' ≤ millis (times (env n) (tick n')) → believes (<[self n := o']> L) (view n') → speaks (self n) o' (view n') →
  Forall (under (<[self n := o']> L)) applied → kept L n applied n'.
Proof.
  intros Hu Ht [Hinv Hit _ _ Hdis Htim Hclk] HL Hle Ho Hv' Hsp' Has.
  assert (lower L (<[self n := o']> L)) as Hlow by by eapply lower_raise.
  assert (self n' = self n) as Hself by (unfold self; by rewrite (up_config _ _ _ _ Hu)).
  exists (<[self n := o']> L). split_and!; [|split|done|done].
  - split; [done|]. intros b Hb. by rewrite lookup_insert_ne.
  - split; apply Hu.
  - eapply updated_iter; [done|apply Hinv|done].
  - done.
  - exists o'. rewrite Hself, lookup_insert_eq, (up_env _ _ _ _ Hu). done.
  - intros a pc Hpc. rewrite (up_changes _ _ _ _ Hu) in Hpc. apply records_from in Hpc as [Hpc|[? Hin]].
    + destruct (Hdis _ _ Hpc). split; [done|]. by eapply under_lower.
    + split; [done|]. rewrite Forall_forall in Has. by apply Has.
  - intros a t Hat. rewrite (up_timers _ _ _ _ Hu) in Hat. apply suspects_from in Hat as [Hat|(c & Hin & ->)].
    + eapply within_lower, Htim; done.
    + rewrite Forall_forall in Has. apply (Has c Hin).
  - by rewrite (up_env _ _ _ _ Hu).
Qed.

Lemma updated_auth cs applied n n' L :
  updated cs applied n n' → (tick n ≤ tick n')%nat → auth L n → Forall (under L) cs → kept L n applied n'.
Proof.
  intros Hu Ht Ha Hcs. destruct (au_own _ _ Ha) as (o & HL & Hsp & Ho).
  pose proof (au_clock _ _ Ha) as Hclk.
  destruct (absorbs_auth _ _ _ _ _ _ L o (up_abs _ _ _ _ Hu) Hcs (au_view _ _ Ha) HL Hsp)
    as (o' & [Hle Htk] & Hv' & Hsp' & Has).
  { by apply readings_sorted. }
  { intros u (k & [? _] & ->)%elem_of_readings. by eapply own_later. }
  eapply updated_kept; try done.
  destruct Htk as [->|(u & (k & [_ ?] & ->)%elem_of_readings & ->)]; [by eapply own_later|].
  apply millis_mono, Hclk. lia.
Qed.

Lemma Update_auth cs n L :
  auth L n → Forall (under L) cs → wp (Update cs) (λ applied, kept L n applied) n.
Proof.
  intros Ha Hcs. pose proof (au_inv _ _ Ha) as [Hwf Hvv].
  eapply wp_mono; [apply advances_wp; [eauto with respects typeclass_instances|apply Update_spec; [done|done|by eapply unders_valid]]|].
  intros applied n' [Hp Ht]. destruct (_ || _).
  - destruct Hp as [-> ->]. by apply kept_same.
  - by eapply updated_auth.
Qed.

(** The local member is the node's own entry. *)
Lemma local_within L n p m :
  auth L n → local (n_memberlist n) = Some p → heap (n_memberlist n) !! p = Some m →
  within L (self n) (m_Incarnation m).
Proof.
  intros Ha Hp Hm. destruct (au_own _ _ Ha) as (o & HL & (st & Hst & _) & _). unfold view in Hst.
  rewrite lookup_view in Hst. destruct (byAddress (n_memberlist n) !! self n) as [q|] eqn:Hq; [|done].
  pose proof (wf_self _ _ (au_wf _ _ Ha) q Hq) as Hloc. rewrite Hp in Hloc. injection Hloc as ->.
  simpl in Hst. rewrite Hm in Hst. injection Hst as <- _. exists (m_Incarnation m). split; [done|lia].
Qed.

(** Taking a new incarnation: the clock is not behind the one in use. *)
Lemma Update_own c n L o :
  auth L n → L !! self n = Some o → c_Address c = self n → c_Status c = Alive →
  o ≤ c_Incarnation c ≤ millis (times (env n) (tick n)) → wp (Update [c]) (λ applied, kept L n applied) n.
Proof.
  intros Ha HL Hadr Hst Hi. destruct (au_own _ _ Ha) as (o' & HL' & (st & Hv & Hown) & Ho). simplify_eq.
  assert (valid_change c) as Hc by (unfold valid_change; rewrite Hst; apply valid_Alive).
  eapply wp_mono; [apply advances_wp; [eauto with respects typeclass_instances|apply Update_spec; [apply (au_inv _ _ Ha)..|by constructor]]|].
  intros applied n' [Hp Ht]. destruct (_ || _); [destruct Hp as [-> ->]; by apply kept_same|].
  destruct (absorbs_one _ _ _ _ _ _ (up_abs _ _ _ _ Hp)) as (a & Hd & -> & Hv'). unfold decision in Hd.
  rewrite Hadr, Hv in Hd. unfold is_rumour in Hd. rewrite Hst, andb_false_r in Hd.
  destruct (beats c (o, st)); subst a; simpl in *.
  - assert (under (<[self n := c_Incarnation c]> L) c) as Hf.
    { split; [done|]. exists (c_Incarnation c). rewrite Hadr, lookup_insert_eq. done. }
    eapply (updated_kept _ _ _ _ _ o (c_Incarnation c)); try done; [lia|..].
    + eapply own_later; [apply Ha|lia|done].
    + rewrite Hv'. apply believes_put; [done|]. eapply believes_lower, Ha. eapply lower_raise; [done|lia].
    + rewrite Hv'. exists (c_Status c). unfold put. rewrite Hadr, lookup_insert_eq. auto.
    + by constructor.
  - eapply (updated_kept _ _ _ _ _ o o); try done; rewrite ?insert_id by done.
    + eapply own_later; [apply Ha|done|done].
    + rewrite Hv'. apply Ha.
    + rewrite Hv'. by exists st.
Qed.

Lemma Reincarnate_auth n L : auth L n → wp Reincarnate (λ applied, kept L n applied) n.
Proof.
  intros Ha. destruct (au_own _ _ Ha) as (o & HL & _ & Ho). apply Reincarnate_updates; [by eapply au_wf|].
  intros c n1 Hid Ht Hadr Hst Hinc. pose proof (idle_self _ _ Hid) as Hs. pose proof (idle_auth _ _ _ Hid Ha) as Ha1.
  rewrite <-Hs in HL, Hadr. eapply wp_mono; [apply (Update_own c n1 L o); try done|].
  - rewrite Hinc, (id_env _ _ Hid). split; [done|]. apply millis_mono, (au_clock _ _ Ha). lia.
  - intros applied n' Hk. unfold kept in *. by rewrite <-Hs.
Qed.

Lemma shuffled_auth L n n' : shuffled n n' → iter_ok n' → (tick n ≤ tick n')%nat → auth L n → auth L n'.
Proof.
  intros Hsh Hit Ht Ha. destruct (shuffled_wf _ _ Hsh (au_wf _ _ Ha)) as (Hwf' & Hv & Hs).
  destruct Ha as [[_ Hvv] _ Hbel (o & HL & Hsp & Ho) Hdis Htim Hclk].
  split; rewrite ?Hs, ?Hv, ?(sh_env _ _ Hsh), ?(sh_dis _ _ Hsh), ?(sh_sus _ _ Hsh); try done.
  - split; [done|]. by rewrite Hv.
  - exists o. split_and!; [done|done|]. by eapply own_later.
Qed.

#[global] Instance ceiling_laws : KeeperLaws ceiling.
Proof.
  split; unfold held, may, raised; simpl.
  - by split.
  - intros s L1 L2 L3 [H12 R12] [H23 R23]. split; [by etrans|]. intros b Hb. by rewrite R23, R12.
  - intros s L L' a i [Hl _]. by apply within_lower.
  - apply au_inv.
  - apply au_iter.
  - intros L n a ms Ha. apply (au_view _ _ Ha).
  - apply local_within.
  - intros L n a pc Ha. apply (au_dis _ _ Ha).
  - intros L n a t Ha. apply (au_timers _ _ Ha).
  - intros L n n'. apply idle_auth.
  - intros L n n' Hsh Hit _. by apply shuffled_auth.
  - intros L n cs. apply Update_auth.
  - intros L n. apply Reincarnate_auth.
Qed.

(** ** Processes that start, and nodes elsewhere *)

(** The first incarnation of a new process. *)
Lemma boot_auth app address channel opts e L :
  monotone_clock e →
  wp Reincarnate (λ _ n, self n = address ∧ auth (<[address := millis (times e 1)]> L) n)
    (NewNode app address channel opts e).
Proof.
  intros Hclk. eapply wp_mono; [apply Reincarnate_first|].
  intros _ n (ml & t & c & Hwf & Hv & Ht & Hadr & Hst & Hinc & Hu & Htn). set (L' := <[address := _]> L).
  assert (self n = address) as Hs by (unfold self; by rewrite (up_config _ _ _ _ Hu)). split; [done|].
  assert (under L' c) as Hf.
  { split; [unfold valid_change; rewrite Hst; apply valid_Alive|]. exists (millis (times e 1)). unfold L'.
    rewrite Hadr, Hinc, lookup_insert_eq. done. }
  assert (view n = put ∅ c) as Hview.
  { rewrite (absorbs_puts _ _ _ _ _ _ (up_abs _ _ _ _ Hu)), Hv. done. }
  split.
  - split; apply Hu.
  - unfold iter_ok. rewrite (up_iter _ _ _ _ Hu). simpl. lia.
  - rewrite Hview. apply believes_put; [done|]. apply map_Forall_empty.
  - exists (millis (times e 1)). rewrite Hs, Hview, (up_env _ _ _ _ Hu). unfold L'. rewrite lookup_insert_eq.
    split_and!; [done| |apply millis_mono, Hclk; lia]. exists Alive. unfold put.
    rewrite Hadr, lookup_insert_eq, Hinc, Hst. auto.
  - intros a pc. rewrite (up_changes _ _ _ _ Hu). simpl. unfold record.
    intros [[<- <-]|[_ ?]]%lookup_insert_Some; [done|]. done.
  - intros a tm. rewrite (up_timers _ _ _ _ Hu). simpl. unfold suspects. rewrite Hst. simpl.
    intros [_ ?]%lookup_delete_Some. done.
  - by rewrite (up_env _ _ _ _ Hu).
Qed.

(** Nodes other than the one whose ceiling rises. *)
Lemma auth_raise L L' n : lower L L' → L' !! self n = L !! self n → auth L n → auth L' n.
Proof.
  intros Hl Heq [Hinv Hit Hv (o & HL & Hsp & Ho) Hdis Htim Hclk].
  split; [done|done|by eapply believes_lower| | | |done].
  - exists o. by rewrite Heq.
  - intros a pc Hpc. destruct (Hdis _ _ Hpc). split; [done|]. by eapply under_lower.
  - intros a t Ht. eapply within_lower, Htim; done.
Qed.
