(* ===== verification/Soundness.v ===== *)
(** * Soundness: what a node needs for its own code to run

    [sound n] says that the member list of [n] is consistent (one object per
    address, known statuses), that the iterator is inside it, that the
    disseminator keeps valid changes under their addresses, and that the options
    the code hands to a slice and to the random generator are not negative.  It
    is a [Keeper] that bounds nothing: it asks nothing of the clock and nothing
    of the incarnations in the messages, and so holds of any history of a node
    whose options are sensible. *)
From S2P Require Import Prelude GoStd NodeState Memberlist Disseminator Suspicion Rollup Membership.
From S2P Require Import Frames Advances MembershipSpec UpdateSpec SwimOrder MemberIter Ping NodeCore SwimProps.
From S2P Require Import DisseminatorSpec IterSpec SyncProps Samples Keeper.
#[local] Open Scope Z_scope.

Record sound (n : Node) : Prop := {
  so_inv : node_inv n;
  so_iter : iter_ok n;
  so_dis : ∀ a pc, changes (n_disseminator n) !! a = Some pc →
    c_Address (pc_Change pc) = a ∧ valid_change (pc_Change pc);
  so_sane : sane n
}.

(** No bound on what is said. *)
Variant unbounded : Type := Unbounded.
#[global] Instance sound_keeper : Keeper unbounded :=
  { may := λ _ _ _, True; held := λ _, sound; raised := λ _ _ _, True }.

Lemma fair_valid (b : unbounded) c : fair b c ↔ valid_change c.
Proof. unfold fair. simpl. tauto. Qed.
Lemma fairs_are_valid (b : unbounded) cs : Forall (fair b) cs ↔ Forall valid_change cs.
Proof. split; intros H; (eapply Forall_impl; [exact H|]); intros c; apply (fair_valid b). Qed.

Lemma sound_kept b n out n' : sound n' → self n' = self n → Forall valid_change out → kept b n out n'.
Proof. intros Hn Hs Hout. exists Unbounded. split_and!; [done|done|done|by apply fairs_are_valid]. Qed.

Lemma idle_sound n n' : idle n n' → sound n → sound n'.
Proof.
  intros [Hc Hm Hi Hd Ht Hp He Hk] [Hinv Hit Hdis Hs].
  split; unfold node_inv, ml_wf, iter_ok, view, sane, self in *; rewrite ?Hc, ?Hm, ?Hi, ?Hp; try done.
  intros a pc' (pc & Hpc & <-)%Hd. by apply Hdis.
Qed.

Lemma shuffled_sound n n' : shuffled n n' → iter_ok n' → n_gossip n' = n_gossip n → sound n → sound n'.
Proof.
  intros Hsh Hit Hg [[Hwf Hvv] _ Hdis Hs]. destruct (shuffled_wf _ _ Hsh Hwf) as (Hwf' & Hv & _).
  split; unfold node_inv, sane in *; rewrite ?Hv, ?(sh_dis _ _ Hsh), ?(sh_config _ _ Hsh), ?Hg; done.
Qed.

(** ** [Update] and [Reincarnate] *)
Lemma updated_dis_valid cs applied n n' :
  updated cs applied n n' → Forall valid_change applied →
  (∀ a pc, changes (n_disseminator n) !! a = Some pc → c_Address (pc_Change pc) = a ∧ valid_change (pc_Change pc)) →
  ∀ a pc, changes (n_disseminator n') !! a = Some pc → c_Address (pc_Change pc) = a ∧ valid_change (pc_Change pc).
Proof.
  intros Hu Has Hdis a pc Hpc. rewrite (up_changes _ _ _ _ Hu) in Hpc.
  apply records_from in Hpc as [Hpc|[? Hin]]; [by apply Hdis|]. split; [done|].
  rewrite Forall_forall in Has. by apply Has.
Qed.

Lemma updated_sound cs applied n n' :
  updated cs applied n n' → Forall valid_change cs → sound n → sound n' ∧ Forall valid_change applied.
Proof.
  intros Hu Hcs [[Hwf Hvv] Hit Hdis Hs]. assert (Forall valid_change applied) as Has.
  { by eapply absorbs_valid; [apply Hu|..]. }
  split; [split|done].
  - split; apply Hu.
  - by eapply updated_iter.
  - by eapply updated_dis_valid.
  - unfold sane. by rewrite (up_config _ _ _ _ Hu), (up_gos _ _ _ _ Hu).
Qed.

Lemma Update_sound (b : unbounded) n cs :
  sound n → Forall valid_change cs → wp (Update cs) (λ applied, kept b n applied) n.
Proof.
  intros Hn Hcs. pose proof (so_inv _ Hn) as [Hwf Hvv]. eapply wp_mono; [by apply Update_spec|].
  intros applied n' Hp. destruct (_ || _); [destruct Hp as [-> ->]; by apply sound_kept|].
  destruct (updated_sound _ _ _ _ Hp Hcs Hn). apply sound_kept; [done| |done].
  unfold self. by rewrite (up_config _ _ _ _ Hp).
Qed.

#[global] Instance sound_laws : KeeperLaws unbounded.
Proof.
  split; unfold held, may, raised; simpl; try done.
  - intros _ n. apply so_inv.
  - intros _ n. apply so_iter.
  - intros b n a pc Hn Hpc. rewrite fair_valid. by apply (so_dis _ Hn).
  - intros _ n n'. apply idle_sound.
  - intros _ n n' Hsh Hit Hg _. by apply shuffled_sound.
  - intros b n cs Hn Hcs. apply Update_sound; [done|by apply (fairs_are_valid b)].
  - intros b n Hn. apply Reincarnate_updates; [apply (so_inv _ Hn)|]. intros c n1 Hid _ _ Hst _.
    pose proof (idle_self _ _ Hid) as Hs. eapply wp_mono; [apply (Update_sound b n1)|].
    + by eapply idle_sound.
    + constructor; [|done]. unfold valid_change. rewrite Hst. apply valid_Alive.
    + intros applied n' Hk. unfold kept in *. by rewrite <-Hs.
Qed.

(** ** A process that starts *)

(** Options that make a node: the size of a ping request round and the shortest
    period, after the defaults are filled in, are not negative.  (Negative ones
    reach the slice of [RandomPingableMembers] and the generator's [Intn].) *)
Definition sensible (opts : option Options) : Prop :=
  0 ≤ o_PingRequestSize (mergeDefaultOptions opts) ∧ 0 ≤ o_MinProtocolPeriod (mergeDefaultOptions opts).
#[global] Instance sensible_dec opts : Decision (sensible opts).
Proof. unfold sensible. apply _. Defined.

Lemma boot_sound app address channel opts e :
  sensible opts → wp Reincarnate (λ _ n, self n = address ∧ sound n) (NewNode app address channel opts e).
Proof.
  intros Hopts. eapply wp_mono; [apply Reincarnate_first|].
  intros _ n (ml & t & c & Hwf & Hv & Ht & Hadr & Hst & Hinc & Hu & Htn).
  split; [unfold self; by rewrite (up_config _ _ _ _ Hu)|].
  assert (valid_change c) as Hc by (unfold valid_change; rewrite Hst; apply valid_Alive).
  split.
  - split; apply Hu.
  - unfold iter_ok. rewrite (up_iter _ _ _ _ Hu). simpl. lia.
  - eapply updated_dis_valid; [exact Hu|by constructor|done].
  - unfold sane. by rewrite (up_config _ _ _ _ Hu), (up_gos _ _ _ _ Hu).
Qed.
