(* ===== verification/Turns.v ===== *)
(** * Turns: a whole turn of the protocol loop

    A turn of RunProtocolPeriodLoop computes the delay, takes the next member
    from the iterator, pings it, asks helpers to ping it when it does not answer,
    and suspects it when no helper reaches it; a ping request is served by
    pinging its target.  The file proves that whole turns of a [sound] node
    return and leave it sound, whatever the clock, the generator and the network
    do, when the changes in the answers have known statuses. *)
From S2P Require Import Prelude GoStd NodeState Memberlist Disseminator Suspicion Rollup Membership.
From S2P Require Import Frames Advances MembershipSpec UpdateSpec SwimOrder MemberIter Ping NodeCore GossipLoops SwimProps.
From S2P Require Import DisseminatorSpec IterSpec SyncProps Detection Samples Keeper Soundness.
#[local] Open Scope Z_scope.

(** The answers the world gives to pings and ping requests. *)
Definition answers_valid (e : Env) : Prop :=
  (∀ k res, pings e k = Replied res → Forall valid_change (pi_Changes res)) ∧
  (∀ k res, pingReqs e k = Replied res → Forall valid_change (ps_Changes res)).

(** What a stretch of code leaves: a sound node in the same world, whose members
    are still where they were. *)
Record carried (n n' : Node) : Prop := {
  cr_sound : sound n';
  cr_self : self n' = self n;
  cr_env : env n' = env n;
  cr_linked : linked n n'
}.

Definition carries {A} (m : SW A) : Prop := ∀ n, sound n → answers_valid (env n) → wp m (λ _, carried n) n.

Lemma carried_refl n : sound n → carried n n.
Proof. by split. Qed.
Lemma carried_trans x y z : carried x y → carried y z → carried x z.
Proof. intros [] []. split; [done|congruence..|by etrans]. Qed.

Lemma idle_carried n n' : idle n n' → sound n → carried n n'.
Proof.
  intros Hid Hn. split; [by eapply idle_sound|by apply idle_self|apply Hid|]. unfold linked. by rewrite (id_ml _ _ Hid).
Qed.

(** What [Keeper] and the frame lemmas say of an operation. *)
#[global] Instance same_env_stable : Stable (λ n n', env n' = env n).
Proof. split; try done. repeat intro. congruence. Qed.

Lemma carried_kept {A} (m : SW A) (out : A → list Change) n :
  wp m (λ x, kept Unbounded n (out x)) n → respects (λ n n', env n' = env n) m → links m →
  wp m (λ x n', carried n n' ∧ Forall valid_change (out x)) n.
Proof.
  intros Hm He Hl. destruct (wp_run _ _ _ Hm) as (x & n' & Hrun & b & _ & Hs & Hself & Hout). unfold wp. rewrite Hrun.
  split; [|by apply (fairs_are_valid b)]. split; [exact Hs|done|by apply He in Hrun|by apply Hl in Hrun].
Qed.

Lemma carries_idle {A} (m : SW A) : (∀ n, sound n → wp m (λ _, idle n) n) → carries m.
Proof. intros Hm n Hn _. eapply wp_mono; [by apply Hm|]. intros x n' Hid. by apply idle_carried. Qed.

Lemma carries_ret {A} (x : A) : carries (mret x).
Proof. intros n Hn _. by apply wp_ret, carried_refl. Qed.

Lemma carries_bind {A B} (m : SW A) (f : A → SW B) : carries m → (∀ x, carries (f x)) → carries (m ≫= f).
Proof.
  intros Hm Hf n Hn Ha. apply wp_bind. eapply wp_mono; [by apply Hm|]. intros x n1 H1.
  eapply wp_mono; [apply Hf; [apply H1|by rewrite (cr_env _ _ H1)]|]. intros y n2. by apply carried_trans.
Qed.

(** Running on in a node that was carried. *)
Lemma carried_step {A B} (m : SW A) (f : A → SW B) Q n n1 :
  answers_valid (env n) → carried n n1 → carries m → (∀ x n2, carried n n2 → wp (f x) Q n2) → wp (m ≫= f) Q n1.
Proof.
  intros Ha H1 Hm Hf. apply wp_bind. eapply wp_mono; [apply Hm; [apply H1|by rewrite (cr_env _ _ H1)]|].
  intros x n2 H2. apply Hf. by eapply carried_trans.
Qed.

#[local] Hint Resolve links_Update : links.
Ltac carried_step := eapply carried_step; [eassumption|eassumption| |]; [|intros ? ? ?].
(** ** Pings and ping requests *)
Lemma carries_Update cs : Forall valid_change cs → carries (Update cs).
Proof.
  intros Hcs n Hn _. eapply wp_mono; [apply (carried_kept _ id)|by intros x n' [? _]].
  - by apply Update_sound.
  - eauto with respects typeclass_instances.
  - apply links_Update.
Qed.

Lemma links_preparePing t : links (preparePing t).
Proof. unfold preparePing, IssueAsSender, issueChanges, Checksum, Address, Incarnation, order. solve_links. Qed.
Lemma links_preparePingRequest t : links (preparePingRequest t).
Proof. unfold preparePingRequest, IssueAsSender, issueChanges, Checksum, Address, Incarnation, order. solve_links. Qed.

Lemma carries_preparePing t : carries (preparePing t).
Proof.
  intros n Hn _. eapply wp_mono; [apply (carried_kept _ pi_Changes)|by intros x n' [? _]].
  - by apply preparePing_kept.
  - unfold preparePing, IssueAsSender, Checksum, Address. solve_respects.
  - apply links_preparePing.
Qed.
Lemma carries_preparePingRequest t : carries (preparePingRequest t).
Proof.
  intros n Hn _. eapply wp_mono; [apply (carried_kept _ pr_Changes)|by intros x n' [? _]].
  - by apply preparePingRequest_kept.
  - unfold preparePingRequest, IssueAsSender, Checksum, Address. solve_respects.
  - apply links_preparePingRequest.
Qed.
Lemma carries_bump cs : carries (bumpPiggybackCounters cs).
Proof. apply carries_idle. intros n Hn. by apply (bump_idle _ _ Unbounded). Qed.

(** ** The iterator's choice is a member *)
Lemma deref_run q n m n' : deref q n = Some (m, n') → n' = n.
Proof. unfold deref. intros H. by repeat case_match; simplify_eq. Qed.

Lemma advance_listed n p n' : advance n = Some (p, n') → p ∈ list_ (n_memberlist n').
Proof.
  unfold advance. intros H. do 4 apply bind_run in H as (? & ? & _ & H).
  apply bind_run in H as (i & n1 & [= <- <-] & H). unfold MemberAt in H. apply bind_run in H as (ml & n2 & [= <- <-] & H).
  case_bool_decide; [done|]. destruct (_ !! _) as [q|] eqn:Hq; [|done]. injection H as <- <-.
  by eapply list_elem_of_lookup_2.
Qed.

Lemma nextLoop_listed fuel k V n p n' : nextLoop fuel k V n = Some (Some p, n') → p ∈ list_ (n_memberlist n').
Proof.
  revert V n. induction fuel as [|fuel IH]; intros V n; simpl; [done|]. case_bool_decide as Hk; [|done].
  intros H. apply bind_run in H as (q & n1 & Hq%advance_listed & H). apply bind_run in H as (m & n2 & ->%deref_run & H).
  unfold Pingable in H. apply bind_run in H as (b & n3 & Hb & H). apply bind_run in Hb as (l & n4 & [= <- <-] & Hb).
  apply bind_run in Hb as (lm & n5 & ->%deref_run & [= <- <-]).
  destruct (_ && _); [by injection H as <- <-|by eapply IH].
Qed.

(** ** Whole turns *)
Lemma carries_when b (m : SW unit) : carries m → carries (when b m).
Proof. intros Hm. destruct b; [done|apply carries_ret]. Qed.
Lemma carries_sample {A} (s : Env → nat → A) : carries (sample s).
Proof. apply carries_idle. intros n _. apply wp_sample, idle_tick. lia. Qed.
Lemma carries_gets {A} (f : Node → A) : carries (gets f).
Proof. apply carries_idle. intros n _. by apply wp_gets. Qed.
Lemma carries_emit e : carries (emit e).
Proof. apply carries_idle. intros n _. apply wp_emit, idle_emitted. Qed.
Lemma carries_pingSucceeded t cs st : carries (pingSucceeded t cs st).
Proof.
  unfold pingSucceeded. apply carries_bind; [apply carries_bump|intros _]. apply carries_bind; [apply carries_sample|intros ?].
  apply carries_bind; [apply carries_gets|intros ?]. apply carries_emit.
Qed.

Lemma sendPing_carried t n :
  sound n → answers_valid (env n) → wp (sendPing t) (λ r n', carried n n' ∧ Forall valid_change (reply_changes r)) n.
Proof.
  intros Hn Ha. pose proof (carried_refl n Hn) as H0. unfold sendPing. carried_step; [apply carries_preparePing|].
  carried_step; [apply carries_sample|]. apply wp_bind, wp_sample.
  match goal with H : carried n ?k |- wp _ _ (with_tick ?k ?i) =>
    rewrite (cr_env _ _ H); assert (carried n (with_tick k i)) as Hk
      by (eapply carried_trans, idle_carried; [exact H|apply idle_tick; lia|apply H]);
    destruct (pings (env n) (tick k)) as [res| |late] eqn:Hp end.
  - carried_step; [apply carries_pingSucceeded|]. apply wp_ret. split; [done|]. by eapply (proj1 Ha).
  - by apply wp_ret.
  - carried_step; [apply carries_when, carries_pingSucceeded|]. by apply wp_ret.
Qed.

Lemma carries_SendPingRequest peer t : carries (SendPingRequest peer t).
Proof.
  intros n Hn Ha. pose proof (carried_refl n Hn) as H0. unfold SendPingRequest. carried_step; [apply carries_preparePingRequest|].
  apply wp_bind, wp_sample.
  match goal with H : carried n ?k |- wp _ _ (with_tick ?k ?i) =>
    rewrite (cr_env _ _ H); assert (carried n (with_tick k i)) as Hk
      by (eapply carried_trans, idle_carried; [exact H|apply idle_tick; lia|apply H]);
    destruct (pingReqs (env n) (tick k)) as [res| |late] eqn:Hp end.
  - carried_step; [apply carries_Update; by eapply (proj2 Ha)|]. by apply wp_ret.
  - carried_step; [apply carries_bump|]. by apply wp_ret.
  - carried_step; [apply carries_when, carries_bump|]. by apply wp_ret.
Qed.

Lemma carries_pingsVia t ps l : carries (mapM_ (pingVia t ps) l).
Proof.
  induction l as [|p l IH]; simpl; [apply carries_ret|]. apply carries_bind; [|intros r; apply carries_bind; [done|intros; apply carries_ret]].
  unfold pingVia. apply carries_bind; [apply carries_sample|intros st]. apply carries_bind; [apply carries_SendPingRequest|intros x].
  apply carries_bind; [|intros; apply carries_ret]. apply carries_idle. intros n _. apply reportHelper_idle.
Qed.

Lemma indirectPing_carried t size n :
  sound n → answers_valid (env n) → 0 ≤ size → wp (indirectPing t size) (λ _, carried n) n.
Proof.
  intros Hn Ha Hs. unfold indirectPing, sendPingRequests. apply wp_bind, wp_bind.
  eapply wp_mono; [apply chooseHelpers_idle; [apply (so_inv _ Hn)|done]|]. intros [ps l] n1 Hid.
  pose proof (idle_carried _ _ Hid Hn) as H1.
  eapply wp_mono; [apply carries_pingsVia; [apply H1|by rewrite (cr_env _ _ H1)]|]. intros rs n2 H2. apply wp_ret.
  by eapply carried_trans.
Qed.

(** The member that is pinged stays a member while its helpers answer. *)
Lemma carried_listed n n' p :
  carried n n' → sound n → p ∈ list_ (n_memberlist n) → p ∈ list_ (n_memberlist n').
Proof.
  intros Hc Hn Hp. destruct (so_inv _ Hn) as [Hwf _]. destruct (so_inv _ (cr_sound _ _ Hc)) as [Hwf' _].
  apply (wf_list _ _ Hwf) in Hp as [a Ha]. apply (wf_list _ _ Hwf'). exists a. by eapply lookup_weaken, (cr_linked _ _ Hc).
Qed.

Lemma suspectMember_carried p n :
  sound n → p ∈ list_ (n_memberlist n) → wp (suspectMember p) (λ _, carried n) n.
Proof.
  intros Hn Hp. eapply wp_mono; [apply (carried_kept _ (λ _, []))|by intros x n' [? _]].
  - by apply suspectMember_kept.
  - unfold suspectMember, MakeSuspect. solve_respects.
  - unfold suspectMember, MakeSuspect, MakeChange, Address. solve_links.
Qed.

Lemma pingMember_carried p n :
  sound n → answers_valid (env n) → p ∈ list_ (n_memberlist n) → wp (pingMember p) (λ _, carried n) n.
Proof.
  intros Hn Ha Hp. unfold pingMember. destruct (wf_deref n p (proj1 (so_inv _ Hn)) Hp) as [m Hm].
  apply wp_bind. eapply wp_deref; [exact Hm|]. apply wp_bind. eapply wp_mono; [by apply sendPing_carried|].
  intros [res|err] n1 [H1 Hres].
  - carried_step; [by apply carries_Update|]. by apply wp_ret.
  - apply wp_bind, wp_gets, wp_bind. eapply wp_mono; [apply indirectPing_carried; [apply H1|by rewrite (cr_env _ _ H1)|]|].
    { apply (so_sane _ (cr_sound _ _ H1)). }
    intros [reached errs] n2 H2. pose proof (carried_trans _ _ _ H1 H2) as H12.
    case_bool_decide; [by apply wp_ret|]. destruct reached; simpl; [by apply wp_ret|].
    eapply wp_mono; [apply suspectMember_carried; [apply H12|by eapply carried_listed]|]. intros [] n3.
    by apply carried_trans.
Qed.

Lemma links_Next : links Next.
Proof.
  unfold Next. apply links_bind; [unfold NumMembers; solve_links|intros k].
  generalize (∅ : gset string). induction (2 * Z.to_nat k + 1)%nat as [|fuel IH]; intros V; simpl; [apply links_panic|].
  case_bool_decide; [|apply links_ret].
  unfold advance, modify_iter, NumMembers, Shuffle, shuffle, order, MemberAt, Pingable. solve_links.
Qed.

Lemma carries_setPinging b : carries (setPinging b).
Proof. apply carries_idle. intros n _. by apply wp_modify. Qed.

Lemma carries_pingNextMember : carries pingNextMember.
Proof.
  intros n Hn Ha. unfold pingNextMember. apply wp_bind.
  assert (wp Next (λ _, kept Unbounded n []) n) as Hnext by by apply Next_kept.
  destruct (wp_run _ _ _ (carried_kept Next (λ _, []) n Hnext ltac:(solve_respects) links_Next))
    as (next & n1 & Hrun & H1 & _). unfold wp at 1. rewrite Hrun. destruct next as [p|]; [|by apply wp_ret].
  unfold Next in Hrun. apply bind_run in Hrun as (k & n2 & _ & Hp%nextLoop_listed).
  apply wp_bind, wp_gets. destruct (pinging (state n1)); [by apply wp_ret|].
  unfold setPinging at 1. apply wp_bind, wp_modify. set (n3 := with_state n1 _).
  assert (carried n1 n3) as H3 by (apply idle_carried; [by split|apply H1]).
  pose proof (carried_trans _ _ _ H1 H3) as H13. apply wp_bind.
  eapply wp_mono; [apply pingMember_carried; [apply H3|by rewrite (cr_env _ _ H13)|done]|].
  intros [] n4 H4. pose proof (carried_trans _ _ _ H13 H4) as H14.
  eapply wp_mono; [apply carries_setPinging; [apply H4|by rewrite (cr_env _ _ H14)]|]. intros [] n5. by apply carried_trans.
Qed.

Lemma carries_ProtocolPeriod : carries ProtocolPeriod.
Proof.
  unfold ProtocolPeriod. apply carries_bind; [apply carries_sample|intros t].
  apply carries_bind; [apply carries_pingNextMember|intros []]. apply carries_idle. intros n _. apply recordPeriod_idle.
Qed.

Lemma carries_protocolTurn : carries protocolTurn.
Proof.
  unfold protocolTurn. apply carries_bind; [apply carries_gets|intros [|]]; [apply carries_ret|].
  apply carries_bind; [|intros d].
  { apply carries_idle. intros n Hn. apply ComputeProtocolDelay_idle. right. apply (so_sane _ Hn). }
  apply carries_bind; [apply carries_emit|intros []]. apply carries_bind; [apply carries_sample|intros t].
  apply carries_bind; [apply carries_ProtocolPeriod|intros []]. apply carries_bind; [apply carries_sample|intros u].
  apply carries_bind; [apply carries_emit|intros []]. apply carries_ret.
Qed.

Lemma carries_tickHandler : carries tickHandler.
Proof.
  unfold tickHandler. apply carries_bind; [apply carries_ProtocolPeriod|intros []].
  apply carries_bind; [apply carries_gets|intros k]. apply carries_ret.
Qed.

(** ** Serving a ping request *)
Lemma carries_acceptPingRequest req : Forall valid_change (pr_Changes req) → carries (acceptPingRequest req).
Proof.
  intros Hreq. unfold acceptPingRequest, markServer. apply carries_bind; [apply carries_gets|intros ?].
  apply carries_bind; [apply carries_emit|intros []].
  apply carries_bind; [apply carries_idle; intros ? _; by apply wp_modify|intros []].
  apply carries_bind; [by apply carries_Update|intros ?]. apply carries_ret.
Qed.

Lemma carries_targetAnswered req t res : Forall valid_change (pi_Changes res) → carries (targetAnswered req t res).
Proof.
  intros Hres. unfold targetAnswered. apply carries_bind; [apply carries_gets|intros ?].
  apply carries_bind; [apply carries_sample|intros ?]. apply carries_bind; [apply carries_emit|intros []].
  apply carries_bind; [by apply carries_Update|intros ?]. apply carries_ret.
Qed.

Lemma carries_answerPingRequest req ok : carries (answerPingRequest req ok).
Proof.
  unfold answerPingRequest. apply carries_bind; [|intros [cs full]; apply carries_ret]. apply carries_idle.
  intros n Hn. eapply wp_mono; [by apply (IssueAsReceiver_kept _ _ _ n Unbounded)|]. by intros r n' [? _].
Qed.

Lemma handlePingRequest_carried req n :
  sound n → answers_valid (env n) → Forall valid_change (pr_Changes req) →
  wp (handlePingRequest req) (λ _, carried n) n.
Proof.
  intros Hn Ha Hreq. pose proof (carried_refl n Hn) as H0. unfold handlePingRequest.
  apply wp_bind, wp_gets. destruct (ready (state n)); simpl; [|carried_step; [apply carries_emit|by apply wp_ret]].
  carried_step; [by apply carries_acceptPingRequest|]. carried_step; [apply carries_sample|].
  match goal with H : carried n ?k |- wp _ _ ?k => rename H into Hk end.
  apply wp_bind. eapply wp_mono; [apply sendPing_carried; [apply Hk|by rewrite (cr_env _ _ Hk)]|].
  intros r n1 [H1 Hr]. pose proof (carried_trans _ _ _ Hk H1) as H2.
  carried_step; [destruct r as [res|err]; [|apply carries_ret]|].
  - apply carries_bind; [by apply carries_targetAnswered|intros []; apply carries_ret].
  - carried_step; [apply carries_answerPingRequest|]. by apply wp_ret.
Qed.
