(* ===== verification/JoinProps.v ===== *)
(** * JoinProps: joining terminates, and what it achieves *)
From S2P Require Import Prelude GoStd NodeState Util UtilSpec Memberlist Disseminator Suspicion Rollup.
From S2P Require Import Membership Frames Advances MembershipSpec UpdateSpec SwimOrder MemberIter Ping NodeCore SwimProps.
From S2P Require Import DisseminatorSpec SyncProps Samples JoinDelayer JoinSender.
#[local] Open Scope Z_scope.

Lemma respects_joinNodes `{!Stable R} t g : respects R (joinNodes t g).
Proof.
  induction g; simpl; [solve_respects|]. unfold joinNode, makeJoinRequest, Address. solve_respects.
Qed.
#[export] Hint Resolve respects_joinNodes : respects.

(** ** Joining one node *)

(** Every member list a peer answers with has known statuses. *)
Definition joins_valid (e : Env) : Prop :=
  ∀ k res, joins e k = Replied res → Forall valid_change (jr_Membership res).

(** The node's membership moved on, nothing else about it did. *)
Record moved (n n' : Node) : Prop := {
  mv_inv : node_inv n';
  mv_config : config n' = config n;
  mv_state : state n' = state n;
  mv_env : env n' = env n;
  mv_gossip : n_gossip n' = n_gossip n
}.

Lemma moved_refl n : node_inv n → moved n n.
Proof. done. Qed.
Lemma moved_chain n1 n2 n3 : moved n1 n2 → moved n2 n3 → moved n1 n3.
Proof. intros [] []. split; [done|congruence..]. Qed.
Lemma moved_tick n n' k : moved n n' → moved n (with_tick n' k).
Proof. intros []. split; done. Qed.
Lemma moved_emitted n n' l : moved n n' → moved n (with_emitted n' l).
Proof. intros []. split; done. Qed.

Lemma Update_moved cs n :
  node_inv n → Forall valid_change cs → wp (Update cs) (λ _, moved n) n.
Proof.
  intros [Hwf Hvv] Hcs. eapply wp_mono; [by apply Update_spec|]. intros applied n'.
  destruct (_ || _); [by intros [_ ->]|]. intros Hu. split; [split|..]; apply Hu.
Qed.

Lemma AddJoinList_moved l n :
  node_inv n → Forall valid_change l → wp (AddJoinList l) (λ _, moved n) n.
Proof.
  intros Hi Hl. unfold AddJoinList. apply wp_bind. eapply wp_mono; [by apply Update_moved|].
  intros applied n1 Hm. apply wp_bind, wp_gets. generalize (n_address (config n1)). intros self. revert n1 Hm.
  induction applied as [|c cs IH]; intros n1 Hm; simpl; [by apply wp_ret|]. apply wp_bind.
  case_bool_decide; [by apply wp_ret, IH|]. apply wp_modify, IH. by destruct Hm.
Qed.

Lemma joinNode_moved t x n :
  node_inv n → joins_valid (env n) → wp (joinNode t x) (λ _, moved n) n.
Proof.
  intros Hi Hv. unfold joinNode, makeJoinRequest. apply wp_bind, wp_bind, wp_gets, wp_bind, wp_gets, wp_bind.
  apply Incarnation_spec; [apply Hi|]. intros i. apply wp_ret, wp_bind, wp_sample.
  destruct (joins (env n) (tick n)) as [res| |late] eqn:Ho; try (by apply wp_ret).
  apply wp_bind. eapply wp_mono; [apply AddJoinList_moved; [done|by eapply Hv]|].
  intros [] n' Hm. apply wp_ret. by destruct Hm.
Qed.

Lemma joinNodes_moved t g n :
  node_inv n → joins_valid (env n) →
  wp (joinNodes t g) (λ r n', moved n n' ∧ r.1 ⊆ g ∧ (length r.1 ≤ length g)%nat) n.
Proof.
  intros Hi Hv. revert n Hi Hv. induction g as [|x g IH]; intros n Hi Hv; simpl.
  { apply wp_ret. split; [done|]. simpl. split; [done|lia]. }
  apply wp_bind. eapply wp_mono; [by apply joinNode_moved|]. intros ok n1 Hm. apply wp_bind.
  eapply wp_mono; [apply IH; [apply (mv_inv _ _ Hm)|by rewrite (mv_env _ _ Hm)]|]. intros [ss fs] n2 (Hm2 & Hsub & Hl).
  apply wp_ret. split; [exact (moved_chain _ _ _ Hm Hm2)|]. destruct ok; simpl in *; (split; [|lia]); intros y;
    rewrite ?elem_of_cons; naive_solver.
Qed.

(** ** Selecting a group *)
Lemma wp_onNode {A} (m : SW A) (Q : A → Node * joinSender → Prop) n j :
  wp m (λ a n', Q a (n', j)) n → wp (onNode m) Q (n, j).
Proof. unfold wp, onNode. simpl. by destruct (m n) as [[a n']|]. Qed.
Lemma wp_getsJ {A} (f : joinSender → A) (Q : A → Node * joinSender → Prop) n j :
  Q (f j) (n, j) → wp (getsJ f) Q (n, j).
Proof. done. Qed.
Lemma wp_modifyJ f (Q : unit → Node * joinSender → Prop) n j :
  Q tt (n, f j) → wp (modifyJ f) Q (n, j).
Proof. done. Qed.

Lemma TakeNode_spec l n :
  l ≠ [] → wp (TakeNode l (-1)) (λ r n', n' = with_tick n (S (tick n)) ∧ r.1 :: r.2 ≡ₚ l) n.
Proof.
  intros Hl. unfold TakeNode. destruct l as [|x l]; [done|]. set (nodes := x :: l) in *.
  apply wp_bind. rewrite bool_decide_false by lia. unfold intn.
  apply wp_bind, wp_bind, wp_sample, wp_ret, wp_ret. set (i := (_ `mod` _)%nat).
  assert (i < length nodes)%nat as Hi by (apply Nat.mod_upper_bound; done).
  destruct (lookup_lt_is_Some_2 nodes i Hi) as [y Hy]. rewrite Hy. apply wp_ret. split; [done|].
  clearbody nodes i. simpl.
  etrans; [apply Permutation_middle|]. by rewrite take_drop_middle.
Qed.

(** What a selection loop leaves: preferred nodes go first. *)
Record selected (P N : list string) (target : Z) (g : list string) (s0 s1 : Node * joinSender) : Prop := {
  se_node : ∃ k, (tick s0.1 ≤ k)%nat ∧ s1.1 = with_tick s0.1 k;
  se_js : ∃ r p q, s1.2 = with_rounds r p q s0.2;
  se_split : ∃ gp gn, g = gp ++ gn ∧ gp ++ roundPreferredNodes s1.2 ≡ₚ P ∧
    gn ++ roundNonPreferredNodes s1.2 ≡ₚ N ∧ (gn ≠ [] → roundPreferredNodes s1.2 = []);
  se_len : 0 ≤ target → Z.of_nat (length g) = Z.min target (Z.of_nat (length P + length N))
}.

(** The loop stops, or takes one more node. *)
Lemma selected_stop gp gn target s :
  (gn ≠ [] → roundPreferredNodes s.2 = []) → (0 ≤ target → Z.of_nat (length gp + length gn) ≤ target) →
  Z.of_nat (length (gp ++ gn)) = target ∨
    (length (roundPreferredNodes s.2) + length (roundNonPreferredNodes s.2) = 0)%nat →
  selected (gp ++ roundPreferredNodes s.2) (gn ++ roundNonPreferredNodes s.2) target (gp ++ gn) s s.
Proof.
  destruct s as [n j]. simpl. intros Hgn Hlen Hstop. split; simpl.
  - exists (tick n). split; [done|]. by destruct n.
  - exists (roundPotentialNodes j), (roundPreferredNodes j), (roundNonPreferredNodes j). by destruct j.
  - by exists gp, gn.
  - intros Ht. specialize (Hlen Ht). rewrite !length_app in *. lia.
Qed.

Lemma selected_more n j k r p q P N P' N' target g s :
  selected P' N' target g (with_tick n k, with_rounds r p q j) s → (tick n ≤ k)%nat →
  P' ≡ₚ P → N' ≡ₚ N → selected P N target g (n, j) s.
Proof.
  intros [(k' & Hk & Hn) (r' & p' & q' & Hj) (ga & gb & Hg & H1 & H2 & H3) Hlg] Hle HP HN. split; simpl in *.
  - exists k'. split; [lia|]. rewrite Hn. by destruct n.
  - exists r', p', q'. by rewrite Hj.
  - exists ga, gb. by rewrite H1, H2.
  - intros Ht. by rewrite (Hlg Ht), HP, HN.
Qed.

Lemma selectLoop_spec fuel target gp gn s :
  (length (roundPreferredNodes s.2) + length (roundNonPreferredNodes s.2) ≤ fuel)%nat →
  (gn ≠ [] → roundPreferredNodes s.2 = []) → (0 ≤ target → Z.of_nat (length gp + length gn) ≤ target) →
  wp (selectLoop fuel target (gp ++ gn))
    (λ g s', selected (gp ++ roundPreferredNodes s.2) (gn ++ roundNonPreferredNodes s.2) target g s s') s.
Proof.
  revert gp gn s. induction fuel as [|fuel IH]; intros gp gn [n j] Hf Hgn Hlen; simpl in Hf, Hgn;
    apply wp_bind, wp_getsJ; cbv beta zeta;
    (destruct (bool_decide (Z.of_nat (length (gp ++ gn)) = target) || _) eqn:Hstop;
      [apply wp_ret, selected_stop; [done|done|];
       apply orb_true_iff in Hstop as [Hs|Hs]; apply bool_decide_eq_true in Hs; simpl in Hs; tauto|]);
    apply orb_false_iff in Hstop as [Hne Hav]; apply bool_decide_eq_false in Hne, Hav; simpl in Hav; [lia|].
  rewrite length_app in Hne. cbn [id]. case_bool_decide as Hp; apply wp_bind, wp_onNode.
  - assert (gn = []) as ->.
    { destruct gn; [done|]. rewrite Hgn in Hp by done. simpl in Hp. lia. }
    eapply wp_mono; [apply TakeNode_spec; intros H; rewrite H in Hp; simpl in Hp; lia|].
    intros [x rest] n1 [-> Hperm]. apply wp_bind, wp_modifyJ. rewrite app_nil_r.
    set (s1 := (with_tick n _, with_rounds _ _ _ j)). specialize (IH (gp ++ [x]) [] s1).
    rewrite app_nil_r in IH. assert (length (roundPreferredNodes j) = S (length rest)) as Hl by (by rewrite <-Hperm).
    eapply wp_mono; [apply IH; [simpl; lia|done|]|].
    { intros Ht. specialize (Hlen Ht). rewrite length_app. simpl in *. lia. }
    intros g s' Hsel. eapply selected_more; [exact Hsel|lia| |done]. simpl in *. rewrite <-Hperm. by rewrite <-(assoc_L (++)).
  - assert (roundPreferredNodes j = []) as HP by (apply length_zero_iff_nil; lia).
    eapply wp_mono; [apply TakeNode_spec; intros H; rewrite H, HP in Hav; simpl in Hav; lia|].
    intros [x rest] n1 [-> Hperm]. apply wp_bind, wp_modifyJ. set (s1 := (with_tick n _, with_rounds _ _ _ j)).
    specialize (IH gp (gn ++ [x]) s1). rewrite (assoc_L (++)) in IH.
    assert (length (roundNonPreferredNodes j) = S (length rest)) as Hl by (by rewrite <-Hperm).
    eapply wp_mono; [apply IH; [simpl; lia|done|]|].
    { intros Ht. specialize (Hlen Ht). rewrite length_app. simpl in *. lia. }
    intros g s' Hsel. eapply selected_more; [exact Hsel|lia|done|]. simpl in *. rewrite <-Hperm. by rewrite <-(assoc_L (++)).
Qed.

(** ** Whom to join *)

(** A host:port of the bootstrap hosts other than the node's own address. *)
Definition target_of (addr : string) (m : gmap string (list string)) (x : string) : Prop :=
  x ≠ addr ∧ ∃ h l, m !! h = Some l ∧ x ∈ l.

Definition hosts_wf (m : gmap string (list string)) : Prop :=
  ∀ h l x, m !! h = Some l → x ∈ l → CaptureHost x = h.

Definition js_ok (addr : string) (j : joinSender) : Prop :=
  hosts_wf (bootstrapHostsMap j) ∧
  Forall (target_of addr (bootstrapHostsMap j)) (roundPreferredNodes j) ∧
  Forall (target_of addr (bootstrapHostsMap j)) (roundNonPreferredNodes j).

(** The settings of a sender, which a join does not change. *)
Definition limits (j : joinSender) := (js_timeout j, bootstrapHostsMap j, parallelismFactor j, maxJoinDuration j, js_size j).

(** All that selecting a group keeps. *)
Definition fixed (j : joinSender) := (limits j, delayer j).

Definition only_ticks (n n' : Node) : Prop := ∃ k, (tick n ≤ k)%nat ∧ n' = with_tick n k.

Lemma only_ticks_refl n : only_ticks n n.
Proof. exists (tick n). split; [done|]. by destruct n. Qed.
Lemma only_ticks_trans n1 n2 n3 : only_ticks n1 n2 → only_ticks n2 n3 → only_ticks n1 n3.
Proof. intros (k & Hk & ->) (k' & Hk' & ->). exists k'. simpl in *. split; [lia|done]. Qed.

Lemma HostPortsByHost_wf l : hosts_wf (HostPortsByHost l).
Proof.
  intros h ps x Hl Hx. rewrite HostPortsByHost_lookup in Hl. case_bool_decide; [done|]. simplify_eq.
  by apply list_elem_of_filter in Hx as [? _].
Qed.

Lemma elem_of_ranged c (m : gmap string (list string)) h l :
  (h, l) ∈ arrange c (map_to_list m) ↔ m !! h = Some l.
Proof. rewrite arrange_perm. apply elem_of_map_to_list. Qed.

Lemma potential_targets addr joined c m :
  Forall (target_of addr m) (collectPotential addr joined (arrange c (map_to_list m))).
Proof.
  apply Forall_forall. intros x (Hx & Hin)%list_elem_of_filter. split; [by destruct Hx|].
  apply list_elem_of_join in Hin as (l & Hxl & Hl). apply list_elem_of_fmap in Hl as ([h l'] & -> & Hl).
  apply elem_of_ranged in Hl. eauto.
Qed.

Lemma preferred_targets addr c m :
  hosts_wf m →
  Forall (target_of addr m)
    (mjoin (snd <$> filter (λ x : string * list string, x.1 ≠ CaptureHost addr) (arrange c (map_to_list m)))).
Proof.
  intros Hwf. apply Forall_forall. intros x Hin.
  apply list_elem_of_join in Hin as (l & Hxl & Hl). apply list_elem_of_fmap in Hl as ([h l'] & -> & Hl).
  apply list_elem_of_filter in Hl as (Hne & Hl). apply elem_of_ranged in Hl. simpl in *.
  split; [|eauto]. intros ->. apply Hne. symmetry. by eapply Hwf.
Qed.

Lemma rangeHosts_spec m n (Q : list (string * list string) → Node → Prop) :
  (∀ c n', only_ticks n n' → Q (arrange c (map_to_list m)) n') → wp (rangeHosts m) Q n.
Proof. intros HQ. unfold rangeHosts. apply wp_bind, wp_order, wp_ret, HQ. exists (S (tick n)). split; [lia|done]. Qed.

Lemma Init_spec joined n j :
  js_ok (self n) j →
  wp (Init joined) (λ _ s, only_ticks n s.1 ∧ fixed s.2 = fixed j ∧ js_ok (self n) s.2) (n, j).
Proof.
  intros (Hwf & Hp & Hnp). unfold Init, CollectPotentialNodes, CollectPreferredNodes, CollectNonPreferredNodes.
  apply wp_bind, wp_bind, wp_onNode, wp_gets, wp_bind, wp_getsJ, wp_bind, wp_onNode, rangeHosts_spec.
  intros c1 n1 H1. apply wp_ret, wp_bind, wp_modifyJ.
  apply wp_bind, wp_bind, wp_onNode, wp_gets, wp_bind, wp_getsJ, wp_bind, wp_onNode, rangeHosts_spec.
  intros c2 n2 H2. apply wp_ret, wp_bind, wp_modifyJ. apply wp_bind, wp_bind, wp_getsJ, wp_bind, wp_onNode, wp_gets.
  assert (self n1 = self n ∧ self n2 = self n) as [Hs1 Hs2].
  { destruct H1 as (? & _ & ->), H2 as (? & _ & ->). done. }
  unfold self in Hs1, Hs2. rewrite Hs1, Hs2. fold (self n). simpl.
  set (P := collectPotential _ _ _). set (R := mjoin _).
  assert (Forall (target_of (self n) (bootstrapHostsMap j)) P) as HP by apply potential_targets.
  assert (Forall (target_of (self n) (bootstrapHostsMap j)) R) as HR by by apply preferred_targets.
  assert (only_ticks n n2) as Hn by by eapply only_ticks_trans.
  case_bool_decide as Hlen; apply wp_ret, wp_bind, wp_modifyJ, wp_modifyJ; simpl;
    (split; [done|]; split; [done|]); (split; [done|]); simpl; rewrite !Forall_app; split; try done; (split; [done|]).
  apply Forall_forall. intros x (Hx & Hin)%list_elem_of_filter. split; [done|].
  destruct (bootstrapHostsMap j !! CaptureHost (self n)) as [l|] eqn:Hl; simpl in Hin; [eauto|].
  by apply elem_of_nil in Hin.
Qed.

Lemma SelectGroup_spec joined n j :
  js_ok (self n) j →
  wp (SelectGroup joined) (λ g s, only_ticks n s.1 ∧ fixed s.2 = fixed j ∧ js_ok (self n) s.2 ∧
    Forall (target_of (self n) (bootstrapHostsMap j)) g) (n, j).
Proof.
  intros Hok. unfold SelectGroup. apply wp_bind, wp_getsJ, wp_bind.
  assert (∀ n1 j1, only_ticks n n1 → fixed j1 = fixed j → js_ok (self n) j1 →
    wp (j ← getsJ id;
        selectLoop (length (roundPreferredNodes j) + length (roundNonPreferredNodes j))
          ((js_size j - Z.of_nat (length joined)) * parallelismFactor j) [])
      (λ g s, only_ticks n s.1 ∧ fixed s.2 = fixed j ∧ js_ok (self n) s.2 ∧
        Forall (target_of (self n) (bootstrapHostsMap j)) g) (n1, j1)) as Hloop.
  { intros n1 j1 Hn1 Hl1 (Hwf & Hp & Hnp). apply wp_bind, wp_getsJ.
    assert (bootstrapHostsMap j1 = bootstrapHostsMap j) as Hm by (by unfold fixed, limits in Hl1; simplify_eq).
    eapply wp_mono; [apply (selectLoop_spec _ _ [] []); simpl; (done || lia)|].
    intros g [n2 j2] [Hn2 (r & p & q & Hj) (ga & gb & -> & H1 & H2 & _) _]. simpl in *.
    rewrite <-H1 in Hp. rewrite <-H2 in Hnp. rewrite Forall_app in Hp, Hnp. destruct Hp, Hnp. subst j2.
    split_and!; [by eapply only_ticks_trans|done|split; done|]. rewrite <-Hm. by apply Forall_app. }
  destruct (_ && _); [|by apply wp_ret, Hloop; [apply only_ticks_refl|done|]].
  eapply wp_mono; [by apply Init_spec|]. intros [] [n1 j1] (Hn1 & Hl1 & Hok1). by apply Hloop.
Qed.

(** ** The join loop *)
Definition dl_ok (d : joinDelayer) : Prop :=
  match d with
  | Exponential d => ∃ opts k, 0 ≤ MS (do_initial opts) ∧ 0 ≤ MS (do_max opts) ∧ delayed opts k d
  | Null => True
  end.

Lemma delayJoin_spec n j :
  dl_ok (delayer j) →
  wp delayJoin (λ _ s, only_ticks n s.1 ∧ limits s.2 = limits j ∧ dl_ok (delayer s.2) ∧
    roundPreferredNodes s.2 = roundPreferredNodes j ∧ roundNonPreferredNodes s.2 = roundNonPreferredNodes j) (n, j).
Proof.
  intros Hd. unfold delayJoin. apply wp_bind, wp_getsJ, wp_bind, wp_onNode. destruct (delayer j) as [d|]; simpl.
  - destruct Hd as (opts & k & H1 & H2 & Hd). apply wp_bind. eapply wp_mono; [by eapply delay_spec|].
    intros [t d'] n' (Hd' & _ & Hn'). apply wp_ret, wp_modifyJ. simpl. split_and!; try done; [|by exists opts, (k + 1)].
    destruct Hn' as [-> | ->]; [apply only_ticks_refl|]. exists (S (tick n)). split; [lia|done].
  - apply wp_ret, wp_modifyJ. split_and!; try done. apply only_ticks_refl.
Qed.

(** What a running join relies on. *)
Record joining (n : Node) (j : joinSender) : Prop := {
  jn_inv : node_inv n;
  jn_joins : joins_valid (env n);
  jn_js : js_ok (self n) j;
  jn_delayer : dl_ok (delayer j)
}.


Lemma JoinGroup_spec joined n j :
  joining n j →
  wp (JoinGroup joined) (λ r s, moved n s.1 ∧ joining s.1 s.2 ∧ (tick n < tick s.1)%nat ∧ limits s.2 = limits j ∧
    Forall (target_of (self n) (bootstrapHostsMap j)) r.1) (n, j).
Proof.
  intros [Hi Hv Hjs Hdl]. unfold JoinGroup. apply wp_bind. eapply wp_mono; [by apply SelectGroup_spec|].
  intros g [n1 j1] (Hn1 & Hl1 & Hok1 & Hg). simpl in *. destruct Hn1 as (k & Hk & ->). pose proof (f_equal fst Hl1) as Hlim.
  pose proof (f_equal snd Hl1) as Hdly. simpl in Hlim, Hdly. apply wp_bind, wp_onNode, wp_now, wp_bind, wp_modifyJ, wp_bind, wp_getsJ, wp_bind, wp_onNode, wp_emit.
  apply wp_bind, wp_onNode, wp_order, wp_onNode. simpl.
  match goal with |- wp (joinNodes _ (arrange ?c0 _)) _ ?m => set (c := c0); set (n2 := m) end.
  assert (moved n n2) as Hm2 by apply moved_tick, moved_emitted, moved_tick, moved_tick, moved_refl, Hi.
  assert (tick n < tick n2)%nat as Ht2 by (simpl; lia). pose proof (mv_inv _ _ Hm2) as Hi2.
  eapply wp_mono; [apply advances_wp; [eauto with respects typeclass_instances|by apply joinNodes_moved]|].
  intros [ss fs] n3 [(Hm3 & Hsub & _) Ht3]. simpl in *. pose proof (moved_chain _ _ _ Hm2 Hm3) as Hm.
  split_and!; [done| |lia|done|].
  - split; [apply Hm|by rewrite (mv_env _ _ Hm)| |simpl; congruence].
    unfold self. by rewrite (mv_config _ _ Hm).
  - rewrite Forall_forall in *. intros x Hx. apply Hg. rewrite <-(arrange_perm c g). by apply Hsub.
Qed.

(** How a join ends. *)
Definition join_end (n : Node) (j : joinSender) (r : list string * option swimError) : Prop :=
  Forall (target_of (self n) (bootstrapHostsMap j)) r.1 ∧
  match r.2 with
  | None => js_size j ≤ Z.of_nat (length r.1)
  | Some ErrDestroyed => destroyed (state n) = true ∧ r.1 = []
  | Some (ErrJoinDuration d mx) =>
      mx = maxJoinDuration j ∧ mx < d ∧ Z.of_nat (length r.1) < js_size j
  | Some _ => False
  end.

Lemma joinLoop_spec fuel start joined n j :
  joining n j → Forall (target_of (self n) (bootstrapHostsMap j)) joined → (0 < fuel)%nat →
  (∀ k, (tick n + fuel ≤ S k)%nat → maxJoinDuration j < times (env n) k - start) →
  wp (joinLoop fuel start joined) (λ r s, moved n s.1 ∧ join_end n j r) (n, j).
Proof.
  revert joined n j. induction fuel as [|fuel IH]; intros joined n j Hjn Hjoined Hf Hclock; [lia|]. simpl.
  apply wp_bind, wp_onNode, wp_gets. destruct (destroyed (state n)) eqn:Hd.
  { apply wp_bind, wp_onNode, wp_emit, wp_ret. split; [|by split]. apply moved_emitted, moved_refl, Hjn. }
  apply wp_bind. eapply wp_mono; [by apply JoinGroup_spec|].
  intros [ss fs] [n1 j1] (Hm1 & Hjn1 & Ht1 & Hl1 & Hss). simpl in *. apply wp_bind, wp_getsJ. unfold id.
  assert (maxJoinDuration j1 = maxJoinDuration j ∧ js_size j1 = js_size j ∧ bootstrapHostsMap j1 = bootstrapHostsMap j)
    as (Hmx & Hsz & Hmap) by (unfold limits in Hl1; by simplify_eq).
  assert (Forall (target_of (self n) (bootstrapHostsMap j)) (joined ++ ss)) as Hall by by apply Forall_app.
  rewrite Hmx, Hsz. case_bool_decide as Hdone; apply wp_bind, wp_onNode, wp_now; rewrite (mv_env _ _ Hm1).
  { apply wp_bind, wp_onNode, wp_emit, wp_ret. split; [|by split].
    by apply moved_emitted, moved_tick. }
  case_bool_decide as Hlate.
  { apply wp_bind, wp_onNode, wp_emit, wp_ret. split; [by apply moved_emitted, moved_tick|]. split; [done|]. simpl. lia. }
  destruct fuel as [|fuel].
  { destruct Hlate. apply Hclock. lia. }
  set (n2 := with_tick n1 _) in *. apply wp_bind.
  eapply wp_mono; [apply (delayJoin_spec n2 j1), Hjn1|]. intros [] [n3 j3] (Hn3 & Hl3 & Hd3 & Hp3 & Hnp3). simpl in *.
  destruct Hn3 as (k & Hk & ->). simpl in Hk.
  assert (maxJoinDuration j3 = maxJoinDuration j ∧ js_size j3 = js_size j ∧ bootstrapHostsMap j3 = bootstrapHostsMap j)
    as (Hmx3 & Hsz3 & Hmap3) by (unfold limits in Hl1, Hl3; simplify_eq; split_and!; congruence).
  assert (self n1 = self n) as Hself by (unfold self; by rewrite (mv_config _ _ Hm1)).
  assert (joining (with_tick n2 k) j3) as Hjn3.
  { destruct Hjn1 as [Hi1 Hv1 (Hw1 & H1 & H2) _]. split; [done|done| |done]. unfold js_ok. rewrite Hp3, Hnp3, Hmap3.
    by rewrite Hmap in Hw1, H1, H2. }
  eapply wp_mono; [apply (IH (joined ++ ss) (with_tick n2 k) j3); [done| |lia|]|].
  - change (self (with_tick n2 k)) with (self n1). by rewrite Hself, Hmap3.
  - simpl. intros k' Hk'. rewrite Hmx3, (mv_env _ _ Hm1). apply Hclock. lia.
  - intros r s [Hm [He1 He2]]. split.
    + eapply moved_chain; [exact Hm1|]. destruct Hm. split; done.
    + change (self (with_tick n2 k)) with (self n1) in He1. change (state (with_tick n2 k)) with (state n1) in He2.
      rewrite Hself, Hmap3 in He1. rewrite Hmx3, Hsz3, (mv_state _ _ Hm1) in He2. by split.
Qed.

(** ** Starting a join *)
Lemma bind_snd (l : list (string * list string)) : mjoin (snd <$> l) = l ≫= snd.
Proof. induction l as [|x l IH]; simpl; [done|]. by f_equal. Qed.

Lemma hosts_perm l : map_to_list (HostPortsByHost l) ≫= snd ≡ₚ wellFormed l.
Proof.
  unfold wellFormed. induction l as [|x l IH] using rev_ind; [done|]. rewrite HostPortsByHost_snoc, filter_app, <-IH.
  rewrite filter_cons, filter_nil. destruct (decide (CaptureHost x ≠ "")) as [Hne|He].
  2: { by rewrite bool_decide_false, app_nil_r. }
  rewrite bool_decide_true by done. set (m := HostPortsByHost l). set (h := CaptureHost x).
  destruct (m !! h) as [v|] eqn:Hv; simpl.
  - rewrite <-insert_delete_eq, map_to_list_insert by apply lookup_delete_eq.
    rewrite <-(insert_delete_id m h v Hv) at 2. rewrite map_to_list_insert by apply lookup_delete_eq. simpl.
    rewrite <-!(assoc_L (++)). apply Permutation_app_head. apply Permutation_app_comm.
  - rewrite map_to_list_insert by done. simpl. by rewrite Permutation_app_comm.
Qed.

(** The number of nodes a join asks for. *)
Definition join_size (opts : joinOpts) (addr : string) (hosts : list string) : Z :=
  Min (SelectInt (jo_size opts) defaultJoinSize)
    (Z.of_nat (length (filter (λ hp, hp ≠ addr) (wellFormed hosts)))).

Lemma potential_count addr c l :
  length (collectPotential addr [] (arrange c (map_to_list (HostPortsByHost l)))) =
    length (filter (λ hp, hp ≠ addr) (wellFormed l)).
Proof.
  unfold collectPotential. rewrite bind_snd, arrange_perm, hosts_perm. f_equal. apply list_filter_iff.
  intros x. simpl. naive_solver.
Qed.

Lemma SingleNodeCluster_total hp l : is_Some (SingleNodeCluster hp (HostPortsByHost l)).
Proof.
  destruct (decide (CaptureHost hp = "")) as [He|Hne]; [|rewrite SingleNodeCluster_spec by done; eauto].
  unfold SingleNodeCluster. case_bool_decide; [eauto|]. rewrite He, HostPortsByHost_lookup, bool_decide_true; eauto.
Qed.

Lemma single_only hp l :
  SingleNodeCluster hp (HostPortsByHost l) = Some true → wellFormed l = [hp].
Proof.
  destruct (decide (CaptureHost hp = "")) as [He|Hne].
  - unfold SingleNodeCluster. case_bool_decide; [done|]. rewrite He, HostPortsByHost_lookup, bool_decide_true; auto. done.
  - rewrite SingleNodeCluster_spec by done. intros [= H]. by apply bool_decide_eq_true in H.
Qed.

Lemma target_in addr l x : target_of addr (HostPortsByHost l) x → x ∈ l ∧ CaptureHost x ≠ "" ∧ x ≠ addr.
Proof.
  intros (Hne & h & ps & Hl & Hx). rewrite HostPortsByHost_lookup in Hl. case_bool_decide as Hb; [done|]. simplify_eq.
  apply list_elem_of_filter in Hx as [<- Hx]. split_and!; [done|tauto|done].
Qed.

(** Within [K] readings the clock advances by more than [d]. *)
Definition clock_runs (e : Env) (K : nat) (d : Z) : Prop :=
  ∀ s k, (s + K ≤ k)%nat → d < times e k - times e s.

(** The limit on the duration of a join. *)
Definition join_limit (opts : joinOpts) : Z := SelectDuration (jo_maxJoinDuration opts) defaultMaxJoinDuration.

(** How an attempt to join [hosts] ends at the node [n]. *)
Definition joined_ok (opts : joinOpts) (hosts : list string) (n : Node) (r : list string * option swimError) : Prop :=
  Forall (λ x, x ∈ hosts ∧ CaptureHost x ≠ "" ∧ x ≠ self n) r.1 ∧
  match r.2 with
  | None => join_size opts (self n) hosts ≤ Z.of_nat (length r.1) ∨ wellFormed hosts = [self n]
  | Some ErrDestroyed => destroyed (state n) = true
  | Some (ErrJoinDuration d mx) =>
      mx = join_limit opts ∧ mx < d ∧ Z.of_nat (length r.1) < join_size opts (self n) hosts
  | Some _ => False
  end.

Section sendJoin.
Context (file : string → result (list string)) (opts : joinOpts) (provider : DiscoverProvider)
  (hosts : list string) (n : Node).
Context (Hprov : jo_discoverProvider opts = Some provider) (Hhosts : Hosts file provider = inl hosts)
  (Hne : hosts ≠ []) (Hdl : dl_ok (default (Exponential (newExponentialDelayer None)) (jo_delayer opts))).

Lemma newJoinSender_spec (Q : result joinSender → Node → Prop) :
  (∀ j, bootstrapHostsMap j = HostPortsByHost hosts → js_size j = join_size opts (self n) hosts →
     maxJoinDuration j = join_limit opts →
     js_ok (self n) j → dl_ok (delayer j) → Q (inl j) (with_tick n (2 + tick n))) →
  wp (newJoinSender file opts) Q n.
Proof using All.
  intros HQ. unfold newJoinSender. rewrite Hprov, Hhosts. rewrite bool_decide_false by (by destruct hosts).
  unfold parseHosts, rangeHosts. apply wp_bind, wp_bind, wp_gets, wp_bind, wp_order, wp_ret, wp_bind, wp_gets.
  apply wp_bind, wp_bind, wp_order, wp_ret, wp_ret. simpl. apply HQ; [done| |done| |done]; simpl.
  - unfold join_size. by rewrite <-(potential_count (self n) (orders (env n) (S (tick n)))).
  - split; [apply HostPortsByHost_wf|]. simpl. split; constructor.
Qed.

Lemma sendJoin_spec fuel :
  node_inv n → joins_valid (env n) → (0 < fuel)%nat →
  clock_runs (env n) fuel (join_limit opts) →
  wp (sendJoin file fuel opts) (λ r n', moved n n' ∧ joined_ok opts hosts n r) n.
Proof using All.
  intros Hi Hv Hf Hclock. unfold sendJoin. apply wp_bind, newJoinSender_spec. intros j Hmap Hsz Hmx Hok Hd.
  set (n1 := with_tick n _). unfold runJoin. unfold wp at 1.
  assert (wp (JoinCluster fuel) (λ r s, moved n s.1 ∧
    (join_end n j r ∨ r = ([], None) ∧ wellFormed hosts = [self n])) (n1, j)) as Hw.
  { unfold JoinCluster. apply wp_bind, wp_onNode, wp_now, wp_bind, wp_onNode, wp_gets, wp_bind, wp_getsJ.
    rewrite Hmap. change (n_address _) with (self n). destruct (SingleNodeCluster_total (self n) hosts) as [b Hb].
    rewrite Hb. destruct b.
    - apply wp_ret. split; [by apply moved_tick, moved_tick, moved_refl|]. right. by apply single_only in Hb.
    - set (n2 := with_tick n1 _). assert (moved n n2) as Hm2 by by apply moved_tick, moved_tick, moved_refl.
      eapply wp_mono; [apply (joinLoop_spec fuel _ [] n2 j); [by split|by constructor|done|]|].
      + simpl. intros k Hk. rewrite Hmx. apply Hclock. lia.
      + intros r s [Hm He]. split; [exact (moved_chain _ _ _ Hm2 Hm)|by left]. }
  unfold wp in Hw. destruct (JoinCluster fuel (n1, j)) as [[r s]|]; [|done]. destruct Hw as [Hm Hr]. split; [done|].
  destruct Hr as [[Ht Hr]|[-> Hs]]; [|split; [constructor|by right]]. split.
  - rewrite Hmap in Ht. eapply Forall_impl; [exact Ht|]. intros x. apply target_in.
  - rewrite <-Hsz, <-Hmx. destruct r.2 as [[]|]; try done; [by destruct Hr|by left].
Qed.
End sendJoin.

Lemma default_delayer : dl_ok (Exponential (newExponentialDelayer None)).
Proof. exists newDelayOpts, 0. split_and!; [done|done|apply (delayed_new newDelayOpts)]. Qed.


(** A bootstrap list without a single well-formed host:port is accepted as
    an immediate success that joins nobody: the check for an empty list does
    not see it, and the number of nodes to join is cut down to zero. *)
Theorem malformed_hosts_join_nobody file opts provider hosts fuel n :
  jo_discoverProvider opts = Some provider → Hosts file provider = inl hosts → hosts ≠ [] →
  wellFormed hosts = [] → 0 ≤ jo_size opts → jo_delayer opts = None → node_inv n → joins_valid (env n) →
  destroyed (state n) = false → (0 < fuel)%nat → clock_runs (env n) fuel (join_limit opts) →
  ∃ n', sendJoin file fuel opts n = Some (([], None), n').
Proof.
  intros Hp Hh Hne Hw Hs Hd Hi Hv Hnd Hf Hc.
  destruct (wp_run _ _ _ (sendJoin_spec file opts provider hosts n Hp Hh Hne
    ltac:(rewrite Hd; apply default_delayer) fuel Hi Hv Hf Hc)) as ([l err] & n' & Hrun & _ & Hall & Herr).
  exists n'. rewrite Hrun. simpl in *. assert (l = []) as ->.
  { destruct l as [|x l]; [done|]. apply Forall_cons in Hall as [(Hx & Hcx & _) _].
    assert (x ∈ wellFormed hosts) as H by (unfold wellFormed; by apply list_elem_of_filter).
    rewrite Hw in H. by apply elem_of_nil in H. }
  assert (join_size opts (self n) hosts ≤ 0) as Hz.
  { unfold join_size. rewrite Hw. unfold Min. case_bool_decide; simpl in *; lia. }
  destruct err as [[]|]; simpl in *; try done; [congruence|lia].
Qed.

(** ** Bootstrap *)
Definition bootJoinOpts (opts : BootstrapOptions) (p : DiscoverProvider) : joinOpts :=
  mkJoinOpts (bo_JoinTimeout opts) (bo_JoinSize opts) (bo_MaxJoinDuration opts) (bo_ParallelismFactor opts) (Some p) None.

Lemma boot_finish (opts : BootstrapOptions) (joined : list string) n :
  wp (when (negb (bo_Stopped opts)) GossipStart;; setReady;; t ← now; modify (λ n, with_startTime n t);;
      mret (joined, None : option swimError))
    (λ r n', r = (joined, None) ∧ n_memberlist n' = n_memberlist n ∧ config n' = config n ∧
      ready (state n') = true ∧ stopped (state n') = stopped (state n) ∧
      g_stopped (n_gossip n') = g_stopped (n_gossip n) && bo_Stopped opts) n.
Proof.
  unfold when, GossipStart, GossipStopped, SetStopped, modify_gos, setReady.
  destruct (bo_Stopped opts); simpl; [|apply wp_bind, wp_bind, wp_gets; destruct (g_stopped (n_gossip n)) eqn:Hg; simpl];
    repeat first [apply wp_bind | apply wp_ret | apply wp_modify | apply wp_now]; simpl; rewrite ?Hg; by rewrite ?andb_true_r.
Qed.

(** How a bootstrap of the address with [hosts] ends. *)
Definition booted (opts : BootstrapOptions) (provider : DiscoverProvider) (hosts : list string) (address : string)
    (r : list string * option swimError) (n : Node) : Prop :=
  node_inv n ∧ ready (state n) = bool_decide (r.2 = None) ∧
  g_stopped (n_gossip n) = (bool_decide (r.2 ≠ None) || bo_Stopped opts) ∧
  Forall (λ x, x ∈ hosts ∧ CaptureHost x ≠ "" ∧ x ≠ address) r.1 ∧
  (r.2 = None → join_size (bootJoinOpts opts provider) address hosts ≤ Z.of_nat (length r.1) ∨
                wellFormed hosts = [address]).

(** C24: bootstrapping a new node: with a channel and bootstrap hosts,
    [Bootstrap] terminates; when it succeeds the node is ready, gossips unless
    asked not to and has joined enough well-formed hosts; when it fails the
    node is neither ready nor gossiping.  In both cases its membership is
    consistent. *)
Theorem Bootstrap_outcome file opts provider hosts fuel app address nodeOpts e :
  resolveDiscoverProvider opts = inl provider → Hosts file provider = inl hosts → hosts ≠ [] →
  joins_valid e → (0 < fuel)%nat → clock_runs e fuel (join_limit (bootJoinOpts opts provider)) →
  ∃ r n', Bootstrap file fuel (Some opts) (NewNode app address true nodeOpts e) = Some (r, n') ∧
    booted opts provider hosts address r n'.
Proof.
  intros Hp Hh Hne Hv Hf Hc. set (n0 := NewNode app address true nodeOpts e).
  assert (wp (Bootstrap file fuel (Some opts)) (booted opts provider hosts address) n0) as Hw.
  { unfold Bootstrap. apply wp_bind, wp_gets. simpl. rewrite Hp. apply wp_bind.
    eapply wp_mono; [apply Reincarnate_new|]. intros _ n1 (Hr & Hself & _ & Hcf & Hst & Hev & Hg). apply wp_bind.
    fold (bootJoinOpts opts provider).
    assert (env n1 = e) as He by by rewrite Hev. rewrite <-He in Hv, Hc.
    assert (node_inv n1) as Hi1 by apply Hr.
    pose proof (sendJoin_spec file (bootJoinOpts opts provider) provider hosts n1 eq_refl Hh Hne default_delayer fuel
      Hi1 Hv Hf Hc) as Hjoin.
    eapply wp_mono; [exact Hjoin|]. intros [joined err] n2 (Hm & Hall & Herr). rewrite Hself in *.
    destruct err as [err|]; simpl in *.
    - apply wp_ret. unfold booted. simpl. rewrite (mv_state _ _ Hm), (mv_gossip _ _ Hm), Hst, Hg. split_and!; [apply Hm|done|done|constructor|done].
    - eapply wp_mono; [apply boot_finish|]. intros r n3 (-> & Hml & Hcf3 & Hrd & _ & Hgs). unfold booted. simpl.
      rewrite Hgs, (mv_gossip _ _ Hm), Hg. split_and!; [|done|done|done|by intros _].
      pose proof (mv_inv _ _ Hm) as [Hw Hvv]. unfold node_inv, ml_wf, view, self in *. by rewrite Hml, Hcf3. }
  by apply wp_run in Hw.
Qed.
