(* ===== verification/JoinWitness.v ===== *)
(** * JoinWitness: the theorems about joining at concrete nodes, and a join that
    counts one node twice *)
From S2P Require Import Prelude GoStd NodeState Util UtilSpec Memberlist Disseminator Suspicion Rollup.
From S2P Require Import Membership MembershipSpec UpdateSpec SwimOrder MemberIter Ping NodeCore SwimProps.
From S2P Require Import DisseminatorSpec SyncProps Samples JoinDelayer JoinSender JoinProps.
#[local] Open Scope Z_scope.

Definition noFile : string → result (list string) := λ _, inr ErrProvider.

Lemma sampleEnv_clock K d : d < Z.of_nat K * 1000000 → clock_runs sampleEnv K d.
Proof. intros Hd s k Hk. simpl. lia. Qed.
Lemma sampleEnv_joins : joins_valid sampleEnv.
Proof. by intros k res [=]. Qed.

Lemma backoff_is_exponential_witness :
  ∃ ts d n', delays 3 (newExponentialDelayer (Some newDelayOpts)) aNode = Some ((ts, d), n') ∧ length ts = 3%nat ∧
    (∀ i t, ts !! i = Some t →
       (if bool_decide (i = 0%nat) then 0 else bound newDelayOpts (Z.of_nat i - 1)) * 1000000 ≤ t
         ≤ bound newDelayOpts (Z.of_nat i) * 1000000 ∧ t ≤ MS (do_max newDelayOpts) * 1000000) ∧
    maxDelayReached d = bool_decide (0 < Z.of_nat 3 ∧
      MS (do_max newDelayOpts) ≤ MS (do_initial newDelayOpts) * 2 ^ (Z.of_nat 3 - 1)).
Proof. apply (backoff_is_exponential newDelayOpts 3 aNode); vm_compute; discriminate. Defined.



Definition badHosts : list string := ["b"; "c"].
Definition badJoin : joinOpts := mkJoinOpts 0 2 3000000 0 (Some (StaticHostList badHosts)) None.

Lemma malformed_hosts_join_nobody_witness :
  ∃ n', sendJoin noFile 4 badJoin aNode = Some (([], None), n').
Proof.
  apply (malformed_hosts_join_nobody noFile badJoin (StaticHostList badHosts) badHosts 4 aNode);
    [done|done|done|vm_compute; reflexivity|done|done|apply aNode_running| |vm_compute; reflexivity|lia|].
  - assert (env aNode = sampleEnv) as -> by (vm_compute; reflexivity). apply sampleEnv_joins.
  - assert (env aNode = sampleEnv) as -> by (vm_compute; reflexivity). apply sampleEnv_clock. vm_compute. reflexivity.
Defined.

Definition bBoot : BootstrapOptions := mkBootstrapOptions None ["a:1"; "b:1"] "" true 0 1 3000000 0.

Lemma Bootstrap_outcome_witness :
  ∃ r n', Bootstrap noFile 4 (Some bBoot) (NewNode "app" "a:1" true None sampleEnv) = Some (r, n') ∧
    booted bBoot (StaticHostList ["a:1"; "b:1"]) ["a:1"; "b:1"] "a:1" r n'.
Proof.
  apply (Bootstrap_outcome noFile bBoot (StaticHostList ["a:1"; "b:1"]) ["a:1"; "b:1"] 4);
    [done|done|done|apply sampleEnv_joins|lia|apply sampleEnv_clock; vm_compute; reflexivity].
Defined.

(** ** One node, joined twice *)

(** A world in which the node c:1 answers the calls made at the readings 18
    and 34, and nobody else answers. *)
Definition cAnswer : joinResponse := mkJoinResponse "app" "c:1" [sampleChange "c:1" 1 Alive] 0.
Definition twiceEnv : Env :=
  mkEnv (times sampleEnv) (λ _, 0%nat) (orders sampleEnv) (pings sampleEnv) (pingReqs sampleEnv)
    (λ k, if bool_decide (k ∈ [18; 34]%nat) then Replied cAnswer else Failed)
    (fingerprint32 sampleEnv) (doubledMedian sampleEnv).
Definition twoOfThree : joinOpts := mkJoinOpts 0 2 0 0 (Some (StaticHostList ["a:1"; "b:1"; "c:1"])) None.

(** A join can count one node twice: asked to join two nodes, of which
    only c:1 is up, the node joins c:1 in two rounds, counts it as two nodes
    and reports success, because the preferred nodes of a new round include
    those already joined. *)
Theorem join_counts_a_node_twice :
  ∃ n', (Reincarnate;; sendJoin noFile 3 twoOfThree) (NewNode "app" "a:1" true None twiceEnv)
    = Some ((["c:1"; "c:1"], None), n') ∧ join_size twoOfThree "a:1" ["a:1"; "b:1"; "c:1"] = 2.
Proof. eexists. split; vm_compute; reflexivity. Qed.
