(* ===== verification/Cluster.v ===== *)
(** * Cluster: nodes that gossip over an unreliable network

    A cluster is a map of nodes and the changes that were ever put on the
    network: a message may be lost, delayed, duplicated, reordered, and its
    changes may reach any node in any grouping.  An [action] is one stretch of
    the code between two remote calls: a request handler, the part of a
    protocol before or after a call, a timer, an admin request, a move of a
    gossip loop.  [perform] runs the node's own operation for it and yields the
    changes the node sends.

    How a process may start is a parameter of the steps.  With [sensibly], any
    process may start and restart whose options are not negative, whatever its
    clock; the theorem that nothing panics holds there.  With [steadily], clocks
    do not step back, within a process and from one to the next at the same
    address; there nobody believes, disseminates, times or receives an
    incarnation of a member above the one the member has taken, so that a
    refutation prevails everywhere. *)
From S2P Require Import Prelude GoStd NodeState Memberlist Disseminator Suspicion Rollup Membership.
From S2P Require Import Advances MembershipSpec UpdateSpec SwimOrder MemberIter Ping NodeCore GossipLoops SwimProps.
From S2P Require Import DisseminatorSpec IterSpec SyncProps Samples JoinDelayer JoinSender Keeper Authority Soundness.
From S2P Require Import Turns.
#[local] Open Scope Z_scope.

(** ** Actions of a node *)
Inductive action : Type :=
| ReceivePing (req : ping)
| ReceiveJoin (req : joinRequest)
| ReceivePingRequest (req : pingRequest)
| TargetReplied (req : pingRequest) (sent : list Change) (start : Z) (res : ping)
| AnswerPingRequest (req : pingRequest) (ok : bool)
| BeginTurn
| NextMember
| SetPinging (b : bool)
| SendPing (target : string)
| PingReplied (target : string) (sent : list Change) (start : Z) (res : ping)
| PingLate (target : string) (sent : list Change) (start : Z)
| ChooseHelpers (target : string)
| SendPingReq (target : string)
| PingReqReplied (res : pingResponse)
| PingReqFailed (sent : list Change)
| ReportHelper (target : string) (peers : list string) (peer : string) (start : Z) (answered : bool)
| SuspectMember (p : loc)
| EndPeriod (start : Z)
| EndTurn (start : Z)
| RateMove (pc : ratePc)
| TimerFires (address : string)
| RollupFlushes
| SendJoin (timeout : Z)
| JoinReplied (res : joinResponse)
| BecomeReady
| AdminJoin
| AdminLeave
| StartNode
| StopNode
| DestroyNode
| ToggleGossip
| ReadMembers.

Definition silently {A} (m : SW A) : SW (list Change) := m;; mret [].

Definition perform (act : action) : SW (list Change) :=
  match act with
  | ReceivePing req => r ← handlePing req; mret (reply_changes r)
  | ReceiveJoin req => r ← handleJoin req; mret (join_changes r)
  | ReceivePingRequest req => silently (acceptPingRequest req)
  | TargetReplied req sent start res =>
      pingSucceeded (pr_Target req) sent start;; silently (targetAnswered req start res)
  | AnswerPingRequest req ok => r ← answerPingRequest req ok; mret (ps_Changes r)
  | BeginTurn => silently (periodMove PCheck)
  | NextMember => silently Next
  | SetPinging b => silently (setPinging b)
  | SendPing target => req ← preparePing target; mret (pi_Changes req)
  | PingReplied target sent start res =>
      pingSucceeded target sent start;; silently (Update (pi_Changes res))
  | PingLate target sent start => silently (pingSucceeded target sent start)
  | ChooseHelpers target =>
      size ← gets (λ n, pingRequestSize (config n)); silently (chooseHelpers target size)
  | SendPingReq target => req ← preparePingRequest target; mret (pr_Changes req)
  | PingReqReplied res => silently (Update (ps_Changes res))
  | PingReqFailed sent => silently (bumpPiggybackCounters sent)
  | ReportHelper target peers peer start answered => silently (reportHelper target peers peer start answered)
  | SuspectMember p => silently (suspectMember p)
  | EndPeriod start => silently (recordPeriod start)
  | EndTurn start => silently (periodMove (PAsleep start))
  | RateMove pc => silently (rateMove pc)
  | TimerFires address => silently (Fire address)
  | RollupFlushes => silently flushTick
  | SendJoin timeout => silently (makeJoinRequest timeout)
  | JoinReplied res => silently (AddJoinList (jr_Membership res))
  | BecomeReady => silently setReady
  | AdminJoin => silently adminJoinHandler
  | AdminLeave => silently adminLeaveHandler
  | StartNode => silently NodeStart
  | StopNode => silently NodeStop
  | DestroyNode => silently Destroy
  | ToggleGossip => silently gossipHandler
  | ReadMembers => silently (MemberStats;; GetReachableMembers;; CountReachableMembers)
  end.

(** The changes that reach the node with an action. *)
Definition incoming (act : action) : list Change :=
  match act with
  | ReceivePing req => pi_Changes req
  | ReceivePingRequest req => pr_Changes req
  | TargetReplied _ _ _ res => pi_Changes res
  | PingReplied _ _ _ res => pi_Changes res
  | PingReqReplied res => ps_Changes res
  | JoinReplied res => jr_Membership res
  | _ => []
  end.

(** ** Clusters and their steps *)
Record cluster : Type := mkCluster {
  nodes : gmap string Node;
  network : list Change
}.

Definition emptyCluster : cluster := mkCluster ∅ [].

(** Changes come from the network; the member that could not be reached is one
    that the iterator gave. *)
Definition enabledAction (C : cluster) (n : Node) (act : action) : Prop :=
  incoming act ⊆ network C ∧
  match act with SuspectMember p => p ∈ list_ (n_memberlist n) | _ => True end.

(** The incarnation a node has taken for itself. *)
Definition own (n : Node) : option Z := (λ ms : mstate, ms.1) <$> view n !! self n.

(** A process starts (or is restarted) with the first part of Bootstrap, or a
    node of the cluster acts; [boots C address opts e] says when a process may
    start at [address] with the options [opts] in the world [e]. *)
Inductive step (boots : cluster → string → option Options → Env → Prop) (C : cluster) : cluster → Prop :=
| step_boot app address channel opts e applied n :
    boots C address opts e →
    Reincarnate (NewNode app address channel opts e) = Some (applied, n) →
    step boots C (mkCluster (<[address := n]> (nodes C)) (network C))
| step_act a act n out n' :
    nodes C !! a = Some n → enabledAction C n act → perform act n = Some (out, n') →
    step boots C (mkCluster (<[a := n']> (nodes C)) (network C ++ out)).

(** The clusters that a sequence of steps reaches from nothing. *)
Definition reachable (boots : cluster → string → option Options → Env → Prop) : cluster → Prop :=
  rtc (step boots) emptyCluster.


(** Any options, a clock that does not step back; a process that is restarted
    finds its clock at or past the incarnation that its predecessor had taken. *)
Definition steadily (C : cluster) (address : string) (opts : option Options) (e : Env) : Prop :=
  monotone_clock e ∧ ∀ n0 o, nodes C !! address = Some n0 → own n0 = Some o → o ≤ millis (times e 1).

(** ** Every action keeps what a keeper keeps *)

(** What an action asks of the configuration. *)
Definition canRun (n : Node) (act : action) : Prop :=
  match act with
  | ChooseHelpers _ => 0 ≤ pingRequestSize (config n)
  | BeginTurn => g_stopped (n_gossip n) = true ∨ numPeriods (n_gossip n) ≠ 0 ∨ 0 ≤ minProtocolPeriod (n_gossip n)
  | _ => True
  end.


(** An action that returned could run. *)
Lemma perform_canRun n act out n' : perform act n = Some (out, n') → canRun n act.
Proof.
  destruct act; simpl; try done; unfold silently.
  - intros H. apply bind_run in H as (r & n1 & H & _). apply bind_run in H as (b & n2 & [= <- <-] & H).
    destruct (g_stopped (n_gossip n)); [by left|right]. apply bind_run in H as (d & n3 & H & _).
    unfold ComputeProtocolDelay in H. apply bind_run in H as (g & n4 & [= <- <-] & H).
    case_bool_decide; [by left|right]. case_bool_decide; [done|lia].
  - intros H. apply bind_run in H as (k & n1 & [= <- <-] & H). apply bind_run in H as (r & n2 & H & _).
    unfold chooseHelpers, RandomPingableMembers in H. apply bind_run in H as (l & n3 & H & _).
    do 3 apply bind_run in H as (? & ? & _ & H). case_bool_decide; [lia|]. case_bool_decide; [done|lia].
Qed.

Section perform.
Context {B : Type} `{KeeperLaws B}.
Implicit Types (b : B).

Lemma kept_silently {A} (m : SW A) b n (out : A → list Change) :
  wp m (λ x, kept b n (out x)) n → wp (silently m) (λ o, kept b n o) n.
Proof using.
  intros Hm. apply wp_bind. eapply wp_mono; [exact Hm|]. intros x n' Hk. apply wp_ret. exact (kept_drop _ _ _ _ Hk).
Qed.

Lemma idle_silently {A} (m : SW A) b n : held b n → wp m (λ _, idle n) n → wp (silently m) (λ o, kept b n o) n.
Proof using H0.
  intros Ha Hm. apply (kept_silently m b n (λ _, [])). eapply wp_mono; [exact Hm|]. intros x n' Hid. by apply kept_idle.
Qed.

Lemma kept_output {A} (m : SW A) (out : A → list Change) b n :
  wp m (λ x, kept b n (out x)) n → wp (x ← m; mret (out x)) (λ o, kept b n o) n.
Proof using. intros Hm. apply wp_bind. eapply wp_mono; [exact Hm|]. intros x n' Hk. by apply wp_ret. Qed.

Lemma succeed_then {A} (m : SW A) target sent start b n :
  held b n → (∀ n1 b1, held b1 n1 → raised (self n) b b1 → wp m (λ _, kept b1 n1 []) n1) →
  wp (pingSucceeded target sent start;; silently m) (λ o, kept b n o) n.
Proof using H0.
  intros Ha Hm. eapply (kept_bind _ _ (λ _, [])); [by apply pingSucceeded_idle|].
  intros [] n1 b1 Ha1 Hl _ _. eapply (kept_silently _ _ _ (λ _, [])). by apply Hm.
Qed.

Lemma dropped {A} (m : SW A) (out : A → list Change) b n :
  wp m (λ x, kept b n (out x)) n → wp m (λ _, kept b n []) n.
Proof using. intros Hm. eapply wp_mono; [exact Hm|]. intros x n' Hk. exact (kept_drop _ _ _ _ Hk). Qed.

(** The actions that only read, count or note. *)
Lemma perform_idle act n b :
  held b n → canRun n act →
  match act with
  | BeginTurn => wp (periodMove PCheck) (λ _, idle n) n
  | ChooseHelpers target => wp (chooseHelpers target (pingRequestSize (config n))) (λ _, idle n) n
  | EndTurn start => wp (periodMove (PAsleep start)) (λ _, idle n) n
  | RateMove pc => wp (rateMove pc) (λ _, idle n) n
  | SendJoin timeout => wp (makeJoinRequest timeout) (λ _, idle n) n
  | ToggleGossip => wp gossipHandler (λ _, idle n) n
  | ReadMembers => wp (MemberStats;; GetReachableMembers;; CountReachableMembers) (λ _, idle n) n
  | _ => True
  end.
Proof using H0.
  intros Hb Hrun. pose proof (held_wf _ _ Hb) as Hwf. destruct act; simpl in *; try exact I.
  - by apply beginTurn_idle.
  - by apply chooseHelpers_idle.
  - apply wp_bind, wp_now, wp_bind, wp_emit, wp_ret. split; simpl; (done || lia).
  - destruct pc; simpl; [apply wp_bind, wp_gets; by apply wp_ret|]. apply wp_bind.
    eapply wp_mono; [apply AdjustProtocolRate_idle|]. intros [] n' Hid. by apply wp_ret.
  - apply wp_bind, wp_gets, wp_bind, wp_gets, wp_bind. eapply wp_mono; [by eapply Incarnation_idle|].
    intros i n' Hid. by apply wp_ret.
  - apply gossipHandler_idle.
  - by apply readMembers_idle.
Qed.

Lemma perform_kept act n b :
  held b n → canRun n act → Forall (fair b) (incoming act) →
  match act with SuspectMember p => p ∈ list_ (n_memberlist n) | _ => True end →
  wp (perform act) (λ out, kept b n out) n.
Proof using H0.
  intros Ha Hrun Hin Hp. pose proof (perform_idle act n b Ha Hrun) as Hid. destruct act; simpl in *.
  - apply (kept_output (handlePing req) reply_changes). by apply handlePing_kept.
  - apply (kept_output (handleJoin req) join_changes). by apply handleJoin_kept.
  - eapply (kept_silently _ _ _ (λ _, [])). by apply acceptPingRequest_kept.
  - apply succeed_then; [done|]. intros n1 b1 Ha1 Hl. apply targetAnswered_kept; [done|]. by eapply fairs_raised.
  - apply (kept_output (answerPingRequest req ok) ps_Changes). by apply answerPingRequest_kept.
  - by apply idle_silently.
  - eapply (kept_silently _ _ _ (λ _, [])). by apply Next_kept.
  - apply idle_silently; [done|]. by apply wp_modify.
  - apply (kept_output (preparePing target) pi_Changes). by apply preparePing_kept.
  - apply succeed_then; [done|]. intros n1 b1 Ha1 Hl. eapply dropped, held_Update; [done|]. by eapply fairs_raised.
  - eapply (kept_silently _ _ _ (λ _, [])). by apply pingSucceeded_idle.
  - apply wp_bind, wp_gets. by apply idle_silently.
  - apply (kept_output (preparePingRequest target) pr_Changes). by apply preparePingRequest_kept.
  - eapply kept_silently. by apply held_Update.
  - apply idle_silently; [done|]. by eapply bump_idle.
  - apply idle_silently; [done|]. apply reportHelper_idle.
  - eapply (kept_silently _ _ _ (λ _, [])). by apply suspectMember_kept.
  - apply idle_silently; [done|]. apply recordPeriod_idle.
  - by apply idle_silently.
  - by apply idle_silently.
  - eapply (kept_silently _ _ _ (λ _, [])). by apply Fire_kept.
  - apply idle_silently; [done|]. apply flushTick_idle.
  - by apply idle_silently.
  - eapply (kept_silently _ _ _ (λ _, [])). by apply AddJoinList_kept.
  - apply idle_silently; [done|]. by apply wp_modify.
  - eapply (kept_silently _ _ _ (λ _, [])). by apply adminJoinHandler_kept.
  - eapply (kept_silently _ _ _ (λ _, [])). by apply adminLeaveHandler_kept.
  - apply idle_silently; [done|]. apply NodeStart_idle.
  - apply idle_silently; [done|]. apply NodeStop_idle.
  - apply idle_silently; [done|]. apply Destroy_idle.
  - by apply idle_silently.
  - by apply idle_silently.
Qed.
End perform.

(** ** The invariant of the cluster *)
Definition ceilings (C : cluster) : ceiling := omap own (nodes C).

Record consistent (C : cluster) : Prop := {
  co_self : ∀ a n, nodes C !! a = Some n → self n = a;
  co_nodes : ∀ a n, nodes C !! a = Some n → auth (ceilings C) n;
  co_network : Forall (fair (ceilings C)) (network C)
}.

Lemma auth_own L n : auth L n → own n = L !! self n.
Proof. intros Ha. destruct (au_own _ _ Ha) as (o & HL & (st & Hst & _) & _). unfold own. by rewrite Hst, HL. Qed.

(** Replacing one node by a later one of the same address. *)
Lemma consistent_replace C a n L out :
  consistent C → self n = a → auth L n → lower (ceilings C) L → (∀ b, b ≠ a → L !! b = ceilings C !! b) →
  Forall (fair L) out → consistent (mkCluster (<[a := n]> (nodes C)) (network C ++ out)).
Proof.
  intros [Hself Hnodes Hnet] Hs Ha Hl Hr Hout.
  assert (ceilings (mkCluster (<[a := n]> (nodes C)) (network C ++ out)) = L) as HL.
  { apply map_eq. intros b. unfold ceilings. simpl. rewrite lookup_omap. destruct (decide (a = b)) as [->|Hne].
    - rewrite lookup_insert_eq. simpl. rewrite (auth_own _ _ Ha). by rewrite Hs.
    - rewrite lookup_insert_ne by done. rewrite Hr by done. unfold ceilings. by rewrite lookup_omap. }
  split; rewrite ?HL; simpl.
  - intros b m [[<- <-]|[_ Hm]]%lookup_insert_Some; [done|]. by apply Hself.
  - intros b m [[<- <-]|[Hne Hm]]%lookup_insert_Some; [done|].
    eapply auth_raise; [exact Hl| |by eapply Hnodes]. rewrite (Hself _ _ Hm). by apply Hr.
  - apply Forall_app. split; [by eapply unders_lower|done].
Qed.

Lemma enabled_fair C n act : consistent C → enabledAction C n act → Forall (fair (ceilings C)) (incoming act).
Proof.
  intros HC [Hin _]. apply Forall_forall. intros c Hc%Hin. pose proof (co_network _ HC) as Hnet.
  rewrite Forall_forall in Hnet. by apply Hnet.
Qed.

Lemma act_spec C a n act :
  consistent C → nodes C !! a = Some n → enabledAction C n act → canRun n act →
  wp (perform act) (λ out, kept (ceilings C) n out) n.
Proof.
  intros HC Hn Hen Hrun. apply perform_kept; [by eapply co_nodes|done|by eapply enabled_fair|apply Hen].
Qed.

Lemma step_consistent C C' : consistent C → step steadily C C' → consistent C'.
Proof.
  intros HC Hstep. destruct Hstep as [app address channel opts e applied n [Hclk Hlate] Hrun|a act n out n' Hn Hen Hrun].
  - pose proof (boot_auth app address channel opts e (ceilings C) Hclk) as Hw. unfold wp in Hw. rewrite Hrun in Hw.
    destruct Hw as [Hs Ha]. pose proof (consistent_replace C address n _ [] HC Hs Ha) as H. rewrite app_nil_r in H.
    apply H; [|by intros b Hb; rewrite lookup_insert_ne|done]. intros b o Hb.
    destruct (decide (b = address)) as [->|Hne]; [|exists o; rewrite lookup_insert_ne by done; split; [done|lia]].
    unfold ceilings in Hb. rewrite lookup_omap in Hb. apply bind_Some in Hb as (n0 & Hn0 & Ho).
    eexists. rewrite lookup_insert_eq. split; [done|]. by eapply Hlate.
  - pose proof (act_spec C a n act HC Hn Hen (perform_canRun _ _ _ _ Hrun)) as Hw. unfold wp in Hw. rewrite Hrun in Hw.
    destruct Hw as (L' & [Hl Hr] & Ha & Hs & Hout). rewrite (co_self _ HC _ _ Hn) in *.
    eapply consistent_replace; done.
Qed.

Lemma reachable_consistent C : reachable steadily C → consistent C.
Proof.
  apply (rtc_ind_r (λ C, consistent C) emptyCluster).
  - split; [done|done|constructor].
  - intros C1 C2 _ Hs HC. by eapply step_consistent.
Qed.






(** ** The theorems *)




(** [i] is not ahead of what the member [a] of the cluster has taken. *)
Definition taken_by_member (C : cluster) (a : string) (i : Z) : Prop :=
  ∃ na o, nodes C !! a = Some na ∧ own na = Some o ∧ i ≤ o.

Lemma within_taken C a i : within (ceilings C) a i → taken_by_member C a i.
Proof.
  intros (o & Ho & Hi). unfold ceilings in Ho. rewrite lookup_omap in Ho. apply bind_Some in Ho as (na & Hna & Ho).
  by exists na, o.
Qed.

(** C3: a member alone speaks for its incarnation.  Provided that clocks do not
    step back, neither while a process runs nor when it is restarted at its
    address (where the new clock is at or past the incarnation that was in use),
    in every reachable cluster each incarnation that any node believes of a
    member, disseminates or has a timer for, and each one on the network,
    belongs to a process that was started and is at most the incarnation that
    process has taken; and no node ever believes itself suspect or faulty. *)
Theorem incarnation_authority C b n :
  reachable steadily C → nodes C !! b = Some n →
  (∀ a i st, view n !! a = Some (i, st) → taken_by_member C a i) ∧
  (∀ a pc, changes (n_disseminator n) !! a = Some pc → taken_by_member C a (c_Incarnation (pc_Change pc))) ∧
  (∀ a t, timers (n_suspicion n) !! a = Some t → taken_by_member C (t_address t) (t_incarnation t)) ∧
  (∀ c, c ∈ network C → taken_by_member C (c_Address c) (c_Incarnation c)) ∧
  (∃ o st, view n !! b = Some (o, st) ∧ (st = Alive ∨ st = Leave)).
Proof.
  intros HC%reachable_consistent Hn. pose proof (co_nodes _ HC _ _ Hn) as Ha. split_and!.
  - intros a i st Hv. apply within_taken. apply (au_view _ _ Ha a (i, st) Hv).
  - intros a pc Hpc. apply within_taken. destruct (au_dis _ _ Ha _ _ Hpc) as [<- [_ Hw]]. done.
  - intros a t Ht. apply within_taken. exact (au_timers _ _ Ha _ _ Ht).
  - intros c Hc. apply within_taken. pose proof (co_network _ HC) as Hnet. rewrite Forall_forall in Hnet. by apply Hnet.
  - destruct (au_own _ _ Ha) as (o & _ & (st & Hst & Hown) & _). exists o, st. by rewrite <-(co_self _ HC _ _ Hn).
Qed.

(** Hearing an alive change that overrides what is known. *)
Lemma Update_alive r m L :
  auth L m → stopped (state m) = false → c_Address r ≠ self m → c_Status r = Alive →
  (∀ i st, view m !! c_Address r = Some (i, st) → i < c_Incarnation r) →
  wp (Update [r]) (λ _ m', view m' !! c_Address r = Some (c_Incarnation r, Alive)) m.
Proof.
  intros Ha Hs Hne Hst Hi. assert (valid_change r) as Hr by (unfold valid_change; rewrite Hst; apply valid_Alive).
  eapply wp_mono; [apply Update_single; [apply Ha|done|done]|]. intros applied m' Hu.
  destruct (absorbs_one _ _ _ _ _ _ (up_abs _ _ _ _ Hu)) as (o & Hd & _ & ->). unfold decision in Hd.
  destruct (view m !! c_Address r) as [[i st]|] eqn:Hv.
  - rewrite bool_decide_false in Hd by done. simpl in Hd. unfold beats in Hd. simpl in Hd.
    rewrite bool_decide_true in Hd by (by eapply Hi). subst o. simpl. unfold put. by rewrite lookup_insert_eq, Hst.
  - subst o. simpl. unfold put. by rewrite lookup_insert_eq, Hst.
Qed.

(** C5: a refutation prevails.  In a cluster whose clocks do not step back (as for
    the theorem above), when a node hears that it is suspect or faulty and its
    clock has passed the incarnation it has taken, it answers with an alive
    change that no change on the network overrides, and every other running node
    that hears the answer believes the node alive again, whatever it believed
    before. *)
Theorem refutation_prevails C a n c :
  reachable steadily C → nodes C !! a = Some n → stopped (state n) = false →
  c ∈ network C → c_Address c = a → c_Status c = Suspect ∨ c_Status c = Faulty →
  (∀ o, own n = Some o → o < millis (times (env n) (tick n))) →
  ∃ r n', Update [c] n = Some ([r], n') ∧ c_Address r = a ∧ c_Status r = Alive ∧
    view n' !! a = Some (c_Incarnation r, Alive) ∧
    (∀ d, d ∈ network C → c_Address d = a → beats d (c_Incarnation r, Alive) = false) ∧
    (∀ b m, b ≠ a → nodes C !! b = Some m → stopped (state m) = false →
       ∃ applied m', Update [r] m = Some (applied, m') ∧ view m' !! a = Some (c_Incarnation r, Alive)).
Proof.
  intros HC%reachable_consistent Hn Hs Hc Hadr Hst Hclock. pose proof (co_nodes _ HC _ _ Hn) as Ha.
  pose proof (co_self _ HC _ _ Hn) as Hself. destruct (au_own _ _ Ha) as (o & HL & (st & Hv & _) & _).
  specialize (Hclock o). unfold own in Hclock. rewrite Hv in Hclock. specialize (Hclock eq_refl).
  destruct (refuted c n (o, st)) as (r & n' & Hrun & Hra & Hrs & (u & Hu & Hinc) & Hv' & _);
    [apply Ha|done|congruence|done|done|]. rewrite Hself in *.
  assert (o < c_Incarnation r) as Hlt.
  { eapply Z.lt_le_trans; [exact Hclock|]. rewrite Hinc. apply millis_mono.
    apply elem_of_readings in Hu as (k & [Hk _] & ->). by apply (au_clock _ _ Ha). }
  assert (∀ i, within (ceilings C) a i → i < c_Incarnation r) as Hbelow.
  { intros i (o' & Ho' & ?). rewrite HL in Ho'. simplify_eq. lia. }
  exists r, n'. split_and!; [done..| |].
  - intros d Hd Hda. apply beats_false. left. simpl. apply Hbelow. rewrite <-Hda.
    pose proof (co_network _ HC) as Hnet. rewrite Forall_forall in Hnet. by apply Hnet.
  - intros b m Hb Hm Hsm. pose proof (co_nodes _ HC _ _ Hm) as Hma. rewrite <-Hra.
    apply (wp_run _ _ _ (Update_alive r m _ Hma Hsm ltac:(by rewrite Hra, (co_self _ HC _ _ Hm)) Hrs
      ltac:(rewrite Hra; intros i st' Hi; apply Hbelow, (au_view _ _ Hma a (i, st') Hi)))).
Qed.
