(* ===== verification/ClusterWitness.v ===== *)
(** * ClusterWitness: the theorems about clusters at a concrete cluster

    Two processes start, "b" joins "a", suspects it and pings somebody, so that
    the rumour is on the network. *)
From S2P Require Import Prelude GoStd NodeState Memberlist Disseminator Suspicion Rollup Membership.
From S2P Require Import Advances MembershipSpec UpdateSpec SwimOrder MemberIter Ping NodeCore SwimProps.
From S2P Require Import DisseminatorSpec IterSpec SyncProps Samples JoinDelayer JoinSender Authority Soundness Turns Cluster.
#[local] Open Scope Z_scope.

(** ** Running a script of steps *)
Inductive event : Type :=
| Begin (address : string)
| Act (a : string) (f : cluster → action).

Definition enabledb (C : cluster) (n : Node) (act : action) : bool :=
  forallb (λ c, bool_decide (c ∈ network C)) (incoming act) &&
  match act with SuspectMember p => bool_decide (p ∈ list_ (n_memberlist n)) | _ => true end.

Definition runEvent (C : cluster) (ev : event) : option cluster :=
  match ev with
  | Begin a =>
      match nodes C !! a, Reincarnate (NewNode "app" a true None sampleEnv) with
      | None, Some (_, n) => Some (mkCluster (<[a := n]> (nodes C)) (network C))
      | _, _ => None
      end
  | Act a f =>
      match nodes C !! a with
      | Some n =>
          if enabledb C n (f C) then
            match perform (f C) n with
            | Some (out, n') => Some (mkCluster (<[a := n']> (nodes C)) (network C ++ out))
            | None => None
            end
          else None
      | None => None
      end
  end.

Fixpoint runScript (C : cluster) (evs : list event) : option cluster :=
  match evs with
  | [] => Some C
  | ev :: evs => match runEvent C ev with Some C' => runScript C' evs | None => None end
  end.

Lemma enabledb_spec C n act : enabledb C n act = true → enabledAction C n act.
Proof.
  unfold enabledb, enabledAction. intros [Hin Hp]%andb_true_iff. split.
  - intros c Hc. rewrite forallb_forall in Hin. apply list_elem_of_In in Hc.
    specialize (Hin c Hc). by apply bool_decide_eq_true in Hin.
  - destruct act; try done. by apply bool_decide_eq_true in Hp.
Qed.

Lemma sampleEnv_monotone : monotone_clock sampleEnv.
Proof. intros i j Hij. simpl. lia. Qed.

(** A process that starts with the default options and this clock, where none was. *)
Definition admits (boots : cluster → string → option Options → Env → Prop) : Prop :=
  ∀ C a, nodes C !! a = None → boots C a None sampleEnv.

Lemma admits_steadily : admits steadily.
Proof. intros C a Ha. split; [apply sampleEnv_monotone|]. intros n0 o Hn0. congruence. Qed.

Lemma runEvent_step boots C ev C' : admits boots → runEvent C ev = Some C' → step boots C C'.
Proof.
  intros Hb. destruct ev as [a|a f]; simpl.
  - destruct (nodes C !! a) eqn:Ha; [done|].
    destruct (Reincarnate (NewNode "app" a true None sampleEnv)) as [[applied n]|] eqn:Hr; [|done].
    intros [= <-]. eapply step_boot; [by apply Hb|exact Hr].
  - destruct (nodes C !! a) as [n|] eqn:Ha; [|done].
    destruct (enabledb C n (f C)) eqn:He; [|done]. destruct (perform (f C) n) as [[out n']|] eqn:Hp; [|done].
    intros [= <-]. eapply step_act; [exact Ha|by apply enabledb_spec|exact Hp].
Qed.

Lemma runScript_reachable boots evs C C' :
  admits boots → reachable boots C → runScript C evs = Some C' → reachable boots C'.
Proof.
  intros Hb. revert C. induction evs as [|ev evs IH]; intros C HC; simpl; [by intros [= <-]|].
  destruct (runEvent C ev) as [C1|] eqn:H1; [|done]. apply IH. eapply rtc_r; [exact HC|].
  exact (runEvent_step boots _ _ _ Hb H1).
Qed.

(** ** The sample *)
Definition pointerTo (b a : string) (C : cluster) : loc :=
  default 1%positive (nodes C !! b ≫= λ n, byAddress (n_memberlist n) !! a).

Definition rumourScript : list event :=
  [ Begin "a"; Begin "b";
    Act "a" (λ _, ReceiveJoin (mkJoinRequest "app" "b" 1 0));
    Act "b" (λ C, JoinReplied (mkJoinResponse "app" "a" (network C) 0));
    Act "b" (λ C, SuspectMember (pointerTo "b" "a" C));
    Act "b" (λ _, SendPing "c") ].

Definition rumourCluster : cluster := default emptyCluster (runScript emptyCluster rumourScript).

Lemma rumourCluster_reachable boots : admits boots → reachable boots rumourCluster.
Proof.
  intros Hb. unfold rumourCluster. destruct (runScript emptyCluster rumourScript) as [C|] eqn:H; [|apply rtc_refl].
  eapply runScript_reachable; [done|apply rtc_refl|exact H].
Qed.

Definition memberOf (a : string) : Node :=
  default (NewNode "app" a true None sampleEnv) (nodes rumourCluster !! a).

Definition present (a : string) : bool := match nodes rumourCluster !! a with Some _ => true | None => false end.

Lemma memberOf_in a : present a = true → nodes rumourCluster !! a = Some (memberOf a).
Proof. unfold memberOf, present. generalize (nodes rumourCluster !! a). by intros [n|]. Qed.

(** What "b" tells about "a". *)
Definition rumour : Change := mkChange "b" 1 "a" 1 Suspect 15000000.

Lemma rumour_on_network : rumour ∈ network rumourCluster.
Proof. apply (bool_decide_unpack _). vm_compute. reflexivity. Qed.





(** The options matter: with a negative size the choice of helpers panics, and
    with a negative period the first delay does. *)
Definition optionsWith (size period : Z) : option Options :=
  Some (mkOptions 0 period 0 0 0 size 0 0).
Definition startedWith (size period : Z) : Node :=
  match Reincarnate (NewNode "app" "a" true (optionsWith size period) sampleEnv) with
  | Some (_, n) => n
  | None => NewNode "app" "a" true None sampleEnv
  end.

Example negative_options_panic :
  perform (ChooseHelpers "b") (startedWith (-1) 0) = None ∧
  (NodeStart;; perform BeginTurn) (startedWith 0 (-2)) = None.
Proof. split; vm_compute; reflexivity. Qed.

Lemma incarnation_authority_witness :
  nodes rumourCluster !! "b" = Some (memberOf "b") ∧
  (∀ a i st, view (memberOf "b") !! a = Some (i, st) → taken_by_member rumourCluster a i).
Proof.
  assert (nodes rumourCluster !! "b" = Some (memberOf "b")) as Hb by (apply memberOf_in; vm_compute; reflexivity).
  split; [exact Hb|]. exact (proj1 (incarnation_authority rumourCluster "b" _ (rumourCluster_reachable _ admits_steadily) Hb)).
Defined.

(** The clock of "a" has passed the incarnation "a" has taken. *)
Definition clock_passed (n : Node) : bool :=
  match own n with Some o => bool_decide (o < millis (times (env n) (tick n))) | None => true end.

Lemma clock_passed_spec n o : clock_passed n = true → own n = Some o → o < millis (times (env n) (tick n)).
Proof. unfold clock_passed. intros H Ho. rewrite Ho in H. by apply bool_decide_eq_true in H. Qed.

Lemma refutation_prevails_witness :
  ∃ r n', Update [rumour] (memberOf "a") = Some ([r], n') ∧ c_Address r = "a" ∧ c_Status r = Alive ∧
    view n' !! "a" = Some (c_Incarnation r, Alive) ∧
    (∀ d, d ∈ network rumourCluster → c_Address d = "a" → beats d (c_Incarnation r, Alive) = false) ∧
    (∀ b m, b ≠ "a" → nodes rumourCluster !! b = Some m → stopped (state m) = false →
       ∃ applied m', Update [r] m = Some (applied, m') ∧ view m' !! "a" = Some (c_Incarnation r, Alive)).
Proof.
  refine (refutation_prevails rumourCluster "a" (memberOf "a") rumour (rumourCluster_reachable _ admits_steadily) _ _
    rumour_on_network _ _ _).
  - apply memberOf_in. vm_compute. reflexivity.
  - vm_compute. reflexivity.
  - reflexivity.
  - left. reflexivity.
  - intros o. apply clock_passed_spec. vm_compute. reflexivity.
Defined.
