(* ===== verification/Forwarder.v ===== *)
(** * Forwarder: forwarding of requests with retries (forward/forwarder.go,
    request_sender.go, events.go)

    The outcome of each remote call and the destination each lookup finds are
    decided by the world ([fwEnv]).  Send, ScheduleRetry, AttemptRetry and
    RerouteRetry call each other; the recursion carries fuel, one unit per
    call of Send. *)
From S2P Require Import Prelude GoStd NodeState Util.
#[local] Open Scope Z_scope.

(** ** events.go *)
Inductive forwardEvent : Type :=
| RequestForwardedEvent
| InflightRequestsChangedEvent (Inflight : Z)
| InflightRequestsMiscountEvent (Operation : string)
| SuccessEvent
| FailedEvent
| MaxRetriesEvent (MaxRetries : Z)
| RetryAttemptEvent
| RetryAbortEvent (Reason : string)
| RerouteEvent (OldDestination NewDestination : string)
| RetrySuccessEvent (NumRetries : Z).

Definition InflightDecrement : string := "decrement".

Inductive forwardError : Type :=
| errDestinationsDiverged
| errMaxRetries
| errTimedOut
| errApplication (Message : string).

(** ** Options *)
Record fwOptions : Type := mkFwOptions {
  MaxRetries : Z;
  RerouteRetries : bool;
  RetrySchedule : option (list Z);
  Timeout : Z
}.

Definition fwDefaultOptions : fwOptions :=
  mkFwOptions 3 false (Some [3 * 1000000000; 6 * 1000000000; 12 * 1000000000]) (3 * 1000000000).

Definition fwMergeDefaultOptions (opts : option fwOptions) : fwOptions :=
  let def := fwDefaultOptions in
  match opts with
  | None => def
  | Some o =>
      mkFwOptions (SelectInt (MaxRetries o) (MaxRetries def)) (RerouteRetries o)
        (match RetrySchedule o with None => RetrySchedule def | s => s end)
        (SelectDuration (Timeout o) (Timeout def))
  end.

(** ** State *)

(** What the channel reports of a call: no call could be begun, writing it
    failed, or a response with its application-error flag, its third argument
    and the message found when that is decoded as a JSON error. *)
Inductive rawCall : Type :=
| BeginCallError
| WriteArgsError
| Response (ApplicationError : bool) (arg3 : string) (errMessage : option string)
| ContextDone.

(** How a call made by MakeCall ends. *)
Inductive callOutcome : Type :=
| CallReplied (res : string)
| CallApplicationError (Message : string)
| CallFailed
| CallTimedOut.

(** [calls k] and [lookups k] answer the [k]-th use of the world. *)
Record fwEnv : Type := mkFwEnv {
  calls : nat → rawCall;
  lookups : nat → string → option string;
  ranges : nat → choice
}.

(** [fw_called] and [fw_slept] record the destinations called and the pauses. *)
Record Forwarder : Type := mkForwarder {
  inflight : Z;
  fw_listeners : list nat;
  fw_emitted : list (nat * forwardEvent);
  fw_called : list string;
  fw_slept : list Z;
  fw_env : fwEnv;
  fw_tick : nat
}.

Record requestSender : Type := mkSender {
  rs_destination : string;
  rs_keys : list string;
  rs_retries : Z;
  rs_maxRetries : Z;
  rs_retrySchedule : list Z;
  rs_rerouteRetries : bool;
  rs_thrift : bool
}.

Abbreviation FW := (M Forwarder).

Definition NewForwarder (e : fwEnv) : Forwarder := mkForwarder 0 [] [] [] [] e 0.

Definition fwEmit (e : forwardEvent) : FW unit :=
  modify (λ f, mkForwarder (inflight f) (fw_listeners f)
                 (fw_emitted f ++ ((λ l, (l, e)) <$> fw_listeners f)) (fw_called f) (fw_slept f) (fw_env f) (fw_tick f)).

Definition fwRegisterListener (l : nat) : FW unit :=
  modify (λ f, mkForwarder (inflight f) (fw_listeners f ++ [l]) (fw_emitted f) (fw_called f) (fw_slept f)
                 (fw_env f) (fw_tick f)).

Definition setInflight (i : Z) : FW unit :=
  modify (λ f, mkForwarder i (fw_listeners f) (fw_emitted f) (fw_called f) (fw_slept f) (fw_env f) (fw_tick f)).

Definition fwSample {A} (stream : fwEnv → nat → A) : FW A := λ f,
  Some (stream (fw_env f) (fw_tick f),
        mkForwarder (inflight f) (fw_listeners f) (fw_emitted f) (fw_called f) (fw_slept f) (fw_env f) (S (fw_tick f))).

Definition incrementInflight : FW unit :=
  i ← gets inflight;
  setInflight (i + 1);;
  fwEmit (InflightRequestsChangedEvent (i + 1)).

Definition decrementInflight : FW unit :=
  pre ← gets inflight;
  setInflight (pre - 1);;
  when (bool_decide (pre - 1 < 0))
    (setInflight 0;; fwEmit (InflightRequestsMiscountEvent InflightDecrement));;
  i ← gets inflight;
  when (bool_decide (pre ≠ i)) (fwEmit (InflightRequestsChangedEvent i)).

(** ** request_sender.go *)
Definition newRequestSender (keys : list string) (destination : string) (thrift : bool) (o : fwOptions)
    : requestSender :=
  mkSender destination keys 0 (MaxRetries o) (default [] (RetrySchedule o)) (RerouteRetries o) thrift.

(** How MakeCall sorts what happened; the responses of thrift calls are not
    looked into. *)
Definition classify (thrift : bool) (r : rawCall) : callOutcome :=
  match r with
  | BeginCallError | WriteArgsError => CallFailed
  | Response applicationError arg3 errMessage =>
      if negb thrift && applicationError then
        match errMessage with
        | Some msg => CallApplicationError msg
        | None => CallFailed
        end
      else CallReplied arg3
  | ContextDone => CallTimedOut
  end.

Definition MakeCall (thrift : bool) (destination : string) : FW callOutcome :=
  modify (λ f, mkForwarder (inflight f) (fw_listeners f) (fw_emitted f) (fw_called f ++ [destination])
                 (fw_slept f) (fw_env f) (fw_tick f));;
  r ← fwSample calls; mret (classify thrift r).

Definition sleep (d : Z) : FW unit :=
  modify (λ f, mkForwarder (inflight f) (fw_listeners f) (fw_emitted f) (fw_called f)
                 (fw_slept f ++ [d]) (fw_env f) (fw_tick f)).

(** LookupKeys: the distinct destinations; keys without one are skipped. *)
Fixpoint lookupAll (keys : list string) (destSet : gset string) : FW (gset string) :=
  match keys with
  | [] => mret destSet
  | key :: keys =>
      look ← fwSample lookups;
      lookupAll keys (match look key with Some dest => {[dest]} ∪ destSet | None => destSet end)
  end.

Definition LookupKeys (keys : list string) : FW (list string) :=
  destSet ← lookupAll keys ∅;
  c ← fwSample ranges;
  mret (arrange c (elements destSet)).

Definition divergedMessage : string := "key destinations have diverged".

Definition with_destination (d : string) (s : requestSender) : requestSender :=
  mkSender d (rs_keys s) (rs_retries s) (rs_maxRetries s) (rs_retrySchedule s) (rs_rerouteRetries s)
    (rs_thrift s).
Definition with_retries (r : Z) (s : requestSender) : requestSender :=
  mkSender (rs_destination s) (rs_keys s) r (rs_maxRetries s) (rs_retrySchedule s) (rs_rerouteRetries s)
    (rs_thrift s).

(** RerouteRetry, with the continuation Send. *)
Definition RerouteRetry (Send : requestSender → FW (string + forwardError)) (s : requestSender)
    (destination : string) : FW (string + forwardError) :=
  fwEmit (RerouteEvent (rs_destination s) destination);;
  Send (with_destination destination s).

Definition AttemptRetry (Send : requestSender → FW (string + forwardError)) (s : requestSender)
    : FW (string + forwardError) :=
  let s := with_retries (rs_retries s + 1) s in
  fwEmit RetryAttemptEvent;;
  dests ← LookupKeys (rs_keys s);
  match dests with
  | [newDest] =>
      if rs_rerouteRetries s && bool_decide (newDest ≠ rs_destination s)
      then RerouteRetry Send s newDest
      else Send s
  | _ => fwEmit (RetryAbortEvent divergedMessage);; mret (inr errDestinationsDiverged)
  end.

(** ScheduleRetry: indexing the schedule out of range panics. *)
Definition ScheduleRetry (Send : requestSender → FW (string + forwardError)) (s : requestSender)
    : FW (string + forwardError) :=
  if bool_decide (rs_retries s < 0) then panic
  else match rs_retrySchedule s !! Z.to_nat (rs_retries s) with
       | None => panic
       | Some d => sleep d;; AttemptRetry Send s
       end.

Fixpoint Send (fuel : nat) (s : requestSender) : FW (string + forwardError) :=
  match fuel with
  | O => panic
  | S fuel =>
      o ← MakeCall (rs_thrift s) (rs_destination s);
      match o with
      | CallApplicationError msg => mret (inr (errApplication msg))
      | CallReplied res =>
          when (bool_decide (0 < rs_retries s)) (fwEmit (RetrySuccessEvent (rs_retries s)));;
          mret (inl res)
      | CallFailed =>
          if bool_decide (rs_retries s < rs_maxRetries s) then ScheduleRetry (Send fuel) s
          else fwEmit (MaxRetriesEvent (rs_maxRetries s));; mret (inr errMaxRetries)
      | CallTimedOut => mret (inr errTimedOut)
      end
  end.

(** ** ForwardRequest *)
Definition ForwardRequest (fuel : nat) (destination : string) (keys : list string) (thrift : bool)
    (opts : option fwOptions) : FW (string + forwardError) :=
  fwEmit RequestForwardedEvent;;
  incrementInflight;;
  let opts := fwMergeDefaultOptions opts in
  r ← Send fuel (newRequestSender keys destination thrift opts);
  decrementInflight;;
  fwEmit (match r with inl _ => SuccessEvent | inr _ => FailedEvent end);;
  mret r.

(** The forwarded header of a request. *)
Definition forwardedHeaderName : string := "ringpop-forwarded".
Definition SetForwardedHeader (headers : gmap string string) : gmap string string :=
  if bool_decide (size headers = 0%nat) then {[forwardedHeaderName := "true"]}
  else <[forwardedHeaderName := "true"]> headers.
Definition HasForwardedHeader (headers : gmap string string) : bool :=
  bool_decide (is_Some (headers !! forwardedHeaderName)).
