(* ===== verification/ForwarderSpec.v ===== *)
(** * ForwarderSpec: forwarding is bounded *)
From S2P Require Import Prelude GoStd NodeState Util Forwarder.
#[local] Open Scope Z_scope.

(** ** Looking up the keys *)
Definition fw_quiet (f f' : Forwarder) : Prop :=
  inflight f' = inflight f ∧ fw_called f' = fw_called f ∧ fw_slept f' = fw_slept f ∧
  fw_env f' = fw_env f.

#[global] Instance fw_quiet_trans : Transitive fw_quiet.
Proof. intros x y z (? & ? & ? & ?) (? & ? & ? & ?). repeat split; congruence. Qed.

Lemma lookupAll_spec keys D f (Q : gset string → Forwarder → Prop) :
  (∀ D' f', fw_quiet f f' → Q D' f') → wp (lookupAll keys D) Q f.
Proof.
  revert D f. induction keys as [|k keys IH]; intros D f HQ; simpl; [by apply wp_ret, HQ|].
  apply wp_bind. unfold wp, fwSample. apply IH. intros D' f' Hf. apply HQ. etrans; [|exact Hf]. done.
Qed.

Lemma LookupKeys_spec keys f (Q : list string → Forwarder → Prop) :
  (∀ l f', fw_quiet f f' → Q l f') → wp (LookupKeys keys) Q f.
Proof.
  intros HQ. unfold LookupKeys. apply wp_bind, lookupAll_spec. intros D f' Hf. apply wp_bind.
  unfold wp, fwSample. apply HQ. etrans; [exact Hf|]. done.
Qed.

(** ** Sending *)

(** A pause is made before each further call, and before giving up because
    the destinations have diverged. *)
Definition pauses (dests : list string) (r : string + forwardError) : nat :=
  match r with inr errDestinationsDiverged => S (length dests) | _ => length dests end.

(** A run of Send from [s]: the destinations called, and the pauses made. *)
Record sent (s : requestSender) (r : string + forwardError) (f f' : Forwarder) : Prop := {
  sn_inflight : inflight f' = inflight f;
  sn_env : fw_env f' = fw_env f;
  sn_trace : ∃ dests, fw_called f' = fw_called f ++ rs_destination s :: dests ∧
    fw_slept f' = fw_slept f ++ take (pauses dests r) (drop (Z.to_nat (rs_retries s)) (rs_retrySchedule s)) ∧
    Z.of_nat (pauses dests r) ≤ Z.max 0 (rs_maxRetries s - rs_retries s) ∧
    (rs_rerouteRetries s = false → Forall (λ d, d = rs_destination s) dests) ∧
    (r = inr errMaxRetries → Z.of_nat (length dests) = Z.max 0 (rs_maxRetries s - rs_retries s))
}.

(** The run ends with the first call. *)
Lemma sent_end s r f f1 :
  inflight f1 = inflight f → fw_env f1 = fw_env f → fw_called f1 = fw_called f ++ [rs_destination s] →
  fw_slept f1 = fw_slept f → r ≠ inr errDestinationsDiverged →
  (r = inr errMaxRetries → rs_maxRetries s ≤ rs_retries s) → sent s r f f1.
Proof.
  intros H1 H2 H3 H4 Hr Hm. assert (pauses [] r = 0%nat) as Hp by (destruct r as [|[]]; done).
  split; [done|done|]. exists []. rewrite Hp. rewrite H3, H4, app_nil_r. simpl.
  split_and!; [done|done|lia|by constructor|]. intros H%Hm. lia.
Qed.

(** The run goes on with one more call, after a pause. *)
Lemma sent_more s d' r d f f1 f2 :
  rs_retrySchedule s !! Z.to_nat (rs_retries s) = Some d → 0 ≤ rs_retries s < rs_maxRetries s →
  inflight f1 = inflight f → fw_env f1 = fw_env f →
  fw_called f1 = fw_called f ++ [rs_destination s] → fw_slept f1 = fw_slept f ++ [d] →
  (rs_rerouteRetries s = false → d' = rs_destination s) →
  sent (with_destination d' (with_retries (rs_retries s + 1) s)) r f1 f2 → sent s r f f2.
Proof.
  intros Hd Hr H1 H2 H3 H4 Hsame [Hi He (ds & Hc & Hs & Hl & Hre & Hmax)]. simpl in *.
  split; [congruence|congruence|]. exists (d' :: ds). rewrite Hc, Hs, H3, H4, <-!(assoc_L (++)).
  replace (Z.to_nat (rs_retries s + 1)) with (S (Z.to_nat (rs_retries s))) by lia.
  assert (pauses (d' :: ds) r = S (pauses ds r)) as -> by (by destruct r as [|[]]).
  rewrite (drop_S (rs_retrySchedule s) d (Z.to_nat (rs_retries s))) by done. simpl.
  split_and!; [done|done|lia| |intros H%Hmax; lia].
  intros Hno. specialize (Hsame Hno). subst d'. constructor; [done|]. by apply Hre.
Qed.

Lemma sent_diverged s d f f1 :
  rs_retrySchedule s !! Z.to_nat (rs_retries s) = Some d → 0 ≤ rs_retries s < rs_maxRetries s →
  inflight f1 = inflight f → fw_env f1 = fw_env f →
  fw_called f1 = fw_called f ++ [rs_destination s] → fw_slept f1 = fw_slept f ++ [d] →
  sent s (inr errDestinationsDiverged) f f1.
Proof.
  intros Hd Hr H1 H2 H3 H4. split; [done|done|]. exists []. simpl.
  rewrite (drop_S (rs_retrySchedule s) d (Z.to_nat (rs_retries s))) by done. simpl.
  split_and!; [done|done|lia|by constructor|done].
Qed.

Lemma Send_spec fuel s f :
  0 ≤ rs_retries s → rs_maxRetries s ≤ Z.of_nat (length (rs_retrySchedule s)) →
  rs_maxRetries s - rs_retries s < Z.of_nat fuel → (0 < fuel)%nat →
  wp (Send fuel s) (λ r f', sent s r f f') f.
Proof.
  revert s f. induction fuel as [|fuel IH]; intros s f Hr Hlen Hfuel Hpos; [lia|]. simpl.
  apply wp_bind. unfold MakeCall. apply wp_bind, wp_modify, wp_bind. unfold wp at 1, fwSample. apply wp_ret.
  set (f1 := mkForwarder _ _ _ _ _ _ (S _)). destruct (classify _ _) as [res|msg| |].
  - apply wp_bind. unfold when. case_bool_decide; repeat first [apply wp_modify | apply wp_ret]; by apply sent_end.
  - by apply wp_ret, sent_end.
  - destruct (decide (rs_retries s < rs_maxRetries s)) as [Hlt|Hge].
    2: { rewrite bool_decide_false by done. apply wp_bind, wp_modify, wp_ret, sent_end; try done. intros _. lia. }
    rewrite bool_decide_true by done. unfold ScheduleRetry. rewrite bool_decide_false by lia.
    destruct (lookup_lt_is_Some_2 (rs_retrySchedule s) (Z.to_nat (rs_retries s))) as [d Hd]; [lia|].
    rewrite Hd. apply wp_bind, wp_modify. unfold AttemptRetry. apply wp_bind, wp_modify, wp_bind, LookupKeys_spec.
    set (s1 := with_retries _ s). intros dests f3 (Hq1 & Hq2 & Hq3 & Hq4).
    assert (∀ d' f4, fw_quiet f3 f4 → (rs_rerouteRetries s = false → d' = rs_destination s) →
      wp (Send fuel (with_destination d' s1)) (λ r f', sent s r f f') f4) as Hagain.
    { intros d' f4 (? & ? & ? & ?) Hsame. eapply wp_mono; [apply IH; simpl; lia|].
      intros r f'. apply (sent_more s d' r d f f4); simpl in *; [done|lia|congruence|congruence|congruence|congruence|done]. }
    destruct dests as [|nd [|? ?]]; try (apply wp_bind, wp_modify, wp_ret, (sent_diverged s d); by try lia).
    change (rs_rerouteRetries s1) with (rs_rerouteRetries s). change (rs_destination s1) with (rs_destination s).
    destruct (rs_rerouteRetries s) eqn:Hre; simpl; [case_bool_decide|].
    + by apply wp_bind, wp_modify, Hagain.
    + by apply (Hagain (rs_destination s)).
    + by apply (Hagain (rs_destination s)).
  - by apply wp_ret, sent_end.
Qed.

(** ** ForwardRequest *)
Lemma ForwardRequest_spec fuel dest keys thrift opts f :
  let o := fwMergeDefaultOptions opts in
  let s := newRequestSender keys dest thrift o in
  MaxRetries o ≤ Z.of_nat (length (default [] (RetrySchedule o))) → MaxRetries o < Z.of_nat fuel → (0 < fuel)%nat →
  0 ≤ inflight f →
  wp (ForwardRequest fuel dest keys thrift opts) (λ r f', sent s r f f') f.
Proof.
  intros o s Hlen Hfuel Hpos Hin. unfold ForwardRequest. fold o s.
  apply wp_bind, wp_modify, wp_bind. unfold incrementInflight.
  apply wp_bind, wp_gets, wp_bind, wp_modify, wp_modify. simpl. apply wp_bind.
  match goal with |- wp _ _ ?x => set (f1 := x) end.
  eapply wp_mono; [apply (Send_spec fuel s f1); simpl; (lia || done)|]. intros r f2 [Hi He Ht]. simpl in Hi, He.
  apply wp_bind. unfold decrementInflight.
  apply wp_bind, wp_gets, wp_bind, wp_modify, wp_bind. rewrite Hi, bool_decide_false by lia. apply wp_ret.
  apply wp_bind, wp_gets. simpl. rewrite bool_decide_true by lia. apply wp_modify, wp_bind, wp_modify, wp_ret.
  split; simpl; [lia|done|]. destruct Ht as (ds & Hc & Hs & Hrest). exists ds. by split.
Qed.

(** C26: a forwarded request ends after a bounded number of calls: if there are
    at least as many pauses as retries, [ForwardRequest] never panics and makes
    at most MaxRetries + 1 calls, the first to the given destination and, when
    rerouting is off, all of them; before each further call it pauses as the
    schedule says; it reports that retries are exhausted only after using all
    of them; and the number of requests in flight is as before. *)
Theorem ForwardRequest_bounded dest keys thrift opts f :
  let o := fwMergeDefaultOptions opts in
  let s := newRequestSender keys dest thrift o in
  MaxRetries o ≤ Z.of_nat (length (default [] (RetrySchedule o))) → 0 ≤ inflight f →
  ∃ r f', ForwardRequest (S (Z.to_nat (MaxRetries o))) dest keys thrift opts f = Some (r, f') ∧ sent s r f f'.
Proof.
  intros o s Hlen Hin. apply wp_run. apply ForwardRequest_spec; [done|fold o; lia|lia|done].
Qed.

(** ** A schedule that is too short *)

(** A world in which every call fails and every key belongs to [dest]. *)
Definition fails_to (dest : string) (e : fwEnv) : Prop :=
  (∀ k, classify true (calls e k) = CallFailed ∧ classify false (calls e k) = CallFailed) ∧
  (∀ k key, lookups e k key = Some dest).

Lemma lookupAll_same dest keys D f :
  (∀ k key, lookups (fw_env f) k key = Some dest) → D ⊆ {[dest]} →
  wp (lookupAll keys D) (λ D' f', fw_env f' = fw_env f ∧ D' ⊆ {[dest]} ∧ (D ≠ ∅ ∨ keys ≠ [] → D' ≠ ∅)) f.
Proof.
  intros Hl. revert D f Hl. induction keys as [|k keys IH]; intros D f Hl HD; simpl.
  { apply wp_ret. split_and!; [done|done|]. by intros [?|?]. }
  apply wp_bind. unfold wp at 1, fwSample. rewrite Hl. set (f1 := mkForwarder _ _ _ _ _ _ _).
  eapply wp_mono; [apply (IH ({[dest]} ∪ D) f1); [done|set_solver]|].
  intros D' f' (He & Hs & Hn). split_and!; [done|done|]. intros _. apply Hn. left. set_solver.
Qed.

Lemma LookupKeys_same dest keys f :
  (∀ k key, lookups (fw_env f) k key = Some dest) → keys ≠ [] →
  wp (LookupKeys keys) (λ l f', l = [dest] ∧ fw_env f' = fw_env f) f.
Proof.
  intros Hl Hk. unfold LookupKeys. apply wp_bind. eapply wp_mono; [by apply (lookupAll_same dest)|].
  intros D f' (He & Hs & Hn). apply wp_bind. unfold wp at 1, fwSample. apply wp_ret.
  assert (D = {[dest]}) as ->.
  { apply set_eq. intros x. split; [set_solver|]. intros ->%elem_of_singleton.
    destruct (set_choose_L D) as [y Hy]; [by apply Hn; right|]. assert (y = dest) by set_solver. by subst. }
  rewrite elements_singleton, arrange_one. done.
Qed.

Lemma Send_panics dest fuel s f :
  fails_to dest (fw_env f) → rs_keys s ≠ [] → rs_destination s = dest → 0 ≤ rs_retries s →
  rs_retries s ≤ Z.of_nat (length (rs_retrySchedule s)) < rs_maxRetries s → Send fuel s f = None.
Proof.
  revert s f. induction fuel as [|fuel IH]; intros s f [Hc Hl] Hk Hd Hr Hlen; [done|].
  simpl. unfold MakeCall, mbind, M_bind, modify, fwSample. simpl.
  assert (classify (rs_thrift s) (calls (fw_env f) (fw_tick f)) = CallFailed) as Hcl.
  { destruct (rs_thrift s); apply Hc. }
  unfold mret, M_ret. rewrite Hcl, bool_decide_true by lia. unfold ScheduleRetry. rewrite bool_decide_false by lia.
  destruct (rs_retrySchedule s !! Z.to_nat (rs_retries s)) as [d|] eqn:Hsch; [|done].
  apply lookup_lt_Some in Hsch. unfold AttemptRetry, sleep, modify, mbind, M_bind, fwEmit, modify. simpl.
  match goal with |- context [LookupKeys _ ?x] => set (f1 := x) end.
  destruct (wp_run _ _ _ (LookupKeys_same dest (rs_keys s) f1 Hl Hk)) as (l & f2 & -> & -> & He).
  rewrite (bool_decide_false (dest ≠ rs_destination s)) by (intros H; by apply H). rewrite andb_false_r.
  apply IH; simpl; [by rewrite He|done|done|lia|lia].
Qed.

(** A schedule shorter than the number of retries crashes the process: when
    every call fails and the keys stay with their destination, the retry after
    the last entry of the schedule indexes out of range, whatever the fuel.
    Raising MaxRetries above three without a schedule of one's own is enough. *)
Theorem short_schedule_panics fuel dest keys thrift opts f :
  let o := fwMergeDefaultOptions opts in
  fails_to dest (fw_env f) → keys ≠ [] → Z.of_nat (length (default [] (RetrySchedule o))) < MaxRetries o →
  ForwardRequest fuel dest keys thrift opts f = None.
Proof.
  intros o Hf Hk Hlen. unfold ForwardRequest, incrementInflight, setInflight, fwEmit, gets, modify, mbind, M_bind.
  cbn -[Send]. match goal with |- context [Send _ _ ?x] => set (f1 := x) end.
  rewrite (Send_panics dest); [done|done|done|done|done|]. simpl. fold o. lia.
Qed.

(** ** At concrete requests *)
Definition failEnv : fwEnv := mkFwEnv (λ _, BeginCallError) (λ _ _, Some "b") (λ _, []).

Lemma ForwardRequest_bounded_witness :
  ∃ r f', ForwardRequest (S (Z.to_nat (MaxRetries (fwMergeDefaultOptions None)))) "b" ["k"] true None
      (NewForwarder failEnv) = Some (r, f') ∧
    sent (newRequestSender ["k"] "b" true (fwMergeDefaultOptions None)) r (NewForwarder failEnv) f'.
Proof. apply (ForwardRequest_bounded "b" ["k"] true None (NewForwarder failEnv)); vm_compute; discriminate. Defined.

Definition fiveRetries : fwOptions := mkFwOptions 5 false None 0.

Lemma short_schedule_panics_witness :
  ForwardRequest 10 "b" ["k"] false (Some fiveRetries) (NewForwarder failEnv) = None.
Proof. apply (short_schedule_panics 10 "b" ["k"] false (Some fiveRetries)); [done|done|vm_compute; reflexivity]. Defined.
