(* ===== verification/Ringpop.v ===== *)
(** * Ringpop: the facade (ringpop.go, options.go, handlers.go, util.go)

    An instance owns a node, a ring and a forwarder and listens to all three.
    A listener is called synchronously by the three; here the events of one
    operation are handled in their order when the operation ends ([onNode],
    [onRing], [onForwarder]).  Handling an event changes the ring and the stats and
    never the node, so only the gauge of the member count, which reads the
    node, could tell the difference. *)
From Stdlib Require Import Ascii.
From S2P Require Import Prelude GoStd TreeIface HashRing Forwarder NodeState Util Memberlist Disseminator.
From S2P Require Import Suspicion Rollup Membership MemberIter Ping NodeCore JoinDelayer JoinSender.
#[local] Open Scope Z_scope.

(** ** Events and stats *)
Inductive rpEvent : Type :=
| SwimEv (e : swimEvent)
| RingEv (e : ringEvent)
| ForwardEv (e : forwardEvent)
| LookupEvent (Key : string) (Duration : Z).

Inductive stat : Type :=
| IncCounter (name : string) (value : Z)
| UpdateGauge (name : string) (value : Z)
| RecordTimer (name : string) (d : Z).

Inductive rpError : Type :=
| ErrNotBootstrapped
| ErrEphemeralIdentity
| ErrMissingChannel
| ErrNoDestination
| ErrSwim (e : swimError)
| ErrForward (e : forwardError)
| ErrClockRequired
| ErrStatPeriod
| ErrIdentity
| ErrLogLevels
| ErrOptions (errs : list string).

(** The type [state]. *)
Inductive rpState : Type := created | initialized | ready_ | destroyed_.
#[global] Instance rpState_eq_dec : EqDecision rpState.
Proof. solve_decision. Defined.

Inductive IdentityResolver : Type :=
| ResolverFunc (r : string + rpError)
| ChannelIdentity.

(** The instance registers itself under this number. *)
Definition me : nat := 0.

Section ringpop.
Context {T : Type} `{RingTree T}.

(** The channel is known by its host:port and whether that is ephemeral; a
    [None] is a nil pointer, map or channel. *)
Record Ringpop : Type := mkRingpop {
  rp_App : string;
  rp_StatPeriod : Z;
  rp_ReplicaPoints : Z;
  rp_channel : option (string * bool);
  rp_resolver : option IdentityResolver;
  rp_state : rpState;
  rp_node : option Node;
  rp_ring : option (HashRing T);
  rp_forwarder : option Forwarder;
  rp_listeners : list nat;
  rp_events : list (nat * rpEvent);
  rp_stats : list stat;
  rp_prefix : string;
  rp_keys : option (gmap string string);
  rp_tickers : option (list Z);
  rp_startTime : option Z;
  rp_world : Env;
  rp_fwWorld : fwEnv;
  rp_cursor : nat
}.

Abbreviation RP := (M Ringpop).
Abbreviation rpResult A := (A + rpError)%type.

Section setters.
Context (r : Ringpop).
Definition set_config app period points ch res := mkRingpop app period points ch res (rp_state r) (rp_node r)
  (rp_ring r) (rp_forwarder r) (rp_listeners r) (rp_events r) (rp_stats r) (rp_prefix r) (rp_keys r) (rp_tickers r) (rp_startTime r)
  (rp_world r) (rp_fwWorld r) (rp_cursor r).
Definition set_state x := mkRingpop (rp_App r) (rp_StatPeriod r) (rp_ReplicaPoints r) (rp_channel r) (rp_resolver r) x
  (rp_node r) (rp_ring r) (rp_forwarder r) (rp_listeners r) (rp_events r) (rp_stats r) (rp_prefix r) (rp_keys r) (rp_tickers r)
  (rp_startTime r) (rp_world r) (rp_fwWorld r) (rp_cursor r).
Definition set_node x := mkRingpop (rp_App r) (rp_StatPeriod r) (rp_ReplicaPoints r) (rp_channel r) (rp_resolver r)
  (rp_state r) x (rp_ring r) (rp_forwarder r) (rp_listeners r) (rp_events r) (rp_stats r) (rp_prefix r) (rp_keys r) (rp_tickers r)
  (rp_startTime r) (rp_world r) (rp_fwWorld r) (rp_cursor r).
Definition set_ring x := mkRingpop (rp_App r) (rp_StatPeriod r) (rp_ReplicaPoints r) (rp_channel r) (rp_resolver r)
  (rp_state r) (rp_node r) x (rp_forwarder r) (rp_listeners r) (rp_events r) (rp_stats r) (rp_prefix r) (rp_keys r) (rp_tickers r)
  (rp_startTime r) (rp_world r) (rp_fwWorld r) (rp_cursor r).
Definition set_listeners x := mkRingpop (rp_App r) (rp_StatPeriod r) (rp_ReplicaPoints r) (rp_channel r) (rp_resolver r)
  (rp_state r) (rp_node r) (rp_ring r) (rp_forwarder r) x (rp_events r) (rp_stats r) (rp_prefix r) (rp_keys r) (rp_tickers r)
  (rp_startTime r) (rp_world r) (rp_fwWorld r) (rp_cursor r).
Definition set_events x := mkRingpop (rp_App r) (rp_StatPeriod r) (rp_ReplicaPoints r) (rp_channel r) (rp_resolver r)
  (rp_state r) (rp_node r) (rp_ring r) (rp_forwarder r) (rp_listeners r) x (rp_stats r) (rp_prefix r) (rp_keys r) (rp_tickers r)
  (rp_startTime r) (rp_world r) (rp_fwWorld r) (rp_cursor r).
Definition set_stats x p k := mkRingpop (rp_App r) (rp_StatPeriod r) (rp_ReplicaPoints r) (rp_channel r) (rp_resolver r)
  (rp_state r) (rp_node r) (rp_ring r) (rp_forwarder r) (rp_listeners r) (rp_events r) x p k (rp_tickers r)
  (rp_startTime r) (rp_world r) (rp_fwWorld r) (rp_cursor r).
Definition set_tickers x := mkRingpop (rp_App r) (rp_StatPeriod r) (rp_ReplicaPoints r) (rp_channel r) (rp_resolver r)
  (rp_state r) (rp_node r) (rp_ring r) (rp_forwarder r) (rp_listeners r) (rp_events r) (rp_stats r) (rp_prefix r) (rp_keys r) x
  (rp_startTime r) (rp_world r) (rp_fwWorld r) (rp_cursor r).
Definition set_cursor x := mkRingpop (rp_App r) (rp_StatPeriod r) (rp_ReplicaPoints r) (rp_channel r) (rp_resolver r)
  (rp_state r) (rp_node r) (rp_ring r) (rp_forwarder r) (rp_listeners r) (rp_events r) (rp_stats r) (rp_prefix r) (rp_keys r)
  (rp_tickers r) (rp_startTime r) (rp_world r) (rp_fwWorld r) x.
Definition set_forwarder x := mkRingpop (rp_App r) (rp_StatPeriod r) (rp_ReplicaPoints r) (rp_channel r) (rp_resolver r)
  (rp_state r) (rp_node r) (rp_ring r) x (rp_listeners r) (rp_events r) (rp_stats r) (rp_prefix r) (rp_keys r)
  (rp_tickers r) (rp_startTime r) (rp_world r) (rp_fwWorld r) (rp_cursor r).
End setters.

(** Reading the world. *)
Definition rpSample {A} (stream : Env → nat → A) : RP A := λ r,
  Some (stream (rp_world r) (rp_cursor r), set_cursor r (S (rp_cursor r))).

(** ** options.go *)
Abbreviation Option_ := (Ringpop → rpResult Ringpop).

Fixpoint applyOptions (r : Ringpop) (opts : list Option_) : rpResult Ringpop :=
  match opts with
  | [] => inl r
  | option :: opts => match option r with inl r => applyOptions r opts | inr e => inr e end
  end.

Definition checkOptions (r : Ringpop) : list string :=
  (match rp_channel r with None => ["channel is required"] | Some _ => [] end) ++
  (match rp_resolver r with None => ["identity resolver is nil"] | Some _ => [] end).

(** Clock, Logger and Statter only install what the world provides here. *)
Definition Clock (present : bool) : Option_ := λ r, if present then inl r else inr ErrClockRequired.
Definition Channel (ch : option (string * bool)) : Option_ := λ r,
  inl (set_config r (rp_App r) (rp_StatPeriod r) (rp_ReplicaPoints r) ch (rp_resolver r)).
Definition HashRingConfig (points : Z) : Option_ := λ r,
  inl (set_config r (rp_App r) (rp_StatPeriod r) points (rp_channel r) (rp_resolver r)).
Definition Logger : Option_ := λ r, inl r.
Definition LogLevels (accepted : bool) : Option_ := λ r, if accepted then inl r else inr ErrLogLevels.
Definition Statter : Option_ := λ r, inl r.
Definition IdentityResolverFunc (res : option IdentityResolver) : Option_ := λ r,
  inl (set_config r (rp_App r) (rp_StatPeriod r) (rp_ReplicaPoints r) (rp_channel r) res).
Definition Identity (hostport : string) : Option_ := IdentityResolverFunc (Some (ResolverFunc (inl hostport))).

Definition RingChecksumStatPeriodNever : Z := -1.
Definition RingChecksumStatPeriodDefault : Z := 5 * 1000000000.
Definition RingChecksumStatPeriod (period : Z) : Option_ := λ r,
  if bool_decide (period ≤ 0) then
    inl (set_config r (rp_App r) RingChecksumStatPeriodNever (rp_ReplicaPoints r) (rp_channel r) (rp_resolver r))
  else if bool_decide (period < 10 * 1000000) then inr ErrStatPeriod
  else inl (set_config r (rp_App r) period (rp_ReplicaPoints r) (rp_channel r) (rp_resolver r)).

Definition rpDefaultOptions : list Option_ :=
  [Clock true; IdentityResolverFunc (Some ChannelIdentity); LogLevels true; Statter;
   RingChecksumStatPeriod RingChecksumStatPeriodDefault; HashRingConfig 100].

(** New; a failing default option panics ([None]). *)
Definition New (app : string) (opts : list Option_) (e : Env) (fe : fwEnv) : option (rpResult Ringpop) :=
  let ringpop := mkRingpop app 0 0 None None created None None None [] [] [] "" None None None e fe 0 in
  match applyOptions ringpop rpDefaultOptions with
  | inr _ => None
  | inl ringpop =>
      match applyOptions ringpop opts with
      | inr err => Some (inr err)
      | inl ringpop =>
          match checkOptions ringpop with
          | [] => Some (inl (set_state ringpop created))
          | errs => Some (inr (ErrOptions errs))
          end
      end
  end.

(** ** State and identity *)
Definition getState : RP rpState := gets rp_state.
Definition setState (s : rpState) : RP unit := modify (λ r, set_state r s).

(** identity; channelIdentityResolver dereferences the channel. *)
Definition identity : RP (rpResult string) :=
  r ← gets id;
  match rp_resolver r with
  | None => panic
  | Some (ResolverFunc res) => mret res
  | Some ChannelIdentity =>
      match rp_channel r with
      | None => panic
      | Some (hostport, ephemeral) =>
          mret (if (ephemeral : bool) then inr ErrEphemeralIdentity else inl hostport)
      end
  end.

(** Run a read-only operation of the node. *)
Definition readNode {A} (m : SW A) : RP A := λ r,
  match rp_node r with
  | None => None
  | Some n => match m n with Some (a, n) => Some (a, set_node r (Some n)) | None => None end
  end.

Definition Ready : RP bool :=
  s ← getState;
  if bool_decide (s ≠ ready_) then mret false else readNode NodeState.Ready.

Definition WhoAmI : RP (rpResult string) :=
  b ← Ready;
  if negb b then mret (inr ErrNotBootstrapped) else identity.

(** Uptime: now.Sub saturates when the start time is Go's zero time. *)
Definition Uptime : RP (rpResult Z) :=
  b ← Ready;
  if negb b then mret (inr ErrNotBootstrapped)
  else t ← rpSample times; start ← gets rp_startTime; mret (inl (since t start)).

Definition rpEmit (e : rpEvent) : RP unit :=
  modify (λ r, set_events r (rp_events r ++ ((λ l, (l, e)) <$> rp_listeners r))).
Definition RegisterListener (l : nat) : RP unit :=
  modify (λ r, set_listeners r (rp_listeners r ++ [l])).

(** ** Stats *)

(** getStatKey caches the names; writing into the nil map panics. *)
Definition getStatKey (key : string) : RP string :=
  r ← gets id;
  match rp_keys r ≫= lookup key with
  | Some rpKey => mret rpKey
  | None =>
      let rpKey := rp_prefix r +:+ "." +:+ key in
      match rp_keys r with
      | None => panic
      | Some keys => modify (λ r, set_stats r (rp_stats r) (rp_prefix r) (Some (<[key := rpKey]> keys)));; mret rpKey
      end
  end.

Definition report (s : stat) : RP unit :=
  modify (λ r, set_stats r (rp_stats r ++ [s]) (rp_prefix r) (rp_keys r)).
Definition incCounter (key : string) (v : Z) : RP unit := k ← getStatKey key; report (IncCounter k v).
Definition updateGauge (key : string) (v : Z) : RP unit := k ← getStatKey key; report (UpdateGauge k v).
Definition recordTimer (key : string) (d : Z) : RP unit := k ← getStatKey key; report (RecordTimer k d).

Definition statusName (status : string) : string :=
  if bool_decide (String.length status = 0%nat) then "unknown" else status.

Definition CountReachableMembers : RP (rpResult Z) :=
  b ← Ready;
  if negb b then mret (inr ErrNotBootstrapped)
  else c ← readNode Memberlist.CountReachableMembers; mret (inl c).
Definition GetReachableMembers : RP (rpResult (list string)) :=
  b ← Ready;
  if negb b then mret (inr ErrNotBootstrapped)
  else l ← readNode Memberlist.GetReachableMembers; mret (inl l).

(** ** HandleEvent *)
Definition swimStats (e : swimEvent) : RP unit :=
  match e with
  | MemberlistChangesReceivedEvent cs =>
      for_each cs (λ c, incCounter ("membership-update." +:+ statusName (c_Status c)) 1)
  | FullSyncEvent _ _ => incCounter "full-sync" 1
  | MaxPAdjustedEvent _ new => updateGauge "max-piggyback" new
  | JoinReceiveEvent _ _ => incCounter "join.recv" 1
  | JoinCompleteEvent d _ _ =>
      incCounter "join.complete" 1;; incCounter "join.succeeded" 1;; recordTimer "join" d
  | PingSendEvent _ _ _ => incCounter "ping.send" 1
  | PingSendCompleteEvent _ _ _ d => recordTimer "ping" d
  | PingReceiveEvent _ _ _ => incCounter "ping.recv" 1
  | PingRequestsSendEvent _ _ peers =>
      incCounter "ping-req.send" 1;; incCounter "ping-req.other-members" (Z.of_nat (length peers))
  | PingRequestsSendCompleteEvent _ _ _ _ d => recordTimer "ping-req" d
  | PingRequestReceiveEvent _ _ _ _ => incCounter "ping-req.recv" 1
  | PingRequestPingEvent _ _ _ d => recordTimer "ping-req-ping" d
  | ProtocolDelayComputeEvent d => recordTimer "protocol.delay" d
  | ProtocolFrequencyEvent d => recordTimer "protocol.frequency" d
  | ChecksumComputeEvent d ck =>
      recordTimer "compute-checksum" d;; updateGauge "checksum" ck;; incCounter "membership.checksum-computed" 1
  | ChangesCalculatedEvent cs => updateGauge "changes.disseminate" (Z.of_nat (length cs))
  | ChangeFilteredEvent _ => incCounter "filtered-change" 1
  | JoinFailedEvent reason _ => incCounter ("join.failed." +:+ reason) 1
  | JoinTriesUpdateEvent retries => updateGauge "join.retries" retries
  | MakeNodeStatusEvent status => incCounter ("make-" +:+ status) 1
  | RequestBeforeReadyEvent endpoint => incCounter ("not-ready." +:+ endpoint) 1
  | RefuteUpdateEvent => incCounter "refuted-update" 1
  | MemberlistChangesAppliedEvent _ _ _ _ | PingRequestSendErrorEvent _ _ _ _ => mret tt
  end.

Definition ringStats (e : ringEvent) : RP unit :=
  match e with
  | RingChecksumEvent _ new =>
      incCounter "ring.checksum-computed" 1;; updateGauge "ring.checksum" new
  | RingChangedEvent added removed =>
      incCounter "ring.server-added" (Z.of_nat (length added));;
      incCounter "ring.server-removed" (Z.of_nat (length removed));;
      incCounter "ring.changed" 1
  end.

Definition forwardStats (e : forwardEvent) : RP unit :=
  match e with
  | RequestForwardedEvent => incCounter "requestProxy.egress" 1
  | InflightRequestsChangedEvent i => updateGauge "requestProxy.inflight" i
  | InflightRequestsMiscountEvent op => incCounter ("requestProxy.miscount." +:+ op) 1
  | FailedEvent => incCounter "requestProxy.send.error" 1
  | SuccessEvent => incCounter "requestProxy.send.success" 1
  | MaxRetriesEvent _ => incCounter "requestProxy.retry.failed" 1
  | RetryAttemptEvent => incCounter "requestProxy.retry.attempted" 1
  | RetryAbortEvent _ => incCounter "requestProxy.retry.aborted" 1
  | RerouteEvent _ newDest =>
      who ← WhoAmI;
      let me := match who with inl s => s | inr _ => "" end in
      if bool_decide (newDest = me) then incCounter "requestProxy.retry.reroute.local" 1
      else incCounter "requestProxy.retry.reroute.remote" 1
  | RetrySuccessEvent _ => incCounter "requestProxy.retry.succeeded" 1
  end.

(** An operation of the ring; its events come back to [HandleEvent]. *)
Definition handleRingEvent (e : ringEvent) : RP unit := rpEmit (RingEv e);; ringStats e.

Definition onRing {A} (m : M (HashRing T) A) : RP A := λ r,
  match rp_ring r with
  | None => None
  | Some ring =>
      match m ring with
      | None => None
      | Some (a, ring') =>
          let new := drop (length (HashRing.emitted ring)) (HashRing.emitted ring') in
          (for_each (snd <$> filter (λ x, x.1 = me) new) handleRingEvent;; mret a) (set_ring r (Some ring'))
      end
  end.

(** handleChanges: suspects neither join nor leave the ring. *)
Definition serversToAdd (cs : list Change) : list string :=
  c_Address <$> filter (λ c, c_Status c = Alive) cs.
Definition serversToRemove (cs : list Change) : list string :=
  c_Address <$> filter (λ c, c_Status c = Faulty ∨ c_Status c = Leave) cs.

Definition handleChanges (cs : list Change) : RP bool :=
  fp ← gets (λ r, fingerprint32 (rp_world r));
  c ← rpSample orders;
  onRing (AddRemoveServers fp fp c (serversToAdd cs) (serversToRemove cs)).

Definition changesApplied (cs : list Change) : RP unit :=
  updateGauge "changes.apply" (Z.of_nat (length cs));;
  handleChanges cs;;
  for_each cs (λ c, incCounter ("membership-set." +:+ statusName (c_Status c)) 1);;
  mc ← CountReachableMembers;
  (match mc with inr _ => mret tt | inl mc => updateGauge "num-members" mc end);;
  incCounter "updates" (Z.of_nat (length cs)).

Definition HandleEvent (e : rpEvent) : RP unit :=
  rpEmit e;;
  match e with
  | SwimEv (MemberlistChangesAppliedEvent cs _ _ _) => changesApplied cs
  | SwimEv e => swimStats e
  | RingEv e => ringStats e
  | ForwardEv e => forwardStats e
  | LookupEvent _ d => recordTimer "lookup" d
  end.

(** An operation of the node; its events are handled in order. *)
Definition onNode {A} (m : SW A) : RP A := λ r,
  match rp_node r with
  | None => None
  | Some n =>
      match m n with
      | None => None
      | Some (a, n') =>
          let new := drop (length (NodeState.emitted n)) (NodeState.emitted n') in
          (for_each (snd <$> filter (λ x, x.1 = me) new) (λ e, HandleEvent (SwimEv e));; mret a)
            (set_node r (Some n'))
      end
  end.

(** An operation of the forwarder; its events are handled in order. *)
Definition onForwarder {A} (m : FW A) : RP A := λ r,
  match rp_forwarder r with
  | None => None
  | Some f =>
      match m f with
      | None => None
      | Some (a, f') =>
          let new := drop (length (fw_emitted f)) (fw_emitted f') in
          (for_each (snd <$> filter (λ x, x.1 = me) new) (λ e, HandleEvent (ForwardEv e));; mret a)
            (set_forwarder r (Some f'))
      end
  end.

(** ** Life cycle *)
Definition genStatsHostport (hostport : string) : string :=
  unchars ((λ c, if bool_decide (c = "."%char ∨ c = ":"%char) then "_"%char else c) <$> chars hostport).

Definition startTimers : RP unit :=
  r ← gets id;
  match rp_tickers r with
  | Some _ => mret tt
  | None =>
      modify (λ r, set_tickers r (Some (if bool_decide (rp_StatPeriod r ≠ RingChecksumStatPeriodNever)
                                        then [rp_StatPeriod r] else [])))
  end.
Definition stopTimers : RP unit := modify (λ r, set_tickers r None).

(** swim.NewNode, hashring.New and forward.NewForwarder with the instance as
    their listener. *)
Definition newNode (app address : string) (e : Env) : Node :=
  with_listeners (NewNode app address true (Some (mkOptions 0 0 0 0 0 0 0 0)) e) [me].
Definition newRing (points : Z) : HashRing T :=
  mkRing points ∅ tree_new 0 [me] [].

Definition newForwarder (e : fwEnv) : Forwarder := mkForwarder 0 [me] [] [] [] e 0.

Definition init : RP (option rpError) :=
  ch ← gets rp_channel;
  match ch with
  | None => mret (Some ErrMissingChannel)
  | Some _ =>
      addr ← identity;
      match addr with
      | inr e => mret (Some e)
      | inl address =>
          modify (λ r, set_node r (Some (newNode (rp_App r) address (rp_world r))));;
          modify (λ r, set_ring r (Some (newRing (rp_ReplicaPoints r))));;
          modify (λ r, set_stats r (rp_stats r) ("ringpop." +:+ genStatsHostport address) (Some ∅));;
          modify (λ r, set_forwarder r (Some (newForwarder (rp_fwWorld r))));;
          startTimers;;
          setState initialized;;
          mret None
      end
  end.

Definition Destroy : RP unit :=
  n ← gets rp_node;
  (match n with Some _ => onNode NodeCore.Destroy | None => mret tt end);;
  stopTimers;;
  setState destroyed_.

Definition destroyed : RP bool := s ← getState; mret (bool_decide (s = destroyed_)).

(** The hosts given to the node: without a file, the instance itself is one. *)
Definition withIdentity (opts : BootstrapOptions) (identity : string) : BootstrapOptions :=
  if bool_decide (String.length (bo_File opts) = 0%nat) && negb (StringInSlice (bo_Hosts opts) identity) then
    mkBootstrapOptions (bo_DiscoverProvider opts) (bo_Hosts opts ++ [identity]) (bo_File opts) (bo_Stopped opts)
      (bo_JoinTimeout opts) (bo_JoinSize opts) (bo_MaxJoinDuration opts) (bo_ParallelismFactor opts)
  else opts.

(** Bootstrap; the options are dereferenced. *)
Definition Bootstrap (file : string → Ping.result (list string)) (fuel : nat)
    (userBootstrapOpts : option BootstrapOptions) : RP (rpResult (list string)) :=
  s ← getState;
  err ← (if bool_decide (s = created) then init else mret None);
  match err with
  | Some e => mret (inr e)
  | None =>
      who ← identity;
      match who with
      | inr e => mret (inr e)
      | inl who =>
          match userBootstrapOpts with
          | None => panic
          | Some opts =>
              '(joined, err) ← onNode (JoinSender.Bootstrap file fuel (Some (withIdentity opts who)));
              match err with
              | Some e => setState initialized;; mret (inr (ErrSwim e))
              | None => setState ready_;; mret (inl joined)
              end
          end
      end
  end.

(** ** The ring *)
Definition Checksum : RP (rpResult Z) :=
  b ← Ready;
  if negb b then mret (inr ErrNotBootstrapped)
  else ck ← onRing HashRing.Checksum; mret (inl ck).

Definition Lookup (key : string) : RP (rpResult string) :=
  b ← Ready;
  if negb b then mret (inr ErrNotBootstrapped)
  else
    startTime ← rpSample times;
    fp ← gets (λ r, fingerprint32 (rp_world r));
    c ← rpSample orders;
    '(dest, success) ← onRing (HashRing.Lookup fp c key);
    endTime ← rpSample times;
    rpEmit (LookupEvent key (endTime - startTime));;
    mret (if negb success then inr ErrNoDestination else inl dest).

Definition LookupN (key : string) (n : Z) : RP (rpResult (list string)) :=
  b ← Ready;
  if negb b then mret (inr ErrNotBootstrapped)
  else
    fp ← gets (λ r, fingerprint32 (rp_world r));
    c ← rpSample orders;
    l ← onRing (HashRing.LookupN fp c key n);
    mret (inl l).

(** ** Forwarding *)
Definition fwResult (r : string + forwardError) : rpResult string :=
  match r with inl res => inl res | inr e => inr (ErrForward e) end.

Definition Forward (fuel : nat) (dest : string) (keys : list string) (thrift : bool) (opts : option fwOptions)
    : RP (rpResult string) :=
  r ← onForwarder (ForwardRequest fuel dest keys thrift opts); mret (fwResult r).

(** True: handle here; otherwise the forwarded response. *)
Definition HandleOrForward (fuel : nat) (key : string) (thrift : bool) (opts : option fwOptions)
    : RP (bool * rpResult string) :=
  b ← Ready;
  if negb b then mret (false, inr ErrNotBootstrapped)
  else
    dest ← Lookup key;
    match dest with
    | inr e => mret (false, inr e)
    | inl dest =>
        who ← WhoAmI;
        match who with
        | inr e => mret (false, inr e)
        | inl who =>
            if bool_decide (dest = who) then mret (true, inl "")
            else r ← Forward fuel dest [key] thrift opts; mret (false, r)
        end
    end.

(** ** handlers.go *)
Definition health : RP unit := mret tt.
Definition adminLookupHandler (key : string) : RP (rpResult string) := Lookup key.
End ringpop.

Arguments Ringpop : clear implicits.
