(* ===== verification/Stats.v ===== *)
(** * Stats: the statistics a node and an instance report

    swim/stats.go (ProtocolStats, Uptime), stats_handler.go and the stats and
    reload handlers of handlers.go.  Floating-point numbers are of a type [F]
    with the division, the variance and the square root as parameters; the
    memory statistics, the process id and the rates of the meters come from the
    runtime. *)
From S2P Require Import Prelude GoStd TreeIface HashRing HashRingSpec Forwarder NodeState Util Memberlist Disseminator.
From S2P Require Import Suspicion Rollup Membership MembershipSpec MemberIter Ping NodeCore SwimProps JoinDelayer.
From S2P Require Import JoinSender Ringpop Metrics.
#[local] Open Scope Z_scope.

Section stats.
Context {F : Type} (fdiv : Z → Z → F) (fvariance : list Z → F) (fsqrt : F → F).
(** The generator behind the sample of gossip's timing. *)
Context (rs : nat → nat).
Context {T : Type} `{RingTree T}.

(** ** swim/stats.go *)
Record Timing : Type := mkTiming {
  tm_Type : string;
  tm_Min : Z;
  tm_Max : Z;
  tm_Sum : Z;
  tm_Variance : F;
  tm_Mean : F;
  tm_StdDev : F;
  tm_Count : Z;
  tm_Median : F;
  tm_P75 : F;
  tm_P95 : F;
  tm_P99 : F;
  tm_P999 : F
}.

Record ProtocolStats : Type := mkProtocolStats {
  pt_Timing : Timing;
  pt_Rate : Z;
  pt_ClientRate : F;
  pt_ServerRate : F;
  pt_TotalRate : F
}.

Definition SampleMean (values : list Z) : F :=
  if bool_decide (length values = 0%nat) then fdiv 0 1 else fdiv (SampleSum values) (Z.of_nat (length values)).

(** The histogram's percentile as a float. *)
Definition floatPercentile (p : Z) (s : UniformSample) : option (F * UniformSample) :=
  '(score, s) ← Percentile p s; Some (fdiv score 1000, s).

(** The fields are read one after the other from the same histogram. *)
Definition timingOf (s : UniformSample) : option Timing :=
  let v := us_values s in
  '(median, s1) ← floatPercentile 500 s;
  '(p75, s2) ← floatPercentile 750 s1;
  '(p95, s3) ← floatPercentile 950 s2;
  '(p99, s4) ← floatPercentile 990 s3;
  '(p999, s5) ← floatPercentile 999 s4;
  Some (mkTiming "histogram" (SampleMin v) (SampleMax v) (SampleSum v) (fvariance v) (SampleMean v)
          (fsqrt (fvariance v)) (us_count s) median p75 p95 p99 p999).

(** [rates] are the one-minute rates of the client, server and total meters. *)
Definition ProtocolStatsOf (rates : F * F * F) : SW ProtocolStats :=
  samples ← gets (λ n, timing (n_gossip n));
  match feed rs 0 samples (NewUniformSample 10) ≫= timingOf with
  | None => panic
  | Some t =>
      rate ← ProtocolRate;
      mret (mkProtocolStats t rate rates.1.1 rates.1.2 rates.2)
  end.

Definition NodeUptime : SW Z := t ← now; start ← gets startTime; mret (t - start).

(** ** stats_handler.go *)
Record memStats : Type := mkMemStats { rss : Z; heapTotal : Z; heapUsed : Z }.

Record statsReply : Type := mkStats {
  st_membership : Z * list Member;
  st_memory : memStats;
  st_pid : Z;
  st_protocol : ProtocolStats;
  st_servers : list string;
  st_ringChecksum : Z;
  st_version : string;
  st_timestamp : Z;
  st_uptime : Z;
  st_tchannelVersion : string
}.

(** [mem], [pid], [rates] and [tchannel] are what the runtime, the meters and
    TChannel report; an uptime that is not available is zero. *)
Definition handleStats (mem : memStats) (pid : Z) (rates : F * F * F) (tchannel : string)
    : M (Ringpop T) statsReply :=
  c ← rpSample orders;
  servers ← onRing (HashRing.Servers c);
  uptime ← Uptime;
  membership ← readNode MemberStats;
  protocol ← readNode (ProtocolStatsOf rates);
  checksum ← onRing HashRing.Checksum;
  t ← rpSample times;
  mret (mkStats membership mem pid protocol servers checksum "???" (t / 1000000000)
          (match uptime with inl u => u | inr _ => 0 end) tchannel).

(** ** handlers.go *)
Definition adminStatsHandler := handleStats.
Definition adminReloadHandler : M (Ringpop T) unit := mret tt.

(** ** Every field can be computed *)
Lemma floatPercentile_total p s :
  0 ≤ p ≤ 1000 → ∃ x s', floatPercentile p s = Some (x, s') ∧ us_values s' ≡ₚ us_values s ∧ us_count s' = us_count s.
Proof using.
  intros Hp. unfold floatPercentile, Percentile. destruct (decide (us_values s = [])) as [Hnil|Hne].
  - rewrite Hnil. simpl. eexists _, _. split; [done|]. done.
  - set (lo := foldr Z.min 0 (us_values s)). set (hi := foldr Z.max 0 (us_values s)).
    assert (∀ x, x ∈ us_values s → lo ≤ x ≤ hi) as Hb.
    { unfold lo, hi. clear. induction (us_values s) as [|y l IH]; [set_solver|]. intros x [->|Hx]%elem_of_cons; simpl; [lia|].
      apply IH in Hx. lia. }
    destruct (SamplePercentile_spec (us_values s) p lo hi Hp Hne Hb) as (score & v & -> & Hv & _). simpl.
    eexists _, _. split; [done|]. done.
Qed.

Lemma timingOf_total s : ∃ t, timingOf s = Some t ∧ tm_Count t = us_count s.
Proof using.
  unfold timingOf. destruct (floatPercentile_total 500 s) as (a & s1 & -> & _); [lia|]. simpl.
  destruct (floatPercentile_total 750 s1) as (b & s2 & -> & _); [lia|]. simpl.
  destruct (floatPercentile_total 950 s2) as (c & s3 & -> & _); [lia|]. simpl.
  destruct (floatPercentile_total 990 s3) as (d & s4 & -> & _); [lia|]. simpl.
  destruct (floatPercentile_total 999 s4) as (e & s5 & -> & _); [lia|]. simpl. eexists. split; [done|]. done.
Qed.

Lemma ProtocolStatsOf_spec rates n (Q : ProtocolStats → Node → Prop) :
  (∀ p, pt_Rate p = lastRate (n_gossip n) → tm_Count (pt_Timing p) = Z.of_nat (length (timing (n_gossip n))) → Q p n) →
  wp (ProtocolStatsOf rates) Q n.
Proof using.
  intros HQ. unfold ProtocolStatsOf. apply wp_bind, wp_gets.
  destruct (feed_spec rs 0 (timing (n_gossip n)) (NewUniformSample 10)) as (s & -> & Hc & _); [simpl; lia|simpl; lia|].
  simpl. destruct (timingOf_total s) as (t & -> & Ht). apply wp_bind, wp_gets, wp_ret. apply HQ; [done|].
  simpl in *. lia.
Qed.

Lemma MemberStats_spec n (Q : Z * list Member → Node → Prop) :
  ml_wf n →
  (∀ ms, entry <$> ms ≡ₚ map_to_list (view n) → Sorted member_le ms → Q (ml_checksum (n_memberlist n), ms) n) →
  wp MemberStats Q n.
Proof using.
  intros Hwf HQ. unfold MemberStats. apply wp_bind, GetMembers_spec; [done|]. intros ms Hms.
  apply wp_bind, wp_gets, wp_ret. apply HQ.
  - by rewrite merge_sort_Permutation.
  - apply Sorted_merge_sort. intros x y. unfold member_le. apply total, _.
Qed.

Lemma wp_readNode {A} (m : SW A) (Q : A → Ringpop T → Prop) r n :
  rp_node r = Some n → wp m (λ a n', Q a (set_node r (Some n'))) n → wp (readNode m) Q r.
Proof using.
  intros Hn Hm. unfold wp, readNode in *. rewrite Hn. destruct (m n) as [[a n']|]; done.
Qed.

(** Reading the ring raises no event. *)
Lemma wp_readRing {A} (f : HashRing T → A) (Q : A → Ringpop T → Prop) r ring :
  rp_ring r = Some ring → Q (f ring) (set_ring r (Some ring)) → wp (onRing (gets f)) Q r.
Proof using.
  intros Hr HQ. unfold wp, onRing, gets. rewrite Hr, drop_all. simpl. exact HQ.
Qed.

(** Nothing but the cursors moved. *)
Record only_read (r r' : Ringpop T) : Prop := {
  or_node : rp_node r' = rp_node r;
  or_ring : rp_ring r' = rp_ring r;
  or_state : rp_state r' = rp_state r;
  or_stats : rp_stats r' = rp_stats r;
  or_events : rp_events r' = rp_events r
}.

#[local] Instance only_read_trans : Transitive only_read.
Proof using. intros x y z [] []. split; congruence. Qed.

Lemma wp_rpSample {A} (stream : Env → nat → A) (Q : A → Ringpop T → Prop) r :
  Q (stream (rp_world r) (rp_cursor r)) (set_cursor r (S (rp_cursor r))) → wp (rpSample stream) Q r.
Proof using. done. Qed.

Lemma Uptime_reads r n : rp_node r = Some n → wp Uptime (λ _, only_read r) r.
Proof using.
  intros Hn. unfold Uptime, Ready. apply wp_bind, wp_bind, wp_gets.
  assert (∀ b r1, only_read r r1 → wp (if negb b then mret (inr ErrNotBootstrapped)
    else t ← rpSample times; start ← gets rp_startTime; mret (inl (since t start))) (λ _, only_read r) r1) as Hend.
  { intros [] r1 Hr1; simpl; [|by apply wp_ret]. apply wp_bind, wp_rpSample, wp_bind, wp_gets, wp_ret.
    trans r1; done. }
  case_bool_decide; [apply wp_ret; by apply Hend|]. eapply wp_readNode; [done|]. apply wp_gets, Hend.
  by split; simpl.
Qed.

(** The stats of an initialised instance: the handler never panics, changes
    neither the node nor the ring nor the counters, and reports every member of
    the node's view exactly once, sorted by address, with the membership
    checksum; exactly the servers of the ring, with the ring checksum; and the
    protocol rate in force with the number of periods measured. *)
Theorem handleStats_reports mem pid rates tchannel r n ring :
  rp_node r = Some n → rp_ring r = Some ring → node_inv n →
  ∃ s r', handleStats mem pid rates tchannel r = Some (s, r') ∧ only_read r r' ∧
    entry <$> (st_membership s).2 ≡ₚ map_to_list (view n) ∧ Sorted member_le (st_membership s).2 ∧
    (st_membership s).1 = ml_checksum (n_memberlist n) ∧
    st_servers s ≡ₚ elements (serverSet ring) ∧ st_ringChecksum s = checksum ring ∧
    pt_Rate (st_protocol s) = lastRate (n_gossip n) ∧
    tm_Count (pt_Timing (st_protocol s)) = Z.of_nat (length (timing (n_gossip n))).
Proof using.
  intros Hn Hr [Hwf _]. apply wp_run. unfold handleStats.
  apply wp_bind, wp_rpSample, wp_bind. set (r1 := set_cursor _ _).
  eapply (wp_readRing _ _ r1); [exact Hr|]. apply wp_bind. set (r2 := set_ring _ _).
  assert (only_read r r2) as H2 by (by split; simpl).
  eapply wp_mono; [apply (Uptime_reads r2 n); exact Hn|]. intros u r3 H3. assert (only_read r r3) as H03 by (by trans r2).
  assert (rp_node r3 = Some n) as Hn3 by (by rewrite (or_node _ _ H03)).
  assert (rp_ring r3 = Some ring) as Hr3 by (by rewrite (or_ring _ _ H03)).
  apply wp_bind. eapply wp_readNode; [exact Hn3|]. apply MemberStats_spec; [done|]. intros ms Hms Hsorted.
  apply wp_bind. eapply wp_readNode; [done|]. apply ProtocolStatsOf_spec. intros p Hrate Hcount.
  apply wp_bind. eapply wp_readRing; [exact Hr3|]. apply wp_bind, wp_rpSample, wp_ret.
  split_and!; try done.
  - destruct H03. split; simpl; congruence.
  - simpl. apply arrange_perm.
Qed.
End stats.
