(* ===== verification/RingpopProps.v ===== *)
(** * RingpopProps: the ring follows the membership

    The node announces the changes it applies, the instance puts them on the
    ring.  The file shows which relation between membership and ring this
    keeps, where it falls short, and how an instance moves through its states. *)
From S2P Require Import Prelude GoStd TreeIface HashRing HashRingSpec Forwarder NodeState Util UtilSpec.
From S2P Require Import Memberlist Disseminator Suspicion Rollup Membership MembershipSpec UpdateSpec.
From S2P Require Import SwimOrder MemberIter Ping NodeCore SwimProps DisseminatorSpec SyncProps Samples.
From S2P Require Import JoinDelayer JoinSender JoinProps Ringpop.
#[local] Open Scope Z_scope.

(** ** Which changes a node announces *)
Definition applied_of (l : list (nat * swimEvent)) : list (nat * list Change) :=
  omap (λ x, match x.2 with MemberlistChangesAppliedEvent cs _ _ _ => Some (x.1, cs) | _ => None end) l.

(** Between [n] and [n'] exactly the batches [L] were announced. *)
Definition emits (n n' : Node) (L : list (nat * list Change)) : Prop :=
  NodeState.listeners n' = NodeState.listeners n ∧
  ∃ new, NodeState.emitted n' = NodeState.emitted n ++ new ∧ applied_of new = L.

Lemma emits_trans n1 n2 n3 L1 L2 : emits n1 n2 L1 → emits n2 n3 L2 → emits n1 n3 (L1 ++ L2).
Proof.
  intros (Hl1 & e1 & He1 & <-) (Hl2 & e2 & He2 & <-). split; [congruence|]. exists (e1 ++ e2).
  rewrite He2, He1, (assoc_L (++)). split; [done|]. unfold applied_of. apply omap_app.
Qed.

Definition quiet {A} (m : SW A) : Prop := ∀ n a n', m n = Some (a, n') → emits n n' [].

Lemma emits_refl n : emits n n [].
Proof. split; [done|]. exists []. by rewrite app_nil_r. Qed.

Section quiet.
Lemma quiet_ret {A} (a : A) : quiet (mret a).
Proof. intros n ? n' [= -> ->]. apply emits_refl. Qed.
Lemma quiet_panic {A} : quiet (panic : SW A).
Proof. by intros n a n' ?. Qed.
Lemma quiet_gets {A} (f : Node → A) : quiet (gets f).
Proof. intros n ? n' [= _ ->]. apply emits_refl. Qed.
Lemma quiet_modify f :
  (∀ n, NodeState.emitted (f n) = NodeState.emitted n ∧ NodeState.listeners (f n) = NodeState.listeners n) →
  quiet (modify f).
Proof. intros Hf n [] n' [= <-]. destruct (Hf n). split; [done|]. exists []. by rewrite app_nil_r. Qed.
Lemma quiet_emit e :
  (∀ cs a b c, e ≠ MemberlistChangesAppliedEvent cs a b c) → quiet (NodeState.emit e).
Proof.
  intros He n [] n' [= <-]. split; [done|]. eexists. split; [done|]. unfold applied_of. simpl.
  induction (NodeState.listeners n) as [|l ls IH]; [done|]. simpl. destruct e; try done. naive_solver.
Qed.
Lemma quiet_sample {A} (stream : Env → nat → A) : quiet (sample stream).
Proof. intros n a n' [= _ <-]. split; [done|]. exists []. by rewrite app_nil_r. Qed.
Lemma quiet_bind {A B} (m : SW A) (f : A → SW B) : quiet m → (∀ a, quiet (f a)) → quiet (m ≫= f).
Proof.
  intros Hm Hf n b n' H. unfold mbind, M_bind in H. destruct (m n) as [[a n1]|] eqn:Hmn; [|done].
  apply Hm in Hmn. apply Hf in H. by apply (emits_trans n n1 n' [] []).
Qed.
Lemma quiet_deref p : quiet (deref p).
Proof. intros n m n' H. unfold deref in H. repeat case_match; simplify_eq. apply emits_refl. Qed.
Lemma quiet_newMember m : quiet (newMember m).
Proof. intros n p n' [= _ <-]. split; [done|]. exists []. by rewrite app_nil_r. Qed.
Lemma quiet_for_each {A} (l : list A) (body : A → SW unit) : (∀ x, quiet (body x)) → quiet (for_each l body).
Proof. intros Hb. induction l; simpl; [apply quiet_ret|]. by apply quiet_bind. Qed.
End quiet.

Create HintDb quiet.
#[export] Hint Resolve quiet_ret quiet_panic quiet_gets quiet_sample quiet_deref quiet_newMember : quiet.

Ltac quiet_step :=
  lazymatch goal with
  | |- quiet (mbind _ _) => apply quiet_bind; [|intros ?]
  | |- quiet (modify _) => apply quiet_modify; intros ?; split; reflexivity
  | |- quiet (NodeState.emit _) => apply quiet_emit; discriminate
  | |- quiet (for_each _ _) => apply quiet_for_each; intros ?
  | |- quiet (when ?b _) => destruct b; simpl
  | |- quiet (let _ := _ in _) => cbv zeta
  | |- quiet (match ?x with _ => _ end) => destruct x
  end.
Ltac solve_quiet := repeat (solve [auto with quiet] || quiet_step).

Lemma quiet_deref_all l : quiet (deref_all l).
Proof. induction l; simpl; solve_quiet. Qed.
#[export] Hint Resolve quiet_deref_all : quiet.
Lemma quiet_countPingable l k : quiet (countPingable l k).
Proof. revert k. induction l; intros k; simpl; unfold Pingable; solve_quiet. Qed.
#[export] Hint Resolve quiet_countPingable : quiet.
Lemma quiet_Apply c : quiet (Apply c).
Proof. unfold Apply, memberFor, getJoinPosition, Member_, Address, modify_ml, intn. solve_quiet. Qed.
#[export] Hint Resolve quiet_Apply : quiet.
Lemma quiet_updateLoop cs : quiet (updateLoop cs).
Proof.
  induction cs; simpl; [solve_quiet|]. unfold updateOne, Member_, Address, nowInMillis, now, orPanic. solve_quiet.
Qed.
#[export] Hint Resolve quiet_updateLoop : quiet.
Lemma quiet_handleChange c : quiet (handleChange c).
Proof.
  unfold handleChange, RecordChange, Stop, Start, AdjustMaxPropagations, NumPingableMembers, Address, modify_dis, modify_sus.
  solve_quiet.
Qed.
#[export] Hint Resolve quiet_handleChange : quiet.
Lemma quiet_handleChanges cs : quiet (Membership.handleChanges cs).
Proof. unfold Membership.handleChanges. solve_quiet. Qed.
#[export] Hint Resolve quiet_handleChanges : quiet.
Lemma quiet_TrackUpdates cs : quiet (TrackUpdates cs).
Proof. unfold TrackUpdates, FlushBuffer, RenewFlushTimer, AddUpdates, modify_rol, now. solve_quiet. Qed.
#[export] Hint Resolve quiet_TrackUpdates : quiet.
Lemma quiet_ComputeChecksum : quiet ComputeChecksum.
Proof. unfold ComputeChecksum, GenChecksumString, GetMembers, now, modify_ml. solve_quiet. Qed.
#[export] Hint Resolve quiet_ComputeChecksum : quiet.

Lemma quiet_run {A} (m : SW A) n a n' (H : m n = Some (a, n')) : quiet m → emits n n' [].
Proof. intros Hq. by apply Hq in H. Qed.

Lemma quiet_updateLocked cs : quiet (updateLocked cs).
Proof. unfold updateLocked, NodeState.Stopped. solve_quiet. Qed.

Lemma updateAnnounce_emits applied n n' :
  updateAnnounce applied n = Some (tt, n') →
  emits n n' (if bool_decide (applied = []) then [] else (λ l, (l, applied)) <$> NodeState.listeners n).
Proof.
  unfold updateAnnounce, when. intros H. destruct (decide (applied = [])) as [->|Hne]; [injection H as <-; apply emits_refl|].
  rewrite (bool_decide_false (applied = [])) by done.
  assert (0 < length applied)%nat as Hlen by (destruct applied; [done|simpl; lia]). rewrite bool_decide_true in H by done.
  unfold mbind at 1, M_bind in H. simpl in H. unfold mbind at 1, M_bind in H.
  destruct (ComputeChecksum n) as [[[] n2]|] eqn:H2; [|done]. apply (quiet_run _ _ _ _) in H2; [|auto with quiet].
  unfold mbind at 1 2 3, M_bind in H. simpl in H.
  set (n3 := with_emitted _ _) in H. unfold mbind at 1, M_bind in H.
  destruct (Membership.handleChanges applied n3) as [[[] n4]|] eqn:H4; [|done].
  apply (quiet_run _ _ _ _) in H4; [|auto with quiet]. unfold mbind at 1, M_bind in H.
  destruct (TrackUpdates applied n4) as [[b n5]|] eqn:H5; [|done]. apply (quiet_run _ _ _ _) in H5; [|auto with quiet].
  injection H as <-. pose proof (emits_trans _ _ _ _ _ H4 H5) as H35. rewrite <-(app_nil_r (_ <$> _)).
  eapply emits_trans; [|exact H35]. rewrite <-(app_nil_l (_ <$> _)). eapply emits_trans; [exact H2|].
  split; [done|]. eexists. split; [done|].
  destruct H2 as [-> _]. clear. unfold applied_of. induction (NodeState.listeners n) as [|l ls IH]; [done|]. simpl. by f_equal.
Qed.

(** [Update] announces the applied batch once to every listener, if there is
    something to announce. *)
Lemma Update_emits cs n applied n' :
  Update cs n = Some (applied, n') →
  emits n n' (if bool_decide (applied = []) then [] else (λ l, (l, applied)) <$> NodeState.listeners n).
Proof.
  rewrite Update_halves. unfold mbind, M_bind. destruct (updateLocked cs n) as [[as_ n1]|] eqn:H1; [|done].
  destruct (updateAnnounce as_ n1) as [[[] n2]|] eqn:H2; [|done]. intros [= -> ->].
  apply (quiet_run _ _ _ _) in H1; [|apply quiet_updateLocked]. apply updateAnnounce_emits in H2.
  destruct H1 as [Hl H1]. rewrite Hl in H2. by apply (emits_trans n n1 n' []).
Qed.

(** ** Handling events *)
Section instance.
Context {T : Type} `{RingTreeLaws T}.

(** Only the events passed on, the stats and the world's cursor differ. *)
Definition rp_quiet (r r' : Ringpop T) : Prop :=
  ∃ evs s k cur, r' = set_cursor (set_events (set_stats r s (rp_prefix r) (Some k)) evs) cur.

Lemma rp_quiet_refl r k : rp_keys r = Some k → rp_quiet r r.
Proof. intros Hk. exists (rp_events r), (rp_stats r), k, (rp_cursor r). destruct r. simpl in *. by subst. Qed.
Lemma rp_quiet_trans r1 r2 r3 : rp_quiet r1 r2 → rp_quiet r2 r3 → rp_quiet r1 r3.
Proof. intros (e & s & k & c & ->) (e' & s' & k' & c' & ->). by exists e', s', k', c'. Qed.
Lemma rp_quiet_keys r r' : rp_quiet r r' → is_Some (rp_keys r').
Proof. intros (? & ? & k & ? & ->). by exists k. Qed.

(** An operation that is quiet whenever the stats have been set up. *)
Definition rpq {A} (m : M (Ringpop T) A) : Prop :=
  ∀ r, is_Some (rp_keys r) → wp m (λ _, rp_quiet r) r.

Lemma rpq_ret {A} (a : A) : rpq (mret a).
Proof. intros r [k Hk]. apply wp_ret. exact (rp_quiet_refl _ _ Hk). Qed.
Lemma rpq_bind {A B} (m : M (Ringpop T) A) (f : A → M (Ringpop T) B) : rpq m → (∀ a, rpq (f a)) → rpq (m ≫= f).
Proof.
  intros Hm Hf r Hk. apply wp_bind. eapply wp_mono; [by apply Hm|]. intros a r1 H1.
  eapply wp_mono; [eapply Hf, rp_quiet_keys, H1|]. intros b r2 H2. exact (rp_quiet_trans _ _ _ H1 H2).
Qed.
Lemma rpq_for_each {A} (l : list A) (body : A → M (Ringpop T) unit) : (∀ x, rpq (body x)) → rpq (for_each l body).
Proof. intros Hb. induction l; simpl; [apply rpq_ret|]. by apply rpq_bind. Qed.
Lemma rpq_emit e : rpq (rpEmit e).
Proof. intros r [k Hk]. apply wp_modify.
  exists (rp_events r ++ ((λ l, (l, e)) <$> rp_listeners r)), (rp_stats r), k, (rp_cursor r). destruct r. simpl in *. by subst. Qed.
Lemma rpq_sample {A} (stream : Env → nat → A) : rpq (rpSample stream).
Proof. intros r [k Hk]. exists (rp_events r), (rp_stats r), k, (S (rp_cursor r)). destruct r. simpl in *. by subst. Qed.
Lemma rpq_getStatKey key : rpq (getStatKey key).
Proof.
  intros r [k Hk]. unfold getStatKey. apply wp_bind, wp_gets. unfold id. rewrite Hk. simpl.
  destruct (k !! key); [apply wp_ret; exact (rp_quiet_refl _ _ Hk)|].
  apply wp_bind, wp_modify, wp_ret. exists (rp_events r), (rp_stats r), (<[key := rp_prefix r +:+ "." +:+ key]> k), (rp_cursor r). by destruct r.
Qed.
Lemma rpq_report s : rpq (report s).
Proof. intros r [k Hk]. apply wp_modify. exists (rp_events r), (rp_stats r ++ [s]), k, (rp_cursor r). destruct r. simpl in *. by subst. Qed.
Lemma rpq_inc key v : rpq (incCounter key v).
Proof. apply rpq_bind; [apply rpq_getStatKey|]. intros k. apply rpq_report. Qed.
Lemma rpq_gauge key v : rpq (updateGauge key v).
Proof. apply rpq_bind; [apply rpq_getStatKey|]. intros k. apply rpq_report. Qed.
Lemma rpq_timer key v : rpq (recordTimer key v).
Proof. apply rpq_bind; [apply rpq_getStatKey|]. intros k. apply rpq_report. Qed.

Ltac solve_rpq := repeat first
  [ apply rpq_ret | apply rpq_inc | apply rpq_gauge | apply rpq_timer | apply rpq_emit
  | apply rpq_for_each; intros ? | apply rpq_bind; [|intros ?] ].

Lemma rpq_swimStats e : rpq (swimStats e).
Proof. destruct e; simpl; solve_rpq. Qed.
Lemma rpq_handleRingEvent e : rpq (handleRingEvent e).
Proof. unfold handleRingEvent. destruct e; simpl; solve_rpq. Qed.

Lemma wp_onRing {A} (m : M (HashRing T) A) (Q : A → Ringpop T → Prop) r ring :
  rp_ring r = Some ring → is_Some (rp_keys r) →
  wp m (λ a ring', ∀ r', rp_quiet (set_ring r (Some ring')) r' → Q a r') ring → wp (onRing m) Q r.
Proof.
  intros Hr Hk Hm. unfold wp, onRing. rewrite Hr. unfold wp in Hm. destruct (m ring) as [[a ring']|]; [|done].
  change (wp (for_each (snd <$> filter (λ x : nat * ringEvent, x.1 = me)
    (drop (length (HashRing.emitted ring)) (HashRing.emitted ring'))) handleRingEvent;; mret a) Q (set_ring r (Some ring'))).
  apply wp_bind. eapply wp_mono; [by apply rpq_for_each; [intros e; apply rpq_handleRingEvent|]|].
  intros [] r' Hq. by apply wp_ret, Hm.
Qed.

(** Counting the members does not change them. *)
Lemma CountReachable_quiet r n :
  rp_node r = Some n → ml_wf n → is_Some (rp_keys r) → wp CountReachableMembers (λ _, rp_quiet r) r.
Proof.
  intros Hn Hwf [k Hk]. unfold CountReachableMembers, Ready, getState. apply wp_bind, wp_bind, wp_gets.
  case_bool_decide; [apply wp_ret, wp_ret; exact (rp_quiet_refl _ _ Hk)|].
  unfold readNode at 1, wp. rewrite Hn. simpl. destruct (ready (state n)); simpl; [|].
  - assert (wp Memberlist.CountReachableMembers (λ _ n', n' = n) n) as Hw.
    { unfold Memberlist.CountReachableMembers. apply wp_bind. by apply GetMembers_spec. }
    destruct (wp_run _ _ _ Hw) as (z & n' & Hrun & ->). unfold mbind, M_bind, readNode. simpl. rewrite Hrun. simpl.
    exists (rp_events r), (rp_stats r), k, (rp_cursor r). destruct r. simpl in *. by subst.
  - exists (rp_events r), (rp_stats r), k, (rp_cursor r). destruct r. simpl in *. by subst.
Qed.

(** ** The servers on the ring *)
Definition ring_step (S : gset string) (cs : list Change) : gset string :=
  (S ∪ list_to_set (serversToAdd cs)) ∖ list_to_set (serversToRemove cs).

(** Every address that may come up, with distinct replica points, of which each
    server has [P]. *)
Context (U : gset string) (P : Z).

Record inst_ok (r : Ringpop T) (n : Node) (S : gset string) : Prop := {
  io_node : rp_node r = Some n;
  io_wf : ml_wf n;
  io_keys : is_Some (rp_keys r);
  io_hash : ∀ s, hash32 (fingerprint32 (rp_world r) s);
  io_ring : ∃ ring, rp_ring r = Some ring ∧ ring_ok (fingerprint32 (rp_world r)) ring ∧ serverSet ring = S ∧
    replicaPoints ring = P ∧ no_collision (fingerprint32 (rp_world r)) P U;
  io_sub : S ⊆ U
}.

Lemma inst_quiet r r' n S : rp_quiet r r' → inst_ok r n S → inst_ok r' n S.
Proof. intros (e & s & k & c & ->) []. by split. Qed.

(** What handling an event leaves alone. *)
Definition same_inst (r r' : Ringpop T) : Prop :=
  rp_state r' = rp_state r ∧ rp_resolver r' = rp_resolver r ∧ rp_channel r' = rp_channel r ∧
  rp_startTime r' = rp_startTime r ∧ rp_world r' = rp_world r ∧ rp_node r' = rp_node r.
Lemma quiet_same r r' : rp_quiet r r' → same_inst r r'.
Proof. by intros (e & s & k & c & ->). Qed.
Lemma same_inst_trans r1 r2 r3 : same_inst r1 r2 → same_inst r2 r3 → same_inst r1 r3.
Proof. intros (? & ? & ? & ? & ? & ?) (? & ? & ? & ? & ? & ?). repeat split; congruence. Qed.

Definition step_ok (r : Ringpop T) (n : Node) (S : gset string) (r' : Ringpop T) : Prop :=
  inst_ok r' n S ∧ same_inst r r'.

Lemma rpq_step {A} (m : M (Ringpop T) A) r n S : rpq m → inst_ok r n S → wp m (λ _, step_ok r n S) r.
Proof.
  intros Hm Ho. eapply wp_mono; [apply Hm, (io_keys _ _ _ Ho)|]. intros a r' Hq.
  split; [exact (inst_quiet _ _ _ _ Hq Ho)|by apply quiet_same].
Qed.

Lemma handleChanges_ok r n S cs :
  inst_ok r n S → (∀ c, c ∈ cs → c_Address c ∈ U) →
  wp (handleChanges cs) (λ _, step_ok r n (ring_step S cs)) r.
Proof.
  intros Ho Hcs. unfold handleChanges. apply wp_bind, wp_gets, wp_bind.
  set (fp := fingerprint32 (rp_world r)).
  eapply wp_mono; [apply (rpq_step (rpSample orders) r n S); [apply rpq_sample|done]|]. intros c r1 [Ho1 Hs1].
  destruct Ho1 as [Hn Hwf Hk Hh (ring & Hr & Hok & HS & HP & Hnc) Hsub].
  assert (rp_world r1 = rp_world r) as Hw by apply Hs1. rewrite Hw in *. fold fp in Hok, Hnc, Hh.
  assert (list_to_set (serversToAdd cs) ⊆ U) as Hadd.
  { intros a. rewrite elem_of_list_to_set. unfold serversToAdd. intros (x & -> & Hx)%list_elem_of_fmap.
    apply list_elem_of_filter in Hx as [_ Hx]. auto. }
  apply (wp_onRing _ _ r1 ring); [done|done|].
  eapply wp_mono; [apply (AddRemoveServers_ok fp Hh fp c ring); [done|]|].
  { rewrite HP. eapply no_collision_sub; [|exact Hnc]. rewrite HS. set_solver. }
  intros b ring' [_ (Hok' & HS' & Hrp & _)] r' Hq. rewrite HS in HS'.
  split.
  - eapply inst_quiet; [exact Hq|]. split; simpl; rewrite ?Hw; try done.
    + exists ring'. rewrite Hrp. fold fp. split_and!; done.
    + unfold ring_step. set_solver.
  - eapply same_inst_trans; [exact Hs1|]. eapply same_inst_trans; [|by apply quiet_same]. done.
Qed.

(** The servers after an event. *)
Definition event_step (S : gset string) (e : swimEvent) : gset string :=
  match e with MemberlistChangesAppliedEvent cs _ _ _ => ring_step S cs | _ => S end.
Definition event_in (e : swimEvent) : Prop :=
  match e with MemberlistChangesAppliedEvent cs _ _ _ => ∀ c, c ∈ cs → c_Address c ∈ U | _ => True end.

Lemma step_then {A} (m : M (Ringpop T) A) (r r1 : Ringpop T) n S S1 :
  step_ok r n S1 r1 → wp m (λ _, step_ok r1 n S) r1 → wp m (λ _, step_ok r n S) r1.
Proof. intros [_ H1] Hm. eapply wp_mono; [exact Hm|]. intros a r2 [Ho H2]. split; [done|exact (same_inst_trans _ _ _ H1 H2)]. Qed.

Lemma changesApplied_ok r n S cs :
  inst_ok r n S → (∀ c, c ∈ cs → c_Address c ∈ U) →
  wp (changesApplied cs) (λ _, step_ok r n (ring_step S cs)) r.
Proof.
  intros Ho Hcs. unfold changesApplied.
  apply wp_bind. eapply wp_mono; [by apply (rpq_step _ r n S); [apply rpq_gauge|]|]. intros [] r1 H1.
  apply wp_bind. eapply wp_mono; [by apply (step_then _ r r1 n (ring_step S cs) S H1), handleChanges_ok; [apply H1|]|]. intros b r2 H2.
  apply wp_bind. eapply wp_mono; [by apply (step_then _ r r2 n (ring_step S cs) _ H2), rpq_step; [apply rpq_for_each; intros; apply rpq_inc|apply H2]|].
  intros [] r3 H3. apply wp_bind. eapply wp_mono.
  { apply (step_then _ r r3 n (ring_step S cs) _ H3). destruct H3 as [Ho3 _].
    eapply wp_mono; [apply (CountReachable_quiet r3 n); apply Ho3|]. intros mc r' Hq.
    split; [exact (inst_quiet _ _ _ _ Hq Ho3)|by apply quiet_same]. }
  intros mc r4 H4. apply wp_bind. eapply wp_mono.
  { apply (step_then _ r r4 n (ring_step S cs) _ H4), rpq_step; [|apply H4]. destruct mc; [apply rpq_gauge|apply rpq_ret]. }
  intros [] r5 H5. apply (step_then _ r r5 n (ring_step S cs) _ H5), rpq_step; [apply rpq_inc|apply H5].
Qed.

Lemma HandleEvent_ok r n S e :
  inst_ok r n S → event_in e → wp (HandleEvent (SwimEv e)) (λ _, step_ok r n (event_step S e)) r.
Proof.
  intros Ho He. unfold HandleEvent. apply wp_bind. eapply wp_mono; [by apply (rpq_step _ r n S); [apply rpq_emit|]|].
  intros [] r1 H1. apply (step_then _ r r1 n _ S H1). destruct H1 as [Ho1 _].
  pose proof (rpq_swimStats e) as Hq. destruct e; try (apply rpq_step; [exact Hq|done]). by apply changesApplied_ok.
Qed.

Lemma handle_all_ok evs r n S :
  inst_ok r n S → Forall event_in evs →
  wp (for_each evs (λ e, HandleEvent (SwimEv e))) (λ _, step_ok r n (foldl event_step S evs)) r.
Proof.
  revert r S. induction evs as [|e evs IH]; intros r S Ho He; simpl; [by apply wp_ret|].
  apply Forall_cons in He as [He Hes]. apply wp_bind. eapply wp_mono; [by apply HandleEvent_ok|].
  intros [] r1 H1. apply (step_then _ r r1 n _ _ H1), IH; [apply H1|done].
Qed.

(** ** Applying changes through the instance *)
Definition mine (l : list (nat * swimEvent)) : list swimEvent := snd <$> filter (λ x, x.1 = me) l.

Lemma mine_steps new S :
  foldl event_step S (mine new) = foldl ring_step S (snd <$> filter (λ x, x.1 = me) (applied_of new)).
Proof using.
  clear. unfold mine, applied_of. revert S. induction new as [|[l e] new IH]; intros S; [done|].
  rewrite filter_cons. simpl. destruct (decide (l = me)) as [->|Hl]; simpl.
  - by destruct e; simpl; rewrite ?filter_cons_True by done; apply IH.
  - by destruct e; simpl; rewrite ?filter_cons_False by done; apply IH.
Qed.

Lemma mine_in new :
  (∀ l cs, (l, cs) ∈ applied_of new → ∀ c, c ∈ cs → c_Address c ∈ U) → Forall event_in (mine new).
Proof using.
  clear. intros Hin. apply Forall_forall. intros e He. unfold mine in He.
  apply list_elem_of_fmap in He as ([l e'] & -> & Hx). apply list_elem_of_filter in Hx as [_ Hx]. simpl.
  destruct e'; simpl; try done. apply (Hin l). unfold applied_of. apply list_elem_of_omap. by eexists.
Qed.

(** What an operation of the node leaves alone. *)
Definition same_api (r r' : Ringpop T) : Prop :=
  rp_state r' = rp_state r ∧ rp_resolver r' = rp_resolver r ∧ rp_world r' = rp_world r.

(** An operation of the node that announces [L]. *)
Lemma onNode_emits {A} (m : SW A) r n S a n' L :
  inst_ok r n S → m n = Some (a, n') → ml_wf n' → emits n n' L →
  (∀ l cs, (l, cs) ∈ L → ∀ c, c ∈ cs → c_Address c ∈ U) →
  wp (onNode m) (λ x r', x = a ∧ inst_ok r' n' (foldl ring_step S (snd <$> filter (λ x, x.1 = me) L)) ∧ same_api r r') r.
Proof using H0.
  intros Ho Hrun Hwf (_ & new & Hnew & <-) HU. unfold wp, onNode. rewrite (io_node _ _ _ Ho), Hrun, Hnew, drop_app_length.
  fold (mine new). set (r1 := set_node r (Some n')).
  assert (inst_ok r1 n' S) as Ho1 by (destruct Ho; by split).
  change (wp (for_each (mine new) (λ e, HandleEvent (SwimEv e));; mret a) (λ x r', x = a ∧
    inst_ok r' n' (foldl ring_step S (snd <$> filter (λ x, x.1 = me) (applied_of new))) ∧ same_api r r') r1).
  apply wp_bind. eapply wp_mono; [apply (handle_all_ok (mine new) r1 n' S); [done|by apply mine_in]|].
  intros [] r2 [Ho2 Hs2]. apply wp_ret. split; [done|]. rewrite <-mine_steps. split; [done|]. split_and!; apply Hs2.
Qed.

(** The batch [applied], announced to the instance alone. *)
Lemma announced_steps S applied :
  foldl ring_step S (snd <$> filter (λ x : nat * list Change, x.1 = me)
    (if bool_decide (applied = []) then [] else (λ l, (l, applied)) <$> [me])) = ring_step S applied.
Proof using.
  clear. case_bool_decide as He; [|done]. subst applied. unfold ring_step. simpl. set_solver.
Qed.

Lemma announced_in (applied : list Change) ls :
  (∀ c, c ∈ applied → c_Address c ∈ U) →
  ∀ l cs, (l, cs) ∈ (if bool_decide (applied = []) then [] else (λ l : nat, (l, applied)) <$> ls) →
    ∀ c, c ∈ cs → c_Address c ∈ U.
Proof using.
  clear. intros HU l cs Hin. case_bool_decide; [by apply elem_of_nil in Hin|].
  by apply list_elem_of_fmap in Hin as (? & [= -> ->] & _).
Qed.

Lemma absorbs_in addr e v cs as_ v' :
  absorbs addr e v cs as_ v' → (∀ c, c ∈ cs → c_Address c ∈ U) → ∀ c, c ∈ as_ → c_Address c ∈ U.
Proof using.
  clear. intros Habs HU c Hc. assert (c_Address c ∈ c_Address <$> cs) as (c' & -> & Hc')%list_elem_of_fmap; [|auto].
  eapply elem_of_sublist; [|eapply absorbs_addresses, Habs]. by apply list_elem_of_fmap_2.
Qed.

Lemma onNode_Update cs r n S :
  inst_ok r n S → node_inv n → stopped (state n) = false → NodeState.listeners n = [me] →
  Forall valid_change cs → cs ≠ [] → (∀ c, c ∈ cs → c_Address c ∈ U) →
  wp (onNode (Update cs)) (λ applied r', ∃ n', updated cs applied n n' ∧
    inst_ok r' n' (ring_step S applied) ∧ same_api r r') r.
Proof using H0.
  intros Ho [Hwf Hvv] Hst Hl Hcs Hne HU.
  destruct (wp_run _ _ _ (Update_spec cs n Hwf Hvv Hcs)) as (applied & n' & Hrun & Hu).
  rewrite Hst, bool_decide_false in Hu by done. simpl in Hu. pose proof (Update_emits _ _ _ _ Hrun) as He.
  eapply wp_mono; [apply (onNode_emits _ r n S applied n' _ Ho Hrun (up_wf _ _ _ _ Hu) He)|].
  { apply announced_in. eapply absorbs_in; [apply Hu|done]. }
  intros x r' (-> & Ho' & Ha). rewrite Hl, announced_steps in Ho'. by exists n'.
Qed.

(** ** The relation between membership and ring *)

(** Alive members are on the ring; faulty and departed members, and unknown
    addresses, are not.  Suspects may or may not be. *)
Definition sync_at (v : gmap string mstate) (S : gset string) (a : string) : Prop :=
  match v !! a : option mstate with
  | None => a ∉ S
  | Some ms => (ms.2 = Alive → a ∈ S) ∧ (ms.2 = Faulty ∨ ms.2 = Leave → a ∉ S)
  end.

Definition ring_sync (v : gmap string mstate) (S : gset string) : Prop := ∀ a, sync_at v S a.

Lemma elem_of_ring_step S cs a :
  NoDup (c_Address <$> cs) →
  a ∈ ring_step S cs ↔
    match list_find (λ c, c_Address c = a) cs with
    | Some (_, c) => (c_Status c = Alive ∨ a ∈ S) ∧ c_Status c ≠ Faulty ∧ c_Status c ≠ Leave
    | None => a ∈ S
    end.
Proof using.
  clear. intros Hnd. unfold ring_step, serversToAdd, serversToRemove.
  rewrite elem_of_difference, elem_of_union, !elem_of_list_to_set, !list_elem_of_fmap.
  setoid_rewrite list_elem_of_filter. destruct (list_find _ cs) as [[i c]|] eqn:Hf.
  - apply list_find_Some in Hf as (Hi & Hca & _). apply list_elem_of_lookup_2 in Hi.
    assert (∀ c', c' ∈ cs → a = c_Address c' → c' = c) as Huniq.
    { intros c' Hc' ->. by apply (nodup_fmap_inj c_Address cs). }
    naive_solver.
  - apply list_find_None in Hf. rewrite Forall_forall in Hf. naive_solver.
Qed.

(** Announcing a batch puts the ring right about its members, and only them. *)
Lemma sync_at_in (v : gmap string mstate) S cs c :
  NoDup (c_Address <$> cs) → c ∈ cs → v !! c_Address c = Some (cstate c) → sync_at v (ring_step S cs) (c_Address c).
Proof using.
  clear. intros Hnd Hc Hv. unfold sync_at. rewrite Hv. simpl.
  pose proof (elem_of_ring_step S cs (c_Address c) Hnd) as Hin.
  destruct (list_find (λ c', c_Address c' = c_Address c) cs) as [[i c']|] eqn:Hf.
  - apply list_find_Some in Hf as (Hi%list_elem_of_lookup_2 & Hadr & _).
    assert (c' = c) as -> by (by apply (nodup_fmap_inj c_Address cs)).
    split; [intros Hst; apply Hin; rewrite Hst; by split; [left|]|]. naive_solver.
  - apply list_find_None in Hf. rewrite Forall_forall in Hf. by destruct (Hf c Hc).
Qed.

Lemma sync_at_out (v v' : gmap string mstate) S cs a :
  NoDup (c_Address <$> cs) → a ∉ c_Address <$> cs → v' !! a = v !! a → sync_at v S a → sync_at v' (ring_step S cs) a.
Proof using.
  clear. intros Hnd Hout Hv Hs. unfold sync_at in *. rewrite Hv. pose proof (elem_of_ring_step S cs a Hnd) as Hin.
  destruct (list_find (λ c, c_Address c = a) cs) as [[i c]|] eqn:Hf.
  - apply list_find_Some in Hf as (Hi%list_elem_of_lookup_2 & <- & _). destruct Hout. by apply list_elem_of_fmap_2.
  - by destruct (v !! a) as [[? ?]|]; rewrite Hin.
Qed.

Lemma sync_step v S cs :
  NoDup (c_Address <$> cs) → ring_sync v S → ring_sync (foldl put v cs) (ring_step S cs).
Proof using.
  clear. intros Hnd Hs a. destruct (decide (a ∈ c_Address <$> cs)) as [Ha|Ha].
  - apply list_elem_of_fmap in Ha as (c & -> & Hc). apply sync_at_in; [done..|]. by apply lookup_puts_in.
  - apply (sync_at_out v); [done|done|by apply lookup_puts_out|done].
Qed.

(** An instance that runs, with its node [n] and the servers [S]. *)
Record serving (r : Ringpop T) (n : Node) (S : gset string) : Prop := {
  sv_inst : inst_ok r n S;
  sv_inv : node_inv n;
  sv_running : stopped (state n) = false;
  sv_listener : NodeState.listeners n = [me]
}.

Lemma Update_serving cs r n S :
  serving r n S → Forall valid_change cs → cs ≠ [] → (∀ c, c ∈ cs → c_Address c ∈ U) →
  wp (onNode (Update cs)) (λ applied r', ∃ n', updated cs applied n n' ∧ serving r' n' (ring_step S applied) ∧ same_api r r') r.
Proof using H0.
  intros [Ho Hi Hst Hl] Hcs Hne HU. eapply wp_mono; [by apply onNode_Update|].
  intros applied r' (n' & Hu & Ho' & Ha). exists n'. split; [done|]. split; [split; [done|..]|done].
  - split; apply Hu.
  - by rewrite (up_state _ _ _ _ Hu).
  - by rewrite (up_lst _ _ _ _ Hu).
Qed.

(** C6: the ring follows the membership: when the node applies a batch of
    changes that mentions no address twice, the instance puts them on the ring
    so that afterwards, as before, every alive member is on the ring and no
    faulty, departed or unknown one is. *)
Theorem ring_follows_membership cs r n S :
  serving r n S → ring_sync (view n) S →
  Forall valid_change cs → cs ≠ [] → NoDup (c_Address <$> cs) → (∀ c, c ∈ cs → c_Address c ∈ U) →
  ∃ applied r' n' S', onNode (Update cs) r = Some (applied, r') ∧ updated cs applied n n' ∧
    serving r' n' S' ∧ ring_sync (view n') S'.
Proof using H0.
  intros Hsv Hsync Hcs Hne Hnd HU.
  destruct (wp_run _ _ _ (Update_serving cs r n S Hsv Hcs Hne HU)) as (applied & r' & Hrun & n' & Hu & Hsv' & _).
  exists applied, r', n', (ring_step S applied). split_and!; [done|done|done|].
  pose proof (up_abs _ _ _ _ Hu) as Habs. rewrite (absorbs_puts _ _ _ _ _ _ Habs). apply sync_step; [|done].
  by eapply sublist_NoDup, absorbs_addresses, Habs.
Qed.

(** Both changes of a pair about one unknown address are applied. *)
Lemma absorbs_pair addr e v c1 c2 as_ v' :
  absorbs addr e v [c1; c2] as_ v' → v !! c_Address c1 = None → c_Address c2 = c_Address c1 → c_Address c1 ≠ addr →
  beats c2 (cstate c1) = true → as_ = [c1; c2] ∧ v' = put (put v c1) c2.
Proof using.
  clear. intros H Hv Ha Hne Hb. inversion H as [|r1 r2 ? ? ? a1 ? as1 ? Hd1 H1 Hr]; subst.
  unfold decision in Hd1. rewrite Hv in Hd1. subst a1. simpl in H1.
  destruct (absorbs_one _ _ _ _ _ _ H1) as (a2 & Hd2 & -> & ->). unfold decision in Hd2.
  rewrite Ha in Hd2. unfold put at 1 in Hd2. rewrite lookup_insert_eq, bool_decide_false in Hd2 by done. simpl in Hd2.
  fold (cstate c1) in Hd2. rewrite Hb in Hd2. by subst a2.
Qed.

(** C40: a batch that mentions an address twice can take an alive member off
    the ring: if it first says faulty and then, with a newer incarnation,
    alive, the node believes the member alive but the ring drops it, because
    additions are made before removals whatever their order was. *)
Theorem faulty_then_alive_leaves_ring c1 c2 r n S :
  serving r n S → view n !! c_Address c1 = None → c_Address c2 = c_Address c1 → c_Address c1 ≠ self n →
  c_Status c1 = Faulty → c_Status c2 = Alive → c_Incarnation c1 < c_Incarnation c2 → c_Address c1 ∈ U →
  ∃ applied r' n' S', onNode (Update [c1; c2]) r = Some (applied, r') ∧ serving r' n' S' ∧
    view n' !! c_Address c1 = Some (c_Incarnation c2, Alive) ∧ c_Address c1 ∉ S'.
Proof using H0.
  intros Hsv Hv Ha Hself Hs1 Hs2 Hlt HU.
  assert (Forall valid_change [c1; c2]) as Hcs.
  { repeat constructor; unfold valid_change; rewrite ?Hs1, ?Hs2; by eexists. }
  assert (∀ c, c ∈ [c1; c2] → c_Address c ∈ U) as HU2.
  { intros c. rewrite !elem_of_cons. intros [->|[->|Hc]]; [done|by rewrite Ha|by apply elem_of_nil in Hc]. }
  destruct (wp_run _ _ _ (Update_serving [c1; c2] r n S Hsv Hcs ltac:(done) HU2)) as (applied & r' & Hrun & n' & Hu & Hsv' & _).
  assert (beats c2 (cstate c1) = true) as Hb by (unfold beats, cstate; simpl; by rewrite bool_decide_true).
  destruct (absorbs_pair _ _ _ _ _ _ _ (up_abs _ _ _ _ Hu) Hv Ha Hself Hb) as [-> Hv'].
  eexists _, r', n', _. split_and!; [done|exact Hsv'|..].
  - rewrite Hv'. unfold put at 1. by rewrite Ha, lookup_insert_eq, Hs2.
  - unfold ring_step, serversToRemove. rewrite filter_cons_True by by left. simpl. set_solver.
Qed.

(** Told of an unknown member, the node takes the change as it is. *)
Lemma Update_one_serving c r n S :
  serving r n S → valid_change c → c_Address c ∈ U → c_Address c ≠ self n →
  (match view n !! c_Address c with None => True | Some ms => beats c ms = true end) →
  ∃ r' n', onNode (Update [c]) r = Some ([c], r') ∧ serving r' n' (ring_step S [c]) ∧ view n' = put (view n) c ∧
    self n' = self n.
Proof using H0.
  intros Hsv Hc HU Hself Hv.
  assert (∀ c', c' ∈ [c] → c_Address c' ∈ U) as HU1 by (intros c' ->%list_elem_of_singleton; done).
  destruct (wp_run _ _ _ (Update_serving [c] r n S Hsv ltac:(by constructor) ltac:(done) HU1))
    as (applied & r' & Hrun & n' & Hu & Hsv' & _).
  destruct (absorbs_one _ _ _ _ _ _ (up_abs _ _ _ _ Hu)) as (a & Hd & -> & Hv'). unfold decision in Hd.
  assert (a = Some c) as ->.
  { destruct (view n !! c_Address c); [|done]. rewrite bool_decide_false in Hd by done. simpl in Hd. by rewrite Hv in Hd. }
  exists r', n'. split_and!; [done|done|done|]. unfold self. by rewrite (up_config _ _ _ _ Hu).
Qed.

(** Equal memberships do not give equal rings: a node that saw a member
    alive and then suspect keeps it on its ring, a node that first hears of it
    when it is suspect never puts it there; both then hold the same membership
    but hash keys over different servers. *)
Theorem rings_diverge_on_suspects c1 c2 r n S :
  serving r n S → view n !! c_Address c1 = None → c_Address c1 ∉ S → c_Address c1 ≠ self n → c_Address c1 ∈ U →
  c_Address c2 = c_Address c1 → c_Incarnation c2 = c_Incarnation c1 → c_Status c1 = Alive → c_Status c2 = Suspect →
  ∃ ra rb na nb Sa Sb,
    (onNode (Update [c1]);; onNode (Update [c2])) r = Some ([c2], ra) ∧ onNode (Update [c2]) r = Some ([c2], rb) ∧
    serving ra na Sa ∧ serving rb nb Sb ∧ view na = view nb ∧ c_Address c1 ∈ Sa ∧ c_Address c1 ∉ Sb.
Proof using H0.
  intros Hsv Hv HS Hself HU Ha Hi Hs1 Hs2.
  assert (valid_change c1 ∧ valid_change c2) as [Hc1 Hc2].
  { unfold valid_change. rewrite Hs1, Hs2. split; by eexists. }
  destruct (Update_one_serving c1 r n S Hsv Hc1 HU Hself) as (r1 & n1 & Hr1 & Hsv1 & Hv1 & Hself1); [by rewrite Hv|].
  destruct (Update_one_serving c2 r1 n1 _ Hsv1 Hc2) as (r2 & n2 & Hr2 & Hsv2 & Hv2 & _); [by rewrite Ha|by rewrite Ha, Hself1| |].
  { rewrite Hv1, Ha. unfold put. rewrite lookup_insert_eq. unfold beats. simpl. rewrite Hi, Hs1, Hs2.
    by rewrite (bool_decide_true (_ = _)), orb_true_r by done. }
  destruct (Update_one_serving c2 r n S Hsv Hc2) as (r3 & n3 & Hr3 & Hsv3 & Hv3 & _);
    [by rewrite Ha|by rewrite Ha|by rewrite Ha, Hv|].
  eexists r2, r3, n2, n3, _, _. split_and!; [|exact Hr3|exact Hsv2|exact Hsv3|..].
  - unfold mbind, M_bind. by rewrite Hr1.
  - rewrite Hv2, Hv3, Hv1. unfold put. rewrite Ha. by rewrite insert_insert_eq.
  - unfold ring_step, serversToAdd, serversToRemove. rewrite !filter_cons, !filter_nil, Hs1, Hs2. simpl. set_solver.
  - unfold ring_step, serversToAdd, serversToRemove. rewrite !filter_cons, !filter_nil, Hs2. simpl. set_solver.
Qed.

End instance.
