(* ===== verification/RingpopLife.v ===== *)
(** * RingpopLife: the life of an instance, and the theorems about it at a
    concrete instance *)
From S2P Require Import Prelude GoStd TreeIface RBTree RBMap HashRing HashRingSpec RingProps Forwarder.
From S2P Require Import ForwarderSpec NodeState Util UtilSpec Memberlist Disseminator Suspicion Rollup.
From S2P Require Import Membership MembershipSpec UpdateSpec SwimOrder MemberIter Ping NodeCore SwimProps.
From S2P Require Import DisseminatorSpec SyncProps Samples JoinDelayer JoinSender JoinProps Ringpop.
From S2P Require Import RingpopProps.
#[local] Open Scope Z_scope.

Section life.
Context {T : Type} `{RingTreeLaws T}.

(** Before it has bootstrapped, and after it was destroyed or a bootstrap
    failed, an instance refuses every question with ErrNotBootstrapped and
    does not change. *)
Theorem api_needs_bootstrap (r : Ringpop T) key k fuel thrift opts :
  rp_state r ≠ ready_ →
  WhoAmI r = Some (inr ErrNotBootstrapped, r) ∧ Uptime r = Some (inr ErrNotBootstrapped, r) ∧
  Checksum r = Some (inr ErrNotBootstrapped, r) ∧ Lookup key r = Some (inr ErrNotBootstrapped, r) ∧
  LookupN key k r = Some (inr ErrNotBootstrapped, r) ∧
  GetReachableMembers r = Some (inr ErrNotBootstrapped, r) ∧
  CountReachableMembers r = Some (inr ErrNotBootstrapped, r) ∧
  HandleOrForward fuel key thrift opts r = Some ((false, inr ErrNotBootstrapped), r).
Proof.
  intros Hs. assert (Ready r = Some (false, r)) as Hr.
  { unfold Ready, getState, mbind, M_bind, gets. by rewrite bool_decide_true. }
  unfold WhoAmI, Uptime, Checksum, Lookup, LookupN, GetReachableMembers, CountReachableMembers, HandleOrForward.
  unfold mbind, M_bind. rewrite Hr. done.
Qed.

(** An instance that answers: it and its node are ready, and its ring is in order
    with no two replica points at one hash value. *)
Record answering (r : Ringpop T) (ring : HashRing T) : Prop := {
  an_state : rp_state r = ready_;
  an_node : ∃ n, rp_node r = Some n ∧ ready (state n) = true;
  an_keys : is_Some (rp_keys r);
  an_hash : ∀ s, hash32 (fingerprint32 (rp_world r) s);
  an_ring : rp_ring r = Some ring;
  an_ok : ring_ok (fingerprint32 (rp_world r)) ring;
  an_points : 1 ≤ replicaPoints ring;
  an_nc : no_collision (fingerprint32 (rp_world r)) (replicaPoints ring) (serverSet ring)
}.

(** The identity resolver of the instance, be it a function of the user's or the
    default one, which asks the channel, yields [who]. *)
Definition known_as (who : string) (r : Ringpop T) : Prop := identity r = Some (inl who, r).

Lemma known_as_config r r' who :
  rp_resolver r' = rp_resolver r → rp_channel r' = rp_channel r → known_as who r → known_as who r'.
Proof.
  unfold known_as, identity, gets, mbind, M_bind, id. intros -> ->. destruct (rp_resolver r) as [[res|]|]; [|..|done].
  - unfold mret, M_ret. by intros [= ->].
  - destruct (rp_channel r) as [[h e]|]; [|done]. unfold mret, M_ret. by intros [= ->].
Qed.

Lemma rp_quiet_known_as r r' who : rp_quiet r r' → known_as who r → known_as who r'.
Proof. intros (e & s & k & c & ->). by apply known_as_config. Qed.

Lemma Ready_answering r ring : answering r ring → wp Ready (λ b r', b = true ∧ r' = r) r.
Proof.
  intros []. destruct an_node0 as (n & Hn & Hrd). unfold Ready, getState. apply wp_bind, wp_gets.
  rewrite an_state0, bool_decide_false by tauto. unfold readNode, wp, NodeState.Ready, gets. rewrite Hn.
  split; [done|]. by destruct r; simpl in *; subst.
Qed.

Lemma rp_quiet_answering r r' ring : rp_quiet r r' → answering r ring → answering r' ring.
Proof. intros (e & s & k & c & ->) []. by split. Qed.

Lemma Lookup_answering r ring key :
  answering r ring →
  wp (Lookup key) (λ res r', rp_quiet r r' ∧
    res = from_option inl (inr ErrNoDestination)
      (owner (fingerprint32 (rp_world r)) (replicaPoints ring) (serverSet ring) key)) r.
Proof.
  intros Ha. unfold Lookup. apply wp_bind. eapply wp_mono; [exact (Ready_answering _ _ Ha)|]. intros ? ? [-> ->]. simpl.
  set (fp := fingerprint32 (rp_world r)).
  apply wp_bind. eapply wp_mono; [apply rpq_sample, Ha|]. intros t r1 H1. apply wp_bind, wp_gets.
  assert (rp_world r1 = rp_world r) as Hw by (by destruct H1 as (? & ? & ? & ? & ->)). rewrite Hw. fold fp.
  apply wp_bind. eapply wp_mono; [apply rpq_sample, (rp_quiet_keys _ _ H1)|]. intros c r2 H2.
  assert (rp_quiet r r2) as H02 by exact (rp_quiet_trans _ _ _ H1 H2).
  pose proof (rp_quiet_answering _ _ _ H02 Ha) as Ha2. apply wp_bind.
  apply (wp_onRing _ _ r2 ring); [apply Ha2|apply Ha2|].
  eapply wp_mono; [apply (Lookup_ok fp (an_hash _ _ Ha)); apply Ha|]. intros res ring' [-> ->] r3 H3.
  assert (set_ring r2 (Some ring) = r2) as Hsame.
  { destruct Ha2. destruct r2. simpl in *. by subst. }
  rewrite Hsame in H3. destruct (owner fp _ _ key) as [o|]; simpl; apply wp_bind.
  all: (eapply wp_mono; [apply rpq_sample, (rp_quiet_keys _ _ H3)|]); intros t' r4 H4; apply wp_bind;
    (eapply wp_mono; [apply rpq_emit, (rp_quiet_keys _ _ H4)|]); intros [] r5 H5; apply wp_ret; (split; [|done]).
  all: exact (rp_quiet_trans _ _ _ H02 (rp_quiet_trans _ _ _ H3 (rp_quiet_trans _ _ _ H4 H5))).
Qed.

(** The events of the forwarder only count. *)
Lemma HandleEvent_forward e r who ring :
  answering r ring → known_as who r → wp (HandleEvent (ForwardEv e)) (λ _, rp_quiet r) r.
Proof.
  intros Ha Hme. unfold HandleEvent. apply wp_bind. eapply wp_mono; [apply rpq_emit, Ha|]. intros [] r1 H1.
  pose proof (rp_quiet_answering _ _ _ H1 Ha) as Ha1. pose proof (rp_quiet_known_as _ _ _ H1 Hme) as Hme1.
  assert (∀ m, rpq m → wp m (λ _ : (), rp_quiet r) r1) as Hq.
  { intros m Hm. eapply wp_mono; [apply Hm, Ha1|]. intros [] r2 H2. exact (rp_quiet_trans _ _ _ H1 H2). }
  destruct e; try (apply Hq; first [apply rpq_inc | apply rpq_gauge]). unfold forwardStats, WhoAmI. apply wp_bind, wp_bind.
  eapply wp_mono; [exact (Ready_answering _ _ Ha1)|]. intros ? ? [-> ->]. simpl. unfold wp at 1. rewrite Hme1.
  case_bool_decide; apply Hq, rpq_inc.
Qed.

Lemma handle_forward_events es r who ring :
  answering r ring → known_as who r → wp (for_each es (λ e, HandleEvent (ForwardEv e))) (λ _, rp_quiet r) r.
Proof.
  revert r. induction es as [|e es IH]; intros r Ha Hme; simpl.
  { apply wp_ret. destruct (an_keys _ _ Ha) as [k Hk]. exact (rp_quiet_refl _ _ Hk). }
  apply wp_bind. eapply wp_mono; [exact (HandleEvent_forward e _ _ _ Ha Hme)|]. intros [] r1 H1.
  eapply wp_mono; [exact (IH r1 (rp_quiet_answering _ _ _ H1 Ha) (rp_quiet_known_as _ _ _ H1 Hme))|]. intros [] r2 H2.
  exact (rp_quiet_trans _ _ _ H1 H2).
Qed.

Lemma Forward_answering r who ring f fuel dest keys thrift opts ans f' :
  answering r ring → known_as who r → rp_forwarder r = Some f →
  ForwardRequest fuel dest keys thrift opts f = Some (ans, f') →
  wp (Forward fuel dest keys thrift opts) (λ res r', res = fwResult ans ∧ rp_forwarder r' = Some f') r.
Proof.
  intros Ha Hme Hf Hrun. unfold Forward. apply wp_bind. unfold wp at 1, onForwarder. rewrite Hf, Hrun.
  set (r1 := set_forwarder r (Some f')). assert (answering r1 ring) as Ha1 by (by destruct Ha).
  assert (known_as who r1) as Hme1 by (by apply (known_as_config r)).
  match goal with |- match (?m ;; mret ans) r1 with _ => _ end =>
    change (wp (m ;; mret ans) (λ a r', wp (mret (fwResult a))
      (λ res r'', res = fwResult ans ∧ rp_forwarder r'' = Some f') r') r1) end.
  apply wp_bind. eapply wp_mono; [exact (handle_forward_events _ _ _ _ Ha1 Hme1)|].
  intros [] r2 (? & ? & ? & ? & ->). by apply wp_ret, wp_ret.
Qed.

(** What becomes of a request whose key has the owner [o]: the answer, and
    what the forwarder did. *)
Definition routed (who key : string) (thrift : bool) (opts : option fwOptions) (o : option string)
    (f : Forwarder) (res : bool * (string + rpError)) (f' : Forwarder) : Prop :=
  match o with
  | None => res = (false, inr ErrNoDestination) ∧ f' = f
  | Some o =>
      if bool_decide (o = who) then res = (true, inl "") ∧ f' = f
      else ∃ ans, res = (false, fwResult ans) ∧
        sent (newRequestSender [key] o thrift (fwMergeDefaultOptions opts)) ans f f'
  end.

(** C13: a request goes to the owner of its key: a ready instance that knows its
    own identity, by a resolver of the user's or from the channel, says "handle
    it here" exactly when it owns the key itself, without any remote call;
    otherwise it forwards the request to the owner, in boundedly many calls of
    which the first goes to the owner, and returns what the forwarder returned;
    it reports an error when the ring is empty.  It does not crash.  The
    conditions are that no two replica points on the ring have the same hash
    value and that the retry schedule is at least as long as the number of
    retries. *)
Theorem HandleOrForward_routes r who ring f key thrift opts :
  let o := fwMergeDefaultOptions opts in
  answering r ring → known_as who r → rp_forwarder r = Some f → 0 ≤ inflight f →
  MaxRetries o ≤ Z.of_nat (length (default [] (RetrySchedule o))) →
  ∃ res r' f', HandleOrForward (S (Z.to_nat (MaxRetries o))) key thrift opts r = Some (res, r') ∧
    rp_forwarder r' = Some f' ∧
    routed who key thrift opts (owner (fingerprint32 (rp_world r)) (replicaPoints ring) (serverSet ring) key) f res f'.
Proof.
  intros o Ha Hme Hf Hin Hlen. set (own := owner _ _ _ key). set (fuel := S _).
  assert (MaxRetries o < Z.of_nat fuel) as Hfuel by (unfold fuel; lia).
  assert (wp (HandleOrForward fuel key thrift opts)
    (λ res r', ∃ f', rp_forwarder r' = Some f' ∧ routed who key thrift opts own f res f') r) as Hw.
  { unfold HandleOrForward. apply wp_bind. eapply wp_mono; [exact (Ready_answering _ _ Ha)|]. intros ? ? [-> ->]. simpl.
    apply wp_bind. eapply wp_mono; [exact (Lookup_answering _ _ key Ha)|]. intros res r1 [H1 ->]. fold own.
    pose proof (rp_quiet_answering _ _ _ H1 Ha) as Ha1. pose proof (rp_quiet_known_as _ _ _ H1 Hme) as Hme1.
    assert (rp_forwarder r1 = Some f) as Hf1 by (by destruct H1 as (? & ? & ? & ? & ->)).
    unfold routed. destruct own as [d|]; simpl; [|by apply wp_ret; eauto]. unfold WhoAmI. apply wp_bind, wp_bind.
    eapply wp_mono; [exact (Ready_answering _ _ Ha1)|]. intros ? ? [-> ->]. simpl. unfold wp at 1. rewrite Hme1.
    case_bool_decide; [by apply wp_ret; eauto|].
    destruct (wp_run _ _ _ (ForwardRequest_spec fuel d [key] thrift opts f Hlen Hfuel ltac:(lia) Hin))
      as (ans & f' & Hrun & Hs).
    apply wp_bind. eapply wp_mono; [exact (Forward_answering _ _ _ _ _ _ _ _ _ _ _ Ha1 Hme1 Hf1 Hrun)|].
    intros ? r2 [-> Hf2]. apply wp_ret. eauto 6. }
  destruct (wp_run _ _ _ Hw) as (res & r' & Hrun & f' & Hf' & Hr). by exists res, r', f'.
Qed.

(** An instance that is destroyed before its first bootstrap crashes the
    next one: the state is past the point where the node would be created, so
    [Bootstrap] calls a method of the nil node. *)
Theorem bootstrap_after_early_destroy_panics (r : Ringpop T) file fuel opts who :
  rp_node r = None → rp_resolver r = Some (ResolverFunc (inl who)) →
  (Destroy;; Bootstrap file fuel (Some opts)) r = None.
Proof.
  intros Hn Hr. unfold Destroy, Bootstrap, identity, stopTimers, setState, getState, mbind, M_bind, gets, modify, mret, M_ret, id.
  rewrite Hn. simpl. rewrite Hr. unfold onNode. simpl. by rewrite Hn.
Qed.
End life.

(** ** A concrete instance: the node a, which knows b, on a ring of both *)
Definition hashEnv : Env :=
  mkEnv (times sampleEnv) (λ _, 0%nat) (orders sampleEnv) (pings sampleEnv) (pingReqs sampleEnv) (joins sampleEnv)
    sampleHash (doubledMedian sampleEnv).

Definition joined (address : string) (cs : list Change) : Node :=
  with_listeners (with_state (nodeIn hashEnv address cs) (mkFlags false false false true)) [me].

Definition instanceOf (address : string) (n : Node) : Ringpop rbheap :=
  mkRingpop "app" RingChecksumStatPeriodNever 2 (Some (address, false)) (Some ChannelIdentity) ready_
    (Some n) (Some sampleRing) (Some (newForwarder failEnv)) [] [] [] "ringpop" (Some ∅) (Some []) None hashEnv
    failEnv 0.

Lemma joined_inv address cs : Forall valid_change cs → node_inv (joined address cs) ∧ self (joined address cs) = address.
Proof.
  assert (∀ n f l, node_inv n → self n = address →
    node_inv (with_listeners (with_state n f) l) ∧ self (with_listeners (with_state n f) l) = address) as Hgen by done.
  intros Hcs. destruct (nodeIn_run hashEnv address cs Hcs) as ((Hi & _) & Hself & _). by apply Hgen.
Qed.

Lemma joined_serving address cs :
  Forall valid_change cs → serving sampleU 2 (instanceOf address (joined address cs)) (joined address cs) {["a"; "b"]}.
Proof.
  intros Hcs. destruct sampleRing_ok as (Hok & HS & Hrp). destruct (joined_inv address cs Hcs) as [Hi _].
  split; [split|done|done|done]; simpl.
  - done.
  - apply Hi.
  - by eexists.
  - apply sampleHash_range.
  - exists sampleRing. split_and!; [done..|]. rewrite <-Hrp. by apply sampleRing_nc.
  - apply (bool_decide_unpack _). by vm_compute.
Qed.

(** All of [a] and [b] is alive, and they are all there is. *)
Lemma both_sync i j : ring_sync {["a" := (i, Alive); "b" := (j, Alive)]} {["a"; "b"]}.
Proof.
  intros a. destruct (decide (a = "a")) as [->|Ha]; [by split; [set_solver|intros [?|?]]|].
  destruct (decide (a = "b")) as [->|Hb]; [by split; [set_solver|intros [?|?]]|].
  unfold sync_at. rewrite lookup_insert_ne, lookup_singleton_ne by done. set_solver.
Qed.

Definition abNode : Node := joined "a" [sampleChange "b" 5 Alive].
Definition abInstance : Ringpop rbheap := instanceOf "a" abNode.

Lemma abInstance_serving : serving sampleU 2 abInstance abNode {["a"; "b"]}.
Proof. apply joined_serving. known. Qed.

Lemma abInstance_sync : ring_sync (view abNode) {["a"; "b"]}.
Proof.
  assert (view abNode = {["a" := (1, Alive); "b" := (5, Alive)]}) as -> by (vm_compute; reflexivity).
  apply both_sync.
Qed.

Definition cAlive : Change := sampleChange "c" 3 Alive.
Definition cSuspect : Change := sampleChange "c" 3 Suspect.

Lemma only_c cs : Forall (λ c, c_Address c = "c") cs → ∀ c, c ∈ cs → c_Address c ∈ sampleU.
Proof. intros Hf c Hc. rewrite Forall_forall in Hf. rewrite (Hf c Hc). apply (bool_decide_unpack _). by vm_compute. Qed.

Lemma ring_follows_membership_witness :
  ∃ applied r' n' S', onNode (Update [cAlive]) abInstance = Some (applied, r') ∧
    updated [cAlive] applied abNode n' ∧ serving sampleU 2 r' n' S' ∧ ring_sync (view n') S'.
Proof.
  apply (ring_follows_membership sampleU 2 [cAlive] abInstance abNode {["a"; "b"]});
    [apply abInstance_serving|apply abInstance_sync|known|done|repeat constructor; set_solver|].
  apply only_c. by repeat constructor.
Defined.

Definition cFaulty : Change := sampleChange "c" 3 Faulty.
Definition cBack : Change := sampleChange "c" 4 Alive.

Lemma faulty_then_alive_leaves_ring_witness :
  ∃ applied r' n' S', onNode (Update [cFaulty; cBack]) abInstance = Some (applied, r') ∧ serving sampleU 2 r' n' S' ∧
    view n' !! "c" = Some (4, Alive) ∧ "c" ∉ S'.
Proof.
  apply (faulty_then_alive_leaves_ring sampleU 2 cFaulty cBack abInstance abNode {["a"; "b"]});
    [apply abInstance_serving|by vm_compute|reflexivity|by vm_compute|reflexivity|reflexivity|by vm_compute|].
  by apply only_c with [cFaulty]; repeat constructor.
Defined.

Lemma rings_diverge_on_suspects_witness :
  ∃ ra rb na nb Sa Sb,
    (onNode (Update [cAlive]);; onNode (Update [cSuspect])) abInstance = Some ([cSuspect], ra) ∧
    onNode (Update [cSuspect]) abInstance = Some ([cSuspect], rb) ∧
    serving sampleU 2 ra na Sa ∧ serving sampleU 2 rb nb Sb ∧ view na = view nb ∧ "c" ∈ Sa ∧ "c" ∉ Sb.
Proof.
  apply (rings_diverge_on_suspects sampleU 2 cAlive cSuspect abInstance abNode {["a"; "b"]});
    [apply abInstance_serving|by vm_compute|set_solver|by vm_compute| |reflexivity..].
  by apply only_c with [cAlive]; repeat constructor.
Defined.

Lemma abInstance_answering : answering abInstance sampleRing.
Proof.
  destruct sampleRing_ok as (Hok & HS & Hrp). split.
  - reflexivity.
  - exists abNode. split; reflexivity.
  - by eexists.
  - apply sampleHash_range.
  - reflexivity.
  - exact Hok.
  - by rewrite Hrp.
  - apply sampleRing_nc. rewrite HS. apply (bool_decide_unpack _). by vm_compute.
Qed.

Lemma HandleOrForward_routes_witness :
  ∃ res r' f', HandleOrForward 4 "key" true None abInstance = Some (res, r') ∧ rp_forwarder r' = Some f' ∧
    routed "a" "key" true None (owner sampleHash (replicaPoints sampleRing) (serverSet sampleRing) "key")
      (newForwarder failEnv) res f'.
Proof.
  apply (HandleOrForward_routes abInstance "a" sampleRing (newForwarder failEnv) "key" true None);
    [apply abInstance_answering|reflexivity|reflexivity|vm_compute; discriminate..].
Defined.

(** The instance as New returns it. *)
Definition newInstance : Ringpop rbheap :=
  match New "app" [Channel (Some ("a:1", false)); HashRingConfig 2; Identity "a:1"] hashEnv failEnv with
  | Some (inl r) => r
  | _ => abInstance
  end.

Lemma api_needs_bootstrap_witness :
  WhoAmI newInstance = Some (inr ErrNotBootstrapped, newInstance) ∧
  Uptime newInstance = Some (inr ErrNotBootstrapped, newInstance) ∧
  Checksum newInstance = Some (inr ErrNotBootstrapped, newInstance) ∧
  Lookup "k" newInstance = Some (inr ErrNotBootstrapped, newInstance) ∧
  LookupN "k" 2 newInstance = Some (inr ErrNotBootstrapped, newInstance) ∧
  GetReachableMembers newInstance = Some (inr ErrNotBootstrapped, newInstance) ∧
  CountReachableMembers newInstance = Some (inr ErrNotBootstrapped, newInstance) ∧
  HandleOrForward 4 "k" true None newInstance = Some ((false, inr ErrNotBootstrapped), newInstance).
Proof. apply (api_needs_bootstrap newInstance "k" 2 4 true None). vm_compute. discriminate. Defined.

Definition noHosts : BootstrapOptions := mkBootstrapOptions None [] "" false 0 0 0 0.
Definition noFile : string → Ping.result (list string) := λ _, inr ErrProvider.

Lemma bootstrap_after_early_destroy_panics_witness :
  (Destroy;; Bootstrap noFile 1 (Some noHosts)) newInstance = None.
Proof.
  apply (bootstrap_after_early_destroy_panics newInstance noFile 1 noHosts "a:1"); vm_compute; reflexivity.
Defined.

(** A life after the first: bootstrapped, destroyed, bootstrapped again. *)
Definition secondLife : option ((list string + rpError) * Ringpop rbheap) :=
  (Bootstrap noFile 1 (Some noHosts);; Destroy;; Bootstrap noFile 1 (Some noHosts)) newInstance.

(** What can be seen of it: the answer, the states of the instance and of its
    node, the answers to a lookup and to the uptime, and the changes an update
    about an unknown member applies. *)
Definition observed (r : Ringpop rbheap) :=
  (rp_state r, state <$> rp_node r, fst <$> Lookup "k" r, fst <$> Uptime r, fst <$> onNode (Update [cAlive]) r).

Lemma secondLife_observed :
  ((λ x, (fst x, observed (snd x))) <$> secondLife) = Some (inl [], (ready_, Some (mkFlags true true false true),
    Some (inl "a:1"), Some (inl (2^63 - 1)), Some [])).
Proof. vm_compute. reflexivity. Qed.

(** A destroyed instance can come back: a single-node instance that was
    bootstrapped and destroyed can be bootstrapped again, is then ready and
    answers lookups, although its node is still stopped and destroyed and
    applies no change it hears of. *)
Theorem destroyed_instance_revives :
  ∃ r n, secondLife = Some (inl [], r) ∧
    rp_state r = ready_ ∧ rp_node r = Some n ∧ ready (state n) = true ∧
    NodeState.destroyed (state n) = true ∧ stopped (state n) = true ∧
    (fst <$> Lookup "k" r) = Some (inl "a:1") ∧ (fst <$> Uptime r) = Some (inl (2^63 - 1)) ∧
    (fst <$> onNode (Update [cAlive]) r) = Some [].
Proof.
  pose proof secondLife_observed as Ho.
  destruct secondLife as [[res r]|]; simpl in Ho; [|discriminate]. unfold observed in Ho.
  injection Ho as -> Hst Hn Hl Hu Hup. destruct (rp_node r) as [n|] eqn:Hnode; [|discriminate].
  injection Hn as Hf. exists r, n. rewrite Hf. split_and!; [reflexivity|exact Hst|exact Hnode|reflexivity..|exact Hl|exact Hu|exact Hup].
Qed.
