(* ===== verification/Converge.v ===== *)
(** * Converge: instances that hear the same gossip route alike

    The composition of membership, ring and facade: batches of changes reach
    two instances in different orders; once no member is suspected, both look
    up every key at the same owner, the one that the alive members determine. *)
From S2P Require Import Prelude GoStd TreeIface HashRing HashRingSpec Forwarder NodeState Util.
From S2P Require Import Memberlist Membership MembershipSpec UpdateSpec SwimOrder SwimProps.
From S2P Require Import RBTree RBMap RingProps Samples SwimWitness Ringpop RingpopProps RingpopLife.
#[local] Open Scope Z_scope.

(** The batches arrive one after another. *)
Definition deliver {T} `{RingTree T} (bs : list (list Change)) : M (Ringpop T) unit :=
  for_each bs (λ cs, onNode (Update cs);; mret tt).

(** What the ring of an instance is expected to hold. *)
Definition aliveMembers (v : gmap string mstate) : gset string :=
  dom (filter (λ kv : string * mstate, kv.2.2 = Alive) v).

Definition settled (v : gmap string mstate) : Prop := map_Forall (λ _ ms, ms.2 ≠ Suspect) v.

Lemma settled_servers v S : valid_view v → settled v → ring_sync v S → S = aliveMembers v.
Proof.
  intros Hv Hs Hsync. apply set_eq. intros a. unfold aliveMembers. rewrite elem_of_dom. specialize (Hsync a). unfold sync_at in Hsync.
  destruct (v !! a) as [[i st]|] eqn:Ha.
  2: { split; [done|]. intros [ms [Hms _]%map_lookup_filter_Some]. by pose proof (eq_trans (eq_sym Ha) Hms). }
  destruct Hsync as [Hin Hout]. split.
  - intros HS. exists (i, st). apply map_lookup_filter_Some. split; [done|]. simpl.
    destruct (Hv a _ Ha) as [p Hp]. pose proof (Hs a _ Ha) as Hsus. simpl in *. unfold statePrecedence in Hp.
    repeat case_bool_decide; naive_solver.
  - intros [ms [Hms Hal]%map_lookup_filter_Some]. pose proof (eq_trans (eq_sym Ha) Hms) as [= <-]. by apply Hin.
Qed.

Section converge.
Context {T : Type} `{RingTreeLaws T}.
Context (U : gset string) (P : Z) (fp : string → Z).

(** A bootstrapped instance whose ring follows its node. *)
Record routing (r : Ringpop T) (n : Node) : Prop := {
  ro_serving : ∃ S, serving U P r n S ∧ ring_sync (view n) S;
  ro_state : rp_state r = ready_;
  ro_ready : ready (state n) = true;
  ro_world : fingerprint32 (rp_world r) = fp
}.

(** A batch as a peer sends it: not empty, each member mentioned once, and no
    rumour about the receiver. *)
Definition plainBatch (addr : string) (cs : list Change) : Prop :=
  cs ≠ [] ∧ Forall valid_change cs ∧ NoDup (c_Address <$> cs) ∧
  Forall (λ c, c_Address c ∈ U ∧ harmless addr c) cs.

Lemma deliver_one cs r n :
  routing r n → plainBatch (self n) cs →
  wp (onNode (Update cs)) (λ _ r', ∃ n', routing r' n' ∧ self n' = self n ∧ view n' = foldl merge (view n) cs) r.
Proof using H0.
  intros [(S & Hsv & Hsync) Hst Hrd Hfp] (Hne & Hval & Hnd & Hadr).
  assert (∀ c, c ∈ cs → c_Address c ∈ U) as HU by (rewrite Forall_forall in Hadr; intros c Hc; by apply Hadr).
  eapply wp_mono; [by apply (Update_serving U P cs r n S)|]. intros applied r' (n' & Hu & Hsv' & Hs' & Hr' & Hw').
  assert (self n' = self n) as Hself by (unfold self; by rewrite (up_config _ _ _ _ Hu)).
  pose proof (up_abs _ _ _ _ Hu) as Habs. exists n'. split; [split|split; [done|]].
  - exists (ring_step S applied). split; [done|]. rewrite (absorbs_puts _ _ _ _ _ _ Habs). apply sync_step; [|done].
    by eapply sublist_NoDup, absorbs_addresses, Habs.
  - congruence.
  - by rewrite (up_state _ _ _ _ Hu).
  - by rewrite Hw'.
  - eapply absorbs_merge; [exact Habs|]. by eapply Forall_impl; [exact Hadr|]; intros c [_ ?].
Qed.

Lemma deliver_all bs r n :
  routing r n → Forall (plainBatch (self n)) bs →
  wp (deliver bs) (λ _ r', ∃ n', routing r' n' ∧ self n' = self n ∧ view n' = foldl merge (view n) (concat bs)) r.
Proof using H0.
  revert r n. unfold deliver. induction bs as [|cs bs IH]; intros r n Hr Hbs; simpl; [apply wp_ret; eauto|].
  apply Forall_cons in Hbs as [Hcs Hbs]. apply wp_bind, wp_bind. eapply wp_mono; [by apply deliver_one|].
  intros applied r1 (n1 & Hr1 & Hs1 & Hv1). apply wp_ret. eapply wp_mono; [apply (IH r1 n1 Hr1); by rewrite Hs1|].
  intros [] r2 (n2 & Hr2 & Hs2 & Hv2). exists n2. split_and!; [done|congruence|]. by rewrite Hv2, Hv1, foldl_app.
Qed.

(** The owner of a key is determined by the alive members. *)
Lemma routing_lookup r n key :
  1 ≤ P → routing r n → settled (view n) →
  ∃ r', Lookup key r =
    Some (from_option inl (inr ErrNoDestination) (owner fp P (aliveMembers (view n)) key), r').
Proof using H0.
  intros HP [(S & Hsv & Hsync) Hst Hrd Hfp] Hset. destruct Hsv as [Ho [Hwf Hv] Hrun _].
  rewrite <-(settled_servers (view n) S Hv Hset Hsync).
  destruct Ho as [Hn _ Hk Hh (ring & Hr & Hok & HS & Hpts & Hnc) Hsub]. subst S P.
  assert (answering r ring) as Ha.
  { split; try done; [by exists n|]. by eapply no_collision_sub, Hnc. }
  destruct (wp_run _ _ _ (Lookup_answering r ring key Ha)) as (res & r' & Hlk & _ & ->).
  exists r'. by rewrite Hlk, Hfp.
Qed.

(** C7: instances that hear the same gossip route alike: two bootstrapped instances
    start from the same membership, with the same hash function and number of
    replica points, with rings that follow their memberships and no other
    listeners on their nodes; no two replica points of the servers in play have
    the same hash value.  Both receive the
    same changes, in batches of their own and in any order; a batch mentions no
    member twice and holds no rumour about the receiver.  Then both look up
    every key at the same owner once no member is suspected: the one that the
    alive members of the merged membership determine. *)
Theorem converged_instances_route_alike bs1 bs2 r1 r2 n1 n2 :
  1 ≤ P → routing r1 n1 → routing r2 n2 → view n1 = view n2 →
  Forall (plainBatch (self n1)) bs1 → Forall (plainBatch (self n2)) bs2 → (∀ c, c ∈ concat bs1 ↔ c ∈ concat bs2) →
  let v := foldl merge (view n1) (concat bs1) in
  settled v →
  ∃ r1' r2', deliver bs1 r1 = Some (tt, r1') ∧ deliver bs2 r2 = Some (tt, r2') ∧
    ∀ key,
      let answer := from_option inl (inr ErrNoDestination) (owner fp P (aliveMembers v) key) in
      (∃ r, Lookup key r1' = Some (answer, r)) ∧ (∃ r, Lookup key r2' = Some (answer, r)).
Proof using H0.
  intros HP H1 H2 Hview Hb1 Hb2 Hsame v Hset.
  destruct (wp_run _ _ _ (deliver_all bs1 r1 n1 H1 Hb1)) as ([] & r1' & Hd1 & n1' & Hr1 & _ & Hv1).
  destruct (wp_run _ _ _ (deliver_all bs2 r2 n2 H2 Hb2)) as ([] & r2' & Hd2 & n2' & Hr2 & _ & Hv2).
  exists r1', r2'. split; [done|]. split; [done|]. fold v in Hv1.
  assert (view n2' = v) as Hv2'.
  { rewrite Hv2, <-Hview. unfold v. symmetry. apply merges_set; [| |done].
    - destruct (ro_serving _ _ H1) as (S & Hsv & _). apply (sv_inv _ _ _ _ _ Hsv).
    - apply Forall_concat. eapply Forall_impl; [exact Hb1|]. by intros cs (_ & ? & _). }
  intros key. rewrite <-Hv1 in Hset |- *. split; [by apply routing_lookup|].
  rewrite Hv1, <-Hv2' in Hset |- *. by apply routing_lookup.
Qed.
End converge.

(** ** Two instances that hear of c in opposite orders *)
Definition nodeA : Node := joined "a" [sampleChange "b" 1 Alive].
Definition nodeB : Node := joined "b" [sampleChange "a" 1 Alive].

Lemma ab_view : view nodeA = {["a" := (1, Alive); "b" := (1, Alive)]} ∧ view nodeB = view nodeA.
Proof. split; vm_compute; reflexivity. Qed.

Lemma ab_routing :
  routing sampleU 2 sampleHash (instanceOf "a" nodeA) nodeA ∧ routing sampleU 2 sampleHash (instanceOf "b" nodeB) nodeB.
Proof.
  destruct ab_view as [Ha Hb]. split; (split; [|reflexivity..]); eexists; (split; [apply joined_serving; known|]).
  - rewrite Ha. apply both_sync.
  - rewrite Hb, Ha. apply both_sync.
Qed.

Lemma c_batch a c : a ≠ "c" → c_Address c = "c" → valid_change c → plainBatch sampleU a [c].
Proof.
  intros Ha Hc Hv. split_and!; [done|by constructor|by apply NoDup_singleton|]. constructor; [|done]. rewrite Hc.
  split; [|intros Ha'; congruence]. apply (bool_decide_unpack _). by vm_compute.
Qed.

Lemma converged_instances_route_alike_witness :
  ∃ r1 r2, deliver [[cSuspect]; [cBack]] (instanceOf "a" nodeA) = Some (tt, r1) ∧
    deliver [[cBack]; [cSuspect]] (instanceOf "b" nodeB) = Some (tt, r2) ∧
    ∀ key,
      let answer := from_option inl (inr ErrNoDestination)
        (owner sampleHash 2 (aliveMembers (foldl merge (view nodeA) [cSuspect; cBack])) key) in
      (∃ r, Lookup key r1 = Some (answer, r)) ∧ (∃ r, Lookup key r2 = Some (answer, r)).
Proof.
  destruct ab_routing as [Ha Hb].
  apply (converged_instances_route_alike sampleU 2 sampleHash [[cSuspect]; [cBack]] [[cBack]; [cSuspect]]
    (instanceOf "a" nodeA) (instanceOf "b" nodeB) nodeA nodeB).
  - lia.
  - exact Ha.
  - exact Hb.
  - symmetry. apply ab_view.
  - repeat (constructor; [apply c_batch; [vm_compute; discriminate|reflexivity|by eexists]|]). constructor.
  - repeat (constructor; [apply c_batch; [vm_compute; discriminate|reflexivity|by eexists]|]). constructor.
  - intros c. simpl. set_solver.
  - rewrite (proj1 ab_view). apply (bool_decide_unpack _). vm_compute. reflexivity.
Defined.
