(* ===== verification/StatsWitness.v ===== *)
(** * StatsWitness: the theorems about metrics and statistics at concrete states *)
From S2P Require Import Prelude GoStd TreeIface RBTree RBMap HashRing HashRingSpec RingProps Forwarder NodeState Util.
From S2P Require Import Memberlist Disseminator Suspicion Rollup Membership MembershipSpec MemberIter Ping NodeCore.
From S2P Require Import SwimProps Samples JoinDelayer JoinSender Ringpop Metrics Stats.
#[local] Open Scope Z_scope.

(** A new node whose timing is sampled by the library. *)
Definition sampledEnv : Env :=
  mkEnv (times sampleEnv) (rands sampleEnv) (orders sampleEnv) (pings sampleEnv) (pingReqs sampleEnv)
    (joins sampleEnv) (fingerprint32 sampleEnv) (timingMedian (λ k, k)).
Definition sampledNode : Node := NewNode "app" "a" true None sampledEnv.

Lemma protocol_rate_bounded_witness :
  ∃ n', AdjustProtocolRate sampledNode = Some (tt, n') ∧ n' = with_gossip sampledNode (n_gossip n') ∧
    timing (n_gossip n') = timing (n_gossip sampledNode) ∧
    minProtocolPeriod (n_gossip sampledNode) ≤ lastRate (n_gossip n') ≤
      Z.max (minProtocolPeriod (n_gossip sampledNode)) (2 * 200000000).
Proof.
  apply (protocol_rate_bounded (λ k, k) sampledNode 200000000).
  - reflexivity.
  - discriminate.
  - intros x Hx. apply list_elem_of_singleton in Hx. subst x. split; vm_compute; discriminate.
Defined.

(** An instance around the node "a" and a ring of two servers. *)
Definition statsRingpop : Ringpop rbheap :=
  mkRingpop "app" 0 2 None None initialized (Some aNode) (Some sampleRing) None [] [] [] "" None None None
    sampleEnv (mkFwEnv (λ _, BeginCallError) (λ _ _, None) (λ _, [])) 0.

Lemma handleStats_reports_witness :
  ∃ s r', handleStats Z.div (λ _, 0) Z.sqrt (λ k, k) (mkMemStats 1 2 3) 42 (0, 0, 0) "2" statsRingpop = Some (s, r') ∧
    entry <$> (st_membership s).2 ≡ₚ map_to_list (view aNode) ∧ st_servers s ≡ₚ elements (serverSet sampleRing).
Proof.
  destruct (handleStats_reports Z.div (λ _, 0) Z.sqrt (λ k, k) (mkMemStats 1 2 3) 42 (0, 0, 0) "2"
    statsRingpop aNode sampleRing eq_refl eq_refl (proj1 aNode_running))
    as (s & r' & Hrun & _ & Hms & _ & _ & Hsv & _).
  exists s, r'. split; [exact Hrun|]. split; [exact Hms|exact Hsv].
Defined.
