(* ===== verification/Racing.v ===== *)
(** * Racing: two updates at once

    [Update] applies its changes while it holds the lock of the member list,
    and only after it has released the lock it recomputes the checksum,
    announces the changes to the ring, records them with the disseminator and
    the timers, one by one, and hands them to the rollup.  It is called from
    the gossip loop, from the handlers of requests and from timers, so the
    announcements of two updates can come in the opposite order of their
    applications.  Updates about different members do no harm in any order; two
    about the same member can leave the ring with the older one.  A goroutine
    may stay at any of these points for ever: inside the rollup two of them can
    block each other ([RollupLocks]), so nothing here says that all of them
    return. *)
From S2P Require Import Prelude GoStd TreeIface RBTree RBMap HashRing HashRingSpec RingProps Forwarder ForwarderSpec NodeState.
From S2P Require Import Memberlist Disseminator Suspicion Rollup Membership MembershipSpec UpdateSpec SwimOrder SwimProps.
From S2P Require Import Samples Ringpop RingpopProps RingpopLife.
#[local] Open Scope Z_scope.

(** What Update tells the listeners, of which the ring of the instance is one. *)
Definition announceApplied (applied : list Change) (oldChecksum : Z) : SW unit :=
  newChecksum ← Memberlist.Checksum;
  num ← NumMembers;
  emit (MemberlistChangesAppliedEvent applied oldChecksum newChecksum num).

(** A goroutine in Update: before the section under the lock; then, with the
    changes it applied, before the checksum, before the announcement, and in the
    loop of handleChanges with the changes still to be recorded, after which
    comes TrackUpdates. *)
Inductive updater : Type :=
| Updating (cs : list Change)
| Summing (applied : list Change)
| Announcing (applied : list Change) (oldChecksum : Z)
| Recording (applied todo : list Change)
| Updated.

Definition updaterStep {T} `{RingTree T} (u : updater) : M (Ringpop T) updater :=
  match u with
  | Updating cs =>
      applied ← onNode (updateLocked cs);
      mret (if bool_decide (0 < length applied)%nat then Summing applied else Updated)
  | Summing applied =>
      oldChecksum ← onNode Memberlist.Checksum;
      onNode ComputeChecksum;;
      mret (Announcing applied oldChecksum)
  | Announcing applied oldChecksum =>
      onNode (announceApplied applied oldChecksum);;
      mret (Recording applied applied)
  | Recording applied (c :: todo) => onNode (handleChange c);; mret (Recording applied todo)
  | Recording applied [] => onNode (TrackUpdates applied);; mret Updated
  | Updated => mret Updated
  end.

(** In a row these are [Update]. *)
Lemma Update_moves cs n :
  Update cs n =
    (applied ← updateLocked cs;
     when (bool_decide (0 < length applied)%nat)
       (oldChecksum ← Memberlist.Checksum;
        ComputeChecksum;;
        announceApplied applied oldChecksum;;
        for_each applied handleChange;;
        TrackUpdates applied;;
        mret tt);;
     mret applied) n.
Proof.
  rewrite Update_halves. unfold updateAnnounce, announceApplied, handleChanges, when, mbind, M_bind.
  destruct (updateLocked cs n) as [[applied n1]|]; [|done]. case_bool_decide; [|done]. simpl.
  by destruct (ComputeChecksum n1) as [[[] n2]|].
Qed.

(** A turn of the [j]th goroutine, or what anybody else does to the rollup: its
    timer, and goroutines that are half way through TrackUpdates. *)
Inductive move : Type := Turn (j : nat) | RollupMoves (ro : updateRollup).

Fixpoint interleave {T} `{RingTree T} (ms : list move) (us : list updater) : M (Ringpop T) (list updater) :=
  match ms with
  | [] => mret us
  | RollupMoves ro :: ms => onNode (modify_rol (λ _, ro));; interleave ms us
  | Turn j :: ms =>
      match us !! j with
      | None => interleave ms us
      | Some u => u' ← updaterStep u; interleave ms (<[j := u']> us)
      end
  end.

Fixpoint turns (j : nat) (ms : list move) : nat :=
  match ms with
  | [] => 0
  | Turn i :: ms => (if bool_decide (i = j) then 1 else 0) + turns j ms
  | RollupMoves _ :: ms => turns j ms
  end.

(** ** The two halves of an update *)
Lemma updateLocked_spec cs n :
  node_inv n → Forall valid_change cs →
  wp (updateLocked cs) (λ applied n', node_inv n' ∧ ml_only n n' ∧ ∃ r, absorbs (self n) r (view n) cs applied (view n') ∨
    (stopped (state n) = true ∧ applied = [] ∧ n' = n)) n.
Proof.
  intros [Hwf Hv] Hcs. unfold updateLocked. apply wp_bind, wp_gets. destruct (stopped (state n)) eqn:Hs; simpl.
  { apply wp_ret. split_and!; [done|done|]. exists []. by right. }
  case_bool_decide as Hlen.
  { apply wp_ret. split_and!; [done|done|]. exists []. left. destruct cs; [constructor|done]. }
  apply wp_bind, wp_emit. set (n0 := with_emitted _ _). eapply wp_mono; [by apply (updateLoop_spec cs n0)|].
  intros applied n1 (Hwf1 & Hmo & Hv1 & Habs). split_and!; [done|by destruct Hmo; split|eauto].
Qed.

(** What comes after the lock leaves the members alone. *)
Record announced (n n' : Node) : Prop := {
  an_inv : node_inv n';
  an_view : view n' = view n;
  an_cfg : config n' = config n;
  an_flags : state n' = state n;
  an_lst : listeners n' = listeners n
}.

(** It is enough that the member list differs in its checksum only. *)
Lemma announced_by n n' :
  node_inv n → config n' = config n → state n' = state n → listeners n' = listeners n →
  (n_memberlist n' = n_memberlist n ∨ ∃ k, n_memberlist n' = set_checksum k (n_memberlist n)) → announced n n'.
Proof.
  intros [Hwf Hv] Hc Hs Hl Hml.
  assert (view n' = view n) as Hview by (unfold view; by destruct Hml as [->|[k ->]]).
  split; [|done..]. split; [|by rewrite Hview]. unfold ml_wf, self in *. rewrite Hc.
  destruct Hml as [->|[k ->]]; [done|]. by destruct Hwf.
Qed.

Lemma ComputeChecksum_announced n : node_inv n → wp ComputeChecksum (λ _, announced n) n.
Proof.
  intros Hi. eapply wp_mono; [apply ComputeChecksum_spec, Hi|]. intros [] n2 [Hmo Hml].
  apply announced_by; [done|apply Hmo|apply Hmo|apply Hmo|right; eauto].
Qed.

Lemma handleChange_announced c n : node_inv n → wp (handleChange c) (λ _, announced n) n.
Proof.
  intros Hi. eapply wp_mono; [apply handleChange_spec, Hi|]. intros [] n2 Hh.
  apply announced_by; [done|apply Hh|apply Hh|apply Hh|left; apply Hh].
Qed.

Lemma TrackUpdates_announced cs n : node_inv n → wp (TrackUpdates cs) (λ _, announced n) n.
Proof.
  intros Hi. eapply wp_mono; [apply TrackUpdates_spec|]. intros b n2 Hr.
  apply announced_by; [done|apply Hr|apply Hr|apply Hr|left; apply Hr].
Qed.

(** ** Updates about different members *)
Lemma concat_NoDup {A B} (f : A → B) ls l : NoDup (f <$> concat ls) → l ∈ ls → NoDup (f <$> l).
Proof.
  intros Hnd (l1 & l2 & ->)%list_elem_of_split. rewrite concat_app, fmap_app in Hnd. simpl in Hnd. rewrite fmap_app in Hnd.
  apply NoDup_app in Hnd as (_ & _ & Hnd). by apply NoDup_app in Hnd as [? _].
Qed.

Lemma concat_disjoint {A B} (f : A → B) ls i j l l' :
  NoDup (f <$> concat ls) → ls !! i = Some l → ls !! j = Some l' → i ≠ j → f <$> l ## f <$> l'.
Proof.
  assert (∀ ls i j l l', NoDup (f <$> concat ls) → ls !! i = Some l → ls !! j = Some l' → (i < j)%nat → f <$> l ## f <$> l') as Hlt.
  { clear. intros ls. induction ls as [|x ls IH]; intros i j l l' Hnd Hi Hj Hij; [done|].
    simpl in Hnd. rewrite fmap_app in Hnd. apply NoDup_app in Hnd as (_ & Hout & Hnd).
    destruct j as [|j]; [lia|]. destruct i as [|i]; simpl in *; [|eapply (IH i j); (done || lia)]. simplify_eq.
    intros b Hb Hb'. apply (Hout b Hb). apply list_elem_of_fmap in Hb' as (c & -> & Hc). apply list_elem_of_fmap_2.
    apply list_elem_of_In, in_concat. exists l'. rewrite <-!list_elem_of_In. split; [by eapply list_elem_of_lookup_2|done]. }
  intros Hnd Hi Hj Hij. destruct (decide (i < j)%nat); [by eapply Hlt|].
  intros b Hb Hb'. revert b Hb' Hb. change (f <$> l' ## f <$> l). eapply (Hlt ls j i); (done || lia).
Qed.

Section racing.
Context {T : Type} `{RingTreeLaws T}.
Context (U : gset string) (P : Z).

(** The members that an updater has yet to announce changes about, whether it
    has applied these already, and the turns it has left until the announcement. *)
Definition members (u : updater) : list string :=
  match u with Updating cs | Summing cs | Announcing cs _ => c_Address <$> cs | Recording _ _ | Updated => [] end.
Definition announces (a : string) (u : updater) : Prop :=
  match u with Summing cs | Announcing cs _ => a ∈ c_Address <$> cs | _ => False end.
Definition untilAnnounced (u : updater) : nat :=
  match u with Updating _ => 3 | Summing _ => 2 | Announcing _ _ => 1 | _ => 0 end.

(** Each updater mentions a member once, and no two the same one. *)
Definition apart (us : list updater) : Prop :=
  ∀ i j u u', us !! i = Some u → us !! j = Some u' → i ≠ j → members u ## members u'.

Definition goodUpdater (n : Node) (u : updater) : Prop :=
  NoDup (members u) ∧ (∀ a, a ∈ members u → a ∈ U) ∧
  match u with
  | Updating cs => Forall valid_change cs
  | Summing cs | Announcing cs _ => ∀ c, c ∈ cs → view n !! c_Address c = Some (cstate c)
  | Recording _ _ | Updated => True
  end.

(** The ring agrees with the membership but for what is yet to be announced. *)
Record raceInv (us : list updater) (r : Ringpop T) (n : Node) (S : gset string) : Prop := {
  ri_serving : serving U P r n S;
  ri_apart : apart us;
  ri_good : Forall (goodUpdater n) us;
  ri_sync : ∀ a, Forall (λ u, ¬ announces a u) us → sync_at (view n) S a
}.

Lemma announces_member a u : announces a u → a ∈ members u.
Proof using. by destruct u. Qed.

(** Replacing an updater by one about no more members keeps them apart. *)
Lemma apart_insert us j u u' : us !! j = Some u → members u' ⊆ members u → apart us → apart (<[j := u']> us).
Proof using.
  intros Hj Hsub Hap i k x x' Hx Hx' Hik.
  assert (∀ i x, <[j := u']> us !! i = Some x → ∃ y, us !! i = Some y ∧ members x ⊆ members y) as Hold.
  { intros i' y Hy. destruct (decide (i' = j)) as [->|Hne]; [|rewrite list_lookup_insert_ne in Hy by done; eauto].
    apply list_lookup_insert_Some in Hy as [(_ & -> & _)|[]]; eauto. }
  destruct (Hold _ _ Hx) as (y & Hy & Hsy), (Hold _ _ Hx') as (y' & Hy' & Hsy'). specialize (Hap i k y y' Hy Hy' Hik).
  set_solver.
Qed.

(** The others do not care about a change of the view elsewhere. *)
Lemma good_others us j u n n' :
  apart us → us !! j = Some u → Forall (goodUpdater n) us → (∀ a, a ∉ members u → view n' !! a = view n !! a) →
  ∀ i x, us !! i = Some x → i ≠ j → goodUpdater n' x.
Proof using.
  intros Hap Hj Hgood Hview i x Hx Hij. rewrite Forall_lookup in Hgood. destruct (Hgood i x Hx) as (Hnd & HU & Hx').
  split_and!; [done|done|]. specialize (Hap i j x u Hx Hj Hij).
  destruct x as [cs|cs|cs k| |]; [done| | |done|done].
  all: intros c Hc; rewrite Hview; [by apply Hx'|]; intros Hin; apply (Hap (c_Address c)); [|done].
  all: by apply (list_elem_of_fmap_2 c_Address).
Qed.

Lemma good_insert us j u u' n n' :
  apart us → us !! j = Some u → Forall (goodUpdater n) us → (∀ a, a ∉ members u → view n' !! a = view n !! a) →
  goodUpdater n' u' → Forall (goodUpdater n') (<[j := u']> us).
Proof using.
  intros Hap Hj Hgood Hview Hu'. apply Forall_lookup. intros i x Hx.
  apply list_lookup_insert_Some in Hx as [(-> & <- & _)|[Hij Hx]]; [done|]. by eapply (good_others us j u n).
Qed.

(** A goroutine goes on to a point where it has the same changes, or none, to
    announce. *)
Lemma raceInv_replace us j u u' r n S :
  raceInv us r n S → us !! j = Some u → members u' ⊆ members u → goodUpdater n u' →
  (∀ a, announces a u → announces a u') → raceInv (<[j := u']> us) r n S.
Proof using.
  intros [Hsv Hap Hgood Hsync] Hj Hsub Hu' Han. split; [done|by eapply apart_insert|by eapply good_insert|].
  intros a Ha. apply Hsync, Forall_lookup. rewrite Forall_lookup in Ha. intros i x Hx.
  destruct (decide (i = j)) as [->|Hij]; [|apply (Ha i x); by rewrite list_lookup_insert_ne].
  rewrite Hj in Hx. simplify_eq. intros Hax. apply (Ha j u'); [|by apply Han].
  apply list_lookup_insert_eq. by eapply lookup_lt_Some.
Qed.

(** What comes after the lock and is no announcement does not matter to the ring. *)
Lemma steady_op {A} (m : SW A) us r n S :
  raceInv us r n S → quiet m → wp m (λ _, announced n) n →
  wp (onNode m) (λ _ r', ∃ n', raceInv us r' n' S) r.
Proof using H0.
  intros [Hsv Hap Hgood Hsync] Hq Hm. pose proof Hsv as [Ho Hi Hst Hl].
  destruct (wp_run _ _ _ Hm) as (a & n' & Hrun & Han). pose proof (quiet_run _ _ _ _ Hrun Hq) as He.
  eapply wp_mono; [apply (onNode_emits U P _ r n S a n' [] Ho Hrun (proj1 (an_inv _ _ Han)) He)|].
  { intros l ? Hin. by apply elem_of_nil in Hin. }
  intros x r' (-> & Ho' & _). simpl in Ho'. exists n'. split.
  - split; [done|apply Han|by rewrite (an_flags _ _ Han)|by rewrite (an_lst _ _ Han)].
  - done.
  - eapply Forall_impl; [exact Hgood|]. intros u. unfold goodUpdater. by rewrite (an_view _ _ Han).
  - intros b Hb. rewrite (an_view _ _ Han). by apply Hsync.
Qed.

(** A goroutine applies its changes. *)
Lemma apply_step us j cs r n S :
  raceInv us r n S → us !! j = Some (Updating cs) →
  wp (updaterStep (Updating cs)) (λ u' r', (untilAnnounced u' ≤ 2)%nat ∧ ∃ n', raceInv (<[j := u']> us) r' n' S) r.
Proof using H0.
  intros [Hsv Hap Hgood Hsync] Hj. pose proof Hsv as [Ho Hi Hst Hl].
  pose proof (proj1 (Forall_lookup _ _) Hgood j _ Hj) as (Hnd & HU & Hval).
  destruct (wp_run _ _ _ (updateLocked_spec cs n Hi Hval)) as (applied & n' & Hrun & Hi' & Hmo & rd & [Habs|(Hs & _)]);
    [|congruence].
  pose proof (quiet_updateLocked cs n applied n' Hrun) as He.
  simpl. apply wp_bind. eapply wp_mono; [apply (onNode_emits U P _ r n S applied n' [] Ho Hrun (proj1 Hi') He)|].
  { intros l ? Hin. by apply elem_of_nil in Hin. }
  intros x r' (-> & Ho' & _). apply wp_ret. simpl in Ho'. set (u' := if bool_decide _ then _ else _).
  assert (members u' = c_Address <$> applied ∧ (∀ a, announces a u' ↔ a ∈ c_Address <$> applied)) as [Hmem' Han].
  { unfold u'. destruct applied as [|c l]; [|done]. split; [done|]. intros a. simpl. by rewrite elem_of_nil. }
  split; [unfold u'; by case_bool_decide; simpl; lia|]. exists n'.
  pose proof (absorbs_addresses _ _ _ _ _ _ Habs) as Hsub.
  assert (members u' ⊆ members (Updating cs)) as Hmem by (rewrite Hmem'; intros a Ha; by eapply elem_of_sublist).
  assert (∀ a, a ∉ members (Updating cs) → view n' !! a = view n !! a) as Hview.
  { intros a Ha. by eapply absorbs_outside. }
  assert (NoDup (c_Address <$> applied)) as Hnd' by by eapply sublist_NoDup.
  split.
  - split; [done|done|by rewrite (mo_state _ _ Hmo)|by rewrite (mo_lst _ _ Hmo)].
  - by eapply apart_insert.
  - eapply good_insert; [done|done|done|done|]. split_and!; [by rewrite Hmem'|intros a Ha; apply HU; by apply Hmem|].
    unfold u'. case_bool_decide; [|done].
    intros c Hc. rewrite (absorbs_puts _ _ _ _ _ _ Habs). by apply lookup_puts_in.
  - intros a Ha. rewrite Forall_lookup in Ha.
    assert (a ∉ c_Address <$> applied) as Hout.
    { rewrite <-Han. apply (Ha j u'). apply list_lookup_insert_eq. by eapply lookup_lt_Some. }
    unfold sync_at. rewrite (absorbs_puts _ _ _ _ _ _ Habs), lookup_puts_out by done. apply Hsync.
    apply Forall_lookup. intros i u Hu. destruct (decide (i = j)) as [->|Hij].
    + rewrite Hj in Hu. simplify_eq. by intros [].
    + apply (Ha i u). by rewrite list_lookup_insert_ne.
Qed.

Lemma announceApplied_emits applied k n :
  ∃ n', announceApplied applied k n = Some (tt, n') ∧ emits n n' ((λ l, (l, applied)) <$> NodeState.listeners n) ∧
    n_memberlist n' = n_memberlist n ∧ config n' = config n ∧ state n' = state n ∧ listeners n' = listeners n.
Proof using.
  eexists. split; [reflexivity|]. split_and!; [|done..]. split; [done|]. eexists. split; [done|].
  clear. unfold applied_of. simpl. induction (NodeState.listeners n) as [|l ls IH]; [done|]. simpl. by f_equal.
Qed.

(** A goroutine announces what it applied. *)
Lemma announce_step us j applied k r n S :
  raceInv us r n S → us !! j = Some (Announcing applied k) →
  wp (updaterStep (Announcing applied k))
    (λ u' r', untilAnnounced u' = 0%nat ∧ ∃ n' S', raceInv (<[j := u']> us) r' n' S') r.
Proof using H0.
  intros [Hsv Hap Hgood Hsync] Hj. pose proof Hsv as [Ho Hi Hst Hl].
  pose proof (proj1 (Forall_lookup _ _) Hgood j _ Hj) as (Hnd & HU & Hbel).
  destruct (announceApplied_emits applied k n) as (n' & Hrun & He & Hml & Hcf & Hsta & Hlst).
  assert (announced n n') as Han by (apply announced_by; eauto).
  simpl. apply wp_bind.
  eapply wp_mono; [apply (onNode_emits U P _ r n S tt n' _ Ho Hrun (proj1 (an_inv _ _ Han)) He)|].
  { intros l cs Hin c Hc. apply list_elem_of_fmap in Hin as (? & [= -> ->] & _). apply HU.
    by apply (list_elem_of_fmap_2 c_Address). }
  intros [] r' (_ & Ho' & _). rewrite Hl in Ho'. simpl in Ho'. apply wp_ret. split; [done|].
  exists n', (ring_step S applied). split.
  - split; [done|apply Han|by rewrite (an_flags _ _ Han)|by rewrite (an_lst _ _ Han)].
  - eapply apart_insert; [done|set_solver|done].
  - eapply good_insert; [done|done|done|by rewrite (an_view _ _ Han)|]. split_and!; [constructor|set_solver|done].
  - intros a Ha. rewrite (an_view _ _ Han). destruct (decide (a ∈ c_Address <$> applied)) as [Hin|Hout].
    + apply list_elem_of_fmap in Hin as (c & -> & Hc). apply sync_at_in; [done|done|by apply Hbel].
    + apply (sync_at_out (view n)); [done|done|done|]. apply Hsync, Forall_lookup. intros i u Hu.
      destruct (decide (i = j)) as [->|Hij]; [rewrite Hj in Hu; by simplify_eq|].
      rewrite Forall_lookup in Ha. apply (Ha i u). by rewrite list_lookup_insert_ne.
Qed.

(** Any turn of a goroutine. *)
Lemma race_step us j u r n S :
  raceInv us r n S → us !! j = Some u →
  wp (updaterStep u) (λ u' r', (untilAnnounced u' ≤ untilAnnounced u - 1)%nat ∧ ∃ n' S', raceInv (<[j := u']> us) r' n' S') r.
Proof using H0.
  intros Hinv Hj. pose proof (proj1 (Forall_lookup _ _) (ri_good _ _ _ _ Hinv) j _ Hj) as Hgood.
  assert (∀ r n, raceInv us r n S → node_inv n) as Hni by (intros ? ? Hx; apply (ri_serving _ _ _ _ Hx)).
  assert (∀ us' r' n', raceInv us' r' n' S → ∃ n'' S', raceInv us' r' n'' S') as Hex by eauto.
  destruct u as [cs|cs|cs k|cs [|c todo]|].
  - eapply wp_mono; [by apply (apply_step us j cs r n S)|]. intros u' r' (Hu & n' & Hr). split; [done|eauto].
  - simpl. apply wp_bind. eapply wp_mono; [apply (steady_op Memberlist.Checksum us r n S Hinv)|].
    { unfold Memberlist.Checksum. solve_quiet. }
    { apply wp_gets. apply announced_by; [by eapply Hni|done..|by left]. }
    intros k r1 (n1 & Hr1). apply wp_bind.
    eapply wp_mono; [apply (steady_op ComputeChecksum us r1 n1 S Hr1); [auto with quiet|apply ComputeChecksum_announced; by eapply Hni]|].
    intros _ r2 (n2 & Hr2). apply wp_ret. split; [simpl; lia|]. exists n2, S.
    pose proof (proj1 (Forall_lookup _ _) (ri_good _ _ _ _ Hr2) j _ Hj) as Hgood2.
    by eapply (raceInv_replace us j (Summing cs)).
  - eapply wp_mono; [by apply (announce_step us j cs k r n S)|]. intros u' r' (Hu & n' & S' & Hr). split; [lia|eauto].
  - simpl. apply wp_bind.
    eapply wp_mono; [apply (steady_op (TrackUpdates cs) us r n S Hinv); [auto with quiet|apply TrackUpdates_announced; by eapply Hni]|].
    intros _ r1 (n1 & Hr1). apply wp_ret. split; [done|]. exists n1, S. by eapply (raceInv_replace us j (Recording cs [])).
  - simpl. apply wp_bind.
    eapply wp_mono; [apply (steady_op (handleChange c) us r n S Hinv); [|apply handleChange_announced; by eapply Hni]|].
    { apply quiet_handleChange. }
    intros _ r1 (n1 & Hr1). apply wp_ret. split; [done|]. exists n1, S. by eapply (raceInv_replace us j (Recording cs (c :: todo))).
  - apply wp_ret. split; [done|]. exists n, S. by eapply (raceInv_replace us j Updated).
Qed.

(** Any schedule. *)
Lemma race_runs ms us r n S :
  raceInv us r n S →
  wp (interleave ms us) (λ us' r', (∃ n' S', raceInv us' r' n' S') ∧
    ∀ j u', us' !! j = Some u' → ∃ u, us !! j = Some u ∧ (untilAnnounced u' ≤ untilAnnounced u - turns j ms)%nat) r.
Proof using H0.
  revert us r n S. induction ms as [|[i|ro] ms IH]; intros us r n S Hinv; simpl.
  - apply wp_ret. split; [eauto|]. intros j u' Hu. exists u'. split; [done|lia].
  - destruct (us !! i) as [u|] eqn:Hi.
    2: { eapply wp_mono; [by apply (IH us r n S)|]. intros us' r' [? Hleft]. split; [done|]. intros j u' Hu'.
         destruct (Hleft j u' Hu') as (u & Hu & ?). exists u. split; [done|]. case_bool_decide; [congruence|lia]. }
    apply wp_bind. eapply wp_mono; [by apply (race_step us i u r n S)|]. intros u1 r1 (Hu1 & n1 & S1 & Hinv1).
    eapply wp_mono; [by apply (IH (<[i := u1]> us) r1 n1 S1)|]. intros us' r' [? Hleft]. split; [done|]. intros j u' Hu'.
    destruct (Hleft j u' Hu') as (x & Hx & ?). apply list_lookup_insert_Some in Hx as [(-> & <- & _)|[Hij Hx]].
    + exists u. split; [done|]. rewrite bool_decide_true by done. lia.
    + exists x. split; [done|]. rewrite bool_decide_false by done. lia.
  - apply wp_bind. eapply wp_mono; [apply (steady_op (modify_rol (λ _, ro)) us r n S Hinv)|].
    { unfold modify_rol. solve_quiet. }
    { apply wp_modify. apply announced_by; [apply (ri_serving _ _ _ _ Hinv)|done..|by left]. }
    intros _ r1 (n1 & Hr1). by apply (IH us r1 n1 S).
Qed.

(** C8: racing updates about different members are harmless: each of some goroutines
    calls Update, with known statuses and at most one change per member, on an
    instance whose ring agrees with its membership; no two of them mention the
    same member, no two replica points in play have the same hash value and the
    node has no other listener.  Whatever turns the goroutines get (they may
    stop anywhere, also inside the rollup, where they can block each other, and
    the rollup may do anything in between), there is no panic; the ring agrees
    with the membership (alive members on it, faulty, departed and unknown ones
    not) at every member about which no goroutine has applied a change that it
    has yet to announce; and it agrees everywhere once every goroutine has had
    three turns: the update under the lock, the checksum, the announcement. *)
Theorem disjoint_updates_race_safely css ms r n S :
  serving U P r n S → ring_sync (view n) S →
  (∀ cs c, cs ∈ css → c ∈ cs → valid_change c ∧ c_Address c ∈ U) → NoDup (c_Address <$> concat css) →
  ∃ us r' n' S', interleave ms (Updating <$> css) r = Some (us, r') ∧ serving U P r' n' S' ∧
    (∀ a, Forall (λ u, ¬ announces a u) us → sync_at (view n') S' a) ∧
    ((∀ j, (j < length css)%nat → (3 ≤ turns j ms)%nat) → ring_sync (view n') S').
Proof using H0.
  intros Hsv Hsync Hcs Hnd.
  assert (raceInv (Updating <$> css) r n S) as Hinv.
  { split; [done| | |].
    - intros i j u u' Hi Hj Hij. apply list_lookup_fmap_Some in Hi as (cs & -> & Hi), Hj as (cs' & -> & Hj). simpl.
      by eapply (concat_disjoint c_Address css).
    - apply Forall_fmap, Forall_forall. intros cs Hin. split_and!; simpl.
      + by eapply (concat_NoDup c_Address css).
      + intros a (c & -> & Hc)%list_elem_of_fmap. by apply (Hcs cs).
      + apply Forall_forall. intros c Hc. by apply (Hcs cs).
    - intros a _. apply Hsync. }
  destruct (wp_run _ _ _ (race_runs ms _ r n S Hinv)) as (us & r' & Hrun & (n' & S' & Hinv') & Hleft).
  exists us, r', n', S'. split_and!; [done|apply Hinv'|apply (ri_sync _ _ _ _ Hinv')|]. intros Hall a.
  apply (ri_sync _ _ _ _ Hinv'), Forall_lookup. intros j u Hu. destruct (Hleft j u Hu) as (x & Hx & Hle).
  apply list_lookup_fmap_Some in Hx as (cs & -> & Hx). apply lookup_lt_Some, Hall in Hx. simpl in Hle.
  destruct u; simpl in *; (lia || done).
Qed.
End racing.

Definition cGone : Change := sampleChange "c" 4 Faulty.
Definition twoUpdates : list updater := [Updating [cAlive]; Updating [cGone]].

(** What a node believes of "c", and whether "c" is on the ring. *)
Definition believes (x : option (list updater * Ringpop rbheap)) : option (list updater * option mstate * bool) :=
  x ≫= λ '(us, r),
    n ← rp_node r; ring ← rp_ring r;
    Some (us, view n !! "c", bool_decide ("c" ∈ serverSet ring)).

(** Updates that run one after the other keep the ring in step with the
    membership; when the second is applied and announced between the
    application and the announcement of the first, a faulty member is left on
    the ring. *)
Lemma racing_updates_leave_faulty_on_ring :
  believes (interleave (Turn <$> [0; 0; 0; 0; 0; 1; 1; 1; 1; 1]%nat) twoUpdates abInstance) =
    Some ([Updated; Updated], Some (4, Faulty), false) ∧
  believes (interleave (Turn <$> [0; 1; 1; 1; 1; 1; 0; 0; 0; 0]%nat) twoUpdates abInstance) =
    Some ([Updated; Updated], Some (4, Faulty), true).
Proof. split; vm_compute; reflexivity. Qed.

(** "b" is applied and announced before "c", which was applied first. *)
Definition overtaking : list move := Turn <$> [0; 1; 1; 1; 0; 0]%nat.

Lemma disjoint_updates_race_safely_witness :
  ∃ us r' n' S', interleave overtaking [Updating [cAlive]; Updating [sampleChange "b" 6 Faulty]] abInstance = Some (us, r') ∧
    serving sampleU 2 r' n' S' ∧ (∀ a, Forall (λ u, ¬ announces a u) us → sync_at (view n') S' a) ∧
    ((∀ j, (j < 2)%nat → (3 ≤ turns j overtaking)%nat) → ring_sync (view n') S').
Proof.
  apply (disjoint_updates_race_safely sampleU 2 [[cAlive]; [sampleChange "b" 6 Faulty]] overtaking abInstance abNode {["a"; "b"]}).
  - apply abInstance_serving.
  - apply abInstance_sync.
  - intros cs c. rewrite !elem_of_cons, elem_of_nil.
    intros [->|[->|[]]] ->%list_elem_of_singleton; (split; [by eexists|apply (bool_decide_unpack _); by vm_compute]).
  - apply (bool_decide_unpack _). by vm_compute.
Defined.
