(* ===== verification/Logging.v ===== *)
(** * Logging: named loggers with levels (logging/*.go)

    A facility keeps a minimum severity per name and passes what is severe
    enough to the underlying logger.  The underlying logger is code of the
    application: the calls it receives are recorded. *)
From Stdlib Require Import Ascii.
From S2P Require Import Prelude GoStd NodeState Util UtilSpec.
#[local] Open Scope Z_scope.

(** ** level.go: a uint8 *)
Definition Panic : Z := 0.
Definition Fatal : Z := 1.
Definition Error : Z := 2.
Definition Warn : Z := 3.
Definition Info : Z := 4.
Definition Debug : Z := 5.
Definition maxLevel : Z := 255.

Definition levelNames : list string := ["panic"; "fatal"; "error"; "warn"; "info"; "debug"].

Definition level_String (lvl : Z) : string :=
  match levelNames !! Z.to_nat lvl with
  | Some name => name
  | None => pretty lvl
  end.

(** Parse: [None] is an error; the conversion to Level keeps the low byte. *)
Definition Parse (lvl : string) : option Z :=
  match list_find (λ name, name = lvl) levelNames with
  | Some (i, _) => Some (Z.of_nat i)
  | None =>
      level ← Atoi lvl;
      if bool_decide (maxLevel < level) then None else Some (level mod 256)
  end.

(** ** facility.go *)
Abbreviation fields_ := (gmap string string).

(** The arguments of a message: those of Debug, Info, ... or a format string
    with those of Debugf, Infof, ... *)
Inductive message : Type := Plain (args : list string) | Formatted (format : string) (args : list string).

(** A call that reached the underlying logger: its level and, by the kind of
    message, its method, and the fields it was given. *)
Record logCall : Type := mkCall { lc_level : Z; lc_fields : fields_; lc_msg : message }.

(** The underlying logger: a nil interface, [NoLogger], or the application's. *)
Inductive barkLogger : Type := NilLogger | NoLogger | AppLogger.

#[export] Instance barkLogger_eq : EqDecision barkLogger.
Proof. solve_decision. Defined.

Record Facility : Type := mkFacility {
  fa_logger : barkLogger;
  fa_levels : gmap string Z;
  fa_calls : list logCall
}.

Definition NewFacility (log : barkLogger) : Facility :=
  mkFacility (match log with NilLogger => NoLogger | _ => log end) ∅ [].

(** SetLevels ranges over the map twice, in any order; [false] is an error. *)
Definition SetLevels (c1 c2 : choice) (levels : gmap string Z) : M Facility bool :=
  if bool_decide (Forall (λ x, Fatal ≤ x.2) (arrange c1 (map_to_list levels))) then
    for_each (arrange c2 (map_to_list levels))
      (λ x, modify (λ f, mkFacility (fa_logger f) (<[x.1 := x.2]> (fa_levels f)) (fa_calls f)));;
    mret true
  else mret false.

Definition SetLevel (logName : string) (level : Z) : M Facility bool :=
  if bool_decide (level < Fatal) then mret false
  else
    modify (λ f, mkFacility (fa_logger f) (<[logName := level]> (fa_levels f)) (fa_calls f));;
    mret true.

Definition SetLogger (log : barkLogger) : M Facility unit :=
  modify (λ f, mkFacility log (fa_levels f) (fa_calls f)).

(** Calling a method of the underlying logger; of a nil interface it panics. *)
Definition callLogger (call : logCall) : M Facility unit :=
  f ← gets id;
  match fa_logger f with
  | NilLogger => panic
  | NoLogger => mret tt
  | AppLogger => modify (λ f, mkFacility (fa_logger f) (fa_levels f) (fa_calls f ++ [call]))
  end.

Definition silenced (f : Facility) (logName : string) (wantLevel : Z) : bool :=
  match fa_levels f !! logName with
  | Some setLevel => bool_decide (setLevel < wantLevel)
  | None => false
  end.

(** What Log and Logf have in common.  The switch has no case for the levels
    beyond Debug.  [WithFields] of a nil logger panics before the switch. *)
Definition passOn (logName : string) (wantLevel : Z) (fields : fields_) (msg : message) : M Facility unit :=
  f ← gets id;
  if silenced f logName wantLevel then mret tt
  else if bool_decide (Panic ≤ wantLevel ≤ Debug) then callLogger (mkCall wantLevel fields msg)
  else match fa_logger f with
       | NilLogger => if bool_decide (size fields = 0%nat) then mret tt else panic
       | _ => mret tt
       end.

Definition Log (logName : string) (wantLevel : Z) (fields : fields_) (args : list string) : M Facility unit :=
  passOn logName wantLevel fields (Plain args).

Definition Logf (logName : string) (wantLevel : Z) (fields : fields_) (format : string) (args : list string)
  : M Facility unit := passOn logName wantLevel fields (Formatted format args).

(** ** named.go: a name and fields in front of the facility *)
Record namedLogger : Type := mkNamed { nl_name : string; nl_fields : fields_ }.

Definition Logger (logName : string) : namedLogger := mkNamed logName ∅.

(** Debug, Info, Warn, Error, Fatal and Panic of a named logger, and their
    formatting variants. *)
Definition logAt (l : namedLogger) (wantLevel : Z) (msg : message) : M Facility unit :=
  match msg with
  | Plain args => Log (nl_name l) wantLevel (nl_fields l) args
  | Formatted format args => Logf (nl_name l) wantLevel (nl_fields l) format args
  end.

Definition Fields (l : namedLogger) : fields_ := nl_fields l.

Definition WithField (l : namedLogger) (key value : string) : namedLogger :=
  mkNamed (nl_name l) (<[key := value]> (nl_fields l)).

(** The copy of the own fields, then the given ones over it, in map order. *)
Definition WithFields (c : choice) (l : namedLogger) (other : fields_) : namedLogger :=
  mkNamed (nl_name l) (foldl (λ m x, <[x.1 := x.2]> m) (nl_fields l) (arrange c (map_to_list other))).

(** ** default.go: the facility of the process, made without a logger *)
Definition defaultFacility : Facility := NewFacility NilLogger.

(** ** Levels *)
Lemma Atoi_not_name s z : Atoi s = Some z → s ∉ levelNames.
Proof.
  intros Ha Hin. repeat (apply elem_of_cons in Hin as [->|Hin]; [by vm_compute in Ha|]). by apply elem_of_nil in Hin.
Qed.

Lemma Parse_number s z : Atoi s = Some z → Parse s = if bool_decide (maxLevel < z) then None else Some (z mod 256).
Proof.
  intros Ha. unfold Parse. rewrite Ha. destruct (list_find _ levelNames) as [[i x]|] eqn:Hf; [|done].
  apply list_find_Some in Hf as (Hi & <- & _). apply list_elem_of_lookup_2 in Hi. by apply Atoi_not_name in Ha.
Qed.

(** Every level survives printing and parsing. *)
Lemma level_roundtrip l : 0 ≤ l ≤ maxLevel → Parse (level_String l) = Some l.
Proof.
  unfold maxLevel. intros Hl. destruct (decide (l < 6)) as [Hs|Hs].
  { assert (l = 0 ∨ l = 1 ∨ l = 2 ∨ l = 3 ∨ l = 4 ∨ l = 5) as Hc by lia.
    by repeat (destruct Hc as [->|Hc]; [vm_compute; reflexivity|]); rewrite Hc; vm_compute. }
  unfold level_String. rewrite lookup_ge_None_2 by (simpl; lia).
  rewrite (Parse_number _ l) by (apply Atoi_pretty; lia). rewrite bool_decide_false by (unfold maxLevel; lia).
  by rewrite Z.mod_small by lia.
Qed.

(** A negative number is accepted as the level of its low byte: "-255" sets
    the level Fatal. *)
Lemma Parse_accepts_negative z : - 2^63 ≤ z < 0 → Parse (pretty z) = Some (z mod 256).
Proof.
  intros Hz. rewrite (Parse_number _ z) by (apply Atoi_pretty; lia).
  by rewrite bool_decide_false by (unfold maxLevel; lia).
Qed.

(** ** The levels in force *)
(** The given fields override those the logger had. *)
Lemma WithFields_union c l other : nl_fields (WithFields c l other) = other ∪ nl_fields l.
Proof.
  unfold WithFields. simpl. destruct (arranged_map c other) as [Hnd Hm]. by rewrite foldl_insert_union, Hm.
Qed.

(** The calls an application makes on a facility. *)
Inductive facOp : Type :=
| DoSetLevel (logName : string) (level : Z)
| DoSetLevels (c1 c2 : choice) (levels : gmap string Z)
| DoLog (logName : string) (wantLevel : Z) (fields : fields_) (msg : message)
| DoSetLogger (log : barkLogger).

Definition runFac (o : facOp) : M Facility unit :=
  match o with
  | DoSetLevel name level => SetLevel name level;; mret tt
  | DoSetLevels c1 c2 levels => SetLevels c1 c2 levels;; mret tt
  | DoLog name want fields msg => logAt (mkNamed name fields) want msg
  | DoSetLogger log => SetLogger log
  end.

(** What the calls configure: a level above Fatal is refused, and one bad level
    refuses its whole map. *)
Definition configure (m : gmap string Z) (o : facOp) : gmap string Z :=
  match o with
  | DoSetLevel name level => if bool_decide (level < Fatal) then m else <[name := level]> m
  | DoSetLevels _ _ levels => if bool_decide (map_Forall (λ _ l, Fatal ≤ l) levels) then levels ∪ m else m
  | _ => m
  end.

Definition configured (ops : list facOp) : gmap string Z := foldl configure ∅ ops.

(** The logger in force, and that nobody installs a nil one. *)
Definition install (l : barkLogger) (o : facOp) : barkLogger := match o with DoSetLogger l' => l' | _ => l end.

Definition sound (o : facOp) : Prop := match o with DoSetLogger NilLogger => False | _ => True end.

Lemma set_each l f :
  wp (for_each l (λ x : string * Z, modify (λ f, mkFacility (fa_logger f) (<[x.1 := x.2]> (fa_levels f)) (fa_calls f))))
    (λ _ f', f' = mkFacility (fa_logger f) (foldl (λ m x, <[x.1 := x.2]> m) (fa_levels f) l) (fa_calls f)) f.
Proof.
  revert f. induction l as [|x l IH]; intros f; simpl; [by apply wp_ret; destruct f|].
  apply wp_bind, wp_modify. eapply wp_mono; [apply IH|]. by intros [] f' ->.
Qed.

Lemma levels_accepted c (levels : gmap string Z) :
  Forall (λ x, Fatal ≤ x.2) (arrange c (map_to_list levels)) ↔ map_Forall (λ _ l, Fatal ≤ l) levels.
Proof. rewrite arrange_perm, map_Forall_to_list, Forall_forall, Forall_forall. by split; intros H [k v]; apply (H (k, v)). Qed.

Lemma passOn_ok f name want fields msg :
  fa_logger f ≠ NilLogger → Panic ≤ want ≤ Debug →
  wp (passOn name want fields msg) (λ _ f', f' = mkFacility (fa_logger f) (fa_levels f) (fa_calls f ++
    (if negb (silenced f name want) && bool_decide (fa_logger f = AppLogger) then [mkCall want fields msg] else []))) f.
Proof.
  intros Hl Hw. unfold passOn. apply wp_bind, wp_gets. unfold id.
  destruct (silenced f name want); simpl; [apply wp_ret; rewrite app_nil_r; by destruct f|].
  rewrite bool_decide_true by done. unfold callLogger. apply wp_bind, wp_gets. unfold id.
  destruct f as [[] lv calls]; simpl in *; [done|apply wp_ret; by rewrite app_nil_r|by apply wp_modify].
Qed.

Lemma passOn_configures f name want fields msg :
  fa_logger f ≠ NilLogger →
  wp (passOn name want fields msg) (λ _ f', fa_logger f' = fa_logger f ∧ fa_levels f' = fa_levels f) f.
Proof.
  intros Hl. destruct (decide (Panic ≤ want ≤ Debug)) as [Hw|Hw].
  - eapply wp_mono; [by apply passOn_ok|]. by intros [] f' ->.
  - unfold passOn. apply wp_bind, wp_gets. unfold id. destruct (silenced f name want); [by apply wp_ret|].
    rewrite bool_decide_false by done. destruct (fa_logger f) eqn:Hf; [done|by apply wp_ret..].
Qed.

Lemma runFac_ok o f :
  fa_logger f ≠ NilLogger → sound o →
  wp (runFac o) (λ _ f', fa_logger f' ≠ NilLogger ∧ fa_logger f' = install (fa_logger f) o ∧
    fa_levels f' = configure (fa_levels f) o) f.
Proof.
  intros Hl Ho. destruct o as [name level|c1 c2 levels|name want fields msg|log]; simpl.
  - unfold SetLevel. apply wp_bind. case_bool_decide; [by apply wp_ret, wp_ret|]. by apply wp_bind, wp_modify, wp_ret, wp_ret.
  - unfold SetLevels. apply wp_bind. rewrite (bool_decide_ext _ _ (levels_accepted c1 levels)).
    case_bool_decide; [|by apply wp_ret, wp_ret]. apply wp_bind. eapply wp_mono; [apply set_each|].
    intros [] f' ->. apply wp_ret, wp_ret. split_and!; [done..|]. simpl.
    destruct (arranged_map c2 levels) as [Hnd Hm]. by rewrite foldl_insert_union, Hm.
  - destruct msg; (eapply wp_mono; [by apply passOn_configures|]); simpl; intros [] f' [-> ->]; done.
  - apply wp_modify. by destruct log.
Qed.

Lemma runFacs_ok ops f :
  fa_logger f ≠ NilLogger → Forall sound ops →
  wp (for_each ops runFac) (λ _ f', fa_logger f' ≠ NilLogger ∧ fa_logger f' = foldl install (fa_logger f) ops ∧
    fa_levels f' = foldl configure (fa_levels f) ops) f.
Proof.
  revert f. induction ops as [|o ops IH]; intros f Hl Hops; simpl; [by apply wp_ret|]. inv Hops.
  apply wp_bind. eapply wp_mono; [by apply runFac_ok|]. intros [] f1 (Hl1 & <- & <-). by apply IH.
Qed.

(** No call configures a level above Fatal. *)
Lemma configured_severe ops name l : configured ops !! name = Some l → Fatal ≤ l.
Proof.
  unfold configured. assert (map_Forall (λ _ l, Fatal ≤ l) (∅ : gmap string Z)) as Hm by apply map_Forall_empty.
  intros Hl. revert name l Hl. change (map_Forall (λ _ l, Fatal ≤ l) (foldl configure ∅ ops)). revert Hm.
  generalize (∅ : gmap string Z). induction ops as [|o ops IH]; intros m Hm; simpl; [done|]. apply IH.
  destruct o; simpl; [|case_bool_decide; [by apply map_Forall_union_2|done]|done..].
  case_bool_decide; [done|]. apply map_Forall_insert_2; [lia|done].
Qed.

(** The message passes: nothing is configured for the name, or enough. *)
Definition passes (set : option Z) (want : Z) : bool :=
  match set with Some l => bool_decide (want ≤ l) | None => true end.

(** C32: a facility filters by the levels last accepted for a name: whatever was
    configured, installed and logged before, a message at one of the six
    levels, plain or with a format, reaches the logger in force, once and with
    the fields of the named logger, exactly when nothing is configured for its
    name or the configured level is at least as verbose; a map of levels is
    accepted as a whole or not at all, in whatever order Go ranges over it;
    Panic and Fatal messages are never silenced; and nothing panics as long as
    nobody installs a nil logger, also in a facility made without a logger, as
    the default one is. *)
Theorem severe_never_silenced log ops l want msg :
  Forall sound ops → Panic ≤ want ≤ Debug →
  ∃ f f', for_each ops runFac (NewFacility log) = Some (tt, f) ∧ logAt l want msg f = Some (tt, f') ∧
    fa_logger f = foldl install (fa_logger (NewFacility log)) ops ∧ fa_levels f = configured ops ∧
    fa_calls f' = fa_calls f ++
      (if passes (configured ops !! nl_name l) want && bool_decide (fa_logger f = AppLogger)
       then [mkCall want (Fields l) msg] else []) ∧
    (want ≤ Fatal → passes (configured ops !! nl_name l) want = true).
Proof.
  intros Hops Hw. assert (fa_logger (NewFacility log) ≠ NilLogger) as Hnew by by destruct log.
  destruct (wp_run _ _ _ (runFacs_ok ops (NewFacility log) Hnew Hops)) as ([] & f & Hrun & Hl & Hin & Hlv).
  change (foldl configure _ ops) with (configured ops) in Hlv.
  assert (wp (logAt l want msg) _ f) as Hlog by (destruct msg; by apply passOn_ok).
  destruct (wp_run _ _ _ Hlog) as ([] & f' & Hlog' & ->). exists f. eexists. split_and!; [done..| |].
  - simpl. do 2 f_equal. unfold silenced, passes. rewrite Hlv. destruct (configured ops !! nl_name l) as [s|]; [|done].
    rewrite <-bool_decide_not. by rewrite (bool_decide_ext (¬ s < want) (want ≤ s)) by lia.
  - intros Hf. unfold passes. destruct (configured ops !! nl_name l) as [s|] eqn:Hc; [|done].
    apply configured_severe in Hc. by apply bool_decide_true; lia.
Qed.

Definition someOps : list facOp :=
  [DoSetLevel "ring" Error; DoSetLevels [] [] {["gossip" := Warn; "join" := Panic]}; DoSetLevel "ring" Panic;
   DoLog "ring" Info ∅ (Plain ["lost"]); DoSetLogger AppLogger].

Lemma severe_never_silenced_witness :
  ∃ f f', for_each someOps runFac defaultFacility = Some (tt, f) ∧
    logAt (WithField (Logger "ring") "local" "a") Fatal (Formatted "%s left" ["b"]) f = Some (tt, f') ∧
    fa_logger f = AppLogger ∧ fa_levels f = configured someOps ∧
    fa_calls f' = fa_calls f ++
      (if passes (configured someOps !! "ring") Fatal && bool_decide (fa_logger f = AppLogger)
       then [mkCall Fatal {["local" := "a"]} (Formatted "%s left" ["b"])] else []) ∧
    (Fatal ≤ Fatal → passes (configured someOps !! "ring") Fatal = true).
Proof.
  apply (severe_never_silenced NilLogger someOps (WithField (Logger "ring") "local" "a") Fatal (Formatted "%s left" ["b"])).
  - by repeat constructor.
  - split; vm_compute; discriminate.
Defined.
