(* ===== verification/Router.v ===== *)
(** * Router: the cache of clients in front of a ring (router/router.go)

    The ring and the client factory are code of others: the answers of Lookup
    and WhoAmI are arguments, and [factory k] is what the [k]-th call of the
    factory returns.  Each section under the mutex is one atomic operation;
    goroutines interleave between the sections. *)
From S2P Require Import Prelude GoStd NodeState.

Section router.
Context {C E : Type}.
(** The client of a destination: [None] asks for the local client. *)
Variable factory : nat → option string → C.

(** [rt_made] and [rt_removed] record the clients made and the removals. *)
Record router : Type := mkRouter {
  clientCache : gmap string C;
  rt_made : list (string * C);
  rt_removed : list string
}.

Definition New : router := mkRouter ∅ [] [].

(** ** The sections under the mutex *)
Definition readCache (dest : string) : M router (option C) := gets (λ r, clientCache r !! dest).

Definition makeClient (dest me : string) : M router C := λ r,
  let client := factory (length (rt_made r)) (if bool_decide (dest = me) then None else Some dest) in
  Some (client, mkRouter (<[dest := client]> (clientCache r)) (rt_made r ++ [(dest, client)]) (rt_removed r)).

(** With the write lock the cache is looked at again. *)
Definition createClient (whoAmI : string + E) (dest : string) : M router (C + E) :=
  client ← readCache dest;
  match client with
  | Some client => mret (inl client)
  | None =>
      match whoAmI with
      | inr err => mret (inr err)
      | inl me => client ← makeClient dest me; mret (inl client)
      end
  end.

Definition removeClient (hostport : string) : M router unit :=
  modify (λ r, mkRouter (delete hostport (clientCache r)) (rt_made r) (rt_removed r ++ [hostport])).

(** ** The operations *)
Definition GetClient (lookup whoAmI : string + E) : M router (C + E) :=
  match lookup with
  | inr err => mret (inr err)
  | inl dest =>
      client ← readCache dest;
      match client with
      | Some client => mret (inl client)
      | None => createClient whoAmI dest
      end
  end.

Definition handleChange (c : Change) : M router unit :=
  when (bool_decide (c_Status c = Faulty ∨ c_Status c = Leave)) (removeClient (c_Address c)).

Definition HandleEvent (e : swimEvent) : M router unit :=
  match e with
  | MemberlistChangesReceivedEvent changes => for_each changes handleChange
  | _ => mret tt
  end.

(** ** Goroutines

    A caller of GetClient before its read lock, between the two locks and at
    its end, and a listener in the middle of an event. *)
Inductive thread : Type :=
| Called (lookup whoAmI : string + E)
| Missed (dest : string) (whoAmI : string + E)
| Returned (dest : option string) (res : C + E)
| Handling (changes : list Change).

Definition threadStep (t : thread) : M router thread :=
  match t with
  | Called (inr err) _ => mret (Returned None (inr err))
  | Called (inl dest) whoAmI =>
      client ← readCache dest;
      mret (match client with Some client => Returned (Some dest) (inl client) | None => Missed dest whoAmI end)
  | Missed dest whoAmI => res ← createClient whoAmI dest; mret (Returned (Some dest) res)
  | Handling (c :: cs) => handleChange c;; mret (Handling cs)
  | Handling [] => panic
  | Returned _ _ => panic
  end.

Inductive step : router * list thread → router * list thread → Prop :=
| step_thread i t t' r r' ts :
    ts !! i = Some t → threadStep t r = Some (t', r') → step (r, ts) (r', <[i := t']> ts).

(** A goroutine that is not done can always go on. *)
Definition done_thread (t : thread) : Prop :=
  match t with Returned _ _ | Handling [] => True | _ => False end.

Lemma threads_progress t r : done_thread t ∨ ∃ t' r', threadStep t r = Some (t', r').
Proof.
  destruct t as [[dest|err] who|dest who|dest res|[|c cs]]; simpl; try (by left); right; try by eauto.
  - unfold createClient, readCache, mbind, M_bind, gets. destruct (clientCache r !! dest); [by eauto|].
    destruct who; by eauto.
  - unfold handleChange, when, mbind, M_bind. case_bool_decide; by eauto.
Qed.

(** Running one caller without interruption is [GetClient]. *)
Lemma GetClient_alone lookup whoAmI r :
  ∃ res r' dest, GetClient lookup whoAmI r = Some (res, r') ∧
    rtc step (r, [Called lookup whoAmI]) (r', [Returned dest res]).
Proof.
  assert (∀ r r' t t', threadStep t r = Some (t', r') → step (r, [t]) (r', [t'])) as Hone.
  { intros r0 r' t t' Ht. exact (step_thread 0 t t' r0 r' [t] eq_refl Ht). }
  destruct lookup as [dest|err].
  2: { exists (inr err), r, None. split; [done|]. by apply rtc_once, Hone. }
  destruct (clientCache r !! dest) as [c|] eqn:Hc.
  { exists (inl c), r, (Some dest).
    split; [|apply rtc_once, Hone]; simpl; unfold readCache, mbind, M_bind, gets; by rewrite Hc. }
  destruct (createClient whoAmI dest r) as [[res r']|] eqn:Hcr.
  2: { unfold createClient, readCache, mbind, M_bind, gets in Hcr. rewrite Hc in Hcr. by destruct whoAmI. }
  exists res, r', (Some dest). split; [|eapply rtc_l; [|apply rtc_once]; apply Hone].
  - rewrite <-Hcr. unfold GetClient, mbind, M_bind, readCache, gets. by rewrite Hc.
  - simpl. unfold readCache, mbind, M_bind, gets. by rewrite Hc.
  - simpl. unfold mbind, M_bind. by rewrite Hcr.
Qed.

(** ** The invariant *)
Variable who : string.

Definition asks (t : thread) : Prop :=
  match t with Called _ (inl me) | Missed _ (inl me) => me = who | _ => True end.

Definition made_for (d : string) (r : router) : nat := length (filter (λ x, x.1 = d) (rt_made r)).
Definition removed_for (d : string) (r : router) : nat := length (filter (λ x, x = d) (rt_removed r)).
Definition cached (d : string) (r : router) : nat := match clientCache r !! d with Some _ => 1 | None => 0 end.

Record router_ok (r : router) : Prop := {
  ro_cached : ∀ d c, clientCache r !! d = Some c → (d, c) ∈ rt_made r;
  ro_count : ∀ d, made_for d r ≤ removed_for d r + cached d r;
  ro_kept : ∀ d c, (d, c) ∈ rt_made r → removed_for d r = 0 → clientCache r !! d = Some c;
  ro_made : ∀ k d c, rt_made r !! k = Some (d, c) → c = factory k (if bool_decide (d = who) then None else Some d)
}.

Definition thread_ok (r : router) (t : thread) : Prop :=
  asks t ∧ match t with Returned (Some d) (inl c) => (d, c) ∈ rt_made r | Returned None (inl _) => False | _ => True end.

Lemma New_router_ok : router_ok New.
Proof.
  split; simpl; try done.
  - intros d c Hc. by apply elem_of_nil in Hc.
Qed.

Lemma removeClient_ok d r :
  router_ok r →
  router_ok (mkRouter (delete d (clientCache r)) (rt_made r) (rt_removed r ++ [d])).
Proof.
  intros [Hc Hn Hk Hm]. split; simpl.
  - intros d' c [_ H]%lookup_delete_Some. auto.
  - intros d'. specialize (Hn d'). unfold made_for, removed_for, cached in *. simpl.
    rewrite filter_app, length_app. destruct (decide (d' = d)) as [->|Hne].
    + rewrite filter_cons_True by done. rewrite lookup_delete_eq. simpl. destruct (clientCache r !! d); lia.
    + rewrite lookup_delete_ne by done. lia.
  - intros d' c Hin H0. unfold removed_for in *. simpl in *. rewrite filter_app, length_app in H0.
    destruct (decide (d' = d)) as [->|Hne]; [rewrite filter_cons_True in H0 by done; simpl in H0; lia|].
    rewrite lookup_delete_ne by done. apply Hk; [done|]. unfold removed_for. lia.
  - done.
Qed.

Lemma makeClient_ok d c r :
  router_ok r → clientCache r !! d = None → c = factory (length (rt_made r)) (if bool_decide (d = who) then None else Some d) →
  router_ok (mkRouter (<[d := c]> (clientCache r)) (rt_made r ++ [(d, c)]) (rt_removed r)).
Proof.
  intros [Hc Hn Hk Hm] Hnone Hfac. split; simpl.
  - intros d' c'. rewrite elem_of_app, list_elem_of_singleton. intros [[<- <-]|[Hne H]]%lookup_insert_Some; auto.
  - intros d'. specialize (Hn d'). unfold made_for, removed_for, cached in *. simpl. rewrite filter_app, length_app.
    destruct (decide (d' = d)) as [->|Hne].
    + rewrite Hnone in Hn. rewrite filter_cons_True by done. rewrite lookup_insert_eq. simpl. lia.
    + rewrite filter_cons_False by (simpl; congruence). rewrite lookup_insert_ne by done. simpl. lia.
  - intros d' c' Hin H0. apply elem_of_app in Hin as [Hin|Hin].
    + specialize (Hk d' c' Hin H0). rewrite lookup_insert_ne; [done|]. intros ->. congruence.
    + apply list_elem_of_singleton in Hin. simplify_eq. by rewrite lookup_insert_eq.
  - intros k d' c'. rewrite lookup_app. destruct (rt_made r !! k) as [[d0 c0]|] eqn:Hk0; [intros; simplify_eq; by apply Hm|].
    intros Hl. apply list_lookup_singleton_Some in Hl as [Hz Hl]. simplify_eq.
    apply lookup_ge_None_1 in Hk0. by replace k with (length (rt_made r)) by lia.
Qed.

Lemma threadStep_ok t t' r r' :
  threadStep t r = Some (t', r') → router_ok r → thread_ok r t →
  router_ok r' ∧ thread_ok r' t' ∧ rt_made r `prefix_of` rt_made r'.
Proof.
  intros Hs Hr [Ha Ht]. unfold thread_ok. destruct t as [[d|e] w|d w|d res|[|c cs]]; simpl in *; try done;
    unfold mret, M_ret in Hs.
  - unfold mbind, M_bind, readCache, gets, mret, M_ret in Hs.
    destruct (clientCache r !! d) as [c|] eqn:Hc; simplify_eq; split_and!; try done; by apply Hr.
  - simplify_eq. by split_and!.
  - unfold createClient, mbind, M_bind, readCache, gets, mret, M_ret in Hs. destruct (clientCache r !! d) as [c|] eqn:Hc.
    { simplify_eq. split_and!; try done. by apply Hr. }
    destruct w as [me|e]; [|simplify_eq; by split_and!]. unfold makeClient in Hs. simpl in Ha. subst me. simplify_eq/=.
    split_and!; [by apply makeClient_ok|done|set_solver|by apply prefix_app_r].
  - unfold handleChange, when, mbind, M_bind, mret, M_ret in Hs. case_bool_decide; simplify_eq/=; [|by split_and!].
    split_and!; try done. by apply removeClient_ok.
Qed.

Definition config_ok (x : router * list thread) : Prop := router_ok x.1 ∧ Forall (thread_ok x.1) x.2.

Lemma thread_ok_later r r' t : rt_made r `prefix_of` rt_made r' → thread_ok r t → thread_ok r' t.
Proof.
  intros [k Hk] [Ha Ht]. split; [done|]. destruct t as [| |[d|] [c|]|]; try done. rewrite Hk. set_solver.
Qed.

Lemma step_ok x y : step x y → config_ok x → config_ok y.
Proof.
  intros [i t t' r r' ts Hi Ht] [Hr Hts]. simpl in *.
  pose proof (Forall_lookup_1 _ _ _ _ Hts Hi) as Hti.
  destruct (threadStep_ok _ _ _ _ Ht Hr Hti) as (Hr' & Ht' & Hpre). split; [done|]. simpl.
  apply Forall_insert; [|done]. eapply Forall_impl; [exact Hts|]. intros u. by apply thread_ok_later.
Qed.

(** Callers and listeners at their beginning. *)
Definition fresh (t : thread) : Prop :=
  match t with Called _ (inl me) => me = who | Called _ (inr _) | Handling _ => True | _ => False end.

(** C29: the double-checked cache makes one client per destination: in every
    interleaving of callers of GetClient with the handling of membership
    events, for each destination at most one client more is made than there
    were removals; a client handed out for a destination was made for it, the
    local one exactly for the node's own address; and while the destination is
    not removed, all its callers get the same client. *)
Theorem one_client_per_destination ts r ts' :
  Forall fresh ts → rtc step (New, ts) (r, ts') →
  (∀ d, made_for d r ≤ S (removed_for d r)) ∧
  (∀ d c, Returned (Some d) (inl c) ∈ ts' →
     ∃ k, rt_made r !! k = Some (d, c) ∧ c = factory k (if bool_decide (d = who) then None else Some d)) ∧
  (∀ d c1 c2, removed_for d r = 0 →
     Returned (Some d) (inl c1) ∈ ts' → Returned (Some d) (inl c2) ∈ ts' → c1 = c2).
Proof.
  intros Hf Hrun. assert (config_ok (New, ts)) as H0.
  { split; [apply New_router_ok|]. eapply Forall_impl; [exact Hf|]. by intros [? []| | |]. }
  assert (∀ x y, rtc step x y → config_ok x → config_ok y) as Hinv.
  { intros x y Hxy. induction Hxy as [|x y z Hs _ IH]; [done|]. intros Hx. exact (IH (step_ok _ _ Hs Hx)). }
  destruct (Hinv _ _ Hrun H0) as [Hr Hts]. simpl in *.
  assert (∀ d c, Returned (Some d) (inl c) ∈ ts' → (d, c) ∈ rt_made r) as Hmade.
  { intros d c Hin. rewrite Forall_forall in Hts. apply (Hts _ Hin). }
  split_and!.
  - intros d. pose proof (ro_count _ Hr d) as Hc. unfold cached in Hc. destruct (clientCache r !! d); lia.
  - intros d c Hin%Hmade. apply list_elem_of_lookup_1 in Hin as [k Hk]. exists k. split; [done|]. by apply Hr in Hk.
  - intros d c1 c2 H1 Hin1%Hmade Hin2%Hmade. pose proof (ro_kept _ Hr _ _ Hin1 H1) as Hk1.
    pose proof (ro_kept _ Hr _ _ Hin2 H1) as Hk2. congruence.
Qed.
End router.

(** ** Two callers that race for one destination *)
Definition serials (k : nat) (dest : option string) : nat * option string := (k, dest).
Definition racers : list (@thread (nat * option string) unit) :=
  [Called (inl "b") (inl "a"); Called (inl "b") (inl "a"); Called (inl "a") (inl "a")].

(** Both miss in the cache before either creates the client. *)
Fixpoint runThreads (js : list nat) (x : @router (nat * option string) * list (@thread (nat * option string) unit)) :=
  match js with
  | [] => x
  | j :: js =>
      match x.2 !! j ≫= λ t, threadStep serials t x.1 with
      | Some (t', r') => runThreads js (r', <[j := t']> x.2)
      | None => x
      end
  end.

Lemma runThreads_steps js x : rtc (step serials) x (runThreads js x).
Proof.
  revert x. induction js as [|j js IH]; intros [r ts]; simpl; [done|].
  destruct (ts !! j) as [t|] eqn:Ht; simpl; [|done]. destruct (threadStep serials t r) as [[t' r']|] eqn:Hs; [|done].
  eapply rtc_l; [exact (step_thread serials j t t' r r' ts Ht Hs)|apply IH].
Qed.

Definition raceEnd := runThreads [0; 1; 1; 0; 2; 2] (New, racers).

Lemma one_client_per_destination_witness :
  raceEnd.2 = [Returned (Some "b") (inl (0, Some "b")); Returned (Some "b") (inl (0, Some "b"));
               Returned (Some "a") (inl (1, None))] ∧
  (∀ d, made_for d raceEnd.1 ≤ S (removed_for d raceEnd.1)) ∧
  (∀ d c, Returned (Some d) (inl c) ∈ raceEnd.2 →
     ∃ k, rt_made raceEnd.1 !! k = Some (d, c) ∧ c = serials k (if bool_decide (d = "a") then None else Some d)) ∧
  (∀ d c1 c2, removed_for d raceEnd.1 = 0 →
     Returned (Some d) (inl c1) ∈ raceEnd.2 → Returned (Some d) (inl c2) ∈ raceEnd.2 → c1 = c2).
Proof.
  split; [by vm_compute|]. apply (one_client_per_destination serials "a" racers); [by repeat constructor|].
  exact (runThreads_steps [0; 1; 1; 0; 2; 2] (New, racers)).
Defined.
