(* ===== verification/Adapter.v ===== *)
(** * Adapter: routing a service over the ring (examples/pingpong)

    The adapter that ringpop.thrift-gen generates for a service
    (ringpop-pingpong.go for the example) handles a call itself, or sends it
    through the client that the router has for the owner of its key, marked as
    forwarded.  Here any number of processes have such an adapter, each with
    its own ring and its own cache of clients: the answers of their rings need
    not agree.  A remote call goes through the client and the server of
    [Service], headers, request and answer as bytes, with the faults of the
    network and the retries of the client.  The implementation behind the
    adapters is an argument, which may answer differently each time; the calls
    it receives are recorded. *)
From S2P Require Import Prelude GoStd Thrift ThriftSpec Typed Retry Service NodeState Forwarder Router.
#[local] Open Scope Z_scope.

Section adapter.
Context {E : Type}.

(** The orders of ranging over headers, what Go code can ask about errors, and the
    retry options of the caller ([Service]). *)
Variable order : headers → choice * choice.
Variable systemCode : E → option Z.
Variable isProtocolException : callError (E := E) → bool.
Variable isNetError : E → bool.
Variable retry : option RetryOptions.

(** The implementation at an address, given the number of calls handled before,
    and what goes wrong with each attempt to call an address. *)
Variable impl : nat → string → headers → option Ping → option Pong + E.
Variable faults : string → nat → option fault.

(** ** The client factory: GetLocalClient and MakeRemoteClient *)
Inductive client : Type := LocalClient | RemoteClient (hostport : string).

Definition factory (_ : nat) (dest : option string) : client :=
  match dest with None => LocalClient | Some hostport => RemoteClient hostport end.

(** ** The processes

    The configuration of the endpoint and its key function, if there are any;
    what Lookup and WhoAmI of the ring answer; the router. *)
Definition keyFunc : Type := headers → option Ping → string + E.

Record process : Type := mkProcess {
  pc_config : option keyFunc;
  pc_lookup : string → string + E;
  pc_whoami : string + E;
  pc_router : router (C := client)
}.

Record world : Type := mkWorld {
  wd_procs : gmap string process;
  wd_handled : list (string * headers * option Ping)
}.

(** PingPongConfiguration.validate; [true] when the configuration is accepted. *)
Definition validate (config : option (option keyFunc)) : bool :=
  match config with Some None => false | _ => true end.

(** NewRingpopPingPongAdapter, which makes the router. *)
Definition NewAdapter (config : option (option keyFunc)) (lookup : string → string + E) (whoami : string + E)
    : option process :=
  if validate config then Some (mkProcess (c ← config; c) lookup whoami New) else None.

Definition setRouter (p : process) (r : router (C := client)) : process :=
  mkProcess (pc_config p) (pc_lookup p) (pc_whoami p) r.

(** An operation of the router of the process [a], which is [p]. *)
Definition onRouter {A} (a : string) (p : process) (m : M (router (C := client)) A) : M world A := λ w,
  match m (pc_router p) with
  | None => None
  | Some (x, r) => Some (x, mkWorld (<[a := setRouter p r]> (wd_procs w)) (wd_handled w))
  end.

(** The implementation at [a] runs. *)
Definition implAnswer (k : nat) (a : string) (ctx : headers) (request : option Ping) : option Pong + callError :=
  match impl k a ctx request with inl r => inl r | inr e => inr (ImplError e) end.

Definition handleHere (a : string) (ctx : headers) (request : option Ping) : M world (option Pong + callError) :=
  k ← gets (λ w, length (wd_handled w));
  modify (λ w, mkWorld (wd_procs w) (wd_handled w ++ [(a, ctx, request)]));;
  mret (implAnswer k a ctx request).

(** The way to the process at [hostport]: a connection to one that is not there
    fails before anything is sent. *)
Definition faultsTo (w : world) (hostport : string) : nat → option fault :=
  match wd_procs w !! hostport with
  | None => λ _, Some (NotStarted NetError)
  | Some _ => faults hostport
  end.

Definition remotePing (hostport : string) (handler : headers → option Ping → M world (option Pong + callError))
    : headers → option Ping → M world (option Pong + callError) := λ ctx request,
  w ← get;
  clientPing order systemCode isNetError retry
    (overNetwork (faultsTo w hostport) (Handle order systemCode isProtocolException (serving handler))) ctx request.

(** ** The endpoint

    A call of Ping that arrives at the process [a]; [fuel] bounds the hops. *)
Fixpoint callPing (fuel : nat) (a : string) (ctx : headers) (request : option Ping)
    : M world (option Pong + callError) :=
  match fuel with
  | O => panic
  | S fuel =>
      w ← get;
      match wd_procs w !! a with
      | None => panic
      | Some p =>
          match pc_config p with
          | None => handleHere a ctx request
          | Some key =>
              if HasForwardedHeader ctx then handleHere a ctx request
              else
                match key ctx request with
                | inr err => mret (inr (KeyError err))
                | inl ringpopKey =>
                    c ← onRouter a p (GetClient factory (pc_lookup p ringpopKey) (pc_whoami p));
                    match c with
                    | inr err => mret (inr (RingError err))
                    | inl LocalClient => handleHere a (SetForwardedHeader ctx) request
                    | inl (RemoteClient hostport) => remotePing hostport (callPing fuel hostport) (SetForwardedHeader ctx) request
                    end
                end
          end
      end
  end.

(** ** The invariant: cached clients lead to their destination *)
Definition clientFor (a d : string) : client := if bool_decide (d = a) then LocalClient else RemoteClient d.

Record process_ok (a : string) (p : process) : Prop := {
  po_cache : map_Forall (λ d c, c = clientFor a d) (clientCache (pc_router p));
  po_whoami : ∀ me, pc_whoami p = inl me → me = a
}.

Definition world_ok (w : world) : Prop := map_Forall process_ok (wd_procs w).

Lemma NewAdapter_ok a config lookup whoami p :
  NewAdapter config lookup whoami = Some p → (∀ me, whoami = inl me → me = a) → process_ok a p.
Proof. unfold NewAdapter. destruct (validate config); [|done]. intros [= <-] Hme. split; [apply map_Forall_empty|done]. Qed.

(** Membership events only take clients out of the cache. *)
Lemma HandleEvent_keeps_clients a p e r :
  process_ok a p → HandleEvent e (pc_router p) = Some (tt, r) → process_ok a (setRouter p r).
Proof.
  intros [Hc Hme] He. split; [|done]. simpl. revert He. generalize (pc_router p) Hc. clear Hc Hme.
  destruct e; simpl; try (by intros r0 Hc [= <-]). intros r0 Hc He.
  assert (wp (for_each Changes handleChange) (λ _ r, map_Forall (λ d c, c = clientFor a d) (clientCache r)) r0) as Hwp.
  { clear He r. revert r0 Hc. induction Changes as [|c cs IH]; intros r0 Hc; simpl; [by apply wp_ret|].
    apply wp_bind. unfold handleChange, when. case_match; [|apply wp_ret; by apply IH].
    apply wp_modify. apply IH. simpl. by apply map_Forall_delete. }
  unfold wp in Hwp. by rewrite He in Hwp.
Qed.

Lemma GetClient_leads a p lookup :
  process_ok a p →
  wp (GetClient factory lookup (pc_whoami p)) (λ c r, process_ok a (setRouter p r) ∧
    match lookup with
    | inr e => c = inr e
    | inl d => c = inl (clientFor a d) ∨ ∃ e, pc_whoami p = inr e ∧ c = inr e
    end) (pc_router p).
Proof.
  intros Hp. destruct lookup as [d|e]; [|by apply wp_ret; destruct p, Hp]. unfold GetClient.
  apply wp_bind, wp_gets. destruct (clientCache (pc_router p) !! d) as [c|] eqn:Hc.
  { apply wp_ret. rewrite (po_cache _ _ Hp d c Hc). split; [by destruct p, Hp|by left]. }
  unfold createClient. apply wp_bind, wp_gets. rewrite Hc. destruct (pc_whoami p) as [me|e] eqn:Hwho.
  2: { apply wp_ret. split; [by destruct p, Hp|]. right. by exists e. }
  rewrite (po_whoami _ _ Hp me Hwho). apply wp_bind. unfold makeClient, wp. simpl.
  assert (factory (length (rt_made (pc_router p))) (if bool_decide (d = a) then None else Some d) = clientFor a d) as ->.
  { unfold factory, clientFor. by case_bool_decide. }
  split; [|by left]. split; simpl; [|apply Hp]. apply map_Forall_insert_2; [done|apply Hp].
Qed.

Lemma forwarded_is_forwarded ctx : HasForwardedHeader (SetForwardedHeader ctx) = true.
Proof.
  unfold HasForwardedHeader, SetForwardedHeader. apply bool_decide_true.
  case_bool_decide; [by rewrite lookup_singleton_eq|by rewrite lookup_insert_eq].
Qed.

Lemma callPing_handles fuel w a p ctx request :
  wd_procs w !! a = Some p → pc_config p = None ∨ HasForwardedHeader ctx = true →
  callPing (S fuel) a ctx request w = handleHere a ctx request w.
Proof.
  intros Hp Hc. simpl. unfold get, mbind, M_bind. rewrite Hp. destruct (pc_config p) as [key|]; [|done].
  by destruct Hc as [?| ->].
Qed.

(** The call is handled [k] times, all by [b]. *)
Definition handledBy (w w' : world) (k : nat) (b : string) (ctx : headers) (request : option Ping) : Prop :=
  wd_procs w' = wd_procs w ∧ wd_handled w' = wd_handled w ++ replicate k (b, ctx, request).

Definition smallImpl : Prop := ∀ k b ctx request, smallAnswer (implAnswer k b ctx request).

Abbreviation retries := (retried systemCode isProtocolException isNetError retry).
Abbreviation toCaller := (answerOf systemCode isProtocolException).
Abbreviation again := (retriable systemCode isNetError retry).

(** What comes of retrying at a process that handles what it gets: [k] of the
    attempts are handled, and a result that is no error is the answer to the last
    of them. *)
Record retriedAt (w w' : world) (k more : nat) (b : string) (ctx : headers) (request : option Ping)
    (res : option Pong + callError (E := E)) : Prop := {
  ra_handled : handledBy w w' k b ctx request;
  ra_bound : (k ≤ more)%nat;
  ra_answer : ∀ o, res = inl o → (0 < more)%nat → ∃ j, k = S j ∧ implAnswer (length (wd_handled w) + j) b ctx request = inl o
}.

Lemma handledBy_trans w w1 w2 j k b ctx request :
  handledBy w w1 j b ctx request → handledBy w1 w2 k b ctx request → handledBy w w2 (j + k) b ctx request.
Proof. intros [Hp1 Hh1] [Hp2 Hh2]. split; [congruence|]. by rewrite Hh2, Hh1, <-(assoc_L (++)), replicate_add. Qed.

(** One attempt. *)
Lemma attempted_at f b ctx request w :
  ∃ res w' k, attempted systemCode isProtocolException f (handleHere b) ctx request w = Some (res, w') ∧
    retriedAt w w' k 1 b ctx request res.
Proof.
  assert (∃ w1, handleHere b ctx request w = Some (implAnswer (length (wd_handled w)) b ctx request, w1) ∧
    handledBy w w1 1 b ctx request) as (w1 & H1 & Hh1) by (eexists; split; [reflexivity|done]).
  destruct f as [[e|e|e]|]; unfold attempted.
  - exists (inr (TransportError e)), w, 0%nat. split; [done|]. split; [by split; [|rewrite app_nil_r]|lia|done].
  - exists (inr (TransportError e)), w, 0%nat. split; [done|]. split; [by split; [|rewrite app_nil_r]|lia|done].
  - exists (inr (TransportError e)), w1, 1%nat. unfold mbind, M_bind. rewrite H1. split; [done|]. by split; [|lia|].
  - exists (toCaller (implAnswer (length (wd_handled w)) b ctx request)), w1, 1%nat. unfold mbind, M_bind. rewrite H1.
    split; [done|]. split; [done|lia|]. intros o Ho _. exists 0%nat. split; [done|]. rewrite Nat.add_0_r.
    destruct (implAnswer _ b ctx request); by simplify_eq/=.
Qed.

Lemma retried_at fs more i last b ctx request w :
  ∃ res w' k, retries fs (handleHere b) more i last ctx request w = Some (res, w') ∧ retriedAt w w' k more b ctx request res.
Proof.
  revert i last w. induction more as [|more IH]; intros i last w.
  { exists last, w, 0%nat. split; [done|]. split; [by split; [|rewrite app_nil_r]|lia|lia]. }
  destruct (attempted_at (fs i) b ctx request w) as (r & w1 & j & Hr & [Hh1 Hj Ha]).
  cbn [retried]. unfold mbind, M_bind. rewrite Hr. destruct (again r) eqn:Hag.
  2: { exists r, w1, j. split; [done|]. split; [done|lia|]. intros o Ho _. destruct (Ha o Ho) as (j' & -> & Hans); [lia|eauto]. }
  destruct (IH (S i) r w1) as (res & w' & k & Hrun & [Hh2 Hk Ha2]). exists res, w', (j + k)%nat. split; [done|].
  split; [by eapply handledBy_trans|lia|]. intros o Ho _. destruct more as [|more].
  { assert (res = r) as Heq by (simpl in Hrun; by injection Hrun as <- <-). by rewrite <-Heq, Ho in Hag. }
  destruct (Ha2 o Ho) as (j' & -> & Hans); [lia|]. exists (j + j')%nat. split; [lia|].
  destruct Hh1 as [_ Hh1]. rewrite Hh1, length_app, length_replicate in Hans. by rewrite Nat.add_assoc.
Qed.

(** A handler that does what the process does, as long as the process is there. *)
Lemma retried_handles handler fs more i last b q ctx request w :
  (∀ w, wd_procs w !! b = Some q → handler ctx request w = handleHere b ctx request w) → wd_procs w !! b = Some q →
  retries fs handler more i last ctx request w = retries fs (handleHere b) more i last ctx request w.
Proof.
  intros Hh. revert i last w. induction more as [|more IH]; intros i last w Hq; [done|]. cbn [retried].
  assert (attempted systemCode isProtocolException (fs i) handler ctx request w =
    attempted systemCode isProtocolException (fs i) (handleHere b) ctx request w) as Hat.
  { unfold attempted, mbind, M_bind. by destruct (fs i) as [[]|]; rewrite ?(Hh w Hq). }
  unfold mbind, M_bind. rewrite Hat. destruct (attempted_at (fs i) b ctx request w) as (r & w1 & k & -> & [[Hp _] _ _]).
  destruct (again r); [|done]. apply IH. by rewrite Hp.
Qed.

(** A process that is not there handles nothing. *)
Lemma retried_absent (handler : headers → option Ping → M world (option Pong + callError)) more i last ctx request w :
  retries (λ _, Some (NotStarted NetError)) handler more i last ctx request w =
    Some (if bool_decide (more = 0%nat) then last else inr (TransportError NetError), w).
Proof.
  revert i last. induction more as [|more IH]; intros i last; [done|].
  cbn [retried attempted]. unfold mbind, M_bind, mret, M_ret. destruct (again _); [|done]. rewrite IH. by case_bool_decide.
Qed.

(** A call that is sent to another process is retried there. *)
Lemma remote_call fuel w b ctx request :
  HasForwardedHeader ctx = true → headersFit ctx → Z.of_nat (String.length (Key request)) < 2 ^ 31 → smallImpl →
  remotePing b (callPing (S fuel) b) ctx (Some request) w =
    retries (faultsTo w b) (handleHere b) (attemptsAllowed retry) 0 (inl None) ctx (Some request) w.
Proof.
  intros Hf Hfit Hk Hsm.
  assert (∀ w q, wd_procs w !! b = Some q → callPing (S fuel) b ctx (Some request) w = handleHere b ctx (Some request) w) as Hh.
  { intros w' q Hq. apply (callPing_handles fuel w' b q); [done|by right]. }
  unfold remotePing, get, mbind at 1, M_bind. remember (callPing (S fuel) b) as handler eqn:Heq.
  rewrite remote_call_steps; [|done|done|].
  - unfold faultsTo. destruct (wd_procs w !! b) as [q|] eqn:Hq; [|by rewrite !retried_absent].
    apply (retried_handles handler _ _ _ _ b q); [|done]. intros w'. apply Hh.
  - intros st r st'. destruct (wd_procs st !! b) as [q|] eqn:Hq.
    + rewrite (Hh st q Hq). intros [= <- _]. apply Hsm.
    + subst handler. simpl. unfold get, mbind, M_bind. by rewrite Hq.
Qed.

Section routed.
Context (w : world) (a : string) (p : process) (key : keyFunc) (ctx : headers) (request : Ping) (k : string).
Context (Hw : world_ok w) (Hp : wd_procs w !! a = Some p) (Hcfg : pc_config p = Some key).
Context (Hf : HasForwardedHeader ctx = false) (Hk : key ctx (Some request) = inl k).
Context (Hfit : headersFit (SetForwardedHeader ctx)) (Hreq : Z.of_nat (String.length (Key request)) < 2 ^ 31).
Context (Hsmall : smallImpl).

Lemma callPing_client fuel c r :
  GetClient factory (pc_lookup p k) (pc_whoami p) (pc_router p) = Some (c, r) →
  callPing (S fuel) a ctx (Some request) w =
    match c with
    | inr err => mret (inr (RingError err))
    | inl LocalClient => handleHere a (SetForwardedHeader ctx) (Some request)
    | inl (RemoteClient hostport) => remotePing hostport (callPing fuel hostport) (SetForwardedHeader ctx) (Some request)
    end (mkWorld (<[a := setRouter p r]> (wd_procs w)) (wd_handled w)).
Proof using Hp Hcfg Hf Hk.
  intros Hget. cbn [callPing]. unfold get, mbind, M_bind, onRouter. rewrite Hp, Hcfg, Hf, Hk, Hget. by destruct c as [[]|].
Qed.

(** What becomes of a call that the ring sends to [d]. *)
Definition sentTo (d : string) (w' : world) (res : option Pong + callError (E := E)) : Prop :=
  let ctx := SetForwardedHeader ctx in
  let attempts := attemptsAllowed retry in
  if bool_decide (d = a) then
    wd_handled w' = wd_handled w ++ [(a, ctx, Some request)] ∧ res = implAnswer (length (wd_handled w)) a ctx (Some request)
  else match wd_procs w !! d with
  | None => wd_handled w' = wd_handled w ∧ res = if bool_decide (attempts = 0%nat) then inl None else inr (TransportError NetError)
  | Some _ =>
      ∃ m, (m ≤ attempts)%nat ∧ wd_handled w' = wd_handled w ++ replicate m (d, ctx, Some request) ∧
        (∀ o, res = inl o → (0 < attempts)%nat →
           ∃ j, m = S j ∧ implAnswer (length (wd_handled w) + j) d ctx (Some request) = inl o) ∧
        let first := toCaller (implAnswer (length (wd_handled w)) d ctx (Some request)) in
        ((0 < attempts)%nat → faults d 0%nat = None → again first = false → m = 1%nat ∧ res = first)
  end.

Lemma sent_call d r :
  d ≠ a → process_ok a (setRouter p r) →
  let w1 := mkWorld (<[a := setRouter p r]> (wd_procs w)) (wd_handled w) in
  ∃ res w', (∀ fuel, remotePing d (callPing (S fuel) d) (SetForwardedHeader ctx) (Some request) w1 = Some (res, w')) ∧
    world_ok w' ∧ sentTo d w' res.
Proof using Hw Hfit Hreq Hsmall.
  intros Hd Hr w1. set (ctx' := SetForwardedHeader ctx).
  assert (world_ok w1) as Hw1 by (by apply map_Forall_insert_2).
  assert (wd_procs w1 !! d = wd_procs w !! d) as Hsame by (simpl; by rewrite lookup_insert_ne).
  assert (∀ fuel, remotePing d (callPing (S fuel) d) ctx' (Some request) w1 =
    retries (faultsTo w1 d) (handleHere d) (attemptsAllowed retry) 0 (inl None) ctx' (Some request) w1) as Hcall.
  { intros fuel. by apply remote_call; [apply forwarded_is_forwarded|..]. }
  unfold sentTo. rewrite bool_decide_false by done. unfold faultsTo in Hcall. rewrite Hsame in Hcall.
  destruct (wd_procs w !! d) as [q|] eqn:Hq.
  2: { eexists _, w1. split; [intros fuel; rewrite Hcall; apply retried_absent|]. done. }
  destruct (retried_at (faults d) (attemptsAllowed retry) 0 (inl None) d ctx' (Some request) w1)
    as (res & w' & m & Hrun & [[Hp' Hh'] Hm Ha]).
  exists res, w'. split; [intros fuel; by rewrite Hcall|]. split; [unfold world_ok; by rewrite Hp'|].
  exists m. split_and!; [done|done|done|]. intros Hpos H0 Hag.
  pose proof (retried_once systemCode isProtocolException isNetError retry (faults d) (handleHere d) (attemptsAllowed retry)
    (inl None) ctx' (Some request) w1 _ _ Hpos H0 eq_refl Hag) as Honce.
  rewrite Hrun in Honce. injection Honce as -> Hw'. split; [|done]. apply (f_equal wd_handled) in Hw'. rewrite Hh' in Hw'.
  simpl in Hw'. apply app_inv_head, (f_equal length) in Hw'. by rewrite length_replicate in Hw'.
Qed.

Lemma routed_call :
  ∃ res w', (∀ fuel, callPing (S (S fuel)) a ctx (Some request) w = Some (res, w')) ∧ world_ok w' ∧
    match pc_lookup p k with
    | inr e => res = inr (RingError e) ∧ wd_handled w' = wd_handled w
    | inl d => (∃ e, pc_whoami p = inr e ∧ res = inr (RingError e) ∧ wd_handled w' = wd_handled w) ∨ sentTo d w' res
    end.
Proof using All.
  pose proof (Hw a p Hp) as Hpa.
  destruct (wp_run _ _ _ (GetClient_leads a p (pc_lookup p k) Hpa)) as (c & r & Hget & Hr & Hc).
  set (w1 := mkWorld (<[a := setRouter p r]> (wd_procs w)) (wd_handled w)).
  assert (world_ok w1) as Hw1 by (by apply map_Forall_insert_2).
  pose proof (λ fuel, callPing_client (S fuel) c r Hget) as Hcall. fold w1 in Hcall.
  destruct (pc_lookup p k) as [d|e]; [|subst c; by exists (inr (RingError e)), w1].
  destruct Hc as [->|(e & Hwho & ->)]; [|exists (inr (RingError e)), w1; split_and!; [done..|left; eauto]].
  unfold clientFor in Hcall. case_bool_decide as Hd.
  { subst d. eexists _, _. split_and!; [exact Hcall|done|right]. unfold sentTo. by rewrite bool_decide_true. }
  destruct (sent_call d r Hd Hr) as (res & w' & Hs & Hok & Hres). exists res, w'. split_and!; [|done|by right].
  intros fuel. by rewrite Hcall, Hs.
Qed.
End routed.

(** C30: forwarding is bounded although the rings may disagree: a call that arrives
    at a process makes at most one hop, whatever the rings of the processes
    answer and whatever clients they have cached, and it is handled by the
    implementation of one process at most, with the request as it was sent.  A
    call that is not configured or was already forwarded is handled where it
    arrives, once, with its headers.  Any other is handled, marked as forwarded,
    by the process that the ring of the first names for its key, unless the key
    function, the lookup or the identity fails: once when that is the first
    process itself, and otherwise over the network, where the retries of the
    client may have it handled more than once, but no more often than attempts
    are allowed, and not at all when the process is not there; an answer that
    the caller gets is that of the last time, and if the first attempt meets no
    fault and its answer is not an error to retry, it is handled exactly once
    and the caller gets that answer.  The headers have to fit their format and
    the strings to be below 2^31 bytes. *)
Theorem forwarded_to_one_process w a p ctx request :
  world_ok w → wd_procs w !! a = Some p → headersFit (SetForwardedHeader ctx) →
  Z.of_nat (String.length (Key request)) < 2 ^ 31 → smallImpl →
  ∃ res w', (∀ fuel, callPing (S (S fuel)) a ctx (Some request) w = Some (res, w')) ∧ world_ok w' ∧
    let here := handledBy w w' 1 a ctx (Some request) ∧ res = implAnswer (length (wd_handled w)) a ctx (Some request) in
    match pc_config p with
    | None => here
    | Some key =>
        if HasForwardedHeader ctx then here
        else
          match key ctx (Some request) with
          | inr e => res = inr (KeyError e) ∧ w' = w
          | inl k =>
              match pc_lookup p k with
              | inr e => res = inr (RingError e) ∧ wd_handled w' = wd_handled w
              | inl d => (∃ e, pc_whoami p = inr e ∧ res = inr (RingError e) ∧ wd_handled w' = wd_handled w) ∨
                  sentTo w a ctx request d w' res
              end
          end
    end.
Proof.
  intros Hw Hp Hfit Hreq Hsm.
  assert (pc_config p = None ∨ HasForwardedHeader ctx = true →
    ∃ res w', (∀ fuel, callPing (S (S fuel)) a ctx (Some request) w = Some (res, w')) ∧ world_ok w' ∧
      handledBy w w' 1 a ctx (Some request) ∧ res = implAnswer (length (wd_handled w)) a ctx (Some request)) as Hhere.
  { intros Hc. eexists _, _. split; [intros fuel; by rewrite (callPing_handles _ w a p)|]. by split. }
  destruct (pc_config p) as [key|] eqn:Hcfg; [|by apply Hhere; left].
  destruct (HasForwardedHeader ctx) eqn:Hf; [by apply Hhere; right|]. clear Hhere.
  destruct (key ctx (Some request)) as [k|e] eqn:Hk; [by apply (routed_call w a p key)|].
  exists (inr (KeyError e)), w. split; [|by split]. intros fuel. cbn [callPing].
  unfold get, mbind, M_bind. by rewrite Hp, Hcfg, Hf, Hk.
Qed.
End adapter.

(** Two processes whose rings name each other for the same key. *)
Definition someOrder (_ : headers) : choice * choice := ([1%nat], []).
Definition echo (_ : nat) (a : string) (_ : headers) (request : option Ping) : option Pong + string :=
  inl (Some (mkPong (if bool_decide (a = "a") then "from a" else "from b"))).
Definition byRequest (_ : headers) (request : option Ping) : string + string :=
  match request with Some p => inl (Key p) | None => inr "no request" end.
Definition processA : process (E := string) := mkProcess (Some byRequest) (λ _, inl "b") (inl "a") New.
Definition processB : process (E := string) := mkProcess (Some byRequest) (λ _, inl "a") (inl "b") New.
Definition disagreeing : world (E := string) := mkWorld {["a" := processA; "b" := processB]} [].

Lemma disagreeing_ok : world_ok disagreeing.
Proof.
  apply map_Forall_insert_2; [|apply map_Forall_singleton]; (split; [apply map_Forall_empty|by intros me [= <-]]).
Qed.

(** A call to "a" over a network with these faults. *)
Definition callA (faults : nat → option fault) (fuel : nat) : M (world (E := string)) (option Pong + callError) :=
  callPing someOrder busyCode (λ _, false) (λ _, false) None echo (λ _, faults) fuel "a" ∅ (Some (Thrift.mkPing "key")).

Definition timesHandled (x : option ((option Pong + callError (E := string)) * world (E := string))) : option nat :=
  match x with Some (_, w) => Some (length (wd_handled w)) | None => None end.

(** The call is not sent back and forth between them; it is handled once when all
    goes well, and five times when every answer is lost. *)
Example no_ping_pong :
  fst <$> callA (λ _, None) 2 disagreeing = Some (inl (Some (mkPong "from b"))) ∧
  timesHandled (callA (λ _, None) 2 disagreeing) = Some 1%nat ∧
  timesHandled (callA (λ _, Some (NotAnswered NetError)) 2 disagreeing) = Some 5%nat.
Proof. split_and!; by vm_compute. Qed.

Lemma forwarded_to_one_process_witness :
  ∃ res w', (∀ fuel, callA (λ _, None) (S (S fuel)) disagreeing = Some (res, w')) ∧ world_ok w' ∧
    ((∃ e, (inl "a" : string + string) = inr e ∧ res = inr (RingError e) ∧ wd_handled w' = []) ∨
     sentTo busyCode (λ _, false) (λ _, false) None echo (λ _ _, None) disagreeing "a" ∅ (Thrift.mkPing "key") "b" w' res).
Proof.
  refine (forwarded_to_one_process someOrder busyCode (λ _, false) (λ _, false) None echo (λ _ _, None)
    disagreeing "a" processA ∅ (Thrift.mkPing "key") _ _ _ _ _).
  - apply disagreeing_ok.
  - reflexivity.
  - split; [vm_compute; reflexivity|]. apply map_Forall_singleton. split; vm_compute; reflexivity.
  - vm_compute. reflexivity.
  - intros k b ctx request. unfold implAnswer, echo. case_bool_decide; vm_compute; reflexivity.
Defined.
