(* ===== verification/Replicator.v ===== *)
(** * Replicator: replicated reads and writes (replica/replicator.go)

    The sender's LookupN is answered by the world ([lookupNs k], the nodes the
    [k]-th question finds; an error finds none), and requests go through the
    forwarder.  The goroutines of a parallel fanout run one after another, in
    an order the world chooses. *)
From S2P Require Import Prelude GoStd NodeState Util Forwarder ForwarderSpec.
#[local] Open Scope Z_scope.

(** ** Options *)
Definition Parallel : Z := 0.
Definition SerialSequential : Z := 1.
Definition SerialBalanced : Z := 2.

Record rplOptions : Type := mkRplOptions {
  NValue : Z;
  RValue : Z;
  WValue : Z;
  FanoutMode : Z
}.

Definition selectFanoutMode (mode : Z) : Z :=
  if bool_decide (mode = Parallel ∨ mode = SerialSequential ∨ mode = SerialBalanced) then mode else Parallel.

Definition rplMergeDefaultOptions (opts : option rplOptions) (def : rplOptions) : rplOptions :=
  match opts with
  | None => def
  | Some o =>
      mkRplOptions (SelectInt (NValue o) (NValue def)) (SelectInt (RValue o) (RValue def))
        (SelectInt (WValue o) (WValue def)) (selectFanoutMode (FanoutMode o))
  end.

(** ** State *)
Record rplEnv : Type := mkRplEnv {
  lookupNs : nat → string → Z → list string;
  rplOrders : nat → choice
}.

Record Replicator : Type := mkReplicator {
  rpl_forwarder : Forwarder;
  rpl_defaults : rplOptions;
  rpl_env : rplEnv;
  rpl_tick : nat
}.

Record rplResponse : Type := mkResponse {
  Destination : string;
  Keys : list string;
  Body : string
}.

Inductive rplError : Type :=
| ErrRwExceedsN
| ErrRwNotSatisfiedByDestination
| ErrRwNotSatisfied.

Record callOptions : Type := mkCallOptions {
  co_Dests : list string;
  co_KeysByDest : gmap string (list string)
}.

Inductive rwKind : Type := read | write.

Abbreviation RPL := (M Replicator).

Definition NewReplicator (fe : fwEnv) (e : rplEnv) (opts : option rplOptions) : Replicator :=
  mkReplicator (NewForwarder fe) (rplMergeDefaultOptions opts (mkRplOptions 3 1 3 Parallel)) e 0.

Definition rplSample {A} (stream : rplEnv → nat → A) : RPL A := λ s,
  Some (stream (rpl_env s) (rpl_tick s),
        mkReplicator (rpl_forwarder s) (rpl_defaults s) (rpl_env s) (S (rpl_tick s))).

Definition rplForward {A} (m : FW A) : RPL A := λ s,
  match m (rpl_forwarder s) with
  | Some (a, f) => Some (a, mkReplicator f (rpl_defaults s) (rpl_env s) (rpl_tick s))
  | None => None
  end.

(** ** groupReplicas *)
Definition addKey (key : string) (keysByDest : gmap string (list string)) (dest : string) : gmap string (list string) :=
  <[dest := default [] (keysByDest !! dest) ++ [key]]> keysByDest.

Fixpoint groupLoop (keys : list string) (n : Z) (destsByKey keysByDest : gmap string (list string))
    : RPL (gmap string (list string) * gmap string (list string)) :=
  match keys with
  | [] => mret (destsByKey, keysByDest)
  | key :: keys =>
      look ← rplSample lookupNs;
      let dests := look key n in
      groupLoop keys n (<[key := dests]> destsByKey) (foldl (addKey key) keysByDest dests)
  end.

Definition groupReplicas (keys : list string) (n : Z) : RPL (gmap string (list string) * gmap string (list string)) :=
  groupLoop keys n ∅ ∅.

(** ** Fanning out *)

(** The format of the call options is never set, so the call is not a Thrift
    call. *)
Definition forwardRequest (fuel : nat) (dest : string) (copts : callOptions) (fopts : option fwOptions)
    : RPL (rplResponse + forwardError) :=
  let keys := default [] (co_KeysByDest copts !! dest) in
  r ← rplForward (ForwardRequest fuel dest keys false fopts);
  mret (match r with inl res => inl (mkResponse dest keys res) | inr err => inr err end).

Fixpoint forwardAll (fuel : nat) (dests : list string) (copts : callOptions) (fopts : option fwOptions)
    (responses : list rplResponse) (errors : list forwardError) : RPL (list rplResponse * list forwardError) :=
  match dests with
  | [] => mret (responses, errors)
  | dest :: dests =>
      r ← forwardRequest fuel dest copts fopts;
      match r with
      | inl res => forwardAll fuel dests copts fopts (responses ++ [res]) errors
      | inr err => forwardAll fuel dests copts fopts responses (errors ++ [err])
      end
  end.

Definition parallel (fuel : nat) (copts : callOptions) (fopts : option fwOptions)
    : RPL (list rplResponse * list forwardError) :=
  c ← rplSample rplOrders;
  forwardAll fuel (arrange c (co_Dests copts)) copts fopts [] [].

Definition serial (fuel : nat) (copts : callOptions) (fopts : option fwOptions) (opts : rplOptions)
    : RPL (list rplResponse * list forwardError) :=
  dests ← (if bool_decide (FanoutMode opts = SerialBalanced)
           then c ← rplSample rplOrders; mret (arrange c (co_Dests copts))
           else mret (co_Dests copts));
  forwardAll fuel dests copts fopts [] [].

(** ** readWrite *)
Definition destinations (keys : list string) (destsByKey keysByDest : gmap string (list string)) : RPL (list string) :=
  match keys with
  | [key] => mret (default [] (destsByKey !! key))
  | _ => c ← rplSample rplOrders; mret (arrange c (map_to_list keysByDest).*1)
  end.

Definition readWrite (fuel : nat) (rw : rwKind) (keys : list string) (fopts : option fwOptions) (opts : rplOptions)
    : RPL (list rplResponse * option rplError) :=
  let rwValue := match rw with read => RValue opts | write => WValue opts end in
  if bool_decide (NValue opts < rwValue) then mret ([], Some ErrRwExceedsN)
  else
    '(destsByKey, keysByDest) ← groupReplicas keys (NValue opts);
    dests ← destinations keys destsByKey keysByDest;
    if bool_decide (Z.of_nat (length dests) < rwValue) then mret ([], Some ErrRwNotSatisfiedByDestination)
    else
      let copts := mkCallOptions dests keysByDest in
      '(responses, errs) ←
        (if bool_decide (FanoutMode opts = Parallel) then parallel fuel copts fopts
         else if bool_decide (FanoutMode opts = SerialSequential ∨ FanoutMode opts = SerialBalanced)
              then serial fuel copts fopts opts
              else mret ([], []));
      mret (responses,
            if bool_decide (Z.of_nat (length responses) < rwValue) then Some ErrRwNotSatisfied else None).

Definition Read (fuel : nat) (keys : list string) (fopts : option fwOptions) (opts : option rplOptions)
    : RPL (list rplResponse * option rplError) :=
  def ← gets rpl_defaults;
  readWrite fuel read keys fopts (rplMergeDefaultOptions opts def).

Definition Write (fuel : nat) (keys : list string) (fopts : option fwOptions) (opts : option rplOptions)
    : RPL (list rplResponse * option rplError) :=
  def ← gets rpl_defaults;
  readWrite fuel write keys fopts (rplMergeDefaultOptions opts def).
