(* ===== verification/ReplicatorSpec.v ===== *)
(** * ReplicatorSpec: a replicated request reaches its replicas once each and
    succeeds exactly with a quorum *)
From S2P Require Import Prelude GoStd NodeState Util Forwarder ForwarderSpec Replicator.
#[local] Open Scope Z_scope.

(** ** Grouping *)









(** ** Fanning out *)






Definition rplFuel (fopts : option fwOptions) : nat := S (Z.to_nat (MaxRetries (fwMergeDefaultOptions fopts))).













(** Read and Write, and the number of replicas each needs. *)
Definition request (rw : rwKind) := match rw with read => Read | write => Write end.


(** ** A write to three nodes of which one is down *)
Definition threeNodes : rplEnv := mkRplEnv (λ _ _ _, ["b"; "c"; "d"]) (λ _, []).


(** With RerouteRetries one server can satisfy a quorum of three: when "c" and "d"
    are down and their keys go to "b" by the time of the retry, the write to
    "b", "c" and "d" succeeds with three responses, all of them from "b". *)
Definition onlyB : fwEnv :=
  mkFwEnv (λ k, if bool_decide (k = 1%nat ∨ k = 5%nat) then BeginCallError else Response false "ok" None)
    (λ _ _, Some "b") (λ _, []).
Definition rerouting : option fwOptions := Some (mkFwOptions 3 true None 0).
Definition strictWriter : Replicator := NewReplicator onlyB threeNodes (Some (mkRplOptions 3 3 3 SerialSequential)).

Example rerouted_quorum_of_one_server :
  ∃ resps s', request write (rplFuel rerouting) ["k"] rerouting None strictWriter = Some ((resps, None), s') ∧
    Destination <$> resps = ["b"; "c"; "d"] ∧ fw_called (rpl_forwarder s') = ["b"; "c"; "b"; "d"; "b"].
Proof. do 2 eexists. split; [vm_compute; reflexivity|]. split; reflexivity. Qed.
