(* ===== verification/ReplicaRing.v ===== *)
(** * ReplicaRing: replication over the nodes of a ring

    What the replicator asks of its sender is stated as a class; the lookups of
    a ring are an instance. *)
From S2P Require Import Prelude GoStd TreeIface RBTree RBMap HashRing HashRingSpec RingProps NodeState Util.
From S2P Require Import Forwarder ForwarderSpec Replicator ReplicatorSpec.
#[local] Open Scope Z_scope.


Section ring_sender.
Context {T : Type} `{RingTreeLaws T}.
Context (hashfunc : string → Z) (hash_range : ∀ s, hash32 (hashfunc s)).


End ring_sender.









